(* ===== verification/_CoqProject ===== *)
-Q . S2P
Prelude.v
Text.v
StreamIds.v
RespCodec.v
Scores.v
SortedSets.v
Store.v
StoreSteps.v
StoreSpec.v
BlockingManager.v
PubSub.v
Connection.v
Sha256.v
Acl.v
ReplicaManager.v
Doubles.v
DoublesSpec.v
Geo.v
Aof.v
Context.v
Cli.v
Rdb.v
StringCommands.v
ListCommands.v
StreamCommands.v
ZsetCommands.v
GeoCommands.v
GeoSpec.v
PubsubCommands.v
ServerCommands.v
CommandHandler.v
HandlerTypes.v
HandlerTrace.v
HandlerInvariants.v
WakeSpec.v
HandlerSpec.v
ClientSpec.v
ReplicaConnector.v
EventLoop.v
Descriptors.v
EventDispatch.v
Main.v
AofReplay.v
KeyspaceSpec.v
LogReplay.v
ServerInvariants.v
ServerSpec.v
