(* ===== verification/Prelude.v ===== *)
(** * Credis, a Redis-compatible server: its model and what is proved of it

    ** The program

    A single-threaded server (src/src).  [main] reads the options, replays the
    append-only file, loads the snapshot, connects to a master if it is a replica, and
    turns the event loop.  Each ready descriptor is dispatched: the listener accepts a
    client; the bytes of a client go into its [Connection], the [CommandHandler] parses
    them with the RESP codec and runs each command on the [Store], and the writes go on
    to the replicas; a replica's bytes are acknowledgements; the master's are commands.
    Replies go to the client's pending output, which is flushed before the server sleeps.
    Commands may also block the client (blocking_manager), send to subscribers (pubsub),
    wait for replicas (replica), write to the append-only file (aof), and are guarded by
    the access control list (server/acl_manager.hpp).

    ** The files, in dependency order

    Prelude.v         outcomes, machine integers, tactics and lemmas all files share
    Text.v            decimal text, from_chars, case mapping (util/parse.hpp, util/string_utils.hpp)
    StreamIds.v       stream identifiers and entries (store/stream_id.hpp, store/stream_entry.hpp)
    RespCodec.v       the two parsers and all the encoders (protocol/resp_codec.cpp)
    Scores.v          the order on (score, member) pairs of the sorted sets
    SortedSets.v      [SortedSet]: a std::set and an index of members (store/store.hpp)
    Store.v           the keyspace and every operation on it (store/store.cpp)
    StoreSteps.v      sequences of store operations, and what holds after them
    StoreSpec.v       what each operation computes
    BlockingManager.v blocked clients (blocking_manager)
    PubSub.v          subscriptions (pubsub)
    Connection.v      read buffers, pending output, the connection pool (connection)
    Sha256.v          digests and the hexadecimal identifier (util/sha256.cpp)
    Acl.v             users and passwords (server/acl_manager.hpp)
    ReplicaManager.v  replicas, acknowledgements, WAIT (replica/replica_manager.cpp)
    Doubles.v         reading and printing of doubles (parse_double, "%.17g")
    DoublesSpec.v     rounding to nearest, and why 17 digits are enough
    Geo.v             geographic scores (geo/geo_score.hpp)
    Aof.v             the append-only file and its rewrite (aof)
    Context.v         what a command works on, and the monad the handlers are written in
    Cli.v             the options of the command line (cli)
    Rdb.v             the snapshot file read at start-up (rdb)
    StringCommands.v, ListCommands.v, StreamCommands.v, ZsetCommands.v, GeoCommands.v,
    PubsubCommands.v, ServerCommands.v   the handlers (handler, one file each)
    GeoSpec.v         what a geographic score keeps of the positions GEOADD accepts
    CommandHandler.v  the command table, the checks, transactions and the loop over a
                      buffer (handler/command_handler.cpp)
    HandlerTypes.v    which types and keys a command leaves, and which commands only read
    HandlerTrace.v    what every command does to the store, the pool and the managers
    HandlerInvariants.v  the handler's state under any input
    WakeSpec.v        the commands that write to other clients
    HandlerSpec.v     pipelining, termination of the loop, EXEC after a watched change
    ClientSpec.v      what a client's buffer does: authentication, MULTI, EXEC
    ReplicaConnector.v  the replica's side of replication (replica/replica_connector.cpp)
    EventLoop.v       the listening socket and the loop over ready descriptors (server/server.cpp, event_loop)
    Descriptors.v     who owns an open descriptor: construction, moves and destruction of the
                      listener, the event loop, the connections and the connector
    EventDispatch.v   one event, and the timeout before the next (server/event_dispatch.cpp)
    Main.v            start-up and the turns of the loop (main.cpp)
    AofReplay.v       the keyspace that a restart rebuilds from a rewritten log
    KeyspaceSpec.v    the write commands as an abstract server, and that the handlers refine it
    LogReplay.v       the keyspace that a restart rebuilds from the commands as they were logged
    ServerInvariants.v  what holds of the whole server at every moment
    ServerSpec.v      replication, timeouts, disconnects, seen from the event loop

    ** How the code is translated

    A function of the source is a function here, with the state it changes as argument
    and result.  A result is an [outcome]: a value, a thrown exception, or undefined
    behaviour of a named kind (signed overflow, an index out of range, a conversion of
    a double that does not fit, a copy outside a buffer, a dangling iterator), so that
    a theorem that says "= Ret ..." also says that none of these happens.  Integers are
    [Z] at their width: [int64_of] and [int32_of] are undefined outside it, [u64] and
    [u32] wrap.  Strings are lists of characters.  An unordered_map is a [gmap], a
    std::set of pairs a sorted list, a std::list of clients a list of numbered nodes, so
    that an iterator to an erased node can be told from a live one.  A double is a
    binary64 [spec_float] of the Standard Library.  The clocks, the results of the
    system calls (recv, send, read, connect, accept, bind, epoll_wait, fork, the exit
    status of the child), the random device and the file system are arguments; sin, cos
    and asin of the C library are parameters of the geographic commands.  The clocks are
    read once per command, and by the child of a rewrite twice for each key.

    A handler is in the monad [M] of Context.v: it reads the clocks, changes the context
    and records what it writes, [Emit] for the client's own reply and [Send] for a
    message to another client, in order.  The objects that [main] owns and the handler
    refers to (the pool, the managers, the log) are fields of the handler's context, and
    the event context reaches them there, so that there is one copy of each.

    ** What is proved

    - The whole server (ServerInvariants): from start-up, whatever the options, the
      files, the clients and the master do, as long as the kernel keeps its contract, no
      score is a NaN and no call throws or is undefined, the keyspace is well formed, the
      blocked clients and subscriptions are indexed without a dangling iterator, and the
      polled descriptors are the connections of the pool, the listener and the master.
    - The event loop (ServerSpec): writes reach every replica, in order, and advance the
      offset by their bytes; after [compute_timeout] nobody whose time is up is left and
      the server does not sleep past the next deadline; a client that leaves is in no
      table; the handshake of a replica succeeds against this server's own answers, when
      each of them comes in one read.
    - The keyspace (StoreSteps, HandlerTrace, HandlerInvariants): after any sequence of
      operations, and so after any bytes clients send, streams are in increasing
      identifier order and sorted sets are ordered with both their structures in
      agreement; the version of a key changes whenever what is seen of the key does.
    - The commands (KeyspaceSpec, HandlerTypes): on keyspaces without expiry times the
      write commands send the replies and leave the keyspaces of an abstract server that
      maps keys to values; on any keyspace no command (but an EXEC of a SET that expires
      at once) removes a visible key or changes its type, and the reading commands change
      nothing but expired entries, not even the versions that WATCH goes by.
    - Each operation (StoreSpec): sorted sets refine a map from members to scores;
      stream queries by binary search are filters; XADD, SET, INCR, ranges and pops.
    - Protocol (RespCodec, Connection): commands round-trip, the appending encoders
      agree with the others, parsing stays in bounds except for the last line end, the
      read buffer is a byte queue, and flushing writes to every socket what it takes.
    - Handler (HandlerSpec, ClientSpec, WakeSpec): a pipeline is the sequence of its
      commands; without authentication commands only get errors, and only AUTH
      authenticates; MULTI queues (in both cases the write commands are logged and
      replicated all the same, as the code does it); EXEC runs the queue in order or, when
      a watched key has changed, nothing; XADD wakes exactly the readers behind; RPUSH, LPUSH and PUBLISH
      reach the clients they should; SET and GET from bytes to bytes.
    - The managers (BlockingManager, PubSub, ReplicaManager, Acl, Aof): queues are
      first come first served and no iterator dangles; subscriptions are a relation; a
      WAIT is answered when it should be; passwords; a rewrite loses no command.
    - Files and streams (Rdb, ReplicaConnector): a snapshot of string keys is read back;
      the snapshot of a master is taken from the stream however the reads cut it, and its
      commands are unless a read ends within the last line end of one.
    - Durability (AofReplay, LogReplay): a rewrite of the log followed by a restart gives
      every live key back that is not an empty list, stream or sorted set, of all four
      types, and then runs the commands logged meanwhile; the log that a server writes
      while it serves authenticated clients outside of MULTI accounts for its keyspace, and
      a restart gives that keyspace back.
    - Resources (Descriptors): no descriptor is closed twice or left open, and each open
      one has one owner; after a signal the event loop takes no further turn.
    - Numbers (Sha256, Doubles, DoublesSpec, GeoSpec): word operations, padding and test
      vectors; every double reads back from its text; the score of every accepted place
      holds both cells, and keeps them as a double except on the upper bounds.

    Where the code does something else than one expects, the theorem states what the
    code does: [parse_one_on_prefix], [split_line_end_overruns],
    [push_serves_longest_waiting], [ranges_are_slices], [encoders_reserve],
    [replica_throws_on_command], [wait_answered_before_write], [split_line_end_stalls],
    [long_length_misread], [refused_write_is_replayed], [upper_bound_loses_a_bit],
    [flush_all_drains].

    ** Fuel

    Recursion is on the data where it can be.  [process_loop] has the length of the
    buffer as fuel, and [process_loop_terminates] shows that more changes nothing, as a
    command consumes at least one byte.  [wake_readers] has one more than the number of
    waiting clients, of which every turn removes one.  The binary searches have the
    length of the stream plus one; their specifications hold with that.  Decimal
    printing has the number of bits of its argument.  The loops of the snapshot parser
    have the length of the file, and a replica's loop over its buffer the length of the
    buffer: every turn consumes a byte.  The reads of the handshake are a list, one size
    per call; the event loop runs as long as the list of what [epoll_wait] returns.

    ** What is not modelled

    The logger (util/logger.hpp) writes lines to the standard error output and nothing reads
    them.  The hash functor of strings (util/string_hash.hpp) only places keys in
    buckets; a [gmap] has no order, and no theorem depends on one.  The headers of the
    handlers only declare them.  The thread that calls fsync is a flag.  Directories are
    part of the names of files, so that creating one ([ensure_directory]) does nothing.
    The descriptor of the log is a field of [AofManager] (Aof.v), not an object of
    Descriptors.v; the class has no moves.  The sequence number in the names of the log's
    files is not bounded; the int of the source overflows after 2 ^ 31 rewrites.  A NaN of
    [spec_float] has no sign, so that all of them print as nan.  Memory does not run out,
    and the encoders' buffer for the digits of a length has room for them. *)

From Stdlib Require Export Ascii String ZArith Lia.
From stdpp Require Export base gmap strings list list_numbers sorting.

(** ** Byte strings

    [std::string], [std::string_view] and [std::vector<char>] are lists of
    characters; [bs] turns a literal into one. *)
Abbreviation bytes := (list ascii).

Definition bs (s : string) : bytes := String.list_ascii_of_string s.

(** The two characters ["\r\n"] that end every RESP line. *)
Definition CR : ascii := ascii_of_nat 13.
Definition LF : ascii := ascii_of_nat 10.
Definition CRLF : bytes := [CR; LF].

(** ** Outcomes

    A C++ call returns a value, throws, or has undefined behaviour.  The last
    two are values here, so that a theorem can say which inputs reach them. *)
Inductive ub_kind :=
| SignedOverflow
| IndexOutOfRange
| BadCast
| MemoryOverrun
| DanglingIterator.

Inductive exn :=
| StdOutOfRange
| StdBadFunctionCall.

Inductive outcome (A : Type) :=
| Ret (a : A)
| Throw (e : exn)
| Ub (u : ub_kind).
Arguments Ret {A} _.
Arguments Throw {A} _.
Arguments Ub {A} _.

#[export] Instance outcome_ret : MRet outcome := @Ret.
#[export] Instance outcome_bind : MBind outcome := fun A B f m =>
  match m with
  | Ret a => f a
  | Throw e => Throw e
  | Ub u => Ub u
  end.
#[export] Instance outcome_fmap : FMap outcome := fun A B f m =>
  match m with
  | Ret a => Ret (f a)
  | Throw e => Throw e
  | Ub u => Ub u
  end.

(** [a[i]] on a vector: out of range is undefined behaviour. *)
Definition vec_at {A} (l : list A) (i : nat) : outcome A :=
  match l !! i with
  | Some x => Ret x
  | None => Ub IndexOutOfRange
  end.

(** ** Machine integers *)
Open Scope Z_scope.

Definition INT32_MIN : Z := - 2 ^ 31.
Definition INT32_MAX : Z := 2 ^ 31 - 1.
Definition INT64_MIN : Z := - 2 ^ 63.
Definition INT64_MAX : Z := 2 ^ 63 - 1.
Definition UINT64_MAX : Z := 2 ^ 64 - 1.

Definition in_int32 (z : Z) : Prop := INT32_MIN <= z <= INT32_MAX.
Definition in_int64 (z : Z) : Prop := INT64_MIN <= z <= INT64_MAX.
Definition in_int32b (z : Z) : bool := (INT32_MIN <=? z) && (z <=? INT32_MAX).
Definition in_int64b (z : Z) : bool := (INT64_MIN <=? z) && (z <=? INT64_MAX).

(** Unsigned arithmetic wraps; a conversion to a signed type wraps too. *)
Definition u8 (z : Z) : Z := z mod 2 ^ 8.
Definition u32 (z : Z) : Z := z mod 2 ^ 32.
Definition u64 (z : Z) : Z := z mod 2 ^ 64.
Definition s64 (z : Z) : Z := (z + 2 ^ 63) mod 2 ^ 64 - 2 ^ 63.

(** Signed arithmetic whose exact result does not fit is undefined. *)
Definition int32_of (z : Z) : outcome Z := if in_int32b z then Ret z else Ub SignedOverflow.
Definition int64_of (z : Z) : outcome Z := if in_int64b z then Ret z else Ub SignedOverflow.

(** ** Automation *)
Create HintDb credis discriminated.

(** Destructs the innermost scrutinee of a match in the goal. *)
Ltac case_goal :=
  match goal with
  | |- context [match ?x with _ => _ end] =>
      lazymatch x with
      | context [match _ with _ => _ end] => fail
      | _ => destruct x eqn:?
      end
  end.

(** The same on a hypothesis. *)
Ltac case_hyp H :=
  match type of H with
  | context [match ?x with _ => _ end] =>
      lazymatch x with
      | context [match _ with _ => _ end] => fail
      | _ => destruct x eqn:?
      end
  end.

(** Turns the boolean comparisons of the context into propositions. *)
Ltac b2p :=
  repeat match goal with
  | H : (_ && _)%bool = true |- _ => apply andb_true_iff in H as [? ?]
  | H : (_ || _)%bool = false |- _ => apply orb_false_iff in H as [? ?]
  | H : (_ =? _)%Z = true |- _ => apply Z.eqb_eq in H
  | H : (_ =? _)%Z = false |- _ => apply Z.eqb_neq in H
  | H : (_ <=? _)%Z = true |- _ => apply Z.leb_le in H
  | H : (_ <=? _)%Z = false |- _ => apply Z.leb_gt in H
  | H : (_ <? _)%Z = true |- _ => apply Z.ltb_lt in H
  | H : (_ <? _)%Z = false |- _ => apply Z.ltb_ge in H
  | H : (_ <=? _)%nat = true |- _ => apply Nat.leb_le in H
  | H : (_ <=? _)%nat = false |- _ => apply Nat.leb_gt in H
  | H : (_ <? _)%nat = true |- _ => apply Nat.ltb_lt in H
  | H : (_ <? _)%nat = false |- _ => apply Nat.ltb_ge in H
  | H : (_ =? _)%nat = true |- _ => apply Nat.eqb_eq in H
  | H : (_ =? _)%nat = false |- _ => apply Nat.eqb_neq in H
  | H : bool_decide _ = true |- _ => apply bool_decide_eq_true in H
  | H : bool_decide _ = false |- _ => apply bool_decide_eq_false in H
  | H : negb _ = true |- _ => apply negb_true_iff in H
  | H : negb _ = false |- _ => apply negb_false_iff in H
  end.

(** ** Shared lemmas *)
Lemma in_int32b_spec z : in_int32b z = true <-> in_int32 z.
Proof. unfold in_int32b, in_int32. rewrite andb_true_iff, !Z.leb_le. lia. Qed.

Lemma in_int64b_spec z : in_int64b z = true <-> in_int64 z.
Proof. unfold in_int64b, in_int64. rewrite andb_true_iff, !Z.leb_le. lia. Qed.

Lemma int32_of_ret z : in_int32 z -> int32_of z = Ret z.
Proof. intros H%in_int32b_spec. unfold int32_of. by rewrite H. Qed.

Lemma int64_of_ret z : in_int64 z -> int64_of z = Ret z.
Proof. intros H%in_int64b_spec. unfold int64_of. by rewrite H. Qed.

Lemma u64_small z : 0 <= z <= UINT64_MAX -> u64 z = z.
Proof. intros. unfold u64, UINT64_MAX in *. apply Z.mod_small. lia. Qed.

Lemma u64_range z : 0 <= u64 z <= UINT64_MAX.
Proof. unfold u64, UINT64_MAX. pose proof (Z.mod_pos_bound z (2 ^ 64)). lia. Qed.

Lemma s64_small z : in_int64 z -> s64 z = z.
Proof.
  unfold in_int64, s64, INT64_MIN, INT64_MAX. intros.
  rewrite Z.mod_small; lia.
Qed.

Lemma vec_at_lookup {A} (l : list A) i x : l !! i = Some x -> vec_at l i = Ret x.
Proof. unfold vec_at. by intros ->. Qed.

Lemma lookup_app_at {A} (l1 l2 : list A) k i :
  i = (length l1 + k)%nat -> (l1 ++ l2) !! i = l2 !! k.
Proof. intros ->. rewrite lookup_app_r by lia. f_equal. lia. Qed.

Lemma drop_app_at {A} (l1 l2 : list A) k i :
  i = (length l1 + k)%nat -> drop i (l1 ++ l2) = drop k l2.
Proof. intros ->. rewrite drop_app_ge by lia. f_equal. lia. Qed.

Lemma list_filter_all {A} (P : A -> Prop) `{forall x, Decision (P x)} (l : list A) :
  (forall x, x ∈ l -> P x) -> filter P l = l.
Proof.
  induction l as [|x l IH]; intros Hl; [done|].
  rewrite filter_cons_True by (apply Hl; left). f_equal. apply IH. intros. apply Hl. by right.
Qed.

Lemma list_filter_none {A} (P : A -> Prop) `{forall x, Decision (P x)} (l : list A) :
  (forall x, x ∈ l -> ~ P x) -> filter P l = [].
Proof.
  induction l as [|x l IH]; intros Hl; [done|].
  rewrite filter_cons_False by (apply Hl; left). apply IH. intros. apply Hl. by right.
Qed.

Lemma list_filter_ext {A} (P1 P2 : A -> Prop) `{forall x, Decision (P1 x), forall x, Decision (P2 x)}
    (l : list A) :
  (forall x, x ∈ l -> P1 x <-> P2 x) -> filter P1 l = filter P2 l.
Proof.
  induction l as [|x l IH]; intros Hl; [done|]. rewrite !filter_cons.
  rewrite IH by (intros; apply Hl; by right). pose proof (Hl x ltac:(left)) as Hx.
  do 2 case_decide; tauto || done.
Qed.

Lemma int64_of_Ret z v : int64_of z = Ret v -> v = z /\ in_int64 z.
Proof.
  unfold int64_of. intros H. case_hyp H; simplify_eq. by rewrite <- in_int64b_spec.
Qed.

(** Induction on a list two elements at a time. *)
Lemma pair_list_ind {A} (R : list A -> Prop) :
  R [] -> (forall x, R [x]) -> (forall x y l, R l -> R (x :: y :: l)) -> forall l, R l.
Proof.
  intros H0 H1 H2. fix IH 1. intros [|x [|y l]]; [exact H0|apply H1|apply H2, IH].
Qed.
