(* ===== verification/Text.v ===== *)
(** * Text: characters, decimal numbers and case folding

    The parts of the C++ standard library the sources use on text
    ([std::to_string], [std::from_chars], [std::toupper], [find]) and the
    helpers of util/parse.hpp and util/string_utils.hpp built on them. *)
From S2P Require Import Prelude.

Open Scope Z_scope.

Definition code (c : ascii) : Z := Z.of_nat (nat_of_ascii c).
Definition chr (z : Z) : ascii := ascii_of_nat (Z.to_nat z).

Definition is_digit (c : ascii) : bool := (48 <=? code c) && (code c <=? 57).
Definition digit_val (c : ascii) : Z := code c - 48.
Definition digit_char (d : Z) : ascii := chr (48 + d).

(** ** Printing: [std::to_string], [std::to_chars] *)
Fixpoint dec_go (fuel : nat) (n : Z) (acc : bytes) : bytes :=
  match fuel with
  | O => acc
  | S f =>
      if n <? 10 then digit_char n :: acc
      else dec_go f (n / 10) (digit_char (n mod 10) :: acc)
  end.

(** One unit of fuel per bit is more than one per decimal digit. *)
Definition dec_digits (n : Z) : bytes := dec_go (S (Z.to_nat (Z.log2 n))) n [].

Definition to_string (z : Z) : bytes :=
  if z <? 0 then "-"%char :: dec_digits (- z) else dec_digits z.

(** ** Parsing: [std::from_chars] on an integer type with range [lo, hi] *)
Definition dec_step (acc : Z) (c : ascii) : Z := acc * 10 + digit_val c.
Definition dec_value (ds : bytes) : Z := fold_left dec_step ds 0.

Fixpoint span_digits (s : bytes) : bytes * bytes :=
  match s with
  | c :: s' =>
      if is_digit c then let '(ds, r) := span_digits s' in (c :: ds, r) else ([], s)
  | [] => ([], [])
  end.

Inductive from_chars_result :=
| FcValue (v : Z) (rest : bytes)
| FcInvalid
| FcOutOfRange (rest : bytes).

(** A minus sign is read for a signed type only. *)
Definition from_chars (signed : bool) (lo hi : Z) (s : bytes) : from_chars_result :=
  let '(neg, s1) :=
    match s with
    | c :: s' => if signed && bool_decide (c = "-"%char) then (true, s') else (false, s)
    | [] => (false, s)
    end in
  let '(ds, rest) := span_digits s1 in
  match ds with
  | [] => FcInvalid
  | _ =>
      let v := if (neg : bool) then - dec_value ds else dec_value ds in
      if (lo <=? v) && (v <=? hi) then FcValue v rest else FcOutOfRange rest
  end.

(** [parse_int<T>]: the whole text must be one number of the type. *)
Definition parse_int (signed : bool) (lo hi : Z) (sv : bytes) : option Z :=
  match from_chars signed lo hi sv with
  | FcValue v [] => Some v
  | _ => None
  end.
Definition parse_int64 : bytes -> option Z := parse_int true INT64_MIN INT64_MAX.
Definition parse_int32 : bytes -> option Z := parse_int true INT32_MIN INT32_MAX.
Definition parse_uint64 : bytes -> option Z := parse_int false 0 UINT64_MAX.

(** ** Case folding in the "C" locale *)
Definition toupper (c : ascii) : ascii :=
  if (97 <=? code c) && (code c <=? 122) then chr (code c - 32) else c.
Definition tolower (c : ascii) : ascii :=
  if (65 <=? code c) && (code c <=? 90) then chr (code c + 32) else c.
Definition to_upper (sv : bytes) : bytes := map toupper sv.
Definition to_lower (sv : bytes) : bytes := map tolower sv.

(** [sv.find(c)]: position of the first occurrence, [None] for [npos]. *)
Fixpoint find_char (c : ascii) (s : bytes) : option nat :=
  match s with
  | [] => None
  | x :: s' => if bool_decide (x = c) then Some O else S <$> find_char c s'
  end.

Definition starts_with (p s : bytes) : bool := bool_decide (take (length p) s = p).

#[global] Arguments parse_int _ _ _ _ : simpl never.
#[global] Arguments parse_int64 _ : simpl never.
#[global] Arguments parse_int32 _ : simpl never.
#[global] Arguments parse_uint64 _ : simpl never.
#[global] Arguments dec_digits _ : simpl never.
#[global] Arguments to_string _ : simpl never.
#[global] Arguments to_upper _ : simpl never.
#[global] Arguments to_lower _ : simpl never.

(** * Lemmas *)
Lemma code_range c : 0 <= code c < 256.
Proof. unfold code. pose proof (nat_ascii_bounded c). lia. Qed.

Lemma code_chr z : 0 <= z < 256 -> code (chr z) = z.
Proof.
  intros. unfold code, chr. rewrite nat_ascii_embedding; lia.
Qed.

Lemma chr_code c : chr (code c) = c.
Proof. unfold code, chr. rewrite Nat2Z.id. apply ascii_nat_embedding. Qed.

Lemma code_inj c d : code c = code d -> c = d.
Proof. intros H. by rewrite <- (chr_code c), <- (chr_code d), H. Qed.

Lemma is_digit_char d : 0 <= d < 10 -> is_digit (digit_char d) = true.
Proof.
  intros. unfold is_digit, digit_char. rewrite code_chr by lia.
  apply andb_true_iff. rewrite !Z.leb_le. lia.
Qed.

Lemma digit_val_char d : 0 <= d < 10 -> digit_val (digit_char d) = d.
Proof. intros. unfold digit_val, digit_char. rewrite code_chr; lia. Qed.

Lemma digit_val_range c : is_digit c = true -> 0 <= digit_val c < 10.
Proof. unfold is_digit, digit_val. intros. b2p. lia. Qed.

Lemma is_digit_not_minus c : is_digit c = true -> c <> "-"%char.
Proof. intros H ->. vm_compute in H. discriminate. Qed.

Lemma is_digit_not_CR c : is_digit c = true -> c <> CR.
Proof. intros H ->. vm_compute in H. discriminate. Qed.

Lemma dec_value_app l1 l2 :
  dec_value (l1 ++ l2) = fold_left dec_step l2 (dec_value l1).
Proof. unfold dec_value. apply fold_left_app. Qed.

(** A fold from [v] over the digits of [n] is the positional value. *)
Lemma dec_go_spec fuel : forall n acc, 0 <= n < 2 ^ Z.of_nat fuel -> (0 < fuel)%nat ->
  exists ds, dec_go fuel n acc = ds ++ acc
    /\ ds <> []
    /\ Forall (fun c => is_digit c = true) ds
    /\ dec_value ds = n.
Proof.
  induction fuel as [|f IH]; intros n acc Hn Hf; [lia|]. cbn [dec_go].
  destruct (n <? 10) eqn:E; b2p.
  - exists [digit_char n]. split_and!; [done|done| |].
    + repeat constructor. apply is_digit_char. lia.
    + unfold dec_value, dec_step. simpl. rewrite digit_val_char; lia.
  - destruct f as [|f'].
    { change (2 ^ Z.of_nat 1) with 2 in Hn. lia. }
    destruct (IH (n / 10) (digit_char (n mod 10) :: acc)) as (ds & -> & Hne & Hd & Hv); [|lia|].
    { rewrite Nat2Z.inj_succ, Z.pow_succ_r in Hn by lia.
      pose proof (Z.div_le_upper_bound n 10 (n / 2)) as Hle.
      split; [apply Z.div_pos; lia|].
      apply Z.div_lt_upper_bound; lia. }
    exists (ds ++ [digit_char (n mod 10)]). split_and!.
    + by rewrite <- app_assoc.
    + by destruct ds.
    + apply Forall_app. split; [done|]. repeat constructor.
      apply is_digit_char. apply Z.mod_pos_bound. lia.
    + rewrite dec_value_app, Hv. simpl. unfold dec_step.
      rewrite digit_val_char by (apply Z.mod_pos_bound; lia).
      pose proof (Z.div_mod n 10). lia.
Qed.

Lemma dec_digits_spec n : 0 <= n ->
  dec_digits n <> []
  /\ Forall (fun c => is_digit c = true) (dec_digits n)
  /\ dec_value (dec_digits n) = n.
Proof.
  intros Hn. unfold dec_digits.
  destruct (dec_go_spec (S (Z.to_nat (Z.log2 n))) n []) as (ds & -> & Hne & Hd & Hv); [|lia|].
  - split; [done|]. rewrite Nat2Z.inj_succ, Z2Nat.id by apply Z.log2_nonneg.
    destruct (Z.eq_dec n 0) as [->|]; [done|]. apply Z.log2_spec. lia.
  - by rewrite app_nil_r.
Qed.

Lemma dec_digits_ne n : 0 <= n -> dec_digits n <> [].
Proof. intros. by apply dec_digits_spec. Qed.

Lemma dec_digits_digits n : 0 <= n -> Forall (fun c => is_digit c = true) (dec_digits n).
Proof. intros. by apply dec_digits_spec. Qed.

Lemma dec_digits_value n : 0 <= n -> dec_value (dec_digits n) = n.
Proof. intros. by apply dec_digits_spec. Qed.

Lemma dec_digits_small n : 0 <= n < 10 -> dec_digits n = [digit_char n].
Proof.
  intros. unfold dec_digits. cbn [dec_go].
  by replace (n <? 10) with true by (symmetry; apply Z.ltb_lt; lia).
Qed.

Lemma dec_value_nonneg ds : Forall (fun c => is_digit c = true) ds -> 0 <= dec_value ds.
Proof.
  unfold dec_value. assert (H : forall v, 0 <= v -> Forall (fun c => is_digit c = true) ds ->
    0 <= fold_left dec_step ds v); [|intros; by apply H].
  induction ds as [|c ds IH]; intros v Hv Hd; [done|].
  inversion_clear Hd as [|? ? Hc Hd']. simpl. apply IH; [|done].
  pose proof (digit_val_range c Hc). unfold dec_step. lia.
Qed.

(** Reading all the digits of a text that continues with a non-digit. *)
Lemma span_digits_app ds rest :
  Forall (fun c => is_digit c = true) ds ->
  (forall c r, rest = c :: r -> is_digit c = false) ->
  span_digits (ds ++ rest) = (ds, rest).
Proof.
  intros Hd Hr. induction Hd as [|c ds Hc Hd IH]; simpl.
  - destruct rest as [|c r]; [done|]. simpl. by rewrite (Hr c r).
  - by rewrite Hc, IH.
Qed.

Lemma span_digits_all ds :
  Forall (fun c => is_digit c = true) ds -> span_digits ds = (ds, []).
Proof. intros H. rewrite <- (app_nil_r ds) at 1. by apply span_digits_app. Qed.

Lemma dec_digits_no_minus n c : 0 <= n -> head (dec_digits n) = Some c -> c <> "-"%char.
Proof.
  intros Hn Hc. pose proof (dec_digits_digits n Hn) as Hd.
  destruct (dec_digits n) as [|x l]; [done|]. simplify_eq/=.
  inversion_clear Hd. by apply is_digit_not_minus.
Qed.

Lemma from_chars_digits lo hi ds signed :
  ds <> [] -> Forall (fun c => is_digit c = true) ds -> lo <= dec_value ds <= hi ->
  from_chars signed lo hi ds = FcValue (dec_value ds) [].
Proof.
  intros Hne Hd Hr. destruct ds as [|c ds]; [done|]. unfold from_chars.
  assert (c <> "-"%char) by (inversion_clear Hd; by apply is_digit_not_minus).
  rewrite (bool_decide_false (c = "-"%char)) by done. rewrite andb_false_r.
  rewrite span_digits_all by done.
  replace ((lo <=? dec_value (c :: ds)) && (dec_value (c :: ds) <=? hi)) with true; [done|].
  symmetry. apply andb_true_iff. rewrite !Z.leb_le. lia.
Qed.

(** Printing then parsing an integer of a signed type. *)
Lemma parse_int_to_string lo hi z :
  lo <= z <= hi -> parse_int true lo hi (to_string z) = Some z.
Proof.
  intros Hz. unfold parse_int, to_string. destruct (z <? 0) eqn:E; b2p.
  - destruct (dec_digits_spec (- z)) as (Hne & Hd & Hv); [lia|].
    unfold from_chars. rewrite bool_decide_true by done. simpl.
    rewrite span_digits_all by done. destruct (dec_digits (- z)) as [|c ds]; [done|].
    rewrite Hv, Z.opp_involutive.
    replace ((lo <=? z) && (z <=? hi)) with true; [done|].
    symmetry. apply andb_true_iff. rewrite !Z.leb_le. lia.
  - destruct (dec_digits_spec z) as (Hne & Hd & Hv); [lia|].
    rewrite from_chars_digits, Hv; try done. lia.
Qed.

Lemma parse_uint_to_string hi z :
  0 <= z <= hi -> parse_int false 0 hi (to_string z) = Some z.
Proof.
  intros Hz. unfold parse_int, to_string.
  replace (z <? 0) with false by (symmetry; apply Z.ltb_ge; lia).
  destruct (dec_digits_spec z) as (Hne & Hd & Hv); [lia|].
  rewrite from_chars_digits, Hv; try done. lia.
Qed.

Lemma parse_int_range signed lo hi s v : parse_int signed lo hi s = Some v -> lo <= v <= hi.
Proof.
  unfold parse_int, from_chars. intros H.
  repeat case_hyp H; simplify_eq; b2p; lia.
Qed.

Lemma parse_int64_to_string z : in_int64 z -> parse_int64 (to_string z) = Some z.
Proof. apply parse_int_to_string. Qed.

Lemma to_string_inj z1 z2 : to_string z1 = to_string z2 -> z1 = z2.
Proof.
  intros H.
  pose proof (parse_int_to_string (Z.min z1 z2) (Z.max z1 z2) z1 ltac:(lia)) as H1.
  pose proof (parse_int_to_string (Z.min z1 z2) (Z.max z1 z2) z2 ltac:(lia)) as H2.
  rewrite H in H1. congruence.
Qed.

Lemma to_string_ne z : to_string z <> [].
Proof. unfold to_string. case_goal; [done|]. b2p. by apply dec_digits_ne. Qed.

Lemma to_string_dec n : 0 <= n -> to_string n = dec_digits n.
Proof. intros. unfold to_string. by rewrite (proj2 (Z.ltb_ge n 0)). Qed.

Lemma find_char_None c s : find_char c s = None <-> c ∉ s.
Proof.
  induction s as [|x s IH]; simpl; [split; [intros _; apply not_elem_of_nil|done]|].
  rewrite not_elem_of_cons. case_bool_decide as E.
  - split; [done|]. intros [? _]. congruence.
  - rewrite fmap_None, IH. split; [intros; split; congruence|tauto].
Qed.

Lemma find_char_app c l r : c ∉ l -> find_char c (l ++ c :: r) = Some (length l).
Proof.
  induction l as [|x l IH]; simpl; intros H.
  - by rewrite bool_decide_true.
  - apply not_elem_of_cons in H as [H1 H2]. rewrite bool_decide_false by congruence.
    by rewrite IH.
Qed.

Lemma find_char_Some c s i :
  find_char c s = Some i -> s = take i s ++ c :: drop (S i) s /\ c ∉ take i s.
Proof.
  revert i. induction s as [|x s IH]; simpl; intros i H; [done|].
  case_bool_decide as E; simplify_eq/=.
  - split; [done|]. apply not_elem_of_nil.
  - apply fmap_Some in H as (j & Hj & ->). destruct (IH j Hj) as [H1 H2]. simpl. split.
    + by f_equal.
    + apply not_elem_of_cons. split; congruence.
Qed.

Lemma dec_digits_notin n c : 0 <= n -> is_digit c = false -> c ∉ dec_digits n.
Proof.
  intros Hn Hc Hin. pose proof (dec_digits_digits n Hn) as Hd.
  rewrite Forall_forall in Hd. rewrite Hd in Hc; [done|]. done.
Qed.

Lemma length_to_upper s : length (to_upper s) = length s.
Proof. unfold to_upper. apply length_map. Qed.

#[export] Hint Resolve dec_digits_ne dec_digits_digits to_string_ne : credis.

(** ** The digits of a number, one at a time *)
Lemma dec_go_acc fuel n acc : dec_go fuel n acc = dec_go fuel n [] ++ acc.
Proof.
  revert n acc. induction fuel as [|f IH]; intros n acc; [done|]. cbn [dec_go].
  destruct (n <? 10); [done|]. rewrite IH, (IH _ [_]), <- app_assoc. done.
Qed.

Lemma dec_go_fuel f f' n acc :
  0 <= n < 2 ^ Z.of_nat f -> 0 <= n < 2 ^ Z.of_nat f' -> (0 < f)%nat -> (0 < f')%nat ->
  dec_go f n acc = dec_go f' n acc.
Proof.
  revert f' n acc. induction f as [|f IH]; intros f' n acc Hn Hn' Hf Hf'; [lia|].
  destruct f' as [|f']; [lia|]. cbn [dec_go]. destruct (n <? 10) eqn:E; b2p; [done|].
  rewrite Nat2Z.inj_succ, Z.pow_succ_r in Hn, Hn' by lia.
  assert (Hd : 0 <= n / 10 /\ n / 10 <= n / 2).
  { split; [apply Z.div_pos; lia|]. apply Z.div_le_compat_l; lia. }
  assert (H2 : n / 2 < 2 ^ Z.of_nat f /\ n / 2 < 2 ^ Z.of_nat f').
  { split; apply Z.div_lt_upper_bound; lia. }
  apply IH; try lia.
  - destruct f; [change (2 ^ Z.of_nat 0) with 1 in Hn; lia|lia].
  - destruct f'; [change (2 ^ Z.of_nat 0) with 1 in Hn'; lia|lia].
Qed.

Lemma log2_fuel n : 0 <= n -> 0 <= n < 2 ^ Z.of_nat (S (Z.to_nat (Z.log2 n))).
Proof.
  intros Hn. split; [done|]. rewrite Nat2Z.inj_succ, Z2Nat.id by apply Z.log2_nonneg.
  destruct (Z.eq_dec n 0) as [->|]; [done|]. apply Z.log2_spec. lia.
Qed.

Lemma dec_digits_step n :
  10 <= n -> dec_digits n = dec_digits (n / 10) ++ [digit_char (n mod 10)].
Proof.
  intros Hn. unfold dec_digits at 1. cbn [dec_go].
  rewrite (proj2 (Z.ltb_ge n 10)) by done. rewrite dec_go_acc. f_equal.
  assert (Hd : 0 <= n / 10) by (apply Z.div_pos; lia).
  pose proof (log2_fuel (n / 10) Hd). pose proof (log2_fuel n ltac:(lia)) as Hl.
  assert (0 < Z.log2 n) by (apply Z.log2_pos; lia).
  apply dec_go_fuel; [|done|lia|lia]. split; [done|].
  rewrite Nat2Z.inj_succ, Z.pow_succ_r in Hl by lia.
  assert (n / 10 <= n / 2) by (apply Z.div_le_compat_l; lia).
  assert (n / 2 < 2 ^ Z.of_nat (Z.to_nat (Z.log2 n))) by (apply Z.div_lt_upper_bound; lia). lia.
Qed.

Lemma dec_digits_times10 n k :
  0 < n -> dec_digits (n * 10 ^ Z.of_nat k) = dec_digits n ++ replicate k "0"%char.
Proof.
  intros Hn. induction k as [|k IH]; [by rewrite Z.mul_1_r, app_nil_r|].
  rewrite Nat2Z.inj_succ, Z.pow_succ_r by lia.
  replace (n * (10 * 10 ^ Z.of_nat k)) with (n * 10 ^ Z.of_nat k * 10) by lia.
  assert (1 <= n * 10 ^ Z.of_nat k) by (pose proof (Z.pow_pos_nonneg 10 (Z.of_nat k)); nia).
  rewrite dec_digits_step, Z.div_mul, Z.mod_mul, IH by lia.
  rewrite <- app_assoc. f_equal. by rewrite replicate_S_end.
Qed.

Lemma dec_digits_magnitude n :
  0 < n -> 10 ^ (Z.of_nat (length (dec_digits n)) - 1) <= n < 10 ^ Z.of_nat (length (dec_digits n)).
Proof.
  intros Hn. remember (Z.to_nat n) as k eqn:Ek. revert n Hn Ek.
  induction k as [k IH] using (well_founded_induction lt_wf). intros n Hn ->.
  destruct (decide (n < 10)).
  - rewrite dec_digits_small by lia. simpl. lia.
  - rewrite dec_digits_step, length_app by lia. simpl length.
    pose proof (Z.div_mod n 10). pose proof (Z.mod_pos_bound n 10).
    specialize (IH (Z.to_nat (n / 10)) ltac:(lia) (n / 10) ltac:(lia) eq_refl).
    set (l := length (dec_digits (n / 10))) in *.
    assert (1 <= Z.of_nat l).
    { unfold l. pose proof (dec_digits_ne (n / 10) ltac:(lia)).
      destruct (dec_digits (n / 10)); simpl; [done|lia]. }
    replace (Z.of_nat (l + 1)) with (Z.of_nat l + 1) by lia.
    replace (Z.of_nat l + 1 - 1) with (Z.of_nat l - 1 + 1) by lia.
    rewrite !Z.pow_add_r by lia. lia.
Qed.
