(* ===== verification/StreamIds.v ===== *)
(** * StreamIds: stream identifiers and stream entries

    store/stream_id.hpp ([StreamId], its parser, printer and defaulted
    ordering) and store/stream_entry.hpp. *)
From S2P Require Import Prelude Text.

Open Scope Z_scope.

Record StreamId := mkStreamId { timestamp : Z; sequence : Z }.

#[export] Instance StreamId_eq_dec : EqDecision StreamId.
Proof. solve_decision. Defined.

(** [StreamId::parse]: both [from_chars] calls must stop exactly at the end of
    their range, which is what [parse_int64] asks of its argument. *)
Definition sid_parse (id : bytes) : option StreamId :=
  match find_char "-"%char id with
  | None => None
  | Some dash =>
      match parse_int64 (take dash id) with
      | None => None
      | Some ts =>
          match parse_int64 (drop (S dash) id) with
          | None => None
          | Some seq => Some (mkStreamId ts seq)
          end
      end
  end.

Definition sid_to_string (s : StreamId) : bytes :=
  to_string (timestamp s) ++ bs "-" ++ to_string (sequence s).

(** The defaulted [operator<=>] compares member by member. *)
Definition sid_ltb (a b : StreamId) : bool :=
  (timestamp a <? timestamp b)
  || ((timestamp a =? timestamp b) && (sequence a <? sequence b)).

Record StreamEntry := mkStreamEntry {
  se_id : bytes;
  parsed_id : StreamId;
  fields : list (bytes * bytes)
}.

(** * Lemmas *)
Definition sid_lt (a b : StreamId) : Prop :=
  timestamp a < timestamp b \/ (timestamp a = timestamp b /\ sequence a < sequence b).

Lemma sid_ltb_lt a b : sid_ltb a b = true <-> sid_lt a b.
Proof.
  unfold sid_ltb, sid_lt. rewrite orb_true_iff, andb_true_iff, !Z.ltb_lt, Z.eqb_eq. tauto.
Qed.

Lemma sid_ltb_ge a b : sid_ltb a b = false <-> ~ sid_lt a b.
Proof. rewrite <- sid_ltb_lt. destruct (sid_ltb a b); split; congruence. Qed.

#[export] Instance sid_lt_trans : Transitive sid_lt.
Proof. intros a b c. unfold sid_lt. lia. Qed.

#[export] Instance sid_lt_irrefl : Irreflexive sid_lt.
Proof. intros a. unfold complement, sid_lt. lia. Qed.

#[export] Instance sid_lt_dec a b : Decision (sid_lt a b).
Proof. destruct (sid_ltb a b) eqn:E; [left; by apply sid_ltb_lt|right; by apply sid_ltb_ge]. Defined.

Lemma sid_lt_total a b : sid_lt a b \/ a = b \/ sid_lt b a.
Proof.
  destruct a as [t1 s1], b as [t2 s2]. unfold sid_lt; simpl.
  destruct (Z.lt_trichotomy t1 t2) as [|[->|]]; [by left; left| |right; right; lia].
  destruct (Z.lt_trichotomy s1 s2) as [|[->|]]; auto.
Qed.

(** An identifier with a timestamp of zero or more reads back. *)
Lemma sid_parse_to_string s :
  0 <= timestamp s <= INT64_MAX -> in_int64 (sequence s) ->
  sid_parse (sid_to_string s) = Some s.
Proof.
  destruct s as [ts seq]; simpl. intros Hts Hseq. unfold sid_parse, sid_to_string; simpl.
  rewrite (to_string_dec ts) by lia.
  rewrite find_char_app by (apply dec_digits_notin; [lia|done]).
  rewrite take_app_length. rewrite (drop_app_ge (dec_digits ts)) by lia.
  replace (S (length (dec_digits ts)) - length (dec_digits ts))%nat with 1%nat by lia.
  simpl. rewrite drop_0, parse_int64_to_string by done.
  rewrite <- to_string_dec, parse_int64_to_string by (unfold in_int64, INT64_MIN in *; lia).
  done.
Qed.

Lemma sid_parse_in_range id s :
  sid_parse id = Some s -> in_int64 (timestamp s) /\ in_int64 (sequence s).
Proof.
  unfold sid_parse. intros H. repeat case_hyp H; simplify_eq; simpl.
  split; by eapply parse_int_range.
Qed.
