(* ===== verification/RespCodec.v ===== *)
(** * RespCodec: the RESP wire format

    protocol/resp_codec.cpp and resp_codec.hpp: the request parser
    ([parse_one], [parse_one_into]) on a byte buffer with an explicit cursor,
    and the reply encoders in their returning and their appending form.
    util/error.hpp gives the parser's error values.

    A cursor [p] is the distance from the start of the input; the code's
    [p >= end] is [length input <= p].  The parser does not check the two bytes
    that follow a bulk string, so the cursor may end up to two bytes past the
    input. *)
From S2P Require Import Prelude Text StreamIds.

Open Scope Z_scope.

(** ** Errors (util/error.hpp) *)
Inductive ErrorCode :=
| kOk | kParseError | kNetworkError | kAuthError | kTypeError | kNotFound
| kInternalError | kInvalidArgument | kUnknownCommand | kWrongNumberOfArgs
| kWrongType | kTimeout | kProtocolError.

Record Error := mkError { err_code : ErrorCode; err_message : bytes }.

Inductive expected (A : Type) :=
| Value (a : A)
| Unexpected (e : Error).
Arguments Value {A} _.
Arguments Unexpected {A} _.

Definition protocol_error (msg : string) : Error := mkError kProtocolError (bs msg).

(** ** Parsing *)

(** The digit loop of [parse_int_until_crlf]: [s] is what is left from [p] on.
    [int val] overflows past 2^31-1. *)
Fixpoint scan_int (s : bytes) (p : nat) (val : Z) : outcome (Z * nat) :=
  match s with
  | c :: s' =>
      if is_digit c
      then v ← int32_of (val * 10 + digit_val c); scan_int s' (S p) v
      else Ret (val, p)
  | [] => Ret (val, p)
  end.

Definition parse_int_until_crlf (input : bytes) (p : nat) : outcome (option Z * nat) :=
  if (length input <=? p)%nat then Ret (None, p)
  else
    let neg := bool_decide (input !! p = Some "-"%char) in
    let p1 := if neg then S p else p in
    '(val, p2) ← scan_int (drop p1 input) p1 0;
    if (length input <=? p2 + 1)%nat
       || negb (bool_decide (input !! p2 = Some CR))
       || negb (bool_decide (input !! (S p2) = Some LF))
    then Ret (None, p2)
    else Ret (Some (if neg then - val else val), (p2 + 2)%nat).

Record ParsedCommand := mkParsedCommand { pc_args : list bytes; pc_consumed : nat }.

(** The argument loop shared by both parsers: [n] arguments are left and [acc]
    are already in the vector, which keeps them when an error is returned. *)
Fixpoint parse_args (n : nat) (input : bytes) (p : nat) (acc : list bytes)
  : outcome (expected nat * list bytes) :=
  match n with
  | O => Ret (Value p, acc)
  | S n' =>
      if (length input <=? p)%nat || negb (bool_decide (input !! p = Some "$"%char))
      then Ret (Unexpected (protocol_error "Invalid RESP: expected bulk string"), acc)
      else
        '(len_opt, p1) ← parse_int_until_crlf input (S p);
        match len_opt with
        | None =>
            Ret (Unexpected (protocol_error "Invalid RESP: invalid bulk string length"), acc)
        | Some len =>
            if len <? 0
            then Ret (Unexpected (protocol_error "Invalid RESP: invalid bulk string length"), acc)
            else
              let l := Z.to_nat len in
              if (length input <? p1 + l)%nat
              then Ret (Unexpected (protocol_error "Incomplete RESP: bulk string truncated"), acc)
              else parse_args n' input (p1 + l + 2) (acc ++ [take l (drop p1 input)])
        end
  end.

Definition parse_one (input : bytes) : outcome (expected ParsedCommand) :=
  if bool_decide (input !! 0%nat = Some "*"%char)
  then
    '(count_opt, p) ← parse_int_until_crlf input 1;
    match count_opt with
    | None => Ret (Unexpected (protocol_error "Invalid RESP: invalid array count"))
    | Some count =>
        if count <? 0
        then Ret (Unexpected (protocol_error "Invalid RESP: invalid array count"))
        else
          '(r, acc) ← parse_args (Z.to_nat count) input p [];
          match r with
          | Value p' => Ret (Value (mkParsedCommand acc p'))
          | Unexpected e => Ret (Unexpected e)
          end
    end
  else Ret (Unexpected (protocol_error "Invalid RESP: expected array")).

(** [parse_one_into] clears and fills the caller's vector: the result comes
    with what the vector holds afterwards. *)
Definition parse_one_into (args0 : list bytes) (input : bytes)
  : outcome (expected nat * list bytes) :=
  if bool_decide (input !! 0%nat = Some "*"%char)
  then
    '(count_opt, p) ← parse_int_until_crlf input 1;
    match count_opt with
    | None => Ret (Unexpected (protocol_error "Invalid RESP: invalid array count"), args0)
    | Some count =>
        if count <? 0
        then Ret (Unexpected (protocol_error "Invalid RESP: invalid array count"), args0)
        else parse_args (Z.to_nat count) input p []
    end
  else Ret (Unexpected (protocol_error "Invalid RESP: expected array"), args0).

(** ** Encoding *)
Definition zlen {A} (l : list A) : Z := Z.of_nat (length l).

Definition kRespOk : bytes := bs "+OK" ++ CRLF.
Definition kRespQueued : bytes := bs "+QUEUED" ++ CRLF.
Definition kRespPong : bytes := bs "+PONG" ++ CRLF.

(** [append_digit]: the one-digit fast path and [std::to_chars].  Its buffer of eleven
    characters is enough for every number of elements or bytes below [10 ^ 11]. *)
Definition append_digit (out : bytes) (n : Z) : bytes :=
  if n <? 10 then out ++ [digit_char n] else out ++ dec_digits n.

Fixpoint digit_count_go (fuel : nat) (n c : Z) : Z :=
  match fuel with
  | O => c
  | S f => if 0 <? n then digit_count_go f (n / 10) (c + 1) else c
  end.
Definition digit_count (n : Z) : Z :=
  if n =? 0 then 1 else digit_count_go (S (Z.to_nat (Z.log2 n))) n 0.

Definition encode_simple_string (s : bytes) : bytes := bs "+" ++ s ++ CRLF.
Definition encode_bulk_string (s : bytes) : bytes :=
  bs "$" ++ to_string (zlen s) ++ CRLF ++ s ++ CRLF.
Definition encode_null_bulk_string : bytes := bs "$-1" ++ CRLF.
Definition encode_integer (n : Z) : bytes := bs ":" ++ to_string n ++ CRLF.
Definition encode_error (s : bytes) : bytes := bs "-" ++ s ++ CRLF.
Definition encode_null_array : bytes := bs "*-1" ++ CRLF.

(** The loops append to [result]; here each step is a left fold. *)
Definition encode_array (elements : list bytes) : bytes :=
  fold_left (fun result elem =>
      result ++ bs "$" ++ to_string (zlen elem) ++ CRLF ++ elem ++ CRLF)
    elements (bs "*" ++ to_string (zlen elements) ++ CRLF).

(** The overload on a span of views prints its sizes with [std::to_chars], into a buffer
    that is enough for the sizes below [10 ^ 11]. *)
Definition encode_array_sv (elements : list bytes) : bytes :=
  fold_left (fun result elem =>
      result ++ bs "$" ++ dec_digits (zlen elem) ++ CRLF ++ elem ++ CRLF)
    elements (bs "*" ++ dec_digits (zlen elements) ++ CRLF).
Definition encode_raw_array (raw_elements : list bytes) : bytes :=
  fold_left (fun result elem => result ++ elem)
    raw_elements (bs "*" ++ to_string (zlen raw_elements) ++ CRLF).

(** The part of [encode_entries] inside its loop, shared with
    [encode_stream_entries], which writes the same code for each entry. *)
Definition encode_field (result : bytes) (fv : bytes * bytes) : bytes :=
  result
    ++ bs "$" ++ to_string (zlen fv.1) ++ CRLF ++ fv.1 ++ CRLF
    ++ bs "$" ++ to_string (zlen fv.2) ++ CRLF ++ fv.2 ++ CRLF.
Definition encode_entry (result : bytes) (entry : StreamEntry) : bytes :=
  fold_left encode_field (fields entry)
    (result ++ bs "*2" ++ CRLF
       ++ bs "$" ++ to_string (zlen (se_id entry)) ++ CRLF ++ se_id entry ++ CRLF
       ++ bs "*" ++ to_string (zlen (fields entry) * 2) ++ CRLF).
Definition encode_entries (entries : list StreamEntry) : bytes :=
  fold_left encode_entry entries (bs "*" ++ to_string (zlen entries) ++ CRLF).
Definition encode_stream_entries (streams : list (bytes * list StreamEntry)) : bytes :=
  fold_left (fun result ke =>
      fold_left encode_entry ke.2
        (result ++ bs "*2" ++ CRLF
           ++ bs "$" ++ to_string (zlen ke.1) ++ CRLF ++ ke.1 ++ CRLF
           ++ bs "*" ++ to_string (zlen ke.2) ++ CRLF))
    streams (bs "*" ++ to_string (zlen streams) ++ CRLF).

(** The number of bytes the encoders reserve before they write. *)
Definition bulk_total (s : bytes) : Z := 1 + digit_count (zlen s) + 2 + zlen s + 2.
Definition encode_array_total (elements : list bytes) : Z :=
  fold_left (fun total elem => total + (1 + digit_count (zlen elem) + 2 + zlen elem + 2))
    elements (1 + zlen (to_string (zlen elements)) + 2).
Definition encode_raw_array_total (raw_elements : list bytes) : Z :=
  fold_left (fun total elem => total + zlen elem)
    raw_elements (1 + zlen (to_string (zlen raw_elements)) + 2).
Definition entry_total (total : Z) (entry : StreamEntry) : Z :=
  fold_left (fun t fv => t + bulk_total fv.1 + bulk_total fv.2)
    (fields entry)
    (total + 3 + bulk_total (se_id entry) + (1 + digit_count (zlen (fields entry) * 2) + 2)).
Definition encode_entries_total (entries : list StreamEntry) : Z :=
  fold_left entry_total entries (1 + zlen (to_string (zlen entries)) + 2).
Definition encode_stream_entries_total (streams : list (bytes * list StreamEntry)) : Z :=
  fold_left (fun total ke =>
      fold_left entry_total ke.2
        (total + 3 + bulk_total ke.1 + (1 + digit_count (zlen ke.2) + 2)))
    streams (1 + zlen (to_string (zlen streams)) + 2).

(** The appending forms. *)
Definition encode_simple_string_into (out s : bytes) : bytes := out ++ bs "+" ++ s ++ CRLF.
Definition encode_bulk_string_into (out s : bytes) : bytes :=
  (if zlen s <? 10 then (out ++ bs "$") ++ [digit_char (zlen s)]
   else (out ++ bs "$") ++ dec_digits (zlen s)) ++ CRLF ++ s ++ CRLF.
Definition encode_error_into (out s : bytes) : bytes := out ++ bs "-" ++ s ++ CRLF.
Definition encode_integer_into (out : bytes) (n : Z) : bytes :=
  (if (0 <=? n) && (n <? 10) then (out ++ bs ":") ++ [digit_char n]
   else (out ++ bs ":") ++ to_string n) ++ CRLF.
Definition encode_null_bulk_string_into (out : bytes) : bytes := out ++ bs "$-1" ++ CRLF.
Definition encode_null_array_into (out : bytes) : bytes := out ++ bs "*-1" ++ CRLF.
Definition encode_array_into (out : bytes) (elements : list bytes) : bytes :=
  fold_left (fun o elem => append_digit (o ++ bs "$") (zlen elem) ++ CRLF ++ elem ++ CRLF)
    elements (append_digit (out ++ bs "*") (zlen elements) ++ CRLF).
Definition encode_raw_array_into (out : bytes) (raw_elements : list bytes) : bytes :=
  fold_left (fun o elem => o ++ elem)
    raw_elements (append_digit (out ++ bs "*") (zlen raw_elements) ++ CRLF).
Definition encode_field_into (out : bytes) (fv : bytes * bytes) : bytes :=
  let out1 := append_digit (out ++ bs "$") (zlen fv.1) ++ CRLF ++ fv.1 ++ CRLF in
  append_digit (out1 ++ bs "$") (zlen fv.2) ++ CRLF ++ fv.2 ++ CRLF.
Definition encode_entry_into (out : bytes) (entry : StreamEntry) : bytes :=
  let out1 := append_digit (out ++ bs "*2" ++ CRLF ++ bs "$") (zlen (se_id entry))
                ++ CRLF ++ se_id entry ++ CRLF in
  fold_left encode_field_into (fields entry)
    (append_digit (out1 ++ bs "*") (zlen (fields entry) * 2) ++ CRLF).
Definition encode_entries_into (out : bytes) (entries : list StreamEntry) : bytes :=
  fold_left encode_entry_into entries
    (append_digit (out ++ bs "*") (zlen entries) ++ CRLF).
Definition encode_stream_entries_into (out : bytes) (streams : list (bytes * list StreamEntry))
  : bytes :=
  fold_left (fun o ke =>
      let o1 := append_digit (o ++ bs "*2" ++ CRLF ++ bs "$") (zlen ke.1)
                  ++ CRLF ++ ke.1 ++ CRLF in
      fold_left encode_entry_into ke.2 (append_digit (o1 ++ bs "*") (zlen ke.2) ++ CRLF))
    streams (append_digit (out ++ bs "*") (zlen streams) ++ CRLF).

(** * Lemmas *)
Lemma zlen_nonneg {A} (l : list A) : 0 <= zlen l.
Proof. unfold zlen. lia. Qed.

Lemma zlen_app {A} (l1 l2 : list A) : zlen (l1 ++ l2) = zlen l1 + zlen l2.
Proof. unfold zlen. rewrite length_app. lia. Qed.
#[export] Hint Resolve zlen_nonneg : credis.

(** A loop that appends [f x] for each element. *)
Lemma fold_left_append {A} (f : A -> bytes) l acc :
  fold_left (fun r x => r ++ f x) l acc = acc ++ concat (map f l).
Proof.
  revert acc. induction l as [|x l IH]; intros acc; simpl; [by rewrite app_nil_r|].
  by rewrite IH, <- app_assoc.
Qed.

Lemma fold_left_ext {A B} (f g : A -> B -> A) l acc :
  (forall a x, f a x = g a x) -> fold_left f l acc = fold_left g l acc.
Proof. intros H. revert acc. induction l as [|x l IH]; intros acc; simpl; [done|]. by rewrite H, IH. Qed.

(** ** The encoders in closed form *)
Definition bulk (s : bytes) : bytes := bs "$" ++ dec_digits (zlen s) ++ CRLF ++ s ++ CRLF.
Definition field_bytes (fv : bytes * bytes) : bytes := bulk fv.1 ++ bulk fv.2.
Definition header (c : string) (n : Z) : bytes := bs c ++ dec_digits n ++ CRLF.
Definition entry_bytes (e : StreamEntry) : bytes :=
  header "*" 2 ++ bulk (se_id e) ++ header "*" (zlen (fields e) * 2)
    ++ concat (map field_bytes (fields e)).
Definition stream_bytes (ke : bytes * list StreamEntry) : bytes :=
  header "*" 2 ++ bulk ke.1 ++ header "*" (zlen ke.2) ++ concat (map entry_bytes ke.2).

#[global] Arguments bulk _ : simpl never.
#[global] Arguments header _ _ : simpl never.

Lemma to_string_zlen {A} (l : list A) : to_string (zlen l) = dec_digits (zlen l).
Proof. apply to_string_dec, zlen_nonneg. Qed.

Lemma encode_bulk_string_eq s : encode_bulk_string s = bulk s.
Proof. unfold encode_bulk_string, bulk. by rewrite to_string_zlen. Qed.

Lemma encode_array_eq l : encode_array l = header "*" (zlen l) ++ concat (map bulk l).
Proof.
  unfold encode_array. rewrite to_string_zlen.
  rewrite (fold_left_append (fun elem => bs "$" ++ to_string (zlen elem) ++ CRLF ++ elem ++ CRLF)).
  unfold header. do 2 f_equal. apply map_ext. intros s.
  unfold bulk. by rewrite to_string_zlen.
Qed.

Lemma encode_raw_array_eq l : encode_raw_array l = header "*" (zlen l) ++ concat l.
Proof.
  unfold encode_raw_array. rewrite to_string_zlen, (fold_left_append (fun x => x)), map_id. done.
Qed.

Lemma encode_field_eq r fv : encode_field r fv = r ++ field_bytes fv.
Proof.
  unfold encode_field, field_bytes, bulk. rewrite !to_string_zlen. by rewrite <- !app_assoc.
Qed.

Lemma encode_entry_eq r e : encode_entry r e = r ++ entry_bytes e.
Proof.
  unfold encode_entry. rewrite (fold_left_ext _ (fun r fv => r ++ field_bytes fv))
    by apply encode_field_eq.
  rewrite fold_left_append, to_string_zlen.
  rewrite (to_string_dec (zlen (fields e) * 2)) by (pose proof (zlen_nonneg (fields e)); lia).
  unfold entry_bytes, bulk, header. change (dec_digits 2) with (bs "2").
  change (bs "*2") with (bs "*" ++ bs "2"). by rewrite <- !app_assoc.
Qed.

Lemma encode_entries_eq l : encode_entries l = header "*" (zlen l) ++ concat (map entry_bytes l).
Proof.
  unfold encode_entries. rewrite (fold_left_ext _ (fun r e => r ++ entry_bytes e))
    by apply encode_entry_eq.
  by rewrite fold_left_append, to_string_zlen.
Qed.

Lemma encode_stream_entries_eq l :
  encode_stream_entries l = header "*" (zlen l) ++ concat (map stream_bytes l).
Proof.
  unfold encode_stream_entries. rewrite (fold_left_ext _ (fun r ke => r ++ stream_bytes ke)).
  - by rewrite fold_left_append, to_string_zlen.
  - intros r [k es]; cbn [fst snd].
    rewrite (fold_left_ext _ (fun r e => r ++ entry_bytes e)) by apply encode_entry_eq.
    rewrite fold_left_append, !to_string_zlen. unfold stream_bytes, bulk, header; cbn [fst snd].
    change (dec_digits 2) with (bs "2").
    change (bs "*2") with (bs "*" ++ bs "2"). by rewrite <- !app_assoc.
Qed.

(** ** The appending encoders *)
Lemma append_digit_eq out n : 0 <= n -> append_digit out n = out ++ dec_digits n.
Proof.
  intros. unfold append_digit. destruct (n <? 10) eqn:E; b2p; [|done].
  by rewrite dec_digits_small by lia.
Qed.

Lemma encode_field_into_eq out fv : encode_field_into out fv = out ++ field_bytes fv.
Proof.
  unfold encode_field_into, field_bytes, bulk. rewrite !append_digit_eq by apply zlen_nonneg.
  by rewrite <- !app_assoc.
Qed.

Lemma encode_entry_into_eq out e : encode_entry_into out e = out ++ entry_bytes e.
Proof.
  unfold encode_entry_into. rewrite (fold_left_ext _ (fun r fv => r ++ field_bytes fv))
    by apply encode_field_into_eq.
  rewrite fold_left_append, !append_digit_eq
    by (pose proof (zlen_nonneg (fields e)); pose proof (zlen_nonneg (se_id e)); lia).
  unfold entry_bytes, bulk, header. change (dec_digits 2) with (bs "2").
  change (bs "*2") with (bs "*" ++ bs "2"). by rewrite <- !app_assoc.
Qed.

Lemma encode_array_into_eq out l :
  encode_array_into out l = out ++ header "*" (zlen l) ++ concat (map bulk l).
Proof.
  unfold encode_array_into. rewrite (fold_left_ext _ (fun r s => r ++ bulk s)).
  - rewrite fold_left_append, append_digit_eq by apply zlen_nonneg.
    unfold header. by rewrite <- !app_assoc.
  - intros r s. rewrite append_digit_eq by apply zlen_nonneg. unfold bulk. by rewrite <- !app_assoc.
Qed.

Lemma encode_raw_array_into_eq out l :
  encode_raw_array_into out l = out ++ header "*" (zlen l) ++ concat l.
Proof.
  unfold encode_raw_array_into. rewrite append_digit_eq by apply zlen_nonneg.
  rewrite (fold_left_append (fun x => x)), map_id. unfold header. by rewrite <- !app_assoc.
Qed.

Lemma encode_entries_into_eq out l :
  encode_entries_into out l = out ++ header "*" (zlen l) ++ concat (map entry_bytes l).
Proof.
  unfold encode_entries_into. rewrite (fold_left_ext _ (fun r e => r ++ entry_bytes e))
    by apply encode_entry_into_eq.
  rewrite fold_left_append, append_digit_eq by apply zlen_nonneg.
  unfold header. by rewrite <- !app_assoc.
Qed.

Lemma encode_stream_entries_into_eq out l :
  encode_stream_entries_into out l = out ++ header "*" (zlen l) ++ concat (map stream_bytes l).
Proof.
  unfold encode_stream_entries_into.
  rewrite (fold_left_ext _ (fun r ke => r ++ stream_bytes ke)).
  - rewrite fold_left_append, append_digit_eq by apply zlen_nonneg.
    unfold header. by rewrite <- !app_assoc.
  - intros r [k es]; cbn [fst snd].
    rewrite (fold_left_ext _ (fun r e => r ++ entry_bytes e)) by apply encode_entry_into_eq.
    rewrite fold_left_append, !append_digit_eq by apply zlen_nonneg.
    unfold stream_bytes, bulk, header; cbn [fst snd]. change (dec_digits 2) with (bs "2").
    change (bs "*2") with (bs "*" ++ bs "2"). by rewrite <- !app_assoc.
Qed.

Lemma encode_bulk_string_into_eq out s : encode_bulk_string_into out s = out ++ bulk s.
Proof.
  unfold encode_bulk_string_into, bulk. destruct (zlen s <? 10) eqn:E; b2p.
  - pose proof (zlen_nonneg s). rewrite dec_digits_small by lia. by rewrite <- !app_assoc.
  - by rewrite <- !app_assoc.
Qed.

Lemma encode_integer_into_eq out n : encode_integer_into out n = out ++ encode_integer n.
Proof.
  unfold encode_integer_into, encode_integer. destruct ((0 <=? n) && (n <? 10)) eqn:E; b2p.
  - rewrite to_string_dec, dec_digits_small by lia. by rewrite <- !app_assoc.
  - by rewrite <- !app_assoc.
Qed.

(** ** Reserved sizes *)
Lemma length_dec_go fuel : forall n acc,
  length (dec_go fuel n acc) = (length (dec_go fuel n []) + length acc)%nat.
Proof.
  induction fuel as [|f IH]; intros n acc; cbn [dec_go]; [done|].
  destruct (n <? 10); [simpl; lia|].
  rewrite IH, (IH _ [_]). simpl. lia.
Qed.

Lemma digit_count_go_spec fuel : forall n c, 0 < n -> n < 2 ^ Z.of_nat fuel ->
  digit_count_go fuel n c = c + zlen (dec_go fuel n []).
Proof.
  induction fuel as [|f IH]; intros n c Hn Hf; [simpl in Hf; lia|].
  cbn [digit_count_go dec_go].
  replace (0 <? n) with true by (symmetry; apply Z.ltb_lt; lia).
  destruct (n <? 10) eqn:E; b2p.
  - rewrite Z.div_small by lia. unfold zlen. simpl.
    destruct f; simpl; lia.
  - rewrite Nat2Z.inj_succ, Z.pow_succ_r in Hf by lia.
    rewrite IH.
    + unfold zlen. rewrite (length_dec_go f _ [_]). simpl. lia.
    + apply Z.div_str_pos. lia.
    + apply Z.div_lt_upper_bound; lia.
Qed.

Lemma digit_count_spec n : 0 <= n -> digit_count n = zlen (dec_digits n).
Proof.
  intros Hn. unfold digit_count, dec_digits. destruct (n =? 0) eqn:E; b2p; [by subst|].
  rewrite digit_count_go_spec; [lia|lia|].
  rewrite Nat2Z.inj_succ, Z2Nat.id by apply Z.log2_nonneg. apply Z.log2_spec. lia.
Qed.

Lemma bulk_total_spec s : bulk_total s = zlen (bulk s).
Proof.
  unfold bulk_total, bulk. rewrite digit_count_spec by apply zlen_nonneg.
  rewrite !zlen_app. change (zlen (bs "$")) with 1. change (zlen CRLF) with 2. lia.
Qed.

Lemma zlen_header c n : zlen (header c n) = zlen (bs c) + zlen (dec_digits n) + 2.
Proof. unfold header. rewrite !zlen_app. change (zlen CRLF) with 2. lia. Qed.

(** A loop that adds the length of what the writing loop appends, up to a
    constant [d] per element. *)
Lemma fold_left_total {A} (f : Z -> A -> Z) (g : A -> bytes) (d : Z) l t :
  (forall t x, f t x = t + zlen (g x) - d) ->
  fold_left f l t = t + zlen (concat (map g l)) - d * zlen l.
Proof.
  intros H. revert t. induction l as [|x l IH]; intros t; simpl; [unfold zlen; simpl; lia|].
  rewrite IH, H, zlen_app. unfold zlen. simpl length. lia.
Qed.

(** The four bytes of the line ["*2\r\n"] are counted as three. *)
Lemma entry_total_spec t e : entry_total t e = t + zlen (entry_bytes e) - 1.
Proof.
  unfold entry_total, entry_bytes.
  rewrite (fold_left_total _ field_bytes 0).
  - rewrite !zlen_app, !zlen_header, !bulk_total_spec, digit_count_spec
      by (pose proof (zlen_nonneg (fields e)); lia).
    change (zlen (bs "*")) with 1. change (zlen (dec_digits 2)) with 1. lia.
  - intros u fv. unfold field_bytes. rewrite zlen_app, !bulk_total_spec. lia.
Qed.

(** ** Scanning numbers *)
Definition small (s : bytes) : Prop := zlen s <= INT32_MAX.

Lemma dec_fold_mono ds v : 0 <= v -> Forall (fun c => is_digit c = true) ds ->
  v <= fold_left dec_step ds v.
Proof.
  revert v. induction ds as [|c ds IH]; intros v Hv Hd; simpl; [lia|].
  inversion_clear Hd as [|? ? Hc Hd']. pose proof (digit_val_range c Hc).
  assert (0 <= dec_step v c) by (unfold dec_step; lia).
  specialize (IH (dec_step v c) ltac:(done) Hd'). unfold dec_step in *. lia.
Qed.

Lemma dec_value_take k ds : Forall (fun c => is_digit c = true) ds ->
  dec_value (take k ds) <= dec_value ds.
Proof.
  intros Hd. rewrite <- (take_drop k ds) at 2. rewrite dec_value_app.
  apply dec_fold_mono; [by apply dec_value_nonneg, Forall_take|by apply Forall_drop].
Qed.

Lemma scan_int_digits ds : forall rest p v,
  Forall (fun c => is_digit c = true) ds ->
  (forall c r, rest = c :: r -> is_digit c = false) ->
  0 <= v -> fold_left dec_step ds v <= INT32_MAX ->
  scan_int (ds ++ rest) p v = Ret (fold_left dec_step ds v, (p + length ds)%nat).
Proof.
  induction ds as [|c ds IH]; intros rest p v Hd Hr Hv Hm.
  - simpl. rewrite Nat.add_0_r. destruct rest as [|c r]; [done|]. simpl.
    by rewrite (Hr c r).
  - inversion_clear Hd as [|? ? Hc Hd']. pose proof (digit_val_range c Hc).
    simpl in Hm |- *. rewrite Hc.
    assert (v * 10 + digit_val c <= INT32_MAX).
    { etransitivity; [|exact Hm]. apply dec_fold_mono; [|done]. unfold dec_step. lia. }
    rewrite int32_of_ret by (unfold in_int32, INT32_MIN, INT32_MAX in *; lia).
    simpl. rewrite IH; [|done|done|lia|done]. do 2 f_equal. lia.
Qed.

(** Reads the decimal number at the cursor and the line end after it. *)
Lemma parse_int_ok pre n rest :
  0 <= n <= INT32_MAX ->
  parse_int_until_crlf (pre ++ dec_digits n ++ CRLF ++ rest) (length pre)
  = Ret (Some n, (length pre + length (dec_digits n) + 2)%nat).
Proof.
  intros Hn. destruct (dec_digits_spec n) as (Hne & Hd & Hv); [lia|].
  unfold parse_int_until_crlf.
  rewrite (proj2 (Nat.leb_gt _ _))
    by (rewrite !length_app; destruct (dec_digits n); [done|simpl; lia]).
  rewrite bool_decide_false.
  2: { rewrite lookup_app_r by lia. rewrite Nat.sub_diag.
       destruct (dec_digits n) as [|c l] eqn:E; [done|]. simpl. intros [= ->].
       by apply (dec_digits_no_minus n "-"); [lia|rewrite E|]. }
  rewrite drop_app_length, scan_int_digits; try done.
  - cbn -[CRLF]. fold (dec_value (dec_digits n)). rewrite Hv.
    rewrite (proj2 (Nat.leb_gt _ _)) by (rewrite !length_app; change (length CRLF) with 2%nat; lia).
    rewrite (app_assoc pre), (lookup_app_at (pre ++ dec_digits n) _ 0), (lookup_app_at (pre ++ dec_digits n) _ 1)
      by (rewrite ?length_app; lia).
    rewrite !bool_decide_true by done. done.
  - intros c r [= <- _]. done.
  - unfold dec_value in Hv. lia.
Qed.

(** A number cut short of its line end is not accepted. *)
Lemma parse_int_trunc pre n k :
  0 <= n <= INT32_MAX -> (k < length (dec_digits n) + 2)%nat ->
  exists p', parse_int_until_crlf (pre ++ take k (dec_digits n ++ CRLF)) (length pre)
             = Ret (None, p').
Proof.
  intros Hn Hk. destruct (dec_digits_spec n) as (Hne & Hd & Hv); [lia|].
  unfold parse_int_until_crlf. destruct (_ <=? _)%nat eqn:E; b2p; [by eexists|].
  rewrite bool_decide_false.
  2: { rewrite lookup_app_r by lia. rewrite Nat.sub_diag. destruct k; [done|].
       destruct (dec_digits n) as [|c l] eqn:E'; [done|]. simpl. intros [= ->].
       by apply (dec_digits_no_minus n "-"); [lia|rewrite E'|]. }
  rewrite drop_app_length, take_app.
  rewrite scan_int_digits.
  - simpl. exists (length pre + length (take k (dec_digits n)))%nat.
    rewrite (proj2 (Nat.leb_le _ _)); [done|].
    rewrite !length_app, !length_take. change (length CRLF) with 2%nat. lia.
  - by apply Forall_take.
  - intros c r H. destruct (k - length (dec_digits n))%nat; [done|].
    simpl in H. injection H as <- _. done.
  - lia.
  - change (dec_value (take k (dec_digits n)) <= INT32_MAX).
    pose proof (dec_value_take k _ Hd). lia.
Qed.

(** ** Parsing a prefix of an encoded command *)
Definition bulk_head (s : bytes) : bytes := bs "$" ++ dec_digits (zlen s) ++ CRLF.

Lemma bulk_split s : bulk s = (bulk_head s ++ s) ++ CRLF.
Proof. unfold bulk, bulk_head. by rewrite <- !app_assoc. Qed.

Lemma length_bulk_head s : length (bulk_head s) = (length (dec_digits (zlen s)) + 3)%nat.
Proof. unfold bulk_head. rewrite !length_app. simpl. lia. Qed.

Lemma length_bulk s : length (bulk s) = (length (bulk_head s) + length s + 2)%nat.
Proof. rewrite bulk_split, !length_app. simpl. lia. Qed.

(** The bulk-string header at the cursor, whatever follows it. *)
Lemma parse_bulk_head pre s rest : small s ->
  (pre ++ bulk_head s ++ rest) !! length pre = Some "$"%char
  /\ parse_int_until_crlf (pre ++ bulk_head s ++ rest) (S (length pre))
     = Ret (Some (zlen s), (length pre + length (bulk_head s))%nat).
Proof.
  intros Hs. split.
  - rewrite (lookup_app_at _ _ 0) by lia. done.
  - pose proof (parse_int_ok (pre ++ bs "$") (zlen s) rest) as H.
    rewrite length_bulk_head, <- app_assoc in *. rewrite length_app in H. simpl length in H.
    unfold bulk_head. rewrite <- !app_assoc.
    replace (S (length pre)) with (length pre + 1)%nat by lia.
    rewrite H by (split; [apply zlen_nonneg|done]). do 2 f_equal. lia.
Qed.

Lemma parse_args_step_ok n pre a k S acc :
  small a -> (length (bulk a) <= k + 2)%nat ->
  parse_args (Datatypes.S n) (pre ++ take k (bulk a ++ S)) (length pre) acc
  = parse_args n (pre ++ take k (bulk a ++ S)) (length pre + length (bulk a)) (acc ++ [a]).
Proof.
  intros Ha Hk. rewrite length_bulk in *.
  rewrite bulk_split, <- app_assoc, take_app_ge by (rewrite length_app; lia).
  set (tail := take _ _). rewrite <- (app_assoc (bulk_head a)).
  destruct (parse_bulk_head pre a (a ++ tail) Ha) as [Hc Hi].
  cbn [parse_args]. rewrite Hc, Hi.
  rewrite (proj2 (Nat.leb_gt _ _)) by (apply lookup_lt_Some in Hc; lia).
  rewrite bool_decide_true by done. cbn [orb negb mbind outcome_bind].
  rewrite (proj2 (Z.ltb_ge _ _)) by apply zlen_nonneg.
  replace (Z.to_nat (zlen a)) with (length a) by (unfold zlen; lia).
  rewrite (proj2 (Nat.ltb_ge _ _)) by (rewrite !length_app; lia).
  rewrite (app_assoc pre), (drop_app_at _ _ 0) by (rewrite length_app; lia).
  rewrite drop_0, take_app_length. f_equal. lia.
Qed.

Lemma parse_args_step_err n pre a k S acc :
  small a -> (k + 2 < length (bulk a))%nat ->
  exists e, parse_args (Datatypes.S n) (pre ++ take k (bulk a ++ S)) (length pre) acc
            = Ret (Unexpected e, acc).
Proof.
  intros Ha Hk. rewrite length_bulk in Hk. cbn [parse_args].
  destruct (_ || _) eqn:E; [by eexists|]. apply orb_false_iff in E as [E1 E2]. b2p.
  destruct (decide (k < length (bulk_head a))%nat) as [Hh|Hh].
  - rewrite length_bulk_head in Hh. rewrite length_app, length_take in E1.
    assert (Heq : pre ++ take k (bulk a ++ S)
            = (pre ++ bs "$") ++ take (k - 1) (dec_digits (zlen a) ++ CRLF)).
    { unfold bulk. rewrite <- !app_assoc. destruct k as [|k]; [lia|]. f_equal.
      change (bs "$") with ["$"%char]. cbn [app take]. rewrite Nat.sub_succ, Nat.sub_0_r. f_equal.
      rewrite (app_assoc (dec_digits _)), take_app_le; [done|].
      rewrite length_app. simpl. lia. }
    rewrite Heq.
    destruct (parse_int_trunc (pre ++ bs "$") (zlen a) (k - 1)) as [p' Hp].
    { split; [apply zlen_nonneg|done]. }
    { lia. }
    rewrite length_app in Hp. simpl length in Hp.
    replace (Datatypes.S (length pre)) with (length pre + 1)%nat by lia.
    rewrite Hp. cbn. by eexists.
  - rewrite bulk_split, <- !app_assoc, take_app_ge by lia.
    destruct (parse_bulk_head pre a (take (k - length (bulk_head a)) (a ++ CRLF ++ S)) Ha)
      as [_ Hi].
    rewrite Hi. cbn [mbind outcome_bind].
    rewrite (proj2 (Z.ltb_ge _ _)) by apply zlen_nonneg.
    replace (Z.to_nat (zlen a)) with (length a) by (unfold zlen; lia).
    rewrite (proj2 (Nat.ltb_lt _ _)); [by eexists|].
    rewrite !length_app, length_take. lia.
Qed.

Lemma parse_args_at_end n input p acc : (length input <= p)%nat ->
  exists e, parse_args (S n) input p acc = Ret (Unexpected e, acc).
Proof.
  intros H. cbn [parse_args]. rewrite (proj2 (Nat.leb_le _ _)) by done. by eexists.
Qed.

Lemma parse_args_prefix l rest : forall pre k acc,
  Forall small l ->
  let T := concat (map bulk l) in
  let input := pre ++ take k (T ++ rest) in
  ((length T <= k + 2)%nat ->
     parse_args (length l) input (length pre) acc
     = Ret (Value (length pre + length T)%nat, acc ++ l))
  /\ ((k + 2 < length T)%nat ->
     exists e acc', parse_args (length l) input (length pre) acc = Ret (Unexpected e, acc')).
Proof.
  induction l as [|a l IH]; intros pre k acc Hsm T input.
  - split; simpl; [intros _; by rewrite Nat.add_0_r, app_nil_r|lia].
  - inversion_clear Hsm as [|? ? Ha Hl]. subst T input. cbn [map concat length].
    rewrite <- app_assoc, length_app.
    destruct (decide (length (bulk a) <= k + 2)%nat) as [Hk|Hk].
    2: { split; [intros; lia|]. intros _.
         destruct (parse_args_step_err (length l) pre a k (concat (map bulk l) ++ rest) acc)
           as [e He]; [done|lia|]. eauto. }
    rewrite parse_args_step_ok by done.
    destruct (decide (length (bulk a) <= k)%nat) as [Hf|Hf].
    + rewrite take_app_ge by done. rewrite (app_assoc pre), <- (length_app pre (bulk a)).
      destruct (IH (pre ++ bulk a) (k - length (bulk a))%nat (acc ++ [a]) Hl) as [IH1 IH2].
      cbv zeta in IH1, IH2.
      split; intros.
      * rewrite IH1 by lia. rewrite length_app, <- app_assoc. do 3 f_equal. lia.
      * apply IH2. lia.
    + assert (length (pre ++ take k (bulk a ++ concat (map bulk l) ++ rest))
              <= length pre + length (bulk a))%nat by (rewrite length_app, length_take; lia).
      destruct l as [|a' l].
      * cbn [map concat length parse_args]. split; [intros _; by rewrite Nat.add_0_r|intros; lia].
      * split.
        -- cbn [map concat]. rewrite length_app, (length_bulk a'), length_bulk_head. intros; lia.
        -- intros _. destruct (parse_args_at_end (length l) _ _ (acc ++ [a]) H) as [e He].
           simpl length. eauto.
Qed.

(** What [parse_one] does on the first [k] bytes of an encoded command followed
    by anything. *)
Lemma parse_one_take l rest k :
  l <> [] -> zlen l <= INT32_MAX -> Forall small l ->
  let E := encode_array l in
  ((length E <= k + 2)%nat ->
     parse_one (take k (E ++ rest)) = Ret (Value (mkParsedCommand l (length E))))
  /\ ((k + 2 < length E)%nat ->
     exists e, parse_one (take k (E ++ rest)) = Ret (Unexpected e)).
Proof.
  intros Hne Hn Hl E. subst E. rewrite encode_array_eq, length_app.
  set (H := header "*" (zlen l)). set (T := concat (map bulk l)).
  assert (HlenH : length H = (length (dec_digits (zlen l)) + 3)%nat).
  { subst H. unfold header. rewrite !length_app. simpl. lia. }
  assert (HlenT : (6 <= length T)%nat).
  { subst T. destruct l as [|a l]; [done|]. cbn [map concat].
    rewrite length_app, length_bulk, length_bulk_head.
    destruct (dec_digits_spec (zlen a)) as [Hd _]; [apply zlen_nonneg|].
    destruct (dec_digits (zlen a)); [done|]. simpl. lia. }
  destruct (decide (length H <= k)%nat) as [Hk|Hk].
  - rewrite <- app_assoc, take_app_ge by done.
    assert (Hi : parse_int_until_crlf (H ++ take (k - length H) (T ++ rest)) 1
                 = Ret (Some (zlen l), length H)).
    { set (tail := take _ _). clearbody tail. rewrite HlenH.
      pose proof (parse_int_ok (bs "*") (zlen l) tail) as Hp.
      subst H. unfold header. rewrite <- !app_assoc. change (length (bs "*")) with 1%nat in Hp.
      rewrite Hp by (split; [apply zlen_nonneg|done]). do 2 f_equal. lia. }
    unfold parse_one. rewrite bool_decide_true by (subst H; done). rewrite Hi. cbn [mbind outcome_bind].
    rewrite (proj2 (Z.ltb_ge _ _)) by apply zlen_nonneg.
    replace (Z.to_nat (zlen l)) with (length l) by (unfold zlen; lia).
    destruct (parse_args_prefix l rest H (k - length H) [] Hl) as [Hok Herr].
    fold T in Hok, Herr. cbv zeta in Hok, Herr. split; intros.
    + rewrite Hok by lia. done.
    + destruct Herr as (e & acc' & He); [lia|]. rewrite He. by exists e.
  - split; [intros; lia|]. intros _. rewrite <- app_assoc, take_app_le by lia.
    destruct k as [|k]; [by eexists|].
    assert (Hc : take (S k) H = bs "*" ++ take k (dec_digits (zlen l) ++ CRLF)) by done.
    rewrite Hc. unfold parse_one. rewrite bool_decide_true by done.
    destruct (parse_int_trunc (bs "*") (zlen l) k) as [p' Hp].
    { split; [apply zlen_nonneg|done]. } { lia. }
    change (length (bs "*")) with 1%nat in Hp. rewrite Hp. cbn. by eexists.
Qed.

Lemma parse_one_encode_rest l rest :
  zlen l <= INT32_MAX -> Forall small l ->
  parse_one (encode_array l ++ rest)
  = Ret (Value (mkParsedCommand l (length (encode_array l)))).
Proof.
  intros Hn Hl. destruct l as [|a l].
  - change (encode_array []) with (bs "*" ++ dec_digits 0 ++ CRLF).
    pose proof (parse_int_ok (bs "*") 0 rest ltac:(done)) as Hp. rewrite <- !app_assoc.
    unfold parse_one. rewrite bool_decide_true by done.
    change (length (bs "*")) with 1%nat in Hp. by rewrite Hp.
  - destruct (parse_one_take (a :: l) rest (length (encode_array (a :: l)) + length rest))
      as [H _]; [done|done|done|].
    rewrite <- H by lia. f_equal. rewrite take_ge; [done|]. rewrite length_app. lia.
Qed.

Lemma parse_one_into_spec args0 input :
  match parse_one input with
  | Ret (Value c) => parse_one_into args0 input = Ret (Value (pc_consumed c), pc_args c)
  | Ret (Unexpected e) => exists a, parse_one_into args0 input = Ret (Unexpected e, a)
  | Throw x => parse_one_into args0 input = Throw x
  | Ub u => parse_one_into args0 input = Ub u
  end.
Proof.
  unfold parse_one, parse_one_into. case_bool_decide; [|by eexists].
  destruct (parse_int_until_crlf input 1) as [[[c|] p]| |]; simpl; [|by eexists|done|done].
  destruct (c <? 0); [by eexists|].
  destruct (parse_args _ _ _ _) as [[[p'|e] acc]| |]; simpl; [done|by eexists|done|done].
Qed.

(** ** What a successful parse guarantees *)
Lemma scan_int_bounds s : forall p v v' p',
  scan_int s p v = Ret (v', p') -> (p <= p' <= p + length s)%nat.
Proof.
  induction s as [|c s IH]; simpl; intros p v v' p' H; [simplify_eq; lia|].
  destruct (is_digit c); [|simplify_eq; lia].
  unfold int32_of in H. destruct (in_int32b _); [|done]. apply IH in H. lia.
Qed.

Lemma parse_int_bounds input p v p' :
  parse_int_until_crlf input p = Ret (Some v, p') -> (p + 2 <= p' <= length input)%nat.
Proof.
  unfold parse_int_until_crlf. intros H. case_hyp H; [done|]. b2p.
  destruct (scan_int _ _ _) as [[v1 p1]| |] eqn:E; [|done|done].
  apply scan_int_bounds in E. rewrite length_drop in E. cbn [mbind outcome_bind] in H.
  case_hyp H; [done|]. simplify_eq. b2p. case_bool_decide; lia.
Qed.

Lemma parse_args_bounds n input : forall p acc p' acc',
  parse_args n input p acc = Ret (Value p', acc') -> (p <= length input + 2)%nat ->
  (p <= p' <= length input + 2)%nat
  /\ exists l, acc' = acc ++ l /\ length l = n
       /\ Forall (fun a => exists q, a = take (length a) (drop q input)) l.
Proof.
  induction n as [|n IH]; cbn [parse_args]; intros p acc p' acc' H Hp.
  - simplify_eq. split; [lia|]. exists []. by rewrite app_nil_r.
  - case_hyp H; [done|].
    destruct (parse_int_until_crlf input (S p)) as [[[len|] p1]| |] eqn:E; cbn [mbind outcome_bind] in H; [|done..].
    apply parse_int_bounds in E. destruct (len <? 0); [done|].
    destruct (_ <? _)%nat eqn:E2; [done|]. b2p.
    apply IH in H as (Hb & l & -> & Hlen & Hl); [|lia]. split; [lia|].
    exists (take (Z.to_nat len) (drop p1 input) :: l). rewrite <- app_assoc. split_and!; [done|simpl; lia|].
    constructor; [|done]. exists p1. rewrite length_take, length_drop.
    by replace (Z.to_nat len `min` (length input - p1))%nat with (Z.to_nat len) by lia.
Qed.

Lemma parse_one_bounds input c :
  parse_one input = Ret (Value c) ->
  (3 <= pc_consumed c <= length input + 2)%nat
  /\ Forall (fun a => exists q, a = take (length a) (drop q input)) (pc_args c).
Proof.
  unfold parse_one. intros H. case_bool_decide; [|done].
  destruct (parse_int_until_crlf input 1) as [[[n|] p]| |] eqn:E; cbn [mbind outcome_bind] in H; [|done..].
  apply parse_int_bounds in E. destruct (n <? 0); [done|].
  destruct (parse_args _ _ _ _) as [[[p'|e] acc]| |] eqn:E2; cbn [mbind outcome_bind] in H; [|done..].
  simplify_eq/=. apply parse_args_bounds in E2 as (Hb & l & -> & _ & Hl); [|lia].
  split; [lia|done].
Qed.

(** Commands that arrive back to back, and what may follow them. *)
Definition sendable (cmd : list bytes) : Prop := zlen cmd <= INT32_MAX /\ Forall small cmd.
Definition encode_all (cmds : list (list bytes)) : bytes := mjoin (encode_array <$> cmds).
(** Nothing, or bytes the parser cannot use yet.  (A command that only misses its last
    line end is not among them: the parser accepts it.) *)
Definition incomplete (tail : bytes) : Prop := tail = [] \/ exists e, parse_one tail = Ret (Unexpected e).

Lemma encode_array_nonempty l : (3 <= length (encode_array l))%nat.
Proof.
  rewrite encode_array_eq. unfold header. rewrite !length_app. unfold CRLF. simpl.
  pose proof (dec_digits_ne (zlen l) (zlen_nonneg l)). destruct (dec_digits (zlen l)); simpl; [done|lia].
Qed.

(** * Properties *)

(** C9: a command encoded by [encode_array] is parsed back by [parse_one]
    into the same arguments, consuming exactly the encoded bytes, whatever bytes
    follow it in the buffer (pipelining). *)
Theorem parse_one_encode_array (cmd : list bytes) (rest : bytes) :
  zlen cmd <= INT32_MAX -> Forall small cmd ->
  parse_one (encode_array cmd ++ rest)
  = Ret (Value (mkParsedCommand cmd (length (encode_array cmd)))).
Proof. apply parse_one_encode_rest. Qed.

Lemma parse_one_encode_array_witness :
  parse_one (encode_array [bs "SET"; bs "k"; CRLF] ++ bs "*1")
  = Ret (Value (mkParsedCommand [bs "SET"; bs "k"; CRLF] 28)).
Proof.
  apply (parse_one_encode_array [bs "SET"; bs "k"; CRLF] (bs "*1")); [done|].
  repeat constructor; done.
Defined.

(** C34: on a buffer that holds the first [k] bytes of an encoded command, the
    parser reports an error for as long as more than the final two bytes are
    missing, and accepts the command as soon as only those are: the line end
    after the last argument is never looked at, and the reported length then
    exceeds the buffer. *)
Theorem parse_one_on_prefix (cmd : list bytes) (k : nat) :
  cmd <> [] -> zlen cmd <= INT32_MAX -> Forall small cmd ->
  if decide (length (encode_array cmd) <= k + 2)%nat
  then parse_one (take k (encode_array cmd))
       = Ret (Value (mkParsedCommand cmd (length (encode_array cmd))))
  else exists e, parse_one (take k (encode_array cmd)) = Ret (Unexpected e).
Proof.
  intros Hne Hn Hl. destruct (parse_one_take cmd [] k Hne Hn Hl) as [Hok Herr].
  cbv zeta in Hok, Herr. rewrite app_nil_r in Hok, Herr.
  case_decide; [by apply Hok|apply Herr; lia].
Qed.

Lemma parse_one_on_prefix_witness :
  parse_one (bs "*1" ++ CRLF ++ bs "$4" ++ CRLF ++ bs "PING")
  = Ret (Value (mkParsedCommand [bs "PING"] 14)).
Proof.
  pose proof (parse_one_on_prefix [bs "PING"] 12 ltac:(done) ltac:(done)
    ltac:(repeat constructor; done)) as H.
  vm_compute in H. vm_compute. exact H.
Defined.

(** Every appending encoder writes exactly what its returning counterpart
    returns, after what the buffer already holds; the one-digit fast paths do not
    change the output. *)
Theorem encoders_into_agree (out s : bytes) (n : Z) (l : list bytes)
    (es : list StreamEntry) (ss : list (bytes * list StreamEntry)) :
  encode_simple_string_into out s = out ++ encode_simple_string s
  /\ encode_bulk_string_into out s = out ++ encode_bulk_string s
  /\ encode_error_into out s = out ++ encode_error s
  /\ encode_integer_into out n = out ++ encode_integer n
  /\ encode_null_bulk_string_into out = out ++ encode_null_bulk_string
  /\ encode_null_array_into out = out ++ encode_null_array
  /\ encode_array_into out l = out ++ encode_array l
  /\ encode_array_into out l = out ++ encode_array_sv l
  /\ encode_raw_array_into out l = out ++ encode_raw_array l
  /\ encode_entries_into out es = out ++ encode_entries es
  /\ encode_stream_entries_into out ss = out ++ encode_stream_entries ss.
Proof.
  split_and!; try done.
  - by rewrite encode_bulk_string_into_eq, encode_bulk_string_eq.
  - apply encode_integer_into_eq.
  - by rewrite encode_array_into_eq, encode_array_eq.
  - rewrite encode_array_into_eq. unfold encode_array_sv. by rewrite (fold_left_append bulk).
  - by rewrite encode_raw_array_into_eq, encode_raw_array_eq.
  - by rewrite encode_entries_into_eq, encode_entries_eq.
  - by rewrite encode_stream_entries_into_eq, encode_stream_entries_eq.
Qed.

(** The sizes reserved before writing are exact for the two array encoders
    and one byte short per entry for [encode_entries], and per stream and entry
    for [encode_stream_entries] (the four bytes of a pair's header line are
    counted as three). *)
Theorem encoders_reserve (l : list bytes) (es : list StreamEntry)
    (ss : list (bytes * list StreamEntry)) :
  encode_array_total l = zlen (encode_array l)
  /\ encode_raw_array_total l = zlen (encode_raw_array l)
  /\ encode_entries_total es + zlen es = zlen (encode_entries es)
  /\ encode_stream_entries_total ss + zlen ss + zlen (concat (map snd ss))
     = zlen (encode_stream_entries ss).
Proof.
  rewrite encode_array_eq, encode_raw_array_eq, encode_entries_eq, encode_stream_entries_eq.
  rewrite !zlen_app, !zlen_header. change (zlen (bs "*")) with 1.
  unfold encode_array_total, encode_raw_array_total, encode_entries_total,
    encode_stream_entries_total. rewrite !to_string_zlen. split_and!.
  - rewrite (fold_left_total _ bulk 0); [lia|]. intros t x. rewrite <- bulk_total_spec.
    unfold bulk_total. lia.
  - rewrite (fold_left_total _ (fun x => x) 0); [rewrite map_id; lia|]. intros. lia.
  - rewrite (fold_left_total _ entry_bytes 1); [lia|]. intros. apply entry_total_spec.
  - generalize (1 + zlen (dec_digits (zlen ss)) + 2).
    induction ss as [|[k es'] ss IH]; intros t; [unfold zlen; simpl; lia|].
    cbn [fold_left map concat fst snd]. specialize (IH (fold_left entry_total es'
      (t + 3 + bulk_total k + (1 + digit_count (zlen es') + 2)))). rewrite !zlen_app.
    replace (zlen ((k, es') :: ss)) with (1 + zlen ss) by (unfold zlen; simpl length; lia).
    rewrite (fold_left_total _ entry_bytes 1) in IH |- * by apply entry_total_spec.
    unfold stream_bytes at 1; cbn [fst snd]. rewrite !zlen_app, !zlen_header.
    rewrite bulk_total_spec, digit_count_spec in * by apply zlen_nonneg.
    change (zlen (bs "*")) with 1 in *. change (zlen (dec_digits 2)) with 1 in *. lia.
Qed.

(** An accepted command stays within the buffer up to the two unchecked
    bytes, makes progress, and every argument is a slice of the buffer. *)
Theorem parse_one_in_bounds (input : bytes) (c : ParsedCommand) :
  parse_one input = Ret (Value c) ->
  (3 <= pc_consumed c <= length input + 2)%nat
  /\ Forall (fun a => exists q, a = take (length a) (drop q input)) (pc_args c).
Proof. apply parse_one_bounds. Qed.

Lemma parse_one_in_bounds_witness :
  (3 <= 14 <= 12 + 2)%nat
  /\ Forall (fun a => exists q, a = take (length a) (drop q (take 12 (encode_array [bs "PING"]))))
       [bs "PING"].
Proof.
  apply (parse_one_in_bounds (take 12 (encode_array [bs "PING"])) (mkParsedCommand [bs "PING"] 14)).
  reflexivity.
Defined.
