(* ===== verification/Scores.v ===== *)
(** * Scores: [double] scores and the order of the sorted set

    A score is a C++ [double]; its values are the IEEE 754 values of the
    Standard Library's [spec_float].  The elements of
    [std::set<std::pair<double, std::string>>] (store/store.hpp) are compared by
    the [operator<] of [std::pair]: the scores by their partial ordering, then
    the members as strings of unsigned characters. *)
From Stdlib Require Export SpecFloat.
From S2P Require Import Prelude Text.

Open Scope Z_scope.

Abbreviation double := spec_float.

#[export] Instance double_eq_dec : EqDecision double.
Proof. solve_decision. Defined.

Definition is_nan (d : double) : bool :=
  match d with S754_nan => true | _ => false end.

(** [std::string::operator<]. *)
Fixpoint bytes_ltb (s t : bytes) : bool :=
  match s, t with
  | [], [] => false
  | [], _ :: _ => true
  | _ :: _, [] => false
  | c :: s', d :: t' =>
      if code c <? code d then true
      else if code d <? code c then false
      else bytes_ltb s' t'
  end.

Abbreviation zelem := (double * bytes)%type.

(** [operator<] of the pair: an unordered comparison of the scores is not less. *)
Definition pair_ltb (a b : zelem) : bool :=
  match SFcompare a.1 b.1 with
  | Some Lt => true
  | Some Gt => false
  | Some Eq => bytes_ltb a.2 b.2
  | None => false
  end.

(** * Lemmas *)
Lemma bytes_ltb_irrefl s : bytes_ltb s s = false.
Proof. induction s as [|c s IH]; simpl; [done|]. by rewrite Z.ltb_irrefl. Qed.

Lemma bytes_ltb_trans s : forall t u,
  bytes_ltb s t = true -> bytes_ltb t u = true -> bytes_ltb s u = true.
Proof.
  induction s as [|c s IH]; intros [|d t] [|e u]; simpl; intros H1 H2; try done.
  destruct (code c <? code d) eqn:E1, (code d <? code c) eqn:E2,
    (code d <? code e) eqn:E3, (code e <? code d) eqn:E4; try done; b2p;
    rewrite ?(proj2 (Z.ltb_lt (code c) (code e))) by lia; try done.
  rewrite (proj2 (Z.ltb_ge (code c) (code e))), (proj2 (Z.ltb_ge (code e) (code c))) by lia.
  by eapply IH.
Qed.

Lemma bytes_ltb_total s : forall t,
  bytes_ltb s t = false -> bytes_ltb t s = false -> s = t.
Proof.
  induction s as [|c s IH]; intros [|d t]; simpl; intros H1 H2; try done.
  destruct (code c <? code d) eqn:E1, (code d <? code c) eqn:E2; try done; b2p.
  f_equal; [apply code_inj; lia|by apply IH].
Qed.

(** A numeric key whose lexicographic order is the order of the doubles. *)
Definition dkey (d : double) : Z * Z * Z :=
  match d with
  | S754_zero _ => (0, 0, 0)
  | S754_infinity s => (if s then -2 else 2, 0, 0)
  | S754_nan => (0, 0, 0)
  | S754_finite s m e => if s then (-1, - e, - Zpos m) else (1, e, Zpos m)
  end.

Definition key_compare (a b : Z * Z * Z) : comparison :=
  let '(a1, a2, a3) := a in
  let '(b1, b2, b3) := b in
  match a1 ?= b1 with
  | Eq => match a2 ?= b2 with Eq => a3 ?= b3 | c => c end
  | c => c
  end.

Lemma SFcompare_key a b : is_nan a = false -> is_nan b = false ->
  SFcompare a b = Some (key_compare (dkey a) (dkey b)).
Proof.
  destruct a as [sa|sa| |sa ma ea], b as [sb|sb| |sb mb eb]; try done; intros _ _;
    try destruct sa; try destruct sb; try done; simpl; f_equal.
  change (PosDef.Pos.compare_cont Eq ma mb) with (ma ?= mb)%positive.
  by destruct (Z.compare_spec ea eb), (Z.compare_spec (- ea) (- eb)); try lia.
Qed.

Lemma key_compare_refl a : key_compare a a = Eq.
Proof. destruct a as [[a1 a2] a3]. simpl. by rewrite !Z.compare_refl. Qed.

Definition key_lt (a b : Z * Z * Z) : Prop :=
  a.1.1 < b.1.1 \/ (a.1.1 = b.1.1 /\ (a.1.2 < b.1.2 \/ (a.1.2 = b.1.2 /\ a.2 < b.2))).

Lemma key_compare_spec a b :
  match key_compare a b with
  | Lt => key_lt a b
  | Eq => a = b
  | Gt => key_lt b a
  end.
Proof.
  destruct a as [[a1 a2] a3], b as [[b1 b2] b3]. unfold key_compare, key_lt; simpl.
  destruct (Z.compare_spec a1 b1); [subst|lia|lia].
  destruct (Z.compare_spec a2 b2); [subst|lia|lia].
  destruct (Z.compare_spec a3 b3); [by subst|lia|lia].
Qed.

(** The order as a proposition, on keys and members. *)
Definition elt_lt (a b : zelem) : Prop :=
  key_lt (dkey a.1) (dkey b.1) \/ (dkey a.1 = dkey b.1 /\ bytes_ltb a.2 b.2 = true).

Lemma pair_ltb_spec a b : is_nan a.1 = false -> is_nan b.1 = false ->
  pair_ltb a b = true <-> elt_lt a b.
Proof.
  intros Ha Hb. unfold pair_ltb, elt_lt. rewrite SFcompare_key by done.
  pose proof (key_compare_spec (dkey a.1) (dkey b.1)) as H.
  destruct (key_compare _ _).
  - rewrite H. split; [auto|]. intros [Hk|[_ ?]]; [|done]. unfold key_lt in Hk. lia.
  - split; auto.
  - split; [done|]. intros [Hk|[Hk _]]; [unfold key_lt in *; lia|].
    rewrite Hk in H. unfold key_lt in H. lia.
Qed.

#[export] Instance elt_lt_trans : Transitive elt_lt.
Proof.
  intros [a s] [b t] [c u]. unfold elt_lt; simpl. intros [H1|[E1 H1]] [H2|[E2 H2]].
  - left. unfold key_lt in *. lia.
  - left. by rewrite <- E2.
  - left. by rewrite E1.
  - right. split; [congruence|]. by eapply bytes_ltb_trans.
Qed.

Lemma elt_lt_irrefl a : ~ elt_lt a a.
Proof.
  intros [H|[_ H]]; [unfold key_lt in H; lia|]. by rewrite bytes_ltb_irrefl in H.
Qed.

Lemma elt_lt_total a b : elt_lt a b \/ elt_lt b a \/ (dkey a.1 = dkey b.1 /\ a.2 = b.2).
Proof.
  pose proof (key_compare_spec (dkey a.1) (dkey b.1)) as H.
  destruct (key_compare _ _); [|by left; left|by right; left; left].
  destruct (bytes_ltb a.2 b.2) eqn:E1; [by left; right|].
  destruct (bytes_ltb b.2 a.2) eqn:E2; [by right; left; right|].
  right; right. split; [done|]. by apply bytes_ltb_total.
Qed.
