(* ===== verification/SortedSets.v ===== *)
(** * SortedSets: the sorted set of store/store.hpp

    [SortedSet] keeps an ordered set of (score, member) pairs and a hash map
    from the member to an iterator into that set.  The ordered set is the list
    of its elements in order; its elements are pairwise distinct, so an iterator
    is the element it points to. *)
From S2P Require Import Prelude Text Scores.

Open Scope Z_scope.

Record SortedSet := mkSortedSet {
  entries : list zelem;
  member_scores : gmap bytes zelem
}.

Definition empty_zset : SortedSet := mkSortedSet [] ∅.

(** [std::set::insert] and [emplace]: the new list and an iterator to the new
    element, or to the equivalent element already there. *)
Fixpoint set_insert (x : zelem) (l : list zelem) : list zelem * zelem :=
  match l with
  | [] => ([x], x)
  | y :: l' =>
      if pair_ltb x y then (x :: y :: l', x)
      else if pair_ltb y x then let '(l'', it) := set_insert x l' in (y :: l'', it)
      else (y :: l', y)
  end.

(** [std::set::extract] and [erase] by iterator. *)
Fixpoint set_erase (x : zelem) (l : list zelem) : list zelem :=
  match l with
  | [] => []
  | y :: l' => if decide (x = y) then l' else y :: set_erase x l'
  end.

(** [std::unordered_map::emplace] keeps a value already stored. *)
Definition map_emplace {V} (k : bytes) (v : V) (m : gmap bytes V) : gmap bytes V :=
  match m !! k with
  | Some _ => m
  | None => <[k := v]> m
  end.

Definition zset_add (score : double) (member : bytes) (z : SortedSet) : SortedSet * Z :=
  match member_scores z !! member with
  | Some it =>
      let nh := (score, it.2) in
      let '(es, new_iter) := set_insert nh (set_erase it (entries z)) in
      (mkSortedSet es (<[member := new_iter]> (member_scores z)), 0)
  | None =>
      let '(es, entry_it) := set_insert (score, member) (entries z) in
      (mkSortedSet es (map_emplace entry_it.2 entry_it (member_scores z)), 1)
  end.

Definition zset_remove (member : bytes) (z : SortedSet) : SortedSet * Z :=
  match member_scores z !! member with
  | None => (z, 0)
  | Some entry_it =>
      (mkSortedSet (set_erase entry_it (entries z)) (delete member (member_scores z)), 1)
  end.

(** * Invariant and lemmas *)

(** The list is in strict order and free of NaN, and the map points each member
    to its element. *)
Record zset_wf (z : SortedSet) : Prop := {
  zwf_sorted : StronglySorted elt_lt (entries z);
  zwf_nonan : Forall (fun e => is_nan e.1 = false) (entries z);
  zwf_map : forall m e, member_scores z !! m = Some e <-> e ∈ entries z /\ e.2 = m
}.

(** The abstract value: the score of each member. *)
Definition zscores (z : SortedSet) : gmap bytes double := fst <$> member_scores z.

Lemma set_insert_spec x l :
  is_nan x.1 = false -> Forall (fun e => is_nan e.1 = false) l ->
  StronglySorted elt_lt l -> (forall y, y ∈ l -> y.2 <> x.2) ->
  exists l', set_insert x l = (l', x) /\ l' ≡ₚ x :: l /\ StronglySorted elt_lt l'.
Proof.
  intros Hx Hl Hs Hne. induction Hs as [|y l Hs IH Hy]; simpl.
  { exists [x]. split_and!; [done|done|]. repeat constructor. }
  inversion_clear Hl as [|? ? Hny Hnl].
  destruct (pair_ltb x y) eqn:E1.
  { apply pair_ltb_spec in E1; [|done|done]. exists (x :: y :: l). split_and!; [done|done|].
    constructor; [by constructor|]. constructor; [done|].
    eapply Forall_impl; [exact Hy|]. intros z Hz. by transitivity y. }
  destruct (pair_ltb y x) eqn:E2.
  - destruct IH as (l' & Hi & Hp & Hs'); [done|intros z Hz; apply Hne; by right|].
    rewrite Hi. exists (y :: l'). split_and!; [done| |].
    + rewrite Hp. apply Permutation_swap.
    + constructor; [done|]. apply pair_ltb_spec in E2; [|done|done].
      apply Forall_forall. intros z Hz. rewrite Hp in Hz.
      apply elem_of_cons in Hz as [->|Hz]; [done|]. rewrite Forall_forall in Hy. by apply Hy.
  - exfalso. destruct (elt_lt_total x y) as [H|[H|[_ H]]].
    + apply pair_ltb_spec in H; [congruence|done|done].
    + apply pair_ltb_spec in H; [congruence|done|done].
    + apply (Hne y); [by left|done].
Qed.

Lemma sorted_NoDup l : StronglySorted elt_lt l -> NoDup l.
Proof.
  induction 1 as [|x l Hs IH Hx]; constructor; [|done].
  intros Hin. rewrite Forall_forall in Hx. by apply (elt_lt_irrefl x), Hx.
Qed.

Lemma set_erase_perm x l : x ∈ l -> l ≡ₚ x :: set_erase x l.
Proof.
  induction l as [|y l IH]; intros Hin; [by apply not_elem_of_nil in Hin|]. simpl.
  case_decide as E; [by subst|]. apply elem_of_cons in Hin as [?|Hin]; [done|].
  rewrite (IH Hin) at 1. apply Permutation_swap.
Qed.

Lemma set_erase_subset x l y : y ∈ set_erase x l -> y ∈ l.
Proof.
  induction l as [|z l IH]; simpl; [done|]. case_decide; [by right|].
  intros [->|Hy]%elem_of_cons; [by left|right; by apply IH].
Qed.

Lemma set_erase_sorted x l : StronglySorted elt_lt l -> StronglySorted elt_lt (set_erase x l).
Proof.
  induction 1 as [|y l Hs IH Hy]; simpl; [constructor|]. case_decide; [done|].
  constructor; [done|]. apply Forall_forall. intros z Hz%set_erase_subset.
  rewrite Forall_forall in Hy. by apply Hy.
Qed.

(** Exactly the erased element is gone from a list without duplicates. *)
Lemma elem_of_set_erase x l y : NoDup l -> y ∈ set_erase x l <-> y ∈ l /\ y <> x.
Proof.
  induction 1 as [|z l Hz Hnd IH]; simpl.
  { split; [by intros ?%not_elem_of_nil|by intros [?%not_elem_of_nil _]]. }
  case_decide as E; subst; rewrite ?elem_of_cons; [|rewrite IH]; split.
  - intros Hy. split; [by right|]. by intros ->.
  - by intros [[->|Hy] ?].
  - intros [->|[Hy Hne]]; split; auto.
  - intros [[->|Hy] Hne]; auto.
Qed.

Lemma set_erase_nonan x l :
  Forall (fun e : zelem => is_nan e.1 = false) l ->
  Forall (fun e : zelem => is_nan e.1 = false) (set_erase x l).
Proof.
  rewrite !Forall_forall. intros H y Hy%set_erase_subset. by apply H.
Qed.

Lemma empty_zset_wf : zset_wf empty_zset.
Proof.
  split; simpl; [constructor|constructor|]. intros m e. rewrite lookup_empty.
  split; [done|]. intros [?%not_elem_of_nil _]. done.
Qed.

Lemma zset_wf_NoDup z : zset_wf z -> NoDup (entries z).
Proof. intros [H _ _]. by apply sorted_NoDup. Qed.

Lemma zset_wf_unique z x y : zset_wf z -> x ∈ entries z -> y ∈ entries z -> x.2 = y.2 -> x = y.
Proof.
  intros [_ _ Hm] Hx Hy E.
  assert (member_scores z !! x.2 = Some x) as E1 by (apply Hm; auto).
  assert (member_scores z !! x.2 = Some y) as E2 by (apply Hm; auto). congruence.
Qed.

Lemma zset_remove_wf z it :
  zset_wf z -> it ∈ entries z ->
  zset_wf (mkSortedSet (set_erase it (entries z)) (delete it.2 (member_scores z))).
Proof.
  intros Hwf Hit. pose proof Hwf as [Hs Hnn Hm]. pose proof (zset_wf_NoDup z Hwf) as Hnd.
  split; simpl; [by apply set_erase_sorted|by apply set_erase_nonan|].
  intros m e. rewrite lookup_delete, elem_of_set_erase by done. case_decide as Ec.
  - split; [done|]. intros [[He Hne] He2]. exfalso. apply Hne.
    eapply zset_wf_unique; [done|done|done|congruence].
  - rewrite Hm. split; [|tauto]. intros [He He2]. split_and!; [done| |done].
    intros ->. congruence.
Qed.

Lemma zset_insert_wf z score member :
  zset_wf z -> is_nan score = false -> member_scores z !! member = None ->
  exists l', set_insert (score, member) (entries z) = (l', (score, member))
    /\ zset_wf (mkSortedSet l' (<[member := (score, member)]> (member_scores z))).
Proof.
  intros Hwf Hn E. pose proof Hwf as [Hs Hnn Hm].
  destruct (set_insert_spec (score, member) (entries z)) as (l' & Hi & Hp & Hs'); try done.
  { intros y Hy Hy2. simpl in Hy2.
    assert (member_scores z !! member = Some y) by (apply Hm; auto). congruence. }
  exists l'. split; [done|]. split; simpl; [done|rewrite Hp; by constructor|].
  intros m e. rewrite lookup_insert, Hp, elem_of_cons. case_decide as Ec.
  - subst m. split; [intros [= <-]; auto|].
    intros [[->|He] He2]; [done|].
    assert (member_scores z !! member = Some e) by (apply Hm; auto). congruence.
  - rewrite Hm. split; [by intros [? ?]; auto|].
    intros [[->|He] He2]; [simpl in He2; congruence|done].
Qed.

Lemma zset_add_spec score member z :
  is_nan score = false -> zset_wf z ->
  exists z', zset_add score member z
             = (z', if member_scores z !! member then 0 else 1)
    /\ zset_wf z' /\ zscores z' = <[member := score]> (zscores z).
Proof.
  intros Hn Hwf. unfold zset_add. destruct (member_scores z !! member) as [it|] eqn:E.
  - pose proof E as [Hit Hmem]%(zwf_map _ Hwf). rewrite Hmem.
    pose proof (zset_remove_wf z it Hwf Hit) as Hr. rewrite Hmem in Hr.
    destruct (zset_insert_wf _ score member Hr Hn (lookup_delete_eq _ _)) as (l' & Hi & Hw).
    simpl in Hi, Hw. rewrite Hi, insert_delete_eq in *. eexists. split_and!; [done|done|].
    unfold zscores; simpl. by rewrite fmap_insert.
  - destruct (zset_insert_wf z score member Hwf Hn E) as (l' & Hi & Hw). rewrite Hi.
    unfold map_emplace; cbn [snd]. rewrite E. eexists. split_and!; [done|done|].
    unfold zscores; simpl. by rewrite fmap_insert.
Qed.

Lemma zset_remove_spec member z :
  zset_wf z ->
  exists z', zset_remove member z = (z', if member_scores z !! member then 1 else 0)
    /\ zset_wf z' /\ zscores z' = delete member (zscores z).
Proof.
  intros Hwf. unfold zset_remove. destruct (member_scores z !! member) as [it|] eqn:E.
  - pose proof E as [Hit <-]%(zwf_map _ Hwf). eexists. split_and!; [done|by apply zset_remove_wf|].
    unfold zscores; simpl. by rewrite fmap_delete.
  - exists z. split_and!; [done|done|]. symmetry. apply delete_id.
    unfold zscores. by rewrite lookup_fmap, E.
Qed.

Lemma zset_size z : zset_wf z -> size (member_scores z) = length (entries z).
Proof.
  intros Hwf. pose proof Hwf as [Hs Hnn Hm]. pose proof (zset_wf_NoDup z Hwf) as Hnd.
  assert (Hnd2 : NoDup (snd <$> entries z)).
  { apply NoDup_fmap_2_strong; [|done]. intros x y Hx Hy E.
    assert (member_scores z !! x.2 = Some x) as E1 by (apply Hm; auto).
    assert (member_scores z !! y.2 = Some y) as E2 by (apply Hm; auto). congruence. }
  assert (Heq : member_scores z = list_to_map ((fun e => (e.2, e)) <$> entries z)).
  { apply map_eq. intros m. apply option_eq. intros e. rewrite Hm.
    rewrite <- elem_of_list_to_map by (rewrite <- list_fmap_compose; done).
    rewrite list_elem_of_fmap. split.
    - intros [He <-]. by exists e.
    - intros (e' & [= -> ->] & He). auto. }
  rewrite Heq, map_size_list_to_map by (rewrite <- list_fmap_compose; done).
  by rewrite length_fmap.
Qed.
