(* ===== verification/Store.v ===== *)
(** * Store: the keyspace (store/store.hpp, store/store.cpp)

    The keyspace is a map from keys to entries with an optional expiry, plus the
    per-key version counters that WATCH reads.  An operation that mutates
    through a pointer into the map is a function that writes the new entry back.

    Time: [now] is the reading of [std::chrono::steady_clock] in nanoseconds and
    [sys_ms] that of [std::chrono::system_clock] in milliseconds, taken as one
    instant for the whole of an operation.  An operation that can overflow a
    signed integer returns an [outcome].  The order in which
    [std::unordered_map] is walked is not specified; [map_to_list] stands for
    it, and no theorem depends on that order. *)
From S2P Require Import Prelude Text StreamIds RespCodec Scores SortedSets.

Open Scope Z_scope.

Inductive Val :=
| VString (s : bytes)
| VList (l : list bytes)
| VStream (st : list StreamEntry)
| VZset (z : SortedSet).

Record Entry := mkEntry { value : Val; expiry : option Z }.

Record Store := mkStore {
  data_ : gmap bytes Entry;
  version_counter_ : Z;
  key_versions_ : gmap bytes Z
}.

Definition empty_store : Store := mkStore ∅ 0 ∅.

(** An alternative of the variant, as the template parameter [T] of
    [std::get_if<T>] and [std::holds_alternative<T>]. *)
Class Alternative (T : Type) := {
  alt_inj : T -> Val;
  alt_get_if : Val -> option T;
  alt_default : T;
  alt_get_inj : forall x, alt_get_if (alt_inj x) = Some x;
  alt_inj_get : forall v x, alt_get_if v = Some x -> v = alt_inj x
}.

#[export] Instance alt_string : Alternative bytes.
Proof.
  refine {| alt_inj := VString; alt_default := [];
            alt_get_if v := match v with VString s => Some s | _ => None end |}.
  - done.
  - intros [] x; simpl; congruence.
Defined.

#[export] Instance alt_list : Alternative (list bytes).
Proof.
  refine {| alt_inj := VList; alt_default := [];
            alt_get_if v := match v with VList l => Some l | _ => None end |}.
  - done.
  - intros [] x; simpl; congruence.
Defined.

#[export] Instance alt_stream : Alternative (list StreamEntry).
Proof.
  refine {| alt_inj := VStream; alt_default := [];
            alt_get_if v := match v with VStream s => Some s | _ => None end |}.
  - done.
  - intros [] x; simpl; congruence.
Defined.

#[export] Instance alt_zset : Alternative SortedSet.
Proof.
  refine {| alt_inj := VZset; alt_default := empty_zset;
            alt_get_if v := match v with VZset z => Some z | _ => None end |}.
  - done.
  - intros [] x; simpl; congruence.
Defined.

#[global] Arguments alt_get_if {_ _} _ : simpl never.
#[global] Arguments alt_inj {_ _} _ : simpl never.

Definition holds_alternative (T : Type) `{Alternative T} (v : Val) : bool :=
  match alt_get_if (T := T) v with Some _ => true | None => false end.

(** ** Clock, versions and lookup *)
Definition set_data (f : gmap bytes Entry -> gmap bytes Entry) (st : Store) : Store :=
  mkStore (f (data_ st)) (version_counter_ st) (key_versions_ st).

Definition touch_key (key : bytes) (st : Store) : Store :=
  let v := u64 (version_counter_ st + 1) in
  mkStore (data_ st) v (<[key := v]> (key_versions_ st)).

Definition is_expired (now : Z) (e : Entry) : bool :=
  match expiry e with Some t => t <=? now | None => false end.

(** [get_current_time() + std::chrono::milliseconds(ttl)]: the conversion to the
    signed representation wraps, the one to nanoseconds and the sum must fit. *)
Definition expiry_after (now ttl_ms : Z) : outcome Z :=
  ns ← int64_of (s64 ttl_ms * 1000000);
  int64_of (now + ns).

Definition expiry_opt (now : Z) (ttl_ms : option Z) : outcome (option Z) :=
  match ttl_ms with
  | Some ttl => t ← expiry_after now ttl; Ret (Some t)
  | None => Ret None
  end.

Definition find_valid_entry (now : Z) (key : bytes) (st : Store) : Store * option Entry :=
  match data_ st !! key with
  | None => (st, None)
  | Some e =>
      if is_expired now e then (set_data (delete key) st, None) else (st, Some e)
  end.

Definition get_typed (T : Type) `{Alternative T} (now : Z) (key : bytes) (st : Store)
  : Store * option T :=
  match find_valid_entry now key st with
  | (st', None) => (st', None)
  | (st', Some e) => (st', alt_get_if (value e))
  end.

(** The entry is created without expiry, and an entry of another type gets an
    empty value of the type and keeps its expiry. *)
Definition get_or_create_typed (T : Type) `{Alternative T} (now : Z) (key : bytes) (st : Store)
  : Store * (T * option Z) :=
  match find_valid_entry now key st with
  | (st', None) =>
      (set_data <[key := mkEntry (alt_inj (alt_default (T := T))) None]> st', (alt_default, None))
  | (st', Some e) =>
      match alt_get_if (value e) with
      | Some x => (st', (x, expiry e))
      | None =>
          (set_data <[key := mkEntry (alt_inj (alt_default (T := T))) (expiry e)]> st',
           (alt_default, expiry e))
      end
  end.

(** Writing through the pointer a lookup returned. *)
Definition put_value (key : bytes) (v : Val) (exp : option Z) : Store -> Store :=
  set_data <[key := mkEntry v exp]>.

(** The binary searches of a stream; the interval shrinks at every step. *)
Fixpoint lower_bound_go (fuel : nat) (stream : list StreamEntry) (target : StreamId)
    (lo hi : nat) : nat :=
  match fuel with
  | O => lo
  | S f =>
      if (lo <? hi)%nat then
        let mid := (lo + (hi - lo) / 2)%nat in
        match stream !! mid with
        | Some e =>
            if sid_ltb (parsed_id e) target
            then lower_bound_go f stream target (mid + 1) hi
            else lower_bound_go f stream target lo mid
        | None => lo
        end
      else lo
  end.
Definition lower_bound (stream : list StreamEntry) (target : StreamId) : nat :=
  lower_bound_go (S (length stream)) stream target 0 (length stream).

Fixpoint upper_bound_go (fuel : nat) (stream : list StreamEntry) (target : StreamId)
    (lo hi : nat) : nat :=
  match fuel with
  | O => lo
  | S f =>
      if (lo <? hi)%nat then
        let mid := (lo + (hi - lo) / 2)%nat in
        match stream !! mid with
        | Some e =>
            if negb (sid_ltb target (parsed_id e))
            then upper_bound_go f stream target (mid + 1) hi
            else upper_bound_go f stream target lo mid
        | None => lo
        end
      else lo
  end.
Definition upper_bound (stream : list StreamEntry) (target : StreamId) : nat :=
  upper_bound_go (S (length stream)) stream target 0 (length stream).

(** ** Strings *)
Definition set (now : Z) (key v : bytes) (ttl_ms : option Z) (st : Store) : outcome Store :=
  let st1 := touch_key key st in
  exp ← expiry_opt now ttl_ms;
  Ret (set_data <[key := mkEntry (VString v) exp]> st1).

Definition set_if_valid_type (now : Z) (key v : bytes) (ttl_ms : option Z) (st : Store)
  : outcome (Store * bool) :=
  let create st0 :=
    let st1 := touch_key key st0 in
    exp ← expiry_opt now ttl_ms;
    Ret (set_data (map_emplace key (mkEntry (VString v) exp)) st1, true) in
  match data_ st !! key with
  | Some e =>
      if negb (is_expired now e) then
        if negb (holds_alternative bytes (value e)) then Ret (st, false)
        else
          let st1 := touch_key key st in
          exp ← expiry_opt now ttl_ms;
          Ret (put_value key (VString v) exp st1, true)
      else create (set_data (delete key) st)
  | None => create st
  end.

Definition incr_if_valid_type (now : Z) (key : bytes) (st : Store) : Store * option Z :=
  let create st0 :=
    (set_data (map_emplace key (mkEntry (VString (bs "1")) None)) (touch_key key st0), Some 1) in
  match data_ st !! key with
  | Some e =>
      if negb (is_expired now e) then
        match alt_get_if (T := bytes) (value e) with
        | None => (st, None)
        | Some str_value =>
            let st1 := touch_key key st in
            match parse_int64 str_value with
            | None => (st1, None)
            | Some parsed =>
                if parsed =? INT64_MAX then (st1, None)
                else
                  let new_value := parsed + 1 in
                  (put_value key (VString (to_string new_value)) (expiry e) st1, Some new_value)
            end
        end
      else create (set_data (delete key) st)
  | None => create st
  end.

Definition get (now : Z) (key : bytes) (st : Store) : Store * option bytes :=
  match find_valid_entry now key st with
  | (st', None) => (st', None)
  | (st', Some e) => (st', alt_get_if (value e))
  end.

Definition incr (now : Z) (key : bytes) (st : Store) : Store * option Z :=
  match find_valid_entry now key (touch_key key st) with
  | (st', None) => (set_data <[key := mkEntry (VString (bs "1")) None]> st', Some 1)
  | (st', Some e) =>
      match alt_get_if (T := bytes) (value e) with
      | None => (st', None)
      | Some str_value =>
          match parse_int64 str_value with
          | None => (st', None)
          | Some parsed =>
              if parsed =? INT64_MAX then (st', None)
              else
                let new_value := parsed + 1 in
                (put_value key (VString (to_string new_value)) (expiry e) st', Some new_value)
          end
      end
  end.

Definition exists_ (now : Z) (key : bytes) (st : Store) : Store * bool :=
  let '(st', e) := find_valid_entry now key st in (st', if e then true else false).

Definition del (key : bytes) (st : Store) : Store * bool :=
  let st1 := touch_key key st in
  match data_ st1 !! key with
  | None => (st1, false)
  | Some _ => (set_data (delete key) st1, true)
  end.

(** ** Lists: a [std::deque], front first *)
Definition push_if_valid_type (push : bytes -> list bytes -> list bytes)
    (now : Z) (key v : bytes) (st : Store) : Store * option Z :=
  let create st0 :=
    let lst := push v [] in
    (set_data (map_emplace key (mkEntry (VList lst) None)) (touch_key key st0), Some (zlen lst)) in
  match data_ st !! key with
  | Some e =>
      if negb (is_expired now e) then
        match alt_get_if (T := list bytes) (value e) with
        | None => (st, None)
        | Some lst =>
            let lst' := push v lst in
            (put_value key (VList lst') (expiry e) (touch_key key st), Some (zlen lst'))
        end
      else create (set_data (delete key) st)
  | None => create st
  end.
Definition push_back (v : bytes) (l : list bytes) : list bytes := l ++ [v].
Definition push_front (v : bytes) (l : list bytes) : list bytes := v :: l.
Definition rpush_if_valid_type := push_if_valid_type push_back.
Definition lpush_if_valid_type := push_if_valid_type push_front.

Definition push (p : bytes -> list bytes -> list bytes) (now : Z) (key v : bytes) (st : Store)
  : Store * Z :=
  let '(st', (lst, exp)) := get_or_create_typed (list bytes) now key (touch_key key st) in
  (put_value key (VList (p v lst)) exp st', zlen (p v lst)).
Definition rpush := push push_back.
Definition lpush := push push_front.

Definition llen (now : Z) (key : bytes) (st : Store) : Store * Z :=
  match get_typed (list bytes) now key st with
  | (st', Some l) => (st', zlen l)
  | (st', None) => (st', 0)
  end.

(** The entry behind a list pointer, with the list it holds. *)
Definition list_entry (now : Z) (key : bytes) (st : Store)
  : Store * option (list bytes * option Z) :=
  match find_valid_entry now key st with
  | (st', None) => (st', None)
  | (st', Some e) => (st', (fun l => (l, expiry e)) <$> alt_get_if (value e))
  end.

(** The element taken at one end of a deque and what is left of it. *)
Definition pop_front (l : list bytes) : option (bytes * list bytes) :=
  match l with [] => None | x :: l' => Some (x, l') end.
Definition pop_back (l : list bytes) : option (bytes * list bytes) :=
  match rev l with [] => None | x :: l' => Some (x, rev l') end.

Definition pop (take1 : list bytes -> option (bytes * list bytes))
    (now : Z) (key : bytes) (st : Store) : Store * option bytes :=
  match list_entry now key (touch_key key st) with
  | (st', None) => (st', None)
  | (st', Some (l, exp)) =>
      match take1 l with
      | None => (st', None)
      | Some (x, l') => (put_value key (VList l') exp st', Some x)
      end
  end.
Definition lpop := pop pop_front.
Definition rpop := pop pop_back.

Fixpoint pop_loop (take1 : list bytes -> option (bytes * list bytes))
    (n : nat) (l result : list bytes) : list bytes * list bytes :=
  match n with
  | O => (l, result)
  | S n' =>
      match take1 l with
      | None => (l, result)
      | Some (x, l') => pop_loop take1 n' l' (result ++ [x])
      end
  end.

Definition pop_n (take1 : list bytes -> option (bytes * list bytes))
    (now : Z) (key : bytes) (count : Z) (st : Store) : Store * list bytes :=
  match list_entry now key (touch_key key st) with
  | (st', None) => (st', [])
  | (st', Some (l, exp)) =>
      match l with
      | [] => (st', [])
      | _ =>
          if count <=? 0 then (st', [])
          else
            let actual_count := Z.min count (zlen l) in
            let '(l', result) := pop_loop take1 (Z.to_nat actual_count) l [] in
            (put_value key (VList l') exp st', result)
      end
  end.
Definition lpop_n := pop_n pop_front.
Definition rpop_n := pop_n pop_back.

(** The index arithmetic LRANGE and ZRANGE share: [None] for the early return,
    else the first and the last index. *)
Definition range_bounds (len start stop : Z) : option (Z * Z) :=
  let start := if start <? 0 then len + start else start in
  let stop := if stop <? 0 then len + stop else stop in
  let start := if start <? 0 then 0 else start in
  let stop := if stop <? 0 then 0 else stop in
  if (len <=? start) || (stop <? start) then None
  else Some (start, if len <=? stop then len - 1 else stop).

(** [for (i = start; i <= stop; ++i) result.push_back(list[i])] *)
Definition index_loop {A} (l : list A) (start stop : Z) : list A :=
  omap (fun i => l !! i) (seq (Z.to_nat start) (Z.to_nat (stop - start + 1))).

Definition lrange (now : Z) (key : bytes) (start stop : Z) (st : Store) : Store * list bytes :=
  match get_typed (list bytes) now key st with
  | (st', None) => (st', [])
  | (st', Some l) =>
      match range_bounds (zlen l) start stop with
      | None => (st', [])
      | Some (a, b) => (st', index_loop l a b)
      end
  end.

Definition get_type (now : Z) (key : bytes) (st : Store) : Store * bytes :=
  match find_valid_entry now key st with
  | (st', None) => (st', bs "none")
  | (st', Some e) =>
      (st', match value e with
            | VString _ => bs "string"
            | VList _ => bs "list"
            | VStream _ => bs "stream"
            | VZset _ => bs "zset"
            end)
  end.

(** ** Streams *)
Definition err_invalid_id : bytes := bs "ERR Invalid stream ID specified".
Definition err_zero_id : bytes := bs "ERR The ID specified in XADD must be greater than 0-0".
Definition err_small_id : bytes :=
  bs "ERR The ID specified in XADD is equal or smaller than the target stream top item".

(** The identifier a request asks for: [inl] is the error text, [inr] the
    timestamp, the sequence and the text stored with the entry. *)
Definition xadd_choose_id (sys_ms : Z) (id : bytes) (stream : list StreamEntry)
  : outcome (bytes + (Z * Z * bytes)) :=
  let back := last stream in
  let auto_full_id := bool_decide (id = bs "*") in
  let auto_seq :=
    negb auto_full_id && (2 <=? length id)%nat
      && bool_decide (id !! (length id - 2)%nat = Some "-"%char)
      && bool_decide (id !! (length id - 1)%nat = Some "*"%char) in
  if auto_full_id then
    sequence ←
      match back with
      | None => Ret 0
      | Some l =>
          if timestamp (parsed_id l) =? sys_ms
          then int64_of (sequence (parsed_id l) + 1) else Ret 0
      end;
    Ret (inr (sys_ms, sequence, sid_to_string (mkStreamId sys_ms sequence)))
  else if auto_seq then
    match find_char "-"%char id with
    | None => Ret (inl err_invalid_id)
    | Some dash_pos =>
        match parse_int64 (take dash_pos id) with
        | None => Ret (inl err_invalid_id)
        | Some ts =>
            sequence ←
              match back with
              | None => Ret (if ts =? 0 then 1 else 0)
              | Some l =>
                  if timestamp (parsed_id l) =? ts
                  then int64_of (sequence (parsed_id l) + 1)
                  else Ret (if ts =? 0 then 1 else 0)
              end;
            Ret (inr (ts, sequence, sid_to_string (mkStreamId ts sequence)))
        end
    end
  else
    match sid_parse id with
    | None => Ret (inl err_invalid_id)
    | Some sid => Ret (inr (timestamp sid, sequence sid, id))
    end.

Definition xadd (now sys_ms : Z) (key id : bytes) (flds : list (bytes * bytes)) (st : Store)
  : outcome (Store * bytes) :=
  let '(st', (stream, exp)) :=
    get_or_create_typed (list StreamEntry) now key (touch_key key st) in
  choice ← xadd_choose_id sys_ms id stream;
  match choice with
  | inl err => Ret (st', err)
  | inr (ts, seq, final_id) =>
      if (ts =? 0) && (seq =? 0) then Ret (st', err_zero_id)
      else
        let too_small :=
          match last stream with
          | Some l => negb (sid_ltb (parsed_id l) (mkStreamId ts seq))
          | None => false
          end in
        if too_small then Ret (st', err_small_id)
        else
          Ret (put_value key
                 (VStream (stream ++ [mkStreamEntry final_id (mkStreamId ts seq) flds])) exp st',
               final_id)
  end.

Definition xadd_if_valid_type (now sys_ms : Z) (key id : bytes) (flds : list (bytes * bytes))
    (st : Store) : outcome (Store * option bytes) :=
  let wrong_type :=
    match data_ st !! key with
    | Some e => negb (is_expired now e) && negb (holds_alternative (list StreamEntry) (value e))
    | None => false
    end in
  if wrong_type then Ret (st, None)
  else '(st', r) ← xadd now sys_ms key id flds st; Ret (st', Some r).

Definition has_dash (s : bytes) : bool :=
  match find_char "-"%char s with Some _ => true | None => false end.

Definition xrange_start (start : bytes) : StreamId :=
  if bool_decide (start = bs "-") then mkStreamId 0 0
  else if negb (has_dash start) then mkStreamId (default 0 (parse_int64 start)) 0
  else default (mkStreamId INT64_MAX INT64_MAX) (sid_parse start).
Definition xrange_end (end_ : bytes) : StreamId :=
  if bool_decide (end_ = bs "+") then mkStreamId INT64_MAX INT64_MAX
  else if negb (has_dash end_) then mkStreamId (default 0 (parse_int64 end_)) INT64_MAX
  else default (mkStreamId (-1) (-1)) (sid_parse end_).

Definition xrange (now : Z) (key start end_ : bytes) (st : Store) : Store * list StreamEntry :=
  match get_typed (list StreamEntry) now key st with
  | (st', None) => (st', [])
  | (st', Some stream) =>
      if (length stream =? 0)%nat then (st', [])
      else
        let lo := lower_bound stream (xrange_start start) in
        let hi := upper_bound stream (xrange_end end_) in
        if (hi <=? lo)%nat then (st', []) else (st', take (hi - lo) (drop lo stream))
  end.

Definition xread_threshold (id : bytes) : StreamId :=
  if negb (has_dash id) then mkStreamId (default 0 (parse_int64 id)) 0
  else default (mkStreamId INT64_MAX INT64_MAX) (sid_parse id).

Definition xread (now : Z) (key id : bytes) (st : Store) : Store * list StreamEntry :=
  match get_typed (list StreamEntry) now key st with
  | (st', None) => (st', [])
  | (st', Some stream) =>
      if (length stream =? 0)%nat then (st', [])
      else
        let lo := upper_bound stream (xread_threshold id) in
        if (length stream <=? lo)%nat then (st', [])
        else (st', take (length stream - lo) (drop lo stream))
  end.

Definition get_stream_max_id (now : Z) (key : bytes) (st : Store) : Store * option bytes :=
  match get_typed (list StreamEntry) now key st with
  | (st', None) => (st', None)
  | (st', Some stream) => (st', se_id <$> last stream)
  end.

(** ** Sorted sets *)
Definition zadd (now : Z) (key : bytes) (score : double) (member : bytes) (st : Store)
  : Store * Z :=
  let '(st', (z, exp)) := get_or_create_typed SortedSet now key (touch_key key st) in
  let '(z', r) := zset_add score member z in
  (put_value key (VZset z') exp st', r).

Definition zadd_if_valid_type (now : Z) (key : bytes) (score : double) (member : bytes)
    (st : Store) : Store * option Z :=
  let create st0 :=
    let '(z, r) := zset_add score member empty_zset in
    (set_data (map_emplace key (mkEntry (VZset z) None)) (touch_key key st0), Some r) in
  match data_ st !! key with
  | Some e =>
      if negb (is_expired now e) then
        match alt_get_if (T := SortedSet) (value e) with
        | None => (st, None)
        | Some z =>
            let '(z', r) := zset_add score member z in
            (put_value key (VZset z') (expiry e) (touch_key key st), Some r)
        end
      else create (set_data (delete key) st)
  | None => create st
  end.

(** [std::distance(begin, it)] *)
Fixpoint distance_to (x : zelem) (l : list zelem) : Z :=
  match l with
  | [] => 0
  | y :: l' => if decide (x = y) then 0 else 1 + distance_to x l'
  end.

Definition zrank (now : Z) (key member : bytes) (st : Store) : Store * option Z :=
  match get_typed SortedSet now key st with
  | (st', None) => (st', None)
  | (st', Some z) =>
      (st', (fun it => distance_to it (entries z)) <$> member_scores z !! member)
  end.

Definition zrange (now : Z) (key : bytes) (start stop : Z) (st : Store) : Store * list bytes :=
  match get_typed SortedSet now key st with
  | (st', None) => (st', [])
  | (st', Some z) =>
      match range_bounds (zlen (entries z)) start stop with
      | None => (st', [])
      | Some (a, b) => (st', snd <$> take (Z.to_nat (b + 1 - a)) (drop (Z.to_nat a) (entries z)))
      end
  end.

Definition zcard (now : Z) (key : bytes) (st : Store) : Store * Z :=
  match get_typed SortedSet now key st with
  | (st', Some z) => (st', Z.of_nat (size (member_scores z)))
  | (st', None) => (st', 0)
  end.

Definition zscore (now : Z) (key member : bytes) (st : Store) : Store * option double :=
  match get_typed SortedSet now key st with
  | (st', None) => (st', None)
  | (st', Some z) => (st', fst <$> member_scores z !! member)
  end.

Definition zrem (now : Z) (key member : bytes) (st : Store) : Store * Z :=
  match find_valid_entry now key (touch_key key st) with
  | (st', None) => (st', 0)
  | (st', Some e) =>
      match alt_get_if (value e) with
      | None => (st', 0)
      | Some z =>
          let '(z', r) := zset_remove member z in
          (put_value key (VZset z') (expiry e) st', r)
      end
  end.

Definition zgetall (now : Z) (key : bytes) (st : Store) : Store * list (bytes * double) :=
  match get_typed SortedSet now key st with
  | (st', None) => (st', [])
  | (st', Some z) => (st', (fun e => (e.2, e.1)) <$> entries z)
  end.

(** ** The whole keyspace *)
Definition keys (now : Z) (st : Store) : Store * list bytes :=
  let live := filter (fun ke => is_expired now ke.2 = false) (data_ st) in
  (mkStore live (version_counter_ st) (key_versions_ st), (map_to_list live).*1).

Definition key_is_absent_or_holds (T : Type) `{Alternative T} (now : Z) (key : bytes) (st : Store)
  : bool :=
  match data_ st !! key with
  | None => true
  | Some e =>
      match expiry e with
      | Some t => if t <? now then true else holds_alternative T (value e)
      | None => holds_alternative T (value e)
      end
  end.

Definition get_key_version (key : bytes) (st : Store) : Z := default 0 (key_versions_ st !! key).

Definition for_each_valid_entry (now : bytes -> Z) (st : Store) : list (bytes * Entry) :=
  filter (fun ke => match expiry ke.2 with Some t => now ke.1 <? t | None => true end = true)
    (map_to_list (data_ st)).
