(* ===== verification/StoreSteps.v ===== *)
(** * StoreSteps: invariants of every store operation

    The public operations of [Store] as one step function, the well-formedness
    invariant of the keyspace they preserve, and the contract of the version
    counters that makes WATCH sound. *)
From S2P Require Import Prelude Text StreamIds RespCodec Scores SortedSets Store.

Open Scope Z_scope.

(** ** One step per public operation *)
Inductive store_op :=
| OpSet (k v : bytes) (ttl : option Z)
| OpSetIfValid (k v : bytes) (ttl : option Z)
| OpIncrIfValid (k : bytes)
| OpRpushIfValid (k v : bytes)
| OpLpushIfValid (k v : bytes)
| OpZaddIfValid (k : bytes) (score : double) (m : bytes)
| OpXaddIfValid (k id : bytes) (f : list (bytes * bytes))
| OpGet (k : bytes)
| OpIncr (k : bytes)
| OpExists (k : bytes)
| OpDel (k : bytes)
| OpRpush (k v : bytes)
| OpLpush (k v : bytes)
| OpLlen (k : bytes)
| OpLpop (k : bytes)
| OpLpopN (k : bytes) (n : Z)
| OpRpop (k : bytes)
| OpRpopN (k : bytes) (n : Z)
| OpLrange (k : bytes) (a b : Z)
| OpType (k : bytes)
| OpXadd (k id : bytes) (f : list (bytes * bytes))
| OpXrange (k a b : bytes)
| OpXread (k id : bytes)
| OpMaxId (k : bytes)
| OpZadd (k : bytes) (score : double) (m : bytes)
| OpZrank (k m : bytes)
| OpZrange (k : bytes) (a b : Z)
| OpZcard (k : bytes)
| OpZscore (k m : bytes)
| OpZrem (k m : bytes)
| OpZgetall (k : bytes)
| OpKeys.

Definition run_op (now sys_ms : Z) (op : store_op) (st : Store) : outcome Store :=
  match op with
  | OpSet k v ttl => set now k v ttl st
  | OpSetIfValid k v ttl => fst <$> set_if_valid_type now k v ttl st
  | OpIncrIfValid k => Ret (incr_if_valid_type now k st).1
  | OpRpushIfValid k v => Ret (rpush_if_valid_type now k v st).1
  | OpLpushIfValid k v => Ret (lpush_if_valid_type now k v st).1
  | OpZaddIfValid k s m => Ret (zadd_if_valid_type now k s m st).1
  | OpXaddIfValid k id f => fst <$> xadd_if_valid_type now sys_ms k id f st
  | OpGet k => Ret (get now k st).1
  | OpIncr k => Ret (incr now k st).1
  | OpExists k => Ret (exists_ now k st).1
  | OpDel k => Ret (del k st).1
  | OpRpush k v => Ret (rpush now k v st).1
  | OpLpush k v => Ret (lpush now k v st).1
  | OpLlen k => Ret (llen now k st).1
  | OpLpop k => Ret (lpop now k st).1
  | OpLpopN k n => Ret (lpop_n now k n st).1
  | OpRpop k => Ret (rpop now k st).1
  | OpRpopN k n => Ret (rpop_n now k n st).1
  | OpLrange k a b => Ret (lrange now k a b st).1
  | OpType k => Ret (get_type now k st).1
  | OpXadd k id f => fst <$> xadd now sys_ms k id f st
  | OpXrange k a b => Ret (xrange now k a b st).1
  | OpXread k id => Ret (xread now k id st).1
  | OpMaxId k => Ret (get_stream_max_id now k st).1
  | OpZadd k s m => Ret (zadd now k s m st).1
  | OpZrank k m => Ret (zrank now k m st).1
  | OpZrange k a b => Ret (zrange now k a b st).1
  | OpZcard k => Ret (zcard now k st).1
  | OpZscore k m => Ret (zscore now k m st).1
  | OpZrem k m => Ret (zrem now k m st).1
  | OpZgetall k => Ret (zgetall now k st).1
  | OpKeys => Ret (keys now st).1
  end.

(** ** Well-formed keyspaces *)
Record stream_wf (s : list StreamEntry) : Prop := {
  swf_sorted : StronglySorted sid_lt (parsed_id <$> s);
  swf_ids : Forall (fun e => sid_parse (se_id e) = Some (parsed_id e)) s
}.

Definition val_wf (v : Val) : Prop :=
  match v with
  | VStream s => stream_wf s
  | VZset z => zset_wf z
  | _ => True
  end.

Definition data_wf (d : gmap bytes Entry) : Prop := map_Forall (fun _ e => val_wf (value e)) d.

(** The scores a caller passes are numbers. *)
Definition op_nonan (op : store_op) : Prop :=
  match op with
  | OpZadd _ s _ | OpZaddIfValid _ s _ => is_nan s = false
  | _ => True
  end.

(** ** The version contract *)

(** What a client can see of a key at time [t]. *)
Definition live (t : Z) (k : bytes) (st : Store) : option Entry :=
  match data_ st !! k with
  | Some e => if is_expired t e then None else Some e
  | None => None
  end.

Definition versions_wf (st : Store) : Prop :=
  0 <= version_counter_ st <= UINT64_MAX
  /\ map_Forall (fun _ v => 0 < v <= version_counter_ st) (key_versions_ st).

(** Each key keeps its version and what can be seen of it from [now] on, or gets
    a version never used before. *)
Definition tracked (now : Z) (st st' : Store) : Prop :=
  version_counter_ st <= version_counter_ st' <= version_counter_ st + 1
  /\ forall k,
       (get_key_version k st' = get_key_version k st
        /\ forall t, now <= t -> live t k st' = live t k st)
       \/ version_counter_ st < get_key_version k st'.

(** * Lemmas *)

(** What an operation does to the store, whatever its reply: nothing, dropping
    expired entries, or touching one key and changing only that key. *)
Inductive effect (now : Z) (st : Store) : Store -> Prop :=
| eff_none : effect now st st
| eff_expire k : effect now st (find_valid_entry now k st).1
| eff_keys : effect now st (keys now st).1
| eff_touch k st' :
    version_counter_ st' = u64 (version_counter_ st + 1) ->
    key_versions_ st' = <[k := u64 (version_counter_ st + 1)]> (key_versions_ st) ->
    (forall j, j <> k -> data_ st' !! j = data_ st !! j) ->
    effect now st st'.

Lemma find_valid_touch now k st :
  exists d, (find_valid_entry now k (touch_key k st)).1 = set_data d (touch_key k st)
    /\ forall j m, j <> k -> d m !! j = m !! j.
Proof.
  unfold find_valid_entry. simpl. destruct (data_ st !! k) as [e|].
  - destruct (is_expired now e).
    + exists (delete k). split; [done|]. intros. by rewrite lookup_delete_ne.
    + exists id. by destruct st.
  - exists id. by destruct st.
Qed.

Ltac touch_only k :=
  apply (eff_touch _ _ k); [reflexivity|reflexivity|];
  intros j Hj; simpl; unfold map_emplace; simpl;
  repeat case_match; rewrite ?lookup_insert_ne, ?lookup_delete_ne by done; done.

Lemma effect_get_typed T `{Alternative T} now k st : effect now st (get_typed T now k st).1.
Proof.
  unfold get_typed. pose proof (eff_expire now st k) as Hx.
  by destruct (find_valid_entry now k st) as [st' [e|]].
Qed.

(** After [touch_key k], a lookup of [k] and a write to [k]. *)
Lemma effect_touch_find now k st :
  effect now st (find_valid_entry now k (touch_key k st)).1
  /\ forall v, effect now st (set_data <[k := v]> (find_valid_entry now k (touch_key k st)).1).
Proof.
  destruct (find_valid_touch now k st) as (d & -> & Hd).
  split; intros; apply (eff_touch _ _ k); try reflexivity; intros j Hj; simpl;
    rewrite ?lookup_insert_ne by done; by apply Hd.
Qed.

Lemma effect_get_or_create T `{Alternative T} now k st :
  effect now st (get_or_create_typed T now k (touch_key k st)).1
  /\ forall v x, effect now st (put_value k v x (get_or_create_typed T now k (touch_key k st)).1).
Proof.
  unfold get_or_create_typed. destruct (effect_touch_find now k st) as [H1 H2].
  destruct (find_valid_touch now k st) as (d & Hst & Hd).
  destruct (find_valid_entry now k (touch_key k st)) as [st' [e|]]; simpl in *; subst.
  1: destruct (alt_get_if (T := T) (value e)); [by split; intros; [|apply H2]|].
  all: split; simpl; [apply H2|]; intros v x; apply (eff_touch _ _ k); try reflexivity;
    intros j Hj; simpl; rewrite !lookup_insert_ne by done; by apply Hd.
Qed.

Lemma effect_push_if_valid p now k v st : effect now st (push_if_valid_type p now k v st).1.
Proof.
  unfold push_if_valid_type. destruct (data_ st !! k) as [e|]; [|touch_only k].
  destruct (is_expired now e); simpl; [touch_only k|].
  destruct (alt_get_if (T := list bytes) (value e)); [touch_only k|apply eff_none].
Qed.

Lemma effect_push p now k v st : effect now st (push p now k v st).1.
Proof.
  unfold push. destruct (effect_get_or_create (list bytes) now k st) as [_ H].
  destruct (get_or_create_typed _ now k _) as [st' [l x]]. simpl. apply H.
Qed.

Lemma effect_list_entry now k st :
  effect now st (list_entry now k (touch_key k st)).1
  /\ forall v, effect now st (set_data <[k := v]> (list_entry now k (touch_key k st)).1).
Proof.
  unfold list_entry. pose proof (effect_touch_find now k st) as H.
  by destruct (find_valid_entry now k _) as [st' [e|]].
Qed.

Lemma effect_pop t now k st : effect now st (pop t now k st).1.
Proof.
  unfold pop. destruct (effect_list_entry now k st) as [H1 H2].
  destruct (list_entry now k _) as [st' [[l x]|]]; simpl in *; [|done].
  destruct (t l) as [[y l']|]; [apply H2|done].
Qed.

Lemma effect_pop_n t now k n st : effect now st (pop_n t now k n st).1.
Proof.
  unfold pop_n. destruct (effect_list_entry now k st) as [H1 H2].
  destruct (list_entry now k _) as [st' [[[|y l] x]|]]; simpl in *; [done| |done].
  destruct (n <=? 0); [done|]. destruct (pop_loop _ _ _ _). apply H2.
Qed.

Lemma effect_xadd now sys k id f st st' r :
  xadd now sys k id f st = Ret (st', r) -> effect now st st'.
Proof.
  unfold xadd. destruct (effect_get_or_create (list StreamEntry) now k st) as [H1 H2].
  destruct (get_or_create_typed _ now k _) as [st1 [stream x]]. simpl in *. intros H.
  destruct (xadd_choose_id sys id stream) as [[err|[[ts seq] fid]]| |]; simpl in H; simplify_eq; [done|].
  repeat case_match; simplify_eq; first [done|apply H2].
Qed.

Lemma effect_set_if_valid now k v ttl st st' b :
  set_if_valid_type now k v ttl st = Ret (st', b) -> effect now st st'.
Proof.
  unfold set_if_valid_type. intros H.
  destruct (expiry_opt now ttl) as [x|exc|u]; destruct (data_ st !! k) as [e|];
    try destruct (is_expired now e); try destruct (holds_alternative bytes (value e));
    simpl in H; simplify_eq; first [touch_only k|apply eff_none].
Qed.

Lemma effect_incr_if_valid now k st : effect now st (incr_if_valid_type now k st).1.
Proof.
  unfold incr_if_valid_type. destruct (data_ st !! k) as [e|]; [|touch_only k].
  destruct (is_expired now e); simpl; [touch_only k|].
  destruct (alt_get_if (T := bytes) (value e)) as [s|]; simpl; [|apply eff_none].
  destruct (parse_int64 s) as [n|]; simpl; [destruct (n =? INT64_MAX)|]; touch_only k.
Qed.

Lemma effect_zadd_if_valid now k s m st : effect now st (zadd_if_valid_type now k s m st).1.
Proof.
  unfold zadd_if_valid_type. destruct (zset_add s m empty_zset) as [z0 r0].
  destruct (data_ st !! k) as [e|]; [|touch_only k].
  destruct (is_expired now e); simpl; [touch_only k|].
  destruct (alt_get_if (T := SortedSet) (value e)) as [z|]; simpl; [|apply eff_none].
  destruct (zset_add s m z) as [z' r]. touch_only k.
Qed.

Lemma effect_incr now k st : effect now st (incr now k st).1.
Proof.
  unfold incr. destruct (effect_touch_find now k st) as [H1 H2].
  destruct (find_valid_entry now k _) as [st' [e|]]; simpl in *; [|apply H2].
  destruct (alt_get_if (T := bytes) (value e)) as [s|]; simpl; [|done].
  destruct (parse_int64 s) as [n|]; simpl; [|done].
  destruct (n =? INT64_MAX); [done|apply H2].
Qed.

Lemma effect_zrem now k m st : effect now st (zrem now k m st).1.
Proof.
  unfold zrem. destruct (effect_touch_find now k st) as [H1 H2].
  destruct (find_valid_entry now k _) as [st' [e|]]; simpl in *; [|done].
  destruct (alt_get_if (T := SortedSet) (value e)) as [z|]; simpl; [|done].
  destruct (zset_remove m z). apply H2.
Qed.

Lemma effect_zadd now k s m st : effect now st (zadd now k s m st).1.
Proof.
  unfold zadd. destruct (effect_get_or_create SortedSet now k st) as [_ H].
  destruct (get_or_create_typed _ now k _) as [st' [z x]]. simpl.
  destruct (zset_add s m z). apply H.
Qed.

Lemma effect_del now k st : effect now st (del k st).1.
Proof. unfold del. simpl. destruct (data_ st !! k); touch_only k. Qed.

(** Reads: an expired entry is dropped, nothing else happens. *)
Ltac effect_read :=
  match goal with
  | |- effect ?now ?st ?s =>
      match s with
      | context [get_typed ?T ?n ?k ?st] =>
          pose proof (effect_get_typed T n k st) as Hg;
          destruct (get_typed T n k st) as [? [?|]]; simpl in *; repeat case_match; by simplify_eq/=
      | context [find_valid_entry ?n ?k ?st] =>
          pose proof (eff_expire n st k) as Hg;
          destruct (find_valid_entry n k st) as [? [?|]]; simpl in *; repeat case_match; by simplify_eq/=
      end
  end.

#[export] Hint Resolve effect_push_if_valid effect_push effect_pop effect_pop_n
  effect_incr_if_valid effect_zadd_if_valid effect_incr effect_zrem effect_zadd effect_del
  eff_keys : credis.

Lemma run_op_effect now sys op st st' : run_op now sys op st = Ret st' -> effect now st st'.
Proof.
  destruct op; simpl; intros H; simplify_eq;
    try (first [apply effect_push_if_valid|apply effect_push|apply effect_pop|apply effect_pop_n]);
    try (eauto with credis; fail);
    try (unfold get, exists_, llen, lrange, get_type, xrange, xread, get_stream_max_id,
           zrank, zrange, zcard, zscore, zgetall; effect_read).
  - unfold set in H. destruct (expiry_opt now ttl); simpl in H; simplify_eq. touch_only k.
  - destruct (set_if_valid_type _ _ _ _ _) as [[? ?]| |] eqn:E; simpl in H; simplify_eq.
    by eapply effect_set_if_valid.
  - unfold xadd_if_valid_type in H. case_match; simpl in H; simplify_eq; [apply eff_none|].
    destruct (xadd _ _ _ _ _ _) as [[? ?]| |] eqn:E; simpl in H; simplify_eq.
    by eapply effect_xadd.
  - destruct (xadd _ _ _ _ _ _) as [[? ?]| |] eqn:E; simpl in H; simplify_eq.
    by eapply effect_xadd.
Qed.

(** ** Versions *)
Lemma get_key_version_le st k :
  versions_wf st -> get_key_version k st <= version_counter_ st.
Proof.
  intros [Hc Hv]. unfold get_key_version. destruct (key_versions_ st !! k) as [v|] eqn:E; simpl.
  - apply Hv in E. lia.
  - lia.
Qed.

Lemma live_find_valid now t k j st :
  now <= t -> live t j (find_valid_entry now k st).1 = live t j st.
Proof.
  intros Ht. unfold find_valid_entry, live. destruct (data_ st !! k) as [e|] eqn:E; [|done].
  destruct (is_expired now e) eqn:Ex; [|done]. simpl. rewrite lookup_delete.
  case_decide; [subst j|done]. rewrite E.
  unfold is_expired in *. destruct (expiry e); [|done]. b2p.
  by rewrite (proj2 (Z.leb_le _ _)) by lia.
Qed.

Lemma live_keys now t j st : now <= t -> live t j (keys now st).1 = live t j st.
Proof.
  intros Ht. unfold keys, live; simpl. rewrite map_lookup_filter.
  destruct (data_ st !! j) as [e|] eqn:E; simpl; [|done].
  case_guard as G; simpl; [done|]. apply not_false_iff_true in G.
  unfold is_expired in *. destruct (expiry e); [|done]. b2p.
  by rewrite (proj2 (Z.leb_le _ _)) by lia.
Qed.

Lemma find_valid_versions now k st :
  version_counter_ (find_valid_entry now k st).1 = version_counter_ st
  /\ key_versions_ (find_valid_entry now k st).1 = key_versions_ st.
Proof. unfold find_valid_entry. by repeat case_match. Qed.

Lemma effect_tracked now st st' :
  versions_wf st -> version_counter_ st < UINT64_MAX -> effect now st st' ->
  tracked now st st' /\ versions_wf st'.
Proof.
  intros Hwf Hmax Heff. pose proof Hwf as [Hc Hv].
  destruct Heff as [|k| |k st' Hvc Hkv Hd].
  - split; [|done]. split; [lia|]. by left.
  - destruct (find_valid_versions now k st) as [E1 E2]. unfold tracked, versions_wf, get_key_version.
    rewrite E1, E2. split; [|done]. split; [lia|]. left. split; [done|].
    intros. by apply live_find_valid.
  - split; [|done]. split; [simpl; lia|]. left. split; [done|]. intros. by apply live_keys.
  - rewrite u64_small in * by lia. unfold tracked, versions_wf, get_key_version, live.
    rewrite Hvc, Hkv. split; [split; [lia|]|split; [lia|]].
    + intros j. rewrite lookup_insert. case_decide as E; simpl; [right; lia|left].
      split; [done|]. intros t _. by rewrite Hd by congruence.
    + apply map_Forall_insert_2; [lia|]. eapply map_Forall_impl; [exact Hv|].
      intros; simpl in *; lia.
Qed.

(** A trace of operations, each with its clock readings. *)
Fixpoint run_ops (tr : list (Z * Z * store_op)) (st : Store) : outcome Store :=
  match tr with
  | [] => Ret st
  | (now, sys, op) :: tr' => st' ← run_op now sys op st; run_ops tr' st'
  end.

Lemma run_ops_tracked T k : forall tr st st',
  versions_wf st -> version_counter_ st + zlen tr <= UINT64_MAX ->
  Forall (fun x => x.1.1 <= T) tr ->
  run_ops tr st = Ret st' ->
  versions_wf st'
  /\ get_key_version k st <= get_key_version k st'
  /\ (get_key_version k st' = get_key_version k st ->
      forall t, T <= t -> live t k st' = live t k st).
Proof.
  induction tr as [|[[now sys] op] tr IH]; intros st st' Hwf Hc Ht Hr; simpl in Hr.
  - simplify_eq. split_and!; [done|lia|done].
  - inversion_clear Ht as [|? ? Hnow Ht']. simpl in Hnow.
    destruct (run_op now sys op st) as [st1| |] eqn:E; simpl in Hr; [|done..].
    unfold zlen in *. simpl length in Hc.
    apply run_op_effect, effect_tracked in E as [[Hc1 Hk] Hwf1]; [|done|lia].
    destruct (IH st1 st' Hwf1 ltac:(lia) Ht' Hr) as (Hwf' & Hle & Hlive).
    pose proof (get_key_version_le st k Hwf). destruct (Hk k) as [[Ev El]|Hnew].
    + split_and!; [done|lia|]. intros Heq t HT. rewrite Hlive by (lia || done). apply El. lia.
    + split_and!; [done|lia|]. intros Heq. lia.
Qed.

(** ** Well-formedness *)
Lemma data_wf_delete k d : data_wf d -> data_wf (delete k d).
Proof. intros. by apply map_Forall_delete. Qed.

Lemma data_wf_insert k v x d : val_wf v -> data_wf d -> data_wf (<[k := mkEntry v x]> d).
Proof. intros. by apply map_Forall_insert_2. Qed.

Lemma data_wf_emplace k v x d : val_wf v -> data_wf d -> data_wf (map_emplace k (mkEntry v x) d).
Proof. intros. unfold map_emplace. case_match; [done|by apply data_wf_insert]. Qed.

Lemma data_wf_lookup k e d : data_wf d -> d !! k = Some e -> val_wf (value e).
Proof. intros H E. by apply (H k). Qed.

#[export] Hint Resolve data_wf_delete data_wf_insert data_wf_emplace : credis.

Lemma find_valid_wf now k st st' oe :
  data_wf (data_ st) -> find_valid_entry now k st = (st', oe) ->
  data_wf (data_ st') /\ forall e, oe = Some e -> val_wf (value e).
Proof.
  intros Hwf H. unfold find_valid_entry in H.
  destruct (data_ st !! k) as [e|] eqn:E; [destruct (is_expired now e)|]; simplify_eq; simpl.
  - split; [by apply data_wf_delete|done].
  - split; [done|]. intros ? [= <-]. by eapply data_wf_lookup.
  - split; done.
Qed.

Lemma alt_get_wf T `{Alternative T} (x : T) v :
  val_wf v -> alt_get_if v = Some x -> val_wf (alt_inj x).
Proof. intros Hv E%alt_inj_get. by subst. Qed.

Lemma get_or_create_wf T `{Alternative T} now k st st' x exp :
  val_wf (alt_inj (alt_default (T := T))) -> data_wf (data_ st) ->
  get_or_create_typed T now k st = (st', (x, exp)) ->
  data_wf (data_ st') /\ val_wf (alt_inj x).
Proof.
  intros Hd Hwf Hg. unfold get_or_create_typed in Hg.
  destruct (find_valid_entry now k st) as [st1 oe] eqn:E.
  apply find_valid_wf in E as [Hwf1 He]; [|done].
  destruct oe as [e|]; [destruct (alt_get_if (T := T) (value e)) as [y|] eqn:Ey|]; simplify_eq; simpl.
  - split; [done|]. by eapply alt_get_wf; [apply He|].
  - split; [by apply data_wf_insert|done].
  - split; [by apply data_wf_insert|done].
Qed.

Lemma stream_wf_nil : stream_wf [].
Proof. split; constructor. Qed.

Lemma stream_wf_snoc s e :
  stream_wf s -> sid_parse (se_id e) = Some (parsed_id e) ->
  (forall l, last s = Some l -> sid_lt (parsed_id l) (parsed_id e)) ->
  stream_wf (s ++ [e]).
Proof.
  intros [Hs Hi] He Hl. split.
  2: { apply Forall_app. split; [done|by constructor]. }
  rewrite fmap_app. clear Hi. induction s as [|x s IH]; simpl in *; [by repeat constructor|].
  apply StronglySorted_inv in Hs as [Hs Hx]. constructor.
  - apply IH; [done|]. intros l El. apply Hl. destruct s; [done|]. by rewrite last_cons_cons.
  - apply Forall_app. split; [done|]. constructor; [|constructor].
    destruct (last s) as [l|] eqn:El.
    + transitivity (parsed_id l).
      * rewrite Forall_forall in Hx. apply Hx, list_elem_of_fmap.
        exists l. split; [done|]. by apply last_Some_elem_of.
      * apply Hl. destruct s; [done|]. by rewrite last_cons_cons.
    + apply last_None in El. subst. simpl in *. by apply Hl.
Qed.

Lemma span_digits_Forall s : Forall (fun c => is_digit c = true) (span_digits s).1.
Proof.
  induction s as [|c s IH]; simpl; [constructor|]. destruct (is_digit c) eqn:E; [|constructor].
  destruct (span_digits s) as [ds r]. by constructor.
Qed.

Lemma parse_int_nonneg lo hi s v : "-"%char ∉ s -> parse_int true lo hi s = Some v -> 0 <= v.
Proof.
  intros Hn H. unfold parse_int, from_chars in H. destruct s as [|c s]; [done|].
  apply not_elem_of_cons in Hn as [Hc _]. rewrite bool_decide_false in H by congruence.
  simpl andb in H. pose proof (span_digits_Forall (c :: s)) as Hd.
  repeat case_hyp H; simplify_eq; try done.
  by apply dec_value_nonneg in Hd.
Qed.

(** The text stored with a new entry is one that parses to its identifier. *)
Lemma xadd_choose_id_parses sys id s ts seq fid :
  0 <= sys <= INT64_MAX ->
  xadd_choose_id sys id s = Ret (inr (ts, seq, fid)) ->
  sid_parse fid = Some (mkStreamId ts seq).
Proof.
  intros Hsys H. assert (H01 : in_int64 0 /\ in_int64 1) by (split; split; done).
  unfold xadd_choose_id in H. case_bool_decide as E1.
  { destruct (last s) as [l|]; [destruct (_ =? sys)|]; simpl in H.
    1: destruct (int64_of _) as [q| |] eqn:Eq; simpl in H; simplify_eq;
       apply int64_of_Ret in Eq as [-> Hq].
    all: simplify_eq; apply sid_parse_to_string; simpl; tauto. }
  destruct (_ && _) eqn:E2; cbn [negb] in H.
  - destruct (find_char "-"%char id) as [d|] eqn:Ed; [|done].
    destruct (parse_int64 (take d id)) as [t|] eqn:Et; [|done].
    apply find_char_Some in Ed as [_ Hnd].
    pose proof (parse_int_nonneg _ _ _ _ Hnd Et). pose proof (parse_int_range _ _ _ _ _ Et).
    destruct (last s) as [l|]; [destruct (_ =? t)|]; simpl in H.
    1: destruct (int64_of _) as [q| |] eqn:Eq; simpl in H; simplify_eq;
       apply int64_of_Ret in Eq as [-> Hq].
    all: simplify_eq; apply sid_parse_to_string; simpl; [lia|]; try case_match; tauto.
  - destruct (sid_parse id) as [[t q]|] eqn:Es; simpl in H; by simplify_eq.
Qed.

Lemma xadd_wf now sys k id f st st' r :
  0 <= sys <= INT64_MAX -> data_wf (data_ st) ->
  xadd now sys k id f st = Ret (st', r) -> data_wf (data_ st').
Proof.
  intros Hsys Hwf H. unfold xadd in H.
  destruct (get_or_create_typed _ now k _) as [st1 [s x]] eqn:Eg.
  apply get_or_create_wf in Eg as [Hwf1 Hs]; [|apply stream_wf_nil|done].
  destruct (xadd_choose_id sys id s) as [[err|[[ts seq] fid]]| |] eqn:Ec; simpl in H; simplify_eq; [done|].
  apply xadd_choose_id_parses in Ec; [|done].
  destruct (_ && _); [by simplify_eq|].
  destruct (last s) as [l|] eqn:El; [destruct (sid_ltb _ _) eqn:Elt|]; simpl in H; simplify_eq;
    try done; (apply data_wf_insert; [|done]); (apply stream_wf_snoc; [done|done|]);
    rewrite El; intros ? [= <-].
  by apply sid_ltb_lt.
Qed.

Lemma zset_add_wf s m z : is_nan s = false -> zset_wf z -> zset_wf (zset_add s m z).1.
Proof. intros H1 H2. by destruct (zset_add_spec s m z H1 H2) as (z' & -> & ? & _). Qed.

Lemma zset_remove_ok m z : zset_wf z -> zset_wf (zset_remove m z).1.
Proof. intros H. by destruct (zset_remove_spec m z H) as (z' & -> & ? & _). Qed.

(** Destructs a lookup of the goal, keeping what it says of well-formedness. *)
Ltac wf_find :=
  match goal with
  | |- context [find_valid_entry ?n ?k ?st] =>
      let E := fresh "E" in
      destruct (find_valid_entry n k st) as [? ?] eqn:E;
      apply find_valid_wf in E as [? ?]; [|done]
  end.

Lemma get_typed_wf T `{Alternative T} now k st :
  data_wf (data_ st) -> data_wf (data_ (get_typed T now k st).1).
Proof. intros. unfold get_typed. wf_find. by case_match. Qed.

Lemma push_if_valid_wf p now k v st :
  data_wf (data_ st) -> data_wf (data_ (push_if_valid_type p now k v st).1).
Proof.
  intros. unfold push_if_valid_type. repeat case_match; simpl; auto with credis.
  - by apply data_wf_insert.
  - by apply data_wf_emplace; [|apply data_wf_delete].
  - by apply data_wf_emplace.
Qed.

Lemma push_wf p now k v st : data_wf (data_ st) -> data_wf (data_ (push p now k v st).1).
Proof.
  intros. unfold push. destruct (get_or_create_typed _ now k _) as [st1 [l x]] eqn:E.
  apply get_or_create_wf in E as [? _]; [|done|done]. by apply data_wf_insert.
Qed.

Lemma list_entry_wf now k st :
  data_wf (data_ st) -> data_wf (data_ (list_entry now k st).1).
Proof. intros. unfold list_entry. wf_find. by case_match. Qed.

Lemma pop_wf t now k st : data_wf (data_ st) -> data_wf (data_ (pop t now k st).1).
Proof.
  intros Hwf. unfold pop. pose proof (list_entry_wf now k (touch_key k st) Hwf) as H.
  destruct (list_entry _ _ _) as [st' o]. simpl in H.
  repeat case_match; simpl; auto. by apply data_wf_insert.
Qed.

Lemma pop_n_wf t now k n st : data_wf (data_ st) -> data_wf (data_ (pop_n t now k n st).1).
Proof.
  intros Hwf. unfold pop_n. pose proof (list_entry_wf now k (touch_key k st) Hwf) as H.
  destruct (list_entry _ _ _) as [st' o]. simpl in H.
  repeat case_match; simpl; auto. by apply data_wf_insert.
Qed.

Lemma incr_wf now k st : data_wf (data_ st) -> data_wf (data_ (incr now k st).1).
Proof.
  intros. unfold incr. wf_find. repeat case_match; simpl; auto; by apply data_wf_insert.
Qed.

Lemma incr_if_valid_wf now k st :
  data_wf (data_ st) -> data_wf (data_ (incr_if_valid_type now k st).1).
Proof.
  intros. unfold incr_if_valid_type. repeat case_match; simpl; auto.
  - by apply data_wf_insert.
  - by apply data_wf_emplace; [|apply data_wf_delete].
  - by apply data_wf_emplace.
Qed.

Lemma zadd_wf now k s m st :
  is_nan s = false -> data_wf (data_ st) -> data_wf (data_ (zadd now k s m st).1).
Proof.
  intros Hn Hwf. unfold zadd. destruct (get_or_create_typed _ now k _) as [st1 [z x]] eqn:E.
  apply get_or_create_wf in E as [? Hz]; [|apply empty_zset_wf|done].
  pose proof (zset_add_wf s m z Hn Hz). destruct (zset_add s m z). by apply data_wf_insert.
Qed.

Lemma zadd_if_valid_wf now k s m st :
  is_nan s = false -> data_wf (data_ st) -> data_wf (data_ (zadd_if_valid_type now k s m st).1).
Proof.
  intros Hn Hwf. unfold zadd_if_valid_type.
  pose proof (zset_add_wf s m empty_zset Hn empty_zset_wf).
  destruct (zset_add s m empty_zset) as [z0 r0].
  destruct (data_ st !! k) as [e|] eqn:E; [|by apply data_wf_emplace].
  destruct (is_expired now e); simpl; [by apply data_wf_emplace; [|apply data_wf_delete]|].
  destruct (alt_get_if (T := SortedSet) (value e)) as [z|] eqn:Ez; [|done].
  apply alt_get_wf in Ez; [|by eapply data_wf_lookup].
  pose proof (zset_add_wf s m z Hn Ez). destruct (zset_add s m z). by apply data_wf_insert.
Qed.

Lemma zrem_wf now k m st : data_wf (data_ st) -> data_wf (data_ (zrem now k m st).1).
Proof.
  intros Hwf. unfold zrem. wf_find. destruct o as [e|]; [|done].
  destruct (alt_get_if (T := SortedSet) (value e)) as [z|] eqn:Ez; [|done].
  apply alt_get_wf in Ez; [|eauto]. pose proof (zset_remove_ok m z Ez).
  destruct (zset_remove m z). by apply data_wf_insert.
Qed.

Lemma set_if_valid_wf now k v ttl st st' b :
  data_wf (data_ st) -> set_if_valid_type now k v ttl st = Ret (st', b) -> data_wf (data_ st').
Proof.
  intros Hwf H. unfold set_if_valid_type in H.
  destruct (expiry_opt now ttl) as [x|exc|u]; repeat case_hyp H; simplify_eq/=; auto.
  - by apply data_wf_insert.
  - by apply data_wf_emplace; [|apply data_wf_delete].
  - by apply data_wf_emplace.
Qed.

Lemma run_op_wf now sys op st st' :
  0 <= sys <= INT64_MAX -> op_nonan op -> data_wf (data_ st) ->
  run_op now sys op st = Ret st' -> data_wf (data_ st').
Proof.
  intros Hsys Hop Hwf. destruct op; simpl; intros H; simplify_eq;
    try (first [by apply push_if_valid_wf|by apply push_wf|by apply pop_wf|by apply pop_n_wf
               |by apply incr_wf|by apply incr_if_valid_wf|by apply zadd_wf
               |by apply zadd_if_valid_wf|by apply zrem_wf]);
    try (unfold get, exists_, get_type; wf_find; repeat case_match; by simplify_eq/=);
    try (unfold llen, lrange, xrange, xread, get_stream_max_id, zrank, zrange, zcard, zscore, zgetall;
         match goal with |- context [get_typed ?T ?n ?k ?st] =>
           pose proof (get_typed_wf T n k st Hwf); destruct (get_typed T n k st) as [? ?] end;
         repeat case_match; by simplify_eq/=).
  - unfold set in H. destruct (expiry_opt now ttl); simpl in H; simplify_eq.
    by apply data_wf_insert.
  - destruct (set_if_valid_type _ _ _ _ _) as [[? ?]| |] eqn:E; simpl in H; simplify_eq.
    by eapply set_if_valid_wf.
  - unfold xadd_if_valid_type in H. case_match; simpl in H; simplify_eq; [done|].
    destruct (xadd _ _ _ _ _ _) as [[? ?]| |] eqn:E; simpl in H; simplify_eq.
    by eapply xadd_wf.
  - unfold del. simpl. case_match; simpl; [by apply data_wf_delete|done].
  - destruct (xadd _ _ _ _ _ _) as [[? ?]| |] eqn:E; simpl in H; simplify_eq.
    by eapply xadd_wf.
  - simpl. intros k e [He _]%map_lookup_filter_Some. by apply (Hwf k).
Qed.

Lemma run_ops_wf tr : forall st st',
  Forall (fun x => 0 <= x.1.2 <= INT64_MAX /\ op_nonan x.2) tr ->
  data_wf (data_ st) -> run_ops tr st = Ret st' -> data_wf (data_ st').
Proof.
  induction tr as [|[[now sys] op] tr IH]; intros st st' Ht Hwf H; simpl in H; [by simplify_eq|].
  inversion_clear Ht as [|? ? [Hs Ho] Ht']. simpl in Hs, Ho.
  destruct (run_op now sys op st) as [st1| |] eqn:E; simpl in H; [|done..].
  apply (IH st1); [done| |done]. by apply (run_op_wf now sys op st).
Qed.

(** * Properties *)

(** Every store reached from the empty one by the public operations, at any
    clock readings, has its streams in strictly increasing identifier order with
    identifiers that parse back, and its sorted sets in strict (score, member)
    order with the two structures in agreement, as long as no score is a NaN. *)
Theorem reachable_store_wf (tr : list (Z * Z * store_op)) (st : Store) :
  Forall (fun x => 0 <= x.1.2 <= INT64_MAX /\ op_nonan x.2) tr ->
  run_ops tr empty_store = Ret st -> data_wf (data_ st).
Proof. intros. eapply run_ops_wf; [done| |done]. apply map_Forall_empty. Qed.

Definition reachable_example : list (Z * Z * store_op) :=
  [(0, 7, OpXadd (bs "s") (bs "*") [(bs "f", bs "v")]);
   (1, 7, OpXadd (bs "s") (bs "7-*") []);
   (2, 9, OpZadd (bs "z") (S754_finite false 4503599627370496 (-52)) (bs "m"));
   (3, 9, OpZaddIfValid (bs "z") (S754_zero false) (bs "m"))].

Lemma reachable_store_wf_witness :
  exists st, run_ops reachable_example empty_store = Ret st /\ data_wf (data_ st).
Proof.
  eexists. split; [vm_compute; reflexivity|].
  apply (reachable_store_wf reachable_example); [|vm_compute; reflexivity].
  repeat constructor; done.
Defined.

(** C10: the version counters are a sound change detector.  If after any sequence
    of operations, at clock readings up to [T], the version of a key is what it
    was, then what can be seen of the key at any time from [T] on is what could
    be seen before; versions never go back.  (The counter has 2^64 values; the
    hypothesis says it does not wrap during the sequence.) *)
Theorem unchanged_version_unchanged_key
    (T : Z) (k : bytes) (tr : list (Z * Z * store_op)) (st st' : Store) :
  versions_wf st -> version_counter_ st + zlen tr <= UINT64_MAX ->
  Forall (fun x => x.1.1 <= T) tr -> run_ops tr st = Ret st' ->
  get_key_version k st <= get_key_version k st'
  /\ (get_key_version k st' = get_key_version k st ->
      forall t, T <= t -> live t k st' = live t k st).
Proof. intros. by apply (run_ops_tracked T k tr). Qed.

Lemma unchanged_version_unchanged_key_witness :
  let tr := [(5, 0, OpRpush (bs "other") (bs "x")); (6, 0, OpGet (bs "k")); (7, 0, OpKeys)] in
  exists st', run_ops tr empty_store = Ret st'
    /\ forall t, 7 <= t -> live t (bs "k") st' = live t (bs "k") empty_store.
Proof.
  eexists. split; [vm_compute; reflexivity|].
  apply (unchanged_version_unchanged_key 7 (bs "k")
    [(5, 0, OpRpush (bs "other") (bs "x")); (6, 0, OpGet (bs "k")); (7, 0, OpKeys)]
    empty_store).
  - split; [done|apply map_Forall_empty].
  - done.
  - repeat constructor; done.
  - vm_compute; reflexivity.
  - reflexivity.
Defined.
