(* ===== verification/StoreSpec.v ===== *)
(** * StoreSpec: what the store operations compute

    Reference definitions for the searches, ranges and pops of the store, and
    the functional behaviour of its string, list, stream and sorted-set
    operations against them. *)
From S2P Require Import Prelude Text StreamIds RespCodec Scores SortedSets Store StoreSteps.

Open Scope Z_scope.

(** * Lemmas *)

(** ** Splitting a list where a predicate turns false *)
Section partition.
Context {A : Type} (P : A -> Prop) `{!forall x, Decision (P x)}.

Definition splits_at (l : list A) (r : nat) : Prop :=
  (r <= length l)%nat
  /\ (forall i x, l !! i = Some x -> (i < r)%nat -> P x)
  /\ (forall i x, l !! i = Some x -> (r <= i)%nat -> ~ P x).

Lemma splits_at_filter l r : splits_at l r -> filter P l = take r l.
Proof.
  revert r. induction l as [|x l IH]; intros r (Hr & H1 & H2); [by destruct r|].
  destruct r as [|r].
  - rewrite filter_cons_False by (by apply (H2 0%nat)).
    rewrite (IH 0%nat); [done|]. split_and!; [lia|intros; lia|].
    intros i y Hi _. apply (H2 (S i) y); [done|lia].
  - rewrite filter_cons_True by (by apply (H1 0%nat); [|lia]). simpl. f_equal. apply IH.
    simpl in Hr. split_and!; [lia| |].
    + intros i y Hi Hlt. apply (H1 (S i) y); [done|lia].
    + intros i y Hi Hge. apply (H2 (S i) y); [done|lia].
Qed.

Lemma splits_at_filter_not l r : splits_at l r -> filter (fun x => ~ P x) l = drop r l.
Proof.
  revert r. induction l as [|x l IH]; intros r (Hr & H1 & H2); [by destruct r|].
  destruct r as [|r].
  - rewrite filter_cons_True by (by apply (H2 0%nat)). rewrite (IH 0%nat); [done|].
    split_and!; [lia|intros; lia|]. intros i y Hi _. apply (H2 (S i) y); [done|lia].
  - rewrite filter_cons_False by (intros Hn; apply Hn; by apply (H1 0%nat); [|lia]).
    simpl. apply IH. simpl in Hr. split_and!; [lia| |].
    + intros i y Hi Hlt. apply (H1 (S i) y); [done|lia].
    + intros i y Hi Hge. apply (H2 (S i) y); [done|lia].
Qed.

Lemma splits_at_take l r n : splits_at l r -> splits_at (take n l) (r `min` n)%nat.
Proof.
  intros (Hr & H1 & H2). split_and!.
  - rewrite length_take. lia.
  - intros i x [Hi _]%lookup_take_Some Hlt. apply (H1 i); [done|lia].
  - intros i x [Hi Hn]%lookup_take_Some Hge. apply (H2 i); [done|lia].
Qed.
End partition.

(** ** The binary searches *)
Definition ids_sorted (s : list StreamEntry) : Prop := StronglySorted sid_lt (parsed_id <$> s).

Lemma ids_sorted_lookup s i j x y :
  ids_sorted s -> s !! i = Some x -> s !! j = Some y -> (i < j)%nat ->
  sid_lt (parsed_id x) (parsed_id y).
Proof.
  unfold ids_sorted. revert i j. induction s as [|e s IH]; intros i j Hs Hi Hj Hlt; [done|].
  simpl in Hs. apply StronglySorted_inv in Hs as [Hs Hx]. destruct j as [|j]; [lia|].
  destruct i as [|i]; simpl in *; simplify_eq.
  - rewrite Forall_forall in Hx. apply Hx, list_elem_of_fmap. exists y. split; [done|].
    by eapply list_elem_of_lookup_2.
  - eapply IH; [done|done|done|lia].
Qed.

Lemma mid_bounds lo hi : (lo < hi)%nat -> (lo <= lo + (hi - lo) / 2 < hi)%nat.
Proof.
  intros H. pose proof (Nat.div_lt (hi - lo) 2). lia.
Qed.

Section search.
Context (s : list StreamEntry) (target : StreamId) (Hs : ids_sorted s).

Lemma lower_bound_go_spec fuel : forall lo hi,
  (lo <= hi <= length s)%nat -> (hi - lo < fuel)%nat ->
  (forall i x, s !! i = Some x -> (i < lo)%nat -> sid_lt (parsed_id x) target) ->
  (forall i x, s !! i = Some x -> (hi <= i)%nat -> ~ sid_lt (parsed_id x) target) ->
  splits_at (fun e => sid_lt (parsed_id e) target) s (lower_bound_go fuel s target lo hi).
Proof.
  induction fuel as [|f IH]; intros lo hi Hb Hf Hlo Hhi; [lia|]. cbn [lower_bound_go].
  destruct (lo <? hi)%nat eqn:E; b2p.
  2: { assert (lo = hi) as <- by lia. split_and!; [lia|done|done]. }
  pose proof (mid_bounds lo hi E) as Hm. set (mid := (lo + (hi - lo) / 2)%nat) in *.
  destruct (s !! mid) as [e|] eqn:Ee; [|apply lookup_ge_None in Ee; lia].
  destruct (sid_ltb (parsed_id e) target) eqn:El.
  - apply sid_ltb_lt in El. apply IH; [lia|lia| |done].
    intros i x Hi Hlt. destruct (decide (i = mid)) as [->|]; [by simplify_eq|].
    transitivity (parsed_id e); [|done]. eapply ids_sorted_lookup; [done|done|done|lia].
  - apply sid_ltb_ge in El. apply IH; [lia|lia|done|].
    intros i x Hi Hge. destruct (decide (i = mid)) as [->|]; [by simplify_eq|].
    intros Hx. apply El. transitivity (parsed_id x); [|done].
    eapply ids_sorted_lookup; [done|done|done|lia].
Qed.

Lemma upper_bound_go_spec fuel : forall lo hi,
  (lo <= hi <= length s)%nat -> (hi - lo < fuel)%nat ->
  (forall i x, s !! i = Some x -> (i < lo)%nat -> ~ sid_lt target (parsed_id x)) ->
  (forall i x, s !! i = Some x -> (hi <= i)%nat -> ~ ~ sid_lt target (parsed_id x)) ->
  splits_at (fun e => ~ sid_lt target (parsed_id e)) s (upper_bound_go fuel s target lo hi).
Proof.
  induction fuel as [|f IH]; intros lo hi Hb Hf Hlo Hhi; [lia|]. cbn [upper_bound_go].
  destruct (lo <? hi)%nat eqn:E; b2p.
  2: { assert (lo = hi) as <- by lia. split_and!; [lia|done|done]. }
  pose proof (mid_bounds lo hi E) as Hm. set (mid := (lo + (hi - lo) / 2)%nat) in *.
  destruct (s !! mid) as [e|] eqn:Ee; [|apply lookup_ge_None in Ee; lia].
  destruct (sid_ltb target (parsed_id e)) eqn:El; simpl negb; cbn iota.
  - apply sid_ltb_lt in El. apply IH; [lia|lia|done|].
    intros i x Hi Hge Hn. apply Hn. destruct (decide (i = mid)) as [->|]; [by simplify_eq|].
    transitivity (parsed_id e); [done|]. eapply ids_sorted_lookup; [done|done|done|lia].
  - apply sid_ltb_ge in El. apply IH; [lia|lia| |done].
    intros i x Hi Hlt Hn. destruct (decide (i = mid)) as [->|]; [by simplify_eq|].
    apply El. transitivity (parsed_id x); [done|].
    eapply ids_sorted_lookup; [done|done|done|lia].
Qed.

Lemma lower_bound_spec : splits_at (fun e => sid_lt (parsed_id e) target) s (lower_bound s target).
Proof.
  apply lower_bound_go_spec; [lia|lia|intros; lia|].
  intros i x Hi%lookup_lt_Some Hge. lia.
Qed.

Lemma upper_bound_spec : splits_at (fun e => ~ sid_lt target (parsed_id e)) s (upper_bound s target).
Proof.
  apply upper_bound_go_spec; [lia|lia|intros; lia|].
  intros i x Hi%lookup_lt_Some Hge. lia.
Qed.
End search.

(** The slice between the two searches is the filter by the two bounds. *)
Lemma search_slice s a b : ids_sorted s ->
  take (upper_bound s b - lower_bound s a) (drop (lower_bound s a) s)
  = filter (fun e => ~ sid_lt (parsed_id e) a /\ ~ sid_lt b (parsed_id e)) s.
Proof.
  intros Hs. pose proof (lower_bound_spec s a Hs) as Hlo.
  pose proof (upper_bound_spec s b Hs) as Hhi.
  rewrite <- (list_filter_filter (fun e => ~ sid_lt (parsed_id e) a)
                                 (fun e => ~ sid_lt b (parsed_id e))).
  rewrite (splits_at_filter _ _ _ Hhi).
  rewrite (splits_at_filter_not _ _ _ (splits_at_take _ _ _ (upper_bound s b) Hlo)).
  rewrite <- skipn_firstn_comm.
  destruct (Nat.min_spec (lower_bound s a) (upper_bound s b)) as [[? ->]|[? ->]]; [done|].
  by rewrite !drop_ge by (rewrite length_take; lia).
Qed.

Lemma search_tail s a : ids_sorted s ->
  drop (upper_bound s a) s = filter (fun e => sid_lt a (parsed_id e)) s.
Proof.
  intros Hs. rewrite <- (splits_at_filter_not _ _ _ (upper_bound_spec s a Hs)).
  apply list_filter_iff. intros e. destruct (decide (sid_lt a (parsed_id e))); tauto.
Qed.

(** The stream a key holds at [now], empty if it holds none. *)
Definition stream_at (now : Z) (key : bytes) (st : Store) : list StreamEntry :=
  default [] (live now key st ≫= fun e => alt_get_if (value e)).
Definition list_at (now : Z) (key : bytes) (st : Store) : list bytes :=
  default [] (live now key st ≫= fun e => alt_get_if (value e)).
Definition zset_at (now : Z) (key : bytes) (st : Store) : SortedSet :=
  default empty_zset (live now key st ≫= fun e => alt_get_if (value e)).

Lemma find_valid_live now key st : (find_valid_entry now key st).2 = live now key st.
Proof. unfold find_valid_entry, live. by repeat case_match. Qed.

Lemma get_typed_live T `{Alternative T} now key st :
  (get_typed T now key st).2 = live now key st ≫= fun e => alt_get_if (value e).
Proof.
  unfold get_typed. pose proof (find_valid_live now key st) as Hl.
  destruct (find_valid_entry now key st) as [st' [e|]]; simpl in *; by rewrite <- Hl.
Qed.

Lemma live_wf now key st e : data_wf (data_ st) -> live now key st = Some e -> val_wf (value e).
Proof.
  unfold live. intros Hwf H. destruct (data_ st !! key) as [e'|] eqn:E; [|done].
  case_match; simplify_eq. by eapply data_wf_lookup.
Qed.

Lemma stream_at_sorted now key st : data_wf (data_ st) -> ids_sorted (stream_at now key st).
Proof.
  intros Hwf. unfold stream_at. destruct (live now key st) as [e|] eqn:E; simpl; [|constructor].
  destruct (alt_get_if (T := list StreamEntry) (value e)) as [s|] eqn:Es; simpl; [|constructor].
  apply alt_get_wf in Es; [by apply swf_sorted|by eapply live_wf].
Qed.

Lemma zset_at_wf now key st : data_wf (data_ st) -> zset_wf (zset_at now key st).
Proof.
  intros Hwf. unfold zset_at.
  destruct (live now key st) as [e|] eqn:E; simpl; [|apply empty_zset_wf].
  destruct (alt_get_if (T := SortedSet) (value e)) as [z|] eqn:Es; simpl; [|apply empty_zset_wf].
  apply alt_get_wf in Es; [done|by eapply live_wf].
Qed.

Lemma xrange_slice now key a b st :
  (xrange now key a b st).2
  = take (upper_bound (stream_at now key st) (xrange_end b)
          - lower_bound (stream_at now key st) (xrange_start a))
      (drop (lower_bound (stream_at now key st) (xrange_start a)) (stream_at now key st)).
Proof.
  unfold xrange, stream_at. rewrite <- get_typed_live.
  destruct (get_typed _ now key st) as [st' [s|]]; simpl; [|by rewrite ?drop_nil, ?take_nil].
  destruct (length s =? 0)%nat eqn:El; b2p.
  - apply nil_length_inv in El as ->. simpl. by rewrite ?drop_nil, ?take_nil.
  - destruct (_ <=? _)%nat eqn:Eh; b2p; [|done]. simpl.
    by replace (upper_bound s _ - lower_bound s _)%nat with 0%nat by lia.
Qed.

Lemma xread_slice now key id st :
  (xread now key id st).2
  = drop (upper_bound (stream_at now key st) (xread_threshold id)) (stream_at now key st).
Proof.
  unfold xread, stream_at. rewrite <- get_typed_live.
  destruct (get_typed _ now key st) as [st' [s|]]; simpl; [|by rewrite ?drop_nil].
  destruct (length s =? 0)%nat eqn:El; b2p.
  - apply nil_length_inv in El as ->. simpl. by rewrite ?drop_nil.
  - destruct (_ <=? _)%nat eqn:Eh; b2p; simpl; [by rewrite drop_ge|].
    apply take_ge. rewrite length_drop. lia.
Qed.

(** ** Ranges and pops *)
Definition norm_index (len i : Z) : Z := Z.max 0 (if i <? 0 then len + i else i).

(** The elements at positions [a..b], cut at the end of the list. *)
Definition slice {A} (l : list A) (a b : Z) : list A :=
  take (Z.to_nat (b + 1 - a)) (drop (Z.to_nat a) l).

Lemma omap_lookup_seq {A} (l : list A) n : forall i,
  omap (fun j => l !! j) (seq i n) = take n (drop i l).
Proof.
  induction n as [|n IH]; intros i; simpl; [done|].
  destruct (l !! i) as [x|] eqn:E; rewrite IH.
  - by rewrite (drop_S _ _ _ E).
  - apply lookup_ge_None in E. rewrite !drop_ge by lia. by rewrite take_nil.
Qed.

Lemma range_bounds_slice {A} (l : list A) start stop :
  match range_bounds (zlen l) start stop with
  | None => []
  | Some (a, b) => slice l a b
  end = slice l (norm_index (zlen l) start) (norm_index (zlen l) stop)
  /\ (forall a b, range_bounds (zlen l) start stop = Some (a, b) -> 0 <= a <= b /\ b < zlen l).
Proof.
  pose proof (zlen_nonneg l). unfold range_bounds, norm_index, slice.
  set (s1 := if start <? 0 then zlen l + start else start).
  set (s2 := if stop <? 0 then zlen l + stop else stop).
  assert (E1 : (if s1 <? 0 then 0 else s1) = Z.max 0 s1) by (destruct (s1 <? 0) eqn:?; b2p; lia).
  assert (E2 : (if s2 <? 0 then 0 else s2) = Z.max 0 s2) by (destruct (s2 <? 0) eqn:?; b2p; lia).
  rewrite E1, E2. destruct (_ || _) eqn:E.
  - split; [|done]. apply orb_true_iff in E as [E|E]; b2p.
    + rewrite drop_ge; [by rewrite take_nil|unfold zlen in *; lia].
    + by replace (Z.to_nat (Z.max 0 s2 + 1 - Z.max 0 s1)) with 0%nat by lia.
  - b2p. destruct (zlen l <=? _) eqn:E'; b2p.
    + split; [|intros a b [= <- <-]; lia]. rewrite !take_ge; [done| |];
        rewrite length_drop; unfold zlen in *; lia.
    + split; [done|intros a b [= <- <-]; lia].
Qed.

Lemma pop_loop_front n : forall l acc, (n <= length l)%nat ->
  pop_loop pop_front n l acc = (drop n l, acc ++ take n l).
Proof.
  induction n as [|n IH]; intros l acc Hn; simpl; [by rewrite app_nil_r|].
  destruct l as [|x l]; simpl in *; [lia|]. rewrite IH by lia. by rewrite <- app_assoc.
Qed.

Lemma pop_back_snoc l x : pop_back (l ++ [x]) = Some (x, l).
Proof. unfold pop_back. rewrite rev_app_distr. simpl. by rewrite rev_involutive. Qed.

Lemma pop_loop_back n : forall l acc, (n <= length l)%nat ->
  pop_loop pop_back n l acc = (take (length l - n) l, acc ++ rev (drop (length l - n) l)).
Proof.
  induction n as [|n IH]; intros l acc Hn; cbn [pop_loop].
  - rewrite Nat.sub_0_r, firstn_all, drop_all. simpl. by rewrite app_nil_r.
  - destruct l as [|x l _] using rev_ind; [simpl in *; lia|]. rewrite length_app in *.
    simpl in Hn. rewrite pop_back_snoc, IH by lia. simpl length.
    replace (length l + 1 - S n)%nat with (length l - n)%nat by lia.
    rewrite take_app_le, drop_app_le by lia. rewrite rev_app_distr, <- app_assoc. done.
Qed.

(** ** Reading back what an operation wrote *)
Lemma live_put now key v exp st :
  is_expired now (mkEntry v exp) = false ->
  live now key (put_value key v exp st) = Some (mkEntry v exp).
Proof. intros H. unfold live, put_value. simpl. by rewrite lookup_insert_eq, H. Qed.

Lemma live_put_ne now key key' v exp st :
  key <> key' -> live now key' (put_value key v exp st) = live now key' st.
Proof. intros H. unfold live, put_value. simpl. by rewrite lookup_insert_ne. Qed.

Lemma live_touch now key key' st : live now key' (touch_key key st) = live now key' st.
Proof. done. Qed.

Lemma live_not_expired now key st e : live now key st = Some e -> is_expired now e = false.
Proof. unfold live. intros H. repeat case_match; by simplify_eq. Qed.

Lemma get_or_create_live T `{Alternative T} now key st st' x exp :
  get_or_create_typed T now key st = (st', (x, exp)) ->
  x = default alt_default (live now key st ≫= fun e => alt_get_if (value e))
  /\ (forall v, live now key (put_value key v exp st') = Some (mkEntry v exp))
  /\ (live now key st' ≫= fun e => alt_get_if (value e)) = Some x
  /\ (forall key', key <> key' -> live now key' st' = live now key' st).
Proof.
  intros Hg. unfold get_or_create_typed in Hg. pose proof (find_valid_live now key st) as Hl.
  pose proof (live_find_valid now now key) as Hf.
  destruct (find_valid_entry now key st) as [st1 oe] eqn:Ef; simpl in Hl; subst oe.
  assert (Hfr : forall j, live now j st1 = live now j st).
  { intros j. specialize (Hf j st ltac:(lia)). by rewrite Ef in Hf. }
  destruct (live now key st) as [e|] eqn:El; simpl;
    [destruct (alt_get_if (T := T) (value e)) as [y|] eqn:Ey|]; simplify_eq; simpl.
  - pose proof (live_not_expired _ _ _ _ El) as Hx. split_and!; [done| | |done].
    + intros v. by apply live_put.
    + rewrite Hfr, El. done.
  - pose proof (live_not_expired _ _ _ _ El) as Hx. split_and!; [done| | |].
    + intros v. by apply live_put.
    + pose proof (live_put now key (alt_inj (alt_default (T := T))) (expiry e) st1) as Hp.
      unfold put_value in Hp. rewrite Hp by done. simpl. apply alt_get_inj.
    + intros key' Hne. rewrite <- Hfr. by apply (live_put_ne now key key').
  - split_and!; [done| | |].
    + intros v. by apply live_put.
    + pose proof (live_put now key (alt_inj (alt_default (T := T))) None st1) as Hp.
      unfold put_value in Hp. rewrite Hp by done. simpl. apply alt_get_inj.
    + intros key' Hne. rewrite <- Hfr. by apply (live_put_ne now key key').
Qed.

Lemma list_entry_live now key st st' o :
  list_entry now key st = (st', o) ->
  (fst <$> o) = (live now key st ≫= fun e => alt_get_if (value e))
  /\ live now key st' = live now key st
  /\ forall l exp v, o = Some (l, exp) -> live now key (put_value key v exp st') = Some (mkEntry v exp).
Proof.
  unfold list_entry. intros H. pose proof (find_valid_live now key st) as Hl.
  pose proof (live_find_valid now now key key st ltac:(lia)) as Hf.
  destruct (find_valid_entry now key st) as [st1 oe]; simpl in *; subst oe.
  destruct (live now key st) as [e|] eqn:El; simplify_eq; simpl; [|done].
  split_and!; [by destruct (alt_get_if (value e))|done|].
  intros l exp v (l' & _ & Heq)%fmap_Some. injection Heq as -> ->. apply live_put.
  exact (live_not_expired _ _ _ _ El).
Qed.

Lemma last_lt_all s sid :
  ids_sorted s -> (forall l, last s = Some l -> sid_lt (parsed_id l) sid) ->
  Forall (fun e => sid_lt (parsed_id e) sid) s.
Proof.
  intros Hs Hl. apply Forall_forall. intros e [i Hi]%list_elem_of_lookup_1.
  destruct (last s) as [l|] eqn:E; [|apply last_None in E as ->; done].
  rewrite last_lookup in E. destruct (decide (i = pred (length s))) as [->|].
  - simplify_eq. by apply Hl.
  - transitivity (parsed_id l); [|by apply Hl]. eapply ids_sorted_lookup; [done|done|done|].
    apply lookup_lt_Some in Hi. lia.
Qed.

(** ** Ranks *)
#[export] Instance key_lt_dec a b : Decision (key_lt a b).
Proof. unfold key_lt. solve_decision. Defined.
#[export] Instance elt_lt_dec a b : Decision (elt_lt a b).
Proof. unfold elt_lt. solve_decision. Defined.

Lemma distance_to_rank x l :
  StronglySorted elt_lt l -> x ∈ l ->
  distance_to x l = zlen (filter (fun y => elt_lt y x) l).
Proof.
  induction 1 as [|y l Hs IH Hy]; intros Hin; [by apply not_elem_of_nil in Hin|].
  simpl. rewrite Forall_forall in Hy. case_decide as E.
  - subst y. rewrite filter_cons_False by apply elt_lt_irrefl.
    replace (filter _ l) with (@nil zelem); [done|]. symmetry.
    destruct (filter _ l) as [|z l'] eqn:Ef; [done|]. exfalso.
    assert (z ∈ filter (fun y => elt_lt y x) l) as [Hz Hzl]%list_elem_of_filter
      by (rewrite Ef; by left).
    apply (elt_lt_irrefl x). transitivity z; [by apply Hy|done].
  - apply elem_of_cons in Hin as [?|Hin]; [done|].
    rewrite filter_cons_True by (by apply Hy). rewrite IH by done. unfold zlen. simpl. lia.
Qed.

(** ** Repeated INCR *)
Fixpoint incr_times (m : nat) (now : Z) (key : bytes) (st : Store) : Store :=
  match m with
  | O => st
  | S m' => (incr_if_valid_type now key (incr_times m' now key st)).1
  end.

Lemma incr_step now key st n exp :
  live now key st = Some (mkEntry (VString (to_string n)) exp) -> in_int64 n ->
  if n =? INT64_MAX
  then (incr_if_valid_type now key st).2 = None
       /\ data_ (incr_if_valid_type now key st).1 = data_ st
  else (incr_if_valid_type now key st).2 = Some (n + 1)
       /\ live now key (incr_if_valid_type now key st).1
          = Some (mkEntry (VString (to_string (n + 1))) exp).
Proof.
  intros Hl Hn. pose proof (live_not_expired _ _ _ _ Hl) as Hx.
  unfold live in Hl. destruct (data_ st !! key) as [e|] eqn:E; [|done].
  destruct (is_expired now e) eqn:Ee; simplify_eq.
  unfold incr_if_valid_type. rewrite E, Ee. cbn [negb value expiry].
  change (alt_get_if (VString (to_string n))) with (Some (to_string n)). cbv iota beta zeta.
  rewrite parse_int64_to_string by done. destruct (n =? INT64_MAX); [done|].
  split; [done|]. cbn [fst]. apply live_put. done.
Qed.

Lemma incr_times_live now key st n exp m :
  live now key st = Some (mkEntry (VString (to_string n)) exp) ->
  INT64_MIN <= n -> n + Z.of_nat m <= INT64_MAX ->
  live now key (incr_times m now key st)
  = Some (mkEntry (VString (to_string (n + Z.of_nat m))) exp).
Proof.
  intros Hl Hn. induction m as [|m IH]; intros Hm; simpl; [by rewrite Z.add_0_r|].
  pose proof (incr_step now key (incr_times m now key st) (n + Z.of_nat m) exp) as Hs.
  rewrite (proj2 (Z.eqb_neq _ _)) in Hs by lia.
  destruct Hs as [_ ->]; [apply IH; lia|unfold in_int64; lia|].
  do 4 f_equal. lia.
Qed.

(** ** The sorted-set operations on the abstract map *)
Lemma zadd_live now key s m st :
  is_nan s = false -> zset_wf (zset_at now key st) ->
  zscores (zset_at now key (zadd now key s m st).1) = <[m := s]> (zscores (zset_at now key st))
  /\ (zadd now key s m st).2 = (if member_scores (zset_at now key st) !! m then 0 else 1).
Proof.
  intros Hs Hz. unfold zadd.
  destruct (get_or_create_typed _ now key _) as [st' [z x]] eqn:E.
  apply get_or_create_live in E as (Hz0 & Hput & _ & _). rewrite live_touch in Hz0.
  assert (z = zset_at now key st) as -> by done.
  destruct (zset_add_spec s m _ Hs Hz) as (z' & -> & _ & Hsc). split; [|done].
  rewrite <- Hsc. unfold zset_at at 1. simpl. by rewrite Hput.
Qed.

Lemma zrem_live now key m st :
  zset_wf (zset_at now key st) ->
  zscores (zset_at now key (zrem now key m st).1) = delete m (zscores (zset_at now key st))
  /\ (zrem now key m st).2 = (if member_scores (zset_at now key st) !! m then 1 else 0).
Proof.
  intros Hz. unfold zrem. pose proof (find_valid_live now key (touch_key key st)) as Hf.
  pose proof (live_find_valid now now key key (touch_key key st) ltac:(lia)) as Hf2.
  rewrite live_touch in Hf, Hf2. destruct (find_valid_entry now key _) as [st' oe].
  simpl in Hf, Hf2. subst oe.
  assert (Hsame : zset_at now key st' = zset_at now key st) by (unfold zset_at; by rewrite Hf2).
  assert (Hempty : zset_at now key st = empty_zset ->
    zscores (zset_at now key st') = delete m (zscores (zset_at now key st))
    /\ 0 = (if member_scores (zset_at now key st) !! m then 1 else 0)).
  { intros He. rewrite Hsame, He. unfold zscores; simpl. by rewrite fmap_empty, delete_empty, lookup_empty. }
  destruct (live now key st) as [e|] eqn:El; simpl.
  2: { apply Hempty. unfold zset_at. by rewrite El. }
  destruct (alt_get_if (T := SortedSet) (value e)) as [z|] eqn:Ez; simpl.
  2: { apply Hempty. unfold zset_at. rewrite El; simpl. by rewrite Ez. }
  assert (Hzz : zset_at now key st = z) by (unfold zset_at; rewrite El; simpl; by rewrite Ez).
  rewrite Hzz in *. destruct (zset_remove_spec m z Hz) as (z' & -> & _ & Hsc). split; [|done].
  rewrite <- Hsc. unfold zset_at at 1. cbn [fst]. rewrite live_put; [done|].
  exact (live_not_expired _ _ _ _ El).
Qed.

Lemma zread_live now key m st :
  zset_wf (zset_at now key st) ->
  let z := zset_at now key st in
  (zscore now key m st).2 = zscores z !! m
  /\ (zcard now key st).2 = Z.of_nat (size (zscores z))
  /\ (zrank now key m st).2
     = (fun sc => zlen (filter (fun e => elt_lt e (sc, m)) (entries z))) <$> zscores z !! m.
Proof.
  assert (Hat : zset_at now key st = default empty_zset (get_typed SortedSet now key st).2)
    by (by rewrite get_typed_live).
  rewrite Hat. unfold zscore, zcard, zrank.
  destruct (get_typed _ now key st) as [st' [z0|]]; simpl; intros Hz.
  - unfold zscores. rewrite lookup_fmap, map_size_fmap. split_and!; [done|done|].
    destruct (member_scores z0 !! m) as [it|] eqn:E; simpl; [|done]. f_equal.
    apply (zwf_map _ Hz) in E as [Hin <-]. rewrite <- surjective_pairing.
    apply distance_to_rank; [by apply zwf_sorted|done].
  - unfold zscores; simpl. by rewrite fmap_empty, lookup_empty.
Qed.

(** * Properties *)

(** C13: on a well-formed keyspace, XRANGE returns exactly the entries between
    the two bounds and XREAD exactly those after the threshold, in order: the
    binary searches agree with filtering the whole stream. *)
Theorem stream_queries_are_filters (now : Z) (key a b id : bytes) (st : Store) :
  data_wf (data_ st) ->
  (xrange now key a b st).2
  = filter (fun e => ~ sid_lt (parsed_id e) (xrange_start a) /\ ~ sid_lt (xrange_end b) (parsed_id e))
      (stream_at now key st)
  /\ (xread now key id st).2
     = filter (fun e => sid_lt (xread_threshold id) (parsed_id e)) (stream_at now key st).
Proof.
  intros Hwf. pose proof (stream_at_sorted now key st Hwf) as Hs. split.
  - rewrite xrange_slice. by apply search_slice.
  - rewrite xread_slice. by apply search_tail.
Qed.

Definition stream_example : Store :=
  mkStore {[ bs "s" := mkEntry (VStream
      [mkStreamEntry (bs "1-1") (mkStreamId 1 1) []; mkStreamEntry (bs "1-2") (mkStreamId 1 2) [];
       mkStreamEntry (bs "5-0") (mkStreamId 5 0) []]) None ]} 3 ∅.

Lemma stream_example_wf : data_wf (data_ stream_example).
Proof.
  apply map_Forall_singleton. split; repeat constructor; try (vm_compute; reflexivity);
    try (left; reflexivity); right; split; reflexivity.
Qed.

Lemma stream_queries_are_filters_witness :
  data_wf (data_ stream_example)
  /\ (xread 0 (bs "s") (bs "1-1") stream_example).2
     = filter (fun e => sid_lt (mkStreamId 1 1) (parsed_id e)) (stream_at 0 (bs "s") stream_example).
Proof.
  split; [exact stream_example_wf|].
  apply (stream_queries_are_filters 0 (bs "s") [] [] (bs "1-1") stream_example stream_example_wf).
Defined.

Lemma xadd_appends (now sys_ms : Z) (key id : bytes) (f : list (bytes * bytes))
    (st st' : Store) (r : bytes) :
  0 <= sys_ms <= INT64_MAX -> data_wf (data_ st) ->
  xadd now sys_ms key id f st = Ret (st', r) ->
  (forall key', key <> key' -> live now key' st' = live now key' st)
  /\ ((exists sid, sid_parse r = Some sid /\ sid <> mkStreamId 0 0
        /\ stream_at now key st' = stream_at now key st ++ [mkStreamEntry r sid f]
        /\ Forall (fun e => sid_lt (parsed_id e) sid) (stream_at now key st))
      \/ (starts_with (bs "ERR") r = true /\ stream_at now key st' = stream_at now key st)).
Proof.
  intros Hsys Hwf H. pose proof (stream_at_sorted now key st Hwf) as Hsort.
  unfold xadd in H. destruct (get_or_create_typed _ now key _) as [st1 [s x]] eqn:Eg.
  apply get_or_create_live in Eg as (Hs & Hput & Hget & Hfr).
  assert (Hss : s = stream_at now key st) by done.
  assert (Hst1 : stream_at now key st1 = s) by (unfold stream_at; by rewrite Hget).
  destruct (xadd_choose_id sys_ms id s) as [[err|[[ts seq] fid]]| |] eqn:Ec; simpl in H; [|..|done|done].
  { simplify_eq. split; [done|]. right. split; [|congruence].
    unfold xadd_choose_id in Ec. repeat case_match; simplify_eq/=; try done;
      destruct (int64_of _); by simplify_eq/=. }
  apply xadd_choose_id_parses in Ec; [|done].
  destruct ((ts =? 0) && (seq =? 0)) eqn:E0; [simplify_eq; split; [done|]; right; split; [done|congruence]|].
  assert (Hz : mkStreamId ts seq <> mkStreamId 0 0) by (intros [= -> ->]; done).
  assert (Hlt : forall l, last s = Some l -> sid_ltb (parsed_id l) (mkStreamId ts seq) = true ->
            Forall (fun e => sid_lt (parsed_id e) (mkStreamId ts seq)) s).
  { intros l El Elt%sid_ltb_lt. rewrite <- Hss in Hsort. eapply last_lt_all; [done|].
    intros ? El'. by simplify_eq. }
  destruct (last s) as [l|] eqn:El; [destruct (sid_ltb _ _) eqn:Elt|]; simpl in H; simplify_eq;
    [|split; [done|]; right; split; [done|congruence]|].
  all: split; [intros key' Hne; rewrite live_put_ne by done; by apply Hfr|].
  all: left; exists (mkStreamId ts seq); split_and!; [done|done| |].
  1, 3: unfold stream_at at 1; rewrite Hput; by rewrite <- Hss.
  - rewrite <- Hss. by apply (Hlt l).
  - rewrite <- Hss. apply last_None in El as ->. constructor.
Qed.

(** C23: XADD appends one entry whose identifier is the returned text and is
    greater than every identifier of the stream and than 0-0, or leaves the
    stream as it was and returns an error text; other keys are not affected. *)
Theorem xadd_appends_greater (now sys_ms : Z) (key id : bytes) (f : list (bytes * bytes))
    (st st' : Store) (r : bytes) :
  0 <= sys_ms <= INT64_MAX -> data_wf (data_ st) ->
  xadd now sys_ms key id f st = Ret (st', r) ->
  (forall key', key <> key' -> live now key' st' = live now key' st)
  /\ ((exists sid, sid_parse r = Some sid /\ sid <> mkStreamId 0 0
        /\ stream_at now key st' = stream_at now key st ++ [mkStreamEntry r sid f]
        /\ Forall (fun e => sid_lt (parsed_id e) sid) (stream_at now key st))
      \/ (starts_with (bs "ERR") r = true /\ stream_at now key st' = stream_at now key st)).
Proof. apply xadd_appends. Qed.

Lemma xadd_appends_greater_witness :
  exists st', xadd 0 5 (bs "s") (bs "5-*") [] stream_example = Ret (st', bs "5-1")
    /\ live 0 (bs "k") st' = live 0 (bs "k") stream_example.
Proof.
  eexists. split; [vm_compute; reflexivity|].
  eapply (xadd_appends_greater 0 5 (bs "s") (bs "5-*") [] stream_example _ (bs "5-1")
    ltac:(done) stream_example_wf); [vm_compute; reflexivity|done].
Defined.

(** C37: LRANGE and ZRANGE return the slice of the list, or of the members in
    score order, between the two indexes, where a negative index counts from the
    end and an index still negative is read as 0, also for the end index. *)
Theorem ranges_are_slices (now : Z) (key : bytes) (start stop : Z) (st : Store) :
  let l := list_at now key st in
  let z := entries (zset_at now key st) in
  (lrange now key start stop st).2
  = slice l (norm_index (zlen l) start) (norm_index (zlen l) stop)
  /\ (zrange now key start stop st).2
     = snd <$> slice z (norm_index (zlen z) start) (norm_index (zlen z) stop).
Proof.
  split.
  - unfold lrange, list_at. rewrite <- get_typed_live.
    destruct (get_typed _ now key st) as [st' [l|]]; cbn [snd default from_option id]; unfold id;
      [|unfold slice; by rewrite drop_nil, take_nil].
    destruct (range_bounds_slice l start stop) as [<- Hb].
    destruct (range_bounds (zlen l) start stop) as [[a b]|]; [|done]. cbn [snd].
    unfold index_loop, slice. rewrite omap_lookup_seq. do 2 f_equal. lia.
  - unfold zrange, zset_at. rewrite <- get_typed_live.
    destruct (get_typed _ now key st) as [st' [z|]]; cbn [snd default from_option id]; unfold id;
      [|unfold slice; cbn [entries empty_zset]; by rewrite drop_nil, take_nil].
    destruct (range_bounds_slice (entries z) start stop) as [<- Hb].
    by destruct (range_bounds (zlen (entries z)) start stop) as [[a b]|].
Qed.

Lemma pop_n_at (now : Z) (key : bytes) (count : Z) (st : Store) :
  let l := list_at now key st in
  let n := Z.to_nat (Z.min count (zlen l)) in
  (lpop_n now key count st).2 ++ list_at now key (lpop_n now key count st).1 = l
  /\ length (lpop_n now key count st).2 = n
  /\ list_at now key (rpop_n now key count st).1 ++ rev (rpop_n now key count st).2 = l
  /\ length (rpop_n now key count st).2 = n.
Proof.
  intros l n. unfold lpop_n, rpop_n, pop_n.
  destruct (list_entry now key (touch_key key st)) as [st' o] eqn:E.
  apply list_entry_live in E as (Ho & Hl & Hput). rewrite live_touch in Ho, Hl.
  assert (Hl' : list_at now key st' = l) by (unfold l, list_at; by rewrite Hl).
  assert (Hlo : l = default [] (fst <$> o)) by (by rewrite Ho).
  assert (Hz : forall v x, Some v = fst <$> o -> x = l -> v = [] \/ count <= 0 -> n = 0%nat).
  { intros v x Hv -> Hc. rewrite <- Hv in Hlo. simpl in Hlo. subst n. rewrite Hlo.
    destruct Hc as [->|Hc]; unfold zlen; simpl; lia. }
  destruct o as [[lst x]|]; simpl in *.
  2: { rewrite Hl', app_nil_r. subst n. rewrite Hlo. unfold zlen. simpl. split_and!; try done; lia. }
  destruct lst as [|y lst].
  { simpl. rewrite Hl', app_nil_r. rewrite (Hz [] l) by auto. done. }
  destruct (count <=? 0) eqn:Ec; b2p.
  { simpl. rewrite Hl', app_nil_r. rewrite (Hz (y :: lst) l) by auto. done. }
  rewrite <- Hlo. fold n. assert (Hn : (n <= length l)%nat) by (subst n; unfold zlen; lia).
  assert (Hat : forall l', list_at now key (put_value key (VList l') x st') = l').
  { intros l'. unfold list_at. by rewrite (Hput _ _ _ eq_refl). }
  rewrite pop_loop_front, pop_loop_back by done. simpl. rewrite !Hat.
  rewrite rev_involutive, !take_drop, length_take, length_rev, length_drop. split_and!; [done|lia|done|lia].
Qed.

(** A counted pop removes what it returns and nothing else: LPOP returns a
    prefix of the list in order, RPOP a suffix in reverse, of the requested
    length or the whole list when it is shorter. *)
Theorem counted_pops (now : Z) (key : bytes) (count : Z) (st : Store) :
  let l := list_at now key st in
  let n := Z.to_nat (Z.min count (zlen l)) in
  (lpop_n now key count st).2 ++ list_at now key (lpop_n now key count st).1 = l
  /\ length (lpop_n now key count st).2 = n
  /\ list_at now key (rpop_n now key count st).1 ++ rev (rpop_n now key count st).2 = l
  /\ length (rpop_n now key count st).2 = n.
Proof. exact (pop_n_at now key count st). Qed.

Lemma set_get_at (now : Z) (key v : bytes) (ttl : option Z) (st st' : Store) (ok : bool) :
  (forall ms, ttl = Some ms -> 0 <= ms <= INT64_MAX) ->
  set_if_valid_type now key v ttl st = Ret (st', ok) ->
  if ok
  then forall t, (get t key st').2
         = match ttl with
           | Some ms => if t <? now + ms * 1000000 then Some v else None
           | None => Some v
           end
  else st' = st /\ exists e, live now key st = Some e /\ holds_alternative bytes (value e) = false.
Proof.
  intros Httl H.
  assert (Hx : forall x d, expiry_opt now ttl = Ret x ->
    d !! key = Some (mkEntry (VString v) x) -> forall t c kv, (get t key (mkStore d c kv)).2
    = match ttl with Some ms => if t <? now + ms * 1000000 then Some v else None | None => Some v end).
  { intros x d Hx Hd t c kv. unfold get, find_valid_entry; simpl. rewrite Hd.
    unfold is_expired; simpl. destruct ttl as [ms|]; simpl in Hx; [|by simplify_eq].
    unfold expiry_after in Hx. rewrite s64_small in Hx
      by (specialize (Httl ms eq_refl); unfold in_int64, INT64_MIN; lia).
    destruct (int64_of (ms * 1000000)) as [ns| |] eqn:E1; simpl in Hx; [|done..].
    destruct (int64_of (now + ns)) as [u| |] eqn:E2; simpl in Hx; [|done..]. simplify_eq.
    apply int64_of_Ret in E1 as [-> _]. apply int64_of_Ret in E2 as [-> _].
    rewrite Z.leb_antisym. by destruct (t <? _). }
  unfold set_if_valid_type in H.
  destruct (expiry_opt now ttl) as [x|exc|u]; destruct (data_ st !! key) as [e|] eqn:E;
    try destruct (is_expired now e) eqn:Ee;
    try destruct (holds_alternative bytes (value e)) eqn:Eh; simpl in H; simplify_eq;
    try (split; [done|]; exists e; unfold live; by rewrite E, Ee);
    intros t; apply (Hx x _ eq_refl); simpl; unfold map_emplace; simpl;
    rewrite ?lookup_delete_eq, ?E; apply lookup_insert_eq.
Qed.

(** A SET that succeeds is seen by GET until its time to live has run, and
    not from then on; without a time to live it is seen for ever.  A live key
    of another type refuses the SET and keeps its value. *)
Theorem set_then_get (now : Z) (key v : bytes) (ttl : option Z) (st st' : Store) (ok : bool) :
  (forall ms, ttl = Some ms -> 0 <= ms <= INT64_MAX) ->
  set_if_valid_type now key v ttl st = Ret (st', ok) ->
  if ok
  then forall t, (get t key st').2
         = match ttl with
           | Some ms => if t <? now + ms * 1000000 then Some v else None
           | None => Some v
           end
  else st' = st /\ exists e, live now key st = Some e /\ holds_alternative bytes (value e) = false.
Proof. apply set_get_at. Qed.

Lemma set_then_get_witness :
  exists st', set_if_valid_type 1000 (bs "k") (bs "v") (Some 5) empty_store = Ret (st', true)
    /\ (get 5000999 (bs "k") st').2 = Some (bs "v")
    /\ (get 5001000 (bs "k") st').2 = None.
Proof.
  eexists. split; [vm_compute; reflexivity|].
  split;
    rewrite (set_then_get 1000 (bs "k") (bs "v") (Some 5) empty_store _ true); try reflexivity;
    intros ms [= <-]; done.
Defined.

(** [m] INCRs of a key that holds the integer [n] leave [n + m], with the
    expiry unchanged, as long as that fits 64 bits; the INCR of the largest
    value reports an error and changes no data. *)
Theorem incr_counts (now : Z) (key : bytes) (n : Z) (exp : option Z) (m : nat) (st : Store) :
  live now key st = Some (mkEntry (VString (to_string n)) exp) ->
  INT64_MIN <= n -> n + Z.of_nat m <= INT64_MAX ->
  let st' := incr_times m now key st in
  live now key st' = Some (mkEntry (VString (to_string (n + Z.of_nat m))) exp)
  /\ (n + Z.of_nat m = INT64_MAX ->
      (incr_if_valid_type now key st').2 = None
      /\ data_ (incr_if_valid_type now key st').1 = data_ st').
Proof.
  intros Hl Hn Hm st'. pose proof (incr_times_live now key st n exp m Hl Hn Hm) as H.
  split; [done|]. intros Hmax. pose proof (incr_step now key st' (n + Z.of_nat m) exp H) as Hs.
  rewrite Hmax, Z.eqb_refl in Hs. apply Hs. done.
Qed.

Lemma incr_counts_witness :
  let st := mkStore {[ bs "c" := mkEntry (VString (bs "-2")) None ]} 0 ∅ in
  live 0 (bs "c") (incr_times 3 0 (bs "c") st) = Some (mkEntry (VString (to_string 1)) None).
Proof.
  apply (incr_counts 0 (bs "c") (-2) None 3
    (mkStore {[ bs "c" := mkEntry (VString (bs "-2")) None ]} 0 ∅)).
  - vm_compute. reflexivity.
  - done.
  - done.
Defined.

(** C11: the sorted set refines a map from members to scores: ZADD with a score that is
    not a NaN updates one score and reports whether the member is new, ZREM deletes it and reports
    whether it was there, ZSCORE and ZCARD read the map, and ZRANK counts the
    members with a smaller (score, member) pair. *)
Theorem zset_refines_map (now : Z) (key m : bytes) (s : double) (st : Store) :
  is_nan s = false -> data_wf (data_ st) ->
  let z := zset_at now key st in
  zscores (zset_at now key (zadd now key s m st).1) = <[m := s]> (zscores z)
  /\ (zadd now key s m st).2 = (if zscores z !! m then 0 else 1)
  /\ zscores (zset_at now key (zrem now key m st).1) = delete m (zscores z)
  /\ (zrem now key m st).2 = (if zscores z !! m then 1 else 0)
  /\ (zscore now key m st).2 = zscores z !! m
  /\ (zcard now key st).2 = Z.of_nat (size (zscores z))
  /\ (zrank now key m st).2
     = (fun sc => zlen (filter (fun e => elt_lt e (sc, m)) (entries z))) <$> zscores z !! m.
Proof.
  intros Hs Hwf z. pose proof (zset_at_wf now key st Hwf) as Hz. fold z in Hz.
  assert (Hscm : forall a b : Z, (if zscores z !! m then a else b)
                                 = if member_scores z !! m then a else b).
  { intros. unfold zscores. rewrite lookup_fmap. by destruct (member_scores z !! m). }
  rewrite !Hscm. pose proof (zadd_live now key s m st Hs Hz) as [? ?].
  pose proof (zrem_live now key m st Hz) as [? ?].
  pose proof (zread_live now key m st Hz) as (? & ? & ?). by split_and!.
Qed.

Lemma zset_refines_map_witness :
  (zadd 0 (bs "z") (S754_zero false) (bs "m") stream_example).2 = 1
  /\ zscores (zset_at 0 (bs "z") (zadd 0 (bs "z") (S754_zero false) (bs "m") stream_example).1)
     = <[bs "m" := S754_zero false]> (zscores (zset_at 0 (bs "z") stream_example)).
Proof.
  destruct (zset_refines_map 0 (bs "z") (bs "m") (S754_zero false) stream_example eq_refl stream_example_wf)
    as (H1 & H2 & _).
  split; [rewrite H2; vm_compute; reflexivity|exact H1].
Defined.
