(* ===== verification/BlockingManager.v ===== *)
(** * Clients blocked on a list or a stream (blocking_manager/)

    One FIFO queue of waiting clients per key, and an index from a descriptor
    to its node in a queue.  The code keeps [std::list] iterators in the index;
    here every node carries a number that is never reused, so that an iterator
    to an erased node can be told from a valid one. *)

From S2P Require Import Prelude Text StreamIds RespCodec.

Record BlockedClient := mkBlockedClient {
  bc_fd : Z;
  bc_key : bytes;
  deadline : Z;
  last_id : StreamId
}.

(** [steady_clock::time_point::max()]. *)
Definition is_indefinite (c : BlockedClient) : bool := deadline c =? INT64_MAX.

Abbreviation queue := (list (Z * BlockedClient)).

Record BlockingManager := mkBlockingManager {
  blocked_clients_ : gmap bytes queue;
  fd_to_client_ : gmap Z Z;
  next_node : Z
}.

Definition empty_blocking : BlockingManager := mkBlockingManager ∅ ∅ 0.

(** Adding milliseconds to a time point: both steps are signed. *)
Definition deadline_after (now timeout : Z) : outcome Z :=
  if timeout =? 0 then Ret INT64_MAX
  else ns ← int64_of (timeout * 1000000); int64_of (now + ns).

Definition block_client_for_stream (now fd : Z) (key : bytes) (last : StreamId) (timeout : Z)
    (bm : BlockingManager) : outcome BlockingManager :=
  d ← deadline_after now timeout;
  let client := mkBlockedClient fd key d last in
  let n := next_node bm in
  Ret (mkBlockingManager
         (<[key := default [] (blocked_clients_ bm !! key) ++ [(n, client)]]> (blocked_clients_ bm))
         (<[fd := n]> (fd_to_client_ bm)) (n + 1)).

Definition block_client (now fd : Z) (key : bytes) (timeout : Z) (bm : BlockingManager)
  : outcome BlockingManager :=
  block_client_for_stream now fd key (mkStreamId 0 0) timeout bm.

(** What is left of a queue after an erase: an empty queue is erased too. *)
Definition put_queue (key : bytes) (q : queue) (m : gmap bytes queue) : gmap bytes queue :=
  match q with
  | [] => delete key m
  | _ => <[key := q]> m
  end.

Definition wake_client (key : bytes) (bm : BlockingManager)
  : BlockingManager * option BlockedClient :=
  match blocked_clients_ bm !! key with
  | Some ((_, client) :: q) =>
      (mkBlockingManager (put_queue key q (blocked_clients_ bm))
         (delete (bc_fd client) (fd_to_client_ bm)) (next_node bm), Some client)
  | _ => (bm, None)
  end.

(** The loop over the queue: the first client the new entry is news for, and the
    queue without it. *)
Fixpoint extract_reader (new_sid : StreamId) (q : queue) : option (BlockedClient * queue) :=
  match q with
  | [] => None
  | (n, client) :: q =>
      if sid_ltb (last_id client) new_sid then Some (client, q)
      else (fun r => (r.1, (n, client) :: r.2)) <$> extract_reader new_sid q
  end.

Definition wake_client_for_stream (key new_entry_id : bytes) (bm : BlockingManager)
  : BlockingManager * option BlockedClient :=
  match blocked_clients_ bm !! key with
  | None | Some [] => (bm, None)
  | Some q =>
      match sid_parse new_entry_id with
      | None => (bm, None)
      | Some new_sid =>
          match extract_reader new_sid q with
          | None => (bm, None)
          | Some (client, q') =>
              (mkBlockingManager (put_queue key q' (blocked_clients_ bm))
                 (delete (bc_fd client) (fd_to_client_ bm)) (next_node bm), Some client)
          end
      end
  end.

Definition is_overdue (now : Z) (c : BlockedClient) : bool :=
  negb (is_indefinite c) && (deadline c <=? now).

(** The order in which the queues are visited is that of a hash map; the model
    takes the order of [map_to_list]. *)
Definition get_expired_clients (now : Z) (bm : BlockingManager) : BlockingManager * list Z :=
  let expired :=
    mjoin ((fun kq : bytes * queue => bc_fd <$> filter (fun c => is_overdue now c) (snd <$> kq.2))
              <$> map_to_list (blocked_clients_ bm)) in
  (mkBlockingManager
     (omap (fun q : queue => match filter (fun x => is_overdue now x.2 = false) q with
                             | [] => None
                             | q' => Some q'
                             end) (blocked_clients_ bm))
     (foldr delete (fd_to_client_ bm) expired) (next_node bm), expired).

(** The node an iterator points to, when it has not been erased. *)
Definition all_nodes (bm : BlockingManager) : queue :=
  mjoin (snd <$> map_to_list (blocked_clients_ bm)).

Definition node_client (n : Z) (bm : BlockingManager) : option BlockedClient :=
  snd <$> head (filter (fun x => x.1 = n) (all_nodes bm)).

Definition unblock_client (fd : Z) (bm : BlockingManager) : outcome BlockingManager :=
  match fd_to_client_ bm !! fd with
  | None => Ret bm
  | Some n =>
      match node_client n bm with
      | None => Ub DanglingIterator
      | Some c =>
          match blocked_clients_ bm !! bc_key c with
          | Some q =>
              if bool_decide (n ∈ (fst <$> q))
              then Ret (mkBlockingManager
                          (put_queue (bc_key c) (filter (fun x => x.1 <> n) q) (blocked_clients_ bm))
                          (delete fd (fd_to_client_ bm)) (next_node bm))
              else Ub DanglingIterator
          | None =>
              Ret (mkBlockingManager (blocked_clients_ bm) (delete fd (fd_to_client_ bm)) (next_node bm))
          end
      end
  end.

Definition earlier (earliest : option Z) (c : BlockedClient) : option Z :=
  if is_indefinite c then earliest
  else match earliest with
       | Some d => if deadline c <? d then Some (deadline c) else earliest
       | None => Some (deadline c)
       end.

Definition get_next_deadline (bm : BlockingManager) : option Z :=
  fold_left earlier (snd <$> all_nodes bm) None.

Definition is_blocked (fd : Z) (bm : BlockingManager) : bool :=
  bool_decide (is_Some (fd_to_client_ bm !! fd)).

(** ** Invariant *)
Definition in_queue (bm : BlockingManager) (key : bytes) (n : Z) (c : BlockedClient) : Prop :=
  exists q, blocked_clients_ bm !! key = Some q /\ (n, c) ∈ q.

Record blocking_wf (bm : BlockingManager) : Prop := {
  bw_nonempty : forall key, blocked_clients_ bm !! key <> Some [];
  bw_nodup : forall key q, blocked_clients_ bm !! key = Some q -> NoDup (fst <$> q);
  bw_node : forall key n c, in_queue bm key n c -> bc_key c = key /\ n < next_node bm;
  bw_unique : forall key key' n c c', in_queue bm key n c -> in_queue bm key' n c' -> key = key';
  bw_index : forall fd n, fd_to_client_ bm !! fd = Some n ->
    exists key c, in_queue bm key n c /\ bc_fd c = fd
}.

(** Every waiting client is the one its descriptor's index entry points to. *)
Definition indexed (bm : BlockingManager) : Prop :=
  forall key n c, in_queue bm key n c -> fd_to_client_ bm !! bc_fd c = Some n.

(** What the manager promises: who waits for a key, first come first. *)
Definition waiting (key : bytes) (bm : BlockingManager) : list BlockedClient :=
  snd <$> default [] (blocked_clients_ bm !! key).

(** One call of the interface. *)
Inductive bm_step : BlockingManager -> BlockingManager -> Prop :=
| step_block bm now fd key last timeout bm' :
    block_client_for_stream now fd key last timeout bm = Ret bm' -> bm_step bm bm'
| step_wake bm key : bm_step bm (wake_client key bm).1
| step_wake_stream bm key id : bm_step bm (wake_client_for_stream key id bm).1
| step_expired bm now : bm_step bm (get_expired_clients now bm).1
| step_unblock bm fd bm' : unblock_client fd bm = Ret bm' -> bm_step bm bm'.

(** ** Every removal is the same pruning of the queues *)
Definition prune (keep : Z * BlockedClient -> bool) (m : gmap bytes queue) : gmap bytes queue :=
  omap (fun q : queue => match filter (fun x => keep x = true) q with
                         | [] => None
                         | q' => Some q'
                         end) m.

Lemma prune_lookup keep m key q' :
  prune keep m !! key = Some q' <->
  exists q, m !! key = Some q /\ q' = filter (fun x => keep x = true) q /\ q' <> [].
Proof.
  unfold prune. rewrite lookup_omap. destruct (m !! key) as [q|]; simpl.
  - destruct (filter _ q) eqn:E; split.
    + done.
    + intros (q0 & [= <-] & -> & Hne). congruence.
    + intros [= <-]. exists q. split_and!; congruence.
    + intros (q0 & [= <-] & -> & _). congruence.
  - split; [done|]. by intros (q0 & ? & _).
Qed.

Lemma in_queue_fun bm key key' n c c' :
  blocking_wf bm -> in_queue bm key n c -> in_queue bm key' n c' -> key = key' /\ c = c'.
Proof.
  intros Hwf H1 H2. assert (key = key') as <- by eauto using bw_unique. split; [done|].
  destruct H1 as (q & Hq & Hin), H2 as (q2 & Hq2 & Hin2). simplify_eq.
  pose proof (bw_nodup _ Hwf _ _ Hq) as Hnd.
  apply list_elem_of_lookup in Hin as [i Hi], Hin2 as [j Hj].
  assert (i = j) as <-; [|congruence].
  eapply NoDup_lookup; [exact Hnd|rewrite list_lookup_fmap, Hi; done|by rewrite list_lookup_fmap, Hj].
Qed.

(** [bm'] is [bm] without the clients [keep] rejects, whose descriptors are [fds]. *)
Record removal (keep : Z * BlockedClient -> bool) (fds : list Z) (bm bm' : BlockingManager) : Prop := {
  rm_queues : blocked_clients_ bm' = prune keep (blocked_clients_ bm);
  rm_index : fd_to_client_ bm' = foldr delete (fd_to_client_ bm) fds;
  rm_next : next_node bm' = next_node bm;
  rm_fds : forall fd, fd ∈ fds <->
    exists key n c, in_queue bm key n c /\ keep (n, c) = false /\ bc_fd c = fd
}.

Lemma foldr_delete_Some (m : gmap Z Z) l k v :
  foldr delete m l !! k = Some v <-> k ∉ l /\ m !! k = Some v.
Proof.
  induction l as [|x l IH]; simpl; [set_solver|].
  rewrite lookup_delete_Some, IH. set_solver.
Qed.

Lemma removal_in_queue keep fds bm bm' key n c :
  removal keep fds bm bm' ->
  in_queue bm' key n c <-> in_queue bm key n c /\ keep (n, c) = true.
Proof.
  intros H. unfold in_queue. rewrite (rm_queues _ _ _ _ H). setoid_rewrite prune_lookup. split.
  - intros (q' & (q & Hq & -> & _) & [Hk Hin]%list_elem_of_filter). eauto.
  - intros [(q & Hq & Hin) Hk]. exists (filter (fun x => keep x = true) q).
    assert ((n, c) ∈ filter (fun x => keep x = true) q) by (by apply list_elem_of_filter).
    split; [|done]. exists q. split_and!; [done..|]. intros E. rewrite E in *. set_solver.
Qed.

Lemma removal_wf keep fds bm bm' :
  removal keep fds bm bm' -> blocking_wf bm -> blocking_wf bm'.
Proof.
  intros H Hwf. pose proof (removal_in_queue keep fds bm bm') as Hin. split.
  - intros key Hq. rewrite (rm_queues _ _ _ _ H) in Hq. by apply prune_lookup in Hq as (? & ? & ? & ?).
  - intros key q Hq. rewrite (rm_queues _ _ _ _ H) in Hq. apply prune_lookup in Hq as (q0 & Hq & -> & _).
    apply (bw_nodup _ Hwf) in Hq. eapply sublist_NoDup; [done|].
    apply fmap_sublist, sublist_filter.
  - intros key n c [? _]%Hin; [|done]. rewrite (rm_next _ _ _ _ H). by apply bw_node.
  - intros key key' n c c' [? _]%Hin [? _]%Hin; try done. by eapply bw_unique.
  - intros fd n Hfd. rewrite (rm_index _ _ _ _ H) in Hfd.
    apply foldr_delete_Some in Hfd as [Hnin Hfd].
    destruct (bw_index _ Hwf _ _ Hfd) as (key & c & Hq & Hc). exists key, c. split; [|done].
    apply Hin; [done|]. split; [done|]. apply not_false_is_true. intros Hk. apply Hnin.
    rewrite (rm_fds _ _ _ _ H). eauto 10.
Qed.

Lemma removal_indexed keep fds bm bm' :
  removal keep fds bm bm' -> blocking_wf bm -> indexed bm -> indexed bm'.
Proof.
  intros H Hwf Hix key n c Hq. apply (removal_in_queue _ _ _ _ _ _ _ H) in Hq as [Hq Hk].
  rewrite (rm_index _ _ _ _ H). apply foldr_delete_Some. split; [|by eapply Hix].
  rewrite (rm_fds _ _ _ _ H). intros (key' & n' & c' & Hq' & Hk' & Hfd).
  apply Hix in Hq as Hn. apply Hix in Hq' as Hn'. rewrite Hfd in Hn'.
  assert (n' = n) as -> by congruence.
  destruct (in_queue_fun bm key key' n c c' Hwf Hq Hq') as [_ <-]. congruence.
Qed.

Lemma removal_waiting keep fds bm bm' key :
  removal keep fds bm bm' ->
  waiting key bm'
  = snd <$> filter (fun x => keep x = true) (default [] (blocked_clients_ bm !! key)).
Proof.
  intros H. unfold waiting. rewrite (rm_queues _ _ _ _ H). unfold prune. rewrite lookup_omap.
  destruct (blocked_clients_ bm !! key) as [q|]; [|done]. simpl. by destruct (filter _ q).
Qed.

(** Erasing one node of the queue of [key]. *)
Lemma put_queue_prune bm key q n c :
  blocking_wf bm -> blocked_clients_ bm !! key = Some q -> (n, c) ∈ q ->
  put_queue key (filter (fun x => x.1 <> n) q) (blocked_clients_ bm)
  = prune (fun x => bool_decide (x.1 <> n)) (blocked_clients_ bm).
Proof.
  intros Hwf Hq Hin. apply map_eq. intros key'. unfold prune. rewrite lookup_omap.
  assert (Hf : forall q, filter (fun x : Z * BlockedClient => bool_decide (x.1 <> n) = true) q
                         = filter (fun x => x.1 <> n) q)
    by (intros; apply list_filter_iff; intros; by rewrite bool_decide_eq_true).
  destruct (decide (key = key')) as [<-|Hne].
  - rewrite Hq; simpl. rewrite Hf. destruct (filter _ q) eqn:E; simpl;
      [apply lookup_delete_eq|apply lookup_insert_eq].
  - assert (Hl : put_queue key (filter (fun x => x.1 <> n) q) (blocked_clients_ bm) !! key'
                 = blocked_clients_ bm !! key').
    { unfold put_queue. destruct (filter _ q); by rewrite ?lookup_delete_ne, ?lookup_insert_ne. }
    rewrite Hl. destruct (blocked_clients_ bm !! key') as [q'|] eqn:E; simpl; [|done].
    rewrite Hf, list_filter_all.
    + destruct q' eqn:?; [|done]. by destruct (bw_nonempty _ Hwf key').
    + intros [n' c'] Hin' Heq. simpl in Heq. subst n'. apply Hne.
      apply (bw_unique _ Hwf key key' n c c'); eexists; eauto.
Qed.

Lemma removal_one bm key q n c :
  blocking_wf bm -> blocked_clients_ bm !! key = Some q -> (n, c) ∈ q ->
  removal (fun x => bool_decide (x.1 <> n)) [bc_fd c] bm
    (mkBlockingManager (put_queue key (filter (fun x => x.1 <> n) q) (blocked_clients_ bm))
       (delete (bc_fd c) (fd_to_client_ bm)) (next_node bm)).
Proof.
  intros Hwf Hq Hin. split; [by eapply put_queue_prune|done..|]. intros fd.
  rewrite list_elem_of_singleton. split.
  - intros ->. exists key, n, c. split_and!; [by exists q|by apply bool_decide_eq_false; naive_solver|done].
  - intros (key' & n' & c' & Hq' & Hn & <-). apply bool_decide_eq_false in Hn.
    assert (n' = n) as -> by (simpl in Hn; lia).
    destruct (in_queue_fun bm key key' n c c') as [_ <-]; [done|by exists q|done|done].
Qed.

(** A queue without its only node of that number. *)
Lemma filter_middle (q1 q2 : queue) n c :
  NoDup (fst <$> q1 ++ (n, c) :: q2) ->
  filter (fun x => x.1 <> n) (q1 ++ (n, c) :: q2) = q1 ++ q2.
Proof.
  rewrite fmap_app, fmap_cons. intros (_ & Hd & Hq2)%NoDup_app.
  apply NoDup_cons in Hq2 as [Hq2 _]. rewrite filter_app, filter_cons_False by (simpl; tauto).
  f_equal; apply list_filter_all; intros [m x] Hin Heq; simpl in Heq; subst m.
  - apply (Hd n); [apply list_elem_of_fmap; by exists (n, x)|set_solver].
  - apply Hq2, list_elem_of_fmap. by exists (n, x).
Qed.

Lemma extract_reader_spec sid q c q' :
  extract_reader sid q = Some (c, q') ->
  exists q1 n q2, q = q1 ++ (n, c) :: q2 /\ q' = q1 ++ q2
    /\ sid_lt (last_id c) sid /\ Forall (fun x => ~ sid_lt (last_id x.2) sid) q1.
Proof.
  revert q'. induction q as [|[n x] q IH]; intros q'; simpl; [done|].
  destruct (sid_ltb (last_id x) sid) eqn:E.
  - intros [= <- <-]. exists [], n, q. split_and!; [done..|by apply sid_ltb_lt|done].
  - destruct (extract_reader sid q) as [[c0 q0]|]; simpl; [|done]. intros [= <- <-].
    destruct (IH _ eq_refl) as (q1 & m & q2 & -> & -> & Hc & Hq1).
    exists ((n, x) :: q1), m, q2. split_and!; [done..|]. constructor; [|done]. simpl.
    rewrite <- sid_ltb_lt. by rewrite E.
Qed.

Lemma extract_reader_None sid q :
  extract_reader sid q = None -> Forall (fun x => ~ sid_lt (last_id x.2) sid) q.
Proof.
  induction q as [|[n x] q IH]; simpl; [by constructor|].
  destruct (sid_ltb (last_id x) sid) eqn:E; [done|].
  destruct (extract_reader sid q); [done|]. intros _. constructor; [|by apply IH].
  simpl. rewrite <- sid_ltb_lt. by rewrite E.
Qed.

(** The three calls that take one client out do so by [removal_one]. *)
Lemma wake_client_removal key bm bm' r :
  blocking_wf bm -> wake_client key bm = (bm', r) ->
  match r with
  | Some c => exists n q, blocked_clients_ bm !! key = Some ((n, c) :: q)
                /\ removal (fun x => bool_decide (x.1 <> n)) [bc_fd c] bm bm'
  | None => bm' = bm /\ waiting key bm = []
  end.
Proof.
  intros Hwf. unfold wake_client, waiting.
  destruct (blocked_clients_ bm !! key) as [[|[n c] q]|] eqn:E; intros [= <- <-]; try done.
  exists n, q. split; [done|]. pose proof (bw_nodup _ Hwf _ _ E) as Hnd.
  replace q with (filter (fun x => x.1 <> n) ((n, c) :: q)) by exact (filter_middle [] q n c Hnd).
  apply removal_one; [done..|set_solver].
Qed.

Lemma wake_stream_removal key id bm bm' r :
  blocking_wf bm -> wake_client_for_stream key id bm = (bm', r) ->
  match r with
  | Some c => exists sid n q1 q2, sid_parse id = Some sid /\ sid_lt (last_id c) sid
                /\ blocked_clients_ bm !! key = Some (q1 ++ (n, c) :: q2)
                /\ Forall (fun x => ~ sid_lt (last_id x.2) sid) q1
                /\ removal (fun x => bool_decide (x.1 <> n)) [bc_fd c] bm bm'
  | None => bm' = bm /\ (forall sid, sid_parse id = Some sid ->
              Forall (fun c => ~ sid_lt (last_id c) sid) (waiting key bm))
  end.
Proof.
  intros Hwf. unfold wake_client_for_stream, waiting.
  destruct (blocked_clients_ bm !! key) as [[|x q]|] eqn:E; [intros [= <- <-]; done| |intros [= <- <-]; done].
  destruct (sid_parse id) as [sid|]; [|intros [= <- <-]; done].
  destruct (extract_reader sid (x :: q)) as [[c q']|] eqn:Ex; intros [= <- <-].
  - apply extract_reader_spec in Ex as (q1 & n & q2 & Hq & -> & Hc & Hq1).
    exists sid, n, q1, q2. rewrite Hq in E |- *. split_and!; [done..|].
    pose proof (bw_nodup _ Hwf _ _ E) as Hnd. rewrite <- (filter_middle q1 q2 n c Hnd).
    apply removal_one; [done..|set_solver].
  - split; [done|]. intros ? [= <-]. apply extract_reader_None in Ex.
    by apply Forall_fmap.
Qed.

Lemma in_all_nodes bm n c : (n, c) ∈ all_nodes bm <-> exists key, in_queue bm key n c.
Proof.
  unfold all_nodes, in_queue. rewrite list_elem_of_join. split.
  - intros (q & Hin & [[key q'] [-> Hk%elem_of_map_to_list]]%list_elem_of_fmap). eauto.
  - intros (key & q & Hq & Hin). exists q. split; [done|].
    apply list_elem_of_fmap. exists (key, q). split; [done|]. by apply elem_of_map_to_list.
Qed.

Lemma node_client_in bm key n c :
  blocking_wf bm -> in_queue bm key n c -> node_client n bm = Some c.
Proof.
  intros Hwf Hq. unfold node_client.
  assert (Hin : (n, c) ∈ filter (fun x => x.1 = n) (all_nodes bm))
    by (apply list_elem_of_filter; split; [done|]; apply in_all_nodes; eauto).
  destruct (filter _ (all_nodes bm)) as [|[n' c'] l] eqn:E; [set_solver|]. simpl.
  assert (Hin' : (n', c') ∈ filter (fun x => x.1 = n) (all_nodes bm)) by (rewrite E; left).
  apply list_elem_of_filter in Hin' as [Hn Hin']. simpl in Hn. subst n'.
  apply in_all_nodes in Hin' as [key' Hq'].
  destruct (in_queue_fun bm key key' n c c' Hwf Hq Hq') as [_ <-]. done.
Qed.

Lemma unblock_removal fd bm :
  blocking_wf bm ->
  match fd_to_client_ bm !! fd with
  | None => unblock_client fd bm = Ret bm
  | Some n => exists key c bm', in_queue bm key n c /\ bc_fd c = fd
      /\ unblock_client fd bm = Ret bm'
      /\ removal (fun x => bool_decide (x.1 <> n)) [fd] bm bm'
  end.
Proof.
  intros Hwf. unfold unblock_client. destruct (fd_to_client_ bm !! fd) as [n|] eqn:E; [|done].
  destruct (bw_index _ Hwf _ _ E) as (key & c & Hq & Hfd). exists key, c.
  destruct (bw_node _ Hwf _ _ _ Hq) as [Hk _].
  rewrite (node_client_in bm key n c Hwf Hq), Hk. destruct Hq as (q & Hq & Hin). rewrite Hq.
  rewrite bool_decide_eq_true_2 by (apply list_elem_of_fmap; by exists (n, c)).
  eexists. split_and!; [by exists q|done..|]. rewrite <- Hfd. by apply removal_one.
Qed.

Lemma expired_removal now bm :
  removal (fun x => negb (is_overdue now x.2)) (get_expired_clients now bm).2 bm
    (get_expired_clients now bm).1.
Proof.
  split; [|done..|].
  - apply map_eq. intros key. unfold prune, get_expired_clients; cbn [fst blocked_clients_].
    rewrite !lookup_omap. destruct (blocked_clients_ bm !! key) as [q|]; simpl; [|done].
    rewrite (list_filter_iff (fun x => is_overdue now x.2 = false)
      (fun x : Z * BlockedClient => negb (is_overdue now x.2) = true)); [done|].
    intros. symmetry. apply negb_true_iff.
  - intros fd. simpl. rewrite list_elem_of_join. split.
    + intros (l & Hfd & [[key q] [-> Hq%elem_of_map_to_list]]%list_elem_of_fmap).
      apply list_elem_of_fmap in Hfd as (c & -> & [Ho Hc]%list_elem_of_filter).
      apply list_elem_of_fmap in Hc as ([n c'] & -> & Hin). exists key, n, c'.
      split_and!; [by exists q| |done]. simpl in *. by destruct (is_overdue now c').
    + intros (key & n & c & (q & Hq & Hin) & Ho & <-).
      exists (bc_fd <$> filter (fun c => is_overdue now c) (snd <$> q)). split.
      * apply list_elem_of_fmap. exists c. split; [done|]. apply list_elem_of_filter.
        split; [simpl in Ho; by destruct (is_overdue now c)|].
        apply list_elem_of_fmap. by exists (n, c).
      * apply list_elem_of_fmap. exists (key, q). split; [done|]. by apply elem_of_map_to_list.
Qed.

Lemma block_in_queue now fd key last timeout bm bm' key' n c :
  block_client_for_stream now fd key last timeout bm = Ret bm' ->
  in_queue bm' key' n c <->
  in_queue bm key' n c
  \/ (key' = key /\ n = next_node bm /\ exists d, c = mkBlockedClient fd key d last
       /\ deadline_after now timeout = Ret d).
Proof.
  unfold block_client_for_stream. destruct (deadline_after now timeout) as [d| |]; simpl; [|done..].
  intros [= <-]. unfold in_queue; simpl. destruct (decide (key = key')) as [<-|Hne].
  - rewrite lookup_insert_eq. split.
    + intros (q & [= <-] & [Hin|Hin]%elem_of_app).
      * left. destruct (blocked_clients_ bm !! key) as [q|]; [by exists q|set_solver].
      * apply list_elem_of_singleton in Hin as [= -> ->]. right. eauto.
    + intros H. eexists. split; [done|]. apply elem_of_app. destruct H as [(q & -> & Hin)|(_ & -> & d' & -> & [= <-])].
      * by left.
      * right. set_solver.
  - rewrite lookup_insert_ne by done. split; [by left|]. intros [H|[-> _]]; done.
Qed.

Lemma block_wf now fd key last timeout bm bm' :
  blocking_wf bm -> block_client_for_stream now fd key last timeout bm = Ret bm' -> blocking_wf bm'.
Proof.
  intros Hwf H.
  assert (Hin := fun k n c => block_in_queue now fd key last timeout bm bm' k n c H).
  assert (Hlt : forall k c, ~ in_queue bm k (next_node bm) c).
  { intros k c Hq. apply (bw_node _ Hwf) in Hq. lia. }
  assert (Hbm : exists d, bm' = mkBlockingManager
    (<[key := default [] (blocked_clients_ bm !! key) ++ [(next_node bm, mkBlockedClient fd key d last)]]>
       (blocked_clients_ bm)) (<[fd := next_node bm]> (fd_to_client_ bm)) (next_node bm + 1)
    /\ deadline_after now timeout = Ret d).
  { unfold block_client_for_stream in H. destruct (deadline_after _ _) as [d| |]; [|done..].
    injection H as <-. by exists d. }
  destruct Hbm as (d & Hbm & Hd). split.
  - intros k. rewrite Hbm; simpl. destruct (decide (key = k)) as [<-|Hne].
    + rewrite lookup_insert_eq. intros [= E]. by destruct (default [] _).
    + rewrite lookup_insert_ne by done. by apply bw_nonempty.
  - intros k q. rewrite Hbm; simpl. destruct (decide (key = k)) as [<-|Hne].
    + rewrite lookup_insert_eq. intros [= <-]. rewrite fmap_app. apply NoDup_app. split_and!.
      * destruct (blocked_clients_ bm !! key) as [q|] eqn:E; [by eapply bw_nodup|constructor].
      * intros n Hn%list_elem_of_fmap Heq%list_elem_of_singleton. simpl in Heq. subst n.
        destruct Hn as ([n c] & Heq & Hn). simpl in Heq. subst n.
        destruct (blocked_clients_ bm !! key) as [q|] eqn:E; [|set_solver].
        apply (Hlt key c). by exists q.
      * apply NoDup_singleton.
    + rewrite lookup_insert_ne by done. by apply bw_nodup.
  - intros k n c. rewrite Hin, Hbm; simpl. intros [Hq|(-> & -> & d' & -> & _)]; [|split; [done|lia]].
    apply (bw_node _ Hwf) in Hq. split; [tauto|lia].
  - intros k k' n c c'. rewrite !Hin. intros [Hq|(Hk & Hn & _)] [Hq'|(Hk' & Hn' & _)];
      [by eapply bw_unique|..|congruence]; subst n; [by destruct (Hlt _ _ Hq)|by destruct (Hlt _ _ Hq')].
  - intros f n. rewrite Hbm; simpl. destruct (decide (fd = f)) as [<-|Hne].
    + rewrite lookup_insert_eq. intros [= <-]. exists key, (mkBlockedClient fd key d last).
      rewrite <- Hbm. rewrite Hin. split; [|done]. right. eauto.
    + rewrite lookup_insert_ne by done. intros Hf.
      destruct (bw_index _ Hwf _ _ Hf) as (k & c & Hq & Hc). exists k, c. rewrite <- Hbm, Hin. auto.
Qed.

Lemma block_indexed now fd key last timeout bm bm' :
  blocking_wf bm -> indexed bm -> is_blocked fd bm = false ->
  block_client_for_stream now fd key last timeout bm = Ret bm' -> indexed bm'.
Proof.
  intros Hwf Hix Hfd H k n c. rewrite (block_in_queue _ _ _ _ _ _ _ _ _ _ H).
  unfold block_client_for_stream in H. destruct (deadline_after _ _) as [d| |]; [|done..].
  injection H as <-. simpl. unfold is_blocked in Hfd. b2p. intros [Hq|(-> & -> & d' & -> & _)].
  - apply Hix in Hq. rewrite lookup_insert_ne; [done|]. intros ->. by destruct Hfd.
  - apply lookup_insert_eq.
Qed.

Lemma bm_step_wf bm bm' : bm_step bm bm' -> blocking_wf bm -> blocking_wf bm'.
Proof.
  intros [] Hwf.
  - by eapply block_wf.
  - destruct (wake_client key bm0) as [bm1 [c|]] eqn:E; apply (wake_client_removal _ _ _ _ Hwf) in E; simpl.
    + destruct E as (? & ? & _ & ?). by eapply removal_wf.
    + by destruct E as [-> _].
  - destruct (wake_client_for_stream key id bm0) as [bm1 [c|]] eqn:E;
      apply (wake_stream_removal _ _ _ _ _ Hwf) in E; simpl.
    + destruct E as (? & ? & ? & ? & _ & _ & _ & _ & ?). by eapply removal_wf.
    + by destruct E as [-> _].
  - eapply removal_wf; [apply expired_removal|done].
  - pose proof (unblock_removal fd bm0 Hwf) as Hu.
    destruct (fd_to_client_ bm0 !! fd); [|congruence].
    destruct Hu as (? & ? & ? & _ & _ & Hu & ?). assert (bm'0 = x1) as -> by congruence.
    by eapply removal_wf.
Qed.

(** ** What the calls do to the queues *)
Lemma block_waiting now fd key last timeout bm bm' :
  block_client_for_stream now fd key last timeout bm = Ret bm' ->
  exists d, deadline_after now timeout = Ret d
    /\ forall k, waiting k bm'
         = waiting k bm ++ (if decide (k = key) then [mkBlockedClient fd key d last] else []).
Proof.
  unfold block_client_for_stream. destruct (deadline_after now timeout) as [d| |]; simpl; [|done..].
  intros [= <-]. exists d. split; [done|]. intros k. unfold waiting; simpl.
  destruct (decide (k = key)) as [->|Hne].
  - rewrite lookup_insert_eq; simpl. by rewrite fmap_app.
  - rewrite lookup_insert_ne by done. by rewrite app_nil_r.
Qed.

(** Taking one node out leaves the other queues alone. *)
Lemma removal_one_waiting bm bm' key q1 n c q2 :
  blocking_wf bm -> blocked_clients_ bm !! key = Some (q1 ++ (n, c) :: q2) ->
  removal (fun x => bool_decide (x.1 <> n)) [bc_fd c] bm bm' ->
  forall k, waiting k bm' = if decide (k = key) then snd <$> (q1 ++ q2) else waiting k bm.
Proof.
  intros Hwf Hq Hrm k. rewrite (removal_waiting _ _ _ _ k Hrm).
  rewrite (list_filter_iff _ (fun x : Z * BlockedClient => x.1 <> n))
    by (intros; by rewrite bool_decide_eq_true).
  destruct (decide (k = key)) as [->|Hne].
  - rewrite Hq; simpl. rewrite filter_middle; [done|]. by eapply bw_nodup.
  - unfold waiting. rewrite list_filter_all; [done|]. intros [n' c'] Hin Heq. simpl in Heq. subst n'.
    destruct (blocked_clients_ bm !! k) as [q|] eqn:E; [|set_solver]. apply Hne.
    apply (bw_unique _ Hwf k key n c' c); [by exists q|]. eexists. split; [done|]. set_solver.
Qed.

Lemma wake_waiting key bm :
  blocking_wf bm ->
  (wake_client key bm).2 = head (waiting key bm)
  /\ forall k, waiting k (wake_client key bm).1
       = if decide (k = key) then tail (waiting key bm) else waiting k bm.
Proof.
  intros Hwf. destruct (wake_client key bm) as [bm' [c|]] eqn:E;
    apply (wake_client_removal _ _ _ _ Hwf) in E; simpl.
  - destruct E as (n & q & Hq & Hrm).
    assert (Hw : waiting key bm = c :: (snd <$> q)) by (unfold waiting; by rewrite Hq).
    rewrite Hw. split; [done|]. exact (removal_one_waiting bm bm' key [] n c q Hwf Hq Hrm).
  - destruct E as [-> Hw]. rewrite Hw. split; [done|]. intros k. by case_decide; subst.
Qed.

Lemma wake_stream_waiting key id sid bm :
  blocking_wf bm -> sid_parse id = Some sid ->
  let w := waiting key bm in
  let (bm', r) := wake_client_for_stream key id bm in
  match r with
  | Some c => exists w1 w2, w = w1 ++ c :: w2 /\ sid_lt (last_id c) sid
      /\ Forall (fun c => ~ sid_lt (last_id c) sid) w1
      /\ forall k, waiting k bm' = if decide (k = key) then w1 ++ w2 else waiting k bm
  | None => Forall (fun c => ~ sid_lt (last_id c) sid) w /\ bm' = bm
  end.
Proof.
  intros Hwf Hsid w. destruct (wake_client_for_stream key id bm) as [bm' [c|]] eqn:E;
    apply (wake_stream_removal _ _ _ _ _ Hwf) in E.
  - destruct E as (sid' & n & q1 & q2 & Hs & Hc & Hq & Hq1 & Hrm). simplify_eq.
    exists (snd <$> q1), (snd <$> q2). split_and!; [|done|by apply Forall_fmap|].
    + unfold w, waiting. rewrite Hq; simpl. by rewrite fmap_app.
    + rewrite <- fmap_app. exact (removal_one_waiting bm bm' key q1 n c q2 Hwf Hq Hrm).
  - destruct E as [-> Hw]. auto.
Qed.

Lemma fmap_filter_snd (P : BlockedClient -> Prop) `{forall c, Decision (P c)} (q : queue) :
  snd <$> filter (fun x => P x.2) q = filter P (snd <$> q).
Proof.
  induction q as [|[n c] q IH]; [done|]. rewrite fmap_cons, !filter_cons. simpl.
  destruct (decide (P c)); [|done]. rewrite fmap_cons. by f_equal.
Qed.

Lemma in_waiting key bm c : c ∈ waiting key bm <-> exists n, in_queue bm key n c.
Proof.
  unfold waiting, in_queue. rewrite list_elem_of_fmap.
  destruct (blocked_clients_ bm !! key) as [q|]; simpl; split.
  - intros ([n x] & -> & Hin). eauto.
  - intros (n & q' & [= <-] & Hin). by exists (n, c).
  - intros (? & ? & Hin). set_solver.
  - by intros (? & ? & ? & _).
Qed.

Lemma unblock_waiting fd bm :
  blocking_wf bm -> indexed bm ->
  exists bm', unblock_client fd bm = Ret bm'
    /\ forall k, waiting k bm' = filter (fun c => bc_fd c <> fd) (waiting k bm).
Proof.
  intros Hwf Hix. pose proof (unblock_removal fd bm Hwf) as Hu.
  assert (Hfind : forall k n c, in_queue bm k n c -> bc_fd c = fd -> fd_to_client_ bm !! fd = Some n).
  { intros k n c Hq <-. by eapply Hix. }
  destruct (fd_to_client_ bm !! fd) as [n|] eqn:E.
  - destruct Hu as (key & c & bm' & Hq & Hfd & -> & Hrm). exists bm'. split; [done|].
    intros k. rewrite (removal_waiting _ _ _ _ k Hrm). unfold waiting. rewrite <- fmap_filter_snd.
    f_equal. apply list_filter_ext. intros [n' c'] Hin. rewrite bool_decide_eq_true. simpl.
    assert (Hq' : in_queue bm k n' c').
    { destruct (blocked_clients_ bm !! k) eqn:?; [eexists; eauto|set_solver]. }
    split; intros Hne Heq; apply Hne.
    + specialize (Hfind _ _ _ Hq' Heq). congruence.
    + subst n'. destruct (in_queue_fun bm key k n c c' Hwf Hq Hq') as [_ <-]. done.
  - exists bm. split; [done|]. intros k. rewrite list_filter_all; [done|].
    intros c [n Hq]%in_waiting Heq. specialize (Hfind _ _ _ Hq Heq). congruence.
Qed.

Lemma expired_waiting now bm k :
  waiting k (get_expired_clients now bm).1
  = filter (fun c => is_overdue now c = false) (waiting k bm).
Proof.
  rewrite (removal_waiting _ _ _ _ k (expired_removal now bm)). unfold waiting.
  rewrite <- fmap_filter_snd. f_equal. apply list_filter_iff. intros. apply negb_true_iff.
Qed.

(** ** Deadlines *)
Lemma fold_earlier l acc d :
  fold_left earlier l acc = Some d ->
  (acc = Some d \/ exists c, c ∈ l /\ is_indefinite c = false /\ deadline c = d)
  /\ (forall d', acc = Some d' -> d <= d')
  /\ (forall c, c ∈ l -> is_indefinite c = false -> d <= deadline c).
Proof.
  revert acc. induction l as [|c l IH]; intros acc; simpl.
  - intros ->. split_and!; [by left|intros ? [= <-]; lia|]. intros c Hc. set_solver.
  - intros (H1 & H2 & H3)%IH. unfold earlier in *. destruct (is_indefinite c) eqn:Ei.
    + split_and!; [|done|].
      * destruct H1 as [?|(x & ? & ?)]; [by left|right; exists x; set_solver].
      * intros x [->|Hx]%elem_of_cons; [congruence|by apply H3].
    + assert (Hc : d <= deadline c /\ forall d', acc = Some d' -> d <= d').
      { destruct acc as [a|]; [destruct (deadline c <? a) eqn:E; b2p|]; specialize (H2 _ eq_refl);
          (split; [lia|intros ? [= <-]; lia]) || (split; [lia|done]). }
      split_and!; [|tauto|].
      * destruct H1 as [H1|(x & ? & ?)]; [|right; exists x; set_solver].
        destruct acc as [a|]; [destruct (deadline c <? a)|]; simplify_eq; try (by left);
          right; exists c; set_solver.
      * intros x [->|Hx]%elem_of_cons; [tauto|auto].
Qed.

Lemma fold_earlier_None l acc :
  fold_left earlier l acc = None -> acc = None /\ forall c, c ∈ l -> is_indefinite c = true.
Proof.
  revert acc. induction l as [|c l IH]; intros acc; simpl; [intros ->; set_solver|].
  intros [H1 H2]%IH. unfold earlier in H1. destruct (is_indefinite c) eqn:E.
  - split; [done|]. intros x [->|?]%elem_of_cons; auto.
  - by destruct acc as [a|]; [destruct (deadline c <? a)|].
Qed.

Lemma in_all_waiting bm c : c ∈ (snd <$> all_nodes bm) <-> exists key, c ∈ waiting key bm.
Proof.
  rewrite list_elem_of_fmap. setoid_rewrite in_waiting. split.
  - intros ([n x] & -> & [key Hq]%in_all_nodes). eauto.
  - intros (key & n & Hq). exists (n, c). split; [done|]. apply in_all_nodes. eauto.
Qed.

Lemma is_blocked_waiting fd bm :
  blocking_wf bm -> indexed bm ->
  is_blocked fd bm = true <-> exists key c, c ∈ waiting key bm /\ bc_fd c = fd.
Proof.
  intros Hwf Hix. unfold is_blocked. rewrite bool_decide_eq_true. setoid_rewrite in_waiting. split.
  - intros [n Hn]. destruct (bw_index _ Hwf _ _ Hn) as (key & c & ? & ?). eauto 10.
  - intros (key & c & [n Hq] & <-). exists n. by eapply Hix.
Qed.

Lemma empty_blocking_ok : blocking_wf empty_blocking /\ indexed empty_blocking.
Proof.
  assert (Hin : forall key n c, ~ in_queue empty_blocking key n c).
  { intros key n c (q & Hq & _). simpl in Hq. by rewrite lookup_empty in Hq. }
  split; [split|]; [|
    |intros; by edestruct Hin|intros; by edestruct Hin| |intros ? ? ? H; by edestruct Hin].
  all: intros *; cbn [blocked_clients_ fd_to_client_ empty_blocking]; by rewrite lookup_empty.
Qed.

(** Two clients: descriptor 5 waits on a list without a limit, 6 on a stream. *)
Definition blocking_example : BlockingManager :=
  mkBlockingManager
    {[ bs "l" := [(0, mkBlockedClient 5 (bs "l") INT64_MAX (mkStreamId 0 0))];
       bs "s" := [(1, mkBlockedClient 6 (bs "s") 7000000 (mkStreamId 3 1))] ]}
    {[ 5 := 0; 6 := 1 ]} 2.

Lemma blocking_example_ok : blocking_wf blocking_example /\ indexed blocking_example.
Proof.
  destruct empty_blocking_ok as [H0 H1].
  assert (E1 : exists bm1, block_client_for_stream 0 5 (bs "l") (mkStreamId 0 0) 0 empty_blocking = Ret bm1
    /\ block_client_for_stream 0 6 (bs "s") (mkStreamId 3 1) 7 bm1 = Ret blocking_example
    /\ is_blocked 6 bm1 = false) by (eexists; split_and!; vm_compute; reflexivity).
  destruct E1 as (bm1 & E1 & E2 & Hb).
  assert (W1 : blocking_wf bm1) by (by eapply block_wf).
  assert (I1 : indexed bm1) by (eapply block_indexed; [exact H0|exact H1|reflexivity|exact E1]).
  split; [by eapply block_wf|by eapply block_indexed].
Qed.

(** * Properties *)

(** C30: whatever calls are made, in whatever order, also when a descriptor that
    waits already is blocked again, the descriptor index never holds an iterator
    to an erased node: a disconnect ([unblock_client]) has no undefined behaviour,
    and no empty queue is kept. *)
Theorem blocking_index_never_dangles (bm : BlockingManager) :
  rtc bm_step empty_blocking bm ->
  blocking_wf bm /\ forall fd, exists bm', unblock_client fd bm = Ret bm'.
Proof.
  intros H. assert (Hwf : blocking_wf bm).
  { pose proof empty_blocking_ok as [H0 _]. induction H; [done|]. eauto using bm_step_wf. }
  split; [done|]. intros fd. pose proof (unblock_removal fd bm Hwf) as Hu.
  destruct (fd_to_client_ bm !! fd); [|by eexists]. destruct Hu as (_ & _ & bm' & _ & _ & Hu & _).
  by exists bm'.
Qed.

(** One descriptor blocked twice, on two keys, and then woken on the first. *)
Definition double_block : outcome BlockingManager :=
  bm ← block_client 0 5 (bs "a") 0 empty_blocking;
  bm ← block_client 0 5 (bs "b") 0 bm;
  Ret (wake_client (bs "a") bm).1.

Lemma blocking_index_never_dangles_witness :
  exists bm, double_block = Ret bm /\ exists bm', unblock_client 5 bm = Ret bm'.
Proof.
  eexists. split; [vm_compute; reflexivity|]. apply blocking_index_never_dangles.
  eapply rtc_l; [apply (step_block _ 0 5 (bs "a") (mkStreamId 0 0) 0); vm_compute; reflexivity|].
  eapply rtc_l; [apply (step_block _ 0 5 (bs "b") (mkStreamId 0 0) 0); vm_compute; reflexivity|].
  eapply rtc_l; [apply (step_wake _ (bs "a"))|]. vm_compute. apply rtc_refl.
Defined.

(** C22: the manager implements one first-come-first-served queue per key: a block
    appends to the key's queue, a wake takes its head, a stream wake takes the
    first client whose identifier is smaller than the new one, and neither touches
    another key's queue; the queues stay the only record (index and queues agree)
    as long as a descriptor is not blocked twice. *)
Theorem blocking_queues_fifo (now fd timeout : Z) (key id : bytes) (last sid : StreamId)
    (bm : BlockingManager) :
  blocking_wf bm -> indexed bm -> sid_parse id = Some sid ->
  (forall bm', block_client_for_stream now fd key last timeout bm = Ret bm' ->
     (is_blocked fd bm = false -> indexed bm')
     /\ exists d, deadline_after now timeout = Ret d /\ forall k, waiting k bm'
        = waiting k bm ++ (if decide (k = key) then [mkBlockedClient fd key d last] else []))
  /\ (wake_client key bm).2 = head (waiting key bm)
  /\ (forall k, waiting k (wake_client key bm).1
        = if decide (k = key) then tail (waiting key bm) else waiting k bm)
  /\ match wake_client_for_stream key id bm with
     | (bm', Some c) => exists w1 w2, waiting key bm = w1 ++ c :: w2 /\ sid_lt (last_id c) sid
         /\ Forall (fun c => ~ sid_lt (last_id c) sid) w1
         /\ forall k, waiting k bm' = if decide (k = key) then w1 ++ w2 else waiting k bm
     | (bm', None) => Forall (fun c => ~ sid_lt (last_id c) sid) (waiting key bm) /\ bm' = bm
     end.
Proof.
  intros Hwf Hix Hsid. split_and!.
  - intros bm' H. split; [|by apply block_waiting]. intros. by eapply block_indexed.
  - by apply wake_waiting.
  - by apply wake_waiting.
  - pose proof (wake_stream_waiting key id sid bm Hwf Hsid) as H. simpl in H.
    by destruct (wake_client_for_stream key id bm) as [bm' [c|]].
Qed.

Lemma blocking_queues_fifo_witness :
  (wake_client (bs "l") blocking_example).2 = Some (mkBlockedClient 5 (bs "l") INT64_MAX (mkStreamId 0 0)).
Proof.
  destruct (blocking_queues_fifo 0 5 0 (bs "l") (bs "4-0") (mkStreamId 0 0) (mkStreamId 4 0)
    blocking_example (proj1 blocking_example_ok) (proj2 blocking_example_ok) eq_refl) as (_ & H & _).
  rewrite H. reflexivity.
Defined.

(** After a disconnect no queue holds the descriptor; the expiry pass returns
    descriptors of overdue clients only, removes every overdue client and keeps the
    order of the rest; and the next deadline is the earliest among the clients that
    have one, so that after the pass it lies in the future. *)
Theorem blocking_removals (now fd : Z) (bm : BlockingManager) :
  blocking_wf bm -> indexed bm ->
  (exists bm', unblock_client fd bm = Ret bm' /\ indexed bm'
     /\ forall k, waiting k bm' = filter (fun c => bc_fd c <> fd) (waiting k bm))
  /\ (let (bm', fds) := get_expired_clients now bm in
      indexed bm'
      /\ (forall k, waiting k bm' = filter (fun c => is_overdue now c = false) (waiting k bm))
      /\ (forall f, f ∈ fds <-> exists k c, c ∈ waiting k bm /\ is_overdue now c = true /\ bc_fd c = f)
      /\ (forall d, get_next_deadline bm' = Some d -> now < d))
  /\ match get_next_deadline bm with
     | Some d => (exists k c, c ∈ waiting k bm /\ is_indefinite c = false /\ deadline c = d)
         /\ forall k c, c ∈ waiting k bm -> is_indefinite c = false -> d <= deadline c
     | None => forall k c, c ∈ waiting k bm -> is_indefinite c = true
     end.
Proof.
  intros Hwf Hix. split_and!.
  - destruct (unblock_waiting fd bm Hwf Hix) as (bm' & Hu & Hw). exists bm'. split_and!; [done| |done].
    pose proof (unblock_removal fd bm Hwf) as H. destruct (fd_to_client_ bm !! fd) as [n|];
      [|assert (bm' = bm) as -> by congruence; done].
    destruct H as (? & ? & bm2 & _ & _ & Hu2 & Hrm). assert (bm2 = bm') as -> by congruence.
    by eapply removal_indexed.
  - pose proof (expired_removal now bm) as Hrm. pose proof (expired_waiting now bm) as Hw.
    destruct (get_expired_clients now bm) as [bm' fds]. simpl in Hrm, Hw.
    split_and!; [by eapply removal_indexed|done| |].
    + intros f. rewrite (rm_fds _ _ _ _ Hrm). setoid_rewrite in_waiting. split.
      * intros (k & n & c & Hq & Ho & <-). apply negb_false_iff in Ho. eauto 10.
      * intros (k & c & [n Hq] & Ho & <-). exists k, n, c. split_and!; [done|by apply negb_false_iff|done].
    + intros d ([Hd|(c & [k Hc]%in_all_waiting & Hi & <-)] & _)%fold_earlier; [done|].
      rewrite Hw in Hc. apply list_elem_of_filter in Hc as [Ho _]. unfold is_overdue in Ho.
      rewrite Hi in Ho. simpl in Ho. b2p. lia.
  - destruct (get_next_deadline bm) as [d|] eqn:E.
    + apply fold_earlier in E as ([Hd|(c & [k Hc]%in_all_waiting & ? & ?)] & _ & Hall); [done|].
      split; [eauto|]. intros k' c' Hc'. apply Hall. apply in_all_waiting. eauto.
    + apply fold_earlier_None in E as [_ Hall]. intros k c Hc. apply Hall, in_all_waiting. eauto.
Qed.

Lemma blocking_removals_witness :
  exists bm', unblock_client 6 blocking_example = Ret bm' /\ waiting (bs "s") bm' = [].
Proof.
  destruct (blocking_removals 0 6 blocking_example (proj1 blocking_example_ok)
    (proj2 blocking_example_ok)) as [(bm' & H1 & _ & H2) _].
  exists bm'. split; [exact H1|]. rewrite H2. reflexivity.
Defined.
