(* ===== verification/PubSub.v ===== *)
(** * Publish and subscribe (pubsub/pubsub_manager.hpp)

    Two maps that must mirror each other: the channels of a descriptor and the
    descriptors of a channel. *)

From S2P Require Import Prelude.

Record PubSubManager := mkPubSub {
  subscriptions_ : gmap Z (gset bytes);
  channel_subscribers_ : gmap bytes (gset Z)
}.

Definition empty_pubsub : PubSubManager := mkPubSub ∅ ∅.

(** [m[k]], which creates an empty set. *)
Definition set_at {K A} `{Countable K, Countable A} (m : gmap K (gset A)) (k : K) : gset A :=
  default ∅ (m !! k).

Definition subscribe (fd : Z) (channel : bytes) (ps : PubSubManager) : PubSubManager * Z :=
  let chans := set_at (subscriptions_ ps) fd ∪ {[ channel ]} in
  (mkPubSub (<[fd := chans]> (subscriptions_ ps))
     (<[channel := set_at (channel_subscribers_ ps) channel ∪ {[ fd ]}]> (channel_subscribers_ ps)),
   Z.of_nat (size chans)).

(** Erasing an element of the set at [k], and the set itself when it is empty. *)
Definition erase_member {K A} `{Countable K, Countable A} (k : K) (x : A) (m : gmap K (gset A))
  : gmap K (gset A) :=
  match m !! k with
  | Some s => if bool_decide (s ∖ {[ x ]} = ∅) then delete k m else <[k := s ∖ {[ x ]}]> m
  | None => m
  end.

(** [unsubscribe(fd, channel)]. *)
Definition unsubscribe (fd : Z) (channel : bytes) (ps : PubSubManager) : PubSubManager * Z :=
  match subscriptions_ ps !! fd with
  | None => (ps, 0)
  | Some chans =>
      let chans' := chans ∖ {[ channel ]} in
      (mkPubSub (if bool_decide (size chans' = 0%nat) then delete fd (subscriptions_ ps)
                 else <[fd := chans']> (subscriptions_ ps))
         (erase_member channel fd (channel_subscribers_ ps)),
       Z.of_nat (size chans'))
  end.

(** [unsubscribe(fd)], at a disconnect. *)
Definition unsubscribe_all (fd : Z) (ps : PubSubManager) : PubSubManager :=
  match subscriptions_ ps !! fd with
  | None => ps
  | Some chans =>
      mkPubSub (delete fd (subscriptions_ ps))
        (fold_left (fun m channel => erase_member channel fd m) (elements chans)
           (channel_subscribers_ ps))
  end.

Definition is_subscribed (fd : Z) (ps : PubSubManager) : bool :=
  match subscriptions_ ps !! fd with
  | Some chans => negb (bool_decide (chans = ∅))
  | None => false
  end.

Definition get_subscribers (channel : bytes) (ps : PubSubManager) : gset Z :=
  default ∅ (channel_subscribers_ ps !! channel).

(** ** The relation the two maps represent *)
Definition subscribed (fd : Z) (channel : bytes) (ps : PubSubManager) : Prop :=
  channel ∈ set_at (subscriptions_ ps) fd.

Record pubsub_wf (ps : PubSubManager) : Prop := {
  ps_mirror : forall fd channel,
    fd ∈ set_at (channel_subscribers_ ps) channel <-> channel ∈ set_at (subscriptions_ ps) fd;
  ps_fds : forall fd, subscriptions_ ps !! fd <> Some ∅;
  ps_channels : forall channel, channel_subscribers_ ps !! channel <> Some ∅
}.

Inductive ps_step : PubSubManager -> PubSubManager -> Prop :=
| step_subscribe ps fd channel : ps_step ps (subscribe fd channel ps).1
| step_unsubscribe ps fd channel : ps_step ps (unsubscribe fd channel ps).1
| step_disconnect ps fd : ps_step ps (unsubscribe_all fd ps).

(** ** Lemmas on maps of sets *)
Section maps.
  Context {K A : Type} `{Countable K, Countable A}.
  Implicit Type m : gmap K (gset A).

Definition no_empty m : Prop := forall k, m !! k <> Some ∅.

Lemma set_at_insert m k s k' :
  set_at (<[k := s]> m) k' = if decide (k = k') then s else set_at m k'.
Proof.
  unfold set_at. case_decide as E; [subst; by rewrite lookup_insert_eq|by rewrite lookup_insert_ne].
Qed.

Lemma set_at_delete m k k' :
  set_at (delete k m) k' = if decide (k = k') then ∅ else set_at m k'.
Proof.
  unfold set_at. case_decide as E; [subst; by rewrite lookup_delete_eq|by rewrite lookup_delete_ne].
Qed.

Lemma set_at_erase m k x k' :
  set_at (erase_member k x m) k' = if decide (k = k') then set_at m k ∖ {[ x ]} else set_at m k'.
Proof.
  unfold erase_member. destruct (m !! k) as [s|] eqn:E.
  - assert (Hs : set_at m k = s) by (unfold set_at; by rewrite E).
    rewrite Hs. case_bool_decide as Hd; rewrite ?set_at_delete, ?set_at_insert; case_decide; try done.
  - case_decide as Hk; [|done]. subst k'. unfold set_at. rewrite E. simpl. set_solver.
Qed.

Lemma no_empty_insert m k s : s <> ∅ -> no_empty m -> no_empty (<[k := s]> m).
Proof.
  intros Hs Hm k'. destruct (decide (k = k')) as [<-|];
    [rewrite lookup_insert_eq; congruence|by rewrite lookup_insert_ne].
Qed.

Lemma no_empty_delete m k : no_empty m -> no_empty (delete k m).
Proof.
  intros Hm k'. destruct (decide (k = k')) as [<-|];
    [by rewrite lookup_delete_eq|by rewrite lookup_delete_ne].
Qed.

Lemma no_empty_erase m k x : no_empty m -> no_empty (erase_member k x m).
Proof.
  intros Hm. unfold erase_member. destruct (m !! k); [|done].
  case_bool_decide; [by apply no_empty_delete|by apply no_empty_insert].
Qed.

Lemma erase_list_spec (x : A) (l : list K) m k :
  set_at (fold_left (fun m k => erase_member k x m) l m) k
  = if decide (k ∈ l) then set_at m k ∖ {[ x ]} else set_at m k.
Proof.
  revert m. induction l as [|k0 l IH]; intros m; cbn [fold_left].
  - rewrite decide_False by set_solver. done.
  - rewrite IH, set_at_erase. repeat case_decide; subst; set_solver.
Qed.

Lemma no_empty_erase_list (x : A) (l : list K) m :
  no_empty m -> no_empty (fold_left (fun m k => erase_member k x m) l m).
Proof. revert m. induction l; intros m Hm; simpl; [done|]. by apply IHl, no_empty_erase. Qed.
End maps.

#[export] Hint Resolve no_empty_insert no_empty_delete no_empty_erase no_empty_erase_list : credis.

(** ** Every call keeps the mirror *)
Lemma subscribe_wf fd channel ps : pubsub_wf ps -> pubsub_wf (subscribe fd channel ps).1.
Proof.
  intros [Hm Hf Hc]. split; simpl.
  - intros f c. rewrite !set_at_insert. specialize (Hm f c). repeat case_decide; subst; set_solver.
  - apply no_empty_insert; [set_solver|done].
  - apply no_empty_insert; [set_solver|done].
Qed.

Lemma set_at_remaining (fd : Z) (chans' : gset bytes) (m : gmap Z (gset bytes)) f :
  set_at (if bool_decide (size chans' = 0%nat) then delete fd m else <[fd := chans']> m) f
  = if decide (fd = f) then chans' else set_at m f.
Proof.
  case_bool_decide as Hs; rewrite ?set_at_delete, ?set_at_insert; [|done].
  apply size_empty_inv, leibniz_equiv in Hs. by subst.
Qed.

Lemma unsubscribe_wf fd channel ps : pubsub_wf ps -> pubsub_wf (unsubscribe fd channel ps).1.
Proof.
  intros [Hm Hf Hc]. unfold unsubscribe. destruct (subscriptions_ ps !! fd) as [chans|] eqn:E; [|done].
  assert (Hch : set_at (subscriptions_ ps) fd = chans) by (unfold set_at; by rewrite E).
  split; simpl.
  - intros f c. rewrite set_at_remaining, set_at_erase. specialize (Hm f c).
    pose proof (Hm). repeat case_decide; subst; set_solver.
  - case_bool_decide as Hs; [by apply no_empty_delete|]. apply no_empty_insert; [|done].
    intros E'. rewrite E' in Hs. by apply Hs, size_empty.
  - by apply no_empty_erase.
Qed.

Lemma unsubscribe_all_wf fd ps : pubsub_wf ps -> pubsub_wf (unsubscribe_all fd ps).
Proof.
  intros [Hm Hf Hc]. unfold unsubscribe_all.
  destruct (subscriptions_ ps !! fd) as [chans|] eqn:E; [|done].
  assert (Hch : set_at (subscriptions_ ps) fd = chans) by (unfold set_at; by rewrite E).
  split; simpl.
  - intros f c. rewrite erase_list_spec, set_at_delete. specialize (Hm f c).
    repeat case_decide; subst; set_solver.
  - by apply no_empty_delete.
  - by apply no_empty_erase_list.
Qed.

Lemma ps_step_wf ps ps' : ps_step ps ps' -> pubsub_wf ps -> pubsub_wf ps'.
Proof. intros [] ?; auto using subscribe_wf, unsubscribe_wf, unsubscribe_all_wf. Qed.

Lemma ps_reach_wf ps : rtc ps_step empty_pubsub ps -> pubsub_wf ps.
Proof.
  intros H. assert (H0 : pubsub_wf empty_pubsub).
  { split; intros *; simpl; rewrite ?lookup_empty; done || (unfold set_at; simpl; rewrite !lookup_empty; set_solver). }
  induction H; [done|]. eauto using ps_step_wf.
Qed.

Lemma unsubscribe_at fd channel ps f :
  set_at (subscriptions_ (unsubscribe fd channel ps).1) f
  = if decide (fd = f) then set_at (subscriptions_ ps) fd ∖ {[ channel ]} else set_at (subscriptions_ ps) f.
Proof.
  unfold unsubscribe. destruct (subscriptions_ ps !! fd) as [chans|] eqn:E; simpl.
  - rewrite set_at_remaining. case_decide; [|done]. unfold set_at. by rewrite E.
  - case_decide; [subst f|done]. unfold set_at. rewrite E. simpl. set_solver.
Qed.

Lemma is_subscribed_set fd ps :
  is_subscribed fd ps = negb (bool_decide (set_at (subscriptions_ ps) fd = ∅)).
Proof.
  unfold is_subscribed, set_at. destruct (subscriptions_ ps !! fd); simpl; [done|].
  by rewrite bool_decide_eq_true_2.
Qed.

Lemma unsubscribe_all_subscribed fd ps f c :
  subscribed f c (unsubscribe_all fd ps) <-> subscribed f c ps /\ f <> fd.
Proof.
  unfold subscribed, unsubscribe_all. destruct (subscriptions_ ps !! fd) eqn:E; simpl.
  - rewrite set_at_delete. case_decide; set_solver.
  - split; [|tauto]. intros Hc. split; [done|]. intros ->. unfold set_at in Hc.
    rewrite E in Hc. set_solver.
Qed.

(** * Properties *)

(** C31: in every state reached by subscribing, unsubscribing and disconnecting,
    the two maps describe one relation: a message published on a channel goes to
    exactly the descriptors subscribed to it.  SUBSCRIBE adds one pair,
    UNSUBSCRIBE removes one, a disconnect removes all the pairs of the descriptor;
    the reply is the number of channels the descriptor is then subscribed to, and
    a descriptor is in subscribed mode exactly while it has one. *)
Theorem pubsub_is_a_relation (ps : PubSubManager) (fd : Z) (channel : bytes) :
  rtc ps_step empty_pubsub ps ->
  (forall f c, f ∈ get_subscribers c ps <-> subscribed f c ps)
  /\ (forall f c, subscribed f c (subscribe fd channel ps).1
        <-> subscribed f c ps \/ (f = fd /\ c = channel))
  /\ (forall f c, subscribed f c (unsubscribe fd channel ps).1
        <-> subscribed f c ps /\ ~ (f = fd /\ c = channel))
  /\ (forall f c, subscribed f c (unsubscribe_all fd ps) <-> subscribed f c ps /\ f <> fd)
  /\ (subscribe fd channel ps).2
     = Z.of_nat (size (set_at (subscriptions_ (subscribe fd channel ps).1) fd))
  /\ (unsubscribe fd channel ps).2
     = Z.of_nat (size (set_at (subscriptions_ (unsubscribe fd channel ps).1) fd))
  /\ (is_subscribed fd ps = true <-> exists c, subscribed fd c ps).
Proof.
  intros Hwf%ps_reach_wf. unfold subscribed. split_and!.
  - intros. apply (ps_mirror _ Hwf).
  - intros. simpl. rewrite set_at_insert. case_decide; set_solver.
  - intros. rewrite unsubscribe_at. case_decide; set_solver.
  - apply unsubscribe_all_subscribed.
  - simpl. by rewrite set_at_insert, decide_True.
  - rewrite unsubscribe_at, decide_True by done. unfold unsubscribe, set_at.
    destruct (subscriptions_ ps !! fd); cbn [default from_option fst snd]; [done|].
    assert (E : (∅ : gset bytes) ∖ {[ channel ]} = ∅) by set_solver. by rewrite E.
  - rewrite is_subscribed_set, negb_true_iff, bool_decide_eq_false. split.
    + intros Hne. apply set_choose_L in Hne as [c Hc]. eauto.
    + intros [c Hc] E. rewrite E in Hc. set_solver.
Qed.

Lemma pubsub_is_a_relation_witness :
  let ps := (subscribe 4 (bs "news") (subscribe 3 (bs "news") empty_pubsub).1).1 in
  4 ∈ get_subscribers (bs "news") ps.
Proof.
  intros ps.
  assert (Hr : rtc ps_step empty_pubsub ps).
  { eapply rtc_l; [apply (step_subscribe _ 3 (bs "news"))|].
    eapply rtc_l; [apply (step_subscribe _ 4 (bs "news"))|]. apply rtc_refl. }
  apply (pubsub_is_a_relation ps 4 (bs "news") Hr).
  unfold subscribed, set_at. vm_compute. reflexivity.
Defined.
