(* ===== verification/Connection.v ===== *)
(** * Connections and their pool (connection/, handler/transaction_state.hpp)

    A connection keeps a read buffer with two positions, the bytes waiting to be
    written and the transaction of its client.  The socket is a parameter: a read
    is given the bytes the kernel has ready, a flush the results of its sends. *)

From S2P Require Import Prelude Text RespCodec.

Record TransactionState := mkTransactionState {
  in_multi : bool;
  queued_commands : list (list bytes);
  watched_keys : gmap bytes Z
}.

Definition new_tx : TransactionState := mkTransactionState false [] ∅.

Record Connection := mkConnection {
  fd_ : Z;
  buffer_ : bytes;
  read_pos_ : Z;
  data_len_ : Z;
  pending_write_ : bytes;
  authenticated_ : bool;
  dirty_ : bool;
  tx_ : option TransactionState
}.

Definition kInitialBufferSize : Z := 4096.
Definition kMaxBufferSize : Z := 512 * 1024 * 1024.

Definition zeros (n : Z) : bytes := replicate (Z.to_nat n) (ascii_of_nat 0).

Definition new_connection (fd : Z) : Connection :=
  mkConnection fd (zeros kInitialBufferSize) 0 0 [] false false None.

Definition set_buffer (buf : bytes) (pos len : Z) (c : Connection) : Connection :=
  mkConnection (fd_ c) buf pos len (pending_write_ c) (authenticated_ c) (dirty_ c) (tx_ c).

Definition set_pending (p : bytes) (c : Connection) : Connection :=
  mkConnection (fd_ c) (buffer_ c) (read_pos_ c) (data_len_ c) p (authenticated_ c) (dirty_ c) (tx_ c).

Definition set_authenticated (a : bool) (c : Connection) : Connection :=
  mkConnection (fd_ c) (buffer_ c) (read_pos_ c) (data_len_ c) (pending_write_ c) a (dirty_ c) (tx_ c).

Definition set_dirty (d : bool) (c : Connection) : Connection :=
  mkConnection (fd_ c) (buffer_ c) (read_pos_ c) (data_len_ c) (pending_write_ c) (authenticated_ c) d (tx_ c).

Definition set_tx (t : option TransactionState) (c : Connection) : Connection :=
  mkConnection (fd_ c) (buffer_ c) (read_pos_ c) (data_len_ c) (pending_write_ c) (authenticated_ c) (dirty_ c) t.

Definition tx_or_create (c : Connection) : TransactionState := default new_tx (tx_ c).
Definition clear_tx : Connection -> Connection := set_tx None.

(** [memmove(buf, buf + from, n)]. *)
Definition memmove_front (buf : bytes) (from n : Z) : outcome bytes :=
  if from + n <=? zlen buf
  then Ret (take (Z.to_nat n) (drop (Z.to_nat from) buf) ++ drop (Z.to_nat n) buf)
  else Ub MemoryOverrun.

Definition compact (c : Connection) : outcome Connection :=
  if 0 <? read_pos_ c
  then let unconsumed := u64 (data_len_ c - read_pos_ c) in
       buf ← (if 0 <? unconsumed then memmove_front (buffer_ c) (read_pos_ c) unconsumed
              else Ret (buffer_ c));
       Ret (set_buffer buf 0 unconsumed c)
  else Ret c.

Definition grow (c : Connection) : Connection :=
  let size := zlen (buffer_ c) in
  if (data_len_ c =? size) && (size <? kMaxBufferSize)
  then set_buffer (buffer_ c ++ zeros size) (read_pos_ c) (data_len_ c) c
  else c.

(** The bytes received and not consumed yet: what [handle_read] returns a view of. *)
Definition unread (c : Connection) : bytes :=
  take (Z.to_nat (data_len_ c - read_pos_ c)) (drop (Z.to_nat (read_pos_ c)) (buffer_ c)).

(** [incoming] is what the call of [read] can take: what the kernel holds for the
    descriptor, and nothing at the end of the stream or when the call fails, which the
    code does not tell apart.  The call takes what fits and leaves the rest. *)
Definition handle_read (incoming : bytes) (c : Connection) : outcome (Connection * option bytes * bytes) :=
  c ← compact c;
  let c := grow c in
  let space := u64 (zlen (buffer_ c) - data_len_ c) in
  let n := Z.min (zlen incoming) space in
  if n <=? 0 then Ret (c, None, incoming)
  else
    let got := take (Z.to_nat n) incoming in
    if data_len_ c + n <=? zlen (buffer_ c)
    then
      let buf := take (Z.to_nat (data_len_ c)) (buffer_ c) ++ got
                   ++ drop (Z.to_nat (data_len_ c + n)) (buffer_ c) in
      let c := set_buffer buf (read_pos_ c) (data_len_ c + n) c in
      Ret (c, Some (unread c), drop (Z.to_nat n) incoming)
    else Ub MemoryOverrun.

Definition consume (n : Z) (c : Connection) : Connection :=
  set_buffer (buffer_ c) (u64 (read_pos_ c + n)) (data_len_ c) c.

Definition send_data (data : bytes) (c : Connection) : Connection :=
  set_pending (pending_write_ c ++ data) c.

(** The loop of [flush]: [results] are the values the calls of [send] return; the
    bytes written to the socket are returned. *)
Fixpoint send_loop (results : list Z) (data : bytes) (sent : Z) : bytes :=
  if sent <? zlen data
  then match results with
       | [] => take (Z.to_nat sent) data
       | n :: results => if n <=? 0 then take (Z.to_nat sent) data else send_loop results data (sent + n)
       end
  else take (Z.to_nat sent) data.

Definition flush (results : list Z) (c : Connection) : Connection * bytes :=
  if bool_decide (pending_write_ c = []) || (fd_ c <? 0) then (c, [])
  else (set_pending [] c, send_loop results (pending_write_ c) 0).

(** ** The pool *)
Record ConnectionPool := mkConnectionPool {
  connections_ : gmap Z Connection;
  dirty_fds_ : list Z
}.

Definition empty_pool : ConnectionPool := mkConnectionPool ∅ [].

Definition put_conn (fd : Z) (c : Connection) (p : ConnectionPool) : ConnectionPool :=
  mkConnectionPool (<[fd := c]> (connections_ p)) (dirty_fds_ p).

Definition mark_dirty (fd : Z) (c : Connection) (p : ConnectionPool) : ConnectionPool :=
  if dirty_ c then put_conn fd c p
  else mkConnectionPool (<[fd := set_dirty true c]> (connections_ p)) (dirty_fds_ p ++ [fd]).

Definition pool_add (fd : Z) (p : ConnectionPool) : ConnectionPool := put_conn fd (new_connection fd) p.

Definition pool_remove (fd : Z) (p : ConnectionPool) : ConnectionPool :=
  mkConnectionPool (delete fd (connections_ p)) (dirty_fds_ p).

Definition read_from (fd : Z) (incoming : bytes) (p : ConnectionPool)
  : outcome (ConnectionPool * option bytes * bytes) :=
  match connections_ p !! fd with
  | None => Ret (p, None, incoming)
  | Some c => '(c', view, rest) ← handle_read incoming c; Ret (put_conn fd c' p, view, rest)
  end.

Definition pool_consume (fd n : Z) (p : ConnectionPool) : ConnectionPool :=
  match connections_ p !! fd with
  | None => p
  | Some c => put_conn fd (consume n c) p
  end.

Definition send_to (fd : Z) (response : bytes) (p : ConnectionPool) : ConnectionPool :=
  match connections_ p !! fd with
  | None => p
  | Some c => mark_dirty fd (send_data response c) p
  end.

(** [unordered_map::at] throws for an unknown descriptor. *)
Definition get_connection (fd : Z) (p : ConnectionPool) : outcome Connection :=
  match connections_ p !! fd with
  | Some c => Ret c
  | None => Throw StdOutOfRange
  end.

Definition get_pending_write (fd : Z) (p : ConnectionPool) : outcome ConnectionPool :=
  c ← get_connection fd p; Ret (mark_dirty fd c p).

(** [sends fd] are the results of the sends on the socket of [fd]; the bytes
    written are returned in order. *)
Definition flush_step (sends : Z -> list Z) (acc : gmap Z Connection * list (Z * bytes)) (fd : Z)
  : gmap Z Connection * list (Z * bytes) :=
  match acc.1 !! fd with
  | None => acc
  | Some c => let (c', written) := flush (sends fd) c in
      (<[fd := set_dirty false c']> acc.1, acc.2 ++ [(fd, written)])
  end.

Definition flush_all (sends : Z -> list Z) (p : ConnectionPool) : ConnectionPool * list (Z * bytes) :=
  let (cs, written) := fold_left (flush_step sends) (dirty_fds_ p) (connections_ p, []) in
  (mkConnectionPool cs [], written).

(** ** The read buffer *)
Record conn_wf (c : Connection) : Prop := {
  cw_pos : 0 <= read_pos_ c <= data_len_ c;
  cw_len : data_len_ c <= zlen (buffer_ c);
  cw_size : 0 < zlen (buffer_ c) <= 2 * kMaxBufferSize
}.

Lemma unread_length c : conn_wf c -> zlen (unread c) = data_len_ c - read_pos_ c.
Proof.
  intros [? ? ?]. unfold unread, zlen in *. rewrite length_take, length_drop. lia.
Qed.

Lemma compact_wf c :
  conn_wf c -> exists c', compact c = Ret c' /\ conn_wf c' /\ unread c' = unread c
    /\ read_pos_ c' = 0 /\ zlen (buffer_ c') = zlen (buffer_ c).
Proof.
  intros Hwf. pose proof Hwf as [Hp Hl Hs]. unfold compact. destruct (0 <? read_pos_ c) eqn:E; b2p.
  2: { exists c. split_and!; [done..|lia|done]. }
  rewrite u64_small by (unfold UINT64_MAX, kMaxBufferSize in *; lia).
  set (u := data_len_ c - read_pos_ c) in *.
  assert (Hmv : exists buf, (if 0 <? u then memmove_front (buffer_ c) (read_pos_ c) u
    else Ret (buffer_ c)) = Ret buf /\ take (Z.to_nat u) buf = unread c /\ zlen buf = zlen (buffer_ c)).
  { destruct (0 <? u) eqn:Eu; b2p.
    - unfold memmove_front. rewrite (proj2 (Z.leb_le _ _)) by lia. eexists. split; [done|].
      unfold unread, zlen in *. fold u. split.
      + rewrite take_app_le, take_take by (rewrite length_take, length_drop; lia). f_equal. lia.
      + rewrite length_app, length_take, !length_drop. lia.
    - exists (buffer_ c). split_and!; [done| |done]. unfold unread. fold u.
      replace (Z.to_nat u) with 0%nat by lia. done. }
  destruct Hmv as (buf & -> & Hu & Hz). simpl. eexists. split; [done|]. simpl. split_and!; [|..|done|done].
  - split; simpl; lia.
  - unfold unread; simpl. by rewrite drop_0, Z.sub_0_r.
Qed.

Lemma grow_wf c :
  conn_wf c -> conn_wf (grow c) /\ unread (grow c) = unread c /\ read_pos_ (grow c) = read_pos_ c
    /\ (data_len_ (grow c) = zlen (buffer_ (grow c)) -> kMaxBufferSize <= data_len_ c)
    /\ data_len_ (grow c) = data_len_ c.
Proof.
  intros Hwf. pose proof Hwf as [Hp Hl Hs]. unfold grow.
  destruct ((data_len_ c =? zlen (buffer_ c)) && (zlen (buffer_ c) <? kMaxBufferSize)) eqn:E; simpl.
  - b2p. assert (Hz : zlen (buffer_ c ++ zeros (zlen (buffer_ c))) = 2 * zlen (buffer_ c)).
    { unfold zlen, zeros. rewrite length_app, length_replicate. unfold zlen. lia. }
    split_and!; [split; simpl; lia| |done|lia|done].
    unfold unread; simpl. unfold zlen in *. rewrite drop_app_le, take_app_le by
      (rewrite ?length_drop; lia). done.
  - split_and!; [done..| |done]. intros Hf. rewrite Hf, Z.eqb_refl in E. simpl in E. b2p. lia.
Qed.

Lemma handle_read_spec incoming c :
  conn_wf c -> exists c' got rest,
    handle_read incoming c = Ret (c', if decide (got = []) then None else Some (unread c'), rest)
    /\ incoming = got ++ rest /\ unread c' = unread c ++ got /\ conn_wf c'
    /\ (got = [] -> incoming = [] \/ kMaxBufferSize <= zlen (unread c)).
Proof.
  intros Hwf. unfold handle_read.
  destruct (compact_wf c Hwf) as (c1 & -> & Hwf1 & Hu1 & Hp1 & _). simpl.
  destruct (grow_wf c1 Hwf1) as (Hwf2 & Hu2 & Hp2 & Hfull & Hd2).
  pose proof (unread_length _ Hwf1) as Hlen. rewrite Hu1 in Hlen.
  set (c2 := grow c1) in *. pose proof Hwf2 as [Hp Hl Hs].
  rewrite u64_small by (unfold UINT64_MAX, kMaxBufferSize in *; lia).
  set (n := Z.min (zlen incoming) (zlen (buffer_ c2) - data_len_ c2)).
  pose proof (zlen_nonneg incoming) as Hnn. destruct (n <=? 0) eqn:En; b2p.
  { exists c2, [], incoming. rewrite app_nil_r, Hu2. rewrite decide_True by done.
    split_and!; [done..|]. intros _. subst n. destruct incoming as [|x l]; [by left|right].
    assert (zlen (buffer_ c2) - data_len_ c2 <= 0) by (unfold zlen in *; simpl in *; lia). lia. }
  rewrite (proj2 (Z.leb_le _ _)) by lia.
  set (got := take (Z.to_nat n) incoming).
  assert (Hg : zlen got = n) by (unfold got, zlen in *; rewrite length_take; lia).
  set (buf := take (Z.to_nat (data_len_ c2)) (buffer_ c2) ++ got ++ drop (Z.to_nat (data_len_ c2 + n)) (buffer_ c2)).
  assert (Hb : zlen buf = zlen (buffer_ c2)).
  { unfold buf, zlen in *. rewrite !length_app, length_take, length_drop. lia. }
  exists (set_buffer buf (read_pos_ c2) (data_len_ c2 + n) c2), got, (drop (Z.to_nat n) incoming).
  rewrite decide_False by (intros Hn; rewrite Hn in Hg; unfold zlen in Hg; simpl in Hg; lia).
  split_and!; [done|symmetry; apply take_drop| |split; simpl; lia|].
  - unfold unread at 1; simpl. rewrite Hp2, Hp1, drop_0, Z.sub_0_r. unfold buf. rewrite <- Hu1, <- Hu2.
    unfold unread. rewrite Hp2, Hp1, drop_0, Z.sub_0_r. rewrite app_assoc, take_app_length'; [done|].
    rewrite length_app, length_take. unfold zlen in *. lia.
  - intros Hn. rewrite Hn in Hg. unfold zlen in Hg; simpl in Hg. lia.
Qed.

Lemma consume_spec n c :
  conn_wf c -> 0 <= n <= zlen (unread c) ->
  conn_wf (consume n c) /\ unread (consume n c) = drop (Z.to_nat n) (unread c).
Proof.
  intros Hwf Hn. pose proof (unread_length _ Hwf) as Hlen. destruct Hwf as [Hp Hl Hs].
  assert (Hu : u64 (read_pos_ c + n) = read_pos_ c + n)
    by (apply u64_small; unfold UINT64_MAX, kMaxBufferSize in *; lia).
  split; [split; simpl; rewrite ?Hu; lia|].
  unfold unread, consume; simpl. rewrite Hu, skipn_firstn_comm, drop_drop. f_equal; [lia|f_equal; lia].
Qed.

Lemma consume_past_end n c incoming :
  conn_wf c -> zlen (unread c) < n <= 2 ^ 32 -> handle_read incoming (consume n c) = Ub MemoryOverrun.
Proof.
  intros Hwf Hn. pose proof (unread_length _ Hwf) as Hlen. destruct Hwf as [Hp Hl Hs].
  unfold handle_read, compact, consume; simpl.
  rewrite (u64_small (read_pos_ c + n)) by (unfold UINT64_MAX, kMaxBufferSize in *; lia).
  assert (Hu : u64 (data_len_ c - (read_pos_ c + n)) = 2 ^ 64 + (data_len_ c - (read_pos_ c + n))).
  { unfold u64. rewrite <- (Z.mod_add _ 1), Z.mod_small by (unfold kMaxBufferSize in *; lia). lia. }
  rewrite Hu, !(proj2 (Z.ltb_lt _ _)) by (unfold kMaxBufferSize in *; lia).
  unfold memmove_front. rewrite (proj2 (Z.leb_gt _ _)) by (unfold kMaxBufferSize in *; lia). done.
Qed.

(** ** The pool: every connection with something to write is due for a flush *)
Definition conn_due (dirty : list Z) (fd : Z) (c : Connection) : Prop :=
  fd_ c = fd /\ 0 <= fd /\ (pending_write_ c <> [] -> dirty_ c = true)
  /\ (dirty_ c = true -> fd ∈ dirty).

Definition pool_wf (p : ConnectionPool) : Prop := map_Forall (conn_due (dirty_fds_ p)) (connections_ p).

(** A write through the reference [get_pending_write] returns. *)
Definition write_pending (fd : Z) (data : bytes) (p : ConnectionPool) : outcome ConnectionPool :=
  p ← get_pending_write fd p;
  c ← get_connection fd p;
  Ret (put_conn fd (send_data data c) p).

Inductive pool_step : ConnectionPool -> ConnectionPool -> Prop :=
| step_add p fd : 0 <= fd -> pool_step p (pool_add fd p)
| step_remove p fd : pool_step p (pool_remove fd p)
| step_read p fd incoming p' view rest :
    read_from fd incoming p = Ret (p', view, rest) -> pool_step p p'
| step_consume p fd n : pool_step p (pool_consume fd n p)
| step_send p fd data : pool_step p (send_to fd data p)
| step_write p fd data p' : write_pending fd data p = Ret p' -> pool_step p p'
| step_auth p fd c : get_connection fd p = Ret c -> pool_step p (put_conn fd (set_authenticated true c) p)
| step_tx p fd c t : get_connection fd p = Ret c -> pool_step p (put_conn fd (set_tx t c) p)
| step_flush p sends : pool_step p (flush_all sends p).1.

Lemma pool_wf_put p fd c :
  pool_wf p -> conn_due (dirty_fds_ p) fd c -> pool_wf (put_conn fd c p).
Proof. intros Hwf Hc. by apply map_Forall_insert_2. Qed.

Lemma conn_due_keep dirty fd c c' :
  conn_due dirty fd c -> fd_ c' = fd_ c -> pending_write_ c' = pending_write_ c ->
  dirty_ c' = dirty_ c -> conn_due dirty fd c'.
Proof. unfold conn_due. intros ? -> -> ->. done. Qed.

Lemma mark_dirty_wf p fd c data :
  pool_wf p -> connections_ p !! fd = Some c ->
  pool_wf (mark_dirty fd (send_data data c) p).
Proof.
  intros Hwf Hc. destruct (Hwf _ _ Hc) as (Hfd & Hnn & Hp & Hd).
  unfold mark_dirty; simpl. destruct (dirty_ c) eqn:E.
  - apply pool_wf_put; [done|]. split_and!; auto.
  - unfold pool_wf; simpl. apply map_Forall_insert_2.
    + split_and!; simpl; [done..|]. intros _. set_solver.
    + intros f x Hx. destruct (Hwf _ _ Hx) as (? & ? & ? & ?). split_and!; auto. set_solver.
Qed.

Lemma write_pending_send_to fd data p p' : write_pending fd data p = Ret p' -> p' = send_to fd data p.
Proof.
  unfold write_pending, get_pending_write, send_to, get_connection.
  destruct (connections_ p !! fd) as [c|] eqn:E; simpl; [|done]. unfold mark_dirty; simpl.
  destruct (dirty_ c) eqn:Ed; simpl; rewrite lookup_insert_eq; simpl; intros [= <-];
    unfold put_conn; simpl; by rewrite insert_insert_eq.
Qed.

Lemma flush_fields sends c : fd_ (flush sends c).1 = fd_ c /\ dirty_ (flush sends c).1 = dirty_ c.
Proof. unfold flush. by case_match. Qed.

(** What the loop of [flush_all] leaves of one connection. *)
Lemma flush_loop_lookup sends l cs w fd :
  (forall c, cs !! fd = Some c -> 0 <= fd_ c) ->
  (fold_left (flush_step sends) l (cs, w)).1 !! fd
  = (fun c => if decide (fd ∈ l) then set_dirty false (set_pending [] c) else c) <$> cs !! fd.
Proof.
  revert cs w. induction l as [|f l IH]; intros cs w Hnn; cbn [fold_left].
  - cbn [fst]. destruct (cs !! fd); cbn [fmap option_fmap option_map]; [|done].
    by rewrite decide_False by set_solver.
  - unfold flush_step at 2. cbn [fst snd]. destruct (cs !! f) as [cf|] eqn:Ef.
    + destruct (flush (sends f) cf) as [c' wr] eqn:Efl.
      assert (Hc' : f = fd -> set_dirty false c' = set_dirty false (set_pending [] cf)).
      { intros ->. specialize (Hnn _ Ef). unfold flush in Efl.
        rewrite (proj2 (Z.ltb_ge (fd_ cf) 0)), orb_false_r in Efl by lia.
        case_bool_decide as Hp; injection Efl as <- _; [|done]. unfold set_dirty, set_pending; simpl.
        by rewrite Hp. }
      rewrite IH.
      * destruct (decide (f = fd)) as [<-|Hne].
        -- rewrite lookup_insert_eq, Ef; simpl. rewrite (decide_True (P := f ∈ f :: l)) by set_solver.
           rewrite Hc' by done. by destruct (decide (f ∈ l)).
        -- rewrite lookup_insert_ne by done. destruct (cs !! fd); simpl; [|done].
           destruct (decide (fd ∈ l)); [rewrite decide_True|rewrite decide_False]; set_solver.
      * intros c. destruct (decide (f = fd)) as [<-|Hne].
        -- rewrite lookup_insert_eq. intros [= <-]. rewrite Hc' by done. simpl. by apply Hnn.
        -- rewrite lookup_insert_ne by done. apply Hnn.
    + rewrite IH by done. destruct (cs !! fd) as [c|] eqn:Ec; simpl; [|done].
      assert (fd <> f) by congruence.
      destruct (decide (fd ∈ l)); [rewrite decide_True|rewrite decide_False]; set_solver.
Qed.

Lemma flush_all_lookup sends p fd c :
  pool_wf p -> connections_ p !! fd = Some c ->
  connections_ (flush_all sends p).1 !! fd = Some (set_dirty false (set_pending [] c)).
Proof.
  intros Hwf Hc. destruct (Hwf _ _ Hc) as (Hfd & Hnn & Hp & Hd).
  pose proof (flush_loop_lookup sends (dirty_fds_ p) (connections_ p) [] fd) as H.
  unfold flush_all. destruct (fold_left _ _ _) as [cs w]. simpl in H |- *.
  rewrite H, Hc; simpl; [|intros c0 Hc0; simplify_eq; lia].
  case_decide as Hin; [done|]. destruct (dirty_ c) eqn:Ed; [by destruct Hin; auto|].
  destruct (pending_write_ c) eqn:Ep; [|by discriminate Hp]. f_equal. destruct c; simpl in *.
  unfold set_dirty, set_pending; simpl. congruence.
Qed.

Lemma flush_all_None sends p fd :
  connections_ p !! fd = None -> connections_ (flush_all sends p).1 !! fd = None.
Proof.
  intros Hc. pose proof (flush_loop_lookup sends (dirty_fds_ p) (connections_ p) [] fd) as H.
  unfold flush_all. destruct (fold_left _ _ _) as [cs w]. simpl in H |- *.
  rewrite H, Hc; [done|]. congruence.
Qed.

Lemma handle_read_keeps incoming c c' v rest :
  handle_read incoming c = Ret (c', v, rest) ->
  fd_ c' = fd_ c /\ pending_write_ c' = pending_write_ c /\ dirty_ c' = dirty_ c.
Proof.
  unfold handle_read. intros H. destruct (compact c) as [c1| |] eqn:E1; simpl in H; [|done..].
  assert (H1 : fd_ c1 = fd_ c /\ pending_write_ c1 = pending_write_ c /\ dirty_ c1 = dirty_ c).
  { unfold compact in E1. destruct (0 <? read_pos_ c); [|by simplify_eq].
    destruct (if 0 <? u64 (data_len_ c - read_pos_ c) then _ else _); by simplify_eq/=. }
  assert (H2 : fd_ (grow c1) = fd_ c1 /\ pending_write_ (grow c1) = pending_write_ c1
               /\ dirty_ (grow c1) = dirty_ c1) by (unfold grow; by destruct (_ && _)).
  destruct H1 as (<- & <- & <-), H2 as (<- & <- & <-).
  destruct (Z.min _ _ <=? 0); [by simplify_eq|]. destruct (_ <=? zlen _); by simplify_eq/=.
Qed.

Lemma pool_step_wf p p' : pool_step p p' -> pool_wf p -> pool_wf p'.
Proof.
  intros [] Hwf.
  - apply pool_wf_put; [done|]. by split_and!.
  - by apply map_Forall_delete.
  - unfold read_from in *. destruct (connections_ p0 !! fd) as [c|] eqn:E; [|by simplify_eq].
    destruct (handle_read incoming c) as [[[c' v] r]| |] eqn:Er; simplify_eq/=.
    apply pool_wf_put; [done|]. apply handle_read_keeps in Er as (? & ? & ?).
    eapply conn_due_keep; [by apply Hwf|done..].
  - unfold pool_consume. destruct (connections_ p0 !! fd) as [c|] eqn:E; [|done].
    apply pool_wf_put; [done|]. eapply conn_due_keep; [by apply Hwf|done..].
  - unfold send_to. destruct (connections_ p0 !! fd) as [c|] eqn:E; [|done]. by apply mark_dirty_wf.
  - apply write_pending_send_to in H as ->. unfold send_to.
    destruct (connections_ p0 !! fd) as [c|] eqn:E; [|done]. by apply mark_dirty_wf.
  - unfold get_connection in H. destruct (connections_ p0 !! fd) as [c'|] eqn:E; simplify_eq.
    apply pool_wf_put; [done|]. eapply conn_due_keep; [by apply Hwf|done..].
  - unfold get_connection in H. destruct (connections_ p0 !! fd) as [c'|] eqn:E; simplify_eq.
    apply pool_wf_put; [done|]. eapply conn_due_keep; [by apply Hwf|done..].
  - intros fd c Hc. destruct (connections_ p0 !! fd) as [c0|] eqn:E.
    + rewrite (flush_all_lookup _ _ _ _ Hwf E) in Hc. simplify_eq/=.
      destruct (Hwf _ _ E) as (? & ? & _). by split_and!.
    + by rewrite flush_all_None in Hc.
Qed.

Lemma flush_loop_written sends l cs w fd :
  forall x, x ∈ w \/ (exists c, fd ∈ l /\ cs !! fd = Some c /\ 0 <= fd_ c /\ pending_write_ c <> []
                        /\ x = (fd, send_loop (sends fd) (pending_write_ c) 0)) ->
  x ∈ (fold_left (flush_step sends) l (cs, w)).2.
Proof.
  intros x. revert cs w. induction l as [|f l IH]; intros cs w; cbn [fold_left].
  - intros [?|(c & Hin & _)]; [done|set_solver].
  - intros H. unfold flush_step at 2. cbn [fst snd]. destruct (cs !! f) as [cf|] eqn:Ef.
    2: { apply IH. destruct H as [?|(c & [->|Hin]%elem_of_cons & Hc & Hr)]; [by left|congruence|].
         right. eauto. }
    destruct (flush (sends f) cf) as [c' wr] eqn:Efl. apply IH.
    destruct H as [?|(c & Hin & Hc & Hnn & Hp & ->)]; [left; set_solver|].
    destruct (decide (f = fd)) as [->|Hne].
    + left. simplify_eq. unfold flush in Efl. rewrite bool_decide_eq_false_2 in Efl by done.
      rewrite (proj2 (Z.ltb_ge (fd_ c) 0)) in Efl by lia. simpl in Efl. simplify_eq. set_solver.
    + right. exists c. rewrite lookup_insert_ne by done. split_and!; [set_solver|done..].
Qed.

(** What a socket takes: the results of the sends up to the first that fails. *)
Fixpoint taken (results : list Z) : Z :=
  match results with
  | n :: results => if n <=? 0 then 0 else n + taken results
  | [] => 0
  end.

Lemma taken_nonneg results : 0 <= taken results.
Proof. induction results as [|n results IH]; [done|]. simpl. destruct (n <=? 0) eqn:E; b2p; lia. Qed.

(** A prefix of the output is written, as long as what the socket takes. *)
Lemma send_loop_taken data results : forall sent,
  0 <= sent -> send_loop results data sent = take (Z.to_nat (sent + taken results)) data.
Proof.
  induction results as [|n results IH]; intros sent H0; cbn [send_loop taken].
  { rewrite Z.add_0_r. by destruct (_ <? _). }
  pose proof (taken_nonneg results). destruct (sent <? zlen data) eqn:E; b2p.
  - destruct (n <=? 0) eqn:En; b2p; [by rewrite Z.add_0_r|]. rewrite IH by lia. do 2 f_equal. lia.
  - unfold zlen in E. rewrite !take_ge by (destruct (n <=? 0) eqn:En; b2p; lia). done.
Qed.

(** All the bytes that a pass wrote to the socket of [fd], in their order. *)
Definition written_to (fd : Z) (written : list (Z * bytes)) : bytes :=
  mjoin (snd <$> filter (fun x : Z * bytes => x.1 = fd) written).

Lemma written_to_snoc fd w f b :
  written_to fd (w ++ [(f, b)]) = written_to fd w ++ (if decide (f = fd) then b else []).
Proof.
  unfold written_to. rewrite filter_app, fmap_app, join_app. f_equal. rewrite filter_cons. cbn [fst].
  destruct (decide (f = fd)); [apply app_nil_r|done].
Qed.

Lemma flush_loop_written_to sends l fd : forall cs w c,
  cs !! fd = Some c -> 0 <= fd_ c ->
  written_to fd (fold_left (flush_step sends) l (cs, w)).2
  = written_to fd w ++ (if bool_decide (fd ∈ l) then take (Z.to_nat (taken (sends fd))) (pending_write_ c) else []).
Proof.
  induction l as [|f l IH]; intros cs w c Hc Hnn; cbn [fold_left].
  { by rewrite app_nil_r. }
  unfold flush_step at 2. cbn [fst snd]. destruct (decide (f = fd)) as [->|Hne].
  - rewrite Hc. rewrite (bool_decide_true _ (list_elem_of_here fd l)).
    destruct (flush (sends fd) c) as [c' wr] eqn:Ef.
    assert (0 <= fd_ c' /\ pending_write_ c' = [] /\ wr = take (Z.to_nat (taken (sends fd))) (pending_write_ c)) as (Hn' & Hp' & ->).
    { unfold flush in Ef. rewrite (proj2 (Z.ltb_ge (fd_ c) 0)), orb_false_r in Ef by lia.
      case_bool_decide as Hp; simplify_eq/=.
      - rewrite Hp. by rewrite take_nil.
      - by rewrite send_loop_taken, Z.add_0_l by lia. }
    rewrite (IH _ _ (set_dirty false c')) by (done || apply lookup_insert_eq).
    rewrite written_to_snoc, decide_True by done. cbn [pending_write_ set_dirty]. rewrite Hp', take_nil.
    destruct (bool_decide _); by rewrite app_nil_r.
  - assert (bool_decide (fd ∈ f :: l) = bool_decide (fd ∈ l)) as ->
      by (apply bool_decide_ext; rewrite elem_of_cons; naive_solver).
    destruct (cs !! f) as [cf|]; [destruct (flush (sends f) cf) as [c' wr]|by apply IH].
    rewrite (IH _ _ c) by (rewrite ?lookup_insert_ne by done; done).
    by rewrite written_to_snoc, decide_False, app_nil_r by done.
Qed.

Lemma pool_reach_wf p : rtc pool_step empty_pool p -> pool_wf p.
Proof.
  intros H. assert (H0 : pool_wf empty_pool) by (apply map_Forall_empty).
  induction H; [done|]. eauto using pool_step_wf.
Qed.

(** * Properties *)

(** C33: the read buffer is a byte queue.  A read appends what the kernel delivered
    (as much as fits; compaction and growth lose nothing) and returns a view of all
    the unconsumed bytes; it returns nothing only at the end of the stream or when
    the largest buffer is full.  Consuming [n] of the bytes returned drops them. *)
Theorem read_buffer_is_a_queue (c : Connection) (incoming : bytes) (n : Z) :
  conn_wf c ->
  (exists c' got rest,
     handle_read incoming c = Ret (c', if decide (got = []) then None else Some (unread c'), rest)
     /\ incoming = got ++ rest /\ unread c' = unread c ++ got /\ conn_wf c'
     /\ (got = [] -> incoming = [] \/ kMaxBufferSize <= zlen (unread c)))
  /\ (0 <= n <= zlen (unread c) ->
      conn_wf (consume n c) /\ unread (consume n c) = drop (Z.to_nat n) (unread c)).
Proof. intros Hwf. split; [by apply handle_read_spec|by apply consume_spec]. Qed.

Lemma new_connection_wf fd : conn_wf (new_connection fd).
Proof. split; simpl; vm_compute; intuition discriminate. Qed.

Lemma read_buffer_is_a_queue_witness :
  exists c', handle_read (bs "PING") (new_connection 3) = Ret (c', Some (bs "PING"), [])
    /\ unread c' = bs "PING".
Proof.
  destruct (read_buffer_is_a_queue (new_connection 3) (bs "PING") 0 (new_connection_wf 3))
    as [(c' & got & rest & H & Hg & Hu & _) _].
  assert (E : handle_read (bs "PING") (new_connection 3) = Ret (c', Some (bs "PING"), [])).
  { rewrite H. revert H. vm_compute. intros [= <- <- <-]. reflexivity. }
  exists c'. split; [exact E|]. rewrite H in E. rewrite Hu.
  injection E as E1 E2. rewrite E2, app_nil_r in Hg. rewrite <- Hg. reflexivity.
Defined.

(** C35: a command that arrives without (all of) its last line end is accepted by
    the parser, and consuming the length it reports moves the read position past
    the data: the next read of that connection copies outside the buffer, whatever
    arrives. *)
Theorem split_line_end_overruns (cmd : list bytes) (c : Connection) (k : nat) (incoming : bytes) :
  cmd <> [] -> zlen cmd <= INT32_MAX -> Forall small cmd -> conn_wf c ->
  unread c = take k (encode_array cmd) -> (k < length (encode_array cmd) <= k + 2)%nat ->
  exists pc, parse_one (unread c) = Ret (Value pc) /\ pc_args pc = cmd
    /\ handle_read incoming (consume (Z.of_nat (pc_consumed pc)) c) = Ub MemoryOverrun.
Proof.
  intros Hne Hn Hl Hwf Hu Hk. destruct (parse_one_take cmd [] k Hne Hn Hl) as [Hok _].
  cbv zeta in Hok. rewrite app_nil_r in Hok. specialize (Hok ltac:(lia)).
  eexists. rewrite Hu. split_and!; [exact Hok|done|]. simpl.
  apply consume_past_end; [done|].
  pose proof (unread_length c Hwf) as Hz. destruct Hwf as [Hp Hd Hs].
  rewrite Hu in *. unfold kMaxBufferSize, zlen in *. rewrite length_take in *. lia.
Qed.

Lemma split_line_end_overruns_witness :
  exists c view rest, handle_read (take 12 (encode_array [bs "PING"])) (new_connection 3)
                      = Ret (c, view, rest)
    /\ exists pc, parse_one (unread c) = Ret (Value pc) /\ pc_args pc = [bs "PING"]
         /\ handle_read CRLF (consume (Z.of_nat (pc_consumed pc)) c) = Ub MemoryOverrun.
Proof.
  destruct (handle_read_spec (take 12 (encode_array [bs "PING"])) (new_connection 3) (new_connection_wf 3))
    as (c & got & rest & H & Hg & Hu & Hwf & _).
  exists c. eexists. exists rest. split; [exact H|].
  apply (split_line_end_overruns [bs "PING"] c 12 CRLF); [done|done|by repeat constructor|done| |].
  - assert (rest = []) as -> by (revert H; vm_compute; by intros [= _ _ <-]).
    rewrite Hu, <- (app_nil_r got), <- Hg. reflexivity.
  - vm_compute. lia.
Defined.

(** C36: one pass of [flush_all] leaves no output behind.  In every state the event loop
    can bring the pool to, it writes to the socket of every connection, in one piece and
    once, the beginning of the pending output that the socket takes before a send fails,
    which is all of it when the socket takes that many bytes; what the socket does not
    take is dropped.  Afterwards nothing is pending and nothing is marked. *)
Theorem flush_all_drains (p : ConnectionPool) (sends : Z -> list Z) (fd : Z) (c : Connection) :
  rtc pool_step empty_pool p -> connections_ p !! fd = Some c ->
  connections_ (flush_all sends p).1 !! fd = Some (set_dirty false (set_pending [] c))
  /\ dirty_fds_ (flush_all sends p).1 = []
  /\ written_to fd (flush_all sends p).2 = take (Z.to_nat (taken (sends fd))) (pending_write_ c)
  /\ (zlen (pending_write_ c) <= taken (sends fd) -> written_to fd (flush_all sends p).2 = pending_write_ c).
Proof.
  intros Hwf%pool_reach_wf Hc.
  assert (written_to fd (flush_all sends p).2 = take (Z.to_nat (taken (sends fd))) (pending_write_ c)) as Hw.
  { destruct (Hwf _ _ Hc) as (Hfd & Hnn & Hpd & Hd).
    pose proof (flush_loop_written_to sends (dirty_fds_ p) fd (connections_ p) [] c Hc) as H.
    unfold flush_all. destruct (fold_left _ _ _) as [cs w]. cbn [snd] in *. rewrite H by lia.
    case_bool_decide as Hin; [done|]. destruct (pending_write_ c) eqn:Ep; [by rewrite take_nil|].
    destruct Hin. by apply Hd, Hpd. }
  split_and!; [by apply flush_all_lookup|unfold flush_all; by destruct (fold_left _ _ _)|done|].
  intros Hl. rewrite Hw. unfold zlen in Hl. apply take_ge. lia.
Qed.

Lemma flush_all_drains_witness :
  let p := send_to 3 (bs "hello") (pool_add 3 empty_pool) in
  written_to 3 (flush_all (fun _ => [2; 3]) p).2 = bs "hello"
  /\ written_to 3 (flush_all (fun _ => [2; -1]) p).2 = bs "he".
Proof.
  intros p. assert (Hr : rtc pool_step empty_pool p).
  { eapply rtc_l; [by apply (step_add _ 3)|]. eapply rtc_l; [apply (step_send _ 3 (bs "hello"))|].
    apply rtc_refl. }
  split.
  - apply (flush_all_drains p (fun _ => [2; 3]) 3 _ Hr eq_refl). done.
  - apply (flush_all_drains p (fun _ => [2; -1]) 3 _ Hr eq_refl).
Defined.
