(* ===== verification/Sha256.v ===== *)
(** * SHA-256 (util/sha256.cpp)

    The digest the access-control list stores instead of passwords, on 32-bit
    words kept as integers with their wrap-around.  [random_hex] is given what the
    random device holds. *)

From S2P Require Import Prelude Text RespCodec.

(** The words of a row of the table, written as one number of 256 bits. *)
Definition row (n : Z) : list Z := (fun i => u32 (Z.shiftr n (32 * i))) <$> [7; 6; 5; 4; 3; 2; 1; 0].

(** The table of constants, eight words a row as in the source. *)
Definition K : list Z :=
  mjoin (row <$>
  [0x428a2f9871374491b5c0fbcfe9b5dba53956c25b59f111f1923f82a4ab1c5ed5;
   0xd807aa9812835b01243185be550c7dc372be5d7480deb1fe9bdc06a7c19bf174;
   0xe49b69c1efbe47860fc19dc6240ca1cc2de92c6f4a7484aa5cb0a9dc76f988da;
   0x983e5152a831c66db00327c8bf597fc7c6e00bf3d5a7914706ca635114292967;
   0x27b70a852e1b21384d2c6dfc53380d13650a7354766a0abb81c2c92e92722c85;
   0xa2bfe8a1a81a664bc24b8b70c76c51a3d192e819d6990624f40e3585106aa070;
   0x19a4c1161e376c082748774c34b0bcb5391c0cb34ed8aa4a5b9cca4f682e6ff3;
   0x748f82ee78a5636f84c878148cc7020890befffaa4506cebbef9a3f7c67178f2]).

(** A shift to the left of a [uint32_t] drops the bits it pushes out. *)
Definition rr (x n : Z) : Z := Z.lor (Z.shiftr x n) (u32 (Z.shiftl x (32 - n))).

(** The bits of [~e] within the word. *)
Definition not32 (e : Z) : Z := Z.lxor e (2 ^ 32 - 1).

Fixpoint pad_zeros (fuel : nat) (msg : list Z) : list Z :=
  match fuel with
  | O => msg
  | S fuel => if zlen msg mod 64 =? 56 then msg else pad_zeros fuel (msg ++ [0])
  end.

Definition pad_message (input : bytes) : list Z :=
  let bit_len := u64 (zlen input * 8) in
  let msg := pad_zeros 64 ((code <$> input) ++ [0x80]) in
  msg ++ ((fun i => u8 (Z.shiftr bit_len (i * 8))) <$> [7; 6; 5; 4; 3; 2; 1; 0]).

Definition at_ (l : list Z) (i : nat) : Z := default 0 (l !! i).

Definition load_word (msg : list Z) (o : nat) : Z :=
  Z.lor (Z.lor (Z.lor (u32 (Z.shiftl (at_ msg o) 24)) (u32 (Z.shiftl (at_ msg (o + 1)) 16)))
           (u32 (Z.shiftl (at_ msg (o + 2)) 8)))
    (at_ msg (o + 3)).

(** One step of the message schedule: [w] holds the first [i] words. *)
Definition schedule_step (w : list Z) (i : nat) : list Z :=
  let x := at_ w (i - 15) in
  let y := at_ w (i - 2) in
  let s0 := Z.lxor (Z.lxor (rr x 7) (rr x 18)) (Z.shiftr x 3) in
  let s1 := Z.lxor (Z.lxor (rr y 17) (rr y 19)) (Z.shiftr y 10) in
  w ++ [u32 (at_ w (i - 16) + s0 + at_ w (i - 7) + s1)].

Definition schedule (msg : list Z) (offset : nat) : list Z :=
  fold_left schedule_step (seq 16 48) ((fun i => load_word msg (offset + i * 4)) <$> seq 0 16).

Record words8 := mkWords8 { ra : Z; rb : Z; rc : Z; rd : Z; re : Z; rf : Z; rg : Z; rh : Z }.

Definition big_sigma1 (e : Z) : Z := Z.lxor (Z.lxor (rr e 6) (rr e 11)) (rr e 25).
Definition big_sigma0 (a : Z) : Z := Z.lxor (Z.lxor (rr a 2) (rr a 13)) (rr a 22).
Definition ch (e f g : Z) : Z := Z.lxor (Z.land e f) (Z.land (not32 e) g).
Definition maj (a b c : Z) : Z := Z.lxor (Z.lxor (Z.land a b) (Z.land a c)) (Z.land b c).

Definition round_step (w : list Z) (s : words8) (i : nat) : words8 :=
  let 'mkWords8 a b c d e f g h := s in
  let temp1 := u32 (h + big_sigma1 e + ch e f g + at_ K i + at_ w i) in
  let temp2 := u32 (big_sigma0 a + maj a b c) in
  mkWords8 (u32 (temp1 + temp2)) a b c (u32 (d + temp1)) e f g.

Definition add8 (s t : words8) : words8 :=
  mkWords8 (u32 (ra s + ra t)) (u32 (rb s + rb t)) (u32 (rc s + rc t)) (u32 (rd s + rd t))
    (u32 (re s + re t)) (u32 (rf s + rf t)) (u32 (rg s + rg t)) (u32 (rh s + rh t)).

Definition block_step (msg : list Z) (hs : words8) (blk : nat) : words8 :=
  add8 hs (fold_left (round_step (schedule msg (blk * 64))) (seq 0 64) hs).

Definition initial_hash : words8 :=
  mkWords8 0x6a09e667 0xbb67ae85 0x3c6ef372 0xa54ff53a 0x510e527f 0x9b05688c 0x1f83d9ab 0x5be0cd19.

Definition hex_digits : bytes := bs "0123456789abcdef".
Definition hex_at (d : Z) : ascii := default zero (hex_digits !! Z.to_nat d).

Definition hex_word (val : Z) : bytes :=
  mjoin ((fun i => [hex_at (Z.land (Z.shiftr val (i + 4)) 15); hex_at (Z.land (Z.shiftr val i) 15)])
           <$> [24; 16; 8; 0]).

Definition words_list (s : words8) : list Z := [ra s; rb s; rc s; rd s; re s; rf s; rg s; rh s].

Definition sha256 (input : bytes) : bytes :=
  let msg := pad_message input in
  let hs := fold_left (block_step msg) (seq 0 (length msg / 64)) initial_hash in
  mjoin (hex_word <$> words_list hs).

(** [random_hex]: [urandom] is what the device gives, nothing when it cannot be opened. *)
Definition random_hex (byte_count : nat) (urandom : option bytes) : bytes :=
  match urandom with
  | None =>
      mjoin ((fun i => [hex_at ((Z.of_nat i * 7) mod 16); hex_at ((Z.of_nat i * 13 + 3) mod 16)])
               <$> seq 0 byte_count)
  | Some buf =>
      mjoin ((fun c => [hex_at (Z.shiftr (code c) 4); hex_at (Z.land (code c) 15)]) <$> take byte_count buf)
  end.

(** ** Lemmas *)
Definition word (z : Z) : Prop := 0 <= z < 2 ^ 32.

Lemma u32_word z : word (u32 z).
Proof. unfold word, u32. apply Z.mod_pos_bound. lia. Qed.

Lemma word_testbit z i : word z -> 32 <= i -> Z.testbit z i = false.
Proof.
  intros [H0 H1] Hi. destruct (decide (z = 0)) as [->|Hz]; [apply Z.testbit_0_l|].
  apply Z.bits_above_log2; [done|]. apply Z.log2_lt_pow2; [lia|].
  apply Z.lt_le_trans with (2 ^ 32); [done|]. apply Z.pow_le_mono_r; lia.
Qed.

(** [rr] is the rotation of the word's bits. *)
Lemma rr_testbit x n i :
  word x -> 0 < n < 32 -> 0 <= i < 32 -> Z.testbit (rr x n) i = Z.testbit x ((i + n) mod 32).
Proof.
  intros Hx Hn Hi. unfold rr, u32. rewrite Z.lor_spec, Z.shiftr_spec, Z.mod_pow2_bits_low,
    Z.shiftl_spec by lia.
  destruct (decide (i + n < 32)) as [Hlt|Hge].
  - rewrite (Z.testbit_neg_r x (i - (32 - n))), orb_false_r by lia. by rewrite Z.mod_small by lia.
  - rewrite (word_testbit x (i + n)), orb_false_l by (done || lia). f_equal.
    rewrite <- (Z.mod_add _ (-1)) by lia. rewrite Z.mod_small; lia.
Qed.

Lemma ch_testbit e f g i :
  0 <= i < 32 -> Z.testbit (ch e f g) i = if Z.testbit e i then Z.testbit f i else Z.testbit g i.
Proof.
  intros Hi. unfold ch, not32. rewrite Z.lxor_spec, !Z.land_spec, Z.lxor_spec.
  change (2 ^ 32 - 1) with (Z.ones 32). rewrite Z.ones_spec_low by lia.
  by destruct (Z.testbit e i), (Z.testbit f i), (Z.testbit g i).
Qed.

Definition majority (x y z : bool) : bool := if x then y || z else y && z.

Lemma maj_testbit a b c i :
  Z.testbit (maj a b c) i = majority (Z.testbit a i) (Z.testbit b i) (Z.testbit c i).
Proof.
  unfold maj. rewrite !Z.lxor_spec, !Z.land_spec.
  by destruct (Z.testbit a i), (Z.testbit b i), (Z.testbit c i).
Qed.

(** The zero padding stops, at the first length that leaves room for the count. *)
Lemma pad_zeros_spec fuel msg :
  (56 - zlen msg) mod 64 < Z.of_nat fuel ->
  pad_zeros fuel msg = msg ++ replicate (Z.to_nat ((56 - zlen msg) mod 64)) 0.
Proof.
  revert msg. induction fuel as [|fuel IH]; intros msg Hf.
  { pose proof (Z.mod_pos_bound (56 - zlen msg) 64). lia. }
  simpl. pose proof (Z.div_mod (zlen msg) 64 ltac:(lia)) as Hd.
  pose proof (Z.mod_pos_bound (zlen msg) 64 ltac:(lia)) as Hb.
  set (r := zlen msg mod 64) in *. set (q := zlen msg / 64) in *.
  assert (Hm : (56 - zlen msg) mod 64 = (56 - r) mod 64).
  { rewrite Hd. replace (56 - (64 * q + r)) with (56 - r + (- q) * 64) by lia. by rewrite Z.mod_add. }
  rewrite Hm in *. destruct (r =? 56) eqn:E; b2p.
  - rewrite E. simpl. by rewrite app_nil_r.
  - assert (Hl : zlen (msg ++ [0]) = zlen msg + 1) by (unfold zlen; rewrite length_app; simpl; lia).
    assert (Hm2 : (56 - zlen (msg ++ [0])) mod 64 = (56 - r) mod 64 - 1).
    { rewrite Hl, Hd. replace (56 - (64 * q + r + 1)) with (55 - r + (- q) * 64) by lia.
      rewrite Z.mod_add by lia. destruct (decide (r <= 55)).
      - rewrite !Z.mod_small by lia. lia.
      - rewrite <- (Z.mod_add (55 - r) 1), <- (Z.mod_add (56 - r) 1), !Z.mod_small by lia. lia. }
    rewrite IH by lia. rewrite <- app_assoc. f_equal. rewrite Hm2.
    assert (0 < (56 - r) mod 64).
    { destruct (decide (r <= 55)); [rewrite Z.mod_small by lia; lia|].
      rewrite <- (Z.mod_add (56 - r) 1), Z.mod_small by lia. lia. }
    replace (Z.to_nat ((56 - r) mod 64)) with (S (Z.to_nat ((56 - r) mod 64 - 1))) by lia. done.
Qed.

Lemma pad_message_eq input :
  exists n, pad_message input
    = (code <$> input) ++ [0x80] ++ replicate n 0
        ++ ((fun i => u8 (Z.shiftr (u64 (zlen input * 8)) (i * 8))) <$> [7; 6; 5; 4; 3; 2; 1; 0])
  /\ zlen (pad_message input) mod 64 = 0.
Proof.
  unfold pad_message. set (m := (code <$> input) ++ [0x80]).
  pose proof (Z.mod_pos_bound (56 - zlen m) 64 ltac:(lia)) as Hb.
  rewrite pad_zeros_spec by (simpl; lia). set (n := Z.to_nat ((56 - zlen m) mod 64)). exists n.
  split; [by rewrite <- app_assoc; unfold m; rewrite <- app_assoc|].
  assert (Hz : zlen ((m ++ replicate n 0)
    ++ ((fun i => u8 (Z.shiftr (u64 (zlen input * 8)) (i * 8))) <$> [7; 6; 5; 4; 3; 2; 1; 0]))
    = zlen m + (56 - zlen m) mod 64 + 8).
  { unfold zlen at 1. rewrite !length_app, length_replicate. simpl. unfold zlen in *. lia. }
  rewrite Hz. pose proof (Z.div_mod (56 - zlen m) 64 ltac:(lia)).
  replace (zlen m + (56 - zlen m) mod 64 + 8) with ((1 - (56 - zlen m) / 64) * 64) by lia.
  by apply Z.mod_mul.
Qed.

Lemma hex_word_length v : length (hex_word v) = 8%nat.
Proof. done. Qed.

Lemma hex_word_chars v c : c ∈ hex_word v -> c ∈ hex_digits.
Proof.
  assert (H : forall x, hex_at (Z.land x 15) ∈ hex_digits).
  { intros x. unfold hex_at. change 15 with (Z.ones 4). rewrite Z.land_ones by lia.
    pose proof (Z.mod_pos_bound x (2 ^ 4) ltac:(lia)) as Hb.
    destruct (hex_digits !! Z.to_nat (x mod 2 ^ 4)) as [d|] eqn:E;
      [by eapply list_elem_of_lookup_2|].
    apply lookup_ge_None in E. change (length hex_digits) with 16%nat in E. lia. }
  unfold hex_word. cbn [fmap list_fmap mjoin list_join app]. intros Hc.
  repeat (apply elem_of_cons in Hc as [->|Hc]; [by apply H|]). set_solver.
Qed.

(** * Properties *)

(** The word operations of the compression function are those of the standard,
    bit by bit: [rr] rotates right, [ch] chooses and [maj] takes the majority. *)
Theorem sha256_word_operations (x y z n i : Z) :
  word x -> 0 < n < 32 -> 0 <= i < 32 ->
  Z.testbit (rr x n) i = Z.testbit x ((i + n) mod 32)
  /\ Z.testbit (ch x y z) i = (if Z.testbit x i then Z.testbit y i else Z.testbit z i)
  /\ Z.testbit (maj x y z) i = majority (Z.testbit x i) (Z.testbit y i) (Z.testbit z i).
Proof.
  intros. split_and!; [by apply rr_testbit|by apply ch_testbit|by apply maj_testbit].
Qed.

Lemma sha256_word_operations_witness : Z.testbit (rr 1 7) 25 = true.
Proof. rewrite (proj1 (sha256_word_operations 1 0 0 7 25 ltac:(done) ltac:(done) ltac:(done))). reflexivity. Defined.

(** The padded message is the input, one bit, the fewest zero bytes and the
    64-bit big-endian bit count, a whole number of blocks; the digest is 64
    lower-case hexadecimal digits; and the published test vectors come out. *)
Theorem sha256_shape_and_vectors (input : bytes) :
  (exists n, pad_message input
     = (code <$> input) ++ [0x80] ++ replicate n 0
         ++ ((fun i => u8 (Z.shiftr (u64 (zlen input * 8)) (i * 8))) <$> [7; 6; 5; 4; 3; 2; 1; 0])
     /\ zlen (pad_message input) mod 64 = 0)
  /\ length (sha256 input) = 64%nat /\ (forall c, c ∈ sha256 input -> c ∈ hex_digits)
  /\ sha256 [] = bs "e3b0c44298fc1c149afbf4c8996fb92427ae41e4649b934ca495991b7852b855"
  /\ sha256 (bs "abc") = bs "ba7816bf8f01cfea414140de5dae2223b00361a396177a9cb410ff61f20015ad"
  /\ sha256 (bs "abcdbcdecdefdefgefghfghighijhijkijkljklmklmnlmnomnopnopq")
     = bs "248d6a61d20638b8e5c026930c3e6039a33ce45964ff2167f6ecedd419db06c1".
Proof.
  split_and!; [apply pad_message_eq|done| |vm_compute; reflexivity..].
  intros c Hc. unfold sha256 in Hc. apply list_elem_of_join in Hc as (l & Hc & Hl).
  apply list_elem_of_fmap in Hl as (v & -> & _). by eapply hex_word_chars.
Qed.
