(* ===== verification/Acl.v ===== *)
(** * Users and passwords (server/acl_manager.hpp) *)

From S2P Require Import Prelude Text RespCodec Sha256.

Record AclUser := mkAclUser { passwords : list bytes; nopass : bool }.

(** [AclUser{}]. *)
Definition new_user : AclUser := mkAclUser [] true.

Record AclManager := mkAclManager { users_ : gmap bytes AclUser }.

Definition new_acl : AclManager := mkAclManager {[ bs "default" := new_user ]}.

Definition get_user (username : bytes) (m : AclManager) : option AclUser := users_ m !! username.

Definition set_password (username password : bytes) (m : AclManager) : AclManager :=
  let user := default new_user (users_ m !! username) in
  mkAclManager (<[username := mkAclUser (passwords user ++ [sha256 password]) false]> (users_ m)).

Definition authenticate (username password : bytes) (m : AclManager) : bool :=
  match get_user username m with
  | None => false
  | Some user => bool_decide (sha256 password ∈ passwords user)
  end.

(** A history of ACL SETUSER rules, oldest first. *)
Definition set_passwords (tr : list (bytes * bytes)) (m : AclManager) : AclManager :=
  fold_left (fun m up => set_password up.1 up.2 m) tr m.

Lemma set_passwords_user tr m u :
  let hashes := sha256 ∘ snd <$> filter (fun up => up.1 = u) tr in
  get_user u (set_passwords tr m)
  = match hashes with
    | [] => get_user u m
    | _ => Some (mkAclUser (default [] (passwords <$> get_user u m) ++ hashes) false)
    end.
Proof.
  revert m. induction tr as [|[u' p] tr IH]; intros m; [done|].
  simpl. rewrite IH. unfold get_user, set_password; simpl. rewrite filter_cons; simpl.
  destruct (decide (u' = u)) as [->|Hne].
  - rewrite lookup_insert_eq. rewrite fmap_cons.
    destruct (users_ m !! u) as [[ps n]|]; simpl;
      destruct (sha256 ∘ snd <$> filter (fun up => up.1 = u) tr); simpl; by rewrite <- ?app_assoc.
  - by rewrite lookup_insert_ne.
Qed.

(** * Properties *)

(** After any history of password rules on a fresh list, a user is accepted
    with a password exactly when some rule for that user set a password of the same
    digest; the user [default] is without password, and so lets every client in,
    exactly while no rule has named it. *)
Theorem acl_accepts_what_was_set (tr : list (bytes * bytes)) (u p : bytes) :
  (authenticate u p (set_passwords tr new_acl) = true
   <-> exists p', (u, p') ∈ tr /\ sha256 p' = sha256 p)
  /\ ((exists user, get_user (bs "default") (set_passwords tr new_acl) = Some user /\ nopass user = true)
      <-> forall p', (bs "default", p') ∉ tr).
Proof.
  pose proof (set_passwords_user tr new_acl) as Hu. simpl in Hu. split.
  - unfold authenticate. rewrite Hu.
    assert (Hin : sha256 p ∈ (sha256 ∘ snd <$> filter (fun up => up.1 = u) tr)
                  <-> exists p', (u, p') ∈ tr /\ sha256 p' = sha256 p).
    { rewrite list_elem_of_fmap. setoid_rewrite list_elem_of_filter. split.
      - intros ([u' p'] & E & <- & Hin). eauto.
      - intros (p' & Hin & E). exists (u, p'). auto. }
    assert (Hnew : default [] (passwords <$> get_user u new_acl) = []).
    { unfold get_user, new_acl. simpl. destruct (decide (u = bs "default")) as [->|];
        [done|by rewrite lookup_singleton_ne by done]. }
    rewrite <- Hin, Hnew. destruct (sha256 ∘ snd <$> _) as [|h hs].
    + split; [|set_solver]. destruct (get_user u new_acl) as [user|]; [|done].
      simpl in Hnew. rewrite Hnew, bool_decide_eq_true. done.
    + simpl. by rewrite bool_decide_eq_true.
  - rewrite Hu. assert (Hin : filter (fun up => up.1 = bs "default") tr = []
                              <-> forall p', (bs "default", p') ∉ tr).
    { split.
      - intros E p' Hp'. assert ((bs "default", p') ∈ filter (fun up => up.1 = bs "default") tr) as Hf
          by (by apply list_elem_of_filter). rewrite E in Hf. set_solver.
      - intros H. apply list_filter_none. intros [u' p'] Hx ?. simpl in *. subst. by apply (H p'). }
    rewrite <- Hin. destruct (filter _ tr); simpl.
    + split; [done|]. intros _. by eexists.
    + split; [by intros (? & [= <-] & ?)|done].
Qed.
