(* ===== verification/ReplicaManager.v ===== *)
(** * Replicas seen from the master (replica/replica_manager.cpp)

    The connected replicas with the offset each has acknowledged, the master's
    own offset, and at most one client in a WAIT. *)

From S2P Require Import Prelude Text StreamIds RespCodec BlockingManager.

Record ReplicaState := mkReplicaState { r_fd : Z; r_offset : Z }.
Record WaitResult := mkWaitResult { wr_client_fd : Z; wr_count : Z }.
Record AckResult := mkAckResult { ack_wait : option WaitResult; ack_consumed : Z }.

Record WaitState := mkWaitState {
  w_client_fd : Z;
  w_numreplicas : Z;
  w_target_offset : Z;
  w_deadline : Z
}.

Record ReplicaManager := mkReplicaManager {
  replicas_ : list ReplicaState;
  master_offset_ : Z;
  wait_state_ : option WaitState
}.

Definition new_replicas : ReplicaManager := mkReplicaManager [] 0 None.

(** The index of the first replica on [fd]. *)
Fixpoint find_index (fd : Z) (rs : list ReplicaState) : option nat :=
  match rs with
  | [] => None
  | r :: rs => if r_fd r =? fd then Some 0%nat else S <$> find_index fd rs
  end.

Definition contains (fd : Z) (rm : ReplicaManager) : bool :=
  match find_index fd (replicas_ rm) with Some _ => true | None => false end.

Definition set_replicas (rs : list ReplicaState) (rm : ReplicaManager) : ReplicaManager :=
  mkReplicaManager rs (master_offset_ rm) (wait_state_ rm).

Definition add_replica (fd : Z) (rm : ReplicaManager) : ReplicaManager :=
  set_replicas (replicas_ rm ++ [mkReplicaState fd 0]) rm.

(** The element at [i] is swapped with the last one, which is then popped. *)
Definition swap_pop {A} (i : nat) (l : list A) : list A :=
  match last l with
  | Some b => take (length l - 1) (<[i := b]> l)
  | None => l
  end.

Definition remove_replica (fd : Z) (rm : ReplicaManager) : ReplicaManager :=
  match find_index fd (replicas_ rm) with
  | Some i => set_replicas (swap_pop i (replicas_ rm)) rm
  | None => rm
  end.

Definition count (rm : ReplicaManager) : Z := zlen (replicas_ rm).

Definition count_acked_for (target : Z) (rm : ReplicaManager) : Z :=
  fold_left (fun n r => if target <=? r_offset r then n + 1 else n) (replicas_ rm) 0.

(** The new offset an acknowledgement carries. *)
Definition ack_offset (args : list bytes) : option Z :=
  match args with
  | a0 :: a1 :: a2 :: _ =>
      if bool_decide (to_upper a0 = bs "REPLCONF") && bool_decide (to_upper a1 = bs "ACK")
      then parse_int64 a2 else None
  | _ => None
  end.

(** The loop of [process_ack]: every parsed command consumes at least three bytes,
    so that the data's length is fuel enough. *)
Fixpoint ack_loop (fuel : nat) (data : bytes) (consumed : nat) (offset : Z) : outcome (nat * Z) :=
  match fuel with
  | O => Ret (consumed, offset)
  | S fuel =>
      if (length data <=? consumed)%nat then Ret (consumed, offset)
      else
        r ← parse_one (drop consumed data);
        match r with
        | Unexpected _ => Ret (consumed, offset)
        | Value pc =>
            ack_loop fuel data (consumed + pc_consumed pc) (default offset (ack_offset (pc_args pc)))
        end
  end.

(** The end of [process_ack]: the wait is over when enough replicas have caught up. *)
Definition finish_wait (rm : ReplicaManager) : ReplicaManager * option WaitResult :=
  match wait_state_ rm with
  | Some w =>
      let acked := count_acked_for (w_target_offset w) rm in
      if w_numreplicas w <=? acked
      then (mkReplicaManager (replicas_ rm) (master_offset_ rm) None,
            Some (mkWaitResult (w_client_fd w) acked))
      else (rm, None)
  | None => (rm, None)
  end.

Definition process_ack (fd : Z) (data : bytes) (rm : ReplicaManager)
  : outcome (ReplicaManager * AckResult) :=
  match find_index fd (replicas_ rm) with
  | None => Ret (rm, mkAckResult None 0)
  | Some i =>
      let r := default (mkReplicaState fd 0) (replicas_ rm !! i) in
      '(consumed, offset) ← ack_loop (length data) data 0 (r_offset r);
      let rm := set_replicas (<[i := mkReplicaState (r_fd r) offset]> (replicas_ rm)) rm in
      let (rm, w) := finish_wait rm in
      Ret (rm, mkAckResult w (Z.of_nat consumed))
  end.

Definition propagate (msg : bytes) (rm : ReplicaManager) : outcome ReplicaManager :=
  o ← int64_of (master_offset_ rm + zlen msg);
  Ret (mkReplicaManager (replicas_ rm) o (wait_state_ rm)).

Definition start_wait (now client_fd numreplicas timeout_ms : Z) (rm : ReplicaManager)
  : outcome ReplicaManager :=
  d ← (if timeout_ms =? 0 then Ret now
       else ns ← int64_of (timeout_ms * 1000000); int64_of (now + ns));
  Ret (mkReplicaManager (replicas_ rm) (master_offset_ rm)
         (Some (mkWaitState client_fd numreplicas (master_offset_ rm) d))).

Definition check_wait_timeout (now : Z) (rm : ReplicaManager) : ReplicaManager * option WaitResult :=
  match wait_state_ rm with
  | None => (rm, None)
  | Some w =>
      if now <? w_deadline w then (rm, None)
      else (mkReplicaManager (replicas_ rm) (master_offset_ rm) None,
            Some (mkWaitResult (w_client_fd w) (count_acked_for (w_target_offset w) rm)))
  end.

Definition next_deadline (rm : ReplicaManager) : option Z := w_deadline <$> wait_state_ rm.

(** ** Lemmas *)
Lemma count_acked_filter target rm :
  count_acked_for target rm = zlen (filter (fun r => target <= r_offset r) (replicas_ rm)).
Proof.
  unfold count_acked_for. set (f := fun n r => if target <=? r_offset r then n + 1 else n).
  enough (forall n, fold_left f (replicas_ rm) n
                    = n + zlen (filter (fun r => target <= r_offset r) (replicas_ rm))) as H
    by (rewrite H; lia).
  induction (replicas_ rm) as [|r rs IH]; intros n; [unfold zlen; simpl; lia|].
  cbn [fold_left]. rewrite IH. unfold f. rewrite filter_cons.
  destruct (target <=? r_offset r) eqn:E; b2p.
  - rewrite decide_True by done. unfold zlen. simpl length. lia.
  - rewrite decide_False by lia. lia.
Qed.

Lemma find_index_Some fd rs i :
  find_index fd rs = Some i -> exists r, rs !! i = Some r /\ r_fd r = fd.
Proof.
  revert i. induction rs as [|r rs IH]; intros i; simpl; [done|].
  destruct (r_fd r =? fd) eqn:E; b2p; [intros [= <-]; eauto|].
  destruct (find_index fd rs) as [j|]; simpl; [|done]. intros [= <-]. by apply IH.
Qed.

Lemma swap_pop_perm {A} (l : list A) i x : l !! i = Some x -> l ≡ₚ x :: swap_pop i l.
Proof.
  intros Hx. unfold swap_pop. destruct (last l) as [b|] eqn:E.
  2: { apply last_None in E as ->. done. }
  apply last_Some in E as [l' ->]. rewrite length_app. simpl.
  replace (length l' + 1 - 1)%nat with (length l') by lia.
  destruct (decide (i < length l')%nat) as [Hi|Hi].
  - rewrite insert_app_l, take_app_length' by (done || by rewrite length_insert).
    rewrite lookup_app_l in Hx by done.
    rewrite <- (take_drop_middle l' i x Hx) at 1. rewrite insert_take_drop by done.
    rewrite <- !app_assoc. simpl. rewrite <- Permutation_middle. constructor.
    f_equiv. rewrite <- Permutation_cons_append. done.
  - apply lookup_lt_Some in Hx as Hlt. rewrite length_app in Hlt. simpl in Hlt.
    assert (i = length l') as -> by lia. rewrite lookup_app_r, Nat.sub_diag in Hx by lia.
    simplify_eq/=. rewrite <- (Nat.add_0_r (length l')) at 2. rewrite insert_app_r. simpl.
    rewrite take_app_length. by rewrite <- Permutation_cons_append.
Qed.

Lemma ack_loop_stream fuel pre cmds tail offset :
  Forall sendable cmds -> incomplete tail -> (length (encode_all cmds) + length tail <= fuel)%nat ->
  ack_loop fuel (pre ++ encode_all cmds ++ tail) (length pre) offset
  = Ret ((length pre + length (encode_all cmds))%nat,
         fold_left (fun o c => default o (ack_offset c)) cmds offset).
Proof.
  intros Hc Ht. revert fuel pre offset. induction cmds as [|cmd cmds IH]; intros fuel pre offset Hf.
  - cbn [encode_all mjoin list_join fmap list_fmap app length fold_left]. rewrite Nat.add_0_r.
    destruct fuel as [|fuel]; [done|]. cbn [ack_loop]. rewrite length_app, drop_app_length.
    destruct (_ <=? _)%nat eqn:E; b2p; [done|].
    destruct Ht as [->|[e ->]]; [simpl in E; lia|done].
  - apply Forall_cons in Hc as [[Hn Hs] Hc]. 
    change (encode_all (cmd :: cmds)) with (encode_array cmd ++ encode_all cmds) in *.
    rewrite length_app in Hf.
    pose proof (encode_array_nonempty cmd) as Hl.
    destruct fuel as [|fuel]; [lia|]. cbn [ack_loop fold_left].
    rewrite (proj2 (Nat.leb_gt _ _)) by (rewrite !length_app; lia).
    rewrite drop_app_length, <- app_assoc, parse_one_encode_rest by done. cbn [mbind outcome_bind].
    cbn [pc_args pc_consumed]. rewrite (app_assoc pre).
    replace (length pre + length (encode_array cmd))%nat with (length (pre ++ encode_array cmd))
      by (rewrite length_app; lia).
    rewrite IH; [|done|lia]. do 2 f_equal. rewrite !length_app. lia.
Qed.

(** The replicas that have acknowledged an offset. *)
Definition caught_up (target : Z) (rm : ReplicaManager) : list ReplicaState :=
  filter (fun r => target <= r_offset r) (replicas_ rm).

(** * Properties *)

(** Acknowledgements that arrive back to back, with an incomplete command at
    the end, set the replica's offset to the last one acknowledged and consume
    exactly the complete commands; a waiting client is answered, once, as soon as
    the replicas that have reached its offset are as many as it asked for, with
    their number, and keeps waiting otherwise. *)
Theorem process_ack_stream (fd : Z) (i : nat) (r : ReplicaState) (cmds : list (list bytes))
    (tail : bytes) (rm : ReplicaManager) :
  find_index fd (replicas_ rm) = Some i -> replicas_ rm !! i = Some r ->
  Forall sendable cmds -> incomplete tail ->
  exists rm' w,
    process_ack fd (encode_all cmds ++ tail) rm
    = Ret (rm', mkAckResult w (zlen (encode_all cmds)))
    /\ replicas_ rm' = <[i := mkReplicaState fd
         (fold_left (fun o c => default o (ack_offset c)) cmds (r_offset r))]> (replicas_ rm)
    /\ master_offset_ rm' = master_offset_ rm
    /\ match wait_state_ rm with
       | None => w = None /\ wait_state_ rm' = None
       | Some ws =>
           let n := zlen (caught_up (w_target_offset ws) rm') in
           if decide (w_numreplicas ws <= n)
           then w = Some (mkWaitResult (w_client_fd ws) n) /\ wait_state_ rm' = None
           else w = None /\ wait_state_ rm' = Some ws
       end.
Proof.
  intros Hi Hr Hc Ht. destruct (find_index_Some _ _ _ Hi) as (r' & Hr' & Hfd).
  assert (r' = r) as -> by congruence. rewrite <- Hfd in *. clear fd Hfd.
  unfold process_ack. rewrite Hi, Hr. simpl default.
  rewrite (ack_loop_stream _ [] cmds tail (r_offset r)) by (done || rewrite length_app; lia).
  cbn [mbind outcome_bind length Nat.add id].
  set (rs := <[i := _]> (replicas_ rm)). unfold finish_wait.
  change (wait_state_ (set_replicas rs rm)) with (wait_state_ rm).
  destruct (wait_state_ rm) as [ws|] eqn:Ew; [|by eexists _, _].
  rewrite count_acked_filter. fold (caught_up (w_target_offset ws) (set_replicas rs rm)).
  destruct (_ <=? _) eqn:E; b2p; eexists _, _; (split; [done|]); (split; [done|]); (split; [done|]).
  - by rewrite decide_True.
  - rewrite decide_False by (unfold caught_up in *; simpl in *; lia). done.
Qed.

Definition replicas_example : ReplicaManager :=
  mkReplicaManager [mkReplicaState 7 0; mkReplicaState 8 31] 31 (Some (mkWaitState 4 2 31 0)).

Lemma process_ack_stream_witness :
  exists rm' w, process_ack 7 (encode_all [[bs "REPLCONF"; bs "ack"; bs "31"]] ++ []) replicas_example
                = Ret (rm', mkAckResult w (zlen (encode_all [[bs "REPLCONF"; bs "ack"; bs "31"]])))
    /\ w = Some (mkWaitResult 4 2).
Proof.
  destruct (process_ack_stream 7 0 (mkReplicaState 7 0) [[bs "REPLCONF"; bs "ack"; bs "31"]] []
    replicas_example) as (rm' & w & H & Hr & _ & Hw).
  - reflexivity.
  - reflexivity.
  - repeat constructor; done.
  - by left.
  - exists rm', w. split; [exact H|]. simpl wait_state_ in Hw. unfold caught_up in Hw.
    rewrite Hr in Hw. vm_compute in Hw. apply Hw.
Defined.

(** A WAIT asks for the offset the master has at that moment; it is answered
    with the number of replicas that have reached it at the first check at or after
    its deadline, which with a timeout of 0 is the moment itself, and no later; and
    a disconnected replica is taken out of the list while the others stay. *)
Theorem wait_deadline_and_disconnect (now now' client n timeout fd : Z) (rm rm' : ReplicaManager) :
  start_wait now client n timeout rm = Ret rm' ->
  exists d, next_deadline rm' = Some d /\ d = now + timeout * 1000000
    /\ replicas_ rm' = replicas_ rm
    /\ check_wait_timeout now' rm'
       = (if decide (now' < d) then (rm', None)
          else (mkReplicaManager (replicas_ rm) (master_offset_ rm) None,
                Some (mkWaitResult client (zlen (caught_up (master_offset_ rm) rm)))))
    /\ (contains fd rm' = true -> exists r, r_fd r = fd
          /\ replicas_ rm' ≡ₚ r :: replicas_ (remove_replica fd rm'))
    /\ (contains fd rm' = false -> remove_replica fd rm' = rm').
Proof.
  unfold start_wait. intros H.
  assert (Hd : exists d, d = now + timeout * 1000000 /\ rm' = mkReplicaManager (replicas_ rm)
    (master_offset_ rm) (Some (mkWaitState client n (master_offset_ rm) d))).
  { destruct (timeout =? 0) eqn:E; b2p; simpl in H; [subst; simplify_eq; exists now; split; [lia|done]|].
    destruct (int64_of (timeout * 1000000)) as [ns| |] eqn:E1; simpl in H; [|done..].
    destruct (int64_of (now + ns)) as [d| |] eqn:E2; simpl in H; simplify_eq.
    apply int64_of_Ret in E1 as [-> _]. apply int64_of_Ret in E2 as [-> _]. eauto. }
  destruct Hd as (d & Hd & ->). exists d. split_and!; [done..| | |].
  - unfold check_wait_timeout; simpl. rewrite count_acked_filter.
    destruct (now' <? d) eqn:E; b2p; [by rewrite decide_True|by rewrite decide_False by lia].
  - unfold contains, remove_replica; simpl. destruct (find_index fd (replicas_ rm)) as [i|] eqn:E; [|done].
    intros _. destruct (find_index_Some _ _ _ E) as (r & Hr & <-). exists r. split; [done|].
    by apply swap_pop_perm.
  - unfold contains, remove_replica; simpl. by destruct (find_index fd (replicas_ rm)).
Qed.

Lemma wait_deadline_and_disconnect_witness :
  exists rm', start_wait 5 4 2 0 replicas_example = Ret rm' /\ next_deadline rm' = Some 5.
Proof.
  eexists. split; [reflexivity|].
  destruct (wait_deadline_and_disconnect 5 5 4 2 0 7 replicas_example _ eq_refl) as (d & H & -> & _).
  exact H.
Defined.
