(* ===== verification/Doubles.v ===== *)
(** * Doubles as text and as numbers (util/parse.hpp)

    What the handlers use of [double]: [std::from_chars] (correctly rounded),
    [snprintf] with the format "%.17g", the product with a constant and the
    conversion to a 64-bit integer, on the IEEE 754 values of [spec_float]. *)

From S2P Require Import Prelude Text RespCodec Scores.

Definition prec : Z := 53.
Definition emax : Z := 1024.

Definition dmul : double -> double -> double := SFmul prec emax.
Definition dltb (x y : double) : bool := SFltb x y.

(** The double nearest to an integer. *)
Definition double_of_Z (n : Z) : double := binary_normalize prec emax n 0 false.

(** ** Reading *)

(** The double nearest to [m * 10 ^ e], for [m > 0]. *)
Definition round_decimal (sx : bool) (m e : Z) : double :=
  if 0 <=? e then binary_round prec emax sx (Z.to_pos (m * 10 ^ e)) 0
  else let '(q, e', l) := SFdiv_core_binary prec emax m 0 (10 ^ (- e)) 0 in
       binary_round_aux prec emax sx q e' l.

(** A decimal whose magnitude is beyond these powers of ten overflows, or
    underflows to zero, whatever its digits. *)
Definition decimal_value (sx : bool) (m e : Z) : option double :=
  if m =? 0 then Some (S754_zero sx)
  else
    let mag := zlen (dec_digits m) + e in
    if 310 <? mag then None
    else if mag <? -330 then None
    else match round_decimal sx m e with
         | S754_finite s p ex => Some (S754_finite s p ex)
         | _ => None
         end.

Definition is_e (c : ascii) : bool := (code c =? 101) || (code c =? 69).

(** An optional exponent that takes the rest of the text. *)
Definition parse_exponent (s : bytes) : option Z :=
  match s with
  | [] => Some 0
  | c :: s =>
      if is_e c then
        let '(neg, s) := match s with
                         | c :: s' => if code c =? 45 then (true, s')
                                      else if code c =? 43 then (false, s') else (false, s)
                         | [] => (false, s)
                         end in
        match span_digits s with
        | (d :: ds, []) => Some (if neg then - dec_value (d :: ds) else dec_value (d :: ds))
        | _ => None
        end
      else None
  end.

Definition is_nan_char (c : ascii) : bool :=
  is_digit c || (code c =? 95) || ((65 <=? code c) && (code c <=? 90)) || ((97 <=? code c) && (code c <=? 122)).

Definition is_nan_text (s : bytes) : bool :=
  bool_decide (s = bs "nan")
  || (bool_decide (take 4 s = bs "nan(") && bool_decide (last s = Some ")"%char)
      && forallb is_nan_char (removelast (drop 4 s))).

Definition parse_special (sx : bool) (s : bytes) : option double :=
  let l := to_lower s in
  if bool_decide (l = bs "inf") || bool_decide (l = bs "infinity") then Some (S754_infinity sx)
  else if is_nan_text l then Some S754_nan
  else None.

Definition parse_decimal (sx : bool) (s : bytes) : option double :=
  let (ds1, r) := span_digits s in
  let (ds2, r) := match r with
                  | c :: r' => if code c =? 46 then span_digits r' else ([], r)
                  | [] => ([], r)
                  end in
  if bool_decide (ds1 ++ ds2 = []) then None
  else e ← parse_exponent r; decimal_value sx (dec_value (ds1 ++ ds2)) (e - zlen ds2).

Definition parse_double (sv : bytes) : option double :=
  let (sx, s) := match sv with
                 | c :: s => if code c =? 45 then (true, s) else (false, sv)
                 | [] => (false, sv)
                 end in
  match parse_special sx s with
  | Some d => Some d
  | None => parse_decimal sx s
  end.

(** ** Writing: "%.17g" *)

(** [m * 2 ^ e] as a fraction. *)
Definition fraction (m : positive) (e : Z) : Z * Z :=
  if 0 <=? e then (Zpos m * 2 ^ e, 1) else (Zpos m, 2 ^ (- e)).

(** The least [k >= k0] with [num * 10 ^ k >= den]. *)
Fixpoint scale_up (fuel : nat) (num den k : Z) : Z :=
  match fuel with
  | O => k
  | S fuel => if den <=? num then k else scale_up fuel (num * 10) den (k + 1)
  end.

(** The [x] with [10 ^ x <= num / den < 10 ^ (x + 1)]. *)
Definition decimal_exponent (num den : Z) : Z :=
  if den <=? num then zlen (dec_digits (num / den)) - 1 else - scale_up 400 num den 0.

Definition round_half_even (num den : Z) : Z :=
  let q := num / den in
  let r := num mod den in
  if 2 * r <? den then q
  else if den <? 2 * r then q + 1
  else if Z.even q then q else q + 1.

(** The 17 significant digits and the decimal exponent, after rounding. *)
Definition digits17 (num den : Z) : Z * Z :=
  let x := decimal_exponent num den in
  let s := 16 - x in
  let n := if 0 <=? s then round_half_even (num * 10 ^ s) den
           else round_half_even num (den * 10 ^ (- s)) in
  if n =? 10 ^ 17 then (10 ^ 16, x + 1) else (n, x).

Fixpoint strip_zeros (rev_ds : bytes) : bytes :=
  match rev_ds with
  | c :: ds => if code c =? 48 then strip_zeros ds else rev_ds
  | [] => []
  end.

(** A fractional part without its trailing zeros, and without the point if none is left. *)
Definition point (frac : bytes) : bytes :=
  match rev (strip_zeros (rev frac)) with
  | [] => []
  | ds => bs "." ++ ds
  end.

Definition pad2 (ds : bytes) : bytes := if (length ds <? 2)%nat then bs "0" ++ ds else ds.

Definition layout (n x : Z) : bytes :=
  let ds := dec_digits n in
  if (-4 <=? x) && (x <? 17) then
    if x <? 0 then bs "0" ++ point (replicate (Z.to_nat (- x - 1)) "0"%char ++ ds)
    else take (Z.to_nat (x + 1)) ds ++ point (drop (Z.to_nat (x + 1)) ds)
  else take 1 ds ++ point (drop 1 ds) ++ bs "e"
         ++ (if x <? 0 then bs "-" else bs "+") ++ pad2 (dec_digits (Z.abs x)).

Definition sign_text (s : bool) : bytes := if s then bs "-" else [].

(** [spec_float] has one NaN, without a sign. *)
Definition format_g17 (d : double) : bytes :=
  match d with
  | S754_zero s => sign_text s ++ bs "0"
  | S754_infinity s => sign_text s ++ bs "inf"
  | S754_nan => bs "nan"
  | S754_finite s m e =>
      let (num, den) := fraction m e in
      let (n, x) := digits17 num den in
      sign_text s ++ layout n x
  end.

(** [static_cast<int64_t>(d)]: the value truncated, undefined out of range. *)
Definition cast_int64 (d : double) : outcome Z :=
  match d with
  | S754_zero _ => Ret 0
  | S754_finite s m e =>
      let (num, den) := fraction m e in
      let v := if s then - (num / den) else num / den in
      if in_int64b v then Ret v else Ub BadCast
  | _ => Ub BadCast
  end.

(** ** Examples *)
Example parse_double_ex :
  (fun s => format_g17 <$> parse_double s) <$>
    [bs "3.14"; bs "-0"; bs "1e22"; bs ".5"; bs "5."; bs "1e"; bs "1e400"; bs "-inf"; bs "1e-5";
     bs "123456789.123"; bs "+1"; bs "NaN"; bs "2.5e-324"; bs "9007199254740993"; bs "0.1"; bs "1e17"]
  = [Some (bs "3.1400000000000001"); Some (bs "-0"); Some (bs "1e+22"); Some (bs "0.5"); Some (bs "5");
     None; None; Some (bs "-inf"); Some (bs "1.0000000000000001e-05");
     Some (bs "123456789.123"); None; Some (bs "nan"); Some (bs "4.9406564584124654e-324");
     Some (bs "9007199254740992"); Some (bs "0.10000000000000001"); Some (bs "1e+17")].
Proof. vm_compute. reflexivity. Qed.

Example cast_ex :
  (fun d => cast_int64 (dmul d (double_of_Z 1000))) <$>
    omap parse_double [bs "0.5"; bs "1.9999"; bs "-0.0001"; bs "1e300"]
  = [Ret 500; Ret 1999; Ret 0; Ub BadCast].
Proof. vm_compute. reflexivity. Qed.

(** ** Integers are exact *)
Lemma digits2_iter p d : Zpos (digits2_pos (Pos.iter xO p d)) = Zpos (digits2_pos p) + Zpos d.
Proof.
  induction d as [|d IH] using Pos.peano_ind; [simpl; lia|].
  rewrite Pos.iter_succ. simpl. lia.
Qed.

Lemma iter_xO_value p d : Zpos (Pos.iter xO p d) = Zpos p * 2 ^ Zpos d.
Proof.
  induction d as [|d IH] using Pos.peano_ind; [simpl; lia|].
  rewrite Pos.iter_succ, Pos2Z.inj_xO, IH, Pos2Z.inj_succ, Z.pow_succ_r by lia. lia.
Qed.

Lemma digits2_lower p : 2 ^ (Zpos (digits2_pos p) - 1) <= Zpos p.
Proof.
  induction p as [p IH|p IH|]; simpl digits2_pos; [| |done];
    rewrite Pos2Z.inj_succ; replace (Z.succ (Zpos (digits2_pos p)) - 1)
      with (Z.succ (Zpos (digits2_pos p) - 1)) by lia; rewrite Z.pow_succ_r by lia; lia.
Qed.

(** Rounding does nothing to a mantissa of full width. *)
Lemma round_aux_exact sx m e :
  Zpos (digits2_pos m) = prec -> emin prec emax <= e <= emax - prec ->
  binary_round_aux prec emax sx (Zpos m) e loc_Exact = S754_finite sx m e.
Proof.
  intros Hd He. unfold binary_round_aux, shr_fexp. simpl Zdigits2. rewrite Hd.
  assert (Hf : fexp prec emax (prec + e) - e = 0) by (unfold fexp; lia).
  rewrite Hf. simpl shr. cbn [shr_m loc_of_shr_record shr_record_of_loc round_nearest_even].
  simpl Zdigits2. rewrite Hd, Hf. simpl. by rewrite (proj2 (Z.leb_le _ _)) by lia.
Qed.

Lemma binary_round_int sx p :
  Zpos p < 2 ^ 53 -> exists m e, binary_round prec emax sx p 0 = S754_finite sx m e
    /\ e <= 0 /\ Zpos m = Zpos p * 2 ^ (- e).
Proof.
  intros Hp. pose proof (digits2_lower p) as Hl.
  assert (Hd : 1 <= Zpos (digits2_pos p) <= 53).
  { split; [lia|]. assert (Zpos (digits2_pos p) - 1 < 53); [|lia].
    apply (Z.pow_lt_mono_r_iff 2); lia. }
  set (d := Zpos (digits2_pos p)) in *. unfold binary_round, shl_align. fold d.
  assert (Hf : fexp prec emax (d + 0) - 0 = d - 53) by (unfold fexp, emin, prec, emax; lia).
  assert (Hf' : fexp prec emax (d + 0) = d - 53) by lia. rewrite Hf.
  destruct (d - 53) as [|q|q] eqn:E; [|lia|].
  - exists p, 0. split_and!; [|lia|simpl; lia].
    apply round_aux_exact; [unfold prec; lia|unfold emin, prec, emax; lia].
  - rewrite Hf'. exists (Pos.iter xO p q), (Zneg q). split_and!; [|lia|apply iter_xO_value].
    apply round_aux_exact; [rewrite digits2_iter; fold d; unfold prec; lia|].
    unfold emin, prec, emax; lia.
Qed.

Lemma fraction_int p m e :
  e <= 0 -> Zpos m = Zpos p * 2 ^ (- e) ->
  exists den, 0 < den /\ fraction m e = (Zpos p * den, den).
Proof.
  intros He Hm. unfold fraction. destruct (0 <=? e) eqn:E; b2p.
  - assert (e = 0) as -> by lia. exists 1. split; [lia|]. simpl in Hm. f_equal; simpl; lia.
  - exists (2 ^ (- e)). split; [apply Z.pow_pos_nonneg; lia|]. by rewrite Hm.
Qed.

Lemma round_half_even_exact n den : 0 < den -> round_half_even (n * den) den = n.
Proof.
  intros Hd. unfold round_half_even. rewrite Z.div_mul, Z.mod_mul by lia.
  by rewrite (proj2 (Z.ltb_lt _ _)) by lia.
Qed.

Lemma strip_zeros_all n : strip_zeros (replicate n "0"%char) = [].
Proof. induction n; done. Qed.

Lemma point_zeros n : point (replicate n "0"%char) = [].
Proof.
  assert (Hr : rev (replicate n "0"%char) = replicate n "0"%char).
  { induction n as [|n IH]; [done|]. simpl. rewrite IH. symmetry. apply replicate_S_end. }
  unfold point. by rewrite Hr, strip_zeros_all.
Qed.

Lemma layout_int p den :
  0 < den -> Zpos p < 2 ^ 53 ->
  (let (n, x) := digits17 (Zpos p * den) den in layout n x) = dec_digits (Zpos p).
Proof.
  intros Hd Hp. unfold digits17, decimal_exponent.
  rewrite (proj2 (Z.leb_le den _)) by nia. rewrite Z.div_mul by lia.
  pose proof (dec_digits_magnitude (Zpos p) ltac:(lia)) as [Hlo Hhi].
  pose proof (dec_digits_ne (Zpos p) ltac:(lia)) as Hne.
  set (ds := dec_digits (Zpos p)) in *. set (l := zlen ds).
  assert (Hl : 1 <= l <= 16).
  { split; [unfold l, zlen; destruct ds; simpl; [done|lia]|].
    assert (l - 1 < 16); [|lia]. apply (Z.pow_lt_mono_r_iff 10); [lia..|].
    unfold l, zlen. change (10 ^ 16) with 10000000000000000. lia. }
  rewrite (proj2 (Z.leb_le 0 _)) by lia.
  replace (Zpos p * den * 10 ^ (16 - (l - 1))) with (Zpos p * 10 ^ (17 - l) * den)
    by (replace (16 - (l - 1)) with (17 - l) by lia; lia).
  rewrite round_half_even_exact by done.
  assert (Hup : Zpos p * 10 ^ (17 - l) < 10 ^ 17).
  { replace 17 with (l + (17 - l)) at 2 by lia. rewrite Z.pow_add_r by lia.
    apply Z.mul_lt_mono_pos_r; [apply Z.pow_pos_nonneg; lia|]. exact Hhi. }
  rewrite (proj2 (Z.eqb_neq _ _)) by lia. unfold layout.
  replace (10 ^ (17 - l)) with (10 ^ Z.of_nat (Z.to_nat (17 - l))) by (f_equal; lia).
  rewrite dec_digits_times10 by lia. fold ds.
  rewrite (proj2 (Z.leb_le (-4) _)), (proj2 (Z.ltb_lt _ 17)), (proj2 (Z.ltb_ge _ 0)) by lia. simpl andb.
  replace (Z.to_nat (l - 1 + 1)) with (length ds) by (unfold l, zlen; lia). cbv iota.
  by rewrite take_app_length, drop_app_length, point_zeros, app_nil_r.
Qed.

Lemma parse_special_digits sx c s : is_digit c = true -> parse_special sx (c :: s) = None.
Proof.
  intros Hc. assert (Hl : to_lower (c :: s) = c :: to_lower s).
  { change (to_lower (c :: s)) with (tolower c :: to_lower s). f_equal.
    unfold tolower. unfold is_digit in Hc. b2p. by rewrite (proj2 (Z.leb_gt 65 (code c))) by lia. }
  assert (Hne : forall d t, is_digit d = false -> to_lower (c :: s) <> d :: t).
  { intros d t Hd H. rewrite Hl in H. injection H as -> _. congruence. }
  unfold parse_special, is_nan_text. cbv zeta. rewrite Hl in *.
  rewrite (bool_decide_eq_false_2 (_ = bs "inf")), (bool_decide_eq_false_2 (_ = bs "infinity")),
    (bool_decide_eq_false_2 (_ = bs "nan")) by (by apply Hne).
  rewrite (bool_decide_eq_false_2 (take 4 _ = _)); [done|].
  cbn [take]. intros H. injection H as Hd _. by subst.
Qed.

Lemma parse_decimal_int sx p :
  Zpos p < 2 ^ 53 -> parse_decimal sx (dec_digits (Zpos p)) = Some (binary_round prec emax sx p 0).
Proof.
  intros Hp. unfold parse_decimal.
  destruct (dec_digits_spec (Zpos p) ltac:(lia)) as (Hne & Hds & Hv).
  rewrite span_digits_all by done. rewrite app_nil_r, bool_decide_eq_false_2 by done.
  cbn [parse_exponent mbind option_bind]. rewrite Hv. unfold decimal_value. cbn [Z.eqb].
  pose proof (dec_digits_magnitude (Zpos p) ltac:(lia)) as [Hlo _].
  assert (Hl : 0 <= zlen (dec_digits (Zpos p)) <= 16).
  { split; [apply zlen_nonneg|]. assert (zlen (dec_digits (Zpos p)) - 1 < 16); [|lia].
    apply (Z.pow_lt_mono_r_iff 10); [lia..|]. change (10 ^ 16) with 10000000000000000. unfold zlen. lia. }
  change (0 - zlen ([] : bytes)) with 0. rewrite !(proj2 (Z.ltb_ge _ _)) by lia.
  unfold round_decimal. cbn [Z.leb Z.compare]. rewrite Z.mul_1_r. simpl Z.to_pos.
  by destruct (binary_round_int sx p Hp) as (m & e & -> & _).
Qed.

(** * Properties *)

(** A score given as an integer of at most 53 bits is kept exactly: reading its
    decimal text and writing the double with "%.17g" gives the text back. *)
Theorem integer_score_roundtrip (n : Z) :
  Z.abs n < 2 ^ 53 -> format_g17 <$> parse_double (to_string n) = Some (to_string n).
Proof.
  intros Hn. destruct n as [|p|p]; [by vm_compute| |].
  - destruct (dec_digits_spec (Zpos p) ltac:(lia)) as (Hne & Hds & _).
    change (to_string (Zpos p)) with (dec_digits (Zpos p)).
    assert (Hp : parse_double (dec_digits (Zpos p)) = parse_decimal false (dec_digits (Zpos p))).
    { unfold parse_double. destruct (dec_digits (Zpos p)) as [|c s]; [done|].
      apply Forall_cons in Hds as [Hc _]. assert (code c =? 45 = false) as ->
        by (unfold is_digit in Hc; b2p; apply Z.eqb_neq; lia).
      by rewrite parse_special_digits. }
    rewrite Hp, parse_decimal_int by (simpl in Hn; lia).
    destruct (binary_round_int false p ltac:(simpl in Hn; lia)) as (m & e & -> & He & Hm).
    simpl. destruct (fraction_int p m e He Hm) as (den & Hd & ->).
    pose proof (layout_int p den Hd ltac:(simpl in Hn; lia)) as HL.
    destruct (digits17 _ _) as [n x]. by rewrite HL.
  - destruct (dec_digits_spec (Zpos p) ltac:(lia)) as (Hne & Hds & _).
    change (to_string (Zneg p)) with ("-"%char :: dec_digits (Zpos p)).
    unfold parse_double. change (code "-"%char =? 45) with true. cbv iota.
    destruct (dec_digits (Zpos p)) as [|c s] eqn:E; [done|].
    apply Forall_cons in Hds as [Hc _]. rewrite parse_special_digits by done. rewrite <- E.
    rewrite parse_decimal_int by (simpl in Hn; lia).
    destruct (binary_round_int true p ltac:(simpl in Hn; lia)) as (m & e & -> & He & Hm).
    simpl. destruct (fraction_int p m e He Hm) as (den & Hd & ->).
    pose proof (layout_int p den Hd ltac:(simpl in Hn; lia)) as HL.
    destruct (digits17 _ _) as [n x]. by rewrite HL.
Qed.

Lemma integer_score_roundtrip_witness :
  format_g17 <$> parse_double (bs "-9007199254740991") = Some (bs "-9007199254740991").
Proof. apply (integer_score_roundtrip (-9007199254740991)). reflexivity. Defined.
