(* ===== verification/DoublesSpec.v ===== *)
(** * Seventeen digits are enough for a double

    A score is written with "%.17g" (ZSCORE, and ZADD in the append-only file) and read
    back with [std::from_chars] (ZADD).  Here: the text of every double reads back to the
    double.  The first part is the rounding to nearest of [spec_float], on fractions; the
    second the size of the error of 17 digits; the third the text. *)

From S2P Require Import Prelude Text RespCodec Scores Doubles.

(** ** Rounding to the nearest double *)

(** [W / U] lies at [q], or between [q] and [q + 1] as the location says. *)
Definition located (W U q : Z) (l : location) : Prop :=
  match l with
  | loc_Exact => W = q * U
  | loc_Inexact c => q * U < W < (q + 1) * U /\ (2 * W ?= (2 * q + 1) * U) = c
  end.

Lemma located_bounds W U q l : 0 < U -> located W U q l -> q * U <= W < (q + 1) * U.
Proof. destruct l as [|c]; simpl; intros; lia. Qed.

Lemma shr_1_nonneg m r s :
  0 <= m -> shr_1 (Build_shr_record m r s) = Build_shr_record (m / 2) (Z.odd m) (r || s).
Proof.
  intros Hm. destruct m as [|[p|p|]|p]; try done; simpl; f_equal.
  - rewrite Pos2Z.inj_xI. symmetry. by rewrite Z.mul_comm, Z.div_add_l by lia.
  - rewrite Pos2Z.inj_xO, Z.mul_comm. symmetry. by apply Z.div_mul.
Qed.

Lemma located_halve (W U h : Z) (b r s : bool) :
  0 < U ->
  located W U (2 * h + (if b then 1 else 0)) (loc_of_shr_record (Build_shr_record 0 r s)) ->
  located W (U * 2) h (loc_of_shr_record (Build_shr_record 0 b (r || s))).
Proof.
  intros HU. assert (exists X, X = h * U) as [X HX] by eauto.
  assert (forall k, (2 * h + k) * U = 2 * X + k * U) as E1 by (intros; rewrite HX; ring).
  assert (h * (U * 2) = 2 * X /\ (h + 1) * (U * 2) = 2 * X + 2 * U /\ (2 * h + 1) * (U * 2) = 4 * X + 2 * U) as (E2 & E3 & E4)
    by (rewrite HX; split_and!; ring).
  assert (forall k, (2 * (2 * h + k) + 1) * U = 4 * X + (2 * k + 1) * U) as E5 by (intros; rewrite HX; ring).
  assert (forall k, (2 * h + k + 1) * U = 2 * X + (k + 1) * U) as E6 by (intros; rewrite HX; ring).
  destruct b, r, s; simpl; rewrite ?E2, ?E3, ?E4, ?E5, ?E6, ?E1; clear E1 E2 E3 E4 E5 E6 HX; intros H;
    rewrite ?Z.compare_lt_iff, ?Z.compare_gt_iff, ?Z.compare_eq_iff in *; lia.
Qed.

Lemma shr_1_located W U r :
  0 < U -> 0 <= shr_m r -> located W U (shr_m r) (loc_of_shr_record r) ->
  0 <= shr_m (shr_1 r) /\ located W (U * 2) (shr_m (shr_1 r)) (loc_of_shr_record (shr_1 r)).
Proof.
  intros HU Hm H. destruct r as [m r s]. rewrite shr_1_nonneg by done. simpl shr_m in *.
  split; [by apply Z.div_pos|]. apply (located_halve W U (m / 2) (Z.odd m)); [done|].
  replace (2 * (m / 2) + (if Z.odd m then 1 else 0)) with m; [exact H|].
  pose proof (Z.div_mod m 2 ltac:(done)). rewrite Zmod_odd in *. lia.
Qed.

Lemma shr_located n : forall W U r,
  0 < U -> 0 <= shr_m r -> located W U (shr_m r) (loc_of_shr_record r) ->
  0 <= shr_m (iter_pos shr_1 n r)
  /\ located W (U * 2 ^ Zpos n) (shr_m (iter_pos shr_1 n r)) (loc_of_shr_record (iter_pos shr_1 n r)).
Proof.
  induction n as [n IH|n IH|]; intros W U r HU Hm H; simpl iter_pos.
  - destruct (shr_1_located W U r HU Hm H) as [Hm1 H1].
    assert (0 < 2 ^ Zpos n) by (apply Z.pow_pos_nonneg; lia).
    destruct (IH W (U * 2) (shr_1 r) ltac:(lia) Hm1 H1) as [Hm2 H2].
    destruct (IH W (U * 2 * 2 ^ Zpos n) _ ltac:(nia) Hm2 H2) as [Hm3 H3]. split; [done|].
    replace (U * 2 ^ Zpos n~1) with (U * 2 * 2 ^ Zpos n * 2 ^ Zpos n); [done|].
    replace (Zpos n~1) with (1 + (Zpos n + Zpos n)) by lia. rewrite !Z.pow_add_r by lia. lia.
  - assert (0 < 2 ^ Zpos n) by (apply Z.pow_pos_nonneg; lia).
    destruct (IH W U r HU Hm H) as [Hm2 H2].
    destruct (IH W (U * 2 ^ Zpos n) _ ltac:(nia) Hm2 H2) as [Hm3 H3]. split; [done|].
    replace (U * 2 ^ Zpos n~0) with (U * 2 ^ Zpos n * 2 ^ Zpos n); [done|].
    replace (Zpos n~0) with (Zpos n + Zpos n) by lia. rewrite !Z.pow_add_r by lia. lia.
  - by apply shr_1_located.
Qed.

Lemma loc_of_record q l : loc_of_shr_record (shr_record_of_loc q l) = l /\ shr_m (shr_record_of_loc q l) = q.
Proof. by destruct l as [|[]]. Qed.

(** The binary digits of an integer. *)
Lemma digits2_upper p : Zpos p < 2 ^ Zpos (digits2_pos p).
Proof.
  induction p as [p IH|p IH|]; simpl digits2_pos; [| |done];
    rewrite Pos2Z.inj_succ, Z.pow_succ_r by lia; lia.
Qed.

Lemma digits_le q k : 0 <= k -> 0 <= q < 2 ^ k -> Zdigits2 q <= k.
Proof.
  intros Hk Hq. destruct q as [|p|p]; simpl; [done| |lia]. pose proof (digits2_lower p).
  assert (Zpos (digits2_pos p) - 1 < k); [|lia]. apply (Z.pow_lt_mono_r_iff 2); lia.
Qed.

Lemma digits_ge q k : 0 <= k -> 2 ^ k <= q -> k + 1 <= Zdigits2 q.
Proof.
  intros Hk Hq. assert (0 < 2 ^ k) by (apply Z.pow_pos_nonneg; lia).
  destruct q as [|p|p]; simpl; [lia| |lia]. pose proof (digits2_upper p).
  assert (k < Zpos (digits2_pos p)); [|lia]. apply (Z.pow_lt_mono_r_iff 2); lia.
Qed.

Notation fexp := (fexp prec emax).
Notation bounded := (bounded prec emax).

Lemma fexp_val k : fexp k = Z.max (k - 53) (-1074).
Proof. reflexivity. Qed.

(** The unit of the last place, in units of the smallest double. *)
Definition scale (e : Z) : Z := 2 ^ (e + 1074).

Lemma scale_pos e : -1074 <= e -> 0 < scale e.
Proof. intros. apply Z.pow_pos_nonneg; lia. Qed.

Lemma scale_add e n : -1074 <= e -> 0 <= n -> scale (e + n) = scale e * 2 ^ n.
Proof. intros. unfold scale. rewrite <- Z.pow_add_r by lia. f_equal. lia. Qed.

Lemma shr_fexp_located W b q e l :
  0 < b -> 0 <= q -> -1074 <= e <= fexp (Zdigits2 q + e) -> located W (b * scale e) q l ->
  exists r, shr_fexp prec emax q e l = (r, fexp (Zdigits2 q + e)) /\ 0 <= shr_m r
    /\ located W (b * scale (fexp (Zdigits2 q + e))) (shr_m r) (loc_of_shr_record r).
Proof.
  intros Hb Hq He H. unfold shr_fexp. set (E := fexp _) in *. pose proof (loc_of_record q l) as [H1 H2].
  assert (Hr : located W (b * scale e) (shr_m (shr_record_of_loc q l)) (loc_of_shr_record (shr_record_of_loc q l)))
    by (by rewrite H1, H2).
  assert (Hq' : 0 <= shr_m (shr_record_of_loc q l)) by (by rewrite H2). pose proof (scale_pos e ltac:(lia)).
  destruct (E - e) as [|n|n] eqn:En; [|simpl shr|lia].
  - exists (shr_record_of_loc q l). replace E with e by lia. by split_and!.
  - destruct (shr_located n W (b * scale e) _ ltac:(nia) Hq' Hr) as [Hm Hl].
    exists (iter_pos shr_1 n (shr_record_of_loc q l)). split; [f_equal; lia|]. split; [done|].
    replace E with (e + Zpos n) by lia. rewrite scale_add by lia. by rewrite Z.mul_assoc.
Qed.

Lemma round_near W U q l n :
  0 < U -> located W U q l -> 2 * Z.abs (W - n * U) < U -> round_nearest_even q l = n.
Proof.
  intros HU Hl Hn. pose proof (located_bounds W U q l HU Hl) as Hb.
  assert (n = q \/ n = q + 1) as [->| ->] by nia.
  - destruct l as [|[| |]]; simpl in *; try done;
      rewrite ?Z.compare_gt_iff, ?Z.compare_eq_iff in Hl; lia.
  - destruct l as [|[| |]]; simpl in *; try done;
      rewrite ?Z.compare_lt_iff, ?Z.compare_eq_iff in Hl; lia.
Qed.

(** A fraction of at least [2 ^ k] units has at least so many digits before the point. *)
Lemma digits_from_below W b q e' l e k :
  0 < b -> -1074 <= e' <= e -> 0 <= k -> located W (b * scale e') q l -> 2 ^ k * (b * scale e) <= W ->
  k + 1 + e <= Zdigits2 q + e'.
Proof.
  intros Hb He Hk Hl HW. pose proof (scale_pos e' ltac:(lia)) as Hs.
  pose proof (located_bounds W (b * scale e') q l ltac:(nia) Hl) as [_ Hup].
  assert (k + (e - e') + 1 <= Zdigits2 q); [|lia]. apply digits_ge; [lia|].
  replace e with (e' + (e - e')) in HW by lia. rewrite scale_add in HW by lia. rewrite Z.pow_add_r by lia.
  assert (0 < b * scale e') by nia. set (U := b * scale e') in *.
  assert (2 ^ k * 2 ^ (e - e') * U < (q + 1) * U); [|nia].
  eapply Z.le_lt_trans; [|exact Hup]. etransitivity; [|exact HW]. unfold U. lia.
Qed.

Lemma digits_from_above W b q e' l e k :
  0 < b -> 0 <= q -> -1074 <= e' -> -1074 <= e -> 0 <= k -> e' <= fexp (Zdigits2 q + e') ->
  located W (b * scale e') q l -> W < 2 ^ k * (b * scale e) -> Zdigits2 q + e' <= k + e.
Proof.
  intros Hb Hq He' He Hk Hf Hl HW. rewrite fexp_val in Hf. destruct q as [|p|p]; [simpl in *; lia| |lia].
  pose proof (scale_pos e' ltac:(lia)) as Hs.
  pose proof (located_bounds W (b * scale e') _ l ltac:(nia) Hl) as [Hlo _]. pose proof (digits2_lower p) as Hd.
  simpl Zdigits2. assert (Zpos (digits2_pos p) - 1 + (e' + 1074) < k + (e + 1074)); [|lia].
  apply (Z.pow_lt_mono_r_iff 2); [lia..|].
  rewrite (Z.pow_add_r 2 k), (Z.pow_add_r 2 (Zpos (digits2_pos p) - 1)) by lia. fold (scale e) (scale e'). set (D := 2 ^ (Zpos (digits2_pos p) - 1)) in *. set (K := 2 ^ k) in *.
  apply (Z.mul_lt_mono_pos_l b); [done|].
  assert (D * (b * scale e') <= Zpos p * (b * scale e')) by (apply Z.mul_le_mono_nonneg_r; nia). lia.
Qed.

Lemma bounded_spec m e :
  bounded m e = true ->
  -1074 <= e <= 971 /\ Zpos m < 2 ^ 53 /\ fexp (Zpos (digits2_pos m) + e) = e /\ (e = -1074 \/ 2 ^ 52 <= Zpos m).
Proof.
  unfold SpecFloat.bounded, canonical_mantissa. intros H. b2p. change (emax - prec) with 971 in *.
  match goal with H : fexp _ = e |- _ => pose proof H as Hf; rewrite fexp_val in H end.
  pose proof (digits2_upper m). pose proof (digits2_lower m). split_and!; [lia|lia| |done|].
  - eapply Z.lt_le_trans; [eassumption|]. apply Z.pow_le_mono_r; lia.
  - destruct (decide (e = -1074)); [by left|right]. etransitivity; [|eassumption]. apply Z.pow_le_mono_r; lia.
Qed.

(** [W / b], in units of the smallest double, is nearer to [m * 2 ^ e] than to any other
    double: less than half a unit away, and less than a quarter below a power of two. *)
Definition near (W b : Z) (m : positive) (e : Z) : Prop :=
  2 * Z.abs (W - Zpos m * (b * scale e)) < b * scale e
  /\ (Zpos m = 2 ^ 52 -> 4 * (Zpos m * (b * scale e) - W) < b * scale e).

(** The exponent the rounding chooses. *)
Lemma near_exponent W b q e' l m e :
  0 < b -> 0 <= q -> -1074 <= e' <= fexp (Zdigits2 q + e') -> located W (b * scale e') q l ->
  bounded m e = true -> near W b m e ->
  fexp (Zdigits2 q + e') = e \/ (fexp (Zdigits2 q + e') = e - 1 /\ Zpos m = 2 ^ 52 /\ -1074 < e /\ W < Zpos m * (b * scale e)).
Proof.
  intros Hb Hq He' Hl Hm [Hn Hq4]. destruct (bounded_spec m e Hm) as (He & Hm53 & _ & Hnorm).
  pose proof (scale_pos e ltac:(lia)) as Hs. assert (HU : 0 < b * scale e) by nia.
  assert (Hup : Zdigits2 q + e' <= 53 + e).
  { apply (digits_from_above W b q e' l e 53); try done; [lia..|].
    set (U := b * scale e) in *. assert ((Zpos m + 1) * U <= 2 ^ 53 * U) by (apply Z.mul_le_mono_nonneg_r; lia). lia. }
  rewrite fexp_val in *. destruct (decide (e = -1074)) as [->|Hne]; [left; lia|].
  destruct Hnorm as [?|Hnorm]; [done|].
  destruct (decide (2 ^ 52 * (b * scale e) <= W)) as [Hlo|Hlo].
  - left. pose proof (digits_from_below W b q e' l e 52 Hb ltac:(lia) ltac:(lia) Hl Hlo). lia.
  - set (U := b * scale e) in *. assert (Zpos m = 2 ^ 52) as Em.
    { assert (Zpos m < 2 ^ 52 + 1); [|lia]. apply (Z.mul_lt_mono_pos_r U); [done|]. lia. }
    specialize (Hq4 Em). rewrite Em in Hq4.
    assert (2 ^ 51 * U <= W) as Hlo' by lia.
    pose proof (digits_from_below W b q e' l e 51 Hb ltac:(lia) ltac:(lia) Hl Hlo').
    destruct (decide (Zdigits2 q + e' = 53 + e)); [left; lia|right; lia].
Qed.

Lemma round_aux_near sx W b q e' l m e :
  0 < b -> 0 <= q -> -1074 <= e' <= fexp (Zdigits2 q + e') -> located W (b * scale e') q l ->
  bounded m e = true -> near W b m e ->
  binary_round_aux prec emax sx q e' l = S754_finite sx m e.
Proof.
  intros Hb Hq He' Hl Hm Hn. pose proof (near_exponent W b q e' l m e Hb Hq He' Hl Hm Hn) as HE.
  destruct (bounded_spec m e Hm) as (He & Hm53 & Hf & _). destruct Hn as [Hn Hn4].
  destruct (shr_fexp_located W b q e' l Hb Hq He' Hl) as (r & Hr & Hr0 & Hloc).
  unfold binary_round_aux. rewrite Hr. set (E := fexp (Zdigits2 q + e')) in *.
  pose proof (scale_pos E ltac:(lia)) as Hs.
  assert (Hle : (e <=? emax - prec) = true) by (apply Z.leb_le; change (emax - prec) with 971; lia).
  destruct HE as [->|(HE & Em & Hlt & Hbelow)].
  - rewrite (round_near W (b * scale e) _ _ (Zpos m) ltac:(nia) Hloc Hn).
    unfold shr_fexp. simpl Zdigits2. rewrite Hf, Z.sub_diag. cbn [shr shr_record_of_loc shr_m]. by rewrite Hle.
  - specialize (Hn4 Em). rewrite HE in *. clear E HE.
    assert (scale e = scale (e - 1) * 2) as E2
      by (replace e with (e - 1 + 1) at 1 by lia; by rewrite scale_add by lia).
    rewrite E2 in *. assert (HU : 0 < b * scale (e - 1)) by nia. set (U := b * scale (e - 1)) in *.
    replace (b * (scale (e - 1) * 2)) with (2 * U) in * by (unfold U; lia).
    rewrite (round_near W U _ _ (Zpos m~0) HU Hloc) by (rewrite Pos2Z.inj_xO; lia).
    unfold shr_fexp. simpl Zdigits2. rewrite Pos2Z.inj_succ.
    replace (Z.succ (Zpos (digits2_pos m)) + (e - 1)) with (Zpos (digits2_pos m) + e) by lia.
    rewrite Hf. replace (e - (e - 1)) with 1 by lia. cbn [shr shr_record_of_loc iter_pos shr_1 shr_m orb].
    replace (e - 1 + 1) with e by lia. by rewrite Hle.
Qed.

(** *** The two ways a decimal is rounded *)
Lemma binary_round_near sx p m e :
  bounded m e = true -> near (Zpos p * 2 ^ 1074) 1 m e -> binary_round prec emax sx p 0 = S754_finite sx m e.
Proof.
  intros Hm Hn. unfold binary_round, shl_align. set (E := SpecFloat.fexp _ _ _).
  assert (HE : E = fexp (Zpos (digits2_pos p) + 0)) by done. rewrite Z.sub_0_r.
  assert (-1074 <= E) by (rewrite HE, fexp_val; lia).
  destruct E as [|n|n] eqn:En; try (
    apply (round_aux_near _ (Zpos p * 2 ^ 1074) 1 _ _ _ m e); [done|done| |simpl located; unfold scale; f_equal; lia|done|done];
    simpl Zdigits2; rewrite <- HE; lia).
  apply (round_aux_near _ (Zpos p * 2 ^ 1074) 1 _ _ _ m e); [done|done| | |done|done].
  - simpl Zdigits2. rewrite digits2_iter. replace (_ + Zpos n + Zneg n) with (Zpos (digits2_pos p) + 0) by lia.
    rewrite <- HE. lia.
  - simpl located. rewrite iter_xO_value. unfold scale. rewrite Z.mul_1_l, <- Z.mul_assoc, <- Z.pow_add_r by lia.
    do 2 f_equal. lia.
Qed.

Lemma new_location_spec b r :
  0 <= r < b -> new_location b r = if r =? 0 then loc_Exact else loc_Inexact (2 * r ?= b).
Proof.
  intros Hr. unfold new_location, new_location_even, new_location_odd. destruct (Z.even b) eqn:Eb; [done|].
  destruct (r =? 0); [done|]. f_equal.
  assert (Hodd : 2 * r <> b) by (intros <-; by rewrite Z.even_mul in Eb).
  destruct (2 * r + 1 ?= b) eqn:E1; destruct (2 * r ?= b) eqn:E2; try done;
    rewrite ?Z.compare_lt_iff, ?Z.compare_gt_iff, ?Z.compare_eq_iff in *; lia.
Qed.

Lemma division_located a b s U :
  0 < b -> 0 < U -> 0 <= s ->
  located (a * 2 ^ s * U) (b * U) (a * 2 ^ s / b) (new_location b ((a * 2 ^ s) mod b)).
Proof.
  intros Hb HU Hs. pose proof (Z.mod_pos_bound (a * 2 ^ s) b Hb) as Hr.
  pose proof (Z.div_mod (a * 2 ^ s) b ltac:(lia)) as Hd. rewrite new_location_spec by done.
  set (A := a * 2 ^ s) in *. set (q := A / b) in *. set (r := A mod b) in *.
  assert (E : A * U = q * (b * U) + r * U) by (rewrite Hd at 1; ring).
  destruct (r =? 0) eqn:E0; b2p; simpl; rewrite E.
  - rewrite E0. lia.
  - assert (0 < r * U < b * U) by (split; [|apply Z.mul_lt_mono_pos_r]; nia). split; [lia|].
    destruct (2 * r ?= b) eqn:Ec;
      rewrite ?Z.compare_lt_iff, ?Z.compare_gt_iff, ?Z.compare_eq_iff in *; [nia|..].
    + assert (2 * r * U < b * U) by (apply Z.mul_lt_mono_pos_r; lia). lia.
    + assert (b * U < 2 * r * U) by (apply Z.mul_lt_mono_pos_r; lia). lia.
Qed.

Lemma div_near sx a b m e :
  0 < a -> 0 < b -> bounded m e = true -> near (a * 2 ^ 1074) b m e ->
  (let '(q, e', l) := SFdiv_core_binary prec emax a 0 b 0 in binary_round_aux prec emax sx q e' l) = S754_finite sx m e.
Proof.
  intros Ha Hb Hm Hn. unfold SFdiv_core_binary. rewrite !Z.add_0_r, Z.sub_0_r.
  set (e' := Z.min _ 0). assert (He' : e' = Z.min (Z.max (Zdigits2 a - Zdigits2 b - 53) (-1074)) 0) by done.
  assert (Hsh : match 0 - e' with Z0 => a | Zpos _ => Z.shiftl a (0 - e') | Zneg _ => 0 end = a * 2 ^ (- e')).
  { replace (0 - e') with (- e') by lia. rewrite <- Z.shiftl_mul_pow2 by lia.
    destruct (- e') eqn:E; [by rewrite Z.shiftl_0_r|done|lia]. }
  rewrite Hsh. rewrite (surjective_pairing (Z.div_eucl _ _)).
  change (Z.div_eucl (a * 2 ^ (- e')) b).1 with (a * 2 ^ (- e') / b).
  change (Z.div_eucl (a * 2 ^ (- e')) b).2 with ((a * 2 ^ (- e')) mod b).
  pose proof (scale_pos e' ltac:(lia)) as Hs.
  pose proof (division_located a b (- e') (scale e') Hb Hs ltac:(lia)) as Hl.
  assert (HW : a * 2 ^ (- e') * scale e' = a * 2 ^ 1074).
  { unfold scale. rewrite <- Z.mul_assoc, <- Z.pow_add_r by lia. do 2 f_equal. lia. }
  rewrite HW in Hl. assert (Hq : 0 <= a * 2 ^ (- e') / b) by (apply Z.div_pos; nia).
  apply (round_aux_near sx (a * 2 ^ 1074) b _ e' _ m e); try done. split; [lia|].
  rewrite fexp_val. destruct (decide (0 <= Zdigits2 a - 1 - Zdigits2 b - e')) as [Hk|Hk]; [|lia].
  pose proof (digits_from_below (a * 2 ^ 1074) b _ e' _ e' (Zdigits2 a - 1 - Zdigits2 b - e') Hb ltac:(lia) Hk Hl) as Hd.
  assert (Hle : 2 ^ (Zdigits2 a - 1 - Zdigits2 b - e') * (b * scale e') <= a * 2 ^ 1074); [|specialize (Hd Hle); lia].
  destruct a as [|pa|pa], b as [|pb|pb]; try lia. simpl Zdigits2 in *.
  pose proof (digits2_lower pa) as Hla. pose proof (digits2_upper pb) as Hub.
  set (da := Zpos (digits2_pos pa)) in *. set (db := Zpos (digits2_pos pb)) in *.
  transitivity (2 ^ (da - 1) * 2 ^ 1074); [|apply Z.mul_le_mono_nonneg_r; [by apply Z.pow_nonneg|done]].
  rewrite <- Z.pow_add_r by lia. replace (da - 1 + 1074) with ((da - 1 - db - e') + (db + (e' + 1074))) by lia.
  rewrite (Z.pow_add_r 2 (da - 1 - db - e')), (Z.pow_add_r 2 db) by lia. fold (scale e').
  apply Z.mul_le_mono_nonneg_l; [by apply Z.pow_nonneg|]. apply Z.mul_le_mono_nonneg_r; lia.
Qed.

(** The numerator and the denominator of a power of ten. *)
Definition pow10 (z : Z) : Z := 10 ^ Z.max z 0.

Lemma pow10_pos z : 0 < pow10 z.
Proof. apply Z.pow_pos_nonneg; lia. Qed.

Lemma round_decimal_near sx a z m e :
  0 < a -> bounded m e = true -> near (a * pow10 z * 2 ^ 1074) (pow10 (- z)) m e ->
  round_decimal sx a z = S754_finite sx m e.
Proof.
  intros Ha Hm Hn. unfold round_decimal, pow10 in *. destruct (0 <=? z) eqn:Ez; b2p.
  - rewrite (Z.max_r (- z)) in Hn by lia. rewrite Z.max_l in Hn by lia. apply binary_round_near; [done|].
    rewrite Z2Pos.id; [exact Hn|]. assert (0 < 10 ^ z) by (apply Z.pow_pos_nonneg; lia). nia.
  - rewrite (Z.max_l (- z)) in Hn by lia. rewrite Z.max_r in Hn by lia. rewrite Z.mul_1_r in Hn.
    apply div_near; [done|apply Z.pow_pos_nonneg; lia|done..].
Qed.

(** ** The error of seventeen digits *)
Lemma scale_up_spec den fuel : forall num k,
  0 < num -> den <= num * 10 ^ Z.of_nat fuel ->
  exists j, scale_up fuel num den k = k + j /\ 0 <= j /\ den <= num * 10 ^ j /\ (j = 0 \/ num * 10 ^ (j - 1) < den).
Proof.
  induction fuel as [|fuel IH]; intros num k Hn Hd; simpl scale_up.
  - exists 0. change (10 ^ Z.of_nat 0) with 1 in Hd. split_and!; lia.
  - destruct (den <=? num) eqn:E; b2p; [exists 0; split_and!; lia|].
    rewrite Nat2Z.inj_succ, Z.pow_succ_r in Hd by lia.
    destruct (IH (num * 10) (k + 1) ltac:(lia) ltac:(lia)) as (j & -> & Hj & H1 & H2).
    exists (j + 1). rewrite Z.pow_add_r by lia. split_and!; [lia|lia|lia|]. right.
    replace (j + 1 - 1) with j by lia. destruct H2 as [->|H2]; [lia|].
    replace j with (j - 1 + 1) by lia.
    destruct (decide (j = 0)) as [->|]; [lia|]. rewrite Z.pow_add_r by lia. lia.
Qed.

Lemma decimal_exponent_spec num den :
  0 < num -> 0 < den -> den <= num * 10 ^ 400 ->
  let x := decimal_exponent num den in
  pow10 x * den <= num * pow10 (- x) /\ num * pow10 (- (x + 1)) < pow10 (x + 1) * den.
Proof.
  intros Hn Hd Hb. cbv zeta. unfold decimal_exponent. destruct (den <=? num) eqn:E; b2p.
  - assert (Hq : 0 < num / den) by (apply Z.div_str_pos; lia).
    pose proof (dec_digits_magnitude _ Hq) as [Hlo Hhi]. fold (zlen (dec_digits (num / den))) in *.
    assert (0 < zlen (dec_digits (num / den))).
    { pose proof (dec_digits_ne (num / den) ltac:(lia)). unfold zlen. destruct (dec_digits _); simpl; [done|lia]. }
    set (L := zlen _) in *. unfold pow10.
    rewrite (Z.max_l (L - 1)), (Z.max_r (- (L - 1))), (Z.max_r (- (L - 1 + 1))), (Z.max_l (L - 1 + 1)) by lia.
    replace (L - 1 + 1) with L by lia. rewrite !Z.mul_1_r.
    pose proof (Z.mul_div_le num den Hd). pose proof (Z.mul_succ_div_gt num den Hd). split; nia.
  - destruct (scale_up_spec den 400 num 0 Hn Hb) as (j & -> & Hj & H1 & H2).
    destruct H2 as [->|H2]; [lia|]. assert (j <> 0) by (intros ->; simpl in H1; lia). unfold pow10.
    rewrite (Z.max_r (- (0 + j))), (Z.max_l (- - (0 + j))), (Z.max_l (- (- (0 + j) + 1))), (Z.max_r (- (0 + j) + 1)) by lia.
    replace (- - (0 + j)) with j by lia. replace (- (- (0 + j) + 1)) with (j - 1) by lia. lia.
Qed.

Lemma round_half_even_near num den : 0 < den -> 2 * Z.abs (round_half_even num den * den - num) <= den.
Proof.
  intros Hd. unfold round_half_even. pose proof (Z.div_mod num den ltac:(lia)). pose proof (Z.mod_pos_bound num den Hd).
  destruct (2 * (num mod den) <? den) eqn:E1; b2p; [nia|]. destruct (den <? 2 * (num mod den)) eqn:E2; b2p; [nia|].
  destruct (Z.even _); nia.
Qed.

Lemma pow10_cross z j : 0 <= j -> pow10 (z + j) * pow10 (- z) = 10 ^ j * pow10 z * pow10 (- (z + j)).
Proof.
  intros Hj. unfold pow10. destruct (decide (0 <= z)).
  - rewrite (Z.max_l (z + j)), (Z.max_r (- z)), (Z.max_l z), (Z.max_r (- (z + j))) by lia.
    rewrite Z.pow_add_r by lia. lia.
  - rewrite (Z.max_l (- z)), (Z.max_r z) by lia. destruct (decide (0 <= z + j)).
    + rewrite Z.max_l, Z.max_r by lia. rewrite <- Z.pow_add_r by lia. replace (z + j + - z) with j by lia. lia.
    + rewrite Z.max_r, Z.max_l by lia. change (10 ^ 0) with 1. rewrite Z.mul_1_r, Z.mul_1_l, <- Z.pow_add_r by lia. f_equal. lia.
Qed.

(** The digits before a carry to an eighteenth: their error and their size. *)
Record digits_of (num den n x : Z) : Prop := {
  digits_error : 2 * Z.abs (n * pow10 (x - 16) * den - num * pow10 (16 - x)) <= pow10 (x - 16) * den;
  digits_size : 10 ^ 16 * pow10 (x - 16) * den <= num * pow10 (16 - x);
  digits_exponent : num * pow10 (- (x + 1)) < pow10 (x + 1) * den;
  digits_range : 10 ^ 16 <= n <= 10 ^ 17
}.

Lemma digits17_spec num den :
  0 < num -> 0 < den -> den <= num * 10 ^ 400 ->
  exists n x, digits_of num den n x /\ digits17 num den = if n =? 10 ^ 17 then (10 ^ 16, x + 1) else (n, x).
Proof.
  intros Hn Hd Hb. destruct (decimal_exponent_spec num den Hn Hd Hb) as [Hlo Hhi].
  unfold digits17. set (x := decimal_exponent num den) in *.
  set (n := if 0 <=? 16 - x then _ else _). exists n, x. split; [|done].
  assert (Herr : 2 * Z.abs (n * pow10 (x - 16) * den - num * pow10 (16 - x)) <= pow10 (x - 16) * den).
  { unfold n, pow10. destruct (0 <=? 16 - x) eqn:E; b2p.
    - rewrite (Z.max_r (x - 16)), (Z.max_l (16 - x)) by lia. rewrite Z.mul_1_r, Z.mul_1_l. by apply round_half_even_near.
    - rewrite (Z.max_l (x - 16)), (Z.max_r (16 - x)) by lia. replace (- (16 - x)) with (x - 16) by lia.
      rewrite Z.mul_1_r, <- Z.mul_assoc, (Z.mul_comm (10 ^ (x - 16)) den). apply round_half_even_near.
      assert (0 < 10 ^ (x - 16)) by (apply Z.pow_pos_nonneg; lia). nia. }
  pose proof (pow10_cross (x - 16) 16 ltac:(lia)) as C1. replace (x - 16 + 16) with x in C1 by lia.
  pose proof (pow10_cross (x - 16) 17 ltac:(lia)) as C2. replace (x - 16 + 17) with (x + 1) in C2 by lia.
  replace (- (x - 16)) with (16 - x) in C1, C2 by lia.
  pose proof (pow10_pos (x - 16)) as Hp. pose proof (pow10_pos (16 - x)) as Hq.
  pose proof (pow10_pos (- x)) as Hr. pose proof (pow10_pos (- (x + 1))) as Hr'.
  set (P := pow10 (x - 16)) in *. set (Q := pow10 (16 - x)) in *.
  assert (Hsize : 10 ^ 16 * P * den <= num * Q).
  { apply (Z.mul_le_mono_pos_r _ _ (pow10 (- x))); [done|].
    replace (10 ^ 16 * P * den * pow10 (- x)) with (10 ^ 16 * P * pow10 (- x) * den) by lia. rewrite <- C1. nia. }
  assert (Htop : num * Q < 10 ^ 17 * P * den).
  { apply (Z.mul_lt_mono_pos_r (pow10 (- (x + 1)))); [done|].
    replace (10 ^ 17 * P * den * pow10 (- (x + 1))) with (10 ^ 17 * P * pow10 (- (x + 1)) * den) by lia. rewrite <- C2. nia. }
  assert (HU : 0 < P * den) by nia. set (U := P * den) in *.
  replace (n * P * den) with (n * U) in Herr by (unfold U; lia).
  replace (10 ^ 16 * P * den) with (10 ^ 16 * U) in * by (unfold U; lia).
  replace (10 ^ 17 * P * den) with (10 ^ 17 * U) in * by (unfold U; lia).
  split; fold P Q.
  - replace (n * P * den) with (n * U) by (unfold U; lia). exact Herr.
  - replace (10 ^ 16 * P * den) with (10 ^ 16 * U) by (unfold U; lia). exact Hsize.
  - exact Hhi.
  - split; nia.
Qed.

Lemma fraction_scale m e :
  -1074 <= e -> exists num den, fraction m e = (num, den) /\ 0 < num /\ 0 < den
    /\ num * 2 ^ 1074 = Zpos m * den * scale e /\ den <= 2 ^ 1074.
Proof.
  intros He. unfold fraction, scale. destruct (0 <=? e) eqn:E; b2p.
  - assert (0 < 2 ^ e) by (apply Z.pow_pos_nonneg; lia). do 2 eexists. split; [done|]. split_and!; [lia|lia| |].
    + rewrite Z.pow_add_r by lia. lia.
    + by apply (Z.pow_le_mono_r 2 0).
  - do 2 eexists. split; [done|]. split_and!; [lia|apply Z.pow_pos_nonneg; lia| |apply Z.pow_le_mono_r; lia].
    rewrite <- Z.mul_assoc, <- Z.pow_add_r by lia. do 2 f_equal. lia.
Qed.

(** What is read from seventeen digits, with or without their trailing zeros, is nearer
    to the double they were written for than to any other. *)
Lemma digits_near m e num den n x a z j :
  bounded m e = true -> 0 < num -> 0 < den -> num * 2 ^ 1074 = Zpos m * den * scale e -> digits_of num den n x ->
  0 <= j -> n = a * 10 ^ j -> z = x - 16 + j -> near (a * pow10 z * 2 ^ 1074) (pow10 (- z)) m e.
Proof.
  intros Hm Hnum Hden HV [Herr Hsize _ _] Hj Hn Hz. destruct (bounded_spec m e Hm) as (He & Hm53 & _).
  pose proof (scale_pos e ltac:(lia)) as HS. assert (HT : 0 < 2 ^ 1074) by (apply Z.pow_pos_nonneg; lia).
  pose proof (pow10_cross (x - 16) j Hj) as C. rewrite <- Hz in C. replace (- (x - 16)) with (16 - x) in C by lia.
  pose proof (pow10_pos (x - 16)) as HP. pose proof (pow10_pos (16 - x)) as HQ. pose proof (pow10_pos (- z)) as HB.
  unfold near.
  set (P := pow10 (x - 16)) in *. set (Q := pow10 (16 - x)) in *. set (A := pow10 z) in *. set (B := pow10 (- z)) in *.
  set (S := scale e) in *. set (T := 2 ^ 1074) in *. clearbody P Q A B S T.
  assert (Hkey : Q * den * (a * A * T - Zpos m * (B * S)) = B * T * (n * P * den - num * Q)).
  { replace (Q * den * (a * A * T - Zpos m * (B * S))) with (a * T * den * (A * Q) - Q * B * (Zpos m * den * S)) by ring.
    rewrite C, <- HV, Hn. ring. }
  assert (HQd : 0 < Q * den) by nia. assert (HBT : 0 < B * T) by nia.
  assert (Habs : 2 * (Q * den * Z.abs (a * A * T - Zpos m * (B * S))) <= B * T * (P * den)).
  { rewrite <- (Z.abs_eq (Q * den)) at 1 by lia. rewrite <- Z.abs_mul, Hkey, Z.abs_mul, (Z.abs_eq (B * T)) by lia. nia. }
  assert (Hgap : 10 ^ 16 * (P * T) <= Zpos m * (S * Q)).
  { apply (Z.mul_le_mono_pos_r _ _ den); [done|]. replace (Zpos m * (S * Q) * den) with (Zpos m * den * S * Q) by ring.
    rewrite <- HV. nia. }
  assert (0 < S * Q) by nia.
  assert (Hone : P * T < S * Q) by nia.
  split.
  - apply (Z.mul_lt_mono_pos_l (Q * den)); [done|].
    assert (B * (P * T) < B * (S * Q)) by (apply Z.mul_lt_mono_pos_l; lia). nia.
  - intros Em. rewrite Em in *. assert (Htwo : 2 * (P * T) < S * Q) by lia.
    apply (Z.mul_lt_mono_pos_l (Q * den)); [done|].
    assert (B * (2 * (P * T)) < B * (S * Q)) by (apply Z.mul_lt_mono_pos_l; lia). nia.
Qed.

Lemma magnitude_absurd num den m S X Y T A B C :
  0 < den -> m < X -> 0 < S -> S <= Y * T -> 0 < T -> num * T = m * den * S ->
  X * Y < A * B -> B <= C -> A * C * den <= num * 1 -> 0 <= A -> 0 <= X -> False.
Proof.
  intros Hden Hm HS HSY HT HV Hc HBC Hsize HA HX.
  assert (m * S < X * (Y * T)) by nia.
  assert (num * T < X * Y * den * T) by (rewrite HV; nia).
  assert (num < X * Y * den) by nia.
  assert (A * B * den <= A * C * den) by (apply Z.mul_le_mono_nonneg_r; [lia|]; by apply Z.mul_le_mono_nonneg_l).
  assert (X * Y * den < A * B * den) by (by apply Z.mul_lt_mono_pos_r). lia.
Qed.

Lemma decimal_value_near sx m e num den n x a z j :
  bounded m e = true -> 0 < num -> 0 < den -> num * 2 ^ 1074 = Zpos m * den * scale e -> den <= 2 ^ 1074 ->
  digits_of num den n x -> 0 <= j -> n = a * 10 ^ j -> z = x - 16 + j ->
  decimal_value sx a z = Some (S754_finite sx m e).
Proof.
  intros Hm Hnum Hden HV Hden2 Hds Hj Hn Hz. pose proof Hds as [_ Hsize Hexp Hrange].
  assert (H10 : 0 < 10 ^ j) by (apply Z.pow_pos_nonneg; lia). assert (Ha : 0 < a) by nia.
  unfold decimal_value. rewrite (proj2 (Z.eqb_neq a 0)) by lia.
  rewrite (round_decimal_near sx a z m e Ha Hm)
    by (by apply (digits_near m e num den n x a z j)).
  assert (Hlen : 17 <= zlen (dec_digits a) + j <= 18).
  { pose proof (dec_digits_times10 a (Z.to_nat j) Ha) as Ht. rewrite Z2Nat.id in Ht by done. rewrite <- Hn in Ht.
    apply (f_equal zlen) in Ht. rewrite zlen_app in Ht. unfold zlen at 3 in Ht. rewrite length_replicate, Z2Nat.id in Ht by done.
    rewrite <- Ht. pose proof (dec_digits_magnitude n ltac:(lia)) as [Hlo Hhi]. fold (zlen (dec_digits n)) in *. split.
    - assert (16 < zlen (dec_digits n)); [|lia]. apply (Z.pow_lt_mono_r_iff 10); [lia|apply zlen_nonneg|lia].
    - assert (zlen (dec_digits n) - 1 <= 17); [|lia]. apply (Z.pow_le_mono_r_iff 10); lia. }
  assert (Hx : -329 <= x <= 308).
  { destruct (bounded_spec m e Hm) as (He & Hm53 & _). split.
    - destruct (decide (-329 <= x)) as [|Hx]; [done|exfalso].
      unfold pow10 in Hexp. rewrite (Z.max_l (- (x + 1))), (Z.max_r (x + 1)) in Hexp by lia. change (10 ^ 0) with 1 in Hexp.
      assert (10 ^ 329 <= 10 ^ (- (x + 1))) by (apply Z.pow_le_mono_r; lia).
      assert (2 ^ 1074 < 10 ^ 329) by (by vm_compute).
      assert (1 * 10 ^ 329 <= num * 10 ^ (- (x + 1))) by (apply Z.mul_le_mono_nonneg; [lia|lia|by apply Z.pow_nonneg|done]). lia.
    - destruct (decide (x <= 308)) as [|Hx]; [done|exfalso].
      unfold pow10 in Hsize. rewrite (Z.max_l (x - 16)), (Z.max_r (16 - x)) in Hsize by lia. change (10 ^ 0) with 1 in Hsize.
      assert (10 ^ 293 <= 10 ^ (x - 16)) as H293 by (apply Z.pow_le_mono_r; lia).
      pose proof (scale_pos e ltac:(lia)) as HS.
      assert (HSle : scale e <= 2 ^ 971 * 2 ^ 1074)
        by (rewrite <- Z.pow_add_r by lia; apply Z.pow_le_mono_r; lia).
      assert (Hc : 2 ^ 53 * 2 ^ 971 < 10 ^ 16 * 10 ^ 293) by (by vm_compute).
      assert (HT : 0 < 2 ^ 1074) by (apply Z.pow_pos_nonneg; lia).
      by apply (magnitude_absurd _ _ _ _ _ _ _ _ _ _ Hden Hm53 HS HSle HT HV Hc H293 Hsize). }
  rewrite (proj2 (Z.ltb_ge 310 _)), (proj2 (Z.ltb_ge _ (-330))) by lia. done.
Qed.

(** ** The text *)
Notation digits := (Forall (fun c => is_digit c = true)).

Definition stripped (frac : bytes) : bytes := rev (strip_zeros (rev frac)).

Lemma strip_zeros_split l : exists j, l = replicate j "0"%char ++ strip_zeros l.
Proof.
  induction l as [|c l [j IH]]; [by exists 0%nat|]. simpl. destruct (code c =? 48) eqn:E; [|by exists 0%nat].
  b2p. assert (c = "0"%char) as -> by (by apply code_inj). exists (S j). simpl. by rewrite <- IH.
Qed.

Lemma stripped_split frac : exists j, frac = stripped frac ++ replicate j "0"%char.
Proof.
  destruct (strip_zeros_split (rev frac)) as [j H]. exists j. apply (f_equal (@rev ascii)) in H.
  rewrite rev_involutive, rev_app_distr in H. rewrite H at 1. unfold stripped. f_equal.
  clear. induction j as [|j IH]; [done|]. simpl. rewrite IH. symmetry. apply replicate_S_end.
Qed.

Lemma point_eq frac : point frac = if bool_decide (stripped frac = []) then [] else "."%char :: stripped frac.
Proof. unfold point. fold (stripped frac). by destruct (stripped frac). Qed.

Lemma digits_stripped frac : digits frac -> digits (stripped frac).
Proof. destruct (stripped_split frac) as [j H]. intros Hd. rewrite H in Hd. by apply Forall_app in Hd as [Hd _]. Qed.

Lemma parse_point sx A frac E :
  A <> [] -> digits A -> digits frac -> (E = [] \/ head E = Some "e"%char) ->
  parse_decimal sx (A ++ point frac ++ E)
  = (e ← parse_exponent E; decimal_value sx (dec_value (A ++ stripped frac)) (e - zlen (stripped frac))).
Proof.
  intros Hne HA Hfrac HE. apply digits_stripped in Hfrac.
  assert (HEd : forall c r, E = c :: r -> is_digit c = false /\ (code c =? 46) = false).
  { intros c r ->. destruct HE as [?|[= ->]]; done. }
  unfold parse_decimal. rewrite point_eq. case_bool_decide as Hs.
  - rewrite Hs, app_nil_l, app_nil_r. rewrite span_digits_app by (done || intros; by eapply HEd).
    assert (match E with c :: r' => if code c =? 46 then span_digits r' else ([], E) | [] => ([], E) end = ([], E)) as ->.
    { destruct E as [|c r]; [done|]. by destruct (HEd c r eq_refl) as [_ ->]. }
    rewrite app_nil_r, bool_decide_eq_false_2 by done. done.
  - rewrite <- app_comm_cons, span_digits_app; [|done|by intros c r [= <- _]].
    change (code "."%char =? 46) with true. cbv iota.
    rewrite span_digits_app by (done || intros; by eapply HEd).
    rewrite bool_decide_eq_false_2 by (intros [? _]%app_nil; done). done.
Qed.

Lemma dec_value_zeros l j : dec_value (l ++ replicate j "0"%char) = dec_value l * 10 ^ Z.of_nat j.
Proof.
  induction j as [|j IH]; [rewrite app_nil_r; lia|].
  rewrite replicate_S_end, app_assoc, dec_value_app, IH, Nat2Z.inj_succ, Z.pow_succ_r by lia.
  cbn [fold_left]. unfold dec_step. change (digit_val "0"%char) with 0. lia.
Qed.

Lemma dec_value_zero_first l : dec_value ("0"%char :: l) = dec_value l.
Proof. reflexivity. Qed.

Lemma parse_exponent_layout x :
  parse_exponent (bs "e" ++ (if x <? 0 then bs "-" else bs "+") ++ pad2 (dec_digits (Z.abs x))) = Some x.
Proof.
  destruct (dec_digits_spec (Z.abs x) ltac:(lia)) as (Hne & Hd & Hv).
  assert (Hp : digits (pad2 (dec_digits (Z.abs x))) /\ dec_value (pad2 (dec_digits (Z.abs x))) = Z.abs x
    /\ pad2 (dec_digits (Z.abs x)) <> []).
  { unfold pad2. destruct (_ <? _)%nat; [|done]. split_and!; [by constructor|done|done]. }
  destruct Hp as (Hp1 & Hp2 & Hp3). set (ds := pad2 _) in *.
  destruct (x <? 0) eqn:E; b2p; simpl; rewrite span_digits_all by done; (destruct ds as [|d ds]; [done|]); f_equal; lia.
Qed.

(** Seventeen digits, cut anywhere. *)
Lemma cut_digits ds t :
  exists j, dec_value ds = dec_value (take t ds ++ stripped (drop t ds)) * 10 ^ Z.of_nat j
    /\ zlen (stripped (drop t ds)) = zlen (drop t ds) - Z.of_nat j.
Proof.
  destruct (stripped_split (drop t ds)) as [j H]. exists j. split.
  - rewrite <- dec_value_zeros, <- app_assoc, <- H. by rewrite take_drop.
  - rewrite H at 2. rewrite zlen_app. unfold zlen at 3. rewrite length_replicate. lia.
Qed.

Lemma parse_layout sx n x :
  10 ^ 16 <= n < 10 ^ 17 ->
  exists a j, 0 <= j /\ n = a * 10 ^ j /\ parse_decimal sx (layout n x) = decimal_value sx a (x - 16 + j).
Proof.
  intros Hn. destruct (dec_digits_spec n ltac:(lia)) as (Hne & Hd & Hv).
  assert (Hlen : zlen (dec_digits n) = 17).
  { pose proof (dec_digits_magnitude n ltac:(lia)) as [Hlo Hhi]. fold (zlen (dec_digits n)) in *.
    assert (16 < zlen (dec_digits n)) by (apply (Z.pow_lt_mono_r_iff 10); [lia|apply zlen_nonneg|lia]).
    assert (zlen (dec_digits n) - 1 < 17) by (apply (Z.pow_lt_mono_r_iff 10); lia). lia. }
  unfold layout. set (ds := dec_digits n) in *.
  assert (Htake : forall t, (1 <= t)%nat -> take t ds <> []) by (intros [|t] ?; [lia|]; by destruct ds).
  destruct ((-4 <=? x) && (x <? 17)) eqn:Ex; [destruct (x <? 0) eqn:Ex0|]; b2p.
  - set (k := Z.to_nat (- x - 1)). destruct (cut_digits ("0"%char :: replicate k "0"%char ++ ds) 1) as (j & Hj & Hz).
    cbn [take drop] in Hj, Hz. rewrite take_0, drop_0 in Hj. rewrite drop_0 in Hz. change ["0"%char] with (bs "0") in Hj.
    exists (dec_value (bs "0" ++ stripped (replicate k "0"%char ++ ds))), (Z.of_nat j). split; [lia|]. split.
    + rewrite <- Hj, dec_value_zero_first. rewrite <- Hv. clear. induction k as [|k IH]; [done|]. exact IH.
    + rewrite <- (app_nil_r (point _)), parse_point; [|done|by constructor| |by left].
      * cbn [parse_exponent mbind option_bind]. f_equal. rewrite Hz, zlen_app, Hlen. unfold zlen. rewrite length_replicate. lia.
      * apply Forall_app. split; [by apply Forall_replicate|done].
  - set (t := Z.to_nat (x + 1)). destruct (cut_digits ds t) as (j & Hj & Hz).
    exists (dec_value (take t ds ++ stripped (drop t ds))), (Z.of_nat j). split; [lia|]. split; [congruence|].
    rewrite <- (app_nil_r (point _)), parse_point; [|apply Htake; lia|by apply Forall_take|by apply Forall_drop|by left].
    cbn [parse_exponent mbind option_bind]. f_equal. rewrite Hz. unfold zlen in *. rewrite length_drop. lia.
  - destruct (cut_digits ds 1) as (j & Hj & Hz).
    exists (dec_value (take 1 ds ++ stripped (drop 1 ds))), (Z.of_nat j). split; [lia|]. split; [congruence|].
    rewrite parse_point; [|by apply Htake|by apply Forall_take|by apply Forall_drop|by right].
    rewrite parse_exponent_layout. cbn [mbind option_bind]. f_equal. rewrite Hz. unfold zlen in *. rewrite length_drop. lia.
Qed.

Lemma layout_head n x : 10 ^ 16 <= n -> exists c s, layout n x = c :: s /\ is_digit c = true.
Proof.
  intros Hn. destruct (dec_digits_spec n ltac:(lia)) as (Hne & Hd & _). unfold layout.
  destruct (dec_digits n) as [|c ds]; [done|]. apply Forall_cons in Hd as [Hc _].
  destruct ((-4 <=? x) && (x <? 17)) eqn:Ex; [destruct (x <? 0) eqn:Ex0|]; b2p.
  - by do 2 eexists.
  - destruct (Z.to_nat (x + 1)) as [|t] eqn:Et; [lia|]. by do 2 eexists.
  - by do 2 eexists.
Qed.

(** Reading a sign and a number that begins with a digit. *)
Lemma parse_double_number sx c s : is_digit c = true -> parse_double (sign_text sx ++ c :: s) = parse_decimal sx (c :: s).
Proof.
  intros Hc. unfold parse_double. destruct sx; simpl.
  - by rewrite parse_special_digits.
  - assert (code c =? 45 = false) as -> by (unfold is_digit in Hc; b2p; apply Z.eqb_neq; lia).
    by rewrite parse_special_digits.
Qed.

Lemma finite_text sx m e : bounded m e = true -> parse_double (format_g17 (S754_finite sx m e)) = Some (S754_finite sx m e).
Proof.
  intros Hm. destruct (bounded_spec m e Hm) as (He & _).
  destruct (fraction_scale m e ltac:(lia)) as (num & den & Hf & Hnum & Hden & HV & Hden2).
  assert (Hb : den <= num * 10 ^ 400).
  { assert (2 ^ 1074 <= 10 ^ 400) by (by vm_compute). assert (1 * 10 ^ 400 <= num * 10 ^ 400); [|lia].
    apply Z.mul_le_mono_nonneg_r; [by apply Z.pow_nonneg|lia]. }
  destruct (digits17_spec num den Hnum Hden Hb) as (n & x & Hds & H17). pose proof (digits_range _ _ _ _ Hds) as Hr.
  unfold format_g17. rewrite Hf, H17. set (carry := n =? 10 ^ 17).
  assert (exists n' x' c, (if carry then (10 ^ 16, x + 1) else (n, x)) = (n', x') /\ 10 ^ 16 <= n' < 10 ^ 17
    /\ 0 <= c /\ n = n' * 10 ^ c /\ x' = x + c) as (n' & x' & c & -> & Hn' & Hc & En & Ex).
  { unfold carry. destruct (n =? 10 ^ 17) eqn:E; b2p.
    - exists (10 ^ 16), (x + 1), 1. rewrite E. split_and!; (done || lia).
    - exists n, x, 0. split_and!; (done || lia). }
  destruct (layout_head n' x' ltac:(lia)) as (d & s & Hl & Hd). rewrite Hl, parse_double_number, <- Hl by done.
  destruct (parse_layout sx n' x' Hn') as (a & j & Hj & Ea & ->).
  apply (decimal_value_near sx m e num den n x a _ (c + j)); try done; [lia| |lia].
  rewrite En, Ea, Z.pow_add_r by lia. lia.
Qed.

(** Every double, the special values too, reads back from its text. *)
Lemma text_roundtrip d : valid_binary prec emax d = true -> parse_double (format_g17 d) = Some d.
Proof. destruct d as [[]|[]| |sx m e]; [done..|apply finite_text]. Qed.

(** * Properties *)

(** C40: scores survive their text.  Every double, normal, subnormal, zero or infinite, is
    read back exactly by ZADD from the text that "%.17g" gives for it: the error of 17
    digits is less than the distance at which [std::from_chars] would round to another
    double. *)
Theorem score_text_roundtrip (d : double) :
  valid_binary prec emax d = true -> parse_double (format_g17 d) = Some d.
Proof. apply text_roundtrip. Qed.

Lemma score_text_roundtrip_witness :
  let d := S754_finite true 7205759403792794 (-56) in
  format_g17 d = bs "-0.10000000000000001" /\ parse_double (format_g17 d) = Some d.
Proof. split; [by vm_compute|]. apply score_text_roundtrip. reflexivity. Defined.
