(* ===== verification/Geo.v ===== *)
(** * Geographic scores (geo/geo_score.hpp)

    A position is two 26-bit cell numbers whose bits are interleaved into one
    integer, kept as the score of a sorted set.  The arithmetic on [double] is that
    of IEEE 754; the C library's [sin], [cos] and [asin], whose results no standard
    fixes, are parameters of the distance. *)

From S2P Require Import Prelude Text RespCodec Scores Doubles.

Definition dadd : double -> double -> double := SFadd prec emax.
Definition dsub : double -> double -> double := SFsub prec emax.
Definition ddiv : double -> double -> double := SFdiv prec emax.
Definition dsqrt : double -> double := SFsqrt prec emax.

(** A decimal literal. *)
Definition lit (s : string) : double := default S754_nan (parse_double (bs s)).

Definition kLatMin : double := Eval vm_compute in lit "-85.05112878".
Definition kLatMax : double := Eval vm_compute in lit "85.05112878".
Definition kLonMin : double := Eval vm_compute in lit "-180.0".
Definition kLonMax : double := Eval vm_compute in lit "180.0".
Definition kLatRange : double := Eval vm_compute in dsub kLatMax kLatMin.
Definition kLonRange : double := Eval vm_compute in dsub kLonMax kLonMin.
Definition kGeoStep : double := Eval vm_compute in double_of_Z (2 ^ 26).
Definition kEarthRadius : double := Eval vm_compute in lit "6372797.560856".
Definition pi : double := Eval vm_compute in lit "3.141592653589793238462643383279502884".

(** [x | (x << s)] masked, on 64 bits. *)
Definition spread_step (s mask x : Z) : Z := Z.land (Z.lor x (u64 (Z.shiftl x s))) mask.
Definition unspread_step (s mask x : Z) : Z := Z.land (Z.lor x (Z.shiftr x s)) mask.

Definition spread (v : Z) : Z :=
  let x := v in
  let x := spread_step 16 0x0000FFFF0000FFFF x in
  let x := spread_step 8 0x00FF00FF00FF00FF x in
  let x := spread_step 4 0x0F0F0F0F0F0F0F0F x in
  let x := spread_step 2 0x3333333333333333 x in
  spread_step 1 0x5555555555555555 x.

Definition unspread (x : Z) : Z :=
  let x := Z.land x 0x5555555555555555 in
  let x := unspread_step 1 0x3333333333333333 x in
  let x := unspread_step 2 0x0F0F0F0F0F0F0F0F x in
  let x := unspread_step 4 0x00FF00FF00FF00FF x in
  let x := unspread_step 8 0x0000FFFF0000FFFF x in
  u32 (unspread_step 16 0x00000000FFFFFFFF x).

(** [static_cast] of a double to an unsigned type: truncated, undefined out of range. *)
Definition cast_unsigned (max : Z) (d : double) : outcome Z :=
  match d with
  | S754_zero _ => Ret 0
  | S754_finite s m e =>
      let (num, den) := fraction m e in
      let v := if s then - (num / den) else num / den in
      if (0 <=? v) && (v <=? max) then Ret v else Ub BadCast
  | _ => Ub BadCast
  end.
Definition cast_uint32 : double -> outcome Z := cast_unsigned (2 ^ 32 - 1).
Definition cast_uint64 : double -> outcome Z := cast_unsigned UINT64_MAX.

(** The cell of a coordinate. *)
Definition normalize (x lo range : double) : outcome Z :=
  cast_uint32 (ddiv (dmul kGeoStep (dsub x lo)) range).

(** The last line of [encode]. *)
Definition interleave (lat_cell lon_cell : Z) : Z := Z.lor (spread lat_cell) (u64 (Z.shiftl (spread lon_cell) 1)).

Definition encode (lat lon : double) : outcome Z :=
  norm_lat ← normalize lat kLatMin kLatRange;
  norm_lon ← normalize lon kLonMin kLonRange;
  Ret (interleave norm_lat norm_lon).

Record Coordinates := mkCoordinates { c_lat : double; c_lon : double }.

(** The middle of a cell. *)
Definition cell_middle (cell : Z) (lo range : double) : double :=
  dadd (ddiv (dmul (dadd (double_of_Z cell) (lit "0.5")) range) kGeoStep) lo.

Definition decode (score : Z) : Coordinates :=
  mkCoordinates (cell_middle (unspread score) kLatMin kLatRange)
    (cell_middle (unspread (Z.shiftr score 1)) kLonMin kLonRange).

Section distance.
  Context (sin cos asin : double -> double).

Definition to_rad (deg : double) : double := ddiv (dmul deg pi) (double_of_Z 180).

Definition distance (lat1 lon1 lat2 lon2 : double) : double :=
  let dlat := to_rad (dsub lat2 lat1) in
  let dlon := to_rad (dsub lon2 lon1) in
  let two := double_of_Z 2 in
  let a := dadd (dmul (sin (ddiv dlat two)) (sin (ddiv dlat two)))
             (dmul (dmul (dmul (cos (to_rad lat1)) (cos (to_rad lat2))) (sin (ddiv dlon two)))
                (sin (ddiv dlon two))) in
  dmul (dmul kEarthRadius two) (asin (dsqrt a)).
End distance.

(** ** The interleaving, bit by bit *)
Definition spread_bit (s mask : Z) (f : Z -> bool) (j : Z) : bool :=
  if Z.testbit mask j then f j || f (j - s) else false.
Definition unspread_bit (s mask : Z) (f : Z -> bool) (j : Z) : bool :=
  if Z.testbit mask j then f j || f (j + s) else false.

Lemma spread_step_bit s mask x j :
  0 <= s -> 0 <= j < 64 ->
  Z.testbit (spread_step s mask x) j = spread_bit s mask (Z.testbit x) j.
Proof.
  intros Hs Hj. unfold spread_step, spread_bit, u64.
  rewrite Z.land_spec, Z.lor_spec, Z.mod_pow2_bits_low, Z.shiftl_spec by lia.
  destruct (Z.testbit mask j); [apply andb_true_r|apply andb_false_r].
Qed.

Lemma unspread_step_bit s mask x j :
  0 <= s -> 0 <= j -> Z.testbit (unspread_step s mask x) j = unspread_bit s mask (Z.testbit x) j.
Proof.
  intros Hs Hj. unfold unspread_step, unspread_bit.
  rewrite Z.land_spec, Z.lor_spec, Z.shiftr_spec by lia.
  destruct (Z.testbit mask j); [apply andb_true_r|apply andb_false_r].
Qed.

(** Bit functions that agree on the 64 positions and vanish below. *)
Definition same_bits (f g : Z -> bool) : Prop :=
  forall j, j < 64 -> f j = g j.

Lemma spread_bits s mask x f :
  0 <= s -> same_bits (Z.testbit x) f -> same_bits (Z.testbit (spread_step s mask x)) (spread_bit s mask f).
Proof.
  intros Hs Hf j Hj. destruct (decide (j < 0)) as [Hneg|Hpos].
  - rewrite Z.testbit_neg_r by done. unfold spread_bit. by rewrite (Z.testbit_neg_r mask).
  - rewrite spread_step_bit by lia. unfold spread_bit. by rewrite !Hf by lia.
Qed.

Lemma spread_testbit_fun v :
  same_bits (Z.testbit (spread v))
    (spread_bit 1 0x5555555555555555 (spread_bit 2 0x3333333333333333
      (spread_bit 4 0x0F0F0F0F0F0F0F0F (spread_bit 8 0x00FF00FF00FF00FF
        (spread_bit 16 0x0000FFFF0000FFFF (Z.testbit v)))))).
Proof. unfold spread. repeat (apply spread_bits; [lia|]). by intros j _. Qed.

Lemma unspread_bits s mask x f :
  0 <= s -> (forall j, 0 <= j -> Z.testbit x j = f j) ->
  forall j, 0 <= j -> Z.testbit (unspread_step s mask x) j = unspread_bit s mask f j.
Proof. intros Hs Hf j Hj. rewrite unspread_step_bit by lia. unfold unspread_bit. by rewrite !Hf by lia. Qed.

Lemma unspread_testbit_fun x j :
  0 <= j < 32 ->
  Z.testbit (unspread x) j
  = unspread_bit 16 0x00000000FFFFFFFF (unspread_bit 8 0x0000FFFF0000FFFF
      (unspread_bit 4 0x00FF00FF00FF00FF (unspread_bit 2 0x0F0F0F0F0F0F0F0F
        (unspread_bit 1 0x3333333333333333
          (fun j => if Z.testbit 0x5555555555555555 j then Z.testbit x j else false))))) j.
Proof.
  intros Hj. unfold unspread, u32. rewrite Z.mod_pow2_bits_low by lia.
  repeat (apply unspread_bits; [lia| |lia]; clear j Hj; intros j Hj).
  rewrite Z.land_spec. destruct (Z.testbit 0x5555555555555555 j); [apply andb_true_r|apply andb_false_r].
Qed.

(** Evaluates bit functions of an unknown word [f] at a known position. *)
Ltac each_bit f Hneg Hbig :=
  vm_compute;
  repeat match goal with
  | |- context [f ?k] => rewrite (Hneg k eq_refl)
  | |- context [f ?k] => rewrite (Hbig k eq_refl)
  | |- context [f ?k] => destruct (f k)
  end; reflexivity.

Lemma testbit_above v n k : 0 <= v < 2 ^ n -> n <= k -> Z.testbit v k = false.
Proof.
  intros Hv Hk. destruct (decide (v = 0)) as [->|Hz]; [apply Z.testbit_0_l|].
  destruct (decide (0 <= n)); [|rewrite Z.pow_neg_r in Hv by lia; lia].
  apply Z.bits_above_log2; [lia|]. apply Z.log2_lt_pow2; [lia|].
  apply Z.lt_le_trans with (2 ^ n); [lia|]. apply Z.pow_le_mono_r; lia.
Qed.

Lemma range_cases (P : Z -> Prop) n :
  Forall P (seqZ 0 (Z.of_nat n)) -> forall j, 0 <= j < Z.of_nat n -> P j.
Proof. intros H j Hj. rewrite Forall_forall in H. apply H, elem_of_seqZ. lia. Qed.

Lemma spread_testbit v j :
  0 <= v < 2 ^ 32 -> 0 <= j < 64 ->
  Z.testbit (spread v) j = Z.even j && Z.testbit v (j / 2).
Proof.
  intros Hv Hj. rewrite spread_testbit_fun by lia.
  pose proof (fun k H => Z.testbit_neg_r v k (proj1 (Z.ltb_lt k 0) H)) as Hneg.
  pose proof (fun k H => testbit_above v 32 k Hv (proj1 (Z.leb_le 32 k) H)) as Hbig.
  generalize dependent (Z.testbit v). intros f Hneg Hbig. revert j Hj.
  apply (range_cases _ 64). repeat (apply Forall_cons; split); [..|apply Forall_nil; exact I].
  all: each_bit f Hneg Hbig.
Qed.

Lemma unspread_testbit x j :
  0 <= j < 32 -> Z.testbit (unspread x) j = Z.testbit x (2 * j).
Proof.
  intros Hj. rewrite unspread_testbit_fun by done.
  generalize (Z.testbit x). intros f. revert j Hj.
  apply (range_cases _ 32). repeat (apply Forall_cons; split); [..|apply Forall_nil; exact I].
  all: each_bit f I I.
Qed.

Lemma land_bound x n : 0 <= n -> 0 <= Z.land x n <= n.
Proof.
  intros Hn. split; [apply Z.land_nonneg; by right|].
  apply Z.ldiff_le; [done|]. apply Z.bits_inj'. intros i Hi.
  rewrite Z.ldiff_spec, Z.land_spec, Z.bits_0. by destruct (Z.testbit x i), (Z.testbit n i).
Qed.

Lemma spread_bound v : 0 <= spread v < 2 ^ 63.
Proof.
  assert (Hs : forall s m x, 0 <= m -> 0 <= spread_step s m x <= m) by (intros; by apply land_bound).
  unfold spread. cbv zeta.
  match goal with |- context [spread_step 1 ?m ?x] => pose proof (Hs 1 m x ltac:(lia)) end. lia.
Qed.

Lemma interleave_testbit a b j :
  0 <= a < 2 ^ 32 -> 0 <= b < 2 ^ 32 -> 0 <= j < 64 ->
  Z.testbit (interleave a b) j = Z.testbit (if Z.even j then a else b) (j / 2).
Proof.
  intros Ha Hb Hj. unfold interleave, u64.
  rewrite Z.lor_spec, Z.mod_pow2_bits_low, Z.shiftl_spec, spread_testbit by lia.
  destruct (decide (j = 0)) as [->|Hnz].
  - rewrite (Z.testbit_neg_r _ (0 - 1)) by lia. simpl. apply orb_false_r.
  - rewrite (spread_testbit b (j - 1)) by lia.
    replace (Z.even (j - 1)) with (negb (Z.even j)) by (rewrite Z.even_sub; by destruct (Z.even j)).
    destruct (Z.even j) eqn:E; simpl.
    + apply orb_false_r.
    + f_equal. assert (Hodd : Z.odd j = true) by (rewrite <- Z.negb_even, E; done).
      apply Z.odd_spec in Hodd as [k ->]. replace (2 * k + 1 - 1) with (k * 2) by lia.
      rewrite Z.div_mul by lia. rewrite (Z.add_comm (2 * k)), (Z.mul_comm 2 k), Z.div_add by lia. done.
Qed.

Lemma u32_bits x y :
  0 <= y < 2 ^ 32 -> 0 <= x < 2 ^ 32 -> (forall j, 0 <= j < 32 -> Z.testbit x j = Z.testbit y j) -> x = y.
Proof.
  intros Hy Hx H. apply Z.bits_inj'. intros j Hj. destruct (decide (j < 32)); [by apply H|].
  by rewrite !(testbit_above _ 32) by lia.
Qed.

Lemma unspread_range x : 0 <= unspread x < 2 ^ 32.
Proof. unfold unspread, u32. apply Z.mod_pos_bound. lia. Qed.

Lemma unspread_interleave a b :
  0 <= a < 2 ^ 32 -> 0 <= b < 2 ^ 32 ->
  unspread (interleave a b) = a /\ unspread (Z.shiftr (interleave a b) 1) = b.
Proof.
  intros Ha Hb. split; apply u32_bits; try done; try apply unspread_range; intros j Hj;
    rewrite unspread_testbit by done.
  - rewrite interleave_testbit by lia. rewrite Z.even_mul. simpl.
    by rewrite Z.mul_comm, Z.div_mul by lia.
  - rewrite Z.shiftr_spec, interleave_testbit by lia. rewrite Z.even_add, Z.even_mul. simpl.
    rewrite (Z.add_comm (2 * j)), (Z.mul_comm 2 j), Z.div_add by lia. done.
Qed.

Lemma interleave_bound a b : 0 <= a < 2 ^ 26 -> 0 <= b < 2 ^ 26 -> 0 <= interleave a b < 2 ^ 52.
Proof.
  intros Ha Hb. assert (Hn : 0 <= interleave a b < 2 ^ 64).
  { unfold interleave. pose proof (spread_bound a). split.
    - apply Z.lor_nonneg. split; [lia|]. apply u64_range.
    - destruct (decide (Z.lor (spread a) (u64 (Z.shiftl (spread b) 1)) = 0)) as [->|Hz]; [lia|].
      pose proof (u64_range (Z.shiftl (spread b) 1)) as Hu. unfold UINT64_MAX in Hu.
      assert (0 <= Z.lor (spread a) (u64 (Z.shiftl (spread b) 1))) by (apply Z.lor_nonneg; lia).
      apply Z.log2_lt_pow2; [lia|]. rewrite Z.log2_lor by lia.
      apply Z.max_lub_lt.
      + destruct (decide (spread a = 0)) as [->|]; [done|]. apply Z.log2_lt_pow2; lia.
      + destruct (decide (u64 (Z.shiftl (spread b) 1) = 0)) as [->|]; [done|].
        apply Z.log2_lt_pow2; lia. }
  split; [lia|]. destruct (decide (interleave a b < 2 ^ 52)) as [|Hge]; [done|exfalso].
  assert (Hk : 52 <= Z.log2 (interleave a b) < 64).
  { split; [apply Z.log2_le_pow2; lia|apply Z.log2_lt_pow2; lia]. }
  pose proof (Z.bit_log2 (interleave a b) ltac:(lia)) as Hbit.
  rewrite interleave_testbit in Hbit by lia.
  assert (26 <= Z.log2 (interleave a b) / 2) by (apply Z.div_le_lower_bound; lia).
  destruct (Z.even _); rewrite (testbit_above _ 26) in Hbit by lia; done.
Qed.

Lemma cast_double_of_Z n max : 0 <= n < 2 ^ 53 -> n <= max -> cast_unsigned max (double_of_Z n) = Ret n.
Proof.
  intros Hn Hm. destruct n as [|p|p]; [done| |lia]. unfold double_of_Z; simpl binary_normalize.
  destruct (binary_round_int false p ltac:(lia)) as (m & e & -> & He & Hv). simpl.
  destruct (fraction_int p m e He Hv) as (den & Hd & ->). rewrite Z.div_mul by lia.
  by rewrite (proj2 (Z.leb_le 0 _)), (proj2 (Z.leb_le _ max)) by lia.
Qed.
