(* ===== verification/Aof.v ===== *)
(** * The append-only file (aof/aof_manager.cpp)

    The log of write commands, its manifest and its background rewrite.  The file
    system is a map from paths to contents in which every call succeeds; the fork
    and the exit status of the rewriting child are inputs.  The thread that calls
    [fsync] once a second is represented by whether it runs. *)

From S2P Require Import Prelude Text StreamIds RespCodec Scores SortedSets Store Doubles.

Abbreviation fs := (gmap bytes bytes).

Record AofManager := mkAof {
  appendonly_ : bytes;
  appenddirname_ : bytes;
  appendfilename_ : bytes;
  appendfsync_ : bytes;
  aof_fd_ : option bytes;          (** the path of the open file *)
  current_seq_ : Z;
  base_dir_ : bytes;
  fsync_running : bool;
  rewrite_in_progress_ : bool;
  rewrite_buffer_ : bytes;
  rewrite_temp_file_ : bytes
}.

Definition new_aof : AofManager :=
  mkAof (bs "no") (bs "appendonlydir") (bs "appendonly.aof") (bs "everysec") None 0 [] false false [] [].

Definition slash : bytes := bs "/".

(** ** Field updates *)
Definition with_appendonly v m := mkAof v (appenddirname_ m) (appendfilename_ m) (appendfsync_ m) (aof_fd_ m)
  (current_seq_ m) (base_dir_ m) (fsync_running m) (rewrite_in_progress_ m) (rewrite_buffer_ m) (rewrite_temp_file_ m).
Definition with_appendfsync v m := mkAof (appendonly_ m) (appenddirname_ m) (appendfilename_ m) v (aof_fd_ m)
  (current_seq_ m) (base_dir_ m) (fsync_running m) (rewrite_in_progress_ m) (rewrite_buffer_ m) (rewrite_temp_file_ m).
Definition with_fd v m := mkAof (appendonly_ m) (appenddirname_ m) (appendfilename_ m) (appendfsync_ m) v
  (current_seq_ m) (base_dir_ m) (fsync_running m) (rewrite_in_progress_ m) (rewrite_buffer_ m) (rewrite_temp_file_ m).
Definition with_seq v m := mkAof (appendonly_ m) (appenddirname_ m) (appendfilename_ m) (appendfsync_ m) (aof_fd_ m)
  v (base_dir_ m) (fsync_running m) (rewrite_in_progress_ m) (rewrite_buffer_ m) (rewrite_temp_file_ m).
Definition with_base v m := mkAof (appendonly_ m) (appenddirname_ m) (appendfilename_ m) (appendfsync_ m) (aof_fd_ m)
  (current_seq_ m) v (fsync_running m) (rewrite_in_progress_ m) (rewrite_buffer_ m) (rewrite_temp_file_ m).
Definition with_thread v m := mkAof (appendonly_ m) (appenddirname_ m) (appendfilename_ m) (appendfsync_ m) (aof_fd_ m)
  (current_seq_ m) (base_dir_ m) v (rewrite_in_progress_ m) (rewrite_buffer_ m) (rewrite_temp_file_ m).
Definition with_rewrite p b t m := mkAof (appendonly_ m) (appenddirname_ m) (appendfilename_ m) (appendfsync_ m) (aof_fd_ m)
  (current_seq_ m) (base_dir_ m) (fsync_running m) p b t.

Definition set_appendonly := with_appendonly.

(** ** The fsync thread *)
Definition start_fsync_thread (m : AofManager) : AofManager :=
  if bool_decide (appendfsync_ m = bs "everysec") then with_thread true m else m.
Definition stop_fsync_thread : AofManager -> AofManager := with_thread false.

Definition set_appendfsync (val : bytes) (m : AofManager) : AofManager :=
  if bool_decide (val = appendfsync_ m) then m
  else
    let m := with_appendfsync val m in
    match aof_fd_ m with
    | Some _ => start_fsync_thread (stop_fsync_thread m)
    | None => m
    end.

(** ** Paths and the manifest *)
Definition aof_dir (base : bytes) (m : AofManager) : bytes := base ++ slash ++ appenddirname_ m ++ slash.
Definition incr_name (seq : Z) (m : AofManager) : bytes :=
  appendfilename_ m ++ bs "." ++ to_string seq ++ bs ".incr.aof".
Definition manifest_path (base : bytes) (m : AofManager) : bytes :=
  aof_dir base m ++ appendfilename_ m ++ bs ".manifest".
Definition manifest_text (seq : Z) (m : AofManager) : bytes :=
  bs "file " ++ incr_name seq m ++ bs " seq " ++ to_string seq ++ bs " type i" ++ [LF].

Definition create_if_missing (path contents : bytes) (f : fs) : fs :=
  match f !! path with Some _ => f | None => <[path := contents]> f end.

Definition enabled (m : AofManager) : bool := bool_decide (appendonly_ m = bs "yes").

Definition ensure_file (base : bytes) (m : AofManager) (f : fs) : fs :=
  if enabled m then create_if_missing (aof_dir base m ++ appendfilename_ m ++ bs ".1.incr.aof") [] f else f.

Definition ensure_manifest (base : bytes) (m : AofManager) (f : fs) : fs :=
  if enabled m then create_if_missing (manifest_path base m) (manifest_text 1 m) f else f.

(** [stream >> token]: the words of a text. *)
Definition is_space (c : ascii) : bool := (code c =? 32) || ((9 <=? code c) && (code c <=? 13)).

Fixpoint words_go (s word : bytes) : list bytes :=
  match s with
  | [] => match word with [] => [] | _ => [rev word] end
  | c :: s =>
      if is_space c then match word with [] => words_go s [] | _ => rev word :: words_go s [] end
      else words_go s (c :: word)
  end.
Definition words (s : bytes) : list bytes := words_go s [].

(** [stream >> seq_num] on the fourth word: unchanged when there is none, 0 when it
    is not a number. *)
Definition read_seq (ws : list bytes) : Z :=
  match ws !! 3%nat with
  | None => 1
  | Some w => match from_chars true INT32_MIN INT32_MAX w with
              | FcValue v _ => v
              | FcInvalid => 0
              | FcOutOfRange _ => if starts_with (bs "-") w then INT32_MIN else INT32_MAX
              end
  end.

Definition read_aof_content (base : bytes) (m : AofManager) (f : fs) : bytes :=
  if enabled m then
    match f !! manifest_path base m with
    | None => []
    | Some mf => default [] (f !! (aof_dir base m ++ default [] (words mf !! 1%nat)))
    end
  else [].

Definition open (base : bytes) (m : AofManager) (f : fs) : AofManager * fs :=
  if enabled m then
    let m := with_base base m in
    match f !! manifest_path base m with
    | None => (m, f)
    | Some mf =>
        let ws := words mf in
        let path := aof_dir base m ++ default [] (ws !! 1%nat) in
        (start_fsync_thread (with_fd (Some path) (with_seq (read_seq ws) m)), create_if_missing path [] f)
    end
  else (m, f).

Definition append (data : bytes) (m : AofManager) (f : fs) : fs :=
  match aof_fd_ m with
  | None => f
  | Some path => <[path := default [] (f !! path) ++ data]> f
  end.

Definition close (m : AofManager) : AofManager := with_fd None (stop_fsync_thread m).

Definition append_to_rewrite_buffer (data : bytes) (m : AofManager) : AofManager :=
  if rewrite_in_progress_ m
  then with_rewrite true (rewrite_buffer_ m ++ data) (rewrite_temp_file_ m) m
  else m.

(** ** The rewrite *)
Definition encode_resp_command (args : list bytes) : bytes :=
  fold_left (fun result arg => result ++ (bs "$" ++ to_string (zlen arg) ++ CRLF) ++ arg ++ CRLF)
    args (bs "*" ++ to_string (zlen args) ++ CRLF).

(** [duration_cast<milliseconds>] of nanoseconds truncates. *)
Definition px_args (now : Z) (exp : option Z) : list bytes :=
  match exp with
  | Some t => if now <? t then [bs "PX"; to_string ((t - now) / 1000000)] else []
  | None => []
  end.

(** The commands the child writes for one entry. *)
Definition entry_commands (now : Z) (key : bytes) (e : Entry) : list (list bytes) :=
  match value e with
  | VString v => [[bs "SET"; key; v] ++ px_args now (expiry e)]
  | VList [] => []
  | VList l => [bs "RPUSH" :: key :: l]
  | VStream s =>
      (fun se => bs "XADD" :: key :: se_id se :: mjoin ((fun fv : bytes * bytes => [fv.1; fv.2]) <$> fields se)) <$> s
  | VZset z =>
      match entries z with
      | [] => []
      | es => [bs "ZADD" :: key :: mjoin ((fun sm : zelem => [format_g17 sm.1; sm.2]) <$> es)]
      end
  end.

(** The child reads the clock at each key: to see whether the entry is still valid, and
    again for the time a string has left. *)
Record child_clock := mkChildClock { valid_at : bytes -> Z; left_at : bytes -> Z }.
Definition child_at (t : Z) : child_clock := mkChildClock (fun _ => t) (fun _ => t).

Definition rewrite_commands (now : child_clock) (st : Store) : list (list bytes) :=
  mjoin ((fun ke : bytes * Entry => entry_commands (left_at now ke.1) ke.1 ke.2)
           <$> for_each_valid_entry (valid_at now) st).

Definition rewrite_child_main (now : child_clock) (st : Store) (temp_path : bytes) (f : fs) : fs :=
  <[temp_path := mjoin (encode_resp_command <$> rewrite_commands now st)]> f.

(** The child works on a copy of the keyspace taken at the fork; its file is not
    read before it has exited, so that it is written at once here.  The sequence number
    is an [int] that grows by one with each rewrite; its overflow after [2 ^ 31] rewrites
    is not modelled. *)
Definition start_rewrite (fork_ok : bool) (now : child_clock) (st : Store) (base : bytes) (m : AofManager) (f : fs)
  : AofManager * fs * bool :=
  if rewrite_in_progress_ m || negb (enabled m) then (m, f, false)
  else
    let m := with_base base m in
    let temp := appenddirname_ m ++ slash ++ incr_name (current_seq_ m + 1) m in
    let m := stop_fsync_thread (with_rewrite (rewrite_in_progress_ m) (rewrite_buffer_ m) temp m) in
    if fork_ok
    then (start_fsync_thread (with_rewrite true [] temp m),
          rewrite_child_main now st (base ++ slash ++ temp) f, true)
    else (start_fsync_thread m, f, false).

Inductive child_status :=
| ChildRunning
| ChildFailed
| ChildExited.

(** [s.substr(0, s.rfind('/') + 1)]. *)
Definition dir_part (s : bytes) : bytes :=
  match find_char "/"%char (rev s) with
  | Some i => take (length s - i) s
  | None => []
  end.

Definition append_buffer (path data : bytes) (f : fs) : fs :=
  match data, f !! path with
  | [], _ => f
  | _, Some old => <[path := old ++ data]> f
  | _, None => f
  end.

Definition check_rewrite_complete (status : child_status) (m : AofManager) (f : fs)
  : AofManager * fs * bool :=
  if rewrite_in_progress_ m then
    match status with
    | ChildRunning => (m, f, false)
    | ChildFailed => (with_rewrite false [] (rewrite_temp_file_ m) m, f, true)
    | ChildExited =>
        let path := base_dir_ m ++ slash ++ rewrite_temp_file_ m in
        let f := append_buffer path (rewrite_buffer_ m) f in
        let new_seq := current_seq_ m + 1 in
        let f := <[base_dir_ m ++ slash ++ dir_part (rewrite_temp_file_ m) ++ appendfilename_ m
                     ++ bs ".manifest" := manifest_text new_seq m]> f in
        let m := with_fd None (stop_fsync_thread m) in
        let f := create_if_missing path [] f in
        (with_rewrite false [] [] (start_fsync_thread (with_seq new_seq (with_fd (Some path) m))), f, true)
    end
  else (m, f, false).

(** ** Lemmas on the manifest *)
Definition spaceless (w : bytes) : Prop := Forall (fun c => is_space c = false) w.

Lemma words_go_word w acc s :
  spaceless w -> words_go (w ++ s) acc = words_go s (rev w ++ acc).
Proof.
  revert acc. induction w as [|c w IH]; intros acc Hw; [done|].
  apply Forall_cons in Hw as [Hc Hw]. simpl. rewrite Hc, IH by done. by rewrite <- app_assoc.
Qed.

Lemma words_cons w c s :
  spaceless w -> w <> [] -> is_space c = true -> words (w ++ c :: s) = w :: words s.
Proof.
  intros Hw Hne Hc. unfold words. rewrite words_go_word by done. simpl. rewrite Hc, app_nil_r.
  rewrite rev_involutive. destruct (rev w) eqn:E; [|done].
  apply (f_equal (@rev ascii)) in E. rewrite rev_involutive in E. done.
Qed.

Lemma dec_digits_spaceless n : 0 <= n -> spaceless (dec_digits n).
Proof.
  intros Hn. eapply Forall_impl; [by apply dec_digits_digits|]. intros c Hc.
  unfold is_digit, is_space in *. b2p. rewrite (proj2 (Z.eqb_neq _ _)) by lia.
  rewrite (proj2 (Z.leb_gt (code c) 13)) by lia. by rewrite andb_false_r.
Qed.

Lemma incr_name_spaceless seq m :
  0 <= seq -> spaceless (appendfilename_ m) -> spaceless (incr_name seq m).
Proof.
  intros Hs Hn. unfold incr_name. rewrite to_string_dec by done. unfold spaceless in *.
  rewrite !Forall_app. split_and!; [done|by repeat constructor|by apply dec_digits_spaceless|].
  by repeat constructor.
Qed.

Lemma incr_name_ne seq m : incr_name seq m <> [].
Proof. unfold incr_name. destruct (appendfilename_ m); done. Qed.

Lemma words_manifest seq m :
  0 <= seq -> spaceless (appendfilename_ m) ->
  words (manifest_text seq m) = [bs "file"; incr_name seq m; bs "seq"; to_string seq; bs "type"; bs "i"].
Proof.
  intros Hs Hn. unfold manifest_text.
  change (bs "file " ++ ?s) with (bs "file" ++ " "%char :: s).
  rewrite words_cons by (done || by repeat constructor). f_equal.
  change (bs " seq " ++ ?s) with (" "%char :: bs "seq" ++ " "%char :: s).
  rewrite words_cons by (done || apply incr_name_ne || by apply incr_name_spaceless). f_equal.
  rewrite words_cons by (done || by repeat constructor). f_equal.
  rewrite to_string_dec by done. change (bs " type i" ++ ?s) with (" "%char :: bs "type i" ++ s).
  rewrite words_cons by (done || by apply dec_digits_ne || by apply dec_digits_spaceless). done.
Qed.

Lemma dir_part_slash d n : "/"%char ∉ n -> dir_part (d ++ slash ++ n) = d ++ slash.
Proof.
  intros Hn. unfold dir_part.
  assert (E : rev (d ++ slash ++ n) = rev n ++ "/"%char :: rev d).
  { rewrite !rev_app_distr, <- app_assoc. done. }
  rewrite E, find_char_app by (rewrite list_elem_of_In, <- in_rev, <- list_elem_of_In; done).
  rewrite app_assoc, take_app_length'; [done|]. rewrite length_rev, !length_app. lia.
Qed.

Lemma incr_name_slash seq m :
  0 <= seq -> "/"%char ∉ appendfilename_ m -> "/"%char ∉ incr_name seq m.
Proof.
  intros Hs Hn. unfold incr_name. rewrite to_string_dec by done. rewrite !elem_of_app.
  intros [H|[H|[H|H]]]; [done| |by apply dec_digits_notin in H|].
  - vm_compute in H. set_solver.
  - vm_compute in H. set_solver.
Qed.

Lemma encode_resp_command_eq args : encode_resp_command args = encode_array args.
Proof.
  rewrite encode_array_eq. unfold encode_resp_command, header.
  rewrite (to_string_dec (zlen args)) by apply zlen_nonneg.
  rewrite (fold_left_ext _ (fun r x => r ++ bulk x)); [by rewrite fold_left_append|].
  intros r x. unfold bulk. rewrite to_string_zlen. by rewrite <- !app_assoc.
Qed.

(** A write command that is logged while a rewrite may be running. *)
Definition log_command (mf : AofManager * fs) (data : bytes) : AofManager * fs :=
  (append_to_rewrite_buffer data mf.1, append data mf.1 mf.2).

Definition same_settings (m m' : AofManager) : Prop :=
  appendonly_ m' = appendonly_ m /\ appenddirname_ m' = appenddirname_ m
  /\ appendfilename_ m' = appendfilename_ m /\ aof_fd_ m' = aof_fd_ m
  /\ current_seq_ m' = current_seq_ m /\ base_dir_ m' = base_dir_ m.

Lemma log_commands_rewriting ds m f temp contents :
  rewrite_in_progress_ m = true -> aof_fd_ m <> Some temp -> f !! temp = Some contents ->
  let (m', f') := fold_left log_command ds (m, f) in
  same_settings m m' /\ rewrite_in_progress_ m' = true
  /\ rewrite_buffer_ m' = rewrite_buffer_ m ++ mjoin ds
  /\ rewrite_temp_file_ m' = rewrite_temp_file_ m /\ f' !! temp = Some contents.
Proof.
  revert m f. induction ds as [|d ds IH]; intros m f Hr Hfd Hf; simpl.
  - rewrite app_nil_r. by split_and!.
  - unfold log_command at 2; simpl. unfold append_to_rewrite_buffer at 1. rewrite Hr.
    match goal with |- context [fold_left _ _ (?m1, ?f1)] => specialize (IH m1 f1) end.
    destruct (fold_left _ _ _) as [m' f']. destruct IH as (Hs & H1 & H2 & H3 & H4); [done|done| |].
    + unfold append. destruct (aof_fd_ m) as [p|] eqn:E; [|done].
      rewrite lookup_insert_ne; [done|]. congruence.
    + split_and!; [exact Hs|done| |done|done]. rewrite H2. simpl. by rewrite <- app_assoc.
Qed.

Lemma start_rewrite_spec now st base m f :
  enabled m = true -> rewrite_in_progress_ m = false ->
  let temp := appenddirname_ m ++ slash ++ incr_name (current_seq_ m + 1) m in
  let '(m1, f1, ok) := start_rewrite true now st base m f in
  ok = true /\ same_settings (with_base base m) m1 /\ rewrite_in_progress_ m1 = true
  /\ rewrite_buffer_ m1 = [] /\ rewrite_temp_file_ m1 = temp
  /\ f1 = <[base ++ slash ++ temp := mjoin (encode_resp_command <$> rewrite_commands now st)]> f.
Proof.
  intros He Hr. unfold start_rewrite. rewrite Hr, He. simpl.
  unfold start_fsync_thread. by destruct (bool_decide _).
Qed.

Lemma incr_path_not_manifest pre seq m :
  0 <= seq -> pre ++ appendfilename_ m ++ bs ".manifest" <> pre ++ incr_name seq m.
Proof.
  intros Hs H. apply app_inv_head in H. unfold incr_name in H. apply app_inv_head in H.
  rewrite to_string_dec in H by done. injection H as H.
  pose proof (dec_digits_digits seq Hs) as Hd. pose proof (dec_digits_ne seq Hs) as Hne.
  destruct (dec_digits seq) as [|c l]; [done|]. apply Forall_cons in Hd as [Hc _].
  injection H as <- _. done.
Qed.

Lemma append_buffer_lookup path data f contents :
  f !! path = Some contents -> append_buffer path data f !! path = Some (contents ++ data).
Proof.
  intros H. unfold append_buffer. rewrite H. destruct data; [by rewrite app_nil_r|].
  apply lookup_insert_eq.
Qed.

(** Managers that use the same files. *)
Definition same_paths (m m' : AofManager) : Prop :=
  appendonly_ m' = appendonly_ m /\ appenddirname_ m' = appenddirname_ m /\ appendfilename_ m' = appendfilename_ m.

(** The manifest names the file with this number, which holds [contents]. *)
Definition log_is (base : bytes) (m : AofManager) (seq : Z) (contents : bytes) (f : fs) : Prop :=
  f !! manifest_path base m = Some (manifest_text seq m) /\ f !! (aof_dir base m ++ incr_name seq m) = Some contents.

Lemma read_log base m seq contents f :
  enabled m = true -> 0 <= seq -> spaceless (appendfilename_ m) -> log_is base m seq contents f ->
  read_aof_content base m f = contents.
Proof.
  intros He Hs Hsp [Hm Hf]. unfold read_aof_content. rewrite He, Hm, words_manifest by done.
  cbn [lookup list_lookup default from_option id]. by rewrite Hf.
Qed.

Lemma log_is_same base m m' seq contents f :
  same_paths m m' -> log_is base m seq contents f -> log_is base m' seq contents f.
Proof.
  intros (_ & H1 & H2). unfold log_is, manifest_path, manifest_text, aof_dir, incr_name. by rewrite H1, H2.
Qed.

Lemma check_rewrite_spec base m f contents :
  enabled m = true -> rewrite_in_progress_ m = true -> 0 <= current_seq_ m ->
  spaceless (appendfilename_ m) -> "/"%char ∉ appendfilename_ m -> base_dir_ m = base ->
  rewrite_temp_file_ m = appenddirname_ m ++ slash ++ incr_name (current_seq_ m + 1) m ->
  f !! (base ++ slash ++ rewrite_temp_file_ m) = Some contents ->
  let '(m', f', done) := check_rewrite_complete ChildExited m f in
  done = true /\ rewrite_in_progress_ m' = false /\ current_seq_ m' = current_seq_ m + 1
  /\ aof_fd_ m' = Some (base ++ slash ++ rewrite_temp_file_ m) /\ same_paths m m'
  /\ log_is base m (current_seq_ m + 1) (contents ++ rewrite_buffer_ m) f'.
Proof.
  intros He Hr Hs Hsp Hsl Hb Ht Hf. unfold check_rewrite_complete. rewrite Hr, Hb.
  set (path := base ++ slash ++ rewrite_temp_file_ m) in *.
  assert (Hdir : dir_part (rewrite_temp_file_ m) = appenddirname_ m ++ slash).
  { rewrite Ht. apply dir_part_slash, incr_name_slash; [lia|done]. }
  rewrite Hdir.
  assert (Hpath : path = aof_dir base m ++ incr_name (current_seq_ m + 1) m).
  { unfold path, aof_dir. rewrite Ht. by rewrite <- !app_assoc. }
  assert (Hman : base ++ slash ++ (appenddirname_ m ++ slash) ++ appendfilename_ m ++ bs ".manifest"
                 = manifest_path base m).
  { unfold manifest_path, aof_dir. by rewrite <- !app_assoc. }
  rewrite Hman. set (f1 := <[manifest_path base m := _]> _).
  assert (Hf1 : f1 !! path = Some (contents ++ rewrite_buffer_ m)).
  { unfold f1. rewrite lookup_insert_ne by (rewrite Hpath; apply incr_path_not_manifest; lia).
    by apply append_buffer_lookup. }
  assert (Hf2 : f1 !! manifest_path base m = Some (manifest_text (current_seq_ m + 1) m))
    by apply lookup_insert_eq.
  unfold create_if_missing. rewrite Hf1. split; [done|]. split; [done|].
  assert (Hk : forall m0, current_seq_ (start_fsync_thread m0) = current_seq_ m0
    /\ aof_fd_ (start_fsync_thread m0) = aof_fd_ m0
    /\ appendonly_ (start_fsync_thread m0) = appendonly_ m0
    /\ appenddirname_ (start_fsync_thread m0) = appenddirname_ m0
    /\ appendfilename_ (start_fsync_thread m0) = appendfilename_ m0)
    by (intros; unfold start_fsync_thread; by destruct (bool_decide _)).
  cbn [with_rewrite current_seq_ aof_fd_].
  destruct (Hk (with_seq (current_seq_ m + 1) (with_fd (Some path) (with_fd None (stop_fsync_thread m)))))
    as (-> & -> & H1 & H2 & H3).
  split; [done|]. split; [done|]. split; [by split_and!|]. split; [exact Hf2|]. by rewrite <- Hpath.
Qed.

Lemma rewrite_complete (now : child_clock) (st : Store) (base : bytes) (m : AofManager) (f : fs)
    (ds : list bytes) :
  enabled m = true -> rewrite_in_progress_ m = false -> 0 <= current_seq_ m ->
  spaceless (appendfilename_ m) -> "/"%char ∉ appendfilename_ m ->
  aof_fd_ m <> Some (base ++ slash ++ appenddirname_ m ++ slash ++ incr_name (current_seq_ m + 1) m) ->
  let '(m1, f1, started) := start_rewrite true now st base m f in
  let '(m2, f2) := fold_left log_command ds (m1, f1) in
  let '(m3, f3, complete) := check_rewrite_complete ChildExited m2 f2 in
  started = true /\ complete = true
  /\ same_paths m m3 /\ log_is base m (current_seq_ m + 1) (encode_all (rewrite_commands now st) ++ mjoin ds) f3
  /\ current_seq_ m3 = current_seq_ m + 1
  /\ aof_fd_ m3 = Some (aof_dir base m ++ incr_name (current_seq_ m + 1) m).
Proof.
  intros He Hr Hs Hsp Hsl Hfd.
  pose proof (start_rewrite_spec now st base m f He Hr) as H1. cbv zeta in H1.
  set (temp := appenddirname_ m ++ slash ++ incr_name (current_seq_ m + 1) m) in *.
  destruct (start_rewrite true now st base m f) as [[m1 f1] ok].
  destruct H1 as (-> & (E1 & E2 & E3 & E4 & E5 & E6) & Hr1 & Hb1 & Ht1 & ->).
  set (image := mjoin (encode_resp_command <$> rewrite_commands now st)).
  set (f1 := <[base ++ slash ++ temp := image]> f).
  assert (Hfd1 : aof_fd_ m1 <> Some (base ++ slash ++ temp)) by (rewrite E4; exact Hfd).
  assert (Hf1 : f1 !! (base ++ slash ++ temp) = Some image) by apply lookup_insert_eq.
  pose proof (log_commands_rewriting ds m1 f1 _ _ Hr1 Hfd1 Hf1) as H2.
  destruct (fold_left log_command ds _) as [m2 f2].
  destruct H2 as ((F1 & F2 & F3 & F4 & F5 & F6) & Hr2 & Hb2 & Ht2 & Hf2).
  simpl in E1, E2, E3, E4, E5, E6.
  assert (Htemp : rewrite_temp_file_ m2 = temp) by congruence.
  assert (Hsame : appenddirname_ m2 = appenddirname_ m /\ appendfilename_ m2 = appendfilename_ m
    /\ current_seq_ m2 = current_seq_ m) by (split_and!; congruence).
  destruct Hsame as (G1 & G2 & G3).
  pose proof (check_rewrite_spec base m2 f2 image) as H3.
  destruct (check_rewrite_complete ChildExited m2 f2) as [[m3 f3] fin].
  destruct H3 as (-> & _ & Hs3 & Hfd3 & (P1 & P2 & P3) & Hc3).
  - unfold enabled in *. by rewrite F1, E1.
  - done.
  - by rewrite G3.
  - by rewrite G2.
  - by rewrite G2.
  - congruence.
  - rewrite Htemp. unfold temp, incr_name. by rewrite G1, G2, G3.
  - by rewrite Htemp.
  - split_and!; [done|done|split_and!; congruence| |congruence|].
    + apply (log_is_same base m2); [split_and!; congruence|]. rewrite Hb2, Hb1, G3 in Hc3. simpl in Hc3.
      replace (encode_all _) with image; [exact Hc3|]. unfold image, encode_all. f_equal.
      apply list_fmap_ext. intros. apply encode_resp_command_eq.
    + rewrite Hfd3, Htemp. unfold temp, aof_dir. by rewrite <- !app_assoc.
Qed.

(** * Properties *)

(** A background rewrite loses no write.  Whatever commands are logged while
    the child works, once it has exited the manifest names a new file, which holds
    the commands that rebuild the keyspace as it was at the fork followed by exactly
    the commands logged since; it is the file appended to from then on, and every
    command in it is in the encoding the parser reads back. *)
Theorem rewrite_loses_nothing (now : child_clock) (st : Store) (base : bytes) (m : AofManager) (f : fs)
    (ds : list bytes) :
  enabled m = true -> rewrite_in_progress_ m = false -> 0 <= current_seq_ m ->
  spaceless (appendfilename_ m) -> "/"%char ∉ appendfilename_ m ->
  aof_fd_ m <> Some (base ++ slash ++ appenddirname_ m ++ slash ++ incr_name (current_seq_ m + 1) m) ->
  let '(m1, f1, started) := start_rewrite true now st base m f in
  let '(m2, f2) := fold_left log_command ds (m1, f1) in
  let '(m3, f3, complete) := check_rewrite_complete ChildExited m2 f2 in
  started = true /\ complete = true
  /\ read_aof_content base m3 f3 = encode_all (rewrite_commands now st) ++ mjoin ds
  /\ current_seq_ m3 = current_seq_ m + 1
  /\ aof_fd_ m3 = Some (aof_dir base m ++ incr_name (current_seq_ m + 1) m).
Proof.
  intros He Hr Hs Hsp Hsl Hfd. pose proof (rewrite_complete now st base m f ds He Hr Hs Hsp Hsl Hfd) as H.
  destruct (start_rewrite _ _ _ _ _ _) as [[m1 f1] started]. destruct (fold_left _ _ _) as [m2 f2].
  destruct (check_rewrite_complete _ _ _) as [[m3 f3] fin]. destruct H as (-> & -> & Hp & Hl & Hseq & Hfd3).
  split_and!; [done|done| |done|done]. pose proof Hp as (P1 & _ & P3).
  apply (read_log _ _ (current_seq_ m + 1)); [unfold enabled in *; by rewrite P1|lia|by rewrite P3|].
  by eapply log_is_same.
Qed.

Definition aof_example : AofManager :=
  with_fd (Some (bs "/d/appendonlydir/appendonly.aof.1.incr.aof"))
    (with_seq 1 (with_appendonly (bs "yes") new_aof)).

Definition rewrite_example_store : Store :=
  mkStore {[ bs "k" := mkEntry (VString (bs "v")) None ]} 0 ∅.

Lemma rewrite_loses_nothing_witness :
  let '(m1, f1, _) := start_rewrite true (child_at 0) rewrite_example_store (bs "/d") aof_example ∅ in
  let '(m2, f2) := fold_left log_command [bs "a"; bs "b"] (m1, f1) in
  let '(m3, f3, _) := check_rewrite_complete ChildExited m2 f2 in
  read_aof_content (bs "/d") m3 f3 = encode_all [[bs "SET"; bs "k"; bs "v"]] ++ bs "ab".
Proof.
  pose proof (rewrite_loses_nothing (child_at 0) rewrite_example_store (bs "/d") aof_example ∅ [bs "a"; bs "b"]
    eq_refl eq_refl ltac:(done) ltac:(by repeat constructor)
    ltac:(apply (bool_decide_unpack _); vm_compute; exact I) ltac:(done)) as H.
  revert H. destruct (start_rewrite _ _ _ _ _ _) as [[m1 f1] ?]. destruct (fold_left _ _ _) as [m2 f2].
  destruct (check_rewrite_complete _ _ _) as [[m3 f3] ?]. intros (_ & _ & H & _). rewrite H.
  vm_compute. reflexivity.
Defined.
