(* ===== verification/Context.v ===== *)
(** * The context a command runs in (handler/command_handler.hpp,
    handler/process_result.hpp, server/server_config.hpp)

    A handler reads the clocks and changes the context; replies and messages to
    other clients are recorded in the order they are written.  [Emit] is a write to
    [*ctx.out], [Send] a call of [send_to_client]. *)

From S2P Require Import Prelude Text StreamIds RespCodec Scores SortedSets Store BlockingManager.
From S2P Require Import PubSub Connection Sha256 Acl Doubles Aof.

Record ReplicaConfig := mkReplicaConfig { rc_host : bytes; rc_port : Z }.

Record ServerConfig := mkServerConfig {
  replica : option ReplicaConfig;
  master_replid : bytes;
  dir : bytes;
  dbfilename : bytes
}.

Definition is_replica (c : ServerConfig) : bool := if replica c then true else false.

Inductive out_event :=
| Emit (b : bytes)
| Send (fd : Z) (b : bytes).

(** The functions [replica_count_fn] and [offset_fn] are kept as their values, absent
    when they are not set. *)
Record CommandContext := mkCtx {
  ctx_store : Store;
  config : ServerConfig;
  aof_manager : option AofManager;
  files : fs;
  conn_pool : option ConnectionPool;
  blocking_manager : option BlockingManager;
  pubsub_manager : option PubSubManager;
  acl_manager : AclManager;
  replica_count_fn : option Z;
  offset_fn : option Z;
  transactions : gmap Z TransactionState;
  authenticated_fds : gset Z;
  out : list out_event
}.

Definition new_ctx (st : Store) (c : ServerConfig) : CommandContext :=
  mkCtx st c None ∅ None None None new_acl None None ∅ ∅ [].

Inductive result_state :=
| Normal
| Block
| ReplicaHandshake
| Wait (numreplicas timeout_ms : Z).

Record ProcessResult := mkProcessResult {
  state : result_state;
  propagate_cmds : list bytes;
  consumed : Z
}.

(** What a handler reads of the outside: the steady clock in nanoseconds, the system
    clock in milliseconds, whether a fork succeeds, and the clock the forked child reads. *)
Record env := mkEnv { steady_now : Z; sys_ms : Z; fork_ok : bool; child_now : child_clock }.

(** ** The handler monad *)
Definition M (A : Type) : Type := env -> CommandContext -> outcome (A * CommandContext).

#[export] Instance M_ret : MRet M := fun A a _ c => Ret (a, c).
#[export] Instance M_bind : MBind M := fun A B f m e c =>
  match m e c with
  | Ret (a, c') => f a e c'
  | Throw x => Throw x
  | Ub u => Ub u
  end.

Definition lift {A} (o : outcome A) : M A := fun _ c =>
  match o with
  | Ret a => Ret (a, c)
  | Throw x => Throw x
  | Ub u => Ub u
  end.

Definition ask : M env := fun e c => Ret (e, c).
Definition get_ctx : M CommandContext := fun _ c => Ret (c, c).
Definition modify (f : CommandContext -> CommandContext) : M unit := fun _ c => Ret ((), f c).

(** ** Field updates *)
Definition with_store v c := mkCtx v (config c) (aof_manager c) (files c) (conn_pool c) (blocking_manager c)
  (pubsub_manager c) (acl_manager c) (replica_count_fn c) (offset_fn c) (transactions c) (authenticated_fds c) (out c).
Definition with_aof a f c := mkCtx (ctx_store c) (config c) a f (conn_pool c) (blocking_manager c)
  (pubsub_manager c) (acl_manager c) (replica_count_fn c) (offset_fn c) (transactions c) (authenticated_fds c) (out c).
Definition with_pool p c := mkCtx (ctx_store c) (config c) (aof_manager c) (files c) p (blocking_manager c)
  (pubsub_manager c) (acl_manager c) (replica_count_fn c) (offset_fn c) (transactions c) (authenticated_fds c) (out c).
Definition with_blocking b c := mkCtx (ctx_store c) (config c) (aof_manager c) (files c) (conn_pool c) b
  (pubsub_manager c) (acl_manager c) (replica_count_fn c) (offset_fn c) (transactions c) (authenticated_fds c) (out c).
Definition with_pubsub p c := mkCtx (ctx_store c) (config c) (aof_manager c) (files c) (conn_pool c) (blocking_manager c)
  p (acl_manager c) (replica_count_fn c) (offset_fn c) (transactions c) (authenticated_fds c) (out c).
Definition with_acl a c := mkCtx (ctx_store c) (config c) (aof_manager c) (files c) (conn_pool c) (blocking_manager c)
  (pubsub_manager c) a (replica_count_fn c) (offset_fn c) (transactions c) (authenticated_fds c) (out c).
Definition with_transactions t c := mkCtx (ctx_store c) (config c) (aof_manager c) (files c) (conn_pool c) (blocking_manager c)
  (pubsub_manager c) (acl_manager c) (replica_count_fn c) (offset_fn c) t (authenticated_fds c) (out c).
Definition with_authenticated a c := mkCtx (ctx_store c) (config c) (aof_manager c) (files c) (conn_pool c) (blocking_manager c)
  (pubsub_manager c) (acl_manager c) (replica_count_fn c) (offset_fn c) (transactions c) a (out c).
Definition with_out o c := mkCtx (ctx_store c) (config c) (aof_manager c) (files c) (conn_pool c) (blocking_manager c)
  (pubsub_manager c) (acl_manager c) (replica_count_fn c) (offset_fn c) (transactions c) (authenticated_fds c) o.

(** ** Actions *)
Definition emit (b : bytes) : M unit := modify (fun c => with_out (out c ++ [Emit b]) c).
(** An appending encoder applied to [*ctx.out]. *)
Definition emit_into (enc : bytes -> bytes) : M unit := emit (enc []).
Definition emit_error (msg : bytes) : M unit := emit_into (fun o => encode_error_into o msg).
Definition emit_integer (n : Z) : M unit := emit_into (fun o => encode_integer_into o n).
Definition emit_bulk (s : bytes) : M unit := emit_into (fun o => encode_bulk_string_into o s).
Definition emit_null_bulk : M unit := emit_into encode_null_bulk_string_into.
Definition emit_array (l : list bytes) : M unit := emit_into (fun o => encode_array_into o l).

(** A call of [send_to_client]; calling an empty [std::function] throws. *)
Definition send_client (has_send : bool) (fd : Z) (b : bytes) : M unit := fun _ c =>
  if has_send then Ret ((), with_out (out c ++ [Send fd b]) c) else Throw StdBadFunctionCall.

(** A store operation at the current time. *)
Definition on_store {A} (f : Z -> Store -> Store * A) : M A := fun e c =>
  let (st, a) := f (steady_now e) (ctx_store c) in Ret (a, with_store st c).
Definition on_store_o {A} (f : env -> Store -> outcome (Store * A)) : M A := fun e c =>
  match f e (ctx_store c) with
  | Ret (st, a) => Ret (a, with_store st c)
  | Throw x => Throw x
  | Ub u => Ub u
  end.

Definition normal : M result_state := mret Normal.

Definition arg (args : list bytes) (i : nat) : M bytes := lift (vec_at args i).

Definition wrongtype : bytes := bs "WRONGTYPE Operation against a key holding the wrong kind of value".
Definition not_an_integer : bytes := bs "ERR value is not an integer or out of range".
Definition not_a_float : bytes := bs "ERR value is not a valid float".

(** ** Running actions *)
Lemma bind_eq {A B} (m : M A) (f : A -> M B) e c :
  (m ≫= f) e c = match m e c with
                 | Ret (a, c') => f a e c'
                 | Throw x => Throw x
                 | Ub u => Ub u
                 end.
Proof. done. Qed.

(** Runs the actions at the head of the goal. *)
Ltac mstep :=
  repeat first [ rewrite bind_eq | progress
    cbn [get_ctx ask modify mret M_ret lift emit emit_into emit_error emit_integer emit_bulk emit_null_bulk
         emit_array normal arg vec_at lookup list_lookup on_store on_store_o send_client] ].
