(* ===== verification/Cli.v ===== *)
(** * The command line (cli/cli_parser.hpp)

    The functions take the arguments after the program's name; an option is followed
    by its value. *)

From S2P Require Import Prelude Text StreamIds RespCodec Scores SortedSets Store BlockingManager PubSub.
From S2P Require Import Connection Sha256 Acl Doubles Aof Context.

Fixpoint parse_port (args : list bytes) : Z :=
  match args with
  | arg :: ((value :: _) as rest) =>
      if bool_decide (arg = bs "--port")
      then match parse_int32 value with
           | Some port => port
           | None => parse_port rest
           end
      else parse_port rest
  | _ => 6379
  end.

Fixpoint parse_replicaof (args : list bytes) : option ReplicaConfig :=
  match args with
  | arg :: ((value :: _) as rest) =>
      if bool_decide (arg = bs "--replicaof")
      then match find_char " "%char value with
           | Some space =>
               match parse_int32 (drop (space + 1) value) with
               | Some port => Some (mkReplicaConfig (take space value) port)
               | None => parse_replicaof rest
               end
           | None => parse_replicaof rest
           end
      else parse_replicaof rest
  | _ => None
  end.

(** [parse_dir] and [parse_dbfilename] differ in the name of the option. *)
Fixpoint parse_text (name : bytes) (args : list bytes) : bytes :=
  match args with
  | arg :: ((value :: _) as rest) => if bool_decide (arg = name) then value else parse_text name rest
  | _ => []
  end.
Definition parse_dir : list bytes -> bytes := parse_text (bs "--dir").
Definition parse_dbfilename : list bytes -> bytes := parse_text (bs "--dbfilename").

Definition set_appenddirname (v : bytes) (m : AofManager) : AofManager :=
  mkAof (appendonly_ m) v (appendfilename_ m) (appendfsync_ m) (aof_fd_ m) (current_seq_ m) (base_dir_ m)
    (fsync_running m) (rewrite_in_progress_ m) (rewrite_buffer_ m) (rewrite_temp_file_ m).
Definition set_appendfilename (v : bytes) (m : AofManager) : AofManager :=
  mkAof (appendonly_ m) (appenddirname_ m) v (appendfsync_ m) (aof_fd_ m) (current_seq_ m) (base_dir_ m)
    (fsync_running m) (rewrite_in_progress_ m) (rewrite_buffer_ m) (rewrite_temp_file_ m).

Fixpoint apply_aof_overrides (args : list bytes) (aof : AofManager) : AofManager :=
  match args with
  | arg :: ((value :: _) as rest) =>
      apply_aof_overrides rest
        (if bool_decide (arg = bs "--appendonly") then set_appendonly value aof
         else if bool_decide (arg = bs "--appenddirname") then set_appenddirname value aof
         else if bool_decide (arg = bs "--appendfilename") then set_appendfilename value aof
         else if bool_decide (arg = bs "--appendfsync") then set_appendfsync value aof
         else aof)
  | _ => aof
  end.

(** ** Lemmas *)

(** The first occurrence of an option that has a value counts. *)
Lemma parse_text_first name pre v rest :
  name ∉ pre -> parse_text name (pre ++ name :: v :: rest) = v.
Proof.
  induction pre as [|a pre IH]; intros Hn; [by simpl; rewrite bool_decide_eq_true_2|].
  apply not_elem_of_cons in Hn as [Ha Hn]. specialize (IH Hn). simpl.
  destruct (pre ++ name :: v :: rest) eqn:E; [by destruct pre|]. by rewrite bool_decide_eq_false_2.
Qed.

Lemma parse_replicaof_roundtrip host port :
  " "%char ∉ host -> in_int32 port ->
  parse_replicaof [bs "--replicaof"; host ++ bs " " ++ to_string port] = Some (mkReplicaConfig host port).
Proof.
  intros Hh Hp. cbn [parse_replicaof]. rewrite bool_decide_eq_true_2 by done.
  change (bs " " ++ to_string port) with (" "%char :: to_string port).
  rewrite find_char_app by done. rewrite Nat.add_1_r.
  rewrite take_app_length. replace (drop (S (length host)) _) with (to_string port)
    by (rewrite <- Nat.add_1_r, <- drop_drop, drop_app_length; done).
  unfold parse_int32. by rewrite parse_int_to_string.
Qed.
