(* ===== verification/Rdb.v ===== *)
(** * The snapshot file read at start-up (rdb/rdb_parser.cpp)

    [Reader] is a position in the bytes of the file.  The reads that do not compare the
    position with the size are undefined past the end. *)

From S2P Require Import Prelude Text StreamIds RespCodec Scores SortedSets Store StoreSteps StoreSpec Aof.

(** ** Reader *)
Definition byte_at (data : bytes) (i : nat) : outcome Z := c ← vec_at data i; Ret (code c).

Definition has_more (data : bytes) (pos : nat) : bool := (pos <? length data)%nat.

Definition read_byte (data : bytes) (pos : nat) : Z * nat :=
  match data !! pos with
  | Some c => (code c, S pos)
  | None => (0, pos)
  end.

Definition read_bytes (data : bytes) (n pos : nat) : bytes * nat :=
  let n := if (length data <? pos + n)%nat then (length data - pos)%nat else n in
  (take n (drop pos data), (pos + n)%nat).

Definition read_be16 (data : bytes) (pos : nat) : outcome (Z * nat) :=
  b0 ← byte_at data pos;
  b1 ← byte_at data (pos + 1);
  Ret (Z.lor (Z.shiftl b0 8) b1, (pos + 2)%nat).

Definition read_be32 (data : bytes) (pos : nat) : outcome (Z * nat) :=
  b0 ← byte_at data pos;
  b1 ← byte_at data (pos + 1);
  b2 ← byte_at data (pos + 2);
  b3 ← byte_at data (pos + 3);
  Ret (Z.lor (Z.lor (Z.lor (u32 (Z.shiftl b0 24)) (u32 (Z.shiftl b1 16))) (u32 (Z.shiftl b2 8))) b3, (pos + 4)%nat).

Definition read_le16 (data : bytes) (pos : nat) : outcome (Z * nat) :=
  b0 ← byte_at data pos;
  b1 ← byte_at data (pos + 1);
  Ret (Z.lor b0 (Z.shiftl b1 8), (pos + 2)%nat).

Definition read_le32 (data : bytes) (pos : nat) : outcome (Z * nat) :=
  b0 ← byte_at data pos;
  b1 ← byte_at data (pos + 1);
  b2 ← byte_at data (pos + 2);
  b3 ← byte_at data (pos + 3);
  Ret (Z.lor (Z.lor (Z.lor b0 (u32 (Z.shiftl b1 8))) (u32 (Z.shiftl b2 16))) (u32 (Z.shiftl b3 24)), (pos + 4)%nat).

(** [for (int i = 7; i >= 0; --i) v = (v << 8) | data_[pos_ + i]] *)
Fixpoint le64_loop (data : bytes) (pos n : nat) (v : Z) : outcome Z :=
  match n with
  | O => Ret v
  | S i => b ← byte_at data (pos + i); le64_loop data pos i (Z.lor (u64 (Z.shiftl v 8)) b)
  end.
Definition read_le64 (data : bytes) (pos : nat) : outcome (Z * nat) :=
  v ← le64_loop data pos 8 0; Ret (v, (pos + 8)%nat).

(** The length before a string: the two high bits of the first byte say how it is
    written.  The 32-bit form drops a byte first. *)
Definition read_length (data : bytes) (pos : nat) : outcome (Z * nat) :=
  let (first, pos) := read_byte data pos in
  let hi2 := Z.shiftr (Z.land first 0xC0) 6 in
  if hi2 =? 0 then Ret (Z.land first 0x3F, pos)
  else if hi2 =? 1 then
    let (second, pos) := read_byte data pos in
    Ret (Z.lor (Z.shiftl (Z.land first 0x3F) 8) second, pos)
  else if hi2 =? 2 then
    let (_, pos) := read_byte data pos in
    read_be32 data pos
  else Ret (Z.land first 0x3F, pos).

(** A string, or an integer that is turned into its text. *)
Definition read_string (data : bytes) (pos : nat) : outcome (bytes * nat) :=
  if negb (has_more data pos) then Ret ([], pos)
  else
    first ← byte_at data pos;
    if Z.shiftr (Z.land first 0xC0) 6 =? 3 then
      let pos := S pos in
      let enc := Z.land first 0x3F in
      if enc =? 0 then let (b, pos) := read_byte data pos in Ret (to_string b, pos)
      else if enc =? 1 then '(n, pos) ← read_le16 data pos; Ret (to_string n, pos)
      else if enc =? 2 then '(n, pos) ← read_le32 data pos; Ret (to_string n, pos)
      else Ret ([], pos)
    else
      '(len, pos) ← read_length data pos;
      Ret (read_bytes data (Z.to_nat len) pos).

(** ** The file *)
Record RdbEntry := mkRdbEntry { rdb_value : Val; expire_ms : option Z }.

Definition read_expiry (data : bytes) (pos : nat) (peek : Z) : outcome (option Z * nat) :=
  if peek =? 0xFD then '(s, pos) ← read_le32 data (read_byte data pos).2; Ret (Some (u64 (s * 1000)), pos)
  else if peek =? 0xFC then '(ms, pos) ← read_le64 data (read_byte data pos).2; Ret (Some ms, pos)
  else Ret (None, pos).

(** The keys of one database; each turn reads at least the byte of the type. *)
Fixpoint entry_loop (fuel : nat) (data : bytes) (pos : nat) (result : gmap bytes RdbEntry)
  : outcome (gmap bytes RdbEntry * nat) :=
  match fuel with
  | O => Ret (result, pos)
  | S fuel =>
      if negb (has_more data pos) then Ret (result, pos)
      else
        peek ← byte_at data pos;
        if (peek =? 0xFF) || (peek =? 0xFE) || (peek =? 0xFA) then Ret (result, pos)
        else
          '(exp, pos) ← read_expiry data pos peek;
          let pos := (read_byte data pos).2 in
          '(key, pos) ← read_string data pos;
          '(value, pos) ← read_string data pos;
          entry_loop fuel data pos (map_emplace key (mkRdbEntry (VString value) exp) result)
  end.

(** The sizes of the hash tables, if they are there. *)
Definition read_sizes (data : bytes) (pos : nat) : outcome nat :=
  if has_more data pos then
    peek ← byte_at data pos;
    if peek =? 0xFB then
      '(_, pos) ← read_length data (read_byte data pos).2;
      '(_, pos) ← read_length data pos;
      Ret pos
    else Ret pos
  else Ret pos.

Fixpoint rdb_loop (fuel : nat) (data : bytes) (pos : nat) (result : gmap bytes RdbEntry)
  : outcome (gmap bytes RdbEntry) :=
  match fuel with
  | O => Ret result
  | S fuel =>
      if negb (has_more data pos) then Ret result
      else
        let (op, pos) := read_byte data pos in
        if op =? 0xFA then
          '(_, pos) ← read_string data pos;
          '(_, pos) ← read_string data pos;
          rdb_loop fuel data pos result
        else if op =? 0xFE then
          '(_, pos) ← read_length data pos;
          pos ← read_sizes data pos;
          '(result, pos) ← entry_loop (length data) data pos result;
          rdb_loop fuel data pos result
        else if op =? 0xFF then Ret result
        else rdb_loop fuel data pos result
  end.

Definition parse_rdb (data : bytes) : outcome (gmap bytes RdbEntry) :=
  if (length data <? 9)%nat || negb (bool_decide (take 5 data = bs "REDIS")) then Ret ∅
  else rdb_loop (length data) data 9 ∅.

(** ** Loading *)
Definition load_rdb_file (path : bytes) (f : fs) : outcome (gmap bytes RdbEntry) :=
  match f !! path with
  | Some data => parse_rdb data
  | None => Ret ∅
  end.

(** [path(dir) / name]. *)
Definition path_join (dir name : bytes) : bytes :=
  if bool_decide (head name = Some "/"%char) then name
  else if bool_decide (last dir = Some "/"%char) then dir ++ name
  else dir ++ slash ++ name.

Fixpoint load_entries (now now_ms : Z) (entries : list (bytes * RdbEntry)) (st : Store) : outcome Store :=
  match entries with
  | [] => Ret st
  | (key, entry) :: entries =>
      match alt_get_if (T := bytes) (rdb_value entry) with
      | None => load_entries now now_ms entries st
      | Some v =>
          match expire_ms entry with
          | None => st ← set now key v None st; load_entries now now_ms entries st
          | Some e =>
              remaining ← int64_of (s64 e - now_ms);
              if remaining <=? 0 then load_entries now now_ms entries st
              else st ← set now key v (Some remaining) st; load_entries now now_ms entries st
          end
      end
  end.

Definition load_into_store (now now_ms : Z) (dir dbfilename : bytes) (f : fs) (st : Store) : outcome Store :=
  if bool_decide (dir = []) || bool_decide (dbfilename = []) then Ret st
  else
    entries ← load_rdb_file (path_join dir dbfilename) f;
    load_entries now now_ms (map_to_list entries) st.

(** ** A writer of snapshots, for the encodings the parser reads right *)
Definition rdb_length (n : Z) : bytes :=
  if n <? 64 then [chr n] else [chr (64 + n / 256); chr (n mod 256)].
Definition rdb_string (s : bytes) : bytes := rdb_length (zlen s) ++ s.

Fixpoint le_bytes (k : nat) (v : Z) : bytes :=
  match k with
  | O => []
  | S k => chr (v mod 256) :: le_bytes k (v / 256)
  end.

Definition rdb_expiry (e : option Z) : bytes :=
  match e with Some ms => chr 0xFC :: le_bytes 8 ms | None => [] end.
Definition rdb_entry (x : bytes * (bytes * option Z)) : bytes :=
  rdb_expiry x.2.2 ++ chr 0 :: rdb_string x.1 ++ rdb_string x.2.1.
Definition rdb_aux (x : bytes * bytes) : bytes := chr 0xFA :: rdb_string x.1 ++ rdb_string x.2.

Definition snapshot (version : bytes) (aux : list (bytes * bytes)) (expiring : Z)
    (entries : list (bytes * (bytes * option Z))) (checksum : bytes) : bytes :=
  bs "REDIS" ++ version ++ mjoin (rdb_aux <$> aux)
  ++ chr 0xFE :: chr 0 :: chr 0xFB :: rdb_length (zlen entries) ++ rdb_length expiring
  ++ mjoin (rdb_entry <$> entries) ++ chr 0xFF :: checksum.

(** ** Lemmas *)

(** From [pos] on the data is [rest]. *)
Definition from (data : bytes) (pos : nat) (rest : bytes) : Prop :=
  exists pre, data = pre ++ rest /\ length pre = pos.

Lemma from_skip data pos x rest : from data pos (x ++ rest) -> from data (pos + length x) rest.
Proof. intros (pre & -> & <-). exists (pre ++ x). by rewrite <- app_assoc, length_app. Qed.

Lemma from_byte data pos c rest :
  from data pos (c :: rest) ->
  byte_at data pos = Ret (code c) /\ read_byte data pos = (code c, S pos) /\ has_more data pos = true
  /\ from data (S pos) rest.
Proof.
  intros H. pose proof (from_skip data pos [c] rest H) as Hs. rewrite Nat.add_1_r in Hs.
  destruct H as (pre & -> & <-).
  assert (Hl : (pre ++ c :: rest) !! length pre = Some c) by (by rewrite list_lookup_middle).
  unfold byte_at, read_byte, vec_at, has_more. rewrite Hl. split_and!; [done..| |done].
  apply Nat.ltb_lt. rewrite length_app. simpl. lia.
Qed.

Lemma from_more data pos x rest : from data pos (x ++ rest) -> x <> [] -> has_more data pos = true.
Proof. intros H Hx. destruct x as [|c x]; [done|]. by apply (from_byte data pos c (x ++ rest)) in H as (_ & _ & ? & _). Qed.

Lemma read_bytes_from data pos s rest :
  from data pos (s ++ rest) -> read_bytes data (length s) pos = (s, (pos + length s)%nat).
Proof.
  intros (pre & -> & <-). unfold read_bytes. rewrite (proj2 (Nat.ltb_ge _ _)) by (rewrite !length_app; lia).
  by rewrite drop_app_length, take_app_length.
Qed.

Lemma byte_forall (P : Z -> bool) : forallb P (seqZ 0 256) = true -> forall b, 0 <= b < 256 -> P b = true.
Proof. intros H b Hb. rewrite forallb_forall in H. apply H, list_elem_of_In, elem_of_seqZ. lia. Qed.

Lemma high_bits b : 0 <= b < 256 -> Z.shiftr (Z.land b 0xC0) 6 = b / 64 /\ Z.land b 0x3F = b mod 64.
Proof.
  intros Hb. pose proof (byte_forall (fun b => (Z.shiftr (Z.land b 0xC0) 6 =? b / 64) && (Z.land b 0x3F =? b mod 64))
    eq_refl b Hb) as H. cbv beta in H. by apply andb_true_iff in H as [H1%Z.eqb_eq H2%Z.eqb_eq].
Qed.

Lemma lor_shift a b k : 0 <= k -> 0 <= b < 2 ^ k -> Z.lor (Z.shiftl a k) b = a * 2 ^ k + b.
Proof.
  intros Hk Hb. rewrite <- Z.shiftl_mul_pow2 by done. symmetry. apply Z.add_nocarry_lor.
  apply Z.bits_inj'. intros n Hn. rewrite Z.land_spec, Z.bits_0.
  destruct (decide (n < k)); [by rewrite Z.shiftl_spec_low|].
  destruct (decide (b = 0)) as [->|]; [by rewrite Z.bits_0, andb_false_r|].
  rewrite (Z.bits_above_log2 b n), andb_false_r; [done|lia|]. apply Z.log2_lt_pow2; [lia|].
  apply (Z.lt_le_trans _ (2 ^ k)); [lia|]. apply Z.pow_le_mono_r; lia.
Qed.

Lemma read_length_from data pos n rest :
  0 <= n < 16384 -> from data pos (rdb_length n ++ rest) ->
  read_length data pos = Ret (n, (pos + length (rdb_length n))%nat).
Proof.
  intros Hn H. unfold rdb_length in *. destruct (n <? 64) eqn:E; b2p.
  - apply from_byte in H as (_ & Hr & _). unfold read_length. rewrite Hr, code_chr by lia.
    destruct (high_bits n) as [-> ->]; [lia|]. rewrite Z.div_small, Z.mod_small by lia. simpl.
    by rewrite Nat.add_1_r.
  - apply from_byte in H as (_ & Hr & _ & H). apply from_byte in H as (_ & Hr2 & _).
    assert (0 <= n / 256 < 64) by (split; [apply Z.div_pos; lia|apply Z.div_lt_upper_bound; lia]).
    pose proof (Z.mod_pos_bound n 256 ltac:(lia)).
    unfold read_length. rewrite Hr, Hr2, !code_chr by lia. destruct (high_bits (64 + n / 256)) as [-> ->]; [lia|].
    replace ((64 + n / 256) / 64) with 1 by (apply (Z.div_unique_pos _ _ _ (n / 256)); lia).
    replace ((64 + n / 256) mod 64) with (n / 256) by (apply (Z.mod_unique_pos _ _ 1); lia).
    simpl. rewrite lor_shift by (done || lia). change (2 ^ 8) with 256. rewrite Z.mul_comm, <- Z.div_mod by lia.
    do 3 f_equal. lia.
Qed.

Lemma read_string_from data pos s rest :
  zlen s < 16384 -> from data pos (rdb_string s ++ rest) ->
  read_string data pos = Ret (s, (pos + length (rdb_string s))%nat).
Proof.
  intros Hs H. pose proof (zlen_nonneg s). unfold rdb_string in *. rewrite <- app_assoc in H.
  assert (Hf : exists b c, rdb_length (zlen s) = c :: b /\ 0 <= code c < 128).
  { unfold rdb_length. destruct (zlen s <? 64) eqn:E; b2p; do 2 eexists; (split; [done|]); rewrite code_chr.
    all: try lia. all: split; [|apply Z.lt_le_trans with 128]; try lia.
    all: try (assert (0 <= zlen s / 256 < 64) by (split; [apply Z.div_pos; lia|apply Z.div_lt_upper_bound; lia]); lia). }
  destruct Hf as (b & c & Hb & Hc).
  pose proof (read_length_from data pos (zlen s) _ ltac:(lia) H) as Hl.
  pose proof (from_skip _ _ _ _ H) as Hskip.
  pose proof H as Hh. rewrite Hb in Hh. apply (from_byte data pos c) in Hh as (Hat & _ & Hm & _).
  unfold read_string. rewrite Hm, Hat. cbn [negb mbind outcome_bind].
  destruct (high_bits (code c)) as [-> _]; [lia|].
  rewrite (proj2 (Z.eqb_neq _ _)).
  2: { assert (code c / 64 < 2) by (apply Z.div_lt_upper_bound; lia). lia. }
  rewrite Hl. cbn [mbind outcome_bind].
  replace (Z.to_nat (zlen s)) with (length s) by (unfold zlen; lia).
  rewrite (read_bytes_from _ _ _ _ Hskip), length_app. by rewrite Nat.add_assoc.
Qed.

Lemma le_byte k : forall v i, (i < k)%nat ->
  0 <= v -> le_bytes k v !! i = Some (chr ((v / 256 ^ Z.of_nat i) mod 256)).
Proof.
  induction k as [|k IH]; intros v i Hi Hv; [lia|]. destruct i as [|i]; simpl.
  - change (256 ^ Z.of_nat 0) with 1. by rewrite Z.div_1_r.
  - rewrite IH by (lia || by apply Z.div_pos). rewrite Z.div_div by lia.
    do 4 f_equal. rewrite Nat2Z.inj_succ, Z.pow_succ_r by lia. done.
Qed.

Lemma length_le_bytes k : forall v, length (le_bytes k v) = k.
Proof. induction k as [|k IH]; intros v; simpl; [done|by rewrite IH]. Qed.

Lemma le64_loop_from data pos v rest :
  0 <= v <= UINT64_MAX -> from data pos (le_bytes 8 v ++ rest) -> forall n, (n <= 8)%nat ->
  le64_loop data pos n (v / 256 ^ Z.of_nat n) = Ret v.
Proof.
  intros Hv (pre & -> & <-). induction n as [|i IH]; intros Hn; cbn [le64_loop].
  { change (256 ^ Z.of_nat 0) with 1. by rewrite Z.div_1_r. }
  assert (Hb : byte_at (pre ++ le_bytes 8 v ++ rest) (length pre + i) = Ret ((v / 256 ^ Z.of_nat i) mod 256)).
  { unfold byte_at, vec_at. rewrite lookup_app_r by lia. rewrite Nat.add_comm, Nat.add_sub.
    rewrite lookup_app_l by (rewrite length_le_bytes; lia). rewrite le_byte by lia. simpl.
    rewrite code_chr; [done|]. apply Z.mod_pos_bound. lia. }
  rewrite Hb. cbn [mbind outcome_bind].
  assert (Hp : 0 < 256 ^ Z.of_nat i) by (apply Z.pow_pos_nonneg; lia).
  assert (Hd : v / 256 ^ Z.of_nat (S i) = v / 256 ^ Z.of_nat i / 256).
  { rewrite Z.div_div by lia. by rewrite Nat2Z.inj_succ, Z.pow_succ_r, (Z.mul_comm 256) by lia. }
  set (w := v / 256 ^ Z.of_nat i) in *.
  assert (Hw : 0 <= w <= v) by (split; [apply Z.div_pos; lia|apply Z.div_le_upper_bound; nia]).
  pose proof (Z.div_mod w 256 ltac:(lia)). pose proof (Z.mod_pos_bound w 256 ltac:(lia)).
  rewrite Hd, u64_small; [|rewrite Z.shiftl_mul_pow2 by lia; change (2 ^ 8) with 256; lia].
  rewrite lor_shift by (done || lia). change (2 ^ 8) with 256.
  replace (w / 256 * 256 + w mod 256) with w by lia. apply IH. lia.
Qed.

Lemma read_le64_from data pos v rest :
  0 <= v <= UINT64_MAX -> from data pos (le_bytes 8 v ++ rest) ->
  read_le64 data pos = Ret (v, (pos + length (le_bytes 8 v))%nat).
Proof.
  intros Hv H. unfold read_le64. pose proof (le64_loop_from data pos v rest Hv H 8 ltac:(lia)) as Hl.
  change (256 ^ Z.of_nat 8) with (UINT64_MAX + 1) in Hl. rewrite Z.div_small in Hl by lia.
  rewrite Hl. by rewrite length_le_bytes.
Qed.

Definition short (s : bytes) : Prop := zlen s < 16384.
Definition entry_ok (x : bytes * (bytes * option Z)) : Prop :=
  short x.1 /\ short x.2.1 /\ forall ms, x.2.2 = Some ms -> 0 <= ms <= UINT64_MAX.

Definition rdb_of (x : bytes * (bytes * option Z)) : bytes * RdbEntry := (x.1, mkRdbEntry (VString x.2.1) x.2.2).

(** What the keys of a database are read into: of two entries with one key the first. *)
Definition rdb_map (entries : list (bytes * (bytes * option Z))) : gmap bytes RdbEntry :=
  list_to_map (rdb_of <$> entries).

Lemma emplace_union {A} (k : bytes) (v : A) (m l : gmap bytes A) : map_emplace k v m ∪ l = m ∪ <[k := v]> l.
Proof.
  apply map_eq. intros j. unfold map_emplace. destruct (m !! k) as [w|] eqn:E.
  - destruct (decide (j = k)) as [->|Hne].
    + by rewrite !(lookup_union_Some_l _ _ _ _ E).
    + rewrite !lookup_union, lookup_insert_ne by done. done.
  - rewrite !lookup_union. destruct (decide (j = k)) as [->|Hne].
    + rewrite !lookup_insert_eq, E. by destruct (l !! k).
    + by rewrite !lookup_insert_ne.
Qed.

Lemma mjoin_fmap_cons {A} (f : A -> bytes) x l : mjoin (f <$> x :: l) = f x ++ mjoin (f <$> l).
Proof. done. Qed.

Lemma rdb_entry_app x rest :
  rdb_entry x ++ rest = rdb_expiry x.2.2 ++ [chr 0] ++ rdb_string x.1 ++ rdb_string x.2.1 ++ rest.
Proof. unfold rdb_entry. rewrite <- app_assoc. simpl. by rewrite <- app_assoc. Qed.

Lemma read_expiry_from data pos x rest :
  entry_ok x -> from data pos (rdb_entry x ++ rest) ->
  exists peek, byte_at data pos = Ret peek /\ peek <> 0xFF /\ peek <> 0xFE /\ peek <> 0xFA
    /\ has_more data pos = true
    /\ read_expiry data pos peek = Ret (x.2.2, (pos + length (rdb_expiry x.2.2))%nat).
Proof.
  intros (_ & _ & He) H. unfold rdb_entry in H. rewrite <- app_assoc in H.
  destruct (x.2.2) as [ms|]; unfold rdb_expiry in *.
  - apply (from_byte data pos (chr 0xFC) (le_bytes 8 ms ++ _)) in H as (Hat & Hr & Hm & H). rewrite code_chr in Hat, Hr by lia.
    exists 0xFC. split_and!; [done..|]. unfold read_expiry. simpl. rewrite Hr. cbn [snd].
    rewrite (read_le64_from _ _ _ _ (He ms eq_refl) H). cbn [mbind outcome_bind length]. rewrite Nat.add_succ_r. done.
  - apply from_byte in H as (Hat & _ & Hm & _). rewrite code_chr in Hat by lia.
    exists 0. split_and!; [done..|]. by rewrite Nat.add_0_r.
Qed.

Lemma entry_loop_from data stop rest : code stop = 0xFF ->
  forall entries fuel pos result, Forall entry_ok entries -> (length entries < fuel)%nat ->
  from data pos (mjoin (rdb_entry <$> entries) ++ stop :: rest) ->
  entry_loop fuel data pos result
  = Ret (result ∪ rdb_map entries, (pos + length (mjoin (rdb_entry <$> entries)))%nat).
Proof.
  intros Hstop. induction entries as [|x entries IH]; intros fuel pos result Hok Hf H;
    (destruct fuel as [|fuel]; [simpl in Hf; lia|]); cbn [entry_loop].
  - simpl in H. apply from_byte in H as (Hat & _ & Hm & _). rewrite Hm, Hat, Hstop. simpl.
    unfold rdb_map. simpl. by rewrite map_union_empty, Nat.add_0_r.
  - apply Forall_cons in Hok as [Hx Hok]. rewrite mjoin_fmap_cons, <- app_assoc in H.
    destruct (read_expiry_from _ _ _ _ Hx H) as (peek & Hat & H1 & H2 & H3 & Hm & Hexp).
    rewrite Hm, Hat. cbn [negb mbind outcome_bind]. rewrite !(proj2 (Z.eqb_neq _ _)) by done. cbn [orb].
    rewrite Hexp. cbn [mbind outcome_bind]. destruct Hx as (Hk & Hv & _).
    rewrite rdb_entry_app in H. apply from_skip in H.
    apply (from_byte data _ (chr 0) (rdb_string _ ++ _)) in H as (_ & Hr & _ & H). rewrite Hr. cbn [snd].
    rewrite (read_string_from _ _ _ _ Hk H). cbn [mbind outcome_bind].
    apply from_skip in H. rewrite (read_string_from _ _ _ _ Hv H). cbn [mbind outcome_bind].
    apply from_skip in H. rewrite (IH _ _ _ Hok) by (done || (simpl in Hf; lia)).
    rewrite emplace_union. do 2 f_equal. rewrite mjoin_fmap_cons. unfold rdb_entry.
    rewrite !length_app. simpl. rewrite !length_app. lia.
Qed.

Definition aux_ok (x : bytes * bytes) : Prop := short x.1 /\ short x.2.

Lemma rdb_aux_app x rest : rdb_aux x ++ rest = [chr 0xFA] ++ rdb_string x.1 ++ rdb_string x.2 ++ rest.
Proof. unfold rdb_aux. simpl. by rewrite <- app_assoc. Qed.

Lemma rdb_loop_aux data rest result : forall aux fuel pos, Forall aux_ok aux ->
  from data pos (mjoin (rdb_aux <$> aux) ++ rest) ->
  rdb_loop (length aux + fuel) data pos result
  = rdb_loop fuel data (pos + length (mjoin (rdb_aux <$> aux))) result.
Proof.
  induction aux as [|x aux IH]; intros fuel pos Hok H; [by simpl; rewrite Nat.add_0_r|].
  apply Forall_cons in Hok as [[H1 H2] Hok]. rewrite mjoin_fmap_cons in *. rewrite <- app_assoc, rdb_aux_app in H.
  apply (from_byte data pos (chr 0xFA) (rdb_string _ ++ _)) in H as (_ & Hr & Hm & H).
  cbn [length Nat.add rdb_loop]. rewrite Hm, Hr, code_chr by lia. cbn [negb Z.eqb Pos.eqb].
  rewrite (read_string_from _ _ _ _ H1 H). cbn [mbind outcome_bind]. apply from_skip in H.
  rewrite (read_string_from _ _ _ _ H2 H). cbn [mbind outcome_bind]. apply from_skip in H.
  rewrite (IH _ _ Hok H). f_equal. unfold rdb_aux. rewrite length_app. simpl. rewrite length_app. lia.
Qed.

Lemma mjoin_length {A} (f : A -> bytes) l : (forall x, f x <> []) -> (length l <= length (mjoin (f <$> l)))%nat.
Proof.
  intros Hf. induction l as [|x l IH]; [simpl; lia|]. rewrite mjoin_fmap_cons, length_app. simpl.
  specialize (Hf x). destruct (f x); [done|]. simpl. lia.
Qed.

Lemma rdb_length_ne n : rdb_length n <> [].
Proof. unfold rdb_length. by destruct (n <? 64). Qed.

(** One database between the auxiliary fields and the end of the file. *)
Lemma rdb_loop_database data pos n m entries rest result fuel :
  0 <= n < 16384 -> 0 <= m < 16384 -> Forall entry_ok entries ->
  from data pos ([chr 0xFE; chr 0; chr 0xFB] ++ rdb_length n ++ rdb_length m
                 ++ mjoin (rdb_entry <$> entries) ++ chr 0xFF :: rest) ->
  rdb_loop (S (S fuel)) data pos result = Ret (result ∪ rdb_map entries).
Proof.
  intros Hn Hm Hok H.
  assert (Hlen : (length entries < length data)%nat).
  { destruct H as (pre & -> & _). rewrite !length_app. simpl. rewrite ?length_app. simpl.
    pose proof (mjoin_length rdb_entry entries) as Hj. assert (forall x, rdb_entry x <> []) as Hx.
    { intros x. unfold rdb_entry. by destruct (rdb_expiry _). }
    specialize (Hj Hx). lia. }
  apply (from_byte data pos (chr 0xFE) (chr 0 :: chr 0xFB :: rdb_length n ++ _)) in H as (_ & Hr & Hmo & H).
  cbn [rdb_loop]. rewrite Hmo, Hr, code_chr by lia. cbn [negb Z.eqb Pos.eqb].
  pose proof (read_length_from data (S pos) 0 (chr 0xFB :: rdb_length n ++ rdb_length m
    ++ mjoin (rdb_entry <$> entries) ++ chr 0xFF :: rest) ltac:(lia) H) as Hl.
  apply (from_byte data _ (chr 0)) in H as (_ & _ & _ & H).
  apply (from_byte data _ (chr 0xFB)) in H as (Hat & Hr2 & Hmo2 & H).
  rewrite Hl. cbn [mbind outcome_bind]. change (length (rdb_length 0)) with 1%nat. rewrite Nat.add_1_r.
  unfold read_sizes. rewrite Hmo2, Hat, Hr2, code_chr by lia. cbn [mbind outcome_bind Z.eqb Pos.eqb snd].
  rewrite (read_length_from _ _ _ _ Hn H). cbn [mbind outcome_bind]. apply from_skip in H.
  rewrite (read_length_from _ _ _ _ Hm H). cbn [mbind outcome_bind]. apply from_skip in H.
  rewrite (entry_loop_from data (chr 0xFF) rest eq_refl entries _ _ _ Hok Hlen H). cbn [mbind outcome_bind].
  apply from_skip in H. apply from_byte in H as (_ & Hr3 & Hmo3 & _).
  rewrite Hmo3, Hr3. reflexivity.
Qed.

Lemma parse_rdb_snapshot version aux expiring entries checksum :
  length version = 4%nat -> Forall aux_ok aux -> Forall entry_ok entries ->
  zlen entries < 16384 -> 0 <= expiring < 16384 ->
  parse_rdb (snapshot version aux expiring entries checksum) = Ret (rdb_map entries).
Proof.
  intros Hv Haux Hok Hn Hm. pose proof (zlen_nonneg entries). unfold parse_rdb, snapshot.
  set (rest := chr 0xFE :: _). set (data := bs "REDIS" ++ _).
  assert (Hlen : length data = (9 + length (mjoin (rdb_aux <$> aux)) + length rest)%nat).
  { unfold data. rewrite !length_app, Hv. simpl. lia. }
  rewrite Hlen. cbn [Nat.ltb Nat.leb Nat.add orb].
  change (take 5 data) with (bs "REDIS"). rewrite bool_decide_eq_true_2 by done. cbn [negb].
  assert (Hfrom : from data 9 (mjoin (rdb_aux <$> aux) ++ rest)).
  { exists (bs "REDIS" ++ version). unfold data. rewrite <- app_assoc. split; [done|]. rewrite length_app, Hv. done. }
  assert (Hj : (length aux <= length (mjoin (rdb_aux <$> aux)))%nat) by (by apply mjoin_length).
  assert (Hr : (3 <= length rest)%nat) by (unfold rest; simpl; lia).
  replace (S (S (S (S (S (S (S (S (S (length (mjoin (rdb_aux <$> aux)) + length rest)))))))))) with
    (length aux + S (S (7 + length (mjoin (rdb_aux <$> aux)) - length aux + length rest)))%nat by lia.
  rewrite (rdb_loop_aux _ _ _ _ _ _ Haux Hfrom). apply from_skip in Hfrom.
  rewrite (rdb_loop_database data _ (zlen entries) expiring entries checksum) by (done || lia).
  by rewrite map_empty_union.
Qed.

(** ** Loading *)

(** What the store holds of an entry, when it is still to be kept. *)
Definition loaded (now now_ms : Z) (x : bytes * option Z) : option Entry :=
  match x.2 with
  | None => Some (mkEntry (VString x.1) None)
  | Some ms => if ms <=? now_ms then None
               else Some (mkEntry (VString x.1) (Some (now + (ms - now_ms) * 1000000)))
  end.

(** The clocks are not before their epochs and the expiry times fit. *)
Definition expiry_fits (now now_ms : Z) (x : bytes * option Z) : Prop :=
  forall ms, x.2 = Some ms -> 0 <= ms /\ now + ms * 1000000 <= INT64_MAX.

Definition rdb_pair (x : RdbEntry) : bytes * option Z :=
  (default [] (alt_get_if (rdb_value x)), expire_ms x).
Definition is_text (x : RdbEntry) : Prop := exists v, rdb_value x = VString v.

Lemma set_lookup now key v ttl st t :
  expiry_opt now ttl = Ret t ->
  exists st', set now key v ttl st = Ret st' /\ data_ st' = <[key := mkEntry (VString v) t]> (data_ st).
Proof. intros H. unfold set. rewrite H. by eexists. Qed.

Lemma load_entries_spec now now_ms : 0 <= now -> 0 <= now_ms <= INT64_MAX -> forall l st,
  NoDup l.*1 -> Forall (fun x => is_text x.2 /\ expiry_fits now now_ms (rdb_pair x.2)) l ->
  exists st', load_entries now now_ms l st = Ret st'
    /\ forall k, data_ st' !! k
       = match list_to_map (M := gmap bytes RdbEntry) l !! k ≫= fun x => loaded now now_ms (rdb_pair x) with
         | Some e => Some e
         | None => data_ st !! k
         end.
Proof.
  intros Hnow Hms. induction l as [|[key x] l IH]; intros st Hnd Hok; cbn [load_entries].
  { exists st. split; [done|]. intros k. simpl. by rewrite lookup_empty. }
  apply NoDup_cons in Hnd as [Hnew Hnd]. apply Forall_cons in Hok as [[[v Hv] Hfit] Hok].
  simpl in Hnew, Hv, Hfit.
  assert (Hnone : list_to_map (M := gmap bytes RdbEntry) l !! key = None) by (by apply not_elem_of_list_to_map_1).
  assert (Hgo : forall t st1, loaded now now_ms (rdb_pair x) = Some (mkEntry (VString v) t) ->
    data_ st1 = <[key := mkEntry (VString v) t]> (data_ st) ->
    exists st', load_entries now now_ms l st1 = Ret st' /\ forall k, data_ st' !! k
      = match list_to_map (M := gmap bytes RdbEntry) ((key, x) :: l) !! k ≫= fun x => loaded now now_ms (rdb_pair x) with
        | Some e => Some e | None => data_ st !! k end).
  { intros t st1 Hld Hst1. destruct (IH st1 Hnd Hok) as (st' & Hrun & Hst'). exists st'. split; [done|].
    intros k. rewrite Hst', Hst1. simpl. destruct (decide (k = key)) as [->|Hne].
    - by rewrite Hnone, !lookup_insert_eq; simpl; rewrite Hld.
    - by rewrite !lookup_insert_ne. }
  unfold rdb_pair in Hfit, Hgo. unfold loaded in Hgo. rewrite Hv in Hgo |- *. simpl in Hgo |- *.
  destruct (expire_ms x) as [ms|] eqn:Ems.
  - destruct (Hfit ms) as [H0 Hmax]; [done|].
    assert (INT64_MIN <= ms - now_ms <= INT64_MAX) by (unfold INT64_MIN, INT64_MAX in *; lia).
    rewrite s64_small by (unfold in_int64, INT64_MIN, INT64_MAX in *; lia).
    rewrite int64_of_ret by done. cbn [mbind outcome_bind].
    replace (ms - now_ms <=? 0) with (ms <=? now_ms) by (destruct (Z.leb_spec ms now_ms), (Z.leb_spec (ms - now_ms) 0); done || lia).
    destruct (ms <=? now_ms) eqn:Ele; b2p.
    + destruct (IH st Hnd Hok) as (st' & Hrun & Hst'). exists st'. split; [done|]. intros k. rewrite Hst'. simpl.
      destruct (decide (k = key)) as [->|Hne]; [|by rewrite lookup_insert_ne].
      rewrite Hnone, lookup_insert_eq. simpl. unfold loaded, rdb_pair. simpl. rewrite Ems.
      by rewrite (proj2 (Z.leb_le _ _) Ele).
    + edestruct (set_lookup now key v (Some (ms - now_ms)) st (Some (now + (ms - now_ms) * 1000000))) as (st1 & -> & Hst1).
      { unfold expiry_opt, expiry_after. rewrite s64_small by (unfold in_int64, INT64_MIN, INT64_MAX in *; lia).
        rewrite int64_of_ret by (unfold in_int64, INT64_MIN, INT64_MAX in *; lia). simpl.
        by rewrite int64_of_ret by (unfold in_int64, INT64_MIN, INT64_MAX in *; lia). }
      simpl. eapply Hgo; [done|exact Hst1].
  - by eapply (Hgo None).
Qed.

Lemma rdb_map_lookup entries k x :
  rdb_map entries !! k = Some x -> exists y, y ∈ entries /\ y.1 = k /\ x = (rdb_of y).2.
Proof.
  intros H. apply elem_of_list_to_map_2, list_elem_of_fmap in H as (y & Hy & Hin).
  exists y. unfold rdb_of in *. by simplify_eq.
Qed.

Lemma get_entry t key st :
  (get t key st).2 = match data_ st !! key with
                     | Some e => if is_expired t e then None else alt_get_if (value e)
                     | None => None
                     end.
Proof. unfold get, find_valid_entry. destruct (data_ st !! key) as [e|]; [|done]. by destruct (is_expired t e). Qed.

(** A length in the 32-bit form is not what was written: the number is read one byte
    too late. *)
Lemma long_length_misread data pos b0 rest :
  from data pos (chr 0x80 :: b0 :: rest) -> read_length data pos = read_be32 data (pos + 2).
Proof.
  intros H. apply from_byte in H as (_ & Hr & _ & H). apply from_byte in H as (_ & Hr0 & _).
  unfold read_length. rewrite Hr. change (code (chr 0x80)) with 128. simpl. rewrite Hr0. f_equal. lia.
Qed.

(** * Properties *)

(** C19: a snapshot file of string keys is read back.  For any auxiliary fields and any
    entries, with and without expiry times, whose strings are shorter than 16384 bytes
    (the length forms the parser reads right), the parser returns exactly the entries,
    the first of those with equal keys; and after loading the file at start-up GET
    answers each key with its value until its expiry time, keys that expired before the
    start and keys that are not in the file are absent. *)
Theorem snapshot_is_loaded (now now_ms : Z) (dir name version checksum : bytes) (aux : list (bytes * bytes))
    (expiring : Z) (entries : list (bytes * (bytes * option Z))) (f : fs) :
  0 <= now -> 0 <= now_ms <= INT64_MAX -> dir <> [] -> name <> [] ->
  f !! path_join dir name = Some (snapshot version aux expiring entries checksum) ->
  length version = 4%nat -> Forall aux_ok aux -> Forall entry_ok entries ->
  Forall (fun x => expiry_fits now now_ms x.2) entries ->
  zlen entries < 16384 -> 0 <= expiring < 16384 ->
  parse_rdb (snapshot version aux expiring entries checksum) = Ret (rdb_map entries)
  /\ exists st, load_into_store now now_ms dir name f empty_store = Ret st
     /\ forall k t, now <= t -> (get t k st).2
        = match rdb_map entries !! k with
          | Some (mkRdbEntry (VString v) None) => Some v
          | Some (mkRdbEntry (VString v) (Some ms)) =>
              if t <? now + (ms - now_ms) * 1000000 then Some v else None
          | _ => None
          end.
Proof.
  intros Hnow Hms Hd Hname Hf Hv Haux Hok Hfit Hn Hm.
  pose proof (parse_rdb_snapshot version aux expiring entries checksum Hv Haux Hok Hn Hm) as Hp.
  split; [exact Hp|]. unfold load_into_store, load_rdb_file. rewrite !bool_decide_eq_false_2 by done.
  rewrite Hf, Hp. cbn [orb mbind outcome_bind].
  destruct (load_entries_spec now now_ms Hnow Hms (map_to_list (rdb_map entries)) empty_store)
    as (st & Hrun & Hst).
  - apply NoDup_fst_map_to_list.
  - apply Forall_forall. intros [k x] Hin%elem_of_map_to_list. simpl.
    apply rdb_map_lookup in Hin as (y & Hy & <- & ->). rewrite Forall_forall in Hfit.
    split; [by eexists|]. unfold rdb_pair, rdb_of. simpl. specialize (Hfit y Hy).
    unfold expiry_fits in *. exact Hfit.
  - exists st. split; [done|]. intros k t Ht. rewrite get_entry, Hst, list_to_map_to_list.
    destruct (rdb_map entries !! k) as [x|] eqn:Ex; [|done].
    apply rdb_map_lookup in Ex as (y & _ & _ & ->). unfold rdb_of, rdb_pair, loaded. simpl.
    destruct y.2.2 as [ms|]; simpl; [|done]. destruct (ms <=? now_ms) eqn:Ele; b2p.
    + rewrite (proj2 (Z.ltb_ge _ _)) by lia. done.
    + unfold is_expired. simpl. destruct (Z.ltb_spec t (now + (ms - now_ms) * 1000000)).
      * by rewrite (proj2 (Z.leb_gt _ _)) by lia.
      * by rewrite (proj2 (Z.leb_le _ _)) by lia.
Qed.

Definition rdb_example : list (bytes * (bytes * option Z)) :=
  [(bs "k", (bs "v", None)); (bs "t", (bs "x", Some 1500)); (bs "old", (bs "y", Some 900))].

Lemma snapshot_is_loaded_witness :
  let f := {[ bs "/d/dump.rdb" := snapshot (bs "0011") [(bs "redis-ver", bs "7.2.0")] 2 rdb_example [] ]} in
  exists st, load_into_store 10 1000 (bs "/d") (bs "dump.rdb") f empty_store = Ret st
    /\ (get 20 (bs "k") st).2 = Some (bs "v") /\ (get 20 (bs "t") st).2 = Some (bs "x")
    /\ (get 600000000 (bs "t") st).2 = None /\ (get 20 (bs "old") st).2 = None.
Proof.
  intros f.
  destruct (snapshot_is_loaded 10 1000 (bs "/d") (bs "dump.rdb") (bs "0011") [] [(bs "redis-ver", bs "7.2.0")] 2
    rdb_example f) as (_ & st & Hrun & Hget).
  - lia.
  - unfold INT64_MAX. lia.
  - discriminate.
  - discriminate.
  - change (path_join (bs "/d") (bs "dump.rdb")) with (bs "/d/dump.rdb"). apply lookup_singleton_eq.
  - reflexivity.
  - apply Forall_cons_2; [|apply Forall_nil_2]. by split.
  - repeat apply Forall_cons_2; [..|apply Forall_nil_2];
      (split; [reflexivity|]; split; [reflexivity|]; intros ms [=]; subst ms; unfold UINT64_MAX; lia).
  - repeat apply Forall_cons_2; [..|apply Forall_nil_2]; intros ms [=]; subst ms; unfold INT64_MAX; lia.
  - reflexivity.
  - lia.
  - exists st. split; [exact Hrun|]. rewrite !Hget by lia. split_and!; vm_compute; reflexivity.
Defined.
