(* ===== verification/StringCommands.v ===== *)
(** * SET, GET, INCR and MSET (handler/string_commands.cpp) *)

From S2P Require Import Prelude Text StreamIds RespCodec Scores SortedSets Store Context.

(** The loop over the options of SET: the expiry in milliseconds, or the error. *)
Fixpoint set_options (opts : list bytes) (ttl_ms : option Z) : bytes + option Z :=
  match opts with
  | [] => inr ttl_ms
  | o :: rest =>
      let option := to_upper o in
      if bool_decide (option = bs "EX") || bool_decide (option = bs "PX") then
        match rest with
        | [] => inl (bs "ERR syntax error")
        | v :: rest' =>
            match parse_uint64 v with
            | None => inl not_an_integer
            | Some parsed =>
                set_options rest' (Some (if bool_decide (option = bs "EX") then u64 (parsed * 1000) else parsed))
            end
        end
      else set_options rest ttl_ms
  end.

Definition handle_set (args : list bytes) : M unit :=
  key ← arg args 1;
  value ← arg args 2;
  match set_options (drop 3 args) None with
  | inl err => emit_error err
  | inr ttl_ms =>
      ok ← on_store_o (fun e => set_if_valid_type (steady_now e) key value ttl_ms);
      if (ok : bool) then emit kRespOk else emit_error wrongtype
  end.

Definition handle_get (key : bytes) : M unit :=
  value ← on_store (fun now => get now key);
  match value with
  | Some v => emit_bulk v
  | None => emit_null_bulk
  end.

Definition handle_incr (key : bytes) : M unit :=
  result ← on_store (fun now => incr_if_valid_type now key);
  match result with
  | Some n => emit_integer n
  | None => emit_error not_an_integer
  end.

(** The first loop of MSET: every key must be absent or hold a string. *)
Fixpoint mset_check (now : Z) (pairs : list bytes) (st : Store) : bool :=
  match pairs with
  | k :: _ :: rest => key_is_absent_or_holds bytes now k st && mset_check now rest st
  | _ => true
  end.

Fixpoint mset_loop (now : Z) (pairs : list bytes) (st : Store) : outcome Store :=
  match pairs with
  | k :: v :: rest => st ← set now k v None st; mset_loop now rest st
  | _ => Ret st
  end.

Definition handle_mset (args : list bytes) : M unit :=
  if Nat.odd (length args - 1) then emit_error (bs "ERR wrong number of arguments for MSET")
  else
    e ← ask;
    c ← get_ctx;
    if mset_check (steady_now e) (drop 1 args) (ctx_store c)
    then
      _ ← on_store_o (fun e st => st ← mset_loop (steady_now e) (drop 1 args) st; Ret (st, ()));
      emit kRespOk
    else emit_error wrongtype.
