(* ===== verification/ListCommands.v ===== *)
(** * List commands (handler/list_commands.cpp) *)

From S2P Require Import Prelude Text StreamIds RespCodec Scores SortedSets Store BlockingManager.
From S2P Require Import Doubles Context.

(** RPUSH and LPUSH differ in the two store operations they call. *)
Record push_ops := mkPushOps {
  first_push : Z -> bytes -> bytes -> Store -> Store * option Z;
  next_push : Z -> bytes -> bytes -> Store -> Store * Z
}.
Definition rpush_ops : push_ops := mkPushOps rpush_if_valid_type rpush.
Definition lpush_ops : push_ops := mkPushOps lpush_if_valid_type lpush.

Fixpoint push_loop (ops : push_ops) (key : bytes) (vs : list bytes) (count : Z) : M Z :=
  match vs with
  | [] => mret count
  | v :: vs => count ← on_store (fun now => next_push ops now key v); push_loop ops key vs count
  end.

Definition handle_push (ops : push_ops) (args : list bytes) : M unit :=
  key ← arg args 1;
  v ← arg args 2;
  opt ← on_store (fun now => first_push ops now key v);
  match opt with
  | None => emit_error wrongtype
  | Some count => count ← push_loop ops key (drop 3 args) count; emit_integer count
  end.
Definition handle_rpush : list bytes -> M unit := handle_push rpush_ops.
Definition handle_lpush : list bytes -> M unit := handle_push lpush_ops.

Definition emit_popped (element : option bytes) : M unit :=
  match element with
  | Some v => emit_bulk v
  | None => emit_null_bulk
  end.

Definition handle_pop (pop1 : Z -> bytes -> Store -> Store * option bytes)
    (popn : Z -> bytes -> Z -> Store -> Store * list bytes) (args : list bytes) : M unit :=
  key ← arg args 1;
  if (length args =? 2)%nat then element ← on_store (fun now => pop1 now key); emit_popped element
  else
    a2 ← arg args 2;
    match parse_int64 a2 with
    | None => emit_error not_an_integer
    | Some count_val =>
        if count_val <=? 0 then emit (bs "*0" ++ CRLF)
        else elements ← on_store (fun now => popn now key count_val); emit_array elements
    end.
Definition handle_lpop : list bytes -> M unit := handle_pop lpop lpop_n.
Definition handle_rpop : list bytes -> M unit := handle_pop rpop rpop_n.

Definition handle_lrange (args : list bytes) : M unit :=
  key ← arg args 1;
  a2 ← arg args 2;
  a3 ← arg args 3;
  match parse_int64 a2, parse_int64 a3 with
  | Some start, Some stop => elements ← on_store (fun now => lrange now key start stop); emit_array elements
  | _, _ => emit_error not_an_integer
  end.

Definition handle_blpop (fd : Z) (args : list bytes) : M result_state :=
  key ← arg args 1;
  a2 ← arg args 2;
  match parse_double a2 with
  | None => _ ← emit_error not_an_integer; normal
  | Some timeout_sec =>
      if dltb timeout_sec (S754_zero false) then _ ← emit_error (bs "ERR timeout is negative"); normal
      else
        elements ← on_store (fun now => lpop_n now key 1);
        match elements with
        | x :: _ => _ ← emit_array [key; x]; normal
        | [] =>
            c ← get_ctx;
            match blocking_manager c with
            | Some bm =>
                e ← ask;
                timeout_ms ← lift (cast_int64 (dmul timeout_sec (double_of_Z 1000)));
                bm ← lift (block_client (steady_now e) fd key timeout_ms bm);
                _ ← modify (with_blocking (Some bm));
                mret Block
            | None => _ ← emit_error (bs "ERR blocking not available"); normal
            end
        end
  end.

(** The closure [try_wake]: the client that waits longest gets the first element. *)
Definition try_wake (has_send : bool) (key : bytes) : M bool :=
  c ← get_ctx;
  match blocking_manager c with
  | None => mret false
  | Some bm =>
      let (bm, blocked) := wake_client key bm in
      _ ← modify (with_blocking (Some bm));
      match blocked with
      | None => mret false
      | Some client =>
          elements ← on_store (fun now => lpop_n now key 1);
          match elements with
          | x :: _ => _ ← send_client has_send (bc_fd client) (encode_array [key; x]); mret true
          | [] => mret true
          end
      end
  end.

(** After the first element: an element is pushed only when nobody was woken. *)
Fixpoint push_wake_loop (ops : push_ops) (has_send : bool) (key : bytes) (vs : list bytes) (count : Z) : M Z :=
  match vs with
  | [] => mret count
  | v :: vs =>
      woken ← try_wake has_send key;
      if (woken : bool) then push_wake_loop ops has_send key vs count
      else
        count ← on_store (fun now => next_push ops now key v);
        push_wake_loop ops has_send key vs count
  end.

Definition handle_push_with_blocking (ops : push_ops) (has_send : bool) (args : list bytes) : M result_state :=
  key ← arg args 1;
  v ← arg args 2;
  opt ← on_store (fun now => first_push ops now key v);
  match opt with
  | None => _ ← emit_error wrongtype; normal
  | Some count =>
      _ ← try_wake has_send key;
      count ← push_wake_loop ops has_send key (drop 3 args) count;
      _ ← emit_integer count;
      normal
  end.
Definition handle_rpush_with_blocking : bool -> list bytes -> M result_state := handle_push_with_blocking rpush_ops.
Definition handle_lpush_with_blocking : bool -> list bytes -> M result_state := handle_push_with_blocking lpush_ops.
