(* ===== verification/StreamCommands.v ===== *)
(** * Stream commands (handler/stream_commands.cpp) *)

From S2P Require Import Prelude Text StreamIds RespCodec Scores SortedSets Store BlockingManager.
From S2P Require Import Context.

Definition xadd_args : bytes := bs "ERR wrong number of arguments for 'xadd' command".
Definition xread_args : bytes := bs "ERR wrong number of arguments for 'xread' command".
Definition syntax_error : bytes := bs "ERR syntax error".

Fixpoint pairs_of (l : list bytes) : list (bytes * bytes) :=
  match l with
  | f :: v :: rest => (f, v) :: pairs_of rest
  | _ => []
  end.

(** [args.size() - 3] is unsigned: with fewer than three arguments [args[2]] is read first. *)
Definition handle_xadd (args : list bytes) : M unit :=
  key ← arg args 1;
  id ← arg args 2;
  if Nat.odd (length args - 3) then emit_error xadd_args
  else
    result ← on_store_o (fun e => xadd_if_valid_type (steady_now e) (sys_ms e) key id (pairs_of (drop 3 args)));
    match result with
    | None => emit_error wrongtype
    | Some r => if starts_with (bs "ERR") r then emit_error r else emit_bulk r
    end.

Definition handle_xrange (args : list bytes) : M unit :=
  key ← arg args 1;
  start ← arg args 2;
  end_ ← arg args 3;
  entries ← on_store (fun now => xrange now key start end_);
  emit_into (fun o => encode_entries_into o entries).

(** The first index from [i] on whose argument is the word STREAMS. *)
Fixpoint find_streams (i : nat) (args : list bytes) : option nat :=
  match args with
  | [] => None
  | a :: rest => if bool_decide (to_upper a = bs "STREAMS") then Some i else find_streams (S i) rest
  end.

(** One lookup per stream; with [dollar] the id "$" stands for the stream's last id. *)
Fixpoint read_streams (dollar : bool) (ks ids : list bytes) : M (list (bytes * list StreamEntry)) :=
  match ks, ids with
  | k :: ks, id_arg :: ids =>
      id ← (if dollar && bool_decide (id_arg = bs "$")
            then max_id ← on_store (fun now => get_stream_max_id now k); mret (default (bs "0-0") max_id)
            else mret id_arg);
      entries ← on_store (fun now => xread now k id);
      rest ← read_streams dollar ks ids;
      mret ((k, entries) :: rest)
  | _, _ => mret []
  end.

Definition handle_xread (args : list bytes) : M unit :=
  match find_streams 1 (drop 1 args) with
  | None => emit_error syntax_error
  | Some streams_idx =>
      let num_pairs := (length args - streams_idx - 1)%nat in
      if (num_pairs =? 0)%nat || Nat.odd num_pairs then emit_error xread_args
      else
        let num_streams := (num_pairs / 2)%nat in
        let rest := drop (streams_idx + 1) args in
        results ← read_streams false (take num_streams rest) (drop num_streams rest);
        emit_into (fun o => encode_stream_entries_into o results)
  end.

(** The option BLOCK: its timeout and the index the search goes on from. *)
Definition parse_block (args : list bytes) : bytes + (option Z * nat) :=
  match args with
  | _ :: b :: rest =>
      if bool_decide (to_upper b = bs "BLOCK") then
        match rest with
        | [] => inl syntax_error
        | t :: _ =>
            match parse_int64 t with
            | None => inl not_an_integer
            | Some timeout_ms => inr (Some timeout_ms, 3%nat)
            end
        end
      else inr (None, 1%nat)
  | _ => inr (None, 1%nat)
  end.

Definition handle_xread_with_blocking (fd : Z) (args : list bytes) : M result_state :=
  match parse_block args with
  | inl err => _ ← emit_error err; normal
  | inr (block, start_idx) =>
      match find_streams start_idx (drop start_idx args) with
      | None => _ ← emit_error syntax_error; normal
      | Some streams_idx =>
          let num_pairs := (length args - streams_idx - 1)%nat in
          if (num_pairs =? 0)%nat || Nat.odd num_pairs then _ ← emit_error xread_args; normal
          else
            let num_streams := (num_pairs / 2)%nat in
            if (if block then true else false) && negb (num_streams =? 1)%nat
            then _ ← emit_error (bs "ERR BLOCK only supports single stream"); normal
            else
              let rest := drop (streams_idx + 1) args in
              results ← read_streams true (take num_streams rest) (drop num_streams rest);
              let has_data := existsb (fun p : bytes * list StreamEntry => negb (bool_decide (length p.2 = 0%nat))) results in
              match block with
              | Some timeout_ms =>
                  if has_data then _ ← emit_into (fun o => encode_stream_entries_into o results); normal
                  else
                    c ← get_ctx;
                    match blocking_manager c with
                    | None => _ ← emit_error (bs "ERR blocking not available"); normal
                    | Some bm =>
                        key ← arg args (streams_idx + 1);
                        id_arg ← arg args (streams_idx + 1 + num_streams);
                        id ← (if bool_decide (id_arg = bs "$")
                              then max_id ← on_store (fun now => get_stream_max_id now key);
                                   mret (default (bs "0-0") max_id)
                              else mret id_arg);
                        let sid := default (mkStreamId 0 0) (sid_parse id) in
                        e ← ask;
                        bm ← lift (block_client_for_stream (steady_now e) fd key sid timeout_ms bm);
                        _ ← modify (with_blocking (Some bm));
                        mret Block
                    end
              | None => _ ← emit_into (fun o => encode_stream_entries_into o results); normal
              end
      end
  end.

(** The loop that wakes every reader the new entry is news for; each turn takes one
    client out of the queue, whose length is fuel enough. *)
Fixpoint wake_readers (fuel : nat) (has_send : bool) (key new_id : bytes) : M unit :=
  match fuel with
  | O => mret ()
  | S fuel =>
      c ← get_ctx;
      match blocking_manager c with
      | None => mret ()
      | Some bm =>
          let (bm, blocked) := wake_client_for_stream key new_id bm in
          _ ← modify (with_blocking (Some bm));
          match blocked with
          | None => mret ()
          | Some client =>
              entries ← on_store (fun now => xread now key (sid_to_string (last_id client)));
              _ ← send_client has_send (bc_fd client) (encode_stream_entries [(key, entries)]);
              wake_readers fuel has_send key new_id
          end
      end
  end.

Definition queue_length (key : bytes) (c : CommandContext) : nat :=
  match blocking_manager c with
  | Some bm => length (waiting key bm)
  | None => 0
  end.

Definition handle_xadd_with_blocking (has_send : bool) (args : list bytes) : M result_state :=
  key ← arg args 1;
  id ← arg args 2;
  if Nat.odd (length args - 3) then _ ← emit_error xadd_args; normal
  else
    result ← on_store_o (fun e => xadd_if_valid_type (steady_now e) (sys_ms e) key id (pairs_of (drop 3 args)));
    match result with
    | None => _ ← emit_error wrongtype; normal
    | Some new_id =>
        if starts_with (bs "ERR") new_id then _ ← emit_error new_id; normal
        else
          c ← get_ctx;
          _ ← wake_readers (S (queue_length key c)) has_send key new_id;
          _ ← emit_bulk new_id;
          normal
    end.
