(* ===== verification/ZsetCommands.v ===== *)
(** * Sorted-set commands (handler/zset_commands.cpp) *)

From S2P Require Import Prelude Text StreamIds RespCodec Scores SortedSets Store Doubles Context.

(** The loop of ZADD over further (score, member) pairs: the argument after a score is
    read without a check, and a bad score stops after the pairs before it were added. *)
Fixpoint zadd_loop (key : bytes) (rest : list bytes) (added : Z) : M (option Z) :=
  match rest with
  | [] => mret (Some added)
  | s :: rest =>
      match parse_double s with
      | None => mret None
      | Some score =>
          match rest with
          | [] => lift (Ub IndexOutOfRange)
          | m :: rest => n ← on_store (fun now => zadd now key score m); zadd_loop key rest (added + n)
          end
      end
  end.

Definition handle_zadd (args : list bytes) : M unit :=
  key ← arg args 1;
  a2 ← arg args 2;
  match parse_double a2 with
  | None => emit_error not_a_float
  | Some score1 =>
      m ← arg args 3;
      opt ← on_store (fun now => zadd_if_valid_type now key score1 m);
      match opt with
      | None => emit_error wrongtype
      | Some added =>
          r ← zadd_loop key (drop 4 args) added;
          match r with
          | Some n => emit_integer n
          | None => emit_error not_a_float
          end
      end
  end.

Definition handle_zrank (args : list bytes) : M unit :=
  key ← arg args 1;
  member ← arg args 2;
  rank ← on_store (fun now => zrank now key member);
  match rank with
  | Some r => emit_integer r
  | None => emit_null_bulk
  end.

Definition handle_zrange (args : list bytes) : M unit :=
  key ← arg args 1;
  a2 ← arg args 2;
  a3 ← arg args 3;
  match parse_int64 a2, parse_int64 a3 with
  | Some start, Some stop => elements ← on_store (fun now => zrange now key start stop); emit_array elements
  | _, _ => emit_error not_an_integer
  end.

Definition handle_zcard (key : bytes) : M unit :=
  n ← on_store (fun now => zcard now key); emit_integer n.

Definition handle_zscore (args : list bytes) : M unit :=
  key ← arg args 1;
  member ← arg args 2;
  score ← on_store (fun now => zscore now key member);
  match score with
  | None => emit_null_bulk
  | Some s => emit_bulk (format_g17 s)
  end.

Definition handle_zrem (args : list bytes) : M unit :=
  key ← arg args 1;
  member ← arg args 2;
  removed ← on_store (fun now => zrem now key member);
  emit_integer removed.
