(* ===== verification/GeoCommands.v ===== *)
(** * Geographic commands (handler/geo_commands.cpp) *)

From S2P Require Import Prelude Text StreamIds RespCodec Scores SortedSets Store Doubles Geo.
From S2P Require Import Context.

(** The formats "%.6f" and "%.4f": a fixed number of decimals, rounded to nearest even.
    [spec_float] has one NaN, without a sign. *)
Definition pad_left (n : nat) (ds : bytes) : bytes := replicate (n - length ds) "0"%char ++ ds.

Definition format_fixed (k : nat) (d : double) : bytes :=
  match d with
  | S754_nan => bs "nan"
  | S754_infinity s => sign_text s ++ bs "inf"
  | S754_zero s => sign_text s ++ bs "0." ++ replicate k "0"%char
  | S754_finite s m e =>
      let (num, den) := fraction m e in
      let ds := pad_left (k + 1) (dec_digits (round_half_even (num * 10 ^ Z.of_nat k) den)) in
      sign_text s ++ take (length ds - k) ds ++ bs "." ++ drop (length ds - k) ds
  end.

Definition is_finite (d : double) : bool :=
  match d with S754_zero _ | S754_finite _ _ _ => true | _ => false end.

Definition out_of_bounds (x lo hi : double) : bool := negb (is_finite x) || dltb x lo || dltb hi x.

(** [snprintf] into a buffer of [n] characters keeps the first [n - 1]. *)
Definition snprintf (n : nat) (text : bytes) : bytes := take (n - 1) text.

Definition handle_geoadd (args : list bytes) : M unit :=
  a1 ← arg args 1;
  e ← ask;
  c ← get_ctx;
  if negb (key_is_absent_or_holds SortedSet (steady_now e) a1 (ctx_store c)) then emit_error wrongtype
  else
    a2 ← arg args 2;
    a3 ← arg args 3;
    match parse_double a2, parse_double a3 with
    | Some lon, Some lat =>
        if out_of_bounds lon kLonMin kLonMax || out_of_bounds lat kLatMin kLatMax
        then emit_error (snprintf 128 (bs "ERR invalid longitude,latitude pair "
                           ++ format_fixed 6 lon ++ bs "," ++ format_fixed 6 lat))
        else
          cell ← lift (encode lat lon);
          m ← arg args 4;
          added ← on_store (fun now => zadd now a1 (double_of_Z cell) m);
          emit_integer added
    | _, _ => emit_error not_a_float
    end.

Fixpoint geopos_loop (key : bytes) (members : list bytes) : M unit :=
  match members with
  | [] => mret ()
  | m :: members =>
      score ← on_store (fun now => zscore now key m);
      _ ← match score with
          | Some s =>
              n ← lift (cast_uint64 s);
              let coords := decode n in
              _ ← emit (bs "*2" ++ CRLF);
              _ ← emit_bulk (format_g17 (c_lon coords));
              emit_bulk (format_g17 (c_lat coords))
          | None => emit (bs "*-1" ++ CRLF)
          end;
      geopos_loop key members
  end.

Definition handle_geopos (args : list bytes) : M unit :=
  key ← arg args 1;
  _ ← emit (bs "*" ++ to_string (zlen args - 2) ++ CRLF);
  geopos_loop key (drop 2 args).

Definition kUnitFactors : list (bytes * double) :=
  [(bs "M", lit "1.0"); (bs "KM", lit "1000.0"); (bs "MI", lit "1609.34"); (bs "FT", lit "0.3048")].

Section commands.
  Context (sin cos asin : double -> double).

Definition handle_geodist (args : list bytes) : M unit :=
  key ← arg args 1;
  a2 ← arg args 2;
  a3 ← arg args 3;
  score1 ← on_store (fun now => zscore now key a2);
  score2 ← on_store (fun now => zscore now key a3);
  match score1, score2 with
  | Some s1, Some s2 =>
      n1 ← lift (cast_uint64 s1);
      n2 ← lift (cast_uint64 s2);
      let c1 := decode n1 in
      let c2 := decode n2 in
      let dist := distance sin cos asin (c_lat c1) (c_lon c1) (c_lat c2) (c_lon c2) in
      emit_bulk (snprintf 32 (format_fixed 4 dist))
  | _, _ => emit_null_bulk
  end.

(** The members within the radius, in the order of the set. *)
Fixpoint match_radius (lat lon radius_m : double) (all : list (bytes * double)) : outcome (list bytes) :=
  match all with
  | [] => Ret []
  | (member, score) :: all =>
      n ← cast_uint64 score;
      let coords := decode n in
      let dist := distance sin cos asin lat lon (c_lat coords) (c_lon coords) in
      rest ← match_radius lat lon radius_m all;
      Ret (if SFleb dist radius_m then member :: rest else rest)
  end.

Definition handle_geosearch (args : list bytes) : M unit :=
  key ← arg args 1;
  a2 ← arg args 2;
  if negb (bool_decide (to_upper a2 = bs "FROMLONLAT")) then emit_error (bs "ERR syntax error")
  else
    a3 ← arg args 3;
    a4 ← arg args 4;
    match parse_double a3, parse_double a4 with
    | Some search_lon, Some search_lat =>
        a5 ← arg args 5;
        if negb (bool_decide (to_upper a5 = bs "BYRADIUS")) then emit_error (bs "ERR syntax error")
        else
          a6 ← arg args 6;
          match parse_double a6 with
          | None => emit_error not_a_float
          | Some radius =>
              a7 ← arg args 7;
              match list_find (fun p : bytes * double => p.1 = to_upper a7) kUnitFactors with
              | None => emit_error (bs "ERR unsupported unit provided")
              | Some (_, (_, factor)) =>
                  all ← on_store (fun now => zgetall now key);
                  matched ← lift (match_radius search_lat search_lon (dmul radius factor) all);
                  emit_array matched
              end
          end
    | _, _ => emit_error not_a_float
    end.
End commands.
