(* ===== verification/GeoSpec.v ===== *)
(** * What a geographic score keeps of a position

    Theorems on geo/geo_score.hpp with the bounds handler/geo_commands.cpp checks: every
    position that GEOADD accepts has a score, whose cells are those of the position and
    come out of it again.  The first part bounds the three rounded operations that
    compute a cell from above, on the rounding of DoublesSpec. *)

From S2P Require Import Prelude Text StreamIds RespCodec Scores SortedSets Store Doubles DoublesSpec Geo Context.
From S2P Require Import GeoCommands.

(** ** Rounding does not pass a double *)
Lemma round_even_le W U k q l :
  0 < U -> located W U q l -> W <= k * U -> 0 <= q -> 0 <= round_nearest_even q l <= k.
Proof.
  intros HU Hl Hk Hq. pose proof (located_bounds W U q l HU Hl) as [Hlo _].
  assert (q <= k) by nia. destruct l as [|c]; [simpl; lia|]. destruct Hl as [[Hlt _] _].
  assert (q < k) by nia. destruct c; cbn [round_nearest_even]; [destruct (Z.even q)|..]; lia.
Qed.

(** Rounding a fraction to 53 digits at the exponent [fexp] chooses. *)
Lemma mantissa_range W b q e l q2 l2 :
  0 < b -> 0 <= q -> -1074 <= e <= fexp (Zdigits2 q + e) -> located W (b * scale e) q l ->
  located W (b * scale (fexp (Zdigits2 q + e))) q2 l2 ->
  q2 < 2 ^ 53 /\ (fexp (Zdigits2 q + e) = -1074 \/ 2 ^ 52 <= q2).
Proof.
  intros Hb Hq He Hl H2. set (E := fexp _) in *. assert (HE : E = Z.max (Zdigits2 q + e - 53) (-1074)) by done.
  pose proof (scale_pos e ltac:(lia)) as Hs. pose proof (scale_pos E ltac:(lia)) as HsE.
  pose proof (located_bounds W (b * scale e) q l ltac:(nia) Hl) as [Hlo Hup].
  pose proof (located_bounds W (b * scale E) q2 l2 ltac:(nia) H2) as [Hlo2 Hup2].
  assert (Hd : q + 1 <= 2 ^ Zdigits2 q).
  { destruct q as [|p|p]; [done| |lia]. pose proof (digits2_upper p). cbn [Zdigits2]. lia. }
  assert (0 <= Zdigits2 q) by (by destruct q).
  assert (Hsc : 2 ^ Zdigits2 q * scale e <= 2 ^ 53 * scale E).
  { unfold scale. rewrite <- !Z.pow_add_r by lia. apply Z.pow_le_mono_r; lia. }
  split.
  - assert (q2 * (b * scale E) < 2 ^ 53 * (b * scale E)); [|nia].
    eapply Z.le_lt_trans; [exact Hlo2|]. eapply Z.lt_le_trans; [exact Hup|].
    transitivity (2 ^ Zdigits2 q * (b * scale e)); [nia|]. nia.
  - destruct (decide (E = -1074)) as [|Hne]; [by left|right].
    destruct q as [|p|p]; [cbn [Zdigits2] in *; lia| |lia]. cbn [Zdigits2] in *. pose proof (digits2_lower p) as Hd2.
    assert (2 ^ 52 * (b * scale E) < (q2 + 1) * (b * scale E)); [|nia].
    eapply Z.le_lt_trans; [|exact Hup2]. etransitivity; [|exact Hlo].
    assert (2 ^ 52 * scale E = 2 ^ (Zpos (digits2_pos p) - 1) * scale e) as Heq.
    { unfold scale. rewrite <- !Z.pow_add_r by lia. f_equal. lia. }
    transitivity (b * (2 ^ (Zpos (digits2_pos p) - 1) * scale e)); [nia|]. nia.
Qed.

(** A positive fraction that is at most a double is rounded to at most that double. *)
Lemma round_aux_le W b q e l m k :
  0 < b -> 0 <= q -> -1074 <= e <= fexp (Zdigits2 q + e) -> located W (b * scale e) q l ->
  0 < m < 2 ^ 53 -> -1074 <= k <= 971 -> W <= m * (b * scale k) ->
  binary_round_aux prec emax false q e l = S754_zero false
  \/ exists m' e', binary_round_aux prec emax false q e l = S754_finite false m' e'
       /\ fexp (Zdigits2 q + e) <= e' /\ Zpos m' * scale e' <= m * scale k.
Proof.
  intros Hb Hq He Hl Hm Hk HW.
  assert (Hdig : Zdigits2 q + e <= 53 + k).
  { apply (digits_from_above W b q e l k 53); try done; [lia..|].
    pose proof (scale_pos k ltac:(lia)). eapply Z.le_lt_trans; [exact HW|]. nia. }
  destruct (shr_fexp_located W b q e l Hb Hq He Hl) as (r & Hr & Hr0 & Hl1).
  destruct (mantissa_range W b q e l _ _ Hb Hq He Hl Hl1) as [Hr53 Hr52].
  unfold binary_round_aux. rewrite Hr. set (E := fexp (Zdigits2 q + e)) in *.
  assert (HE : E = Z.max (Zdigits2 q + e - 53) (-1074)) by done.
  pose proof (scale_pos E ltac:(lia)) as HsE. pose proof (scale_pos k ltac:(lia)) as Hsk.
  assert (Hk2 : m * scale k = m * 2 ^ (k - E) * scale E).
  { replace k with (E + (k - E)) at 1 by lia. rewrite scale_add by lia. ring. }
  assert (HW2 : W <= m * 2 ^ (k - E) * (b * scale E)).
  { etransitivity; [exact HW|]. replace (m * (b * scale k)) with (b * (m * scale k)) by ring. rewrite Hk2. apply Z.eq_le_incl. ring. }
  assert (HU : 0 < b * scale E) by nia.
  pose proof (round_even_le W (b * scale E) (m * 2 ^ (k - E)) _ _ HU Hl1 HW2 Hr0) as [Hn0 Hnk].
  set (n := round_nearest_even _ _) in *.
  assert (Hn52 : E = -1074 \/ 2 ^ 52 <= n).
  { destruct Hr52 as [|Hr52]; [by left|right]. unfold n. destruct (loc_of_shr_record r) as [|c]; [done|].
    cbn [round_nearest_even]. destruct c; [destruct (Z.even _)|..]; lia. }
  assert (HE2 : E <= fexp (Zdigits2 n + E)).
  { rewrite fexp_val. destruct Hn52 as [?|Hn52]; [lia|]. pose proof (digits_ge n 52 ltac:(lia) Hn52). lia. }
  assert (Hln : located (n * scale E) (1 * scale E) n loc_Exact) by (simpl; lia).
  destruct (shr_fexp_located (n * scale E) 1 n E loc_Exact ltac:(lia) Hn0 ltac:(lia) Hln) as (r2 & Hr2 & Hr20 & Hl2).
  rewrite Hr2. set (E2 := fexp (Zdigits2 n + E)) in *.
  assert (HnV : n * scale E <= m * scale k) by (rewrite Hk2; nia).
  assert (HdE : Zdigits2 n + E <= 53 + k).
  { apply (digits_from_above (n * scale E) 1 n E loc_Exact k 53); try done; [lia..|]. rewrite Z.mul_1_l. nia. }
  assert (HE2k : E2 <= k) by (unfold E2; rewrite fexp_val; lia).
  pose proof (scale_pos E2 ltac:(lia)) as HsE2.
  pose proof (located_bounds _ (1 * scale E2) _ _ ltac:(lia) Hl2) as [Hlo2 _].
  destruct (shr_m r2) as [|m2|m2] eqn:Em2; [by left| |lia]. right. exists m2, E2.
  rewrite (proj2 (Z.leb_le _ _)) by (change (emax - prec) with 971; lia). split; [done|]. split; [lia|]. lia.
Qed.

(** ** The operations *)

(** A double from zero to [V] smallest doubles, with an exponent from [low] on. *)
Definition at_most (low V : Z) (d : double) : Prop :=
  match d with
  | S754_zero _ => True
  | S754_finite false m e => low <= e /\ Zpos m * scale e <= V
  | _ => False
  end.

Lemma shl_align_spec p e f :
  let '(q, e') := shl_align p e f in
  e' = Z.min e f /\ Zpos q = Zpos p * 2 ^ (e - e') /\ Zdigits2 (Zpos q) + e' = Zdigits2 (Zpos p) + e.
Proof.
  unfold shl_align. destruct (f - e) as [|d|d] eqn:Ed;
    [split_and!; [lia|by rewrite Z.sub_diag, Z.mul_1_r|done]..|].
  split; [lia|]. split; [rewrite iter_xO_value; do 2 f_equal; lia|]. cbn [Zdigits2]. rewrite digits2_iter. lia.
Qed.

(** A positive integer in units of [2 ^ e]. *)
Lemma round_le p e m k low :
  -1074 <= e -> 0 < m < 2 ^ 53 -> -1074 <= k <= 971 -> Zpos p * scale e <= m * scale k ->
  low <= fexp (Zdigits2 (Zpos p) + e) -> at_most low (m * scale k) (binary_round prec emax false p e).
Proof.
  intros He Hm Hk HV Hlow. unfold binary_round.
  change (Z.add (Zpos (digits2_pos p)) e) with (Zdigits2 (Zpos p) + e).
  pose proof (shl_align_spec p e (fexp (Zdigits2 (Zpos p) + e))) as Ha.
  destruct (shl_align p e _) as [q e']. destruct Ha as (He' & Hq & Hd). rewrite fexp_val in *.
  assert (Hsc : Zpos q * scale e' = Zpos p * scale e).
  { rewrite Hq. replace e with (e' + (e - e')) at 2 by lia. rewrite scale_add by lia. ring. }
  destruct (round_aux_le (Zpos q * scale e') 1 (Zpos q) e' loc_Exact m k) as [->|(m' & e2 & -> & Hle & Hv)];
    [lia|lia|rewrite fexp_val; lia|simpl located; lia|done|done|lia|done|].
  rewrite fexp_val in Hle. split; [lia|exact Hv].
Qed.

(** The product with the number of cells. *)
Lemma geo_step_le low m k y :
  -1000 <= low <= 900 -> 0 < m < 2 ^ 53 -> -1000 <= k <= 900 -> at_most low (m * scale k) y ->
  at_most (low - 26) (m * scale (k + 26)) (dmul kGeoStep y).
Proof.
  intros Hlow Hm Hk. destruct y as [s|s| |[] my ey]; cbn [at_most]; try done. intros [Hey Hv].
  unfold dmul, SFmul, kGeoStep. cbn [xorb].
  replace (Zpos (4503599627370496 * my)) with (2 ^ 52 * Zpos my) by (rewrite Pos2Z.inj_mul; done).
  assert (Hd : 53 <= Zdigits2 (2 ^ 52 * Zpos my)) by (apply (digits_ge _ 52); lia).
  assert (Hsc : 2 ^ 52 * Zpos my * (1 * scale (-26 + ey)) = 2 ^ 26 * (Zpos my * scale ey)).
  { replace (scale ey) with (scale (-26 + ey + 26)) by (f_equal; lia). rewrite (scale_add (-26 + ey)) by lia. ring. }
  destruct (round_aux_le (2 ^ 52 * Zpos my * (1 * scale (-26 + ey))) 1 (2 ^ 52 * Zpos my) (-26 + ey) loc_Exact m (k + 26))
    as [->|(m' & e2 & -> & Hle & Hv')]; [lia|lia|rewrite fexp_val; lia|done|done|lia| |done|].
  - rewrite Hsc, scale_add by lia. lia.
  - rewrite fexp_val in Hle. split; [lia|exact Hv'].
Qed.

(** The quotient by the range of a coordinate. *)
Lemma geo_cell_le low V m k mq kq z :
  -1000 <= low - k <= 900 -> -1000 <= low -> -900 <= k <= 800 -> 0 < mq < 2 ^ 53 -> -1074 <= kq <= 971 ->
  V * 2 ^ 1074 <= mq * (Zpos m * scale kq) * scale k -> at_most low V z ->
  at_most (-1074) (mq * scale kq) (ddiv z (S754_finite false m k)).
Proof.
  intros Hlow Hlow2 Hk Hmq Hkq HV. destruct z as [s|s| |[] mz ez]; cbn [at_most]; try done. intros [Hez Hv].
  unfold ddiv, SFdiv, SFdiv_core_binary. cbn [xorb].
  set (f := SpecFloat.fexp _ _ _). set (e' := Z.min f (ez - k)).
  assert (Hf : f = Z.max (Zdigits2 (Zpos mz) + ez - (Zdigits2 (Zpos m) + k) - 53) (-1074)) by done.
  assert (He' : -1074 <= e' <= ez - k) by (unfold e'; lia).
  assert (Hsh : match ez - k - e' with Z0 => Zpos mz | Zpos _ => Z.shiftl (Zpos mz) (ez - k - e') | Zneg _ => 0 end
                = Zpos mz * 2 ^ (ez - k - e')).
  { rewrite <- Z.shiftl_mul_pow2 by lia. destruct (ez - k - e') eqn:E; [by rewrite Z.shiftl_0_r|done|lia]. }
  rewrite Hsh. rewrite (surjective_pairing (Z.div_eucl _ _)).
  set (A := Zpos mz * 2 ^ (ez - k - e')).
  change (Z.div_eucl A (Zpos m)).1 with (A / Zpos m). change (Z.div_eucl A (Zpos m)).2 with (A mod Zpos m).
  pose proof (scale_pos e' ltac:(lia)) as Hs.
  pose proof (division_located (Zpos mz) (Zpos m) (ez - k - e') (scale e') ltac:(lia) Hs ltac:(lia)) as Hl. fold A in Hl.
  assert (HW : A * scale e' = Zpos mz * scale (ez - k)).
  { unfold A. replace (ez - k) with (e' + (ez - k - e')) at 2 by lia. rewrite scale_add by lia. ring. }
  assert (Hq : 0 <= A / Zpos m) by (apply Z.div_pos; unfold A; lia).
  assert (Hfe : e' <= fexp (Zdigits2 (A / Zpos m) + e')).
  { rewrite fexp_val. destruct (decide (0 <= Zdigits2 (Zpos mz) - 1 - Zdigits2 (Zpos m) + (ez - k - e'))) as [Hn|Hn]; [|lia].
    pose proof (digits_from_below (A * scale e') (Zpos m) _ e' _ e' _ ltac:(lia) ltac:(lia) Hn Hl) as Hd.
    assert (Hle : 2 ^ (Zdigits2 (Zpos mz) - 1 - Zdigits2 (Zpos m) + (ez - k - e')) * (Zpos m * scale e') <= A * scale e');
      [|specialize (Hd Hle); lia].
    cbn [Zdigits2] in *. pose proof (digits2_lower mz) as H1. pose proof (digits2_upper m) as H2.
    set (dz := Zpos (digits2_pos mz)) in *. set (dm := Zpos (digits2_pos m)) in *.
    assert (2 ^ (dz - 1 - dm + (ez - k - e')) * 2 ^ dm = 2 ^ (dz - 1) * 2 ^ (ez - k - e')) as Heq
      by (rewrite <- !Z.pow_add_r by lia; f_equal; lia).
    rewrite Z.mul_assoc. apply Z.mul_le_mono_nonneg_r; [lia|]. unfold A.
    assert (0 < 2 ^ (dz - 1 - dm + (ez - k - e'))) by (apply Z.pow_pos_nonneg; lia).
    assert (0 < 2 ^ (ez - k - e')) by (apply Z.pow_pos_nonneg; lia). nia. }
  assert (Hb : Zpos mz * scale (ez - k) <= mq * (Zpos m * scale kq)).
  { pose proof (scale_pos k ltac:(lia)) as Hsk. apply (Z.mul_le_mono_pos_r _ _ (scale k)); [done|].
    etransitivity; [|exact HV]. transitivity (Zpos mz * scale ez * 2 ^ 1074).
    - apply Z.eq_le_incl. unfold scale. rewrite <- !Z.mul_assoc, <- !Z.pow_add_r by lia. do 2 f_equal. lia.
    - apply Z.mul_le_mono_nonneg_r; [by apply Z.pow_nonneg|done]. }
  destruct (round_aux_le (A * scale e') (Zpos m) (A / Zpos m) e' (new_location (Zpos m) (A mod Zpos m)) mq kq)
    as [->|(m' & e2 & -> & Hle & Hv')]; [lia|done|lia|exact Hl|lia|lia|rewrite HW; exact Hb|done|].
  split; [lia|exact Hv'].
Qed.

(** ** The bounds of a coordinate *)
Lemma finite_compare m1 e1 m2 e2 :
  bounded m1 e1 = true -> bounded m2 e2 = true ->
  match e1 ?= e2 with Lt => Lt | Gt => Gt | Eq => Pos.compare_cont Eq m1 m2 end <> Gt ->
  Zpos m1 * scale e1 <= Zpos m2 * scale e2.
Proof.
  intros H1 H2. destruct (bounded_spec m1 e1 H1) as (He1 & Hm1 & _ & _).
  destruct (bounded_spec m2 e2 H2) as (He2 & _ & _ & Hn2). destruct (e1 ?= e2) eqn:E; [| |done]; intros Hc.
  - apply Z.compare_eq_iff in E as ->. pose proof (scale_pos e2 ltac:(lia)).
    assert (Zpos m1 <= Zpos m2) by exact Hc. nia.
  - assert (Hlt : e1 < e2) by exact E. clear Hc E. destruct Hn2 as [?|Hn2]; [lia|].
    replace e2 with (e1 + 1 + (e2 - e1 - 1)) by lia. rewrite !scale_add by lia. pose proof (scale_pos e1 ltac:(lia)).
    assert (0 < 2 ^ (e2 - e1 - 1)) by (apply Z.pow_pos_nonneg; lia).
    assert (scale e1 * 2 ^ 1 * 1 <= scale e1 * 2 ^ 1 * 2 ^ (e2 - e1 - 1)) by (apply Z.mul_le_mono_nonneg_l; lia). nia.
Qed.

(** The distance from the lower bound, for a coordinate between the bounds. *)
Lemma distance_le ml el mh eh mt kt x :
  bounded ml el = true -> bounded mh eh = true -> -1000 <= el <= 900 -> 2 ^ 52 < Zpos ml ->
  0 < mt < 2 ^ 53 -> -1074 <= kt <= 971 -> Zpos ml * scale el + Zpos mh * scale eh <= mt * scale kt ->
  valid_binary prec emax x = true ->
  out_of_bounds x (S754_finite true ml el) (S754_finite false mh eh) = false ->
  at_most (el - 52) (mt * scale kt) (dsub x (S754_finite true ml el)).
Proof.
  intros Hl Hh Hel Hml Hmt Hkt HT Hx Hb. unfold out_of_bounds in Hb.
  apply orb_false_iff in Hb as [[Hfin Hlo]%orb_false_iff Hhi].
  pose proof (scale_pos el ltac:(lia)) as Hsl. destruct (bounded_spec mh eh Hh) as (Heh & _).
  pose proof (scale_pos eh ltac:(lia)) as Hsh.
  destruct x as [s|s| |s m e]; [|done|done|].
  { cbn [dsub SFsub negb at_most]. split; [lia|]. lia. }
  cbn [valid_binary] in Hx. fold (bounded m e) in Hx. destruct (bounded_spec m e Hx) as (He & Hm53 & _ & _).
  pose proof (scale_pos e ltac:(lia)) as Hse.
  unfold dsub, SFsub. set (ez := Z.min e el).
  pose proof (shl_align_spec m e ez) as H1. pose proof (shl_align_spec ml el ez) as H2.
  destruct (shl_align m e ez) as [m1 e1], (shl_align ml el ez) as [m2 e2]. cbn [fst].
  destruct H1 as (-> & H1 & _), H2 as (-> & H2 & _).
  replace (Z.min e ez) with ez in * by (unfold ez; lia). replace (Z.min el ez) with ez in * by (unfold ez; lia).
  assert (Hez : -1074 <= ez) by (unfold ez; lia). pose proof (scale_pos ez Hez) as Hsz.
  assert (S1 : Zpos m1 * scale ez = Zpos m * scale e).
  { rewrite H1. replace e with (ez + (e - ez)) at 2 by lia. rewrite scale_add by (unfold ez; lia). ring. }
  assert (S2 : Zpos m2 * scale ez = Zpos ml * scale el).
  { rewrite H2. replace el with (ez + (el - ez)) at 2 by lia. rewrite scale_add by (unfold ez; lia). ring. }
  assert (S3 : scale el = 2 ^ (el - ez) * scale ez).
  { replace el with (ez + (el - ez)) at 1 by lia. rewrite scale_add by (unfold ez; lia). ring. }
  assert (Hround : forall N, 0 < N -> scale el <= N * scale ez <= mt * scale kt ->
    at_most (el - 52) (mt * scale kt) (binary_normalize prec emax N ez false)).
  { intros N HN [Hlow Hup]. destruct N as [|p|p]; try done. cbn [binary_normalize].
    apply round_le; [done..|]. rewrite fexp_val.
    pose proof (digits_ge (Zpos p) (el - ez) ltac:(unfold ez; lia) ltac:(nia)). lia. }
  destruct s; cbn [cond_Zopp].
  - assert (Hle : Zpos m * scale e <= Zpos ml * scale el).
    { apply finite_compare; [done..|]. unfold dltb, SFltb, SFcompare in Hlo.
      destruct (e ?= el); [|done|done]. by destruct (Pos.compare_cont Eq m ml). }
    replace (- Zpos m1 - - Zpos m2) with (Zpos m2 - Zpos m1) by lia.
    destruct (decide (Zpos m2 = Zpos m1)) as [->|Hne]; [rewrite Z.sub_diag; done|].
    assert (Zpos m1 < Zpos m2) by nia. apply Hround; [lia|]. rewrite Z.mul_sub_distr_r, S1, S2. split; [|nia].
    destruct (decide (el <= e)) as [Hge|Hlt].
    + assert (ez = el) as Heq by (unfold ez; lia). rewrite <- S1, <- S2, Heq. nia.
    + replace el with (e + 1 + (el - e - 1)) by lia. rewrite !scale_add by lia.
      assert (0 < 2 ^ (el - e - 1)) by (apply Z.pow_pos_nonneg; lia).
      assert (scale e * 2 ^ 1 * 1 <= scale e * 2 ^ 1 * 2 ^ (el - e - 1)) by (apply Z.mul_le_mono_nonneg_l; lia).
      set (X := scale e * 2 ^ 1 * 2 ^ (el - e - 1)) in *. nia.
  - assert (Hle : Zpos m * scale e <= Zpos mh * scale eh).
    { apply finite_compare; [done..|]. unfold dltb, SFltb, SFcompare in Hhi. rewrite Z.compare_antisym in Hhi.
      destruct (e ?= eh); cbn [CompOpp] in Hhi; [|done|done].
      change (Pos.compare_cont Eq mh m) with (mh ?= m)%positive in Hhi. rewrite Pos.compare_antisym in Hhi.
      change (Pos.compare_cont Eq m mh) with (m ?= mh)%positive. by destruct (m ?= mh)%positive. }
    replace (Zpos m1 - - Zpos m2) with (Zpos m1 + Zpos m2) by lia. apply Hround; [lia|].
    rewrite Z.mul_add_distr_r, S1, S2. nia.
Qed.

Lemma cell_of_le n d : 0 <= n < 2 ^ 32 - 1 -> forall V, V < (n + 1) * scale 0 -> at_most (-1074) V d ->
  exists cell, cast_uint32 d = Ret cell /\ 0 <= cell <= n.
Proof.
  intros Hn V HV. destruct d as [s|s| |[] m e]; cbn [at_most]; try done; [intros _; exists 0; split; [done|lia]|]. intros [He Hv].
  unfold cast_uint32, cast_unsigned, fraction.
  assert (Hq : forall num den, 0 < den -> 0 <= num < (n + 1) * den -> 0 <= num / den <= n).
  { intros num den Hden Hnum. split; [apply Z.div_pos; lia|]. assert (num / den < n + 1); [|lia].
    apply Z.div_lt_upper_bound; lia. }
  destruct (0 <=? e) eqn:E; b2p.
  - assert (Hr : 0 <= Zpos m * 2 ^ e / 1 <= n).
    { apply Hq; [lia|]. split; [apply Z.mul_nonneg_nonneg; [lia|by apply Z.pow_nonneg]|].
      replace e with (0 + e) in Hv by lia. rewrite scale_add in Hv by lia. pose proof (scale_pos 0 ltac:(lia)). nia. }
    rewrite (proj2 (Z.leb_le 0 _)), (proj2 (Z.leb_le _ (2 ^ 32 - 1))) by lia. cbn [andb]. eauto.
  - assert (Hr : 0 <= Zpos m / 2 ^ (- e) <= n).
    { apply Hq; [apply Z.pow_pos_nonneg; lia|]. split; [lia|]. pose proof (scale_pos e ltac:(lia)).
      assert (scale 0 = scale e * 2 ^ (- e)) as H0 by (rewrite <- scale_add by lia; f_equal; lia). rewrite H0 in HV. nia. }
    rewrite (proj2 (Z.leb_le 0 _)), (proj2 (Z.leb_le _ (2 ^ 32 - 1))) by lia. cbn [andb]. eauto.
Qed.

(** A coordinate from the lower bound up to [hi] has a cell of at most [n]; the numbers
    [mt], [kt], [mq] and [kq] are doubles that bound the distance and the quotient. *)
Lemma coordinate_cell ml el mh eh mt kt mq kq n x :
  bounded ml el = true -> bounded mh eh = true -> -100 <= el <= 100 -> 2 ^ 52 < Zpos ml ->
  0 < mt < 2 ^ 53 -> -100 <= kt <= 100 -> Zpos ml * scale el + Zpos mh * scale eh <= mt * scale kt ->
  0 < mq < 2 ^ 53 -> -1074 <= kq <= 971 -> mt * scale (kt + 26) * 2 ^ 1074 <= mq * (Zpos ml * scale kq) * scale (el + 1) ->
  0 <= n < 2 ^ 32 - 1 -> mq * scale kq < (n + 1) * scale 0 ->
  valid_binary prec emax x = true ->
  out_of_bounds x (S754_finite true ml el) (S754_finite false mh eh) = false ->
  exists cell, normalize x (S754_finite true ml el) (S754_finite false ml (el + 1)) = Ret cell /\ 0 <= cell <= n.
Proof.
  intros Hl Hh Hel Hml Hmt Hkt HT Hmq Hkq HQ Hn Hnq Hx Hb. unfold normalize.
  apply (cell_of_le n _ Hn (mq * scale kq) Hnq).
  apply (geo_cell_le (el - 52 - 26) (mt * scale (kt + 26))); [lia..|done|].
  apply geo_step_le; [lia|done|lia|]. apply (distance_le ml el mh eh); try done; lia.
Qed.

(** ** The coordinates of a position *)

(** Upper bounds a millionth of a degree inside those that GEOADD checks. *)
Definition inner_lon : double := Eval vm_compute in lit "179.999999".
Definition inner_lat : double := Eval vm_compute in lit "85.05112778".

(** The premises of [coordinate_cell] at constants. *)
Ltac constants := solve [ by vm_compute | split; by vm_compute | done ].

Lemma lon_cell x :
  valid_binary prec emax x = true ->
  (out_of_bounds x kLonMin kLonMax = false ->
     exists cell, normalize x kLonMin kLonRange = Ret cell /\ 0 <= cell <= 2 ^ 26)
  /\ (out_of_bounds x kLonMin inner_lon = false ->
     exists cell, normalize x kLonMin kLonRange = Ret cell /\ 0 <= cell <= 2 ^ 26 - 1).
Proof.
  intros Hx. split; intros Hb.
  - apply (coordinate_cell 6333186975989760 (-45) 6333186975989760 (-45) 6333186975989760 (-44) (2 ^ 52) (-26));
      [..|exact Hx|exact Hb]; constants.
  - apply (coordinate_cell 6333186975989760 (-45) 6333186940805388 (-45) 6333186958397574 (-44) (2 ^ 53 - 1) (-27));
      [..|exact Hx|exact Hb]; constants.
Qed.

Lemma lat_cell x :
  valid_binary prec emax x = true ->
  (out_of_bounds x kLatMin kLatMax = false ->
     exists cell, normalize x kLatMin kLatRange = Ret cell /\ 0 <= cell <= 2 ^ 26)
  /\ (out_of_bounds x kLatMin inner_lat = false ->
     exists cell, normalize x kLatMin kLatRange = Ret cell /\ 0 <= cell <= 2 ^ 26 - 1).
Proof.
  intros Hx. split; intros Hb.
  - apply (coordinate_cell 5984941123141376 (-46) 5984941123141376 (-46) 5984941123141376 (-45) (2 ^ 52) (-26));
      [..|exact Hx|exact Hb]; constants.
  - apply (coordinate_cell 5984941123141376 (-46) 5984941052772632 (-46) 5984941087957004 (-45) (2 ^ 53 - 1) (-27));
      [..|exact Hx|exact Hb]; constants.
Qed.

(** At the upper bound of a coordinate the cell is [2 ^ 26], the score has 54 bits, and
    the double that keeps it loses the last bit of the latitude's cell. *)
Lemma upper_bound_loses_a_bit :
  out_of_bounds (lit "180") kLonMin kLonMax = false
  /\ encode (lit "10.0") (lit "180") = Ret 10138940401276181
  /\ cast_uint64 (double_of_Z 10138940401276181) = Ret 10138940401276180
  /\ unspread 10138940401276181 = 37499639 /\ unspread 10138940401276180 = 37499638.
Proof. by vm_compute. Qed.

(** * Properties *)

(** C39: a score keeps the cells of a position.  Every position that GEOADD accepts has a
    score: the conversions are defined, and both cells are at most [2 ^ 26].  The bits of
    the latitude's and the longitude's cell alternate in the score, and decoding it gives
    the middles of exactly these two cells.  For positions that stay a millionth of a
    degree below the upper bounds the score also survives its stay in the sorted set as
    a double; at the upper bounds it need not ([upper_bound_loses_a_bit]). *)
Theorem geo_score_keeps_cells (lat lon : double) :
  valid_binary prec emax lat = true -> valid_binary prec emax lon = true ->
  out_of_bounds lon kLonMin kLonMax = false -> out_of_bounds lat kLatMin kLatMax = false ->
  exists lat_cell lon_cell score,
    normalize lat kLatMin kLatRange = Ret lat_cell /\ normalize lon kLonMin kLonRange = Ret lon_cell
    /\ 0 <= lat_cell <= 2 ^ 26 /\ 0 <= lon_cell <= 2 ^ 26
    /\ encode lat lon = Ret score
    /\ (forall j, 0 <= j < 64 -> Z.testbit score j = Z.testbit (if Z.even j then lat_cell else lon_cell) (j / 2))
    /\ decode score = mkCoordinates (cell_middle lat_cell kLatMin kLatRange) (cell_middle lon_cell kLonMin kLonRange)
    /\ (out_of_bounds lon kLonMin inner_lon = false -> out_of_bounds lat kLatMin inner_lat = false ->
        cast_uint64 (double_of_Z score) = Ret score).
Proof.
  intros Hlat Hlon Hblon Hblat. destruct (lat_cell lat Hlat) as [Ha Hai]. destruct (lon_cell lon Hlon) as [Hb Hbi].
  destruct (Ha Hblat) as (a & Ea & Ra). destruct (Hb Hblon) as (b & Eb & Rb). exists a, b, (interleave a b).
  split_and!; [(done || lia)..| | | |].
  - unfold encode. by rewrite Ea, Eb.
  - intros. apply interleave_testbit; lia.
  - unfold decode. destruct (unspread_interleave a b) as [-> ->]; [lia..|done].
  - intros Hio Hia. destruct (Hai Hia) as (a' & Ea' & Ra'). destruct (Hbi Hio) as (b' & Eb' & Rb').
    assert (a' = a) as -> by congruence. assert (b' = b) as -> by congruence.
    pose proof (interleave_bound a b ltac:(lia) ltac:(lia)). apply cast_double_of_Z; unfold UINT64_MAX; lia.
Qed.

Lemma geo_score_keeps_cells_witness :
  exists lat_cell lon_cell score, encode (lit "38.115556") (lit "13.361389") = Ret score
    /\ decode score = mkCoordinates (cell_middle lat_cell kLatMin kLatRange) (cell_middle lon_cell kLonMin kLonRange)
    /\ cast_uint64 (double_of_Z score) = Ret score.
Proof.
  destruct (geo_score_keeps_cells (lit "38.115556") (lit "13.361389")) as (a & b & s & _ & _ & _ & _ & He & _ & Hd & Hc);
    [by vm_compute..|]. exists a, b, s. split; [exact He|]. split; [exact Hd|]. apply Hc; by vm_compute.
Defined.
