(* ===== verification/PubsubCommands.v ===== *)
(** * SUBSCRIBE, UNSUBSCRIBE and PUBLISH (handler/pubsub_commands.cpp) *)

From S2P Require Import Prelude Text RespCodec PubSub Context.

(** The reply of three elements, of which the last is a count. *)
Definition emit_subscription (kind channel : bytes) (count : Z) : M unit :=
  _ ← emit (bs "*3" ++ CRLF);
  _ ← emit_bulk kind;
  _ ← emit_bulk channel;
  emit_integer count.

Definition handle_subscribe (fd : Z) (channel : bytes) : M unit :=
  c ← get_ctx;
  count ← match pubsub_manager c with
          | Some ps =>
              let (ps, n) := subscribe fd channel ps in
              _ ← modify (with_pubsub (Some ps)); mret n
          | None => mret 1
          end;
  emit_subscription (bs "subscribe") channel count.

Definition handle_unsubscribe (fd : Z) (channel : bytes) : M unit :=
  c ← get_ctx;
  count ← match pubsub_manager c with
          | Some ps =>
              let (ps, n) := unsubscribe fd channel ps in
              _ ← modify (with_pubsub (Some ps)); mret n
          | None => mret 0
          end;
  emit_subscription (bs "unsubscribe") channel count.

Fixpoint send_all (fds : list Z) (msg : bytes) : M unit :=
  match fds with
  | [] => mret ()
  | fd :: fds => _ ← send_client true fd msg; send_all fds msg
  end.

Definition handle_publish (has_send : bool) (channel message : bytes) : M unit :=
  c ← get_ctx;
  match pubsub_manager c with
  | Some ps =>
      let subs := get_subscribers channel ps in
      _ ← (if has_send
           then send_all (elements subs) (encode_array [bs "message"; channel; message])
           else mret ());
      emit_integer (Z.of_nat (size subs))
  | None => emit_integer 0
  end.
