(* ===== verification/ServerCommands.v ===== *)
(** * Server commands (handler/server_commands.cpp) *)

From S2P Require Import Prelude Text StreamIds RespCodec Scores SortedSets Store PubSub Connection.
From S2P Require Import Sha256 Acl Doubles Aof Context.

Definition handle_ping (fd : Z) : M unit :=
  c ← get_ctx;
  if match pubsub_manager c with
     | Some ps => (0 <=? fd) && is_subscribed fd ps
     | None => false
     end
  then emit_array [bs "pong"; []]
  else emit kRespPong.

Definition handle_echo (message : bytes) : M unit := emit_bulk message.

Definition handle_info : M unit :=
  c ← get_ctx;
  let role := if is_replica (config c) then bs "slave" else bs "master" in
  emit_bulk (bs "# Replication" ++ CRLF ++ bs "role:" ++ role ++ CRLF ++ bs "master_replid:"
             ++ master_replid (config c) ++ CRLF ++ bs "master_repl_offset:"
             ++ to_string (default 0 (offset_fn c)) ++ CRLF).

(** The head of a pair, written out in the code, and its value. *)
Definition emit_pair (name : bytes) (value : M unit) : M unit :=
  _ ← emit (bs "*2" ++ CRLF ++ bs "$" ++ to_string (zlen name) ++ CRLF ++ name ++ CRLF);
  value.

Definition aof_setting (f : AofManager -> bytes) : M unit :=
  c ← get_ctx; emit_bulk (match aof_manager c with Some m => f m | None => [] end).

Definition handle_config_get (param : bytes) : M unit :=
  let upper := to_upper param in
  c ← get_ctx;
  if bool_decide (upper = bs "DIR") then emit_pair (bs "dir") (emit_bulk (dir (config c)))
  else if bool_decide (upper = bs "DBFILENAME") then
    emit_pair (bs "dbfilename")
      (if bool_decide (dbfilename (config c) = []) then emit_null_bulk else emit_bulk (dbfilename (config c)))
  else if bool_decide (upper = bs "APPENDONLY") then emit_pair (bs "appendonly") (aof_setting appendonly_)
  else if bool_decide (upper = bs "APPENDDIRNAME") then emit_pair (bs "appenddirname") (aof_setting appenddirname_)
  else if bool_decide (upper = bs "APPENDFILENAME") then emit_pair (bs "appendfilename") (aof_setting appendfilename_)
  else if bool_decide (upper = bs "APPENDFSYNC") then emit_pair (bs "appendfsync") (aof_setting appendfsync_)
  else emit (bs "*0" ++ CRLF).

(** Turning the log on creates and opens its files; turning it off closes it. *)
Definition switch_appendonly (val : bytes) (base : bytes) (m : AofManager) (f : fs) : AofManager * fs :=
  let was := appendonly_ m in
  let m := set_appendonly val m in
  if bool_decide (val = bs "yes") && negb (bool_decide (was = bs "yes"))
  then open base m (ensure_manifest base m (ensure_file base m f))
  else if bool_decide (val = bs "no") && negb (bool_decide (was = bs "no")) then (close m, f)
  else (m, f).

Definition handle_config_set (param value : bytes) : M unit :=
  let upper := to_upper param in
  c ← get_ctx;
  if bool_decide (upper = bs "APPENDONLY") then
    match aof_manager c with
    | None => emit_error (bs "ERR AOF is not configured")
    | Some m =>
        let val := to_lower value in
        if negb (bool_decide (val = bs "yes")) && negb (bool_decide (val = bs "no"))
        then emit_error (bs "ERR invalid value for appendonly")
        else
          let (m, f) := switch_appendonly val (dir (config c)) m (files c) in
          _ ← modify (with_aof (Some m) f);
          emit kRespOk
    end
  else if bool_decide (upper = bs "APPENDFSYNC") then
    match aof_manager c with
    | None => emit_error (bs "ERR AOF is not configured")
    | Some m =>
        let val := to_lower value in
        if negb (bool_decide (val = bs "always")) && negb (bool_decide (val = bs "everysec"))
           && negb (bool_decide (val = bs "no"))
        then emit_error (bs "ERR invalid value for appendfsync")
        else
          _ ← modify (with_aof (Some (set_appendfsync val m)) (files c));
          emit kRespOk
    end
  else emit_error (bs "ERR unsupported CONFIG parameter").

(** The body of the CONFIG entry of the command table (handler/command_handler.cpp). *)
Definition handle_config (args : list bytes) : M unit :=
  if (length args <? 3)%nat then emit_error (bs "ERR wrong number of arguments for 'config' command")
  else
    a1 ← arg args 1;
    a2 ← arg args 2;
    let subcmd := to_upper a1 in
    if bool_decide (subcmd = bs "GET") then handle_config_get a2
    else if bool_decide (subcmd = bs "SET") then
      if (length args <? 4)%nat then emit_error (bs "ERR wrong number of arguments for 'config|set' command")
      else a3 ← arg args 3; handle_config_set a2 a3
    else emit_error (bs "ERR unsupported CONFIG subcommand").

Definition handle_acl_whoami : M unit := emit_bulk (bs "default").

Definition handle_acl_getuser (args : list bytes) : M unit :=
  a2 ← arg args 2;
  c ← get_ctx;
  match get_user a2 (acl_manager c) with
  | None => emit_into encode_null_array_into
  | Some user =>
      let flags := if nopass user then [bs "nopass"] else [] in
      emit_into (fun o => encode_raw_array_into o
        [encode_bulk_string (bs "flags"); encode_array flags;
         encode_bulk_string (bs "passwords"); encode_array (passwords user)])
  end.

(** A rule that starts with '>' adds a password; the others are ignored. *)
Definition apply_rule (username : bytes) (m : AclManager) (rule : bytes) : AclManager :=
  match rule with
  | c :: password => if bool_decide (c = ">"%char) then set_password username password m else m
  | [] => m
  end.

Definition handle_acl_setuser (args : list bytes) : M unit :=
  username ← arg args 2;
  _ ← modify (fun c => with_acl (fold_left (apply_rule username) (drop 3 args) (acl_manager c)) c);
  emit kRespOk.

Definition acl_unknown : bytes := bs "ERR unknown subcommand for 'ACL'. Try ACL HELP.".

Definition handle_acl (args : list bytes) : M unit :=
  if (length args <? 2)%nat then emit_error acl_unknown
  else
    a1 ← arg args 1;
    let subcmd := to_upper a1 in
    if bool_decide (subcmd = bs "WHOAMI") then handle_acl_whoami
    else if bool_decide (subcmd = bs "GETUSER") then
      if (length args <? 3)%nat then emit_error (bs "ERR wrong number of arguments for 'acl|getuser' command")
      else handle_acl_getuser args
    else if bool_decide (subcmd = bs "SETUSER") then
      if (length args <? 3)%nat then emit_error (bs "ERR wrong number of arguments for 'acl|setuser' command")
      else handle_acl_setuser args
    else emit_error acl_unknown.

(** A change of the connection of [fd] in the pool; an unknown descriptor throws. *)
Definition update_conn (fd : Z) (f : Connection -> Connection) (p : ConnectionPool) : M unit :=
  conn ← lift (get_connection fd p);
  modify (with_pool (Some (put_conn fd (f conn) p))).

Definition handle_auth (fd : Z) (args : list bytes) : M unit :=
  if (length args <? 3)%nat then emit_error (bs "ERR wrong number of arguments for 'auth' command")
  else
    a1 ← arg args 1;
    a2 ← arg args 2;
    c ← get_ctx;
    if authenticate a1 a2 (acl_manager c) then
      _ ← match conn_pool c with
          | Some p => update_conn fd (set_authenticated true) p
          | None => mret ()
          end;
      emit kRespOk
    else emit_error (bs "WRONGPASS invalid username-password pair or user is disabled.").

Definition handle_replconf (args : list bytes) : M unit :=
  if match args with
     | _ :: a1 :: _ => bool_decide (to_upper a1 = bs "GETACK")
     | _ => false
     end
  then emit_array [bs "REPLCONF"; bs "ACK"; bs "0"]
  else emit kRespOk.

(** rdb/rdb_constants.hpp *)
Definition kEmptyRdb : bytes :=
  chr <$> [82; 69; 68; 73; 83; 48; 48; 49; 49; 250; 9; 114; 101; 100; 105;
           115; 45; 118; 101; 114; 5; 55; 46; 50; 46; 48; 250; 10; 114; 101;
           100; 105; 115; 45; 98; 105; 116; 115; 192; 64; 250; 5; 99; 116; 105;
           109; 101; 194; 109; 8; 188; 101; 250; 8; 117; 115; 101; 100; 45; 109;
           101; 109; 194; 176; 196; 16; 0; 250; 8; 97; 111; 102; 45; 98; 97;
           115; 101; 192; 0; 255; 240; 110; 59; 254; 192; 255; 90; 162].

Definition handle_psync : M result_state :=
  c ← get_ctx;
  _ ← emit (bs "+FULLRESYNC " ++ master_replid (config c) ++ bs " " ++ to_string (default 0 (offset_fn c)) ++ CRLF);
  _ ← emit (bs "$88" ++ CRLF);
  _ ← emit kEmptyRdb;
  mret ReplicaHandshake.

Definition handle_wait (args : list bytes) : M result_state :=
  if (length args <? 3)%nat
  then _ ← emit_error (bs "ERR wrong number of arguments for 'wait' command"); normal
  else
    a1 ← arg args 1;
    a2 ← arg args 2;
    match parse_int64 a1, parse_int64 a2 with
    | Some numreplicas, Some timeout => mret (Wait numreplicas timeout)
    | _, _ => _ ← emit_error not_an_integer; normal
    end.

Definition handle_bgrewriteaof : M unit :=
  c ← get_ctx;
  match aof_manager c with
  | None => emit_error (bs "ERR AOF is not enabled")
  | Some m =>
      if negb (bool_decide (appendonly_ m = bs "yes")) then emit_error (bs "ERR AOF is not enabled")
      else if rewrite_in_progress_ m then emit_error (bs "ERR AOF rewrite already in progress")
      else
        e ← ask;
        let '(m, f, ok) := start_rewrite (fork_ok e) (child_now e) (ctx_store c) (dir (config c)) m (files c) in
        _ ← modify (with_aof (Some m) f);
        if (ok : bool)
        then emit_into (fun o => encode_simple_string_into o (bs "Background append only file rewriting started"))
        else emit_error (bs "ERR AOF rewrite failed")
  end.
