(* ===== verification/CommandHandler.v ===== *)
(** * The command handler (handler/command_handler.cpp)

    The table of commands, the checks a command passes before it runs (subscribed
    mode, authentication, transactions), and the loop over the commands of a buffer.
    The functions [sin], [cos] and [asin] of the C library, used by two geographic
    commands, are parameters. *)

From S2P Require Import Prelude Text StreamIds RespCodec Scores SortedSets Store BlockingManager.
From S2P Require Import PubSub Connection Sha256 Acl Doubles Aof Geo Context StringCommands.
From S2P Require Import ListCommands StreamCommands ZsetCommands GeoCommands PubsubCommands.
From S2P Require Import ServerCommands.

Definition kWriteCommands : list bytes :=
  bs <$> ["SET"; "DEL"; "INCR"; "MSET"; "RPUSH"; "LPUSH"; "LPOP"; "RPOP"; "XADD"; "ZADD"; "ZREM"; "GEOADD"]%string.

Definition is_write_command (cmd : bytes) : bool := bool_decide (cmd ∈ kWriteCommands).

(** A handler gets whether [send_to_client] is set, the descriptor and the arguments. *)
Abbreviation CmdHandler := (bool -> Z -> list bytes -> M result_state).
Record CommandEntry := mkCommandEntry { handler : CmdHandler; min_args : nat }.

(** The entries that answer and return [ProcessResult::normal()]. *)
Definition plain (h : list bytes -> M unit) : CmdHandler := fun _ _ args => _ ← h args; normal.
Definition plain_fd (h : Z -> list bytes -> M unit) : CmdHandler := fun _ fd args => _ ← h fd args; normal.
Definition on_first (h : bytes -> M unit) : CmdHandler := fun _ _ args => a ← arg args 1; _ ← h a; normal.

(** RPUSH and LPUSH wake blocked clients only when there is a way to send. *)
Definition push_entry (with_blocking : bool -> list bytes -> M result_state) (without : list bytes -> M unit)
  : CmdHandler :=
  fun has_send _ args => if has_send then with_blocking has_send args else _ ← without args; normal.

Definition subscribe_entry (h : Z -> bytes -> M unit) (err : bytes) : CmdHandler := fun _ fd args =>
  if (length args <? 2)%nat then _ ← emit_error err; normal
  else a ← arg args 1; _ ← h fd a; normal.

Definition publish_entry : CmdHandler := fun has_send _ args =>
  if (length args <? 3)%nat then _ ← emit_error (bs "ERR wrong number of arguments for 'publish' command"); normal
  else a1 ← arg args 1; a2 ← arg args 2; _ ← handle_publish has_send a1 a2; normal.

Section handler.
  Context (sin cos asin : double -> double).

(** ** The table that [register_commands] fills, in its order *)

(** PING to INCR. *)
Definition string_entries : list (bytes * CommandEntry) :=
  [ (bs "PING", mkCommandEntry (plain_fd (fun fd _ => handle_ping fd)) 1);
    (bs "ECHO", mkCommandEntry (on_first handle_echo) 2);
    (bs "SET", mkCommandEntry (plain handle_set) 3);
    (bs "MSET", mkCommandEntry (plain handle_mset) 3);
    (bs "GET", mkCommandEntry (on_first handle_get) 2);
    (bs "INCR", mkCommandEntry (on_first handle_incr) 2) ].

(** RPUSH to KEYS. *)
Definition list_entries : list (bytes * CommandEntry) :=
  [ (bs "RPUSH", mkCommandEntry (push_entry handle_rpush_with_blocking handle_rpush) 3);
    (bs "LPUSH", mkCommandEntry (push_entry handle_lpush_with_blocking handle_lpush) 3);
    (bs "LLEN", mkCommandEntry (on_first (fun a => n ← on_store (fun now => llen now a); emit_integer n)) 2);
    (bs "LPOP", mkCommandEntry (plain handle_lpop) 2);
    (bs "RPOP", mkCommandEntry (plain handle_rpop) 2);
    (bs "LRANGE", mkCommandEntry (plain handle_lrange) 4);
    (bs "BLPOP", mkCommandEntry (fun _ => handle_blpop) 3);
    (bs "TYPE", mkCommandEntry (on_first (fun a => t ← on_store (fun now => get_type now a);
                                  emit_into (fun o => encode_simple_string_into o t))) 2);
    (bs "KEYS", mkCommandEntry (plain (fun _ => ks ← on_store keys; emit_array ks)) 2) ].

(** XADD to XREAD. *)
Definition ordered_entries : list (bytes * CommandEntry) :=
  [ (bs "XADD", mkCommandEntry (fun has_send _ => handle_xadd_with_blocking has_send) 4);
    (bs "ZADD", mkCommandEntry (plain handle_zadd) 4);
    (bs "ZRANK", mkCommandEntry (plain handle_zrank) 3);
    (bs "ZRANGE", mkCommandEntry (plain handle_zrange) 4);
    (bs "ZCARD", mkCommandEntry (on_first handle_zcard) 2);
    (bs "ZSCORE", mkCommandEntry (plain handle_zscore) 3);
    (bs "ZREM", mkCommandEntry (plain handle_zrem) 3);
    (bs "GEOADD", mkCommandEntry (plain handle_geoadd) 5);
    (bs "GEOPOS", mkCommandEntry (plain handle_geopos) 3);
    (bs "GEODIST", mkCommandEntry (plain (handle_geodist sin cos asin)) 4);
    (bs "GEOSEARCH", mkCommandEntry (plain (handle_geosearch sin cos asin)) 8);
    (bs "XRANGE", mkCommandEntry (plain handle_xrange) 4);
    (bs "XREAD", mkCommandEntry (fun _ => handle_xread_with_blocking) 4) ].

(** INFO to PSYNC. *)
Definition server_entries : list (bytes * CommandEntry) :=
  [ (bs "INFO", mkCommandEntry (plain (fun _ => handle_info)) 1);
    (bs "BGREWRITEAOF", mkCommandEntry (plain (fun _ => handle_bgrewriteaof)) 1);
    (bs "CONFIG", mkCommandEntry (plain handle_config) 3);
    (bs "ACL", mkCommandEntry (plain handle_acl) 2);
    (bs "AUTH", mkCommandEntry (plain_fd handle_auth) 2);
    (bs "REPLCONF", mkCommandEntry (plain handle_replconf) 2);
    (bs "WAIT", mkCommandEntry (fun _ _ => handle_wait) 3);
    (bs "PSYNC", mkCommandEntry (fun _ _ _ => handle_psync) 1) ].

(** SUBSCRIBE, UNSUBSCRIBE and PUBLISH. *)
Definition pubsub_entries : list (bytes * CommandEntry) :=
  [ (bs "SUBSCRIBE", mkCommandEntry (subscribe_entry handle_subscribe
                       (bs "ERR wrong number of arguments for 'subscribe' command")) 2);
    (bs "UNSUBSCRIBE", mkCommandEntry (subscribe_entry handle_unsubscribe
                         (bs "ERR wrong number of arguments for 'unsubscribe' command")) 2);
    (bs "PUBLISH", mkCommandEntry publish_entry 3) ].

Definition command_table : list (bytes * CommandEntry) :=
  string_entries ++ list_entries ++ ordered_entries ++ server_entries ++ pubsub_entries.

Definition find_command (cmd : bytes) : option CommandEntry :=
  snd ∘ snd <$> list_find (fun p : bytes * CommandEntry => p.1 = cmd) command_table.

Definition execute_command (has_send : bool) (fd : Z) (cmd : bytes) (args : list bytes) : M result_state :=
  match find_command cmd with
  | None => _ ← emit_error (bs "ERR unknown command '" ++ cmd ++ bs "'"); normal
  | Some entry =>
      if (length args <? min_args entry)%nat
      then _ ← emit_error (bs "ERR wrong number of arguments for '" ++ cmd ++ bs "' command"); normal
      else handler entry has_send fd args
  end.

(** ** The transaction of a client: in its connection when there is a pool, in the
    context's table otherwise. *)
Definition tx_find (fd : Z) : M (option TransactionState) :=
  c ← get_ctx;
  match conn_pool c with
  | Some p => conn ← lift (get_connection fd p); mret (tx_ conn)
  | None => mret (transactions c !! fd)
  end.

Definition tx_put (fd : Z) (t : TransactionState) : M unit :=
  c ← get_ctx;
  match conn_pool c with
  | Some p => update_conn fd (set_tx (Some t)) p
  | None => modify (with_transactions (<[fd := t]> (transactions c)))
  end.

Definition tx_clear (fd : Z) : M unit :=
  c ← get_ctx;
  match conn_pool c with
  | Some p => update_conn fd clear_tx p
  | None => modify (with_transactions (delete fd (transactions c)))
  end.

Definition tx_in_multi (fd : Z) : M bool :=
  t ← tx_find fd; mret (match t with Some t => in_multi t | None => false end).

(** [tx_get] creates the state when there is none. *)
Definition tx_get (fd : Z) : M TransactionState :=
  t ← tx_find fd; let t := default new_tx t in _ ← tx_put fd t; mret t.

Definition with_multi (b : bool) (t : TransactionState) : TransactionState :=
  mkTransactionState b (queued_commands t) (watched_keys t).
Definition with_queued (q : list (list bytes)) (t : TransactionState) : TransactionState :=
  mkTransactionState (in_multi t) q (watched_keys t).
Definition with_watched (w : gmap bytes Z) (t : TransactionState) : TransactionState :=
  mkTransactionState (in_multi t) (queued_commands t) w.

(** ** EXEC *)
Definition emitted (evs : list out_event) : bytes :=
  mjoin ((fun ev => match ev with Emit b => b | Send _ _ => [] end) <$> evs).
Definition is_send (ev : out_event) : bool := match ev with Send _ _ => true | Emit _ => false end.
Definition sends (evs : list out_event) : list out_event := filter (fun ev => is_send ev = true) evs.

(** Runs a command with its replies going to a buffer of their own. *)
Definition capture {A} (m : M A) : M (A * bytes) := fun e c =>
  match m e (with_out [] c) with
  | Ret (a, c') => Ret ((a, emitted (out c')), with_out (out c ++ sends (out c')) c')
  | Throw x => Throw x
  | Ub u => Ub u
  end.

Definition watch_dirty (t : TransactionState) (st : Store) : bool :=
  existsb (fun kv : bytes * Z => negb (get_key_version kv.1 st =? kv.2)) (map_to_list (watched_keys t)).

Definition not_allowed : bytes := encode_error (bs "ERR command in EXEC not allowed").

Fixpoint exec_loop (has_send : bool) (fd : Z) (queue : list (list bytes)) : M (list bytes) :=
  match queue with
  | [] => mret []
  | args :: queue =>
      cmd ← arg args 0;
      '(st, buf) ← capture (execute_command has_send fd cmd args);
      rest ← exec_loop has_send fd queue;
      mret ((match st with Normal => buf | _ => not_allowed end) :: rest)
  end.

Definition handle_exec (has_send : bool) (fd : Z) : M unit :=
  multi ← tx_in_multi fd;
  if negb multi then emit_error (bs "ERR EXEC without MULTI")
  else
    tx ← tx_get fd;
    c ← get_ctx;
    if watch_dirty tx (ctx_store c) then _ ← tx_clear fd; emit_into encode_null_array_into
    else
      results ← exec_loop has_send fd (queued_commands tx);
      _ ← tx_clear fd;
      emit_into (fun o => encode_raw_array_into o results).

Definition handle_multi (fd : Z) : M unit :=
  multi ← tx_in_multi fd;
  if (multi : bool) then emit_error (bs "ERR MULTI calls can not be nested")
  else
    t ← tx_find fd;
    _ ← tx_put fd (with_multi true (default new_tx t));
    emit kRespOk.

Definition handle_discard (fd : Z) : M unit :=
  multi ← tx_in_multi fd;
  if negb multi then emit_error (bs "ERR DISCARD without MULTI")
  else _ ← tx_clear fd; emit kRespOk.

Definition watch_keys (ks : list bytes) (st : Store) (w : gmap bytes Z) : gmap bytes Z :=
  fold_left (fun w k => <[k := get_key_version k st]> w) ks w.

Definition handle_watch (fd : Z) (args : list bytes) : M unit :=
  if (length args <? 2)%nat then emit_error (bs "ERR wrong number of arguments for 'watch' command")
  else
    multi ← tx_in_multi fd;
    if (multi : bool) then emit_error (bs "ERR WATCH inside MULTI is not allowed")
    else
      t ← tx_get fd;
      c ← get_ctx;
      _ ← tx_put fd (with_watched (watch_keys (drop 1 args) (ctx_store c) (watched_keys t)) t);
      emit kRespOk.

Definition handle_unwatch (fd : Z) : M unit :=
  t ← tx_find fd;
  _ ← match t with
      | Some t => tx_put fd (with_watched ∅ t)
      | None => mret ()
      end;
  emit kRespOk.

(** ** One command *)
Definition kSubscribedAllowed : list bytes :=
  bs <$> ["SUBSCRIBE"; "UNSUBSCRIBE"; "PSUBSCRIBE"; "PUNSUBSCRIBE"; "PING"; "QUIT"; "RESET"]%string.

Definition in_subscribed_mode (fd : Z) (c : CommandContext) : bool :=
  match pubsub_manager c with Some ps => is_subscribed fd ps | None => false end.

Definition default_nopass (c : CommandContext) : bool :=
  match get_user (bs "default") (acl_manager c) with Some u => nopass u | None => false end.

(** Whether the command may run: a client is let in when it has authenticated, or
    when the default user has no password, which is then remembered. *)
Definition check_auth (fd : Z) (cmd : bytes) : M bool :=
  c ← get_ctx;
  if bool_decide (cmd = bs "AUTH") then mret true
  else
    match conn_pool c with
    | Some p =>
        conn ← lift (get_connection fd p);
        if authenticated_ conn then mret true
        else if default_nopass c then _ ← update_conn fd (set_authenticated true) p; mret true
        else mret false
    | None =>
        if bool_decide (fd ∈ authenticated_fds c) then mret true
        else if default_nopass c
             then _ ← modify (with_authenticated ({[ fd ]} ∪ authenticated_fds c)); mret true
             else mret false
    end.

Definition run_checked (has_send : bool) (fd : Z) (args : list bytes) (cmd : bytes) : M result_state :=
  c ← get_ctx;
  _ ← match conn_pool c with
      | Some p => _ ← lift (get_connection fd p); mret ()
      | None => mret ()
      end;
  if bool_decide (cmd = bs "MULTI") then _ ← handle_multi fd; normal
  else if bool_decide (cmd = bs "EXEC") then _ ← handle_exec has_send fd; normal
  else if bool_decide (cmd = bs "DISCARD") then _ ← handle_discard fd; normal
  else if bool_decide (cmd = bs "WATCH") then _ ← handle_watch fd args; normal
  else if bool_decide (cmd = bs "UNWATCH") then _ ← handle_unwatch fd; normal
  else
    multi ← tx_in_multi fd;
    if (multi : bool) then
      t ← tx_get fd;
      _ ← tx_put fd (with_queued (queued_commands t ++ [args]) t);
      _ ← emit kRespQueued;
      normal
    else execute_command has_send fd cmd args.

Definition process_single_command (has_send : bool) (fd : Z) (args : list bytes) (cmd : bytes) : M result_state :=
  match args with
  | [] => _ ← emit_error (bs "ERR empty command"); normal
  | _ =>
      c ← get_ctx;
      if in_subscribed_mode fd c && negb (bool_decide (cmd ∈ kSubscribedAllowed))
      then _ ← emit_error (bs "ERR Can't execute '" ++ cmd ++ bs "' in subscribed mode"); normal
      else
        ok ← check_auth fd cmd;
        if (ok : bool) then run_checked has_send fd args cmd
        else _ ← emit_error (bs "NOAUTH Authentication required."); normal
  end.

(** ** The commands of a buffer *)

(** What is done with a write command's bytes after it ran: they go to the replicas,
    if there are any, and to the log. *)
Definition log_write (raw : bytes) (c : CommandContext) : list bytes * CommandContext :=
  let props := match replica_count_fn c with
               | Some n => if 0 <? n then [raw] else []
               | None => []
               end in
  match aof_manager c with
  | Some m => (props, with_aof (Some (append_to_rewrite_buffer raw m)) (append raw m (files c)) c)
  | None => (props, c)
  end.

(** The loop of [process_with_fd]; [env_at i] is the outside as the [i]-th command
    sees it.  A parsed command consumes at least three bytes. *)
Fixpoint process_loop (fuel : nat) (env_at : nat -> env) (i : nat) (has_send : bool) (fd : Z)
    (input : bytes) (total : nat) (props : list bytes) (c : CommandContext)
  : outcome (ProcessResult * CommandContext) :=
  let finished := Ret (mkProcessResult Normal props (Z.of_nat total), c) in
  match fuel with
  | O => finished
  | S fuel =>
      if (length input <=? total)%nat then finished
      else
        '(r, cmd_args) ← parse_one_into [] (drop total input);
        match r with
        | Unexpected _ => finished
        | Value cmd_len =>
            name ← vec_at cmd_args 0;
            let cmd_name := to_upper name in
            '(st, c) ← process_single_command has_send fd cmd_args cmd_name (env_at i) c;
            let (new_props, c) :=
              if is_write_command cmd_name then log_write (take cmd_len (drop total input)) c else ([], c) in
            match st with
            | Normal =>
                process_loop fuel env_at (S i) has_send fd input (total + cmd_len) (props ++ new_props) c
            | _ => Ret (mkProcessResult st (props ++ new_props) (Z.of_nat (total + cmd_len)), c)
            end
        end
  end.

(** Writing the recorded output to the connections: a reply through the reference to
    the client's own pending output, a message by [send_to]. *)
Definition deliver1 (fd : Z) (p : ConnectionPool) (ev : out_event) : ConnectionPool :=
  match ev with
  | Emit b => match connections_ p !! fd with
              | Some conn => put_conn fd (send_data b conn) p
              | None => p
              end
  | Send fd' b => send_to fd' b p
  end.
Definition deliver (fd : Z) (evs : list out_event) (p : ConnectionPool) : ConnectionPool :=
  fold_left (deliver1 fd) evs p.

Definition process_with_fd (env_at : nat -> env) (has_send : bool) (fd : Z) (input : bytes)
    (c : CommandContext) : outcome (ProcessResult * CommandContext) :=
  let saved := out c in
  c ← match has_send, conn_pool c with
      | true, Some p => p ← get_pending_write fd p; Ret (with_pool (Some p) c)
      | _, _ => Ret c
      end;
  '(r, c) ← process_loop (length input) env_at 0 has_send fd input 0 [] (with_out [] c);
  Ret (r, match has_send, conn_pool c with
          | true, Some p => with_out saved (with_pool (Some (deliver fd (out c) p)) c)
          | true, None =>
              let buf := emitted (out c) in
              with_out (saved ++ sends (out c) ++ (if bool_decide (buf = []) then [] else [Send fd buf])) c
          | false, _ => with_out (saved ++ out c) c
          end).

(** [process]: without a client, for the log at start-up and for a master's commands. *)
Definition process (env_at : nat -> env) (input : bytes) (c : CommandContext)
  : outcome (bytes * CommandContext) :=
  '(_, c') ← process_with_fd env_at false (-1) input (with_out [] c);
  Ret (emitted (out c'), with_out (out c) c').

End handler.
