(* ===== verification/HandlerTypes.v ===== *)
(** * What a command leaves of the keyspace's types

    A command may store a value of another type under a key only once the key has
    expired: a key a client can see never changes its type, and no command removes it.
    The unchecked operations of store/store.cpp ([rpush], [zadd], [set]) would; the
    handlers call them behind a check.  The reading commands change nothing at all except
    that they drop expired entries. *)

From S2P Require Import Prelude Text StreamIds RespCodec Scores SortedSets Store StoreSteps.
From S2P Require Import BlockingManager PubSub Connection Sha256 Acl Doubles Aof Geo Context.
From S2P Require Import StringCommands ListCommands StreamCommands ZsetCommands GeoCommands.
From S2P Require Import PubsubCommands ServerCommands CommandHandler.

(** ** Relations between stores *)

(** The alternative of the variant, as TYPE names it. *)
Definition type_name (v : Val) : bytes :=
  match v with
  | VString _ => bs "string"
  | VList _ => bs "list"
  | VStream _ => bs "stream"
  | VZset _ => bs "zset"
  end.

(** Expired entries may be gone; the versions are those of before. *)
Definition purges (now : Z) (st st' : Store) : Prop :=
  (version_counter_ st' = version_counter_ st /\ key_versions_ st' = key_versions_ st)
  /\ forall k, data_ st' !! k = data_ st !! k \/ (live now k st = None /\ data_ st' !! k = None).

(** What can be seen stays, with its type. *)
Definition types_kept (now : Z) (st st' : Store) : Prop :=
  forall k en, live now k st = Some en ->
  exists en', live now k st' = Some en' /\ type_name (value en') = type_name (value en).

Lemma purges_live now st st' k : purges now st st' -> live now k st' = live now k st.
Proof. intros [_ H]. unfold live in *. destruct (H k) as [->|[Hl ->]]; [done|]. symmetry. exact Hl. Qed.

#[global] Instance purges_preorder now : PreOrder (purges now).
Proof.
  split; [by intros st; split; [|by left]|]. intros s1 s2 s3 H1 H2.
  split; [destruct H1 as [[<- <-] _]; apply H2|]. intros k.
  destruct (proj2 H2 k) as [->|[Hl ->]]; [apply H1|]. rewrite (purges_live _ _ _ k H1) in Hl. by right.
Qed.

#[global] Instance types_preorder now : PreOrder (types_kept now).
Proof.
  split; [intros st k en; eauto|]. intros s1 s2 s3 H1 H2 k en He.
  destruct (H1 k en He) as (e2 & He2 & Ht2). destruct (H2 k e2 He2) as (e3 & He3 & Ht3).
  exists e3. split; [done|congruence].
Qed.

Lemma purges_types now st st' : purges now st st' -> types_kept now st st'.
Proof. intros H k en He. exists en. by rewrite (purges_live _ _ _ _ H). Qed.

Lemma live_stored now k st en : live now k st = Some en -> data_ st !! k = Some en.
Proof. unfold live. destruct (data_ st !! k) as [e|]; [|done]. destruct (is_expired _ e); [done|congruence]. Qed.

(** An operation on one key. *)
Lemma local_types now k st st' :
  (forall k', k' <> k -> data_ st' !! k' = data_ st !! k') ->
  (forall en, live now k st = Some en ->
    exists en', live now k st' = Some en' /\ type_name (value en') = type_name (value en)) ->
  types_kept now st st'.
Proof.
  intros Ho Hk k' en. destruct (decide (k' = k)) as [->|Hne]; [apply Hk|]. unfold live. rewrite Ho by done. eauto.
Qed.

(** ** The reading operations *)
Lemma purges_find now k st : purges now st (find_valid_entry now k st).1.
Proof.
  unfold find_valid_entry. destruct (data_ st !! k) as [e|] eqn:E; [|done]. destruct (is_expired now e) eqn:Ex; [|done].
  split; [done|]. intros k'. cbn. destruct (decide (k' = k)) as [->|Hne].
  - right. split; [|apply lookup_delete_eq]. unfold live. by rewrite E, Ex.
  - left. by rewrite lookup_delete_ne.
Qed.

Lemma purges_typed (T : Type) `{Alternative T} now k st : purges now st (get_typed T now k st).1.
Proof.
  pose proof (purges_find now k st). unfold get_typed. by destruct (find_valid_entry now k st) as [st' [e|]].
Qed.

Lemma purges_keys now st : purges now st (keys now st).1.
Proof.
  split; [done|]. intros k. cbn. rewrite map_lookup_filter. destruct (data_ st !! k) as [e|] eqn:E; cbn; [|by left].
  destruct (is_expired now e) eqn:Ex.
  - right. unfold live. by rewrite E, Ex.
  - left. by rewrite option_guard_True.
Qed.

(** Looks the key [k] up at the type [T]. *)
Ltac typed_read T now k st :=
  pose proof (purges_typed T now k st); destruct (get_typed T now k st) as [st' [x|]]; cbn in *; repeat case_match; done.

Section reads.
  Context (now : Z) (k : bytes) (st : Store).

Lemma purges_get : purges now st (get now k st).1.
Proof. pose proof (purges_find now k st). unfold get. by destruct (find_valid_entry now k st) as [st' [e|]]. Qed.
Lemma purges_llen : purges now st (llen now k st).1.
Proof. unfold llen. typed_read (list bytes) now k st. Qed.
Lemma purges_lrange a b : purges now st (lrange now k a b st).1.
Proof. unfold lrange. typed_read (list bytes) now k st. Qed.
Lemma purges_type : purges now st (get_type now k st).1.
Proof. pose proof (purges_find now k st). unfold get_type. by destruct (find_valid_entry now k st) as [st' [e|]]. Qed.
Lemma purges_xrange a b : purges now st (xrange now k a b st).1.
Proof. unfold xrange. typed_read (list StreamEntry) now k st. Qed.
Lemma purges_xread id : purges now st (xread now k id st).1.
Proof. unfold xread. typed_read (list StreamEntry) now k st. Qed.
Lemma purges_max_id : purges now st (get_stream_max_id now k st).1.
Proof. unfold get_stream_max_id. typed_read (list StreamEntry) now k st. Qed.
Lemma purges_zrank m : purges now st (zrank now k m st).1.
Proof. unfold zrank. typed_read SortedSet now k st. Qed.
Lemma purges_zrange a b : purges now st (zrange now k a b st).1.
Proof. unfold zrange. typed_read SortedSet now k st. Qed.
Lemma purges_zcard : purges now st (zcard now k st).1.
Proof. unfold zcard. typed_read SortedSet now k st. Qed.
Lemma purges_zscore m : purges now st (zscore now k m st).1.
Proof. unfold zscore. typed_read SortedSet now k st. Qed.
Lemma purges_zgetall : purges now st (zgetall now k st).1.
Proof. unfold zgetall. typed_read SortedSet now k st. Qed.
End reads.

Create HintDb purges discriminated.
#[export] Hint Resolve purges_get purges_llen purges_lrange purges_type purges_keys purges_xrange purges_xread
  purges_max_id purges_zrank purges_zrange purges_zcard purges_zscore purges_zgetall : purges.

(** ** The writing operations *)

(** The other keys. *)
Ltac elsewhere :=
  intros k' Hk'; repeat case_match; simplify_eq/=; unfold map_emplace; repeat case_match; simplify_eq/=;
  rewrite ?lookup_insert_ne, ?lookup_delete_ne by done; done.

(** The key itself, where a client sees [en]. *)
Ltac seen k st en :=
  unfold live; destruct (data_ st !! k) as [e|] eqn:Hk; [|done];
  destruct (is_expired _ e) eqn:Hx; [done|]; intros [= <-].

(** The entry at the key is replaced by one with the same type and expiry time. *)
Lemma replaced (now : Z) (k : bytes) (v : Val) (exp : option Z) (en : Entry) (m : gmap bytes Entry) :
  is_expired now en = false -> exp = expiry en -> type_name v = type_name (value en) ->
  exists en', match <[k := mkEntry v exp]> m !! k with
              | Some e => if is_expired now e then None else Some e
              | None => None
              end = Some en' /\ type_name (value en') = type_name (value en).
Proof.
  intros Hx -> Ht. exists (mkEntry v (expiry en)). rewrite lookup_insert_eq.
  unfold is_expired in *. cbn. by rewrite Hx.
Qed.

Lemma untouched (now : Z) (k : bytes) (en : Entry) (m : gmap bytes Entry) :
  m !! k = Some en -> is_expired now en = false ->
  exists en', match m !! k with Some e => if is_expired now e then None else Some e | None => None end = Some en'
    /\ type_name (value en') = type_name (value en).
Proof. intros -> ->. eauto. Qed.

Lemma string_type (v : Val) (x y : bytes) : alt_get_if v = Some x -> type_name (VString y) = type_name v.
Proof. by destruct v. Qed.
Lemma list_type (v : Val) (x y : list bytes) : alt_get_if v = Some x -> type_name (VList y) = type_name v.
Proof. by destruct v. Qed.
Lemma stream_type (v : Val) (x y : list StreamEntry) : alt_get_if v = Some x -> type_name (VStream y) = type_name v.
Proof. by destruct v. Qed.
Lemma zset_type (v : Val) (x y : SortedSet) : alt_get_if v = Some x -> type_name (VZset y) = type_name v.
Proof. by destruct v. Qed.

Section writes.
  Context (now : Z) (k : bytes) (st : Store).

Lemma types_incr : types_kept now st (incr_if_valid_type now k st).1.
Proof.
  apply (local_types now k); unfold incr_if_valid_type; [elsewhere|]. intros en. seen k st en. cbn [negb].
  destruct (alt_get_if (value e)) as [s|] eqn:Es; [|by apply untouched].
  destruct (parse_int64 s) as [n|]; [|by apply untouched]. destruct (n =? INT64_MAX); [by apply untouched|].
  apply replaced; [done..|]. by eapply string_type.
Qed.

Lemma types_push_if_valid p v : types_kept now st (push_if_valid_type p now k v st).1.
Proof.
  apply (local_types now k); unfold push_if_valid_type; [elsewhere|]. intros en. seen k st en. cbn [negb].
  destruct (alt_get_if (value e)) as [l|] eqn:El; [|by apply untouched].
  apply replaced; [done..|]. by eapply list_type.
Qed.

Lemma types_zadd_if_valid s m : types_kept now st (zadd_if_valid_type now k s m st).1.
Proof.
  apply (local_types now k); unfold zadd_if_valid_type; [elsewhere|]. intros en. seen k st en. cbn [negb].
  destruct (alt_get_if (value e)) as [z|] eqn:Ez; [|by apply untouched]. destruct (zset_add s m z) as [z' r].
  apply replaced; [done..|]. by eapply zset_type.
Qed.

(** Where the key is looked up after its version was raised. *)
Ltac lookup_first := unfold find_valid_entry; cbn [data_ touch_key set_data].

Lemma types_pop take1 : types_kept now st (pop take1 now k st).1.
Proof.
  apply (local_types now k); unfold pop, list_entry; lookup_first; [elsewhere|]. intros en. seen k st en. cbn [fst].
  destruct (alt_get_if (value e)) as [l|] eqn:El; cbn; [|by apply untouched].
  destruct (take1 l) as [[x l']|]; [|by apply untouched]. apply replaced; [done..|]. by eapply list_type.
Qed.

Lemma types_pop_n take1 count : types_kept now st (pop_n take1 now k count st).1.
Proof.
  apply (local_types now k); unfold pop_n, list_entry; lookup_first; [elsewhere|]. intros en. seen k st en. cbn [fst].
  destruct (alt_get_if (value e)) as [l|] eqn:El; cbn; [|by apply untouched].
  destruct l as [|x l]; [by apply untouched|]. destruct (count <=? 0); [by apply untouched|].
  destruct (pop_loop _ _ _ _) as [l' result]. apply replaced; [done..|]. by eapply list_type.
Qed.

Lemma types_zrem m : types_kept now st (zrem now k m st).1.
Proof.
  apply (local_types now k); unfold zrem; lookup_first; [elsewhere|]. intros en. seen k st en.
  destruct (alt_get_if (value e)) as [z|] eqn:Ez; cbn; [|by apply untouched].
  destruct (zset_remove m z) as [z' r]. apply replaced; [done..|]. by eapply zset_type.
Qed.

Lemma xadd_stores sys id flds st' r :
  xadd now sys k id flds st = Ret (st', r) ->
  let '(st1, (s, exp)) := get_or_create_typed (list StreamEntry) now k (touch_key k st) in
  st' = st1 \/ exists s', st' = put_value k (VStream s') exp st1.
Proof.
  unfold xadd. destruct (get_or_create_typed _ now k _) as [st1 [s exp]]. intros H.
  destruct (xadd_choose_id sys id s) as [[err|[[ts seq] final]]| |]; cbn [mbind outcome_bind] in H;
    repeat case_match; simplify_eq; eauto.
Qed.

Lemma types_xadd_if_valid sys id flds st' r :
  xadd_if_valid_type now sys k id flds st = Ret (st', r) -> types_kept now st st'.
Proof.
  unfold xadd_if_valid_type. destruct (match data_ st !! k with Some _ => _ | None => _ end) eqn:Hw;
    [by intros [= <- <-]|]. destruct (xadd now sys k id flds st) as [[st2 r2]| |] eqn:Ex; [|done..].
  intros [= <- <-]. apply xadd_stores in Ex. unfold get_or_create_typed, find_valid_entry in Ex.
  cbn [data_ touch_key] in Ex. apply (local_types now k).
  - intros k' Hk'. repeat case_match; simplify_eq/=; destruct Ex as [->|[s' ->]]; cbn;
      by rewrite ?lookup_insert_ne, ?lookup_delete_ne by done.
  - intros en. seen k st en. cbn [negb andb] in Hw. unfold holds_alternative in Hw.
    destruct (alt_get_if (value e)) as [s|] eqn:Es; [|done]. destruct Ex as [->|[s' ->]]; [by apply untouched|].
    apply replaced; [done..|]. by eapply stream_type.
Qed.

(** The unchecked operations, where a check came first: what is seen at the key is of
    the type they store. *)
Definition seen_as (t : bytes) : Prop := forall en, live now k st = Some en -> type_name (value en) = t.

Lemma types_push p v : seen_as (bs "list") -> types_kept now st (push p now k v st).1.
Proof.
  intros Ht. apply (local_types now k); unfold push, get_or_create_typed; lookup_first; [elsewhere|].
  intros en Hen. specialize (Ht en Hen). revert Hen. seen k st en. cbn [fst].
  assert (exists l : list bytes, alt_get_if (value e) = Some l) as [l El] by (destruct (value e); [done|by eexists|done..]).
  rewrite El. apply replaced; [done..|]. by eapply list_type.
Qed.

Lemma types_zadd s m : seen_as (bs "zset") -> types_kept now st (zadd now k s m st).1.
Proof.
  intros Ht. apply (local_types now k); unfold zadd, get_or_create_typed; lookup_first; [elsewhere|].
  intros en Hen. specialize (Ht en Hen). revert Hen. seen k st en. cbn [fst].
  assert (exists z : SortedSet, alt_get_if (value e) = Some z) as [z Ez] by (destruct (value e); [done..|by eexists]).
  rewrite Ez. destruct (zset_add s m z) as [z' r]. apply replaced; [done..|]. by eapply zset_type.
Qed.

Lemma types_set v : seen_as (bs "string") -> types_kept now st (set_data <[k := mkEntry (VString v) None]> (touch_key k st)).
Proof.
  intros Ht. apply (local_types now k); [elsewhere|]. intros en Hen. specialize (Ht en Hen).
  unfold live. cbn. rewrite lookup_insert_eq. eexists. split; [done|]. by rewrite Ht.
Qed.

Lemma types_set_if_valid v ttl st' r :
  set_if_valid_type now k v ttl st = Ret (st', r) ->
  forall k' en, live now k' st = Some en ->
  exists en', data_ st' !! k' = Some en' /\ type_name (value en') = type_name (value en).
Proof.
  unfold set_if_valid_type, holds_alternative. intros H k' en. destruct (decide (k' = k)) as [->|Hne].
  - seen k st en. cbn [negb] in H. destruct (alt_get_if (value e)) as [s|] eqn:Es; cbn [negb] in H.
    + destruct (expiry_opt now ttl); cbn [mbind outcome_bind] in H; simplify_eq. eexists. split; [apply lookup_insert_eq|].
      by eapply string_type.
    + simplify_eq. eauto.
  - unfold live. intros Hl. exists en. split; [|done]. revert Hl.
    assert (data_ st' !! k' = data_ st !! k') as ->; [|repeat case_match; congruence].
    repeat (case_match; simplify_eq/=; try done); destruct (expiry_opt now ttl); simplify_eq/=; unfold map_emplace;
      repeat case_match; simplify_eq/=; by rewrite ?lookup_insert_ne, ?lookup_delete_ne by done.
Qed.
End writes.

(** What is seen at the key after the operations that store a list or a sorted set. *)
Section stored.
  Context (now : Z) (k : bytes) (st : Store).

Lemma seen_push p v : seen_as now k (push p now k v st).1 (bs "list").
Proof.
  unfold push. destruct (get_or_create_typed _ now k _) as [st' [l exp]]. intros en. unfold live. cbn.
  rewrite lookup_insert_eq. case_match; [done|]. by intros [= <-].
Qed.

Lemma seen_zadd s m : seen_as now k (zadd now k s m st).1 (bs "zset").
Proof.
  unfold zadd. destruct (get_or_create_typed _ now k _) as [st' [z exp]]. destruct (zset_add s m z) as [z' r].
  intros en. unfold live. cbn. rewrite lookup_insert_eq. case_match; [done|]. by intros [= <-].
Qed.

Lemma seen_push_if_valid p v st' n :
  push_if_valid_type p now k v st = (st', Some n) -> seen_as now k st' (bs "list").
Proof.
  unfold push_if_valid_type. intros H en. unfold live.
  assert (exists l exp, data_ st' !! k = Some (mkEntry (VList l) exp)) as (l & exp & ->);
    [|destruct (is_expired now _); [done|]; by intros [= <-]].
  repeat case_match; simplify_eq/=; unfold map_emplace; rewrite ?lookup_delete_eq; cbn;
    try (do 2 eexists; apply lookup_insert_eq).
  case_match; [congruence|]. do 2 eexists; apply lookup_insert_eq.
Qed.

Lemma seen_zadd_if_valid s m st' n :
  zadd_if_valid_type now k s m st = (st', Some n) -> seen_as now k st' (bs "zset").
Proof.
  unfold zadd_if_valid_type. intros H en. unfold live.
  assert (exists z exp, data_ st' !! k = Some (mkEntry (VZset z) exp)) as (z & exp & ->);
    [|destruct (is_expired now _); [done|]; by intros [= <-]].
  repeat case_match; simplify_eq/=; unfold map_emplace; rewrite ?lookup_delete_eq; cbn;
    try (do 2 eexists; apply lookup_insert_eq).
  case_match; [congruence|]. do 2 eexists; apply lookup_insert_eq.
Qed.

Lemma seen_pop_n take1 count t : seen_as now k st t -> seen_as now k (pop_n take1 now k count st).1 t.
Proof.
  intros Hs en Hen. destruct (live now k st) as [e0|] eqn:E0.
  - destruct (types_pop_n now k st take1 count k e0 E0) as (en' & Hen' & Ht).
    assert (en' = en) as -> by congruence. rewrite Ht. by apply Hs.
  - exfalso. revert Hen E0. unfold pop_n, list_entry, find_valid_entry, live. cbn [data_ touch_key].
    destruct (data_ st !! k) as [e|] eqn:E; [destruct (is_expired now e) eqn:Ex|]; cbn;
      rewrite ?lookup_delete_eq; try done. rewrite E. done.
Qed.

Lemma seen_checked (T : Type) `{Alternative T} t :
  (forall v, holds_alternative T v = true -> type_name v = t) ->
  key_is_absent_or_holds T now k st = true -> seen_as now k st t.
Proof.
  intros Ht Hk en. unfold key_is_absent_or_holds, live in *. destruct (data_ st !! k) as [e|]; [|done].
  unfold is_expired. destruct (expiry e) as [x|] eqn:Ex; [|intros [= <-]; by apply Ht].
  destruct (x <=? now) eqn:El; [done|]. intros [= <-]. b2p. destruct (x <? now) eqn:E'; b2p; [lia|by apply Ht].
Qed.
End stored.

Create HintDb types discriminated.
#[export] Hint Resolve types_incr types_push_if_valid types_zadd_if_valid types_zrem : types.
#[export] Hint Extern 1 (types_kept _ _ (lpop _ _ _).1) => apply types_pop : types.
#[export] Hint Extern 1 (types_kept _ _ (rpop _ _ _).1) => apply types_pop : types.
#[export] Hint Extern 1 (types_kept _ _ (lpop_n _ _ _ _).1) => apply types_pop_n : types.
#[export] Hint Extern 1 (types_kept _ _ (rpop_n _ _ _ _).1) => apply types_pop_n : types.

(** ** Actions that keep a relation *)
Definition ctx_rel : Type := Z -> CommandContext -> CommandContext -> Prop.

Class CtxPreorder (R : ctx_rel) := {
  cp_order now :: PreOrder (R now);
  cp_emit now c b : R now c (with_out (out c ++ [Emit b]) c)
}.

Definition keeps (R : ctx_rel) {A} (m : M A) : Prop :=
  forall e c a c', m e c = Ret (a, c') -> R (steady_now e) c c'.

(** The stores keep their types. *)
Definition types_of : ctx_rel := fun now c c' => types_kept now (ctx_store c) (ctx_store c').

(** The stores are the same. *)
Definition store_of : ctx_rel := fun _ c c' => ctx_store c' = ctx_store c.

(** Replies are added, expired entries may be gone, and nothing else changes. *)
Definition reads_of : ctx_rel := fun now c c' =>
  exists st replies, c' = with_out (out c ++ (Emit <$> replies)) (with_store st c) /\ purges now (ctx_store c) st.

#[export] Instance types_of_preorder : CtxPreorder types_of.
Proof.
  split; [|intros now c b; unfold types_of; reflexivity]. intros now. unfold types_of. split; [intros c; reflexivity|]. intros c1 c2 c3 H1 H2. by etransitivity.
Qed.

#[export] Instance store_of_preorder : CtxPreorder store_of.
Proof. split; [|done]. intros now. split; [done|]. intros c1 c2 c3 H1 H2. unfold store_of in *. congruence. Qed.

#[export] Instance reads_of_preorder : CtxPreorder reads_of.
Proof.
  split; [|intros now c b; exists (ctx_store c), [b]; (split; [by destruct c|reflexivity])]. intros now. split.
  - intros c. exists (ctx_store c), []. split; [|reflexivity]. cbn [fmap list_fmap]. rewrite app_nil_r. by destruct c.
  - intros c1 c2 c3 (st & r1 & -> & H1) (st' & r2 & -> & H2). exists st', (r1 ++ r2). split; [|by etransitivity].
    cbn [out with_out]. by rewrite fmap_app, app_assoc.
Qed.

Section rules.
  Context (R : ctx_rel) `{!CtxPreorder R}.

Lemma keeps_ret {A} (a : A) : keeps R (mret a).
Proof. by intros e c x c' [= <- <-]. Qed.
Lemma keeps_lift {A} (o : outcome A) : keeps R (lift o).
Proof. intros e c a c'. unfold lift. destruct o; by intros [= <- <-]. Qed.
Lemma keeps_get_ctx : keeps R get_ctx.
Proof. by intros e c a c' [= <- <-]. Qed.
Lemma keeps_ask : keeps R ask.
Proof. by intros e c a c' [= <- <-]. Qed.
Lemma keeps_emit b : keeps R (emit b).
Proof. intros e c a c' [= <- <-]. apply cp_emit. Qed.

Lemma keeps_bind {A B} (m : M A) (f : A -> M B) : keeps R m -> (forall a, keeps R (f a)) -> keeps R (m ≫= f).
Proof.
  intros Hm Hf e c b c' H. unfold mbind, M_bind in H. destruct (m e c) as [[a c1]| |] eqn:E; [|done..].
  transitivity c1; [by eapply Hm|by eapply Hf].
Qed.

Lemma keeps_on_store {A} (f : Z -> Store -> Store * A) :
  (forall now c, R now c (with_store (f now (ctx_store c)).1 c)) -> keeps R (on_store f).
Proof.
  intros Hf e c a c'. unfold on_store. specialize (Hf (steady_now e) c).
  destruct (f _ _) as [st x]. intros [= <- <-]. exact Hf.
Qed.
End rules.

Lemma types_send has_send fd b : keeps types_of (send_client has_send fd b).
Proof.
  intros e c a c'. unfold send_client. destruct has_send; [|done]. intros [= <- <-]. unfold types_of. reflexivity.
Qed.

Lemma store_modify f : (forall c, ctx_store (f c) = ctx_store c) -> keeps store_of (modify f).
Proof. intros Hf e c a c' [= <- <-]. apply Hf. Qed.

Lemma types_modify f : (forall c, ctx_store (f c) = ctx_store c) -> keeps types_of (modify f).
Proof. intros Hf e c a c' [= <- <-]. unfold types_of. by rewrite Hf. Qed.

Lemma types_on_store {A} (f : Z -> Store -> Store * A) :
  (forall now st, types_kept now st (f now st).1) -> keeps types_of (on_store f).
Proof. intros Hf. apply keeps_on_store. intros now c. apply Hf. Qed.

Lemma reads_on_store {A} (f : Z -> Store -> Store * A) :
  (forall now st, purges now st (f now st).1) -> keeps reads_of (on_store f).
Proof.
  intros Hf. apply keeps_on_store. intros now c. exists (f now (ctx_store c)).1, []. split; [|apply Hf].
  cbn [fmap list_fmap]. rewrite app_nil_r. by destruct c.
Qed.

Create HintDb keeps discriminated.
#[export] Hint Resolve keeps_ret keeps_lift keeps_get_ctx keeps_ask keeps_emit types_send : keeps.
#[export] Hint Extern 2 (CtxPreorder _) => typeclasses eauto : keeps.
#[export] Hint Extern 2 (keeps store_of (modify _)) => (apply store_modify; intros ?; reflexivity) : keeps.
#[export] Hint Extern 2 (keeps types_of (modify _)) => (apply types_modify; intros ?; reflexivity) : keeps.
#[export] Hint Extern 3 (keeps types_of (on_store _)) =>
  (apply types_on_store; intros ? ?; first [solve [auto 2 with types nocore] | apply purges_types; solve [auto 2 with purges nocore]]) : keeps.
#[export] Hint Extern 3 (keeps reads_of (on_store _)) =>
  (apply reads_on_store; intros ? ?; solve [auto 2 with purges nocore]) : keeps.

(** Follows the structure of a handler. *)
Ltac keep :=
  repeat first
    [ progress cbv zeta
    | progress unfold emit_error, emit_integer, emit_bulk, emit_null_bulk, emit_array, emit_into, arg, normal
    | match goal with |- keeps _ (mbind _ _) => apply keeps_bind; [typeclasses eauto| |intros ?] end
    | solve [auto 3 with keeps nocore]
    | match goal with |- keeps _ (match ?x with _ => _ end) => destruct x eqn:? end ].

(** ** The reading commands *)
Definition kReadCommands : list bytes :=
  bs <$> ["PING"; "ECHO"; "GET"; "LLEN"; "LRANGE"; "TYPE"; "KEYS"; "ZRANK"; "ZRANGE"; "ZCARD"; "ZSCORE";
          "GEOPOS"; "GEODIST"; "GEOSEARCH"; "XRANGE"; "INFO"]%string.

(** ** Handlers whose later steps rely on a check *)
Lemma types_same now c c' : ctx_store c' = ctx_store c -> types_of now c c'.
Proof. intros Hc. unfold types_of. rewrite Hc. reflexivity. Qed.
#[local] Hint Extern 0 (types_of _ _ _) => (apply types_same; reflexivity) : core.

Lemma arg_bind {A} args i (f : bytes -> M A) e c r :
  (arg args i ≫= f) e c = Ret r -> exists x, f x e c = Ret r.
Proof. rewrite bind_eq. unfold arg, lift. destruct (vec_at args i) as [x| |]; [|done..]. eauto. Qed.

Section checked.
  Context (e : env).
  Notation now := (steady_now e).

Lemma push_loop_types ops p k vs :
  next_push ops = push p -> forall count c a c', seen_as now k (ctx_store c) (bs "list") ->
  push_loop ops k vs count e c = Ret (a, c') -> types_of now c c'.
Proof.
  intros Hops. induction vs as [|v vs IH]; intros count c a c' Hs; cbn [push_loop]; [by intros [= <- <-]|].
  rewrite bind_eq. unfold on_store. rewrite Hops.
  pose proof (types_push now k (ctx_store c) p v Hs) as Ht. pose proof (seen_push now k (ctx_store c) p v) as Hs'.
  destruct (push p now k v (ctx_store c)) as [st n]. intros H. cbn [fst] in *.
  unfold types_of. etransitivity; [exact Ht|]. by apply (IH n (with_store st c) a c').
Qed.

Lemma try_wake_types has_send k c a c' t :
  seen_as now k (ctx_store c) t -> try_wake has_send k e c = Ret (a, c') ->
  types_of now c c' /\ seen_as now k (ctx_store c') t.
Proof.
  intros Hs. unfold try_wake. mstep. destruct (blocking_manager c) as [bm|]; [|by intros [= <- <-]].
  destruct (wake_client k bm) as [bm' [client|]]; mstep; [|by intros [= <- <-]].
  unfold on_store. cbn [ctx_store with_blocking].
  pose proof (types_pop_n now k (ctx_store c) pop_front 1) as Ht.
  pose proof (seen_pop_n now k (ctx_store c) pop_front 1 t Hs) as Hs'.
  change (lpop_n now k 1 (ctx_store c)) with (pop_n pop_front now k 1 (ctx_store c)).
  destruct (pop_n pop_front now k 1 (ctx_store c)) as [st [|x xs]]; cbn [fst] in *; mstep.
  - intros [= <- <-]. by split.
  - destruct has_send; [|done]. intros [= <- <-]. by split.
Qed.

Lemma push_wake_loop_types ops p has_send k vs :
  next_push ops = push p -> forall count c a c', seen_as now k (ctx_store c) (bs "list") ->
  push_wake_loop ops has_send k vs count e c = Ret (a, c') -> types_of now c c'.
Proof.
  intros Hops. induction vs as [|v vs IH]; intros count c a c' Hs; cbn [push_wake_loop]; [by intros [= <- <-]|].
  rewrite bind_eq. destruct (try_wake has_send k e c) as [[woken c1]| |] eqn:Ew; [|done..].
  destruct (try_wake_types has_send k c woken c1 _ Hs Ew) as [Ht1 Hs1].
  destruct woken; intros H; unfold types_of; (etransitivity; [exact Ht1|]); [by apply (IH count c1 a c')|].
  revert H. rewrite bind_eq. unfold on_store. rewrite Hops.
  pose proof (types_push now k (ctx_store c1) p v Hs1) as Ht. pose proof (seen_push now k (ctx_store c1) p v) as Hs'.
  destruct (push p now k v (ctx_store c1)) as [st n]. intros H. cbn [fst] in *.
  etransitivity; [exact Ht|]. by apply (IH n (with_store st c1) a c').
Qed.

Lemma push_types ops p args c a c' :
  first_push ops = push_if_valid_type p -> next_push ops = push p ->
  handle_push ops args e c = Ret (a, c') -> types_of now c c'.
Proof.
  intros H1 H2. unfold handle_push. intros [k [v H]%arg_bind]%arg_bind. revert H.
  rewrite bind_eq. unfold on_store. rewrite H1.
  pose proof (types_push_if_valid now k (ctx_store c) p v) as Ht.
  destruct (push_if_valid_type p now k v (ctx_store c)) as [st [n|]] eqn:Ep; cbn [fst] in *;
    [|by intros [= <- <-]].
  apply seen_push_if_valid in Ep. rewrite bind_eq.
  destruct (push_loop ops k (drop 3 args) n e (with_store st c)) as [[m c1]| |] eqn:El; [|done..].
  intros [= <- <-]. unfold types_of. etransitivity; [exact Ht|].
  by apply (push_loop_types ops p k (drop 3 args) H2 n (with_store st c) m c1).
Qed.

Lemma push_blocking_types ops p has_send args c a c' :
  first_push ops = push_if_valid_type p -> next_push ops = push p ->
  handle_push_with_blocking ops has_send args e c = Ret (a, c') -> types_of now c c'.
Proof.
  intros H1 H2. unfold handle_push_with_blocking. intros [k [v H]%arg_bind]%arg_bind. revert H.
  rewrite bind_eq. unfold on_store. rewrite H1.
  pose proof (types_push_if_valid now k (ctx_store c) p v) as Ht.
  destruct (push_if_valid_type p now k v (ctx_store c)) as [st [n|]] eqn:Ep; cbn [fst] in *;
    [|by intros [= <- <-]].
  apply seen_push_if_valid in Ep. rewrite bind_eq.
  destruct (try_wake has_send k e (with_store st c)) as [[w c1]| |] eqn:Ew; [|done..].
  destruct (try_wake_types has_send k (with_store st c) w c1 _ Ep Ew) as [Ht1 Hs1]. rewrite bind_eq.
  destruct (push_wake_loop ops has_send k (drop 3 args) n e c1) as [[m c2]| |] eqn:El; [|done..].
  intros [= <- <-]. unfold types_of. etransitivity; [exact Ht|]. etransitivity; [exact Ht1|].
  by apply (push_wake_loop_types ops p has_send k (drop 3 args) H2 n c1 m c2).
Qed.

Lemma zadd_loop_types k l : forall added c a c', seen_as now k (ctx_store c) (bs "zset") ->
  zadd_loop k l added e c = Ret (a, c') -> types_of now c c'.
Proof.
  induction l as [|s|s m l IH] using pair_list_ind; intros added c a c' Hs; cbn [zadd_loop].
  - by intros [= <- <-].
  - destruct (parse_double s); [done|]. by intros [= <- <-].
  - destruct (parse_double s) as [score|]; [|by intros [= <- <-]]. rewrite bind_eq. unfold on_store.
    pose proof (types_zadd now k (ctx_store c) score m Hs) as Ht. pose proof (seen_zadd now k (ctx_store c) score m) as Hs'.
    destruct (zadd now k score m (ctx_store c)) as [st n]. intros H. cbn [fst] in *.
    unfold types_of. etransitivity; [exact Ht|]. by apply (IH (added + n) (with_store st c) a c').
Qed.

Lemma zadd_types args c a c' : handle_zadd args e c = Ret (a, c') -> types_of now c c'.
Proof.
  unfold handle_zadd. intros [k [s H]%arg_bind]%arg_bind. revert H.
  destruct (parse_double s) as [score|]; [|by intros [= <- <-]]. intros [m H]%arg_bind. revert H.
  rewrite bind_eq. unfold on_store.
  pose proof (types_zadd_if_valid now k (ctx_store c) score m) as Ht.
  destruct (zadd_if_valid_type now k score m (ctx_store c)) as [st [n|]] eqn:Ep; cbn [fst] in *;
    [|by intros [= <- <-]].
  apply seen_zadd_if_valid in Ep. rewrite bind_eq.
  destruct (zadd_loop k (drop 4 args) n e (with_store st c)) as [[r c1]| |] eqn:El; [|done..].
  apply zadd_loop_types in El; [|done].
  intros H. assert (ctx_store c' = ctx_store c1) as Hc by (destruct r; by injection H as <- <-).
  unfold types_of. rewrite Hc. etransitivity; [exact Ht|exact El].
Qed.

Lemma geoadd_types args c a c' : handle_geoadd args e c = Ret (a, c') -> types_of now c c'.
Proof.
  unfold handle_geoadd. intros [k H]%arg_bind. revert H. mstep.
  destruct (key_is_absent_or_holds SortedSet now k (ctx_store c)) eqn:Hk; cbn [negb]; [|by intros [= <- <-]].
  apply (seen_checked now k _ SortedSet (bs "zset")) in Hk; [|by intros []].
  intros [x [y H]%arg_bind]%arg_bind. revert H.
  destruct (parse_double x), (parse_double y); try by intros [= <- <-].
  destruct (_ || _); [by intros [= <- <-]|]. rewrite bind_eq. unfold lift.
  destruct (Geo.encode _ _) as [cell| |]; [|done..]. intros [m H]%arg_bind. revert H.
  rewrite bind_eq. unfold on_store. pose proof (types_zadd now k (ctx_store c) (double_of_Z cell) m Hk) as Ht.
  destruct (zadd now k (double_of_Z cell) m (ctx_store c)) as [st n]. by intros [= <- <-].
Qed.

Lemma mset_loop_types l : forall st st', mset_check now l st = true -> mset_loop now l st = Ret st' -> types_kept now st st'.
Proof.
  assert (Hstr : forall v, holds_alternative bytes v = true -> type_name v = bs "string") by (by intros []).
  assert (Hgo : forall l st st',
    Forall (fun kv => seen_as now kv.1 st (bs "string")) (pairs_of l) -> mset_loop now l st = Ret st' -> types_kept now st st').
  { clear l. induction l as [|k|k v l IH] using pair_list_ind; intros st st' Hs; cbn [mset_loop];
      [intros [= <-]; reflexivity..|]. cbn [pairs_of] in Hs. apply Forall_cons in Hs as [Hk Hs]. cbn [fst] in Hk.
    unfold set. cbn [expiry_opt mbind outcome_bind]. intros H.
    etransitivity; [by apply (types_set now k st v)|]. apply (IH _ _); [|exact H].
    eapply Forall_impl; [exact Hs|]. intros [k' v'] Hk'. cbn [fst] in *. intros en. unfold live. cbn.
    destruct (decide (k' = k)) as [->|Hne].
    - rewrite lookup_insert_eq. by intros [= <-].
    - rewrite lookup_insert_ne by done. apply Hk'. }
  intros st st' Hc. apply Hgo. clear Hgo. revert Hc. induction l as [|k|k v l IH] using pair_list_ind; [constructor..|].
  cbn [mset_check pairs_of]. intros [H1 H2]%andb_true_iff. constructor; [|by apply IH].
  by apply (seen_checked now k st bytes).
Qed.

Lemma mset_types args c a c' : handle_mset args e c = Ret (a, c') -> types_of now c c'.
Proof.
  unfold handle_mset. destruct (Nat.odd _); [by intros [= <- <-]|]. mstep.
  destruct (mset_check now _ _) eqn:Hc; [|by intros [= <- <-]]. rewrite bind_eq. unfold on_store_o.
  destruct (mset_loop now _ _) as [st| |] eqn:Hm; cbn [mbind outcome_bind]; [|done..]. intros [= <- <-].
  by apply mset_loop_types in Hm.
Qed.
End checked.

Lemma xadd_store_types k id flds :
  keeps types_of (on_store_o (fun e => xadd_if_valid_type (steady_now e) (sys_ms e) k id flds)).
Proof.
  intros e c a c'. unfold on_store_o. destruct (xadd_if_valid_type _ _ _ _ _ _) as [[st r]| |] eqn:Ex; [|done..].
  intros [= <- <-]. by apply types_xadd_if_valid in Ex.
Qed.

Lemma wake_readers_types fuel has_send k id : keeps types_of (wake_readers fuel has_send k id).
Proof. induction fuel as [|fuel IH]; cbn [wake_readers]; keep. Qed.

Lemma xadd_types has_send args : keeps types_of (handle_xadd_with_blocking has_send args).
Proof. unfold handle_xadd_with_blocking. keep; auto using xadd_store_types, wake_readers_types. Qed.

Lemma read_streams_types dollar ks ids : keeps types_of (read_streams dollar ks ids).
Proof. revert ids. induction ks as [|k ks IH]; intros [|id ids]; cbn [read_streams]; keep; auto. Qed.

Lemma send_all_types fds m : keeps types_of (send_all fds m).
Proof. induction fds; cbn [send_all]; keep. Qed.

Lemma pop_types args : keeps types_of (handle_lpop args) /\ keeps types_of (handle_rpop args).
Proof.
  unfold handle_lpop, handle_rpop, handle_pop, emit_popped. split; keep.
Qed.

Lemma mset_keeps args : keeps types_of (handle_mset args).
Proof. intros e c a c'. apply mset_types. Qed.
Lemma zadd_keeps args : keeps types_of (handle_zadd args).
Proof. intros e c a c'. apply zadd_types. Qed.
Lemma geoadd_keeps args : keeps types_of (handle_geoadd args).
Proof. intros e c a c'. apply geoadd_types. Qed.
Lemma push_keeps has_send fd args :
  keeps types_of (push_entry handle_rpush_with_blocking handle_rpush has_send fd args)
  /\ keeps types_of (push_entry handle_lpush_with_blocking handle_lpush has_send fd args).
Proof.
  assert (Hgo : forall ops p, first_push ops = push_if_valid_type p -> next_push ops = push p ->
    keeps types_of (push_entry (handle_push_with_blocking ops) (handle_push ops) has_send fd args)).
  { intros ops p H1 H2. unfold push_entry. destruct has_send.
    - intros e c a c'. by apply (push_blocking_types e ops p).
    - keep. intros e c a c'. by apply (push_types e ops p). }
  split; [by apply (Hgo rpush_ops push_back)|by apply (Hgo lpush_ops push_front)].
Qed.

#[export] Hint Resolve mset_keeps zadd_keeps geoadd_keeps xadd_types read_streams_types send_all_types : keeps.
#[export] Hint Extern 1 (keeps types_of (handle_lpop _)) => apply pop_types : keeps.
#[export] Hint Extern 1 (keeps types_of (handle_rpop _)) => apply pop_types : keeps.
#[export] Hint Extern 1 (keeps types_of (push_entry _ _ _ _ _)) => apply push_keeps : keeps.

Section execute.
  Context (sin cos asin : double -> double).
  Notation execute_command := (execute_command sin cos asin).

Lemma keeps_entry R `{!CtxPreorder R} has_send fd cmd args :
  (forall en, find_command sin cos asin cmd = Some en -> keeps R (handler en has_send fd args)) ->
  keeps R (execute_command has_send fd cmd args).
Proof.
  intros He. unfold CommandHandler.execute_command. destruct (find_command sin cos asin cmd) as [en|]; keep.
  by apply He.
Qed.

Lemma geopos_reads R `{!CtxPreorder R} k ms :
  (forall k m, keeps R (on_store (fun now => zscore now k m))) -> keeps R (geopos_loop k ms).
Proof. intros Hs. induction ms as [|m ms IH]; cbn [geopos_loop]; keep; auto. Qed.

Lemma reads_execute has_send fd cmd args :
  cmd ∈ kReadCommands -> keeps reads_of (execute_command has_send fd cmd args).
Proof.
  intros Hcmd. apply keeps_entry; [apply _|]. intros en.
  unfold kReadCommands in Hcmd. cbn [fmap list_fmap] in Hcmd. rewrite !elem_of_cons, elem_of_nil in Hcmd.
  assert (Hgeo : forall k, keeps reads_of (geopos_loop k (drop 2 args))).
  { intros k. apply geopos_reads; [apply _|]. intros. keep. }
  repeat destruct Hcmd as [->|Hcmd]; [..|done];
    intros [= <-]; unfold plain, plain_fd, on_first, handle_ping, handle_echo, handle_get, handle_lrange, handle_zrank,
      handle_zrange, handle_zcard, handle_zscore, handle_geopos, handle_geodist, handle_geosearch, handle_xrange,
      handle_info; cbn [CommandHandler.handler]; keep; auto.
Qed.

(** SET may store a value that expires at once; every other command leaves what is seen
    visible. *)
Lemma types_execute has_send fd cmd args :
  cmd <> bs "SET" -> keeps types_of (execute_command has_send fd cmd args).
Proof.
  intros Hset. apply keeps_entry; [apply _|]. intros en Hen. unfold find_command in Hen.
  destruct (list_find _ _) as [[i [name en']]|] eqn:Ef; [|done]. cbn in Hen. injection Hen as <-.
  apply list_find_Some in Ef as (Hi & Hn & _). cbn in Hn. subst name.
  apply list_elem_of_lookup_2 in Hi.
  assert (Hgeo : forall k, keeps types_of (geopos_loop k (drop 2 args))).
  { intros k. apply geopos_reads; [apply _|]. intros. keep. }
  assert (Hall : Forall (fun p : bytes * CommandEntry => p.1 <> bs "SET" -> keeps types_of (handler p.2 has_send fd args))
    (command_table sin cos asin)); [|rewrite Forall_forall in Hall; by apply (Hall _ Hi)].
  clear Hi Hset. unfold command_table, string_entries, list_entries, ordered_entries, server_entries, pubsub_entries.
  cbn [app]. repeat (apply Forall_cons_2; [intros Hne|]); [..|apply Forall_nil_2]; cbn [fst snd CommandHandler.handler];
    try (by destruct Hne); unfold plain, plain_fd, on_first, subscribe_entry, publish_entry, handle_ping, handle_echo,
    handle_get, handle_incr, handle_lrange, handle_blpop, handle_zrank, handle_zrange, handle_zcard, handle_zscore,
    handle_zrem, handle_geopos, handle_geodist, handle_geosearch, handle_xrange, handle_xread_with_blocking, handle_info,
    handle_bgrewriteaof, handle_config, handle_config_get, handle_config_set, emit_pair, aof_setting, handle_acl,
    handle_acl_whoami, handle_acl_getuser, handle_acl_setuser, handle_auth, update_conn, handle_replconf, handle_wait,
    handle_psync, handle_subscribe, handle_unsubscribe, handle_publish, emit_subscription; keep; auto.
Qed.

Lemma types_set_command has_send fd args e c r c' k en :
  execute_command has_send fd (bs "SET") args e c = Ret (r, c') -> live (steady_now e) k (ctx_store c) = Some en ->
  exists en', data_ (ctx_store c') !! k = Some en' /\ type_name (value en') = type_name (value en).
Proof.
  intros H Hl. pose proof (live_stored _ _ _ _ Hl) as Hd.
  unfold CommandHandler.execute_command in H.
  change (find_command sin cos asin (bs "SET")) with (Some (mkCommandEntry (plain handle_set) 3)) in H.
  cbn [min_args CommandHandler.handler] in H. destruct (length args <? 3)%nat; [injection H as <- <-; eauto|].
  unfold plain in H. rewrite bind_eq in H. destruct (handle_set args e c) as [[[] c1]| |] eqn:Eh; [|done..].
  injection H as <- <-. unfold handle_set in Eh. apply arg_bind in Eh as [key Eh]. apply arg_bind in Eh as [v Eh].
  destruct (set_options _ None) as [err|ttl]; [injection Eh as <-; eauto|].
  rewrite bind_eq in Eh. unfold on_store_o in Eh.
  destruct (set_if_valid_type _ _ _ _ _) as [[st ok]| |] eqn:Es; [|done..].
  assert (ctx_store c1 = st) as -> by (destruct ok; by injection Eh as <-).
  by apply (types_set_if_valid _ _ _ _ _ _ _ Es).
Qed.

(** ** One command of a client *)

(** The transaction of a client. *)
Definition tx_at (fd : Z) (c : CommandContext) : option TransactionState :=
  match conn_pool c with
  | Some p => match connections_ p !! fd with Some conn => tx_ conn | None => None end
  | None => transactions c !! fd
  end.

Definition queue_of (fd : Z) (c : CommandContext) : list (list bytes) :=
  match tx_at fd c with Some t => queued_commands t | None => [] end.

Lemma tx_find_at fd e c t c' : tx_find fd e c = Ret (t, c') -> c' = c /\ t = tx_at fd c.
Proof.
  unfold tx_find, tx_at. mstep. destruct (conn_pool c) as [p|]; mstep; [|by intros [= <- <-]].
  unfold get_connection. destruct (connections_ p !! fd); mstep; [|done]. by intros [= <- <-].
Qed.

Lemma tx_in_multi_at fd e c b c' :
  tx_in_multi fd e c = Ret (b, c') -> c' = c /\ b = match tx_at fd c with Some t => in_multi t | None => false end.
Proof.
  unfold tx_in_multi. rewrite bind_eq. destruct (tx_find fd e c) as [[t c1]| |] eqn:E; [|done..].
  apply tx_find_at in E as [-> ->]. by intros [= <- <-].
Qed.

Lemma update_conn_store fd f p : keeps store_of (update_conn fd f p).
Proof. unfold update_conn. keep. Qed.
Hint Resolve update_conn_store : keeps.

Lemma tx_put_store fd t : keeps store_of (tx_put fd t).
Proof. unfold tx_put. keep. Qed.
Lemma tx_clear_store fd : keeps store_of (tx_clear fd).
Proof. unfold tx_clear. keep. Qed.
Lemma tx_find_store fd : keeps store_of (tx_find fd).
Proof. unfold tx_find. keep. Qed.
Hint Resolve tx_put_store tx_clear_store tx_find_store : keeps.
Lemma tx_get_store fd : keeps store_of (tx_get fd).
Proof. unfold tx_get. keep. Qed.
Lemma tx_in_multi_store fd : keeps store_of (tx_in_multi fd).
Proof. unfold tx_in_multi. keep. Qed.
Hint Resolve tx_get_store tx_in_multi_store : keeps.

Lemma tx_get_at fd e c t c' : tx_get fd e c = Ret (t, c') -> t = default new_tx (tx_at fd c) /\ ctx_store c' = ctx_store c.
Proof.
  intros H. split; [|by apply tx_get_store in H]. revert H. unfold tx_get. rewrite bind_eq.
  destruct (tx_find fd e c) as [[t0 c1]| |] eqn:E; [|done..]. apply tx_find_at in E as [-> ->]. cbv zeta.
  rewrite bind_eq. destruct (tx_put _ _ _ _) as [[[] c2]| |]; [|done..]. by intros [= <- _].
Qed.

(** Being let in changes neither the store nor the transaction. *)
Lemma check_auth_at fd cmd e c ok c' :
  check_auth fd cmd e c = Ret (ok, c') -> ctx_store c' = ctx_store c /\ tx_at fd c' = tx_at fd c.
Proof.
  unfold check_auth, tx_at. mstep. case_bool_decide; mstep; [by intros [= <- <-]|].
  destruct (conn_pool c) as [p|] eqn:Ep; mstep.
  - unfold get_connection. destruct (connections_ p !! fd) as [conn|] eqn:Ec; mstep; [|done].
    destruct (authenticated_ conn); mstep; [intros [= <- <-]; by rewrite Ep, Ec|].
    destruct (default_nopass c); mstep; [|intros [= <- <-]; by rewrite Ep, Ec].
    unfold update_conn. mstep. unfold get_connection. rewrite Ec. mstep. intros [= <- <-]. cbn. by rewrite lookup_insert_eq.
  - destruct (bool_decide _); mstep; [intros [= <- <-]; by rewrite Ep|].
    destruct (default_nopass c); mstep; intros [= <- <-]; cbn; by rewrite Ep.
Qed.

Lemma exec_types has_send fd queue :
  Forall (fun args => head args <> Some (bs "SET")) queue ->
  keeps types_of (exec_loop sin cos asin has_send fd queue).
Proof.
  induction queue as [|args queue IH]; intros Hq; cbn [exec_loop]; [keep|]. apply Forall_cons in Hq as [Ha Hq].
  intros e c a c'. rewrite bind_eq. unfold arg at 1, lift. destruct args as [|name args]; [done|]. cbn [vec_at lookup list_lookup].
  apply keeps_bind; [apply _| |intros [st buf]; keep; by apply IH]. clear e c a c'. intros e c [st buf] c'. unfold capture.
  destruct (execute_command has_send fd name (name :: args) e (with_out [] c)) as [[r c1]| |] eqn:E; [|done..].
  apply types_execute in E; [|by intros ->]. intros [= <- <- <-]. exact E.
Qed.

(** EXEC leaves the store as it is, or runs the queue. *)
Lemma exec_cases has_send fd e c c' :
  handle_exec sin cos asin has_send fd e c = Ret ((), c') ->
  ctx_store c' = ctx_store c
  \/ exists c1 res c2, ctx_store c1 = ctx_store c
       /\ exec_loop sin cos asin has_send fd (queue_of fd c) e c1 = Ret (res, c2) /\ ctx_store c' = ctx_store c2.
Proof.
  unfold handle_exec, queue_of. rewrite bind_eq.
  destruct (tx_in_multi fd e c) as [[b c2]| |] eqn:Em; [|done..]. apply tx_in_multi_at in Em as [-> ->].
  destruct (tx_at fd c) as [t|] eqn:Et; cbn [negb]; [|mstep; intros [= <-]; by left].
  destruct (in_multi t); cbn [negb]; [|mstep; intros [= <-]; by left]. rewrite bind_eq.
  destruct (tx_get fd e c) as [[t1 c2]| |] eqn:Eg; [|done..]. apply tx_get_at in Eg as [-> Hs]. rewrite Et.
  change (default new_tx (Some t)) with t. mstep. destruct (watch_dirty t (ctx_store c2)); rewrite bind_eq.
  - destruct (tx_clear fd e c2) as [[[] c3]| |] eqn:Ec; [|done..]. apply tx_clear_store in Ec. intros [= <-].
    left. unfold store_of in Ec. cbn. congruence.
  - destruct (exec_loop _ _ _ _ _ _ e c2) as [[res c3]| |] eqn:Ex; [|done..]. rewrite bind_eq.
    destruct (tx_clear fd e c3) as [[[] c4]| |] eqn:Ec; [|done..]. apply tx_clear_store in Ec. intros [= <-].
    right. by exists c2, res, c3.
Qed.

(** A command leaves the store as it is, or is executed, or is an EXEC. *)
Lemma single_cases has_send fd args cmd e c r c' :
  process_single_command sin cos asin has_send fd args cmd e c = Ret (r, c') ->
  ctx_store c' = ctx_store c
  \/ (exists c1, ctx_store c1 = ctx_store c /\ execute_command has_send fd cmd args e c1 = Ret (r, c'))
  \/ (cmd = bs "EXEC" /\ exists c1 res c2, ctx_store c1 = ctx_store c
        /\ exec_loop sin cos asin has_send fd (queue_of fd c) e c1 = Ret (res, c2) /\ ctx_store c' = ctx_store c2).
Proof.
  unfold process_single_command. destruct args as [|a0 args]; [mstep; intros [= <- <-]; by left|].
  mstep. destruct (_ && _); [mstep; intros [= <- <-]; by left|]. rewrite bind_eq.
  destruct (check_auth fd cmd e c) as [[ok c1]| |] eqn:Ea; [|done..]. apply check_auth_at in Ea as [Hs Ht].
  destruct ok; [|mstep; intros [= <- <-]; left; exact Hs]. unfold run_checked. mstep.
  assert (Hq : queue_of fd c1 = queue_of fd c) by (unfold queue_of; by rewrite Ht). rewrite <- Hs, <- Hq. clear Hs Hq Ht c.
  match goal with |- context [match ?m e c1 with _ => _ end] => destruct (m e c1) as [[[] c0]| |] eqn:Ec end; [|done..].
  assert (c0 = c1) as ->.
  { revert Ec. destruct (conn_pool c1) as [p|]; mstep; [|by intros [= <-]]. destruct (get_connection fd p); mstep; [|done..]. by intros [= <-]. }
  clear Ec. assert (Hsame : forall A (m : M A), keeps store_of m -> (_ ← m; normal) e c1 = Ret (r, c') -> ctx_store c' = ctx_store c1).
  { intros A m Hm. rewrite bind_eq. destruct (m e c1) as [[a c2]| |] eqn:E; [|done..]. mstep. intros [= <- <-]. by apply Hm in E. }
  case_bool_decide; [intros Hr; left; revert Hr; apply Hsame; unfold handle_multi; keep|].
  case_bool_decide as He.
  { rewrite bind_eq. destruct (handle_exec _ _ _ _ _ e c1) as [[[] c2]| |] eqn:Ex; [|done..]. intros [= <- <-].
    apply exec_cases in Ex as [?|?]; auto. }
  do 3 (case_bool_decide; [intros Hr; left; revert Hr; apply Hsame; unfold handle_discard, handle_watch, handle_unwatch; keep|]).
  rewrite bind_eq. destruct (tx_in_multi fd e c1) as [[b c2]| |] eqn:Em; [|done..]. apply tx_in_multi_at in Em as [-> ->].
  destruct (match tx_at fd c1 with Some _ => _ | None => _ end); [|eauto].
  assert (Hk : keeps store_of (t ← tx_get fd; _ ← tx_put fd (with_queued (queued_commands t ++ [a0 :: args]) t); _ ← emit kRespQueued; normal)) by keep.
  intros Hx. left. by apply Hk in Hx.
Qed.
End execute.

(** * Properties *)

(** C7: types are stable.  When a client sends a command, any command but an EXEC whose
    queue holds a SET, a key that can be seen when it starts is still there when it ends,
    and holds a value of the same type: no command removes a key, and a key changes its
    type only after it has expired.  Unless the command is SET, which may give a key an
    expiry time that is already reached, the key can also still be seen. *)
Theorem commands_keep_types (sin cos asin : double -> double) (has_send : bool) (fd : Z) (cmd : bytes)
    (args : list bytes) (e : env) (c c' : CommandContext) (r : result_state) (k : bytes) (en : Entry) :
  process_single_command sin cos asin has_send fd args cmd e c = Ret (r, c') ->
  (cmd = bs "EXEC" -> Forall (fun queued => head queued <> Some (bs "SET")) (queue_of fd c)) ->
  live (steady_now e) k (ctx_store c) = Some en ->
  exists en', data_ (ctx_store c') !! k = Some en' /\ type_name (value en') = type_name (value en)
    /\ (cmd <> bs "SET" -> live (steady_now e) k (ctx_store c') = Some en').
Proof.
  intros H Hq Hl. assert (Hfrom : types_kept (steady_now e) (ctx_store c) (ctx_store c') ->
    exists en', data_ (ctx_store c') !! k = Some en' /\ type_name (value en') = type_name (value en)
    /\ (cmd <> bs "SET" -> live (steady_now e) k (ctx_store c') = Some en')).
  { intros Ht. destruct (Ht k en Hl) as (en' & Hl' & Hn). exists en'. split; [by apply live_stored in Hl'|done]. }
  apply single_cases in H as [Hs|[(c1 & Hs & H)|(-> & c1 & res & c2 & Hs & Hx & Hs')]].
  - apply Hfrom. rewrite Hs. reflexivity.
  - destruct (decide (cmd = bs "SET")) as [->|Hne].
    + rewrite <- Hs in Hl. destruct (types_set_command sin cos asin _ _ _ _ _ _ _ _ _ H Hl) as (en' & Hd & Ht).
      by exists en'.
    + apply Hfrom. rewrite <- Hs. by apply (types_execute sin cos asin has_send fd cmd args Hne e c1 r c').
  - apply Hfrom. rewrite <- Hs, Hs'. by apply (exec_types sin cos asin has_send fd _ (Hq eq_refl) e c1 res c2).
Qed.

(** A list under "l" and a string under "s", both with an expiry time ahead. *)
Definition typed_ctx : CommandContext :=
  new_ctx (mkStore (list_to_map [(bs "l", mkEntry (VList [bs "a"]) (Some 50)); (bs "s", mkEntry (VString (bs "x")) (Some 50))])
             0 ∅) (mkServerConfig None [] [] []).
Definition typed_env : env := mkEnv 10 0 true (child_at 10).

Lemma commands_keep_types_witness :
  exists c1 c2 en1 en2,
    process_single_command id id id true 7 (bs <$> ["RPUSH"; "l"; "b"; "c"]%string) (bs "RPUSH") typed_env typed_ctx
      = Ret (Normal, c1)
    /\ data_ (ctx_store c1) !! bs "l" = Some en1 /\ type_name (value en1) = bs "list"
    /\ process_single_command id id id true 7 (bs <$> ["RPUSH"; "s"; "b"]%string) (bs "RPUSH") typed_env typed_ctx
      = Ret (Normal, c2)
    /\ data_ (ctx_store c2) !! bs "s" = Some en2 /\ type_name (value en2) = bs "string".
Proof.
  destruct (process_single_command id id id true 7 (bs <$> ["RPUSH"; "l"; "b"; "c"]%string) (bs "RPUSH") typed_env typed_ctx)
    as [[r1 c1]| |] eqn:E1; [|done..].
  destruct (process_single_command id id id true 7 (bs <$> ["RPUSH"; "s"; "b"]%string) (bs "RPUSH") typed_env typed_ctx)
    as [[r2 c2]| |] eqn:E2; [|done..].
  destruct (commands_keep_types id id id true 7 _ _ typed_env typed_ctx c1 r1 (bs "l") _ E1 ltac:(done) eq_refl) as (en1 & H1 & T1 & _).
  destruct (commands_keep_types id id id true 7 _ _ typed_env typed_ctx c2 r2 (bs "s") _ E2 ltac:(done) eq_refl) as (en2 & H2 & T2 & _).
  exists c1, c2, en1, en2.
  assert (r1 = Normal /\ r2 = Normal) as [-> ->] by (split; [by injection E1|by injection E2]). done.
Defined.

(** C26: reading commands read.  PING, ECHO, GET, LLEN, LRANGE, TYPE, KEYS, ZRANK, ZRANGE,
    ZCARD, ZSCORE, GEOPOS, GEODIST, GEOSEARCH, XRANGE and INFO change nothing of the
    server's state: not the connections, the managers, the log, the files or the versions
    of the keys that WATCH goes by; they add replies to their own client, and expired
    entries of the keyspace may be gone, so that every key looks the same as before. *)
Theorem reads_change_nothing (sin cos asin : double -> double) (has_send : bool) (fd : Z) (cmd : bytes)
    (args : list bytes) (e : env) (c c' : CommandContext) (r : result_state) :
  cmd ∈ kReadCommands -> execute_command sin cos asin has_send fd cmd args e c = Ret (r, c') ->
  exists st replies, c' = with_out (out c ++ (Emit <$> replies)) (with_store st c)
    /\ version_counter_ st = version_counter_ (ctx_store c)
    /\ key_versions_ st = key_versions_ (ctx_store c)
    /\ (forall k, live (steady_now e) k st = live (steady_now e) k (ctx_store c))
    /\ (forall k, is_Some (data_ st !! k) -> data_ st !! k = data_ (ctx_store c) !! k).
Proof.
  intros Hcmd H. destruct (reads_execute sin cos asin has_send fd cmd args Hcmd e c r c' H) as (st & o & -> & Hp).
  exists st, o. split_and!; [done|apply Hp..|intros k; by apply purges_live|].
  intros k Hk. destruct (proj2 Hp k) as [?|[_ Hn]]; [done|]. rewrite Hn in Hk. by destruct Hk.
Qed.

Lemma reads_change_nothing_witness :
  exists st replies, execute_command id id id true 7 (bs "LRANGE") (bs <$> ["LRANGE"; "l"; "0"; "-1"]%string) typed_env typed_ctx
      = Ret (Normal, with_out (Emit <$> replies) (with_store st typed_ctx))
    /\ live 10 (bs "l") st = Some (mkEntry (VList [bs "a"]) (Some 50)).
Proof.
  destruct (execute_command id id id true 7 (bs "LRANGE") (bs <$> ["LRANGE"; "l"; "0"; "-1"]%string) typed_env typed_ctx)
    as [[r c]| |] eqn:E; [|done..].
  destruct (reads_change_nothing id id id true 7 (bs "LRANGE") _ typed_env typed_ctx c r
    ltac:(by apply (bool_decide_unpack _)) E) as (st & o & -> & _ & _ & Hl & _).
  exists st, o. assert (r = Normal) as -> by (by injection E). split; [done|]. change 10 with (steady_now typed_env). rewrite Hl. done.
Defined.
