(* ===== verification/HandlerTrace.v ===== *)
(** * Every command is a sequence of store operations

    A handler reaches the keyspace only through the store's public operations, at
    the time it reads from the clock.  So what is proved of sequences of those
    operations in StoreSteps holds of commands, transactions and whole buffers.  What a
    command may do to the connections and to the managers is a [policy]. *)

From S2P Require Import Prelude Text StreamIds RespCodec Scores SortedSets Store StoreSteps.
From S2P Require Import BlockingManager PubSub Connection Sha256 Acl Doubles Aof Geo Context.
From S2P Require Import StringCommands ListCommands StreamCommands ZsetCommands GeoCommands.
From S2P Require Import PubsubCommands ServerCommands CommandHandler.

(** [ok] holds of every command queued by MULTI. *)
Definition queue_ok (ok : list bytes -> Prop) (t : option TransactionState) : Prop :=
  match t with Some t => Forall ok (queued_commands t) | None => True end.

Definition pool_ok (ok : list bytes -> Prop) (p : option ConnectionPool) : Prop :=
  match p with
  | Some p => map_Forall (fun _ conn => queue_ok ok (tx_ conn)) (connections_ p)
  | None => True
  end.

Definition queues_ok (ok : list bytes -> Prop) (c : CommandContext) : Prop :=
  map_Forall (fun _ t => queue_ok ok (Some t)) (transactions c) /\ pool_ok ok (conn_pool c).

Lemma queue_ok_impl (ok ok' : list bytes -> Prop) t :
  (forall args, ok args -> ok' args) -> queue_ok ok t -> queue_ok ok' t.
Proof. intros Hi. destruct t; [|done]. intros Hq. by eapply Forall_impl. Qed.

Lemma queues_ok_impl (ok ok' : list bytes -> Prop) c :
  (forall args, ok args -> ok' args) -> queues_ok ok c -> queues_ok ok' c.
Proof.
  intros Hi [Ht Hp]. split.
  - eapply map_Forall_impl; [done|]. intros k t. by apply queue_ok_impl.
  - destruct (conn_pool c); [|done]. simpl. eapply map_Forall_impl; [done|]. intros k t. by apply queue_ok_impl.
Qed.

(** The descriptors of the open connections. *)
Definition pool_fds (p : option ConnectionPool) : gset Z :=
  match p with Some p => dom (connections_ p) | None => ∅ end.

(** The blocking manager's index has no dangling entry, and the two maps of the
    subscriptions mirror each other. *)
Definition managers_ok (c : CommandContext) : Prop :=
  match blocking_manager c with Some bm => blocking_wf bm | None => True end
  /\ match pubsub_manager c with Some ps => pubsub_wf ps | None => True end.

(** What a handler leaves as it is: which commands may be queued, which connections are
    open, how many replicas it sees, and, under the condition [managed], the managers'
    invariants. *)
Record policy := mkPolicy {
  allowed : list bytes -> Prop;
  open_fds : gset Z;
  managed : Prop;
  replicas_seen : option Z
}.

Record ctx_ok (ok : policy) (c : CommandContext) : Prop := {
  co_queues : queues_ok (allowed ok) c;
  co_fds : pool_fds (conn_pool c) = open_fds ok;
  co_managers : managed ok -> managers_ok c;
  co_replicas : replica_count_fn c = replicas_seen ok
}.

(** [m] changes the store by operations at the current time that satisfy [Q], and
    keeps to the policy. *)
Definition traced (Q : store_op -> Prop) (ok : policy) {A} (m : M A) : Prop :=
  forall e c a c', ctx_ok ok c -> m e c = Ret (a, c') ->
  ctx_ok ok c' /\
  exists tr, Forall (fun x => x.1 = (steady_now e, sys_ms e) /\ Q x.2) tr
    /\ run_ops tr (ctx_store c) = Ret (ctx_store c').

Lemma run_ops_app tr1 tr2 st : run_ops (tr1 ++ tr2) st = run_ops tr1 st ≫= run_ops tr2.
Proof.
  revert st. induction tr1 as [|[[now sys] op] tr1 IH]; intros st; [done|]. simpl.
  destruct (run_op now sys op st); [apply IH|done..].
Qed.

Section rules.
  Context (Q : store_op -> Prop) (ok : policy).

(** An action that changes neither the store nor what the policy is about. *)
Definition unqueued (c c' : CommandContext) : Prop :=
  ctx_store c' = ctx_store c /\ transactions c' = transactions c /\ conn_pool c' = conn_pool c
  /\ blocking_manager c' = blocking_manager c /\ pubsub_manager c' = pubsub_manager c
  /\ replica_count_fn c' = replica_count_fn c.

Lemma unqueued_ok c c' : unqueued c c' -> ctx_ok ok c -> ctx_ok ok c'.
Proof.
  intros (_ & Ht & Hp & Hb & Hs & Hn) [Hq Hf Hm Hr]. split; [|by rewrite Hp| |by rewrite Hn].
  - unfold queues_ok in *. by rewrite Ht, Hp.
  - unfold managers_ok in *. by rewrite Hb, Hs.
Qed.

Lemma traced_same {A} (m : M A) :
  (forall e c a c', m e c = Ret (a, c') -> unqueued c c') -> traced Q ok m.
Proof.
  intros H e c a c' Hq Hm. apply H in Hm. split; [by eapply unqueued_ok|].
  destruct Hm as [-> _]. by exists [].
Qed.

Lemma traced_ret {A} (a : A) : traced Q ok (mret a).
Proof. apply traced_same. by intros e c x c' [= <- <-]. Qed.

Lemma traced_bind {A B} (m : M A) (f : A -> M B) :
  traced Q ok m -> (forall a, traced Q ok (f a)) -> traced Q ok (m ≫= f).
Proof.
  intros Hm Hf e c b c' Hq H. unfold mbind, M_bind in H. destruct (m e c) as [[a c1]| |] eqn:E; [|done..].
  destruct (Hm _ _ _ _ Hq E) as (Hq1 & tr1 & Ht1 & Hr1).
  destruct (Hf _ _ _ _ _ Hq1 H) as (Hq2 & tr2 & Ht2 & Hr2). split; [done|].
  exists (tr1 ++ tr2). split; [by apply Forall_app|]. rewrite run_ops_app, Hr1. done.
Qed.

Lemma traced_lift {A} (o : outcome A) : traced Q ok (lift o).
Proof. apply traced_same. intros e c a c'. unfold lift. destruct o; by intros [= <- <-]. Qed.

Lemma traced_get_ctx : traced Q ok get_ctx.
Proof. apply traced_same. by intros e c a c' [= <- <-]. Qed.

Lemma traced_ask : traced Q ok ask.
Proof. apply traced_same. by intros e c a c' [= <- <-]. Qed.

Lemma traced_modify f : (forall c, unqueued c (f c)) -> traced Q ok (modify f).
Proof. intros Hf. apply traced_same. intros e c a c' [= <- <-]. apply Hf. Qed.

Lemma traced_emit b : traced Q ok (emit b).
Proof. by apply traced_modify. Qed.

Lemma traced_send has_send fd b : traced Q ok (send_client has_send fd b).
Proof. apply traced_same. intros e c a c'. unfold send_client. destruct has_send; by intros [= <- <-]. Qed.

Lemma traced_on_store {A} (f : Z -> Store -> Store * A) op :
  (forall now sys st, run_op now sys op st = Ret (f now st).1) -> Q op -> traced Q ok (on_store f).
Proof.
  intros Hf Hq e c a c' Hok. unfold on_store. destruct (f (steady_now e) (ctx_store c)) as [st x] eqn:E.
  intros [= <- <-]. split; [by destruct Hok|]. exists [((steady_now e, sys_ms e), op)].
  split; [by repeat constructor|]. simpl. by rewrite Hf, E.
Qed.

Lemma traced_on_store_o {A} (f : env -> Store -> outcome (Store * A)) op :
  (forall e st, run_op (steady_now e) (sys_ms e) op st = fst <$> f e st) -> Q op -> traced Q ok (on_store_o f).
Proof.
  intros Hf Hq e c a c' Hok. unfold on_store_o. destruct (f e (ctx_store c)) as [[st x]| |] eqn:E; [|done..].
  intros [= <- <-]. split; [by destruct Hok|]. exists [((steady_now e, sys_ms e), op)].
  split; [by repeat constructor|]. simpl. by rewrite Hf, E.
Qed.

(** A handler that uses what it has just read of the context. *)
Lemma traced_with_ctx {A} (f : CommandContext -> M A) :
  (forall c, ctx_ok ok c -> traced Q ok (f c)) -> traced Q ok (get_ctx ≫= f).
Proof. intros Hf e c a c' Hq H. by apply (Hf c Hq e c a c'). Qed.

(** New managers that keep their invariants. *)
Lemma traced_blocking bm : (managed ok -> blocking_wf bm) -> traced Q ok (modify (with_blocking (Some bm))).
Proof.
  intros Hb e c a c' [Hq Hf Hm Hr] [= <- <-]. split; [|by exists []]. split; [done..| |done].
  intros W. split; [by apply Hb|by apply Hm].
Qed.

Lemma traced_pubsub ps : (managed ok -> pubsub_wf ps) -> traced Q ok (modify (with_pubsub (Some ps))).
Proof.
  intros Hb e c a c' [Hq Hf Hm Hr] [= <- <-]. split; [|by exists []]. split; [done..| |done].
  intros W. split; [by apply Hm|by apply Hb].
Qed.

Lemma traced_lift_bind {A B} (o : outcome A) (f : A -> M B) :
  (forall a, o = Ret a -> traced Q ok (f a)) -> traced Q ok (lift o ≫= f).
Proof.
  intros Hf e c b c' Hc. unfold mbind, M_bind, lift. destruct o as [a| |]; [|done..]. by apply Hf.
Qed.

(** The steps of the managers, as the handlers take them. *)
Lemma block_kept now fd key last timeout bm bm' :
  block_client_for_stream now fd key last timeout bm = Ret bm' -> blocking_wf bm -> blocking_wf bm'.
Proof. intros H. by eapply bm_step_wf, step_block. Qed.

Lemma wake_kept key bm bm' r : wake_client key bm = (bm', r) -> blocking_wf bm -> blocking_wf bm'.
Proof. intros H. apply bm_step_wf. replace bm' with (wake_client key bm).1 by (by rewrite H). apply step_wake. Qed.

Lemma wake_stream_kept key id bm bm' r :
  wake_client_for_stream key id bm = (bm', r) -> blocking_wf bm -> blocking_wf bm'.
Proof. intros H. apply bm_step_wf. replace bm' with (wake_client_for_stream key id bm).1 by (by rewrite H). apply step_wake_stream. Qed.

Lemma subscribe_kept fd ch ps ps' n : subscribe fd ch ps = (ps', n) -> pubsub_wf ps -> pubsub_wf ps'.
Proof. intros H. apply ps_step_wf. replace ps' with (subscribe fd ch ps).1 by (by rewrite H). apply step_subscribe. Qed.

Lemma unsubscribe_kept fd ch ps ps' n : unsubscribe fd ch ps = (ps', n) -> pubsub_wf ps -> pubsub_wf ps'.
Proof. intros H. apply ps_step_wf. replace ps' with (unsubscribe fd ch ps).1 by (by rewrite H). apply step_unsubscribe. Qed.

Lemma ctx_blocking c bm : ctx_ok ok c -> blocking_manager c = Some bm -> managed ok -> blocking_wf bm.
Proof. intros [_ _ Hm _] Hb W. apply Hm in W as [H _]. by rewrite Hb in H. Qed.

Lemma ctx_pubsub c ps : ctx_ok ok c -> pubsub_manager c = Some ps -> managed ok -> pubsub_wf ps.
Proof. intros [_ _ Hm _] Hb W. apply Hm in W as [_ H]. by rewrite Hb in H. Qed.

(** Storing a connection whose queue is fine. *)
Lemma pool_ok_put fd conn p :
  pool_ok (allowed ok) (Some p) -> queue_ok (allowed ok) (tx_ conn) ->
  pool_ok (allowed ok) (Some (put_conn fd conn p)).
Proof. intros Hp Hc. by apply map_Forall_insert_2. Qed.

Lemma ctx_ok_put c p fd conn conn' :
  ctx_ok ok c -> pool_ok (allowed ok) (Some p) -> pool_fds (Some p) = open_fds ok ->
  connections_ p !! fd = Some conn -> queue_ok (allowed ok) (tx_ conn') ->
  ctx_ok ok (with_pool (Some (put_conn fd conn' p)) c).
Proof.
  intros [[Ht _] _ Hm Hr] Hp Hf Hc Hq. split; [split; [done|by apply pool_ok_put]| |done..].
  simpl in *. rewrite dom_insert_L, <- Hf. apply elem_of_dom_2 in Hc. set_solver.
Qed.

Lemma traced_update_conn fd f c p :
  ctx_ok ok c -> conn_pool c = Some p ->
  (forall conn, queue_ok (allowed ok) (tx_ conn) -> queue_ok (allowed ok) (tx_ (f conn))) ->
  traced Q ok (update_conn fd f p).
Proof.
  intros Hc Hp Hf e c1 a c' Hc1. unfold update_conn, get_connection, mbind, M_bind, lift.
  destruct (connections_ p !! fd) as [conn|] eqn:E; [|done]. intros [= <- <-].
  destruct Hc as [[_ Hq] Hd _ _]. rewrite Hp in *.
  split; [|by exists []]. eapply ctx_ok_put; [done..|]. apply Hf. by apply (Hq fd).
Qed.
End rules.

(** The operation behind a call. *)
Ltac traced_op :=
  match goal with
  | |- traced _ _ (on_store (fun now => get now ?k)) => apply (traced_on_store _ _ _ (OpGet k))
  | |- traced _ _ (on_store (fun now => incr_if_valid_type now ?k)) => apply (traced_on_store _ _ _ (OpIncrIfValid k))
  | |- traced _ _ (on_store (fun now => lpop_n now ?k ?n)) => apply (traced_on_store _ _ _ (OpLpopN k n))
  | |- traced _ _ (on_store (fun now => lrange now ?k ?a ?b)) => apply (traced_on_store _ _ _ (OpLrange k a b))
  | |- traced _ _ (on_store (fun now => llen now ?k)) => apply (traced_on_store _ _ _ (OpLlen k))
  | |- traced _ _ (on_store (fun now => get_type now ?k)) => apply (traced_on_store _ _ _ (OpType k))
  | |- traced _ _ (on_store keys) => apply (traced_on_store _ _ OpKeys)
  | |- traced _ _ (on_store (fun now => xrange now ?k ?a ?b)) => apply (traced_on_store _ _ _ (OpXrange k a b))
  | |- traced _ _ (on_store (fun now => xread now ?k ?id)) => apply (traced_on_store _ _ _ (OpXread k id))
  | |- traced _ _ (on_store (fun now => get_stream_max_id now ?k)) => apply (traced_on_store _ _ _ (OpMaxId k))
  | |- traced _ _ (on_store (fun now => zadd now ?k ?s ?m)) => apply (traced_on_store _ _ _ (OpZadd k s m))
  | |- traced _ _ (on_store (fun now => zadd_if_valid_type now ?k ?s ?m)) =>
      apply (traced_on_store _ _ _ (OpZaddIfValid k s m))
  | |- traced _ _ (on_store (fun now => zrank now ?k ?m)) => apply (traced_on_store _ _ _ (OpZrank k m))
  | |- traced _ _ (on_store (fun now => zrange now ?k ?a ?b)) => apply (traced_on_store _ _ _ (OpZrange k a b))
  | |- traced _ _ (on_store (fun now => zcard now ?k)) => apply (traced_on_store _ _ _ (OpZcard k))
  | |- traced _ _ (on_store (fun now => zscore now ?k ?m)) => apply (traced_on_store _ _ _ (OpZscore k m))
  | |- traced _ _ (on_store (fun now => zrem now ?k ?m)) => apply (traced_on_store _ _ _ (OpZrem k m))
  | |- traced _ _ (on_store (fun now => zgetall now ?k)) => apply (traced_on_store _ _ _ (OpZgetall k))
  | |- traced _ _ (on_store_o (fun e => set_if_valid_type _ ?k ?v ?t)) =>
      apply (traced_on_store_o _ _ _ (OpSetIfValid k v t))
  | |- traced _ _ (on_store_o (fun e => xadd_if_valid_type _ _ ?k ?id ?f)) =>
      apply (traced_on_store_o _ _ _ (OpXaddIfValid k id f))
  end; [reflexivity|try done].

Create HintDb traced discriminated.
#[export] Hint Resolve traced_ret traced_lift traced_get_ctx traced_ask traced_emit traced_send : traced.
#[export] Hint Extern 1 (traced _ _ (modify (with_blocking _))) =>
  (apply traced_blocking; intros ?;
   first [ eapply block_kept; [eassumption|] | eapply wake_kept; [eassumption|]
         | eapply wake_stream_kept; [eassumption|] ];
   eapply ctx_blocking; eassumption) : traced.
#[export] Hint Extern 1 (traced _ _ (modify (with_pubsub _))) =>
  (apply traced_pubsub; intros ?;
   first [ eapply subscribe_kept; [eassumption|] | eapply unsubscribe_kept; [eassumption|] ];
   eapply ctx_pubsub; eassumption) : traced.
#[export] Hint Extern 2 (traced _ _ (modify _)) => (apply traced_modify; intros ?; repeat split) : traced.
#[export] Hint Extern 3 (traced _ _ (on_store _)) => traced_op : traced.
#[export] Hint Extern 3 (traced _ _ (on_store_o _)) => traced_op : traced.

(** Follows the structure of a handler. *)
Ltac trace :=
  repeat first
    [ progress cbv zeta
    | progress unfold emit_error, emit_integer, emit_bulk, emit_null_bulk, emit_array, emit_into, arg, normal
    | match goal with
      | |- traced _ _ (mbind _ get_ctx) => apply traced_with_ctx; intros ? ?
      | |- traced _ _ (mbind _ (lift _)) => apply traced_lift_bind; intros ? ?
      | |- traced _ _ (mbind _ _) => apply traced_bind; [|intros ?]
      end
    | solve [auto 2 with traced nocore]
    | match goal with |- traced _ _ (match ?x with _ => _ end) => destruct x eqn:? end ].

(** A score that is not the text of a NaN. *)
Definition number (s : bytes) : Prop := parse_double s <> Some S754_nan.

#[export] Instance number_dec s : Decision (number s).
Proof.
  unfold number, Decision. destruct (parse_double s) as [[| | |]|]; [left; done|left; done| |left; done|left; done].
  right. intros H. by apply H.
Defined.

Section commands.
  Context (P : Prop) (ok : policy).

(** Scores are numbers, when the condition [P] on the arguments holds. *)
Definition guarded (op : store_op) : Prop := P -> op_nonan op.

Lemma trace_set args : traced guarded ok (handle_set args).
Proof. unfold handle_set. trace. Qed.

Lemma trace_get k : traced guarded ok (handle_get k).
Proof. unfold handle_get. trace. Qed.

Lemma trace_incr k : traced guarded ok (handle_incr k).
Proof. unfold handle_incr. trace. Qed.

Lemma mset_loop_ops now sys pairs st st' :
  mset_loop now pairs st = Ret st' ->
  exists tr, Forall (fun x => x.1 = (now, sys) /\ guarded x.2) tr /\ run_ops tr st = Ret st'.
Proof.
  revert st. induction pairs as [|k|k v pairs IH] using pair_list_ind; intros st;
    cbn [mset_loop].
  - intros [= <-]. by exists [].
  - intros [= <-]. by exists [].
  - destruct (set now k v None st) as [st1| |] eqn:E; [|done..].
    cbn [mbind outcome_bind].
    intros (tr & Ht & Hr)%IH. exists (((now, sys), OpSet k v None) :: tr). split.
    + by constructor.
    + cbn [run_ops run_op]. rewrite E. exact Hr.
Qed.

Lemma trace_mset args : traced guarded ok (handle_mset args).
Proof.
  unfold handle_mset. trace. intros e c0 [] c' Hq. unfold on_store_o.
  destruct (mset_loop _ _ _) as [st| |] eqn:E; simpl; [|done..]. intros [= <-].
  split; [by destruct Hq|by eapply mset_loop_ops].
Qed.

Lemma trace_first_push ops k v :
  ops = rpush_ops \/ ops = lpush_ops -> traced guarded ok (on_store (fun now => first_push ops now k v)).
Proof.
  intros [->| ->]; [apply (traced_on_store _ _ _ (OpRpushIfValid k v))|apply (traced_on_store _ _ _ (OpLpushIfValid k v))];
    done.
Qed.

Lemma trace_next_push ops k v :
  ops = rpush_ops \/ ops = lpush_ops -> traced guarded ok (on_store (fun now => next_push ops now k v)).
Proof.
  intros [->| ->]; [apply (traced_on_store _ _ _ (OpRpush k v))|apply (traced_on_store _ _ _ (OpLpush k v))]; done.
Qed.

Lemma trace_push_loop ops k vs n :
  ops = rpush_ops \/ ops = lpush_ops -> traced guarded ok (push_loop ops k vs n).
Proof.
  intros Ho. revert n. induction vs as [|v vs IH]; intros n; simpl; trace; auto using trace_next_push.
Qed.

Lemma trace_push ops args :
  ops = rpush_ops \/ ops = lpush_ops -> traced guarded ok (handle_push ops args).
Proof.
  intros Ho. unfold handle_push. trace; auto using trace_first_push, trace_push_loop.
Qed.

Lemma trace_lpop args : traced guarded ok (handle_lpop args).
Proof.
  unfold handle_lpop, handle_pop, emit_popped. trace. by apply (traced_on_store _ _ _ (OpLpop a)).
Qed.

Lemma trace_rpop args : traced guarded ok (handle_rpop args).
Proof.
  unfold handle_rpop, handle_pop, emit_popped. trace.
  - by apply (traced_on_store _ _ _ (OpRpop a)).
  - by apply (traced_on_store _ _ _ (OpRpopN a z)).
Qed.

Lemma trace_lrange args : traced guarded ok (handle_lrange args).
Proof. unfold handle_lrange. trace. Qed.

Lemma trace_blpop fd args : traced guarded ok (handle_blpop fd args).
Proof. unfold handle_blpop. trace. Qed.

Lemma trace_try_wake has_send k : traced guarded ok (try_wake has_send k).
Proof. unfold try_wake. trace. Qed.

Lemma trace_push_wake_loop ops has_send k vs n :
  ops = rpush_ops \/ ops = lpush_ops -> traced guarded ok (push_wake_loop ops has_send k vs n).
Proof.
  intros Ho. revert n. induction vs as [|v vs IH]; intros n; simpl; trace;
    auto using trace_next_push, trace_try_wake.
Qed.

Lemma trace_push_blocking ops has_send args :
  ops = rpush_ops \/ ops = lpush_ops -> traced guarded ok (handle_push_with_blocking ops has_send args).
Proof.
  intros Ho. unfold handle_push_with_blocking.
  trace; auto using trace_first_push, trace_push_wake_loop, trace_try_wake.
Qed.

Lemma trace_xrange args : traced guarded ok (handle_xrange args).
Proof. unfold handle_xrange. trace. Qed.

Lemma trace_read_streams dollar ks ids : traced guarded ok (read_streams dollar ks ids).
Proof. revert ids. induction ks as [|k ks IH]; intros [|id ids]; simpl; trace; auto. Qed.

Lemma trace_xread fd args : traced guarded ok (handle_xread_with_blocking fd args).
Proof. unfold handle_xread_with_blocking. trace; auto using trace_read_streams. Qed.

Lemma trace_wake_readers fuel has_send k id : traced guarded ok (wake_readers fuel has_send k id).
Proof. induction fuel as [|fuel IH]; simpl; trace. Qed.

Lemma trace_xadd has_send args : traced guarded ok (handle_xadd_with_blocking has_send args).
Proof. unfold handle_xadd_with_blocking. trace; auto using trace_wake_readers. Qed.

Lemma trace_pubsub has_send fd ch msg :
  traced guarded ok (handle_subscribe fd ch) /\ traced guarded ok (handle_unsubscribe fd ch)
  /\ traced guarded ok (handle_publish has_send ch msg).
Proof.
  assert (Hs : forall fds m, traced guarded ok (send_all fds m)).
  { intros fds m. induction fds; simpl; trace. }
  unfold handle_subscribe, handle_unsubscribe, handle_publish, emit_subscription.
  split_and!; trace; auto.
Qed.

Lemma trace_config args : traced guarded ok (handle_config args).
Proof.
  unfold handle_config, handle_config_get, handle_config_set, emit_pair, aof_setting. trace.
Qed.

Lemma trace_acl args : traced guarded ok (handle_acl args).
Proof. unfold handle_acl, handle_acl_whoami, handle_acl_getuser, handle_acl_setuser. trace. Qed.

Lemma trace_auth fd args : traced guarded ok (handle_auth fd args).
Proof.
  unfold handle_auth. destruct (length args <? 3)%nat; [trace|]. do 2 (apply traced_bind; [trace|intros ?]).
  apply traced_with_ctx. intros c Hc. trace. by eapply traced_update_conn.
Qed.

Lemma trace_bgrewriteaof : traced guarded ok handle_bgrewriteaof.
Proof. unfold handle_bgrewriteaof. trace. Qed.

(** The scores among the arguments of ZADD, after the key. *)
Fixpoint scores_of (rest : list bytes) : list bytes :=
  match rest with
  | s :: _ :: rest => s :: scores_of rest
  | _ => []
  end.

Lemma guarded_score s d :
  (P -> number s) -> parse_double s = Some d -> guarded (OpZadd [] d []).
Proof. intros Hn Hd Hp. simpl. destruct d; try done. by destruct (Hn Hp). Qed.

Lemma trace_zadd_loop k rest n :
  (P -> Forall number (scores_of rest)) -> traced guarded ok (zadd_loop k rest n).
Proof.
  revert n. induction rest as [|s|s m rest IH] using pair_list_ind; intros n Hn; simpl; [trace..|].
  destruct (parse_double s) as [d|] eqn:Ed; [|trace]. apply traced_bind; [|intros k'].
  - apply (traced_on_store _ _ _ (OpZadd k d m)); [done|]. eapply guarded_score; [|done].
    intros Hp. by apply Hn, Forall_cons in Hp as [? _].
  - apply IH. intros Hp. apply Hn in Hp. by apply Forall_cons in Hp as [_ Hp].
Qed.

Lemma traced_arg {A} args i (f : bytes -> M A) :
  (forall a, args !! i = Some a -> traced guarded ok (f a)) -> traced guarded ok (arg args i ≫= f).
Proof.
  intros Hf e c x c'. unfold arg, vec_at, mbind, M_bind, lift. destruct (args !! i) as [a|] eqn:E; [|done].
  by apply Hf.
Qed.

Lemma trace_zadd args :
  (P -> Forall number (scores_of (drop 2 args))) -> traced guarded ok (handle_zadd args).
Proof.
  intros Hn. unfold handle_zadd. apply traced_arg. intros k _. apply traced_arg. intros s Hs.
  destruct (parse_double s) as [d|] eqn:Ed; [|trace]. apply traced_arg. intros m Hm.
  assert (Hd : drop 2 args = s :: m :: drop 4 args).
  { by rewrite <- (drop_S _ _ _ Hm), <- (drop_S _ _ _ Hs). }
  rewrite Hd in Hn. apply traced_bind; [|intros opt].
  - apply (traced_on_store _ _ _ (OpZaddIfValid k d m)); [done|].
    apply (guarded_score s d); [|done]. intros Hp. by apply Hn, Forall_cons in Hp as [? _].
  - trace. apply trace_zadd_loop. intros Hp. by apply Hn, Forall_cons in Hp as [_ ?].
Qed.

Lemma trace_zset_reads args k :
  traced guarded ok (handle_zrank args) /\ traced guarded ok (handle_zrange args)
  /\ traced guarded ok (handle_zcard k) /\ traced guarded ok (handle_zscore args)
  /\ traced guarded ok (handle_zrem args).
Proof.
  unfold handle_zrank, handle_zrange, handle_zcard, handle_zscore, handle_zrem. split_and!; trace.
Qed.

Lemma double_of_Z_nonan n : is_nan (double_of_Z n) = false.
Proof.
  assert (Hr : forall sx m e l, 0 <= m -> is_nan (binary_round_aux prec emax sx m e l) = false).
  { intros sx m e l Hm. unfold binary_round_aux.
    destruct (shr_fexp prec emax m e l) as [mrs e'] eqn:E1.
    destruct (shr_fexp prec emax _ e' loc_Exact) as [mrs2 e''] eqn:E2.
    assert (Hs : forall m e l mrs e', 0 <= m -> shr_fexp prec emax m e l = (mrs, e') -> 0 <= shr_m mrs).
    { clear. intros m e l mrs e' Hm. unfold shr_fexp, shr.
      assert (Hl : 0 <= shr_m (shr_record_of_loc m l)) by (destruct l as [|[]]; done).
      destruct (_ - e) as [|q|q]; intros [= <- <-]; [done| |done].
      assert (H1 : forall r, 0 <= shr_m r -> 0 <= shr_m (shr_1 r)).
      { intros [[|[p|p|]|p] r s]; simpl; lia. }
      revert Hl. generalize (shr_record_of_loc m l). induction q as [q IH|q IH|]; intros r Hr; simpl; auto. }
    apply Hs in E1; [|done]. apply Hs in E2.
    - destruct (shr_m mrs2) as [|q|q]; [done| |lia]. by destruct (_ <=? _).
    - unfold round_nearest_even. repeat case_match; lia. }
  unfold double_of_Z, binary_normalize, binary_round. destruct n as [|p|p]; [done|..];
    destruct (shl_align _ _ _); by apply Hr.
Qed.

Lemma trace_geo sin cos asin args :
  traced guarded ok (handle_geoadd args) /\ traced guarded ok (handle_geopos args)
  /\ traced guarded ok (handle_geodist sin cos asin args) /\ traced guarded ok (handle_geosearch sin cos asin args).
Proof.
  assert (Hloop : forall k ms, traced guarded ok (geopos_loop k ms)).
  { intros k ms. induction ms; simpl; trace; auto. }
  unfold handle_geoadd, handle_geopos, handle_geodist, handle_geosearch. split_and!; trace; auto.
  all: match goal with |- traced _ _ (on_store (fun now => zadd now ?k ?s ?m)) =>
         apply (traced_on_store _ _ _ (OpZadd k s m)); [done|]; intros _; apply double_of_Z_nonan end.
Qed.
End commands.

(** ** Whole commands *)

(** The arguments of a command hold no NaN where ZADD takes a score. *)
Definition numeric (args : list bytes) : Prop :=
  to_upper (default [] (head args)) = bs "ZADD" -> Forall number (scores_of (drop 2 args)).

#[export] Instance numeric_dec args : Decision (numeric args).
Proof. unfold numeric. apply _. Defined.

Section handler.
  Context (sin cos asin : double -> double) (P : Prop) (fds : gset Z) (W : Prop) (seen : option Z).
  Notation pol := (mkPolicy (fun args : list bytes => P -> numeric args) fds W seen).
  Notation traced := (traced (guarded P) pol).

Lemma trace_server args fd msg :
  traced (handle_ping fd) /\ traced (handle_echo msg) /\ traced handle_info
  /\ traced (handle_replconf args) /\ traced (handle_wait args) /\ traced handle_psync.
Proof.
  unfold handle_ping, handle_echo, handle_info, handle_replconf, handle_wait, handle_psync.
  split_and!; trace.
Qed.

Lemma trace_reads k :
  traced (n ← on_store (fun now => llen now k); emit_integer n)
  /\ traced (t ← on_store (fun now => get_type now k); emit_into (fun o => encode_simple_string_into o t))
  /\ traced (ks ← on_store keys; emit_array ks).
Proof. split_and!; trace. by apply (traced_on_store _ _ _ OpKeys). Qed.

Lemma trace_plain h has_send fd args : traced (h args) -> traced (plain h has_send fd args).
Proof. intros Hh. unfold plain. trace; done. Qed.

Lemma trace_plain_fd h has_send fd args : traced (h fd args) -> traced (plain_fd h has_send fd args).
Proof. intros Hh. unfold plain_fd. trace; done. Qed.

Lemma trace_on_first h has_send fd args : (forall a, traced (h a)) -> traced (on_first h has_send fd args).
Proof. intros Hh. unfold on_first. trace; done. Qed.

Lemma trace_push_entry ops has_send fd args :
  ops = rpush_ops \/ ops = lpush_ops ->
  traced (push_entry (handle_push_with_blocking ops) (handle_push ops) has_send fd args).
Proof.
  intros Ho. unfold push_entry. destruct has_send; [by apply trace_push_blocking|].
  trace. by apply trace_push.
Qed.

Lemma trace_subscribe_entry h err has_send fd args :
  (forall a, traced (h fd a)) -> traced (subscribe_entry h err has_send fd args).
Proof. intros Hh. unfold subscribe_entry. trace; done. Qed.

Lemma trace_publish_entry has_send fd args : traced (publish_entry has_send fd args).
Proof. unfold publish_entry. trace. by apply trace_pubsub. Qed.

(** What the table promises of each of its entries. *)
Definition entry_traced (en : bytes * CommandEntry) : Prop := forall has_send fd args,
  (en.1 = bs "ZADD" -> P -> Forall number (scores_of (drop 2 args))) ->
  traced (CommandHandler.handler en.2 has_send fd args).

Ltac trace_entry :=
  match goal with
  | |- HandlerTrace.traced _ _ (plain _ _ _ _) => apply trace_plain
  | |- HandlerTrace.traced _ _ (plain_fd _ _ _ _) => apply trace_plain_fd
  | |- HandlerTrace.traced _ _ (on_first _ _ _ _) => apply trace_on_first; intros ?
  | |- HandlerTrace.traced _ _ (push_entry _ _ _ _ _) => apply trace_push_entry; by auto
  | |- HandlerTrace.traced _ _ (subscribe_entry _ _ _ _ _) => apply trace_subscribe_entry; intros ?
  | |- HandlerTrace.traced _ _ (publish_entry _ _ _) => apply trace_publish_entry
  | |- _ => idtac
  end; cbv beta.

Ltac trace_handler Hn args :=
  match goal with
  | |- HandlerTrace.traced _ _ (handle_ping ?fd) => apply (trace_server args fd [])
  | |- HandlerTrace.traced _ _ (handle_echo _) => apply (trace_server args 0)
  | |- HandlerTrace.traced _ _ handle_info => apply (trace_server args 0 [])
  | |- HandlerTrace.traced _ _ (handle_replconf _) => apply (trace_server args 0 [])
  | |- HandlerTrace.traced _ _ (handle_wait _) => apply (trace_server args 0 [])
  | |- HandlerTrace.traced _ _ handle_psync => apply (trace_server args 0 [])
  | |- HandlerTrace.traced _ _ (handle_set _) => apply trace_set
  | |- HandlerTrace.traced _ _ (handle_mset _) => apply trace_mset
  | |- HandlerTrace.traced _ _ (handle_get _) => apply trace_get
  | |- HandlerTrace.traced _ _ (handle_incr _) => apply trace_incr
  | |- HandlerTrace.traced _ _ (handle_lpop _) => apply trace_lpop
  | |- HandlerTrace.traced _ _ (handle_rpop _) => apply trace_rpop
  | |- HandlerTrace.traced _ _ (handle_lrange _) => apply trace_lrange
  | |- HandlerTrace.traced _ _ (handle_blpop _ _) => apply trace_blpop
  | |- HandlerTrace.traced _ _ (handle_xadd_with_blocking _ _) => apply trace_xadd
  | |- HandlerTrace.traced _ _ (handle_xread_with_blocking _ _) => apply trace_xread
  | |- HandlerTrace.traced _ _ (handle_xrange _) => apply trace_xrange
  | |- HandlerTrace.traced _ _ (handle_zadd _) => apply trace_zadd, Hn; reflexivity
  | |- HandlerTrace.traced _ _ (handle_zcard _) => apply (trace_zset_reads _ _ args)
  | |- HandlerTrace.traced _ _ (handle_config _) => apply trace_config
  | |- HandlerTrace.traced _ _ (handle_acl _) => apply trace_acl
  | |- HandlerTrace.traced _ _ (handle_auth _ _) => apply trace_auth
  | |- HandlerTrace.traced _ _ handle_bgrewriteaof => apply trace_bgrewriteaof
  | |- HandlerTrace.traced _ _ (handle_subscribe ?fd ?ch) =>
      exact (proj1 (trace_pubsub _ _ true fd ch []))
  | |- HandlerTrace.traced _ _ (handle_unsubscribe ?fd ?ch) =>
      exact (proj1 (proj2 (trace_pubsub _ _ true fd ch [])))
  | |- HandlerTrace.traced _ _ (handle_geoadd _) => exact (proj1 (trace_geo _ _ sin cos asin args))
  | |- HandlerTrace.traced _ _ (handle_geopos _) => exact (proj1 (proj2 (trace_geo _ _ sin cos asin args)))
  | |- HandlerTrace.traced _ _ (handle_geodist _ _ _ _) =>
      exact (proj1 (proj2 (proj2 (trace_geo _ _ sin cos asin args))))
  | |- HandlerTrace.traced _ _ (handle_geosearch _ _ _ _) =>
      exact (proj2 (proj2 (proj2 (trace_geo _ _ sin cos asin args))))
  | |- HandlerTrace.traced _ _ (mbind _ (on_store keys)) => apply (trace_reads [])
  | |- HandlerTrace.traced _ _ (mbind _ _) => apply trace_reads
  | |- HandlerTrace.traced _ _ (_ args) => apply (trace_zset_reads _ _ args [])
  end.

Lemma trace_table : Forall entry_traced (command_table sin cos asin).
Proof.
  unfold command_table, string_entries, list_entries, ordered_entries, server_entries, pubsub_entries.
  cbn [app]. repeat (apply Forall_cons_2; [intros has_send fd args Hn|]); [..|apply Forall_nil_2];
    cbn [fst snd CommandHandler.handler] in *; trace_entry; trace_handler Hn args.
Qed.
End handler.
