(* ===== verification/HandlerInvariants.v ===== *)
(** * The keyspace under whole buffers of commands

    Transactions and the command loop of handler/command_handler.cpp change the
    keyspace only as the commands do, and the pool and the managers only through their
    own operations, so the invariants of all of them hold after any input. *)

From S2P Require Import Prelude Text StreamIds RespCodec Scores SortedSets Store StoreSteps.
From S2P Require Import BlockingManager PubSub Connection Sha256 Acl Doubles Aof Geo Context.
From S2P Require Import StringCommands ListCommands StreamCommands ZsetCommands GeoCommands.
From S2P Require Import PubsubCommands ServerCommands CommandHandler HandlerTrace.

Section handler.
  Context (sin cos asin : double -> double) (P : Prop) (fds : gset Z) (W : Prop) (seen : option Z).
  Notation ok := (fun args : list bytes => P -> numeric args).
  Notation pol := (mkPolicy ok fds W seen).
  Notation traced := (traced (guarded P) pol).
  Notation execute_command := (execute_command sin cos asin).
  Notation process_single_command := (process_single_command sin cos asin).
  Notation process_loop := (process_loop sin cos asin).

Lemma trace_execute has_send fd cmd args :
  (cmd = bs "ZADD" -> P -> Forall number (scores_of (drop 2 args))) ->
  traced (execute_command has_send fd cmd args).
Proof.
  intros Hn. unfold CommandHandler.execute_command, find_command.
  destruct (list_find _ _) as [[i [k en]]|] eqn:E; simpl; [|trace].
  apply list_find_Some in E as (Hi & Hk & _). simpl in Hk. subst k.
  destruct (length args <? min_args en)%nat; [trace|].
  pose proof (trace_table sin cos asin P fds W seen) as Ht. by apply (Forall_lookup_1 _ _ _ _ Ht Hi).
Qed.

Lemma trace_capture {A} (m : M A) : traced m -> traced (capture m).
Proof.
  intros Hm e c [a b] c' Hq. unfold capture.
  destruct (m e (with_out [] c)) as [[x c1]| |] eqn:E; [|done..]. intros [= <- <- <-].
  destruct (Hm e (with_out [] c) x c1) as [Hc1 Htr]; [by destruct Hq|done|]. split; [by destruct Hc1|done].
Qed.

Lemma trace_exec_loop has_send fd queue : Forall ok queue -> traced (exec_loop sin cos asin has_send fd queue).
Proof.
  induction queue as [|args queue IH]; intros Hq; simpl; [trace|]. apply Forall_cons in Hq as [Ha Hq].
  apply traced_arg. intros cmd Hcmd. apply traced_bind; [|intros [st b]].
  - apply trace_capture, trace_execute. intros Hz Hp. apply Ha; [done|].
    destruct args; [done|]. simpl in *. by simplify_eq.
  - trace; auto.
Qed.

(** The state of a transaction, when it is read, has a fine queue. *)
Lemma trace_tx_find {A} fd (f : option TransactionState -> M A) :
  (forall t, queue_ok ok t -> traced (f t)) -> traced (tx_find fd ≫= f).
Proof.
  intros Hf e c a c' Hc. unfold tx_find, mbind at 1, M_bind at 1, mbind at 1, M_bind at 1, get_ctx.
  pose proof Hc as [[Ht Hp] _ _ _]. destruct (conn_pool c) as [p|] eqn:Ep.
  - unfold get_connection, mbind at 1, M_bind at 1, lift. destruct (connections_ p !! fd) as [conn|] eqn:Ec; [|done].
    simpl. apply Hf; [by apply (Hp fd)|done].
  - simpl. apply Hf; [|done].
    destruct (transactions c !! fd) as [t|] eqn:Et; [by apply (Ht fd)|done].
Qed.

Lemma traced_transactions t :
  map_Forall (fun _ t => queue_ok ok (Some t)) t -> traced (modify (with_transactions t)).
Proof.
  intros Ht e c a c' [[_ Hp] Hf Hm Hr] [= <- <-]. split; [|by exists []]. by split; [split| | |].
Qed.

Lemma trace_tx_put fd t : queue_ok ok (Some t) -> traced (tx_put fd t).
Proof.
  intros Hok. unfold tx_put. apply traced_with_ctx. intros c Hc.
  destruct (conn_pool c) as [p|] eqn:Ep; [by eapply traced_update_conn|].
  apply traced_transactions. apply map_Forall_insert_2; [done|apply Hc].
Qed.

Lemma trace_tx_clear fd : traced (tx_clear fd).
Proof.
  unfold tx_clear. apply traced_with_ctx. intros c Hc.
  destruct (conn_pool c) as [p|] eqn:Ep; [by eapply traced_update_conn|].
  apply traced_transactions, map_Forall_delete, Hc.
Qed.

Lemma trace_tx_in_multi fd : traced (tx_in_multi fd).
Proof. unfold tx_in_multi. apply trace_tx_find. intros t _. trace. Qed.

Lemma traced_bind_assoc {A B C} (m : M A) (f : A -> M B) (g : B -> M C) :
  traced (m ≫= fun a => f a ≫= g) -> traced ((m ≫= f) ≫= g).
Proof.
  intros H e c a c' Hq Hr. apply (H e c a c' Hq). revert Hr. unfold mbind, M_bind.
  by destruct (m e c) as [[? ?]| |].
Qed.

Lemma trace_tx_get {A} fd (f : TransactionState -> M A) :
  (forall t, queue_ok ok (Some t) -> traced (f t)) -> traced (tx_get fd ≫= f).
Proof.
  intros Hf. unfold tx_get. apply traced_bind_assoc, trace_tx_find. intros t Ht.
  assert (queue_ok ok (Some (default new_tx t))) by (destruct t; [done|apply Forall_nil_2]).
  apply traced_bind_assoc, traced_bind; [by apply trace_tx_put|intros _].
  by apply (Hf (default new_tx t)).
Qed.

Lemma trace_exec has_send fd : traced (handle_exec sin cos asin has_send fd).
Proof.
  unfold handle_exec. apply traced_bind; [apply trace_tx_in_multi|intros multi].
  destruct (negb multi); [trace|]. apply trace_tx_get. intros t Ht.
  trace; auto using trace_tx_clear, trace_exec_loop.
Qed.

Lemma trace_tx_commands fd args :
  traced (handle_multi fd) /\ traced (handle_discard fd) /\ traced (handle_watch fd args)
  /\ traced (handle_unwatch fd).
Proof.
  split_and!.
  - unfold handle_multi. apply traced_bind; [apply trace_tx_in_multi|intros [|]]; [trace|].
    apply trace_tx_find. intros t Ht. apply traced_bind; [|trace]. apply trace_tx_put.
    destruct t; [done|apply Forall_nil_2].
  - unfold handle_discard. trace; auto using trace_tx_in_multi, trace_tx_clear.
  - unfold handle_watch. destruct (length args <? 2)%nat; [trace|].
    apply traced_bind; [apply trace_tx_in_multi|intros [|]]; [trace|].
    apply trace_tx_get. intros t Ht. trace. by apply trace_tx_put.
  - unfold handle_unwatch. apply trace_tx_find. intros t Ht. trace. by apply trace_tx_put.
Qed.

Lemma trace_check_auth fd cmd : traced (check_auth fd cmd).
Proof.
  unfold check_auth. apply traced_with_ctx. intros c Hc.
  case_bool_decide; [trace|]. trace. by eapply traced_update_conn.
Qed.

(** Also used when the name was not upper-cased, by EXEC. *)
Lemma trace_run_checked has_send fd args :
  ok args -> traced (run_checked sin cos asin has_send fd args (to_upper (default [] (head args)))).
Proof.
  intros Hok. destruct (trace_tx_commands fd args) as (Hm & Hd & Hw & Hu). unfold run_checked.
  apply traced_bind; [trace|intros c]. apply traced_bind; [trace|intros []].
  repeat (case_bool_decide; [apply traced_bind; [auto using trace_exec|trace]|]).
  apply traced_bind; [apply trace_tx_in_multi|intros [|]].
  - apply trace_tx_get. intros t Ht. trace. apply trace_tx_put. apply Forall_app. by split; [|constructor].
  - apply trace_execute. intros Hz Hp. by apply Hok.
Qed.

Lemma trace_single has_send fd args :
  ok args -> traced (process_single_command has_send fd args (to_upper (default [] (head args)))).
Proof.
  intros Hok. unfold CommandHandler.process_single_command. destruct args as [|a0 args]; [trace|].
  trace; [apply trace_check_auth|by apply trace_run_checked].
Qed.

(** The commands at the front of a buffer. *)
Fixpoint commands_of (fuel : nat) (input : bytes) : list (list bytes) :=
  match fuel with
  | O => []
  | S fuel =>
      match parse_one_into [] input with
      | Ret (Value n, args) => args :: commands_of fuel (drop n input)
      | _ => []
      end
  end.

Lemma log_write_same raw c : unqueued c (log_write raw c).2.
Proof. unfold log_write. by destruct (aof_manager c). Qed.

Lemma trace_loop env_at has_send fd input : forall fuel i total props c r c',
  Forall ok (commands_of fuel (drop total input)) -> ctx_ok pol c ->
  process_loop fuel env_at i has_send fd input total props c = Ret (r, c') ->
  ctx_ok pol c' /\
  exists tr, Forall (fun x => (exists j, x.1 = (steady_now (env_at j), sys_ms (env_at j))) /\ guarded P x.2) tr
    /\ run_ops tr (ctx_store c) = Ret (ctx_store c').
Proof.
  induction fuel as [|fuel IH]; intros i total props c r c' Hok Hq H; cbn [CommandHandler.process_loop] in H.
  { injection H as <- <-. split; [done|]. by exists []. }
  cbn [commands_of] in Hok. destruct (_ <=? _)%nat.
  { injection H as <- <-. split; [done|]. by exists []. }
  destruct (parse_one_into [] (drop total input)) as [[[n|e] args]| |]; cbn [mbind outcome_bind] in H; [| |done..].
  2: { injection H as <- <-. split; [done|]. by exists []. }
  apply Forall_cons in Hok as [Ha Hok]. rewrite drop_drop in Hok.
  destruct (vec_at args 0) as [name| |] eqn:Ev; cbn [mbind outcome_bind] in H; [|done..].
  assert (Hname : name = default [] (head args)) by (destruct args; by inversion Ev). rewrite Hname in H.
  destruct (process_single_command _ _ _ _ _ _) as [[st c1]| |] eqn:E; cbn [mbind outcome_bind] in H; [|done..].
  destruct (trace_single has_send fd args Ha _ _ _ _ Hq E) as (Hq1 & tr1 & Ht1 & Hr1).
  set (lw := if is_write_command _ then _ else _) in H.
  assert (Hlw : unqueued c1 lw.2) by (unfold lw; destruct (is_write_command _); [apply log_write_same|done]).
  destruct lw as [np c2]. simpl in Hlw. pose proof (unqueued_ok pol _ _ Hlw Hq1) as Hq2.
  destruct Hlw as [Hs2 _].
  assert (Ht1' : Forall (fun x => (exists j, x.1 = (steady_now (env_at j), sys_ms (env_at j))) /\ guarded P x.2) tr1).
  { eapply Forall_impl; [done|]. intros x [-> Hx]. eauto. }
  destruct st.
  2-4: injection H as <- <-; split; [done|]; exists tr1; by rewrite Hs2.
  destruct (IH _ _ _ _ _ _ Hok Hq2 H) as (Hq' & tr2 & Ht2 & Hr2). split; [done|].
  exists (tr1 ++ tr2). split; [by apply Forall_app|]. rewrite run_ops_app, Hr1. simpl. by rewrite <- Hs2.
Qed.

(** The pools a context may get. *)
Definition pool_fine (p : ConnectionPool) : Prop := pool_ok ok (Some p) /\ pool_fds (Some p) = fds.

Lemma ctx_ok_pool c p : ctx_ok pol c -> pool_fine p -> ctx_ok pol (with_pool (Some p) c).
Proof. intros [[Ht _] _ Hm Hr] [Hp Hf]. by split; [split| | |]. Qed.

Lemma ctx_pool_fine c p : ctx_ok pol c -> conn_pool c = Some p -> pool_fine p.
Proof. intros [[_ Hp] Hf _ _] He. by rewrite He in *. Qed.

Lemma ctx_ok_out c o : ctx_ok pol c -> ctx_ok pol (with_out o c).
Proof. by intros []. Qed.

Lemma pool_fine_put fd conn conn' p :
  pool_fine p -> connections_ p !! fd = Some conn -> queue_ok ok (tx_ conn') -> pool_fine (put_conn fd conn' p).
Proof.
  intros [Hp Hf] Hc Hq. split; [by apply map_Forall_insert_2|]. simpl in *. rewrite dom_insert_L, <- Hf.
  apply elem_of_dom_2 in Hc. set_solver.
Qed.

Lemma pool_fine_mark fd conn conn' p :
  pool_fine p -> connections_ p !! fd = Some conn -> queue_ok ok (tx_ conn') -> pool_fine (mark_dirty fd conn' p).
Proof.
  intros Hp Hc Hq. unfold mark_dirty. destruct (dirty_ conn'); [by eapply pool_fine_put|].
  exact (pool_fine_put fd conn (set_dirty true conn') p Hp Hc Hq).
Qed.

Lemma pool_fine_send fd b p : pool_fine p -> pool_fine (send_to fd b p).
Proof.
  intros Hp. unfold send_to. destruct (connections_ p !! fd) as [conn|] eqn:E; [|done].
  eapply pool_fine_mark; [done..|]. exact (proj1 Hp fd conn E).
Qed.

Lemma pool_fine_deliver fd evs : forall p, pool_fine p -> pool_fine (deliver fd evs p).
Proof.
  induction evs as [|ev evs IH]; intros p Hp; [done|]. simpl. apply IH.
  destruct ev as [b|fd' b]; simpl; [|by apply pool_fine_send].
  destruct (connections_ p !! fd) as [conn|] eqn:E; [|done]. eapply pool_fine_put; [done..|]. exact (proj1 Hp fd conn E).
Qed.

Lemma trace_process_with_fd env_at has_send fd input c r c' :
  Forall ok (commands_of (length input) input) -> ctx_ok pol c ->
  process_with_fd sin cos asin env_at has_send fd input c = Ret (r, c') ->
  ctx_ok pol c' /\
  exists tr, Forall (fun x => (exists j, x.1 = (steady_now (env_at j), sys_ms (env_at j))) /\ guarded P x.2) tr
    /\ run_ops tr (ctx_store c) = Ret (ctx_store c').
Proof.
  intros Hok Hq. unfold process_with_fd.
  set (start := match has_send with true => _ | false => _ end).
  assert (Hstart : forall c0, start = Ret c0 -> ctx_ok pol c0 /\ ctx_store c0 = ctx_store c).
  { unfold start. destruct has_send, (conn_pool c) as [p|] eqn:Ep; try by intros c0 [= <-].
    unfold get_pending_write, get_connection. destruct (connections_ p !! fd) as [conn|] eqn:Ec; [|done].
    intros c0 [= <-]. split; [|done]. pose proof (ctx_pool_fine c p Hq Ep) as Hp. apply ctx_ok_pool; [done|].
    eapply pool_fine_mark; [done..|]. by apply (proj1 Hp fd). }
  clearbody start. destruct start as [c0| |]; cbn [mbind outcome_bind]; [|done..].
  destruct (Hstart c0 eq_refl) as [Hq0 Hs0]. clear Hstart.
  destruct (process_loop _ _ _ _ _ _ _ _ _) as [[r1 c1]| |] eqn:El; cbn [mbind outcome_bind]; [|done..].
  intros [= <- <-]. destruct (trace_loop env_at has_send fd input (length input) 0 0 [] (with_out [] c0) r1 c1)
    as (Hq1 & tr & Ht & Hr); [by rewrite drop_0|by apply ctx_ok_out|done|].
  assert (Hst : run_ops tr (ctx_store c) = Ret (ctx_store c1)) by (by rewrite <- Hs0).
  destruct has_send, (conn_pool c1) as [p|] eqn:Ep; (split; [|by exists tr]); apply ctx_ok_out; try done.
  apply ctx_ok_pool, pool_fine_deliver; [done|]. by eapply ctx_pool_fine.
Qed.

(** A call of [process_with_fd]: the outside, whether there is a way to send to
    clients, the client and the bytes it sent. *)
Record call := mkCall { call_env : nat -> env; call_send : bool; call_fd : Z; call_input : bytes }.

Fixpoint serve (calls : list call) (c : CommandContext) : outcome CommandContext :=
  match calls with
  | [] => Ret c
  | x :: calls =>
      '(_, c) ← process_with_fd sin cos asin (call_env x) (call_send x) (call_fd x) (call_input x) c;
      serve calls c
  end.

Lemma trace_serve calls : forall c c',
  Forall (fun x => Forall ok (commands_of (length (call_input x)) (call_input x))) calls ->
  Forall (fun x => forall i, 0 <= sys_ms (call_env x i) <= INT64_MAX) calls ->
  ctx_ok pol c -> serve calls c = Ret c' ->
  exists tr, Forall (fun x => 0 <= x.1.2 <= INT64_MAX /\ guarded P x.2) tr
    /\ run_ops tr (ctx_store c) = Ret (ctx_store c').
Proof.
  induction calls as [|x calls IH]; intros c c' Hok He Hq H; cbn [serve] in H.
  { injection H as <-. by exists []. }
  apply Forall_cons in Hok as [Hx Hok]. apply Forall_cons in He as [Hex He].
  destruct (process_with_fd _ _ _ _ _ _ _ _) as [[r c1]| |] eqn:E; cbn [mbind outcome_bind] in H; [|done..].
  destruct (trace_process_with_fd _ _ _ _ _ _ _ Hx Hq E) as (Hq1 & tr1 & Ht1 & Hr1).
  destruct (IH _ _ Hok He Hq1 H) as (tr2 & Ht2 & Hr2). exists (tr1 ++ tr2). split.
  - apply Forall_app. split; [|done]. eapply Forall_impl; [done|]. intros y [[j ->] Hy]. split; [apply Hex|done].
  - by rewrite run_ops_app, Hr1.
Qed.
End handler.

(** * Properties *)

(** Whatever clients send, the keyspace stays well-formed.  Take any sequence of
    calls of [process_with_fd], each with any bytes (whole commands, pipelines,
    fragments, garbage), from any clients, with transactions, blocking commands and
    subscriptions among them, of which no ZADD has a NaN for a score and which return.
    Then every stream is in strictly increasing identifier order, and every sorted set
    is in strict (score, member) order with its two structures in agreement. *)
Theorem served_keyspace_well_formed (sin cos asin : double -> double) (calls : list call)
    (c c' : CommandContext) :
  data_wf (data_ (ctx_store c)) -> queues_ok numeric c ->
  Forall (fun x => Forall numeric (commands_of (length (call_input x)) (call_input x))) calls ->
  Forall (fun x => forall i, 0 <= sys_ms (call_env x i) <= INT64_MAX) calls ->
  serve sin cos asin calls c = Ret c' ->
  data_wf (data_ (ctx_store c')).
Proof.
  intros Hwf Hq Hn He H.
  destruct (trace_serve sin cos asin True (pool_fds (conn_pool c)) False (replica_count_fn c) calls c c') as (tr & Ht & Hr); [| | |done|].
  - eapply Forall_impl; [exact Hn|]. intros x Hx. eapply Forall_impl; [exact Hx|]. by intros args Ha _.
  - done.
  - split; [|done..]. eapply queues_ok_impl; [|done]. by intros args Ha _.
  - eapply run_ops_wf; [|done..]. eapply Forall_impl; [done|]. intros x [? Hx]. split; [done|by apply Hx].
Qed.

Definition resp (cmds : list string) : bytes :=
  encode_array (bs <$> cmds).

(** Two clients: one fills a stream and a sorted set inside a transaction, the other
    adds to both and leaves an unfinished command. *)
Definition example_calls : list call :=
  let at_ms (t : Z) (_ : nat) := mkEnv (t * 1000000) t true (child_at (t * 1000000)) in
  [ mkCall (at_ms 5) true 7 (resp ["MULTI"] ++ resp ["ZADD"; "z"; "2.5"; "b"; "1"; "a"]
      ++ resp ["XADD"; "s"; "*"; "f"; "v"] ++ resp ["EXEC"]);
    mkCall (at_ms 6) true 8 (resp ["zadd"; "z"; "2"; "b"] ++ resp ["XADD"; "s"; "5-*"; "g"; "w"]
      ++ bs "*3 unfinished") ]%string.

Definition example_ctx : CommandContext :=
  with_pool (Some (pool_add 8 (pool_add 7 empty_pool))) (new_ctx empty_store
    (mkServerConfig None (bs "id") (bs "dir") (bs "dump"))).

Lemma served_keyspace_well_formed_witness :
  exists c', serve id id id example_calls example_ctx = Ret c' /\ data_wf (data_ (ctx_store c'))
    /\ (se_id <$> (xrange 0 (bs "s") (bs "-") (bs "+") (ctx_store c')).2) = bs <$> ["5-0"; "5-1"]%string.
Proof.
  eexists. split; [vm_compute; reflexivity|]. split.
  - apply (served_keyspace_well_formed id id id example_calls example_ctx).
    + apply map_Forall_empty.
    + split; [apply map_Forall_empty|]. apply map_Forall_insert_2; [done|]. by apply map_Forall_singleton.
    + apply (bool_decide_unpack _). vm_compute. exact I.
    + repeat constructor; done.
    + vm_compute; reflexivity.
  - vm_compute; reflexivity.
Defined.
