(* ===== verification/WakeSpec.v ===== *)
(** * Who is woken and what they get

    Theorems on the commands that write to other clients: RPUSH and LPUSH
    (handler/list_commands.cpp), XADD (handler/stream_commands.cpp) and PUBLISH
    (handler/pubsub_commands.cpp). *)

From S2P Require Import Prelude Text StreamIds RespCodec Scores SortedSets Store StoreSteps.
From S2P Require Import StoreSpec BlockingManager PubSub Connection Sha256 Acl Doubles Aof Context.
From S2P Require Import ListCommands StreamCommands PubsubCommands.

(** ** Lists *)

(** The key does not hold a value of another type. *)
Definition listable (now : Z) (key : bytes) (st : Store) : Prop :=
  forall e, live now key st = Some e -> is_Some (alt_get_if (T := list bytes) (value e)).

Section pushes.
  Context (p : bytes -> list bytes -> list bytes) (now : Z) (key : bytes).

Lemma push_at v st :
  list_at now key (push p now key v st).1 = p v (list_at now key st)
  /\ (push p now key v st).2 = zlen (p v (list_at now key st)).
Proof.
  unfold push. destruct (get_or_create_typed (list bytes) now key (touch_key key st)) as [st' [l exp]] eqn:E.
  apply get_or_create_live in E as (Hl & Hput & _ & _). rewrite live_touch in Hl.
  change (l = list_at now key st) in Hl. subst l. simpl. split; [|done].
  unfold list_at at 1. by rewrite Hput.
Qed.

Lemma push_if_valid_at v st :
  listable now key st ->
  exists st', push_if_valid_type p now key v st = (st', Some (zlen (p v (list_at now key st))))
    /\ list_at now key st' = p v (list_at now key st).
Proof.
  intros Hok. unfold push_if_valid_type, list_at, listable, live in *.
  destruct (data_ st !! key) as [e|] eqn:Ed.
  - destruct (is_expired now e) eqn:Ex; simpl.
    + eexists. split; [done|]. simpl. unfold map_emplace. rewrite lookup_delete_eq. simpl.
      by rewrite lookup_insert_eq.
    + destruct (Hok e eq_refl) as [l Hl]. simpl in *. rewrite Hl. eexists. split; [done|].
      unfold put_value. simpl. rewrite lookup_insert_eq.
      assert (is_expired now (mkEntry (VList (p v l)) (expiry e)) = false) as -> by exact Ex. done.
  - eexists. split; [done|]. simpl. unfold map_emplace. rewrite Ed. by rewrite lookup_insert_eq.
Qed.
End pushes.

Lemma lpop1_at now key st :
  (lpop_n now key 1 st).2 = take 1 (list_at now key st)
  /\ list_at now key (lpop_n now key 1 st).1 = drop 1 (list_at now key st).
Proof.
  destruct (pop_n_at now key 1 st) as (Happ & Hlen & _). revert Happ Hlen.
  generalize (lpop_n now key 1 st). intros [st' r]; simpl. generalize (list_at now key st). intros l Happ Hlen.
  assert (length r = 1 `min` length l)%nat as Hr by (rewrite Hlen; unfold zlen; lia).
  destruct r as [|x [|y r]], l as [|z l]; simpl in *; simplify_eq; try done; lia.
Qed.

(** ** Waking *)

(** What a push sees of a context: the list under the key, the clients that wait for
    the key, and the output so far. *)
Record view (now : Z) (key : bytes) (c : CommandContext) (l : list bytes) (ws : list BlockedClient)
    (o : list out_event) : Prop := {
  view_list : list_at now key (ctx_store c) = l;
  view_wait : exists bm, blocking_manager c = Some bm /\ blocking_wf bm /\ waiting key bm = ws;
  view_out : out c = o
}.

Lemma view_on_store {A} (f : Z -> Store -> Store * A) e c key l ws o :
  view (steady_now e) key c l ws o ->
  exists c', on_store f e c = Ret ((f (steady_now e) (ctx_store c)).2, c')
    /\ view (steady_now e) key c' (list_at (steady_now e) key (f (steady_now e) (ctx_store c)).1) ws o.
Proof.
  intros [_ Hw Ho]. unfold on_store. destruct (f (steady_now e) (ctx_store c)) as [st a] eqn:E.
  eexists. split; [done|]. by split.
Qed.

Lemma blocking_wf_wake key bm : blocking_wf bm -> blocking_wf (wake_client key bm).1.
Proof. apply bm_step_wf. constructor. Qed.

(** The longest-waiting client, if there is one, stops waiting and gets the first
    element of the list, if there is one. *)
Lemma try_wake_view e key c l ws o :
  view (steady_now e) key c l ws o ->
  exists c', try_wake true key e c = Ret (negb (bool_decide (ws = [])), c')
    /\ view (steady_now e) key c'
         (match ws with [] => l | _ => drop 1 l end) (tail ws)
         (o ++ match ws, l with w :: _, x :: _ => [Send (bc_fd w) (encode_array [key; x])] | _, _ => [] end).
Proof.
  intros Hv. pose proof Hv as [Hl (bm & Hbm & Hwf & Hws) Ho]. unfold try_wake. mstep. rewrite Hbm.
  destruct (wake_waiting key bm Hwf) as [Hhead Hall]. specialize (Hall key).
  rewrite decide_True in Hall by done. pose proof (blocking_wf_wake key bm Hwf) as Hwf'.
  destruct (wake_client key bm) as [bm' r]; simpl in Hhead, Hall, Hwf'. subst r. rewrite Hws in *. mstep.
  destruct ws as [|w ws]; simpl.
  { eexists. split; [done|]. rewrite app_nil_r. split; [done|eauto|done]. }
  assert (Hv' : view (steady_now e) key (with_blocking (Some bm') c) l ws o) by (split; eauto).
  destruct (view_on_store (fun now => lpop_n now key 1) _ _ _ _ _ _ Hv') as (c1 & Hrun & Hv1).
  change (ctx_store (with_blocking (Some bm') c)) with (ctx_store c) in *.
  destruct (lpop1_at (steady_now e) key (ctx_store c)) as [Hr Hd].
  cbv beta in Hrun, Hv1. rewrite Hr in Hrun. rewrite bind_eq, Hrun. rewrite Hd in Hv1. rewrite Hl in *. destruct l as [|x l]; simpl in *.
  - eexists. split; [done|]. by rewrite app_nil_r.
  - mstep. eexists. split; [done|]. destruct Hv1 as [H1 H2 H3]. split; [done..|]. simpl. by rewrite H3.
Qed.

(** After the first element, each element that finds a waiting client is dropped; the
    rest are pushed. *)
Lemma push_wake_loop_view p e key vs : forall c l ws o count,
  (ws <> [] -> l = []) -> view (steady_now e) key c l ws o ->
  let left := drop (length ws) vs in
  let l' := fold_left (fun l v => p v l) left l in
  exists c', push_wake_loop (mkPushOps (push_if_valid_type p) (push p)) true key vs count e c
      = Ret (if bool_decide (left = []) then count else zlen l', c')
    /\ view (steady_now e) key c' l' (drop (length vs) ws) o.
Proof.
  induction vs as [|v vs IH]; intros c l ws o count Hl Hv; cbn zeta.
  { rewrite drop_nil. eexists. split; [reflexivity|done]. }
  cbn [push_wake_loop]. destruct (try_wake_view e key c l ws o Hv) as (c1 & Hrun & Hv1).
  rewrite bind_eq, Hrun. destruct ws as [|w ws]; simpl in Hv1 |- *.
  - rewrite app_nil_r in Hv1.
    destruct (view_on_store (fun now => push p now key v) _ _ _ _ _ _ Hv1) as (c2 & Hrun2 & Hv2).
    destruct (push_at p (steady_now e) key v (ctx_store c1)) as [Hat Hn].
    rewrite bind_eq. cbn [next_push]. rewrite Hrun2. cbv beta in Hv2. rewrite Hat in Hv2.
    rewrite (view_list _ _ _ _ _ _ Hv1) in *.
    destruct (IH c2 (p v l) [] o (push p (steady_now e) key v (ctx_store c1)).2) as (c3 & Hrun3 & Hv3); [done..|].
    rewrite Hrun3. simpl in Hv3. rewrite drop_nil in Hv3. eexists. split; [|done]. rewrite Hn.
    by destruct vs.
  - rewrite Hl in * by done. simpl in Hv1. rewrite app_nil_r in Hv1. apply IH; [done..|]. done.
Qed.

(** The list that [p] builds from nothing. *)
Definition pushed (p : bytes -> list bytes -> list bytes) (vs l : list bytes) : list bytes :=
  fold_left (fun l v => p v l) vs l.

Lemma push_blocking_view p e key v vs name c l ws o :
  p v [] = [v] -> (ws <> [] -> l = []) ->
  listable (steady_now e) key (ctx_store c) -> view (steady_now e) key c l ws o ->
  let left := drop (length ws - 1) vs in
  exists c', handle_push_with_blocking (mkPushOps (push_if_valid_type p) (push p)) true
               (name :: key :: v :: vs) e c = Ret (Normal, c')
    /\ match ws with
       | [] => view (steady_now e) key c' (pushed p (v :: vs) l) []
                 (o ++ [Emit (encode_integer (zlen (pushed p (v :: vs) l)))])
       | w :: ws => view (steady_now e) key c' (pushed p left []) (drop (length vs) ws)
           (o ++ [Send (bc_fd w) (encode_array [key; v]);
                  Emit (encode_integer (if bool_decide (left = []) then 1 else zlen (pushed p left [])))])
       end.
Proof.
  intros Hp1 Hl Hok Hv left. unfold handle_push_with_blocking. mstep.
  destruct (push_if_valid_at p (steady_now e) key v (ctx_store c) Hok) as (st & Hpush & Hst).
  unfold on_store. cbn [first_push]. rewrite Hpush. mstep. rewrite (view_list _ _ _ _ _ _ Hv) in *.
  assert (Hv0 : view (steady_now e) key (with_store st c) (p v l) ws o) by (destruct Hv; by split).
  destruct (try_wake_view e key _ _ _ _ Hv0) as (c1 & Hrun1 & Hv1). rewrite Hrun1. mstep.
  destruct ws as [|w ws].
  - rewrite app_nil_r in Hv1.
    destruct (push_wake_loop_view p e key vs c1 (p v l) [] o (zlen (p v l)) ltac:(done) Hv1) as (c2 & Hrun2 & Hv2).
    simpl in Hv1. cbn [drop]; rewrite drop_0, Hrun2. mstep. eexists. split; [done|]. destruct Hv2 as [H1 H2 H3].
    rewrite drop_nil in H2. split; [done..|]. simpl. rewrite H3, encode_integer_into_eq. by destruct vs.
  - rewrite Hl in * by done. rewrite Hp1 in *. simpl in Hv1.
    assert (Hleft : left = drop (length ws) vs) by (unfold left; f_equal; simpl; lia). rewrite Hleft.
    destruct (push_wake_loop_view p e key vs c1 [] ws _ (zlen [v]) ltac:(done) Hv1) as (c2 & Hrun2 & Hv2).
    cbn [drop]; rewrite drop_0, Hrun2. mstep. eexists. split; [done|]. destruct Hv2 as [H1 H2 H3].
    split; [done..|]. simpl. rewrite H3, encode_integer_into_eq, <- app_assoc. done.
Qed.

Lemma pushed_back vs l : pushed push_back vs l = l ++ vs.
Proof.
  unfold pushed. revert l. induction vs as [|v vs IH]; intros l; simpl; [by rewrite app_nil_r|].
  rewrite IH. unfold push_back. by rewrite <- app_assoc.
Qed.

Lemma pushed_front vs l : pushed push_front vs l = rev vs ++ l.
Proof.
  unfold pushed. revert l. induction vs as [|v vs IH]; intros l; simpl; [done|].
  rewrite IH. unfold push_front. by rewrite <- app_assoc.
Qed.

(** ** Streams *)

(** The clients that wait for the key and have not seen [sid]. *)
Definition behind (sid : StreamId) (ws : list BlockedClient) : list BlockedClient :=
  filter (fun w => sid_lt (last_id w) sid) ws.

(** What a reader is sent: the entries after the last it has seen. *)
Definition reader_message (now : Z) (key : bytes) (st : Store) (w : BlockedClient) : out_event :=
  Send (bc_fd w) (encode_stream_entries [(key, (xread now key (sid_to_string (last_id w)) st).2)]).

Lemma xread_same_stream now key id key' id' st :
  (xread now key' id' (xread now key id st).1).2 = (xread now key' id' st).2.
Proof.
  assert (Hsame : forall j, live now j (xread now key id st).1 = live now j st).
  { intros j. assert (H : (xread now key id st).1 = (find_valid_entry now key st).1).
    { unfold xread, get_typed. destruct (find_valid_entry now key st) as [st1 [e|]]; [|done]. simpl.
      by repeat case_match. }
    rewrite H. apply live_find_valid. lia. }
  pose proof (get_typed_live (list StreamEntry) now key' (xread now key id st).1) as H1.
  pose proof (get_typed_live (list StreamEntry) now key' st) as H2. rewrite Hsame in H1.
  unfold xread at 1 3.
  destruct (get_typed (list StreamEntry) now key' (xread now key id st).1) as [s1 o1].
  destruct (get_typed (list StreamEntry) now key' st) as [s2 o2]. simpl in H1, H2. subst o1 o2.
  by repeat case_match.
Qed.

Lemma reader_message_xread now key id st (ws : list BlockedClient) :
  reader_message now key (xread now key id st).1 <$> ws = reader_message now key st <$> ws.
Proof.
  apply list_fmap_ext. intros i w _. unfold reader_message. by rewrite xread_same_stream.
Qed.

Lemma wake_readers_all e key id sid : sid_parse id = Some sid -> forall fuel c bm,
  blocking_manager c = Some bm -> blocking_wf bm -> (length (waiting key bm) < fuel)%nat ->
  exists c' bm', wake_readers fuel true key id e c = Ret ((), c')
    /\ out c' = out c ++ (reader_message (steady_now e) key (ctx_store c) <$> behind sid (waiting key bm))
    /\ blocking_manager c' = Some bm' /\ blocking_wf bm'
    /\ (forall k, waiting k bm' = if decide (k = key) then filter (fun w => ~ sid_lt (last_id w) sid) (waiting key bm)
                                  else waiting k bm).
Proof.
  intros Hid. induction fuel as [|fuel IH]; intros c bm Hbm Hwf Hf; [lia|].
  cbn [wake_readers]. mstep. rewrite Hbm.
  pose proof (wake_stream_waiting key id sid bm Hwf Hid) as Hw. cbv zeta in Hw.
  assert (Hwf' : blocking_wf (wake_client_for_stream key id bm).1)
    by (eapply bm_step_wf; [apply step_wake_stream|done]).
  destruct (wake_client_for_stream key id bm) as [bm1 [w|]]; simpl in Hwf'; mstep.
  - destruct Hw as (w1 & w2 & Hq & Hlt & H1 & Hall). pose proof (Hall key) as Hk.
    rewrite decide_True in Hk by done. unfold on_store. mstep. simpl ctx_store.
    destruct (xread (steady_now e) key (sid_to_string (last_id w)) (ctx_store c)) as [st1 entries] eqn:Ex.
    mstep. set (c1 := with_out _ _).
    destruct (IH c1 bm1) as (c' & bm' & Hrun & Hout & Hbm' & Hwf1 & Hall'); [done..| |].
    { rewrite Hk. rewrite Hq in Hf. rewrite !length_app in *. simpl in Hf. lia. }
    exists c', bm'. rewrite Hrun. split_and!; [done| |done..|].
    + rewrite Hout. unfold c1. simpl. rewrite Hk, Hq, <- app_assoc. f_equal. simpl.
      assert (Hst1 : st1 = (xread (steady_now e) key (sid_to_string (last_id w)) (ctx_store c)).1) by (by rewrite Ex).
      rewrite Hst1, reader_message_xread. unfold behind.
      rewrite !filter_app, (list_filter_none _ w1) by (by apply Forall_forall).
      rewrite filter_cons_True by done. simpl. f_equal.
      unfold reader_message. by rewrite Ex.
    + intros k. rewrite Hall'. case_decide; [|by rewrite Hall, decide_False]. rewrite Hk, Hq.
      rewrite !filter_app, (filter_cons_False _ w) by tauto. done.
  - destruct Hw as [Hno ->]. exists (with_blocking (Some bm) c), bm. split_and!; [done| |done..|].
    + unfold behind. rewrite list_filter_none by (by apply Forall_forall). by rewrite app_nil_r.
    + intros k. case_decide; [subst|done]. by rewrite list_filter_all by (by apply Forall_forall).
Qed.

(** ** Publishing *)
Lemma send_all_out fds msg e : forall c,
  send_all fds msg e c = Ret ((), with_out (out c ++ ((fun fd => Send fd msg) <$> fds)) c).
Proof.
  induction fds as [|fd fds IH]; intros c; cbn [send_all].
  { simpl. rewrite app_nil_r. by destruct c. }
  mstep. rewrite IH. simpl. by rewrite <- app_assoc.
Qed.

(** * Properties *)

(** C16: what RPUSH and LPUSH do when the commands may wake clients blocked in BLPOP.
    Clients wait only while the list is empty.
    With nobody waiting the elements are added at the right or left end and the reply
    is the new length.  With the clients [w :: ws] waiting, first come first, the
    first element goes to [w] and to nobody else; then each client of [ws] stops
    waiting at the cost of one further element, which no one gets, and what is left
    after that becomes the list. *)
Theorem push_serves_longest_waiting (e : env) (name key v : bytes) (vs l : list bytes) (ws : list BlockedClient)
    (bm : BlockingManager) (c : CommandContext) :
  let now := steady_now e in
  listable now key (ctx_store c) -> blocking_manager c = Some bm -> blocking_wf bm ->
  waiting key bm = ws -> list_at now key (ctx_store c) = l -> (ws <> [] -> l = []) ->
  exists c1 c2 : CommandContext,
    handle_rpush_with_blocking true (name :: key :: v :: vs) e c = Ret (Normal, c1)
    /\ handle_lpush_with_blocking true (name :: key :: v :: vs) e c = Ret (Normal, c2)
    /\ match ws with
       | [] => list_at now key (ctx_store c1) = l ++ v :: vs
           /\ list_at now key (ctx_store c2) = rev vs ++ v :: l
           /\ out c1 = out c ++ [Emit (encode_integer (zlen (l ++ v :: vs)))]
           /\ out c2 = out c1
       | w :: ws => let left := drop (length ws) vs in
           list_at now key (ctx_store c1) = left /\ list_at now key (ctx_store c2) = rev left
           /\ out c1 = out c ++ [Send (bc_fd w) (encode_array [key; v]); Emit (encode_integer (Z.max 1 (zlen left)))]
           /\ out c2 = out c1
           /\ (waiting key <$> blocking_manager c1) = Some (drop (length vs) ws)
           /\ (waiting key <$> blocking_manager c2) = Some (drop (length vs) ws)
       end.
Proof.
  cbv zeta. intros Hok Hbm Hwf Hws Hl Hne.
  assert (Hv : view (steady_now e) key c l ws (out c)) by (split; eauto).
  destruct (push_blocking_view push_back e key v vs name c l ws _ eq_refl Hne Hok Hv) as (c1 & Hr1 & Hv1).
  destruct (push_blocking_view push_front e key v vs name c l ws _ eq_refl Hne Hok Hv) as (c2 & Hr2 & Hv2).
  exists c1, c2. split; [exact Hr1|]. split; [exact Hr2|].
  destruct ws as [|w ws]; destruct Hv1 as [Hl1 (b1 & Hb1 & _ & Hw1) Ho1], Hv2 as [Hl2 (b2 & Hb2 & _ & Hw2) Ho2].
  - rewrite pushed_back in Hl1, Ho1. rewrite pushed_front in Hl2, Ho2. rewrite Hl1, Hl2, Ho1, Ho2. simpl rev.
    rewrite <- app_assoc. split_and!; [done..|]. do 4 f_equal. unfold zlen. rewrite !length_app, length_rev.
    simpl. lia.
  - rewrite Hb1, Hb2. simpl. rewrite Hw1, Hw2. rewrite pushed_back in Hl1, Ho1. rewrite pushed_front in Hl2, Ho2.
    rewrite app_nil_r in Hl2, Ho2. simpl length in *. rewrite Nat.sub_1_r in *. simpl pred in *.
    rewrite Hl1, Hl2, Ho1, Ho2. unfold zlen. rewrite length_rev.
    assert (Hmax : (if bool_decide (drop (length ws) vs = []) then 1 else Z.of_nat (length (drop (length ws) vs)))
      = Z.max 1 (Z.of_nat (length (drop (length ws) vs)))) by (destruct (drop (length ws) vs); simpl; lia).
    simpl app. rewrite Hmax. done.
Qed.

Definition blocked_example : BlockingManager :=
  mkBlockingManager {[ bs "l" := [(0, mkBlockedClient 5 (bs "l") INT64_MAX (mkStreamId 0 0));
                                  (1, mkBlockedClient 6 (bs "l") INT64_MAX (mkStreamId 0 0))];
                       bs "s" := [(2, mkBlockedClient 7 (bs "s") INT64_MAX (mkStreamId 1 0));
                                  (3, mkBlockedClient 8 (bs "s") INT64_MAX (mkStreamId 9 0));
                                  (4, mkBlockedClient 9 (bs "s") INT64_MAX (mkStreamId 2 0))] ]}
    {[ 5 := 0; 6 := 1; 7 := 2; 8 := 3; 9 := 4 ]} 5.

Lemma blocked_example_wf : blocking_wf blocked_example.
Proof.
  assert (H : exists b1 b2 b3 b4,
    block_client_for_stream 0 5 (bs "l") (mkStreamId 0 0) 0 empty_blocking = Ret b1
    /\ block_client_for_stream 0 6 (bs "l") (mkStreamId 0 0) 0 b1 = Ret b2
    /\ block_client_for_stream 0 7 (bs "s") (mkStreamId 1 0) 0 b2 = Ret b3
    /\ block_client_for_stream 0 8 (bs "s") (mkStreamId 9 0) 0 b3 = Ret b4
    /\ block_client_for_stream 0 9 (bs "s") (mkStreamId 2 0) 0 b4 = Ret blocked_example).
  { do 4 eexists. split_and!; vm_compute; reflexivity. }
  destruct H as (b1 & b2 & b3 & b4 & H1 & H2 & H3 & H4 & H5).
  by eapply block_wf, H5; eapply block_wf, H4; eapply block_wf, H3; eapply block_wf, H2; eapply block_wf, H1;
    apply empty_blocking_ok.
Qed.

Definition blocked_ctx : CommandContext :=
  with_blocking (Some blocked_example) (new_ctx empty_store (mkServerConfig None [] [] [])).
Definition env0 : env := mkEnv 0 4 true (child_at 0).

(** Two clients wait; of three elements the first is received, the second lost, the
    third kept. *)
Lemma push_serves_longest_waiting_witness :
  exists c1, handle_rpush_with_blocking true (bs <$> ["RPUSH"; "l"; "a"; "b"; "c"]%string) env0 blocked_ctx
      = Ret (Normal, c1)
    /\ list_at 0 (bs "l") (ctx_store c1) = [bs "c"]
    /\ out c1 = [Send 5 (encode_array [bs "l"; bs "a"]); Emit (encode_integer 1)].
Proof.
  destruct (push_serves_longest_waiting env0 (bs "RPUSH") (bs "l") (bs "a") [bs "b"; bs "c"] []
    (waiting (bs "l") blocked_example) blocked_example blocked_ctx) as (c1 & c2 & H1 & _ & H).
  - by intros e He.
  - reflexivity.
  - apply blocked_example_wf.
  - reflexivity.
  - reflexivity.
  - done.
  - destruct H as (Hl & _ & Ho & _). exists c1. split; [exact H1|]. split; [exact Hl|exact Ho].
Defined.

(** C15: XADD wakes exactly the readers that have not seen the new entry.  When XADD
    succeeds on a well-formed keyspace, the entry is appended with the identifier that
    is replied; every client blocked on the key whose last identifier is smaller gets,
    in the order they came and before the reply, the entries after its own last
    identifier, and stops waiting; every other client goes on waiting. *)
Theorem xadd_wakes_readers_behind (e : env) (name key id r : bytes) (rest : list bytes) (st1 : Store)
    (bm : BlockingManager) (c : CommandContext) :
  let now := steady_now e in
  0 <= sys_ms e <= INT64_MAX -> data_wf (data_ (ctx_store c)) ->
  blocking_manager c = Some bm -> blocking_wf bm -> Nat.odd (length rest) = false ->
  xadd_if_valid_type now (sys_ms e) key id (pairs_of rest) (ctx_store c) = Ret (st1, Some r) ->
  starts_with (bs "ERR") r = false ->
  exists sid c' bm',
    sid_parse r = Some sid
    /\ stream_at now key st1 = stream_at now key (ctx_store c) ++ [mkStreamEntry r sid (pairs_of rest)]
    /\ handle_xadd_with_blocking true (name :: key :: id :: rest) e c = Ret (Normal, c')
    /\ out c' = out c ++ (reader_message now key st1 <$> behind sid (waiting key bm)) ++ [Emit (encode_bulk_string r)]
    /\ blocking_manager c' = Some bm'
    /\ (forall k, waiting k bm' = if decide (k = key) then filter (fun w => ~ sid_lt (last_id w) sid) (waiting key bm)
                                  else waiting k bm).
Proof.
  cbv zeta. intros Hsys Hwf Hbm Hbwf Hodd Hx Herr.
  assert (Hadd : xadd (steady_now e) (sys_ms e) key id (pairs_of rest) (ctx_store c) = Ret (st1, r)).
  { unfold xadd_if_valid_type in Hx. cbv zeta in Hx.
    match type of Hx with (if ?b then _ else _) = _ => destruct b; [by inversion Hx|] end.
    destruct (xadd _ _ _ _ _ _) as [[? ?]| |]; by inversion Hx. }
  apply xadd_appends in Hadd as [_ [(sid & Hsid & _ & Hst & _)|[Hr _]]]; [|congruence|done..].
  destruct (wake_readers_all e key r sid Hsid (S (length (waiting key bm))) (with_store st1 c) bm)
    as (c1 & bm' & Hrun & Hout & Hbm' & _ & Hall); [done..|lia|].
  exists sid, (with_out (out c1 ++ [Emit (encode_bulk_string r)]) c1), bm'. split_and!; [exact Hsid|exact Hst| | |exact Hbm'|exact Hall].
  - unfold handle_xadd_with_blocking. mstep. replace (length (name :: key :: id :: rest) - 3)%nat with (length rest)
      by (simpl; lia). rewrite Hodd. unfold on_store_o. mstep. cbn [drop]. rewrite drop_0, Hx, Herr. mstep.
    unfold queue_length. simpl blocking_manager. rewrite Hbm, Hrun. mstep.
    by rewrite encode_bulk_string_into_eq, encode_bulk_string_eq.
  - simpl. by rewrite Hout, <- app_assoc.
Qed.

(** Of three readers the two behind the new identifier 4-0 are woken. *)
Lemma xadd_wakes_readers_behind_witness :
  exists c' bm', handle_xadd_with_blocking true (bs <$> ["XADD"; "s"; "*"; "f"; "v"]%string) env0 blocked_ctx
      = Ret (Normal, c')
    /\ (match out c' with [Send 7 _; Send 9 _; Emit b] => b = encode_bulk_string (bs "4-0") | _ => False end)
    /\ blocking_manager c' = Some bm' /\ (bc_fd <$> waiting (bs "s") bm') = [8].
Proof.
  assert (Hx : exists st1, xadd_if_valid_type 0 4 (bs "s") (bs "*") [(bs "f", bs "v")] empty_store
                           = Ret (st1, Some (bs "4-0"))) by (eexists; vm_compute; reflexivity).
  destruct Hx as [st1 Hx].
  destruct (xadd_wakes_readers_behind env0 (bs "XADD") (bs "s") (bs "*") (bs "4-0") [bs "f"; bs "v"] st1
    blocked_example blocked_ctx) as (sid & c' & bm' & Hsid & _ & Hrun & Hout & Hbm & Hw).
  - done.
  - apply map_Forall_empty.
  - reflexivity.
  - apply blocked_example_wf.
  - reflexivity.
  - exact Hx.
  - reflexivity.
  - exists c', bm'. vm_compute in Hsid. injection Hsid as <-. split; [exact Hrun|].
    split; [rewrite Hout; reflexivity|]. split; [exact Hbm|]. rewrite Hw. reflexivity.
Defined.

(** C32: PUBLISH sends the message once to each subscriber of the channel and to no
    other client, changes nothing else, and replies with the number of subscribers. *)
Theorem publish_reaches_subscribers (e : env) (channel message : bytes) (ps : PubSubManager) (c : CommandContext) :
  pubsub_manager c = Some ps ->
  let msg := encode_array [bs "message"; channel; message] in
  exists sent c', handle_publish true channel message e c = Ret ((), c')
    /\ c' = with_out (out c ++ sent ++ [Emit (encode_integer (zlen sent))]) c
    /\ NoDup sent
    /\ (forall ev, ev ∈ sent <-> exists fd, ev = Send fd msg /\ fd ∈ get_subscribers channel ps).
Proof.
  intros Hps msg. unfold handle_publish. mstep. rewrite Hps. mstep. rewrite send_all_out. mstep.
  exists ((fun fd => Send fd msg) <$> elements (get_subscribers channel ps)). eexists. split_and!; [done|..].
  - simpl. rewrite <- app_assoc, encode_integer_into_eq. unfold zlen. by rewrite length_fmap.
  - assert (Inj (=) (=) (fun fd => Send fd msg)) by (by intros ? ? [= ->]).
    apply NoDup_fmap_2; [done|apply NoDup_elements].
  - intros ev. rewrite list_elem_of_fmap. by setoid_rewrite elem_of_elements.
Qed.

Lemma publish_reaches_subscribers_witness :
  let ps := (subscribe 9 (bs "ch") (subscribe 4 (bs "ch") empty_pubsub).1).1 in
  let c := with_pubsub (Some ps) (new_ctx empty_store (mkServerConfig None [] [] [])) in
  pubsub_manager c = Some ps /\
  exists c', handle_publish true (bs "ch") (bs "hi") env0 c = Ret ((), c') /\ length (out c') = 3%nat
    /\ Send 9 (encode_array [bs "message"; bs "ch"; bs "hi"]) ∈ out c'.
Proof.
  intros ps c. split; [reflexivity|].
  destruct (publish_reaches_subscribers env0 (bs "ch") (bs "hi") ps c eq_refl)
    as (sent & c' & Hrun & Hc' & Hnd & Hsent).
  exists c'. split; [exact Hrun|]. split.
  - revert Hrun. vm_compute. intros [= <-]. reflexivity.
  - rewrite Hc'. cbn [out with_out]. apply elem_of_app. right. apply elem_of_app. left.
    apply Hsent. exists 9. split; [reflexivity|]. by apply (bool_decide_unpack _).
Defined.
