(* ===== verification/HandlerSpec.v ===== *)
(** * What the command handler guarantees

    Theorems on handler/command_handler.cpp: pipelining, the end of the loop, an EXEC
    whose watched keys have changed, and SET and GET from bytes to bytes; with the lemmas
    on the checks and on transactions that ClientSpec.v builds on. *)

From S2P Require Import Prelude Text StreamIds RespCodec Scores SortedSets Store StoreSteps.
From S2P Require Import StoreSpec BlockingManager PubSub Connection Sha256 Acl Doubles Aof Geo.
From S2P Require Import Context StringCommands ListCommands StreamCommands ZsetCommands GeoCommands.
From S2P Require Import PubsubCommands ServerCommands CommandHandler.

(** The name a command is looked up by. *)
Definition command_name (args : list bytes) : bytes := to_upper (default [] (head args)).

(** The write commands of a list, as they are logged and sent to the replicas. *)
Definition writes_of (cmds : list (list bytes)) : list (list bytes) :=
  filter (fun args => is_write_command (command_name args) = true) cmds.

Section handler.
  Context (sin cos asin : double -> double).
  Notation process_single_command := (process_single_command sin cos asin).
  Notation process_loop := (process_loop sin cos asin).
  Notation process_with_fd := (process_with_fd sin cos asin).
  Notation process := (process sin cos asin).
  Notation execute_command := (execute_command sin cos asin).

(** ** Pipelining *)

(** What a list of commands does, one after the other, up to the first that blocks,
    waits or becomes a replica. *)
Fixpoint run_commands (env_at : nat -> env) (i : nat) (has_send : bool) (fd : Z)
    (cmds : list (list bytes)) (total : Z) (props : list bytes) (c : CommandContext)
  : outcome (ProcessResult * CommandContext) :=
  match cmds with
  | [] => Ret (mkProcessResult Normal props total, c)
  | args :: cmds =>
      let cmd_name := to_upper (default [] (head args)) in
      '(st, c) ← process_single_command has_send fd args cmd_name (env_at i) c;
      let (new_props, c) :=
        if is_write_command cmd_name then log_write (encode_array args) c else ([], c) in
      let total := total + zlen (encode_array args) in
      match st with
      | Normal => run_commands env_at (S i) has_send fd cmds total (props ++ new_props) c
      | _ => Ret (mkProcessResult st (props ++ new_props) total, c)
      end
  end.

Lemma parse_into_stream pre cmd rest :
  sendable cmd ->
  parse_one_into [] (drop (length pre) (pre ++ encode_array cmd ++ rest))
  = Ret (Value (length (encode_array cmd)), cmd).
Proof.
  intros [Hn Hs]. rewrite drop_app_length.
  pose proof (parse_one_into_spec [] (encode_array cmd ++ rest)) as H.
  by rewrite (parse_one_encode_rest cmd rest Hn Hs) in H.
Qed.

Lemma parse_into_incomplete tail :
  (exists e, parse_one tail = Ret (Unexpected e)) -> exists e a, parse_one_into [] tail = Ret (Unexpected e, a).
Proof.
  intros [e He]. pose proof (parse_one_into_spec [] tail) as H. rewrite He in H.
  destruct H as [a Ha]. eauto.
Qed.

Lemma process_loop_stream env_at has_send fd cmds tail :
  Forall sendable cmds -> Forall (fun args => args <> []) cmds -> incomplete tail ->
  forall fuel pre i props c, (length (encode_all cmds) + length tail <= fuel)%nat ->
  process_loop fuel env_at i has_send fd (pre ++ encode_all cmds ++ tail) (length pre) props c
  = run_commands env_at i has_send fd cmds (zlen pre) props c.
Proof.
  intros Hs Hne Ht. induction cmds as [|cmd cmds IH]; intros fuel pre i props c Hf.
  - change (encode_all []) with ([] : bytes) in *. simpl in Hf. rewrite app_nil_l.
    destruct fuel as [|fuel]; [done|]. cbn [CommandHandler.process_loop run_commands].
    rewrite length_app, drop_app_length. destruct (_ <=? _)%nat eqn:E; b2p; [done|].
    destruct Ht as [->|He]; [simpl in E; lia|].
    by destruct (parse_into_incomplete tail He) as (e & a & ->).
  - apply Forall_cons in Hs as [Hcmd Hs]. apply Forall_cons in Hne as [Hc Hne].
    change (encode_all (cmd :: cmds)) with (encode_array cmd ++ encode_all cmds) in *.
    rewrite length_app in Hf. pose proof (encode_array_nonempty cmd) as Hl.
    destruct fuel as [|fuel]; [lia|]. cbn [CommandHandler.process_loop run_commands].
    rewrite (proj2 (Nat.leb_gt _ _)) by (rewrite !length_app; lia).
    rewrite <- app_assoc, parse_into_stream by done. cbn [mbind outcome_bind].
    assert (Hv : vec_at cmd 0 = Ret (default [] (head cmd))) by (by destruct cmd).
    rewrite Hv. cbn [mbind outcome_bind].
    destruct (process_single_command _ _ _ _ _ _) as [[st c']| |]; cbn [mbind outcome_bind]; [|done..].
    rewrite drop_app_length, take_app_length.
    set (lw := if is_write_command _ then _ else _). destruct lw as [np c2].
    replace (Z.of_nat (length pre + length (encode_array cmd))) with (zlen pre + zlen (encode_array cmd))
      by (unfold zlen; lia).
    destruct st; [|done..].
    replace (length pre + length (encode_array cmd))%nat with (length (pre ++ encode_array cmd))
      by (rewrite length_app; lia).
    rewrite (app_assoc pre), IH by (done || lia). f_equal. unfold zlen. rewrite length_app. lia.
Qed.

(** ** Authentication *)
Lemma check_auth_pool fd cmd e c p conn :
  conn_pool c = Some p -> connections_ p !! fd = Some conn ->
  authenticated_ conn = false -> default_nopass c = false ->
  check_auth fd cmd e c = Ret (bool_decide (cmd = bs "AUTH"), c).
Proof.
  intros Hp Hc Ha Hn. unfold check_auth. mstep.
  case_bool_decide; mstep; [done|]. rewrite Hp. mstep. unfold get_connection. rewrite Hc. mstep.
  by rewrite Ha, Hn.
Qed.

Lemma tx_find_pool fd e c p conn :
  conn_pool c = Some p -> connections_ p !! fd = Some conn -> tx_find fd e c = Ret (tx_ conn, c).
Proof.
  intros Hp Hc. unfold tx_find. mstep. rewrite Hp. mstep. unfold get_connection. by rewrite Hc.
Qed.

Lemma update_conn_pool fd f e c p conn :
  connections_ p !! fd = Some conn ->
  update_conn fd f p e c = Ret ((), with_pool (Some (put_conn fd (f conn) p)) c).
Proof. intros Hc. unfold update_conn. mstep. unfold get_connection. by rewrite Hc. Qed.

(** The connection of [fd] in the pool of a context. *)
Definition conn_of (fd : Z) (c : CommandContext) : option Connection :=
  match conn_pool c with Some p => connections_ p !! fd | None => None end.

Lemma find_auth : find_command sin cos asin (bs "AUTH") = Some (mkCommandEntry (plain_fd handle_auth) 2).
Proof. reflexivity. Qed.

Lemma handle_auth_conn fd args e c c' u p conn :
  conn_pool c = Some p -> connections_ p !! fd = Some conn ->
  handle_auth fd args e c = Ret (u, c') ->
  exists conn', conn_of fd c' = Some conn'
    /\ authenticated_ conn' = (authenticated_ conn
         || match args with
            | _ :: name :: password :: _ => authenticate name password (acl_manager c)
            | _ => false
            end).
Proof.
  intros Hp Hc. unfold handle_auth, conn_of. destruct (length args <? 3)%nat eqn:El; b2p.
  { mstep. intros [= <- <-]. simpl. rewrite Hp. exists conn. split; [done|].
    destruct args as [|? [|? [|? ?]]]; simpl in El; try lia; by rewrite orb_false_r. }
  destruct args as [|a0 [|a1 [|a2 rest]]]; simpl in El; try lia. mstep.
  destruct (authenticate a1 a2 (acl_manager c)).
  - rewrite Hp. mstep. rewrite (update_conn_pool fd _ e c p conn Hc). mstep.
    intros [= <- <-]. simpl. rewrite lookup_insert_eq. eexists. split; [done|]. simpl. by rewrite orb_true_r.
  - mstep. intros [= <- <-]. simpl. rewrite Hp. exists conn. by rewrite orb_false_r.
Qed.

Lemma conn_of_pool fd c conn :
  conn_of fd c = Some conn -> exists p, conn_pool c = Some p /\ connections_ p !! fd = Some conn.
Proof. unfold conn_of. destruct (conn_pool c) as [p|]; [eauto|done]. Qed.

Lemma tx_put_pool fd t e c p conn :
  conn_pool c = Some p -> connections_ p !! fd = Some conn ->
  tx_put fd t e c = Ret ((), with_pool (Some (put_conn fd (set_tx (Some t) conn) p)) c).
Proof. intros Hp Hc. unfold tx_put. mstep. rewrite Hp. by apply update_conn_pool. Qed.

Definition queueing (t : option TransactionState) : bool :=
  match t with Some t => in_multi t | None => false end.

Lemma tx_in_multi_pool fd e c p conn :
  conn_pool c = Some p -> connections_ p !! fd = Some conn ->
  tx_in_multi fd e c = Ret (queueing (tx_ conn), c).
Proof. intros Hp Hc. unfold tx_in_multi. mstep. rewrite (tx_find_pool fd e c p conn Hp Hc). by mstep. Qed.

(** Reading a transaction that exists changes nothing. *)
Lemma tx_get_pool fd e c p conn t :
  conn_pool c = Some p -> connections_ p !! fd = Some conn -> tx_ conn = Some t ->
  tx_get fd e c = Ret (t, with_pool (Some (put_conn fd conn p)) c).
Proof.
  intros Hp Hc Ht. unfold tx_get. mstep. rewrite (tx_find_pool fd e c p conn Hp Hc). mstep.
  rewrite Ht. simpl default. rewrite (tx_put_pool fd t e c p conn Hp Hc). mstep.
  by replace (set_tx (Some t) conn) with conn by (destruct conn; simpl in *; by subst).
Qed.

(** Commands that manage transactions. *)
Definition tx_commands : list bytes := bs <$> ["MULTI"; "EXEC"; "DISCARD"; "WATCH"; "UNWATCH"]%string.

(** Any other command is queued inside MULTI and run outside. *)
Lemma run_checked_other has_send fd args cmd e c p conn :
  cmd ∉ tx_commands -> conn_pool c = Some p -> connections_ p !! fd = Some conn ->
  run_checked sin cos asin has_send fd args cmd e c
  = if queueing (tx_ conn)
    then Ret (Normal, with_out (out c ++ [Emit kRespQueued]) (with_pool (Some (put_conn fd
           (set_tx ((fun t => with_queued (queued_commands t ++ [args]) t) <$> tx_ conn) conn) p)) c))
    else execute_command has_send fd cmd args e c.
Proof.
  intros Hcmd Hp Hc.
  assert (Hx : forall s, s ∈ tx_commands -> bool_decide (cmd = s) = false).
  { intros s Hs. apply bool_decide_eq_false_2. intros ->. done. }
  unfold run_checked. mstep. rewrite Hp. mstep. unfold get_connection at 1. rewrite Hc. mstep.
  rewrite !Hx by (unfold tx_commands; set_solver). mstep.
  rewrite (tx_in_multi_pool fd e c p conn Hp Hc). destruct (tx_ conn) as [t|] eqn:Et; cbn [queueing]; [|done].
  destruct (in_multi t); [|done]. mstep. rewrite (tx_get_pool fd e c p conn t Hp Hc Et). mstep.
  rewrite (tx_put_pool fd _ e _ (put_conn fd conn p) conn) by (done || apply lookup_insert_eq). mstep.
  unfold put_conn; simpl. by rewrite insert_insert_eq.
Qed.

(** ** Transactions *)

Lemma tx_clear_pool fd e c p conn :
  conn_pool c = Some p -> connections_ p !! fd = Some conn ->
  tx_clear fd e c = Ret ((), with_pool (Some (put_conn fd (clear_tx conn) p)) c).
Proof. intros Hp Hc. unfold tx_clear. mstep. rewrite Hp. by apply update_conn_pool. Qed.

Lemma handle_exec_dirty has_send fd e c p conn t :
  conn_pool c = Some p -> connections_ p !! fd = Some conn -> tx_ conn = Some t -> in_multi t = true ->
  watch_dirty t (ctx_store c) = true ->
  handle_exec sin cos asin has_send fd e c
  = Ret ((), with_out (out c ++ [Emit (encode_null_array_into [])])
               (with_pool (Some (put_conn fd (clear_tx conn) p)) c)).
Proof.
  intros Hp Hc Ht Hm Hd. unfold handle_exec. mstep. rewrite (tx_in_multi_pool fd e c p conn Hp Hc), Ht.
  cbn [queueing]. rewrite Hm. cbn [negb]. mstep. rewrite (tx_get_pool fd e c p conn t Hp Hc Ht). mstep.
  change (ctx_store (with_pool _ c)) with (ctx_store c). rewrite Hd. mstep.
  rewrite (tx_clear_pool fd e _ (put_conn fd conn p) conn) by (done || apply lookup_insert_eq). mstep.
  unfold put_conn; simpl. by rewrite insert_insert_eq.
Qed.

Lemma watch_dirty_key t st k v :
  watched_keys t !! k = Some v -> get_key_version k st <> v -> watch_dirty t st = true.
Proof.
  intros Hk Hv. unfold watch_dirty. apply existsb_exists. exists (k, v). simpl. split.
  - by apply list_elem_of_In, elem_of_map_to_list.
  - apply negb_true_iff, Z.eqb_neq. done.
Qed.

(** ** Fuel *)
Lemma parse_into_consumes input n args : parse_one_into [] input = Ret (Value n, args) -> (1 <= n)%nat.
Proof.
  intros H. pose proof (parse_one_into_spec [] input) as Hs.
  destruct (parse_one input) as [[pc|err]| |] eqn:E; [|destruct Hs; congruence|congruence..].
  apply parse_one_bounds in E as [Hb _]. assert (n = pc_consumed pc) by congruence. lia.
Qed.

Lemma process_loop_fuel env_at has_send fd input : forall fuel fuel' i total props c,
  (length input - total <= fuel)%nat -> (length input - total <= fuel')%nat ->
  process_loop fuel env_at i has_send fd input total props c
  = process_loop fuel' env_at i has_send fd input total props c.
Proof.
  assert (Hend : forall fuel i total props c, (length input <= total)%nat ->
    process_loop fuel env_at i has_send fd input total props c
    = Ret (mkProcessResult Normal props (Z.of_nat total), c)).
  { intros fuel i total props c H. destruct fuel; [done|]. cbn [CommandHandler.process_loop].
    by rewrite (proj2 (Nat.leb_le _ _) H). }
  induction fuel as [|fuel IH]; intros fuel' i total props c Hf Hf'.
  { rewrite !Hend by lia. done. }
  destruct fuel' as [|fuel']; [rewrite !Hend by lia; done|].
  cbn [CommandHandler.process_loop]. destruct (_ <=? _)%nat eqn:El; b2p; [done|].
  destruct (parse_one_into _ _) as [[[n|err] args]| |] eqn:Ep; cbn [mbind outcome_bind]; [|done..].
  apply parse_into_consumes in Ep.
  destruct (vec_at args 0) as [name| |]; cbn [mbind outcome_bind]; [|done..].
  destruct (process_single_command _ _ _ _ _ _) as [[st c1]| |]; cbn [mbind outcome_bind]; [|done..].
  destruct (if is_write_command _ then _ else _) as [np c2]. destruct st; [|done..]. apply IH; lia.
Qed.

(** ** A command without a connection, as from the log or a master *)

Definition let_in (fd : Z) (c : CommandContext) : CommandContext :=
  if decide (fd ∈ authenticated_fds c) then c else with_authenticated ({[ fd ]} ∪ authenticated_fds c) c.

Record plain_client (fd : Z) (c : CommandContext) : Prop := {
  client_pool : conn_pool c = None;
  client_mode : in_subscribed_mode fd c = false;
  client_auth : default_nopass c = true;
  client_tx : queueing (transactions c !! fd) = false
}.

Lemma single_plain has_send fd a0 args cmd e c :
  plain_client fd c -> cmd ∉ tx_commands ->
  process_single_command has_send fd (a0 :: args) cmd e c = execute_command has_send fd cmd (a0 :: args) e (let_in fd c)
  \/ cmd = bs "AUTH".
Proof.
  intros [Hp Hm Ha Ht] Hcmd. destruct (decide (cmd = bs "AUTH")) as [->|Hauth]; [by right|left].
  assert (Hx : forall s, s ∈ tx_commands -> bool_decide (cmd = s) = false).
  { intros s Hs. apply bool_decide_eq_false_2. intros ->. done. }
  unfold CommandHandler.process_single_command. mstep. rewrite Hm. cbn [andb]. unfold check_auth. mstep.
  rewrite (bool_decide_eq_false_2 (cmd = bs "AUTH")) by done. rewrite Hp.
  assert (Hrun : forall c', conn_pool c' = None -> queueing (transactions c' !! fd) = false ->
    run_checked sin cos asin has_send fd (a0 :: args) cmd e c' = execute_command has_send fd cmd (a0 :: args) e c').
  { intros c' Hp' Ht'. unfold run_checked. mstep. rewrite Hp'. mstep.
    rewrite !Hx by (unfold tx_commands; set_solver). mstep. unfold tx_in_multi, tx_find. mstep. rewrite Hp'. mstep.
    unfold queueing in Ht'. by rewrite Ht'. }
  unfold let_in. case_bool_decide as Hin.
  - rewrite decide_True by done. mstep. by apply Hrun.
  - rewrite decide_False by done. rewrite Ha. mstep. by apply Hrun.
Qed.

Lemma plain_client_same fd c c' :
  conn_pool c' = conn_pool c -> pubsub_manager c' = pubsub_manager c -> acl_manager c' = acl_manager c ->
  transactions c' = transactions c -> plain_client fd c -> plain_client fd c'.
Proof.
  intros H1 H2 H3 H4 [Ha Hb Hc Hd]. split.
  - by rewrite H1.
  - unfold in_subscribed_mode. rewrite H2. exact Hb.
  - unfold default_nopass. rewrite H3. exact Hc.
  - by rewrite H4.
Qed.

Lemma let_in_same fd c : plain_client fd c -> plain_client fd (let_in fd c) /\ ctx_store (let_in fd c) = ctx_store c
  /\ out (let_in fd c) = out c.
Proof.
  intros H. unfold let_in. case_decide; [done|]. split; [|done]. by eapply plain_client_same, H.
Qed.

Lemma execute_set has_send fd k v e c st :
  set_if_valid_type (steady_now e) k v None (ctx_store c) = Ret (st, true) ->
  execute_command has_send fd (bs "SET") [bs "SET"; k; v] e c
  = Ret (Normal, with_out (out c ++ [Emit kRespOk]) (with_store st c)).
Proof.
  intros Hs. unfold CommandHandler.execute_command.
  change (find_command sin cos asin (bs "SET")) with (Some (mkCommandEntry (plain handle_set) 3)).
  cbn [min_args CommandHandler.handler length Nat.ltb Nat.leb]. unfold plain, handle_set. mstep.
  cbn [set_options drop]. unfold on_store_o. mstep. by rewrite Hs.
Qed.

Lemma execute_get has_send fd k v e c :
  (get (steady_now e) k (ctx_store c)).2 = Some v ->
  exists c', execute_command has_send fd (bs "GET") [bs "GET"; k] e c = Ret (Normal, c')
    /\ out c' = out c ++ [Emit (encode_bulk_string v)].
Proof.
  intros Hg. unfold CommandHandler.execute_command.
  change (find_command sin cos asin (bs "GET")) with (Some (mkCommandEntry (on_first handle_get) 2)).
  cbn [min_args CommandHandler.handler length Nat.ltb Nat.leb]. unfold on_first, handle_get. mstep.
  unfold on_store. destruct (get (steady_now e) k (ctx_store c)) as [st o]. simpl in Hg. subst o. mstep.
  eexists. split; [done|]. simpl. by rewrite encode_bulk_string_into_eq, encode_bulk_string_eq.
Qed.

Lemma set_succeeds now k v st :
  (forall e, live now k st = Some e -> holds_alternative bytes (value e) = true) ->
  exists st', set_if_valid_type now k v None st = Ret (st', true).
Proof.
  unfold live, set_if_valid_type. intros H. destruct (data_ st !! k) as [e|]; [|by eexists].
  destruct (is_expired now e); simpl; [by eexists|]. rewrite (H e eq_refl). by eexists.
Qed.

Lemma log_write_keeps cmd raw c :
  let c' := (if is_write_command cmd then log_write raw c else ([], c)).2 in
  ctx_store c' = ctx_store c /\ out c' = out c /\ (forall fd, plain_client fd c -> plain_client fd c').
Proof.
  cbv zeta. destruct (is_write_command cmd); [|done]. unfold log_write. destruct (aof_manager c); [|done].
  split_and!; [done..|]. intros fd H. by eapply plain_client_same, H.
Qed.

Lemma run_set_get env_at k v c st :
  plain_client (-1) c ->
  set_if_valid_type (steady_now (env_at 0%nat)) k v None (ctx_store c) = Ret (st, true) ->
  (forall t, (get t k st).2 = Some v) ->
  exists r c', run_commands env_at 0 false (-1) [[bs "SET"; k; v]; [bs "GET"; k]] 0 [] c = Ret (r, c')
    /\ out c' = out c ++ [Emit kRespOk; Emit (encode_bulk_string v)].
Proof.
  intros Hc Hset Hget. cbn [run_commands head default from_option].
  change (to_upper (id (bs "SET"))) with (bs "SET"). change (to_upper (id (bs "GET"))) with (bs "GET").
  destruct (let_in_same (-1) _ Hc) as (Hc1 & Hs1 & Ho1).
  destruct (single_plain false (-1) (bs "SET") [k; v] (bs "SET") (env_at 0%nat) _ Hc
    ltac:(by apply (bool_decide_unpack _))) as [->|?]; [|done].
  rewrite (execute_set false (-1) k v _ _ st) by (by rewrite Hs1). cbn [mbind outcome_bind].
  set (c1 := with_out _ _).
  assert (Hc2 : plain_client (-1) c1) by (by eapply plain_client_same, Hc1).
  pose proof (log_write_keeps (bs "SET") (encode_array [bs "SET"; k; v]) c1) as Hlog. cbv zeta in Hlog.
  destruct (if is_write_command (bs "SET") then _ else _) as [np c2]. cbn [snd] in Hlog.
  destruct Hlog as (Hs2 & Ho2 & Hk). specialize (Hk _ Hc2).
  destruct (let_in_same (-1) _ Hk) as (Hc3 & Hs3 & Ho3).
  destruct (single_plain false (-1) (bs "GET") [k] (bs "GET") (env_at 1%nat) _ Hk
    ltac:(by apply (bool_decide_unpack _))) as [->|?]; [|done].
  destruct (execute_get false (-1) k v (env_at 1%nat) (let_in (-1) c2)) as (c3 & -> & Hout).
  { rewrite Hs3, Hs2. apply Hget. }
  cbn [mbind outcome_bind]. change (is_write_command (bs "GET")) with false. cbv iota.
  do 2 eexists. split; [done|]. rewrite Hout, Ho3, Ho2. unfold c1. cbn [out with_out with_store].
  by rewrite Ho1, <- app_assoc.
Qed.
End handler.

(** * Properties *)

(** C4: pipelining.  A buffer that holds any complete commands, followed by nothing or by
    the beginning of another one that the parser does not accept yet, is processed exactly as the commands one
    after the other, each with its own arguments and its own bytes handed to the
    replicas and the log, up to the first that blocks, waits or starts a replication;
    the bytes reported as consumed are those of the commands that ran. *)
Theorem pipelined_commands (sin cos asin : double -> double) (env_at : nat -> env) (has_send : bool) (fd : Z)
    (cmds : list (list bytes)) (tail : bytes) (c : CommandContext) :
  Forall sendable cmds -> Forall (fun args => args <> []) cmds -> incomplete tail ->
  let input := encode_all cmds ++ tail in
  process_loop sin cos asin (length input) env_at 0 has_send fd input 0 [] c
  = run_commands sin cos asin env_at 0 has_send fd cmds 0 [] c.
Proof.
  intros Hs Hne Ht input. unfold input.
  apply (process_loop_stream sin cos asin env_at has_send fd cmds tail Hs Hne Ht _ [] 0 [] c).
  rewrite length_app. lia.
Qed.

Definition plain_ctx : CommandContext := new_ctx empty_store (mkServerConfig None [] [] []).
Definition env_tick (i : nat) : env := mkEnv (Z.of_nat i) 1 true (child_at (Z.of_nat i)).

Lemma pipelined_commands_witness :
  let cmds := [[bs "set"; bs "k"; bs "v"]; [bs "GET"; bs "k"]; [bs "PING"]] in
  let input := encode_all cmds ++ bs "*2" in
  process_loop id id id (length input) env_tick 0 false (-1) input 0 [] plain_ctx
  = run_commands id id id env_tick 0 false (-1) cmds 0 [] plain_ctx
  /\ exists c', run_commands id id id env_tick 0 false (-1) cmds 0 [] plain_ctx
      = Ret (mkProcessResult Normal [] 61, c') /\ emitted (out c') = bs "+OK" ++ CRLF ++ bulk (bs "v") ++ bs "+PONG" ++ CRLF.
Proof.
  intros cmds input. split.
  - apply (pipelined_commands id id id env_tick false (-1) cmds (bs "*2") plain_ctx).
    + repeat constructor; done.
    + repeat constructor; done.
    + right. eexists. reflexivity.
  - eexists. split; vm_compute; reflexivity.
Defined.

(** C38: the command loop ends because the buffer is used up, never because its fuel
    runs out: with any fuel from the number of bytes left on, the result is the same,
    on any input. *)
Theorem process_loop_terminates (sin cos asin : double -> double) (env_at : nat -> env) (has_send : bool)
    (fd : Z) (input : bytes) (extra i total : nat) (props : list bytes) (c : CommandContext) :
  process_loop sin cos asin (length input + extra) env_at i has_send fd input total props c
  = process_loop sin cos asin (length input - total) env_at i has_send fd input total props c.
Proof. apply process_loop_fuel; lia. Qed.

Definition multi_conn (watched : gmap bytes Z) : Connection :=
  set_tx (Some (mkTransactionState true [[bs "SET"; bs "k"; bs "2"]; [bs "GET"; bs "k"]] watched))
    (set_authenticated true (new_connection 5)).
Definition multi_ctx (watched : gmap bytes Z) : CommandContext :=
  with_pool (Some (put_conn 5 (multi_conn watched) empty_pool)) plain_ctx.

(** C5: optimistic locking.  Let a client watch [k] when the store is [st0], and let any
    store operations happen before its EXEC.  If what can be seen of [k] has changed,
    EXEC runs none of the queued commands: the reply is a null array, the transaction is
    closed, and the rest of the context is as it was. *)
Theorem exec_aborts_on_watched_change (sin cos asin : double -> double) (has_send : bool) (fd : Z) (e : env)
    (c : CommandContext) (p : ConnectionPool) (conn : Connection) (t : TransactionState)
    (st0 : Store) (tr : list (Z * Z * store_op)) (T u : Z) (k : bytes) :
  conn_pool c = Some p -> connections_ p !! fd = Some conn -> tx_ conn = Some t -> in_multi t = true ->
  watched_keys t !! k = Some (get_key_version k st0) ->
  versions_wf st0 -> version_counter_ st0 + zlen tr <= UINT64_MAX -> Forall (fun x => x.1.1 <= T) tr ->
  run_ops tr st0 = Ret (ctx_store c) ->
  T <= u -> live u k (ctx_store c) <> live u k st0 ->
  handle_exec sin cos asin has_send fd e c
  = Ret ((), with_out (out c ++ [Emit (bs "*-1" ++ CRLF)]) (with_pool (Some (put_conn fd (clear_tx conn) p)) c)).
Proof.
  intros Hp Hc Ht Hm Hk Hwf Hctr Htimes Hrun Hu Hne.
  destruct (run_ops_tracked T k tr st0 (ctx_store c) Hwf Hctr Htimes Hrun) as (_ & _ & Hsame).
  apply (handle_exec_dirty sin cos asin has_send fd e c p conn t Hp Hc Ht Hm).
  apply (watch_dirty_key t _ k _ Hk). intros Heq. by apply Hne, Hsame.
Qed.

Lemma exec_aborts_on_watched_change_witness :
  let w := <[ bs "k" := 0 ]> ∅ in
  exists st, run_ops [(1, 0, OpIncr (bs "k"))] empty_store = Ret st
    /\ handle_exec id id id true 5 (env_tick 3) (with_store st (multi_ctx w))
       = Ret ((), with_out [Emit (bs "*-1" ++ CRLF)]
                    (with_pool (Some (put_conn 5 (clear_tx (multi_conn w)) (put_conn 5 (multi_conn w) empty_pool)))
                       (with_store st (multi_ctx w)))).
Proof.
  intros w. eexists. split; [vm_compute; reflexivity|].
  apply (exec_aborts_on_watched_change id id id true 5 (env_tick 3) (with_store _ (multi_ctx w))
    (put_conn 5 (multi_conn w) empty_pool) (multi_conn w)
    (mkTransactionState true [[bs "SET"; bs "k"; bs "2"]; [bs "GET"; bs "k"]] w)
    empty_store [(1, 0, OpIncr (bs "k"))] 1 1 (bs "k")); try reflexivity.
  - split; [done|apply map_Forall_empty].
  - done.
  - by repeat constructor.
  - vm_compute. discriminate.
Defined.

(** From bytes to bytes.  The bytes of SET k v and GET k, given to [process] at any
    times, with a key that is absent or holds a string, yield the bytes of OK and of
    the value, for any key and value a command may hold. *)
Theorem set_get_end_to_end (sin cos asin : double -> double) (env_at : nat -> env) (k v : bytes)
    (c : CommandContext) :
  small k -> small v -> plain_client (-1) c ->
  (forall e, live (steady_now (env_at 0%nat)) k (ctx_store c) = Some e -> holds_alternative bytes (value e) = true) ->
  exists c', process sin cos asin env_at (encode_all [[bs "SET"; k; v]; [bs "GET"; k]]) c
             = Ret (bs "+OK" ++ CRLF ++ encode_bulk_string v, c').
Proof.
  intros Hk Hv Hc Hlive. destruct (set_succeeds _ k v _ Hlive) as [st Hset].
  pose proof (set_get_at _ k v None _ st true ltac:(done) Hset) as Hget. simpl in Hget.
  set (cmds := [[bs "SET"; k; v]; [bs "GET"; k]]).
  assert (Hloop : process_loop sin cos asin (length (encode_all cmds)) env_at 0 false (-1) (encode_all cmds) 0 []
                    (with_out [] c) = run_commands sin cos asin env_at 0 false (-1) cmds 0 [] (with_out [] c)).
  { pose proof (process_loop_stream sin cos asin env_at false (-1) cmds [] ltac:(by repeat constructor)
      ltac:(by repeat constructor) (or_introl eq_refl) (length (encode_all cmds)) [] 0 [] (with_out [] c)) as H.
    rewrite app_nil_r in H. apply H. simpl length. lia. }
  unfold process, process_with_fd. cbn [mbind outcome_bind].
  change (with_out [] (with_out [] c)) with (with_out [] c). rewrite Hloop. clear Hloop.
  assert (Hc0 : plain_client (-1) (with_out [] c)) by (by eapply plain_client_same, Hc).
  destruct (run_set_get sin cos asin env_at k v (with_out [] c) st Hc0 Hset Hget) as (r & c' & Hrun & Hout).
  fold cmds in Hrun. rewrite Hrun. cbn [mbind outcome_bind]. eexists. do 2 f_equal.
  cbn [out with_out]. rewrite Hout. unfold emitted. cbn. by rewrite app_nil_r.
Qed.

Lemma set_get_end_to_end_witness :
  exists c', process id id id env_tick (encode_all [[bs "SET"; bs "key"; bs "value"]; [bs "GET"; bs "key"]]) plain_ctx
             = Ret (bs "+OK" ++ CRLF ++ encode_bulk_string (bs "value"), c').
Proof.
  apply (set_get_end_to_end id id id env_tick (bs "key") (bs "value") plain_ctx); [done|done| |done].
  split; reflexivity.
Defined.
