(* ===== verification/ClientSpec.v ===== *)
(** * What a client's buffer does

    Theorems on handler/command_handler.cpp at the level of the bytes a client sends:
    what becomes of the commands of a client that has not authenticated, of commands
    inside MULTI, and of an EXEC.  The loop hands every write command it has parsed to
    the replicas and to the log, whatever the command itself did; the statements say so. *)

From S2P Require Import Prelude Text StreamIds RespCodec Scores SortedSets Store StoreSteps.
From S2P Require Import StoreSpec BlockingManager PubSub Connection Sha256 Acl Doubles Aof Geo.
From S2P Require Import Context StringCommands ListCommands StreamCommands ZsetCommands GeoCommands.
From S2P Require Import PubsubCommands ServerCommands CommandHandler HandlerTrace HandlerInvariants HandlerSpec.

(** ** What the loop does with the bytes of the commands *)

(** The log after the write commands among [cmds]; nothing else of the context changes. *)
Definition logged (cmds : list (list bytes)) (c : CommandContext) : CommandContext :=
  match aof_manager c with
  | None => c
  | Some m => let (m', f') := fold_left log_command (encode_array <$> writes_of cmds) (m, files c) in
              with_aof (Some m') f' c
  end.

(** The write commands as they are handed to the replicas, if there are any. *)
Definition replicated (cmds : list (list bytes)) (c : CommandContext) : list bytes :=
  match replica_count_fn c with
  | Some n => if 0 <? n then encode_array <$> writes_of cmds else []
  | None => []
  end.

Lemma writes_of_one args : writes_of [args] = if is_write_command (command_name args) then [args] else [].
Proof. unfold writes_of. rewrite filter_cons. by destruct (is_write_command _). Qed.

Lemma writes_of_snoc cmds args :
  writes_of (cmds ++ [args]) = writes_of cmds ++ (if is_write_command (command_name args) then [args] else []).
Proof. rewrite <- writes_of_one. apply filter_app. Qed.

Lemma log_step sofar args o p c :
  (if is_write_command (command_name args)
   then log_write (encode_array args) (with_out o (with_pool p (logged sofar c)))
   else ([], with_out o (with_pool p (logged sofar c))))
  = (replicated [args] c, with_out o (with_pool p (logged (sofar ++ [args]) c))).
Proof.
  unfold logged, replicated. rewrite writes_of_snoc, writes_of_one. destruct (is_write_command _) eqn:Ew.
  - unfold log_write. destruct (aof_manager c) as [m|] eqn:Em.
    + rewrite fmap_app, fold_left_app. destruct (fold_left log_command _ (m, files c)) as [m' f']. cbn. destruct (replica_count_fn c) as [n|]; [|done].
      by destruct (0 <? n).
    + cbn. rewrite Em. destruct (replica_count_fn c) as [n|]; [|done]. by destruct (0 <? n).
  - rewrite app_nil_r. cbn. destruct (replica_count_fn c) as [n|]; [|done]. by destruct (0 <? n).
Qed.

Lemma replicated_cons args cmds c : replicated (args :: cmds) c = replicated [args] c ++ replicated cmds c.
Proof.
  unfold replicated. destruct (replica_count_fn c) as [n|]; [|done]. destruct (0 <? n); [|done].
  rewrite <- fmap_app. f_equal. unfold writes_of. by rewrite <- filter_app.
Qed.

(** The pool while a buffer is handled: the connection is marked for the flush. *)
Lemma marked_connection fd p conn :
  connections_ p !! fd = Some conn ->
  connections_ (mark_dirty fd conn p) = <[fd := set_dirty true conn]> (connections_ p).
Proof.
  intros Hc. unfold mark_dirty. destruct (dirty_ conn) eqn:Ed; [|done].
  unfold put_conn. cbn. f_equal. destruct conn; cbn in *; by subst.
Qed.

Lemma put_same fd conn p : connections_ p !! fd = Some conn -> put_conn fd conn p = p.
Proof. intros Hc. unfold put_conn. rewrite insert_id by done. by destruct p. Qed.

Lemma deliver_emits fd replies : forall p conn,
  connections_ p !! fd = Some conn ->
  deliver fd (Emit <$> replies) p = put_conn fd (send_data (mjoin replies) conn) p.
Proof.
  induction replies as [|b replies IH]; intros p conn Hc.
  - rewrite put_same; [done|]. rewrite Hc. unfold send_data, set_pending. cbn. rewrite app_nil_r. by destruct conn.
  - change (deliver fd (Emit <$> b :: replies) p) with (deliver fd (Emit <$> replies) (deliver1 fd p (Emit b))).
    cbn [deliver1]. rewrite Hc, (IH _ (send_data b conn)) by (apply lookup_insert_eq). unfold put_conn. cbn. rewrite insert_insert_eq.
    do 2 f_equal. unfold send_data, set_pending. cbn. by rewrite app_assoc.
Qed.

Lemma concat_mjoin (l : list bytes) : concat l = mjoin l.
Proof. induction l as [|x l IH]; [done|]. cbn. by rewrite IH. Qed.

Lemma with_pool_same c : with_pool (conn_pool c) c = c.
Proof. by destruct c. Qed.

(** Every context obeys the policy that asks for nothing but the open descriptors. *)
Lemma any_ctx c : ctx_ok (mkPolicy (fun args => False -> numeric args) (pool_fds (conn_pool c)) False (replica_count_fn c)) c.
Proof.
  assert (forall t, queue_ok (fun args => False -> numeric args) t) as Hq.
  { intros [t|]; [|done]. apply Forall_forall. by intros. }
  split; [|done..]. split; [intros fd t _; apply Hq|]. destruct (conn_pool c); [|done]. intros fd conn _. apply Hq.
Qed.

Section client.
  Context (sin cos asin : double -> double).
  Notation process_single_command := (process_single_command sin cos asin).
  Notation process_with_fd := (process_with_fd sin cos asin).
  Notation execute_command := (execute_command sin cos asin).
  Notation run_commands := (run_commands sin cos asin).

(** Commands that only reply and change the pool, each on its own, do so one after the
    other; the loop logs and replicates the writes among them. *)
Section gated.
  Context (has_send : bool) (fd : Z) (c : CommandContext) (reply : list bytes -> bytes)
    (pool_after : list (list bytes) -> option ConnectionPool) (all : list (list bytes)).
  Hypothesis gate : forall sofar args e o, args ∈ all ->
    process_single_command has_send fd args (command_name args) e (with_out o (with_pool (pool_after sofar) (logged sofar c)))
    = Ret (Normal, with_out (o ++ [Emit (reply args)]) (with_pool (pool_after (sofar ++ [args])) (logged sofar c))).

Lemma run_gated env_at cmds : forall i sofar total props o, (forall args, args ∈ cmds -> args ∈ all) ->
  run_commands env_at i has_send fd cmds total props (with_out o (with_pool (pool_after sofar) (logged sofar c)))
  = Ret (mkProcessResult Normal (props ++ replicated cmds c) (total + zlen (encode_all cmds)),
         with_out (o ++ (Emit <$> (reply <$> cmds))) (with_pool (pool_after (sofar ++ cmds)) (logged (sofar ++ cmds) c))).
Proof.
  induction cmds as [|args cmds IH]; intros i sofar total props o Hin; cbn [HandlerSpec.run_commands].
  - change (zlen (encode_all [])) with 0. assert (replicated [] c = []) as ->.
    { unfold replicated. destruct (replica_count_fn c) as [n|]; [|done]. by destruct (0 <? n). }
    cbn [fmap list_fmap]. by rewrite !app_nil_r, Z.add_0_r.
  - change (to_upper (default [] (head args))) with (command_name args).
    rewrite gate by (apply Hin; set_solver). cbn [mbind outcome_bind]. rewrite log_step.
    rewrite IH by (intros; apply Hin; set_solver).
    change (encode_all (args :: cmds)) with (encode_array args ++ encode_all cmds).
    rewrite (replicated_cons args cmds), zlen_app, <- !app_assoc, Z.add_assoc. done.
Qed.
End gated.

(** The same for a whole buffer of a connected client. *)
Lemma buffer_gated env_at fd cmds c p conn conn' reply pool_after :
  conn_pool c = Some p -> connections_ p !! fd = Some conn ->
  Forall sendable cmds -> Forall (fun args => args <> []) cmds ->
  pool_after [] = Some (mark_dirty fd conn p) ->
  pool_after cmds = Some (put_conn fd conn' (mark_dirty fd conn p)) ->
  (forall sofar args e o, args ∈ cmds ->
    process_single_command true fd args (command_name args) e (with_out o (with_pool (pool_after sofar) (logged sofar c)))
    = Ret (Normal, with_out (o ++ [Emit (reply args)]) (with_pool (pool_after (sofar ++ [args])) (logged sofar c)))) ->
  process_with_fd env_at true fd (encode_all cmds) c
  = Ret (mkProcessResult Normal (replicated cmds c) (zlen (encode_all cmds)),
         with_pool (Some (put_conn fd (send_data (mjoin (reply <$> cmds)) conn') (mark_dirty fd conn p))) (logged cmds c)).
Proof.
  intros Hp Hc Hs Hne H0 H1 Hg. unfold CommandHandler.process_with_fd. rewrite Hp.
  unfold get_pending_write, get_connection. rewrite Hc. cbn [mbind outcome_bind].
  set (c1 := with_out [] _).
  assert (c1 = with_out [] (with_pool (pool_after []) (logged [] c))) as ->.
  { unfold c1, logged. cbn. rewrite H0. destruct (aof_manager c) eqn:Em; [|done]. destruct c; cbn in *. by subst. }
  pose proof (process_loop_stream sin cos asin env_at true fd cmds [] Hs Hne (or_introl eq_refl)) as Hl.
  rewrite app_nil_r in Hl. specialize (Hl (length (encode_all cmds)) [] 0%nat []). cbn [app length] in Hl.
  change (zlen (@nil ascii)) with 0 in Hl. rewrite Hl by (simpl; lia). clear Hl.
  rewrite (run_gated true fd c reply pool_after cmds Hg env_at cmds 0 [] 0 [] []) by done.
  cbn [mbind outcome_bind app conn_pool with_out with_pool]. rewrite H1. cbn [out with_out].
  rewrite (deliver_emits fd (reply <$> cmds) (put_conn fd conn' (mark_dirty fd conn p)) conn') by (apply lookup_insert_eq).
  unfold put_conn at 1 2. cbn [connections_ dirty_fds_]. rewrite insert_insert_eq, Z.add_0_l. f_equal. f_equal.
  unfold logged. destruct (aof_manager c); [|by destruct c]. destruct (fold_left _ _ _). by destruct c.
Qed.
(** ** Clients that have not authenticated *)

(** The answer to a command that is not let in. *)
Definition refusal (fd : Z) (c : CommandContext) (args : list bytes) : bytes :=
  if in_subscribed_mode fd c && negb (bool_decide (command_name args ∈ kSubscribedAllowed))
  then encode_error_into [] (bs "ERR Can't execute '" ++ command_name args ++ bs "' in subscribed mode")
  else encode_error_into [] (bs "NOAUTH Authentication required.").

Lemma single_refused has_send fd args e c conn :
  args <> [] -> command_name args <> bs "AUTH" ->
  conn_of fd c = Some conn -> authenticated_ conn = false -> default_nopass c = false ->
  process_single_command has_send fd args (command_name args) e c
  = Ret (Normal, with_out (out c ++ [Emit (refusal fd c args)]) c).
Proof.
  intros Hne Hcmd Hco Ha Hn. destruct (conn_of_pool _ _ _ Hco) as (p & Hp & Hc).
  unfold CommandHandler.process_single_command, refusal. destruct args as [|a0 args]; [done|]. mstep.
  destruct (_ && _); mstep; [done|].
  rewrite (check_auth_pool fd _ e c p conn Hp Hc Ha Hn), bool_decide_false by done. by mstep.
Qed.

(** An AUTH with a user name and a password that the access control list accepts. *)
Definition accepted_auth (acl : AclManager) (args : list bytes) : Prop :=
  command_name args = bs "AUTH" /\ exists a0 u pw rest, args = a0 :: u :: pw :: rest /\ authenticate u pw acl = true.

Lemma handle_auth_acl fd args e c u c' : handle_auth fd args e c = Ret (u, c') -> acl_manager c' = acl_manager c.
Proof.
  unfold handle_auth. destruct (length args <? 3)%nat; [mstep; by intros [= <- <-]|].
  destruct args as [|a0 [|a1 [|a2 rest]]]; mstep; try done. destruct (authenticate a1 a2 _); mstep; [|by intros [= <- <-]].
  destruct (conn_pool c) as [p|]; mstep.
  - unfold update_conn. mstep. destruct (get_connection fd p); mstep; [|done..]. by intros [= <- <-].
  - by intros [= <- <-].
Qed.

(** One command of such a client. *)
Lemma single_auth has_send fd args e c st c' conn :
  args <> [] -> conn_of fd c = Some conn -> authenticated_ conn = false -> default_nopass c = false ->
  process_single_command has_send fd args (command_name args) e c = Ret (st, c') ->
  acl_manager c' = acl_manager c
  /\ exists conn', conn_of fd c' = Some conn' /\ (authenticated_ conn' = true -> accepted_auth (acl_manager c) args).
Proof.
  intros Hne Hco Ha Hn. destruct (decide (command_name args = bs "AUTH")) as [Hcmd|Hcmd].
  2: { rewrite (single_refused has_send fd args e c conn) by done. intros [= <- <-]. split; [done|].
       exists conn. split; [exact Hco|]. congruence. }
  destruct (conn_of_pool _ _ _ Hco) as (p & Hp & Hc). destruct args as [|a0 args]; [done|].
  assert (Hstay : forall o, acl_manager (with_out o c) = acl_manager c /\ exists conn', conn_of fd (with_out o c) = Some conn'
    /\ (authenticated_ conn' = true -> accepted_auth (acl_manager c) (a0 :: args))).
  { intros o. split; [done|]. exists conn. split; [exact Hco|]. congruence. }
  unfold CommandHandler.process_single_command. mstep. destruct (_ && _); mstep; [intros [= <- <-]; apply Hstay|].
  rewrite (check_auth_pool fd _ e c p conn Hp Hc Ha Hn), bool_decide_true by done. mstep.
  rewrite (run_checked_other sin cos asin has_send fd _ _ e c p conn)
    by (done || (rewrite Hcmd; by apply (bool_decide_unpack _))).
  destruct (queueing (tx_ conn)); intros H.
  { injection H as <- <-. split; [done|]. eexists. unfold conn_of. cbn. rewrite lookup_insert_eq. split; [done|].
    cbn. congruence. }
  unfold CommandHandler.execute_command in H. rewrite Hcmd, find_auth in H. cbn [min_args CommandHandler.handler] in H.
  destruct (length _ <? 2)%nat; [revert H; mstep; intros [= <- <-]; apply Hstay|].
  unfold plain_fd in H. revert H. mstep.
  destruct (handle_auth fd (a0 :: args) e c) as [[[] c1]| |] eqn:Eh; mstep; [|done..]. intros [= <- <-].
  split; [by eapply handle_auth_acl|].
  destruct (handle_auth_conn _ _ _ _ _ _ _ _ Hp Hc Eh) as (conn2 & Hco2 & Ha2). exists conn2. split; [done|].
  intros Ha'. rewrite Ha', Ha in Ha2. split; [done|]. cbn [orb] in Ha2.
  destruct args as [|u [|pw rest]]; [done..|]. by exists a0, u, pw, rest.
Qed.

Lemma run_auth has_send fd env_at cmds : forall i total props c conn result c' conn',
  Forall (fun args => args <> []) cmds ->
  conn_of fd c = Some conn -> authenticated_ conn = false -> default_nopass c = false ->
  run_commands env_at i has_send fd cmds total props c = Ret (result, c') ->
  conn_of fd c' = Some conn' -> authenticated_ conn' = true -> Exists (accepted_auth (acl_manager c)) cmds.
Proof.
  induction cmds as [|args cmds IH]; intros i total props c conn result c' conn' Hne Hco Ha Hn; cbn [HandlerSpec.run_commands].
  { intros [= <- <-] Hco' Ha'. congruence. }
  apply Forall_cons in Hne as [Hne1 Hne]. change (to_upper (default [] (head args))) with (command_name args).
  destruct (process_single_command _ _ _ _ _ _) as [[st c1]| |] eqn:E; cbn [mbind outcome_bind]; [|done..].
  destruct (single_auth _ _ _ _ _ _ _ _ Hne1 Hco Ha Hn E) as (Hacl & conn1 & Hco1 & Hacc).
  assert (Hlog : forall np c2, (if is_write_command (command_name args) then log_write (encode_array args) c1 else ([], c1)) = (np, c2) ->
    conn_of fd c2 = conn_of fd c1 /\ acl_manager c2 = acl_manager c1).
  { intros np c2. destruct (is_write_command _); [|by intros [= <- <-]]. unfold log_write. destruct (aof_manager c1); by intros [= <- <-]. }
  destruct (if is_write_command _ then _ else _) as [np c2]. destruct (Hlog np c2 eq_refl) as [Hco2 Hacl2].
  destruct (authenticated_ conn1) eqn:Ha1; [intros; apply Exists_cons; left; by apply Hacc|].
  rewrite Hco1 in Hco2. assert (Hn2 : default_nopass c2 = false) by (unfold default_nopass in *; by rewrite Hacl2, Hacl).
  intros H Hco' Ha'. apply Exists_cons. right. rewrite <- Hacl, <- Hacl2. destruct st; [by eapply IH|..]; simplify_eq; congruence.
Qed.

(** Writing output to connections authenticates nobody. *)
Lemma deliver_auth fd evs : forall p fd' conn',
  connections_ (deliver fd evs p) !! fd' = Some conn' ->
  exists conn, connections_ p !! fd' = Some conn /\ authenticated_ conn = authenticated_ conn'.
Proof.
  assert (H1 : forall p f g fd' conn', (forall x, authenticated_ (g x) = authenticated_ x) ->
    connections_ (match connections_ p !! f with Some x => put_conn f (g x) p | None => p end) !! fd' = Some conn' ->
    exists conn, connections_ p !! fd' = Some conn /\ authenticated_ conn = authenticated_ conn').
  { intros p f g fd' conn' Hg. destruct (connections_ p !! f) as [x|] eqn:Ex; [|eauto]. cbn.
    destruct (decide (f = fd')) as [->|]; [|rewrite lookup_insert_ne by done; eauto].
    rewrite lookup_insert_eq. intros [= <-]. exists x. by rewrite Hg. }
  induction evs as [|ev evs IH]; intros p fd' conn'; [eauto|].
  change (deliver fd (ev :: evs) p) with (deliver fd evs (deliver1 fd p ev)). intros (x & Hx & <-)%IH.
  destruct ev as [b|f b]; cbn [deliver1] in Hx; [by eapply (H1 p fd (send_data b)) in Hx|].
  assert (connections_ (send_to f b p)
    = connections_ (match connections_ p !! f with Some x => put_conn f (set_dirty true (send_data b x)) p | None => p end)) as Heq.
  { unfold send_to. destruct (connections_ p !! f) as [y|] eqn:Ey; [|done]. unfold mark_dirty.
    destruct (dirty_ (send_data b y)) eqn:Ed; [|done]. cbn in *. f_equal. destruct y; cbn in *; by subst. }
  rewrite Heq in Hx. by eapply (H1 p f (fun x => set_dirty true (send_data b x))) in Hx.
Qed.

Lemma buffer_auth env_at fd cmds c conn result c' conn' :
  Forall sendable cmds -> Forall (fun args => args <> []) cmds ->
  conn_of fd c = Some conn -> authenticated_ conn = false -> default_nopass c = false ->
  process_with_fd env_at true fd (encode_all cmds) c = Ret (result, c') ->
  conn_of fd c' = Some conn' -> authenticated_ conn' = true -> Exists (accepted_auth (acl_manager c)) cmds.
Proof.
  intros Hs Hne Hco Ha Hn. destruct (conn_of_pool _ _ _ Hco) as (p & Hp & Hc).
  unfold CommandHandler.process_with_fd. rewrite Hp. unfold get_pending_write, get_connection. rewrite Hc.
  cbn [mbind outcome_bind]. set (c1 := with_out [] _).
  assert (Hco1 : conn_of fd c1 = Some (set_dirty true conn)).
  { unfold conn_of, c1. cbn. rewrite (marked_connection fd p conn Hc). apply lookup_insert_eq. }
  pose proof (process_loop_stream sin cos asin env_at true fd cmds [] Hs Hne (or_introl eq_refl)) as Hl.
  rewrite app_nil_r in Hl. specialize (Hl (length (encode_all cmds)) [] 0%nat []). cbn [app length] in Hl.
  rewrite Hl by (simpl; lia). clear Hl.
  destruct (run_commands _ _ _ _ _ _ _ _) as [[r c2]| |] eqn:Er; cbn [mbind outcome_bind]; [|done..].
  intros [= <- <-] Hco' Ha'. unfold conn_of in Hco'. destruct (conn_pool c2) as [p2|] eqn:Ep2; cbn in Hco'.
  - apply deliver_auth in Hco' as (conn2 & Hc2 & Heq).
    apply (run_auth true fd env_at cmds 0 (zlen (@nil ascii)) [] c1 (set_dirty true conn) r c2 conn2); try done.
    + unfold conn_of. by rewrite Ep2.
    + congruence.
  - by rewrite Ep2 in Hco'.
Qed.

(** ** Inside MULTI *)
Lemma single_queued has_send fd args e c p conn t :
  conn_pool c = Some p -> connections_ p !! fd = Some conn -> authenticated_ conn = true ->
  in_subscribed_mode fd c = false -> args <> [] -> command_name args ∉ tx_commands ->
  tx_ conn = Some t -> in_multi t = true ->
  process_single_command has_send fd args (command_name args) e c
  = Ret (Normal, with_out (out c ++ [Emit kRespQueued]) (with_pool (Some (put_conn fd
      (set_tx (Some (mkTransactionState true (queued_commands t ++ [args]) (watched_keys t))) conn) p)) c)).
Proof.
  intros Hp Hc Ha Hm Hne Hcmd Ht Hin. unfold CommandHandler.process_single_command.
  destruct args as [|a0 args]; [done|]. mstep. rewrite Hm. cbn [andb]. unfold check_auth. mstep.
  assert (Hq : run_checked sin cos asin has_send fd (a0 :: args) (command_name (a0 :: args)) e c = Ret (Normal,
    with_out (out c ++ [Emit kRespQueued]) (with_pool (Some (put_conn fd
      (set_tx (Some (mkTransactionState true (queued_commands t ++ [a0 :: args]) (watched_keys t))) conn) p)) c))).
  { rewrite (run_checked_other sin cos asin has_send fd (a0 :: args) _ e c p conn Hcmd Hp Hc), Ht. cbn [queueing].
    rewrite Hin. simpl. unfold with_queued. by rewrite Hin. }
  case_bool_decide; mstep; [exact Hq|]. rewrite Hp. mstep. unfold get_connection. rewrite Hc. mstep. by rewrite Ha.
Qed.

(** ** EXEC *)

(** The commands of a queue, one after the other: each is executed, as outside a
    transaction, on the state the one before it left, with an output of its own.  Its
    reply is that output, or an error when it wants the client to wait; messages to
    other clients are sent. *)
Inductive exec_run (has_send : bool) (fd : Z) (e : env)
  : list (list bytes) -> CommandContext -> list bytes -> list out_event -> CommandContext -> Prop :=
  | exec_run_end c : exec_run has_send fd e [] c [] [] c
  | exec_run_next name args queue c st c1 replies sent c2 :
      execute_command has_send fd name (name :: args) e (with_out [] c) = Ret (st, c1) ->
      exec_run has_send fd e queue (with_out [] c1) replies sent c2 ->
      exec_run has_send fd e ((name :: args) :: queue) c
        (match st with Normal => emitted (out c1) | _ => encode_error (bs "ERR command in EXEC not allowed") end :: replies)
        (sends (out c1) ++ sent) c2.

Lemma exec_loop_runs has_send fd e queue : forall c replies c',
  exec_loop sin cos asin has_send fd queue e c = Ret (replies, c')
  <-> exists sent c2, exec_run has_send fd e queue (with_out [] c) replies sent c2
        /\ c' = with_out (out c ++ sent) c2.
Proof.
  induction queue as [|args queue IH]; intros c replies c'; cbn [exec_loop].
  { split.
    - intros [= <- <-]. exists [], (with_out [] c). split; [constructor|]. rewrite app_nil_r. by destruct c.
    - intros (sent & c2 & H & ->). inversion H; subst. cbn. rewrite app_nil_r. by destruct c. }
  rewrite bind_eq. unfold arg at 1, lift. destruct args as [|name args]; cbn [vec_at lookup list_lookup].
  { split; [done|]. intros (sent & c2 & H & _). inversion H. }
  rewrite bind_eq. unfold capture. change (with_out [] (with_out [] c)) with (with_out [] c). split.
  - destruct (execute_command has_send fd name (name :: args) e (with_out [] c)) as [[st c1]| |] eqn:E; [|done..].
    rewrite bind_eq. destruct (exec_loop _ _ _ _ _ queue e _) as [[rest c3]| |] eqn:Eq; [|done..]. intros [= <- <-].
    apply IH in Eq as (sent & c2 & Hr & ->). exists (sends (out c1) ++ sent), c2. split.
    + exact (exec_run_next has_send fd e name args queue (with_out [] c) st c1 rest sent c2 E Hr).
    + cbn [out with_out]. by rewrite app_assoc.
  - intros (sent & c2 & H & ->). inversion H as [|name0 args0 queue0 c0 st c1 rest sent0 c3 E Hr]; subst.
    change (with_out [] (with_out [] c)) with (with_out [] c) in E. rewrite E. rewrite bind_eq.
    rewrite (proj2 (IH (with_out (out c ++ sends (out c1)) c1) rest (with_out ((out c ++ sends (out c1)) ++ sent0) c2)))
      by (exists sent0, c2; split; [exact Hr|done]).
    mstep. unfold not_allowed. by rewrite <- app_assoc.
Qed.

Lemma exec_run_length has_send fd e queue c replies sent c2 :
  exec_run has_send fd e queue c replies sent c2 -> length replies = length queue.
Proof. induction 1; cbn; congruence. Qed.
(** Executing commands keeps the client's connection open. *)
Lemma exec_loop_open has_send fd queue e c p conn replies c' :
  conn_pool c = Some p -> connections_ p !! fd = Some conn ->
  exec_loop sin cos asin has_send fd queue e c = Ret (replies, c') ->
  exists p' conn', conn_pool c' = Some p' /\ connections_ p' !! fd = Some conn'.
Proof.
  intros Hp Hc H. eapply (trace_exec_loop sin cos asin False _ False _) in H as [[_ Hf _ _] _]; [| |apply (any_ctx c)].
  - cbn in Hf. rewrite Hp in Hf. destruct (conn_pool c') as [p'|]; cbn in Hf.
    + assert (fd ∈ dom (connections_ p')) as [conn' ?]%elem_of_dom by (rewrite Hf; by apply elem_of_dom_2 in Hc). eauto.
    + apply elem_of_dom_2 in Hc. set_solver.
  - apply Forall_forall. by intros.
Qed.
End client.

(** * Properties *)

(** C6: authentication.  Let a client that has not authenticated, on a server whose default
    user has a password, send any commands.  If none of them is AUTH, each gets one error
    as its reply and none has any other effect on the server, except that the loop hands
    the write commands among them to the log and to the replicas.  And whatever the
    commands are, the client is authenticated afterwards only if one of them was an AUTH
    whose user name and password the access control list accepts. *)
Theorem only_auth_authenticates (sin cos asin : double -> double) (env_at : nat -> env) (fd : Z)
    (cmds : list (list bytes)) (c : CommandContext) (p : ConnectionPool) (conn : Connection) :
  conn_pool c = Some p -> connections_ p !! fd = Some conn -> authenticated_ conn = false -> default_nopass c = false ->
  Forall sendable cmds -> Forall (fun args => args <> []) cmds ->
  (Forall (fun args => command_name args <> bs "AUTH") cmds ->
   process_with_fd sin cos asin env_at true fd (encode_all cmds) c
   = Ret (mkProcessResult Normal (replicated cmds c) (zlen (encode_all cmds)),
          with_pool (Some (put_conn fd (send_data (mjoin (refusal fd c <$> cmds)) (set_dirty true conn)) (mark_dirty fd conn p)))
            (logged cmds c)))
  /\ (forall result c' conn', process_with_fd sin cos asin env_at true fd (encode_all cmds) c = Ret (result, c') ->
      conn_of fd c' = Some conn' -> authenticated_ conn' = true -> Exists (accepted_auth (acl_manager c)) cmds).
Proof.
  intros Hp Hc Ha Hn Hs Hne. assert (Hco : conn_of fd c = Some conn) by (unfold conn_of; by rewrite Hp). split.
  - intros Hauth. apply (buffer_gated sin cos asin env_at fd cmds c p conn (set_dirty true conn) (refusal fd c)
      (fun _ => Some (mark_dirty fd conn p))); try done.
    + rewrite put_same; [done|]. rewrite (marked_connection fd p conn Hc). apply lookup_insert_eq.
    + intros sofar args e o Hin. rewrite Forall_forall in Hauth, Hne.
      rewrite (single_refused sin cos asin true fd args e _ (set_dirty true conn)); auto.
      * unfold refusal, in_subscribed_mode, logged. destruct (aof_manager c); [|done]. by destruct (fold_left _ _ _).
      * unfold conn_of. cbn. rewrite (marked_connection fd p conn Hc). apply lookup_insert_eq.
      * unfold default_nopass, logged in *. destruct (aof_manager c); [|done]. by destruct (fold_left _ _ _).
  - intros result c' conn'. by apply (buffer_auth sin cos asin env_at fd cmds c conn).
Qed.

Definition locked_ctx : CommandContext :=
  with_pool (Some (pool_add 5 empty_pool)) (with_acl (set_password (bs "default") (bs "pw") new_acl) plain_ctx).

Lemma only_auth_authenticates_witness :
  let cmds := [bs <$> ["SET"; "k"; "v"]; bs <$> ["GET"; "k"]]%string in
  exists r c', process_with_fd id id id env_tick true 5 (encode_all cmds) locked_ctx = Ret (r, c')
    /\ ctx_store c' = empty_store
    /\ (forall conn', conn_of 5 c' = Some conn' ->
          pending_write_ conn' = bs "-NOAUTH Authentication required." ++ CRLF ++ bs "-NOAUTH Authentication required." ++ CRLF).
Proof.
  intros cmds. destruct (only_auth_authenticates id id id env_tick 5 cmds locked_ctx (pool_add 5 empty_pool) (new_connection 5))
    as [H _]; [by vm_compute..| | |].
  - by repeat constructor.
  - by repeat constructor.
  - do 2 eexists. split; [apply H; apply (bool_decide_unpack _); by vm_compute|]. split; [by vm_compute|].
    intros conn'. vm_compute. intros [= <-]. reflexivity.
Defined.

(** C24: commands inside MULTI are queued.  Let a client that has authenticated and is
    inside MULTI, but not in subscribed mode, send any commands but those that manage
    transactions.  Each gets the reply QUEUED, they are added to the client's queue in
    their order, and nothing else of the server changes, except that the loop hands the
    write commands among them to the log and to the replicas already now. *)
Theorem multi_queues_commands (sin cos asin : double -> double) (env_at : nat -> env) (fd : Z)
    (cmds : list (list bytes)) (c : CommandContext) (p : ConnectionPool) (conn : Connection) (t : TransactionState) :
  conn_pool c = Some p -> connections_ p !! fd = Some conn -> authenticated_ conn = true ->
  in_subscribed_mode fd c = false -> tx_ conn = Some t -> in_multi t = true ->
  Forall sendable cmds -> Forall (fun args => args <> [] /\ command_name args ∉ tx_commands) cmds ->
  process_with_fd sin cos asin env_at true fd (encode_all cmds) c
  = Ret (mkProcessResult Normal (replicated cmds c) (zlen (encode_all cmds)),
         with_pool (Some (put_conn fd
             (send_data (mjoin ((fun _ => kRespQueued) <$> cmds))
               (set_tx (Some (mkTransactionState true (queued_commands t ++ cmds) (watched_keys t))) (set_dirty true conn)))
             (mark_dirty fd conn p)))
           (logged cmds c)).
Proof.
  intros Hp Hc Ha Hm Ht Hin Hs Hne.
  set (after sofar := set_tx (Some (mkTransactionState true (queued_commands t ++ sofar) (watched_keys t))) (set_dirty true conn)).
  apply (buffer_gated sin cos asin env_at fd cmds c p conn (after cmds) (fun _ => kRespQueued)
    (fun sofar => Some (put_conn fd (after sofar) (mark_dirty fd conn p)))); try done.
  - eapply Forall_impl; [exact Hne|]. by intros ? [].
  - unfold after. rewrite app_nil_r. rewrite put_same; [done|]. rewrite (marked_connection fd p conn Hc), lookup_insert_eq.
    f_equal. destruct t, conn; cbn in *; by subst.
  - intros sofar args e o Hargs. rewrite Forall_forall in Hne. destruct (Hne _ Hargs) as [Hne1 Hcmd].
    rewrite (single_queued sin cos asin true fd args e _ (put_conn fd (after sofar) (mark_dirty fd conn p)) (after sofar)
      (mkTransactionState true (queued_commands t ++ sofar) (watched_keys t))); try done.
    + cbn [queued_commands watched_keys]. rewrite <- app_assoc. f_equal. f_equal. unfold put_conn. cbn [connections_ dirty_fds_].
      by rewrite insert_insert_eq.
    + apply lookup_insert_eq.
    + unfold in_subscribed_mode, logged in *. cbn. destruct (aof_manager c); [|done]. by destruct (fold_left _ _ _).
Qed.

Lemma multi_queues_commands_witness :
  let cmds := [bs <$> ["INCR"; "k"]; bs <$> ["GET"; "k"]]%string in
  exists r c', process_with_fd id id id env_tick true 5 (encode_all cmds) (multi_ctx ∅) = Ret (r, c')
    /\ ctx_store c' = empty_store
    /\ (forall conn', conn_of 5 c' = Some conn' -> pending_write_ conn' = bs "+QUEUED" ++ CRLF ++ bs "+QUEUED" ++ CRLF).
Proof.
  intros cmds. do 2 eexists. split; [|split].
  - apply (multi_queues_commands id id id env_tick 5 cmds (multi_ctx ∅)
      (put_conn 5 (multi_conn ∅) empty_pool) (multi_conn ∅)
      (mkTransactionState true [[bs "SET"; bs "k"; bs "2"]; [bs "GET"; bs "k"]] ∅)); try reflexivity.
    + by repeat constructor.
    + apply (bool_decide_unpack _). by vm_compute.
  - by vm_compute.
  - intros conn'. vm_compute. intros [= <-]. reflexivity.
Defined.

(** C25: EXEC runs the queue.  An EXEC whose watched keys have kept their versions runs the
    queued commands in the order they were queued, each as outside a transaction and on
    the state the one before it left; it sends what they send to other clients, replies
    with one array that holds the replies of the commands in that order (an error for a
    command that wants the client to wait), and closes the transaction.  It returns if
    and only if all the commands do. *)
Theorem exec_runs_the_queue (sin cos asin : double -> double) (has_send : bool) (fd : Z) (e : env)
    (c c' : CommandContext) (p : ConnectionPool) (conn : Connection) (t : TransactionState) :
  conn_pool c = Some p -> connections_ p !! fd = Some conn -> tx_ conn = Some t -> in_multi t = true ->
  watch_dirty t (ctx_store c) = false ->
  handle_exec sin cos asin has_send fd e c = Ret ((), c')
  <-> exists replies sent c2 p2 conn2,
        exec_run sin cos asin has_send fd e (queued_commands t) (with_out [] c) replies sent c2
        /\ length replies = length (queued_commands t)
        /\ conn_pool c2 = Some p2 /\ connections_ p2 !! fd = Some conn2
        /\ c' = with_out (out c ++ sent ++ [Emit (bs "*" ++ dec_digits (zlen replies) ++ CRLF ++ mjoin replies)])
                  (with_pool (Some (put_conn fd (clear_tx conn2) p2)) c2).
Proof.
  intros Hp Hc Ht Hm Hd. unfold handle_exec. rewrite bind_eq, (tx_in_multi_pool fd e c p conn Hp Hc), Ht.
  cbn [queueing]. rewrite Hm. cbn [negb]. rewrite bind_eq, (tx_get_pool fd e c p conn t Hp Hc Ht), put_same, <- Hp, with_pool_same by done.
  rewrite bind_eq. cbn [get_ctx]. rewrite Hd, bind_eq.
  assert (Htail : forall replies c2 p2 conn2 sent, conn_pool c2 = Some p2 -> connections_ p2 !! fd = Some conn2 ->
    (_ ← tx_clear fd; emit_into (fun o => encode_raw_array_into o replies)) e (with_out (out c ++ sent) c2)
    = Ret ((), with_out (out c ++ sent ++ [Emit (bs "*" ++ dec_digits (zlen replies) ++ CRLF ++ mjoin replies)])
                  (with_pool (Some (put_conn fd (clear_tx conn2) p2)) c2))).
  { intros replies c2 p2 conn2 sent Hp2 Hc2. rewrite bind_eq, (tx_clear_pool fd e _ p2 conn2) by done.
    unfold emit_into, emit, modify. rewrite encode_raw_array_into_eq, app_nil_l, concat_mjoin. unfold header.
    cbn [out with_out with_pool]. by rewrite <- !app_assoc. }
  split.
  - destruct (exec_loop _ _ _ _ _ _ e c) as [[replies c1]| |] eqn:Ex; [|done..]. intros H.
    destruct (exec_loop_open sin cos asin has_send fd _ e c p conn replies c1 Hp Hc Ex) as (p2 & conn2 & Hp2 & Hc2).
    apply exec_loop_runs in Ex as (sent & c2 & Hr & ->). rewrite (Htail replies c2 p2 conn2 sent Hp2 Hc2) in H.
    exists replies, sent, c2, p2, conn2. split_and!; [done|by eapply exec_run_length|done..|]. by injection H.
  - intros (replies & sent & c2 & p2 & conn2 & Hr & _ & Hp2 & Hc2 & ->).
    rewrite (proj2 (exec_loop_runs sin cos asin has_send fd e (queued_commands t) c replies (with_out (out c ++ sent) c2)))
      by (exists sent, c2; done). by apply Htail.
Qed.

Definition no_watch : gmap bytes Z := ∅.

Lemma exec_runs_the_queue_witness :
  exists c' replies, handle_exec id id id true 5 (env_tick 3) (multi_ctx no_watch) = Ret ((), c')
    /\ length replies = 2%nat
    /\ out c' = [Emit (bs "*2" ++ CRLF ++ mjoin replies)]
    /\ emitted (out c') = bs "*2" ++ CRLF ++ bs "+OK" ++ CRLF ++ bulk (bs "2").
Proof.
  assert (Hrun : exists c', handle_exec id id id true 5 (env_tick 3) (multi_ctx no_watch) = Ret ((), c')
    /\ emitted (out c') = bs "*2" ++ CRLF ++ bs "+OK" ++ CRLF ++ bulk (bs "2") /\ length (out c') = 1%nat)
    by (eexists; split_and!; vm_compute; reflexivity).
  destruct Hrun as (c' & Hrun & Hem & Hl). pose proof Hrun as H.
  apply (exec_runs_the_queue id id id true 5 (env_tick 3) (multi_ctx no_watch) c'
    (put_conn 5 (multi_conn no_watch) empty_pool) (multi_conn no_watch)
    (mkTransactionState true [[bs "SET"; bs "k"; bs "2"]; [bs "GET"; bs "k"]] no_watch)
    eq_refl eq_refl eq_refl eq_refl ltac:(vm_compute; reflexivity)) in H as (replies & sent & c2 & p2 & conn2 & _ & Hn & _ & _ & ->).
  eexists. exists replies. split; [exact Hrun|]. split; [exact Hn|]. split; [|exact Hem].
  cbn [out with_out] in Hl |- *. change (out (multi_ctx no_watch)) with (@nil out_event) in *. cbn [app] in *.
  destruct sent; [|cbn in Hl; rewrite length_app in Hl; cbn in Hl; lia]. unfold zlen. rewrite Hn. reflexivity.
Defined.
