(* ===== verification/ReplicaConnector.v ===== *)
(** * The replica's side of replication (replica/replica_connector.cpp)

    The connection to the master is a [socket]: the results of the calls of [send], the
    bytes the master has sent and not yet read, and for each call of [read] how many
    bytes the kernel hands over.  [wire] collects what was sent. *)

From S2P Require Import Prelude Text StreamIds RespCodec Scores SortedSets Store BlockingManager PubSub.
From S2P Require Import Connection Sha256 Acl Doubles Aof Context ServerCommands.

(** What [getaddrinfo], [::socket] and [::connect] answer. *)
Inductive connect_result :=
| AddressUnknown
| SocketFailed (fd : Z)
| ConnectFailed
| ConnectedOn (fd : Z).

Record socket := mkSocket {
  connects : connect_result;
  send_results : list Z;
  reads : list nat;
  incoming : bytes;
  wire : bytes
}.

Record ReplicaConnector := mkReplicaConnector {
  host_ : bytes;
  port_ : Z;
  rc_fd_ : Z;
  pending_buffer_ : bytes;
  offset_ : Z
}.

Definition new_connector (host : bytes) (port : Z) : ReplicaConnector := mkReplicaConnector host port (-1) [] 0.

Definition set_fd (fd : Z) (r : ReplicaConnector) : ReplicaConnector :=
  mkReplicaConnector (host_ r) (port_ r) fd (pending_buffer_ r) (offset_ r).
Definition set_pending_buffer (b : bytes) (r : ReplicaConnector) : ReplicaConnector :=
  mkReplicaConnector (host_ r) (port_ r) (rc_fd_ r) b (offset_ r).

Definition append_to_pending_buffer (data : bytes) (r : ReplicaConnector) : ReplicaConnector :=
  set_pending_buffer (pending_buffer_ r ++ data) r.
Definition master_fd (r : ReplicaConnector) : Z := rc_fd_ r.

Definition connect_to_master (s : socket) (r : ReplicaConnector) : bool * ReplicaConnector :=
  match connects s with
  | AddressUnknown => (false, r)
  | SocketFailed fd => (false, set_fd fd r)
  | ConnectFailed => (false, set_fd (-1) r)
  | ConnectedOn fd => (true, set_fd fd r)
  end.

(** ** The system calls *)

(** The loop that sends a whole message: whether it succeeded. *)
Fixpoint send_message (results : list Z) (msg : bytes) (sent : Z) : bool * list Z * bytes :=
  if zlen msg <=? sent then (true, results, msg)
  else match results with
       | [] => (false, [], take (Z.to_nat sent) msg)
       | n :: results =>
           if n <=? 0 then (false, results, take (Z.to_nat sent) msg)
           else send_message results msg (sent + n)
       end.

Definition send_on (msg : bytes) (s : socket) : bool * socket :=
  let '(ok, results, written) := send_message (send_results s) msg 0 in
  (ok, mkSocket (connects s) results (reads s) (incoming s) (wire s ++ written)).

(** [::read(fd_, buf, n)]; nothing is read at the end of the stream or on an error. *)
Definition read_from_master (n : nat) (s : socket) : bytes * socket :=
  match reads s with
  | [] => ([], s)
  | k :: ks =>
      let m := Nat.min k n in
      (take m (incoming s), mkSocket (connects s) (send_results s) ks (drop m (incoming s)) (wire s))
  end.

(** ** The handshake *)
Definition ensure_connected (s : socket) (r : ReplicaConnector) : bool * ReplicaConnector :=
  if rc_fd_ r <? 0 then connect_to_master s r else (true, r).

Definition send_and_check (args : list bytes) (pred : bytes -> bool) (s : socket) (r : ReplicaConnector)
  : bool * socket * ReplicaConnector :=
  let (ok, r) := ensure_connected s r in
  if negb ok then (false, s, r)
  else
    let (ok, s) := send_on (encode_array args) s in
    if negb ok then (false, s, r)
    else
      let (resp, s) := read_from_master 256 s in
      if (length resp =? 0)%nat then (false, s, r) else (pred resp, s, r).

Definition send_and_expect (args : list bytes) (expected_response : bytes) : socket -> ReplicaConnector
  -> bool * socket * ReplicaConnector :=
  send_and_check args (fun resp => bool_decide (resp = expected_response)).

Definition send_ping : socket -> ReplicaConnector -> bool * socket * ReplicaConnector :=
  send_and_expect [bs "PING"] (bs "+PONG" ++ CRLF).

Definition send_replconf (listening_port : Z) (s : socket) (r : ReplicaConnector)
  : bool * socket * ReplicaConnector :=
  let '(ok, s, r) := send_and_expect [bs "REPLCONF"; bs "listening-port"; to_string listening_port]
                       (bs "+OK" ++ CRLF) s r in
  if negb ok then (false, s, r)
  else send_and_expect [bs "REPLCONF"; bs "capa"; bs "psync2"] (bs "+OK" ++ CRLF) s r.

(** The position of the first line end. *)
Fixpoint find_crlf (s : bytes) : option nat :=
  match s with
  | c :: ((d :: _) as s') =>
      if bool_decide (c = CR) && bool_decide (d = LF) then Some 0%nat else S <$> find_crlf s'
  | _ => None
  end.

Definition send_psync (s : socket) (r : ReplicaConnector) : bool * socket * ReplicaConnector :=
  let (ok, r) := ensure_connected s r in
  if negb ok then (false, s, r)
  else
    let (ok, s) := send_on (encode_array [bs "PSYNC"; bs "?"; bs "-1"]) s in
    if negb ok then (false, s, r)
    else
      let (all, s) := read_from_master 512 s in
      if (length all =? 0)%nat then (false, s, r)
      else if negb (starts_with (bs "+FULLRESYNC") all) then (false, s, r)
      else match find_crlf all with
           | None => (false, s, r)
           | Some crlf =>
               let remaining := drop (crlf + 2) all in
               (true, s, if bool_decide (remaining = []) then r else set_pending_buffer remaining r)
           end.

(** ** The snapshot the master sends *)

(** [while (copied < len)]: reads until [rdb_data] is full. *)
Fixpoint rdb_read_loop (sizes : list nat) (len : nat) (rdb_data : bytes) (s : socket) : option bytes * socket :=
  if (len <=? length rdb_data)%nat then (Some rdb_data, s)
  else match sizes with
       | [] => (None, s)
       | _ :: sizes =>
           let (buf, s) := read_from_master (len - length rdb_data) s in
           if (length buf =? 0)%nat then (None, s) else rdb_read_loop sizes len (rdb_data ++ buf) s
       end.

(** What is done once the header line is complete. *)
Definition receive_body (header_buf : bytes) (crlf_pos : nat) (s : socket) (r : ReplicaConnector)
  : option bytes * socket * ReplicaConnector :=
  if negb (bool_decide (head header_buf = Some "$"%char)) then (None, s, r)
  else match from_chars true INT32_MIN INT32_MAX (take (crlf_pos - 1) (drop 1 header_buf)) with
       | FcValue len _ =>
           if len <=? 0 then (None, s, r)
           else
             let len := Z.to_nat len in
             let available := drop (crlf_pos + 2) header_buf in
             match rdb_read_loop (reads s) len (take len available) s with
             | (None, s) => (None, s, r)
             | (Some rdb_data, s) =>
                 (Some rdb_data, s,
                  if (len <? length available)%nat then set_pending_buffer (drop len available) r else r)
             end
       | _ => (None, s, r)
       end.

(** [while (true)]: each turn without a line end uses one result of [read]. *)
Fixpoint header_loop (sizes : list nat) (header_buf : bytes) (s : socket) (r : ReplicaConnector)
  : option bytes * socket * ReplicaConnector :=
  match find_crlf header_buf with
  | Some crlf_pos => receive_body header_buf crlf_pos s r
  | None =>
      match sizes with
      | [] => (None, s, r)
      | _ :: sizes =>
          let (buf, s) := read_from_master 256 s in
          if (length buf =? 0)%nat then (None, s, r) else header_loop sizes (header_buf ++ buf) s r
      end
  end.

Definition receive_rdb (s : socket) (r : ReplicaConnector) : option bytes * socket * ReplicaConnector :=
  if rc_fd_ r <? 0 then (None, s, r)
  else header_loop (reads s) (pending_buffer_ r) s (set_pending_buffer [] r).

Definition connect_if_replica (config : ServerConfig) (listening_port : Z) (s : socket)
  : option ReplicaConnector * socket :=
  match replica config with
  | None => (None, s)
  | Some rc =>
      let r := new_connector (rc_host rc) (rc_port rc) in
      let '(ok, s, r) := send_ping s r in
      if negb ok then (None, s)
      else
        let '(ok, s, r) := send_replconf listening_port s r in
        if negb ok then (None, s)
        else
          let '(ok, s, r) := send_psync s r in
          if negb ok then (None, s)
          else
            let '(rdb, s, r) := receive_rdb s r in
            match rdb with
            | None => (None, s)
            | Some _ => (Some r, s)
            end
  end.

(** ** The command stream *)
Record ProcessedBuffer := mkProcessedBuffer { ack_responses : bytes; commands : list bytes }.

Definition is_getack (args : list bytes) : bool :=
  match args with
  | a0 :: a1 :: _ => bool_decide (to_upper a0 = bs "REPLCONF") && bool_decide (to_upper a1 = bs "GETACK")
  | _ => false
  end.

(** [emplace_back(data, n)]: a string of [n] bytes of the buffer, of which the one after
    its end is zero and the next is not there. *)
Definition copy_command (n : nat) (buffer : bytes) : outcome bytes :=
  if (n <=? length buffer)%nat then Ret (take n buffer)
  else if (n =? S (length buffer))%nat then Ret (buffer ++ [chr 0])
  else Ub MemoryOverrun.

(** Every parsed command consumes at least three bytes of the buffer. *)
Fixpoint process_buffer_loop (fuel : nat) (buffer : bytes) (offset : Z) (result : ProcessedBuffer)
  : outcome (bytes * Z * ProcessedBuffer) :=
  match fuel with
  | O => Ret (buffer, offset, result)
  | S fuel =>
      parsed ← parse_one buffer;
      match parsed with
      | Unexpected _ => Ret (buffer, offset, result)
      | Value pc =>
          result ←
            (if is_getack (pc_args pc)
             then Ret (mkProcessedBuffer
                         (ack_responses result ++ encode_array [bs "REPLCONF"; bs "ACK"; to_string offset])
                         (commands result))
             else cmd ← copy_command (pc_consumed pc) buffer;
                  Ret (mkProcessedBuffer (ack_responses result) (commands result ++ [cmd])));
          offset ← int64_of (offset + Z.of_nat (pc_consumed pc));
          process_buffer_loop fuel (drop (pc_consumed pc) buffer) offset result
      end
  end.

Definition process_buffer_impl (r : ReplicaConnector) : outcome (ProcessedBuffer * ReplicaConnector) :=
  '(buffer, offset, result) ←
    process_buffer_loop (S (length (pending_buffer_ r))) (pending_buffer_ r) (offset_ r) (mkProcessedBuffer [] []);
  Ret (result, mkReplicaConnector (host_ r) (port_ r) (rc_fd_ r) buffer offset).
Definition process_pending_buffer : ReplicaConnector -> outcome (ProcessedBuffer * ReplicaConnector) :=
  process_buffer_impl.

Definition process_propagated_commands (s : socket) (r : ReplicaConnector)
  : outcome (option ProcessedBuffer * socket * ReplicaConnector) :=
  if rc_fd_ r <? 0 then Ret (None, s, r)
  else
    let (buf, s) := read_from_master 4096 s in
    if (length buf =? 0)%nat then Ret (None, s, r)
    else
      '(result, r) ← process_buffer_impl (set_pending_buffer (pending_buffer_ r ++ buf) r);
      Ret (Some result, s, r).

Definition send_response (data : bytes) (s : socket) : socket := (send_on data s).2.

(** ** Lemmas *)

Lemma find_crlf_cons c d s :
  find_crlf (c :: d :: s)
  = if bool_decide (c = CR) && bool_decide (d = LF) then Some 0%nat else S <$> find_crlf (d :: s).
Proof. done. Qed.

Lemma find_crlf_line line rest : CR ∉ line -> find_crlf (line ++ CRLF ++ rest) = Some (length line).
Proof.
  intros Hl. induction line as [|c line IH]; [done|]. apply not_elem_of_cons in Hl as [Hc Hl].
  specialize (IH Hl). rewrite <- app_comm_cons. destruct (line ++ CRLF ++ rest) as [|d l] eqn:E; [by destruct line|].
  rewrite find_crlf_cons, IH, (bool_decide_eq_false_2 (c = CR)) by done. done.
Qed.

Lemma find_crlf_none p : LF ∉ p -> find_crlf p = None.
Proof.
  induction p as [|c p IH]; intros Hp; [done|]. apply not_elem_of_cons in Hp as [_ Hp].
  destruct p as [|d p]; [done|]. rewrite find_crlf_cons, (IH Hp).
  apply not_elem_of_cons in Hp as [Hd _]. by rewrite (bool_decide_eq_false_2 (d = LF)), andb_false_r by done.
Qed.

(** A read of at least one byte takes the front of what has arrived. *)
Lemma read_from_master_spec n s k ks :
  reads s = k :: ks -> (1 <= k)%nat -> (1 <= n)%nat -> incoming s <> [] ->
  exists buf s', read_from_master n s = (buf, s') /\ incoming s = buf ++ incoming s' /\ reads s' = ks
    /\ wire s' = wire s /\ (1 <= length buf <= n)%nat.
Proof.
  intros Hs Hk Hn Hi. unfold read_from_master. rewrite Hs. do 2 eexists. split; [done|]. simpl.
  split; [by rewrite take_drop|]. do 2 (split; [done|]). rewrite length_take.
  destruct (incoming s); [done|]. simpl. lia.
Qed.

Lemma app_eq_prefix {A} (a b c d : list A) :
  a ++ b = c ++ d -> (length a <= length c)%nat -> c = a ++ drop (length a) c /\ b = drop (length a) c ++ d.
Proof.
  intros H Hl. assert (a = take (length a) c) as Ha.
  { apply (f_equal (take (length a))) in H. by rewrite take_app_length, take_app_le in H by done. }
  assert (c = a ++ drop (length a) c) as Hc by (rewrite Ha at 1; by rewrite take_drop).
  split; [done|]. rewrite Hc, <- app_assoc in H. by apply app_inv_head in H.
Qed.

Lemma rdb_read_loop_spec rdb extra : forall sizes got s,
  reads s = sizes -> Forall (fun k => 1 <= k)%nat sizes ->
  (length rdb - length got <= length sizes)%nat -> (length got <= length rdb)%nat ->
  got ++ incoming s = rdb ++ extra ->
  exists s', rdb_read_loop sizes (length rdb) got s = (Some rdb, s') /\ incoming s' = extra
    /\ wire s' = wire s.
Proof.
  induction sizes as [|k sizes IH]; intros got s Hs Hk Hn Hg Happ;
    destruct (app_eq_prefix _ _ _ _ Happ Hg) as [Hr Hi];
    (destruct (decide (length rdb <= length got)%nat) as [Hd|Hd];
     [exists s; simpl; rewrite (proj2 (Nat.leb_le _ _)) by done;
      rewrite drop_ge, app_nil_r in Hr by done; rewrite drop_ge in Hi by done; by subst|]); [simpl in Hn; lia|].
  apply Forall_cons in Hk as [Hk Hks]. cbn [rdb_read_loop].
  rewrite (proj2 (Nat.leb_gt _ _)) by lia.
  assert (length (drop (length got) rdb) <> 0)%nat as Hl by (rewrite length_drop; lia).
  destruct (read_from_master_spec (length rdb - length got) s k sizes) as (buf & s' & -> & Hb & Hs' & Hw & Hlen);
    [done|done|lia|rewrite Hi; by destruct (drop (length got) rdb)|].
  rewrite (proj2 (Nat.eqb_neq _ _)) by lia.
  destruct (IH (got ++ buf) s') as (s'' & -> & ? & ?); [done|done|rewrite length_app; simpl in Hn; lia..| |].
  { rewrite <- app_assoc, <- Hb. done. }
  exists s''. repeat split; congruence.
Qed.

(** The line that announces the snapshot: its length, without the line end. *)
Definition rdb_line (rdb : bytes) : bytes := bs "$" ++ dec_digits (zlen rdb).

Lemma rdb_line_plain rdb c : is_digit c = false -> c <> "$"%char -> c ∉ rdb_line rdb.
Proof.
  intros Hc Hd. unfold rdb_line. simpl. rewrite not_elem_of_cons. split; [done|]. intros H.
  pose proof (dec_digits_digits (zlen rdb) (zlen_nonneg _)) as Hf. rewrite Forall_forall in Hf.
  apply Hf in H. congruence.
Qed.

Lemma receive_body_spec rdb extra available s r :
  rdb <> [] -> zlen rdb <= INT32_MAX -> Forall (fun k => 1 <= k)%nat (reads s) ->
  (length rdb <= length available + length (reads s))%nat ->
  available ++ incoming s = rdb ++ extra ->
  exists s' p, receive_body (rdb_line rdb ++ CRLF ++ available) (length (rdb_line rdb)) s (set_pending_buffer [] r)
    = (Some rdb, s', set_pending_buffer p r) /\ p ++ incoming s' = extra /\ wire s' = wire s.
Proof.
  intros Hne Hmax Hk Hn Happ. unfold receive_body.
  rewrite bool_decide_true by done. cbn [negb].
  set (line := rdb_line rdb).
  assert (take (length line - 1) (drop 1 (line ++ CRLF ++ available)) = dec_digits (zlen rdb)) as ->.
  { change line with ("$"%char :: dec_digits (zlen rdb)). simpl length. rewrite Nat.sub_succ, Nat.sub_0_r.
    apply take_app_length. }
  assert (drop (length line + 2) (line ++ CRLF ++ available) = available) as Ha.
  { rewrite app_assoc. change 2%nat with (length CRLF). by rewrite <- length_app, drop_app_length. }
  pose proof (zlen_nonneg rdb) as Hz. destruct (dec_digits_spec (zlen rdb) Hz) as (Hdn & Hdd & Hdv).
  rewrite from_chars_digits, Hdv, Ha by (rewrite ?Hdv; unfold INT32_MIN, INT32_MAX in *; (done || lia)).
  assert (0 < zlen rdb) by (unfold zlen; destruct rdb; [done|simpl; lia]).
  rewrite (proj2 (Z.leb_gt _ _)) by done. unfold zlen. rewrite Nat2Z.id.
  destruct (decide (length available <= length rdb)%nat) as [Hle|Hgt].
  - rewrite take_ge by done.
    destruct (rdb_read_loop_spec rdb extra (reads s) available s) as (s' & -> & Hx & Hw); [done|done|lia|done..|].
    exists s', []. rewrite (proj2 (Nat.ltb_ge _ _)) by done. by rewrite Hx.
  - destruct (app_eq_prefix rdb extra available (incoming s)) as [Hav Hex]; [done|lia|].
    rewrite Hav, take_app_length, drop_app_length, length_app.
    exists s, (drop (length rdb) available).
    destruct (reads s); cbn [rdb_read_loop]; rewrite Nat.leb_refl, (proj2 (Nat.ltb_lt _ _)); try done.
    all: rewrite length_drop; lia.
Qed.

(** Before the whole header has arrived there is no line end in the buffer. *)
Lemma header_prefix_none rdb buf rest :
  buf ++ rest = rdb_line rdb ++ CRLF -> rest <> [] -> find_crlf buf = None.
Proof.
  intros H Hr. apply find_crlf_none. intros Hin.
  destruct rest as [|c rest _] using rev_ind; [done|]. unfold CRLF in H.
  change [CR; LF] with ([CR] ++ [LF]) in H. rewrite !app_assoc in H. apply app_inj_tail in H as [H _].
  assert (LF ∈ rdb_line rdb ++ [CR]) as Hl by (rewrite <- H; apply elem_of_app; by left).
  apply elem_of_app in Hl as [Hl|Hl]; [by apply rdb_line_plain in Hl|].
  by apply list_elem_of_singleton in Hl.
Qed.

Lemma header_loop_spec rdb extra r :
  rdb <> [] -> zlen rdb <= INT32_MAX -> forall sizes buf s,
  reads s = sizes -> Forall (fun k => 1 <= k)%nat sizes ->
  (length (rdb_line rdb ++ CRLF ++ rdb) <= length buf + length sizes)%nat ->
  buf ++ incoming s = rdb_line rdb ++ CRLF ++ rdb ++ extra ->
  exists s' p, header_loop sizes buf s (set_pending_buffer [] r) = (Some rdb, s', set_pending_buffer p r)
    /\ p ++ incoming s' = extra /\ wire s' = wire s.
Proof.
  intros Hne Hmax. induction sizes as [|k sizes IH]; intros buf s Hs Hk Hn Happ.
  all: rewrite !length_app in Hn; change (length CRLF) with 2%nat in Hn.
  all: assert (0 < length rdb)%nat by (destruct rdb; [done|simpl; lia]).
  all: destruct (decide (length (rdb_line rdb ++ CRLF) <= length buf)%nat) as [Hle|Hgt];
    [|rewrite length_app in Hgt; change (length CRLF) with 2%nat in Hgt].
  1,3: destruct (app_eq_prefix (rdb_line rdb ++ CRLF) (rdb ++ extra) buf (incoming s)) as [Hb Hi];
    [by rewrite Happ, <- !app_assoc|done|]; rewrite Hb, <- app_assoc; cbn [header_loop];
    rewrite find_crlf_line by (by apply rdb_line_plain);
    apply receive_body_spec; rewrite ?Hs; try done;
    rewrite length_drop, length_app; change (length CRLF) with 2%nat; simpl length in *; lia.
  - cbn [length] in Hn. lia.
  - destruct (app_eq_prefix buf (incoming s) (rdb_line rdb ++ CRLF) (rdb ++ extra)) as [Hb Hi];
      [by rewrite Happ, <- !app_assoc|rewrite length_app; change (length CRLF) with 2%nat; lia|].
    assert (drop (length buf) (rdb_line rdb ++ CRLF) <> []) as Hd.
    { intros Hd. apply (f_equal length) in Hd. rewrite length_drop, length_app in Hd. cbn [length CRLF] in Hd. lia. }
    cbn [header_loop]. rewrite (header_prefix_none rdb _ _ (eq_sym Hb) Hd).
    apply Forall_cons in Hk as [Hk Hks].
    destruct (read_from_master_spec 256 s k sizes) as (new & s' & -> & Hnew & Hs' & Hw & Hlen);
      [done|done|lia|rewrite Hi; by destruct (drop _ _)|].
    rewrite (proj2 (Nat.eqb_neq _ _)) by lia. rewrite <- Hw.
    apply IH; [done..| |by rewrite <- Happ, Hnew, app_assoc].
    rewrite !length_app. change (length CRLF) with 2%nat. cbn [length] in Hn. lia.
Qed.

(** ** What the stream of commands means *)

(** Where the offset stands before each command of a list that starts at [offset]. *)
Fixpoint offsets (offset : Z) (cmds : list (list bytes)) : list (list bytes * Z) :=
  match cmds with
  | [] => []
  | cmd :: cmds => (cmd, offset) :: offsets (offset + zlen (encode_array cmd)) cmds
  end.

Definition ack (offset : Z) : bytes := encode_array [bs "REPLCONF"; bs "ACK"; to_string offset].
Definition acks (offset : Z) (cmds : list (list bytes)) : bytes :=
  mjoin (ack ∘ snd <$> filter (fun p : list bytes * Z => is_getack p.1 = true) (offsets offset cmds)).
Definition executed (cmds : list (list bytes)) : list (list bytes) := filter (fun cmd => is_getack cmd = false) cmds.

Lemma process_buffer_stream cmds tail :
  Forall sendable cmds -> incomplete tail -> forall fuel offset result,
  (length (encode_all cmds) + length tail < fuel)%nat ->
  0 <= offset -> offset + zlen (encode_all cmds) <= INT64_MAX ->
  process_buffer_loop fuel (encode_all cmds ++ tail) offset result
  = Ret (tail, offset + zlen (encode_all cmds),
         mkProcessedBuffer (ack_responses result ++ acks offset cmds)
           (commands result ++ (encode_array <$> executed cmds))).
Proof.
  intros Hs Ht. induction Hs as [|cmd cmds [Hn Hsm] Hs IH]; intros fuel offset [ar co] Hf Ho Hm.
  - change (encode_all []) with ([] : bytes) in *. destruct fuel; [lia|]. cbn [process_buffer_loop app].
    assert (exists e, parse_one tail = Ret (Unexpected e)) as [e ->] by (destruct Ht as [->|He]; [by eexists|done]).
    unfold acks. cbn. rewrite !app_nil_r, Z.add_0_r. done.
  - change (encode_all (cmd :: cmds)) with (encode_array cmd ++ encode_all cmds) in *.
    rewrite length_app in Hf. rewrite zlen_app in *. pose proof (encode_array_nonempty cmd) as Hl.
    destruct fuel as [|fuel]; [lia|]. cbn [process_buffer_loop]. rewrite <- app_assoc.
    rewrite parse_one_encode_rest by done. cbn [mbind outcome_bind pc_args pc_consumed].
    pose proof (zlen_nonneg (encode_all cmds)) as Hz.
    unfold copy_command. rewrite (proj2 (Nat.leb_le _ _)) by (rewrite length_app; lia).
    rewrite take_app_length, drop_app_length. cbn [mbind outcome_bind].
    change (Z.of_nat (length (encode_array cmd))) with (zlen (encode_array cmd)).
    rewrite (int64_of_ret (offset + zlen (encode_array cmd)))
      by (pose proof (zlen_nonneg (encode_array cmd)); unfold in_int64, INT64_MIN; lia).
    unfold acks, executed. rewrite !filter_cons. cbn [offsets fst]. rewrite filter_cons. cbn [fst].
    destruct (is_getack cmd); cbn [mbind outcome_bind decide bool_eq_dec];
      rewrite IH by (lia || (pose proof (zlen_nonneg (encode_array cmd)); lia)); cbn [ack_responses commands];
      rewrite Z.add_assoc; do 3 f_equal.
    + cbn. by rewrite <- app_assoc.
    + cbn. by rewrite <- app_assoc.
Qed.

(** ** The stream in pieces *)

(** Whether the first [k] bytes of a stream end where the parser can tell: not in the
    line end of a command's last argument. *)
Fixpoint clean_cut (cmds : list (list bytes)) (k : nat) : bool :=
  match cmds with
  | [] => true
  | cmd :: cmds =>
      let n := length (encode_array cmd) in
      if (k <? n)%nat then (k + 2 <? n)%nat else clean_cut cmds (k - n)
  end.

Definition streamable (cmd : list bytes) : Prop := cmd <> [] /\ sendable cmd.

Lemma encode_all_cons cmd cmds : encode_all (cmd :: cmds) = encode_array cmd ++ encode_all cmds.
Proof. done. Qed.

Lemma encode_all_app c1 c2 : encode_all (c1 ++ c2) = encode_all c1 ++ encode_all c2.
Proof. unfold encode_all. by rewrite fmap_app, join_app. Qed.

Lemma clean_cut_split cmds : forall k,
  Forall streamable cmds -> (k <= length (encode_all cmds))%nat -> clean_cut cmds k = true ->
  exists c1 c2 tail, cmds = c1 ++ c2 /\ take k (encode_all cmds) = encode_all c1 ++ tail /\ incomplete tail
    /\ (length (encode_all c1) <= k)%nat.
Proof.
  induction cmds as [|cmd cmds IH]; intros k Hs Hk Hc.
  { exists [], [], []. simpl in Hk. assert (k = 0)%nat as -> by lia. repeat split; [by left|done]. }
  apply Forall_cons in Hs as [[Hne [Hn Hsm]] Hs]. rewrite encode_all_cons in *. cbn [clean_cut] in Hc.
  destruct (k <? _)%nat eqn:E; b2p.
  - exists [], (cmd :: cmds), (take k (encode_array cmd)). rewrite take_app_le by lia.
    repeat split; [|simpl; lia]. right.
    destruct (parse_one_take cmd [] k Hne Hn Hsm) as [_ He]. rewrite app_nil_r in He. apply He. lia.
  - rewrite length_app in Hk.
    destruct (IH (k - length (encode_array cmd))%nat) as (c1 & c2 & tail & -> & Ht & Hi & Hl); [done|lia|done|].
    exists (cmd :: c1), c2, tail. split; [done|]. rewrite encode_all_cons, take_app_ge, Ht, app_assoc by lia.
    repeat split; [done|]. rewrite length_app. lia.
Qed.

Lemma clean_cut_app c1 c2 k :
  clean_cut (c1 ++ c2) (length (encode_all c1) + k) = clean_cut c2 k.
Proof.
  induction c1 as [|cmd c1 IH]; [done|]. rewrite encode_all_cons, length_app. cbn [clean_cut app].
  rewrite (proj2 (Nat.ltb_ge _ _)) by lia. rewrite <- IH. f_equal. lia.
Qed.

Lemma offsets_app o c1 c2 : offsets o (c1 ++ c2) = offsets o c1 ++ offsets (o + zlen (encode_all c1)) c2.
Proof.
  revert o. induction c1 as [|cmd c1 IH]; intros o; [by rewrite Z.add_0_r|].
  cbn [app offsets]. rewrite IH, encode_all_cons, zlen_app. cbn [app]. by rewrite Z.add_assoc.
Qed.

Lemma acks_app o c1 c2 : acks o (c1 ++ c2) = acks o c1 ++ acks (o + zlen (encode_all c1)) c2.
Proof. unfold acks. by rewrite offsets_app, filter_app, fmap_app, join_app. Qed.

(** As many reads of the master's bytes as [n] says, each followed by what they complete. *)
Fixpoint follow_master (n : nat) (s : socket) (r : ReplicaConnector)
  : outcome (ProcessedBuffer * socket * ReplicaConnector) :=
  match n with
  | O => Ret (mkProcessedBuffer [] [], s, r)
  | S n =>
      '(got, s, r) ← process_propagated_commands s r;
      match got with
      | None => Ret (mkProcessedBuffer [] [], s, r)
      | Some b =>
          '(b', s, r) ← follow_master n s r;
          Ret (mkProcessedBuffer (ack_responses b ++ ack_responses b') (commands b ++ commands b'), s, r)
      end
  end.

Lemma read_exactly n s k ks :
  reads s = k :: ks -> (1 <= k <= n)%nat -> (k <= length (incoming s))%nat ->
  exists buf s', read_from_master n s = (buf, s') /\ incoming s = buf ++ incoming s' /\ reads s' = ks
    /\ wire s' = wire s /\ length buf = k.
Proof.
  intros Hs Hk Hi. unfold read_from_master. rewrite Hs. do 2 eexists. split; [done|]. cbn.
  split; [by rewrite take_drop|]. do 2 (split; [done|]). rewrite length_take. lia.
Qed.

Lemma incomplete_encode_all cmds : Forall streamable cmds -> incomplete (encode_all cmds) -> cmds = [].
Proof.
  intros Hs Hi. destruct Hs as [|cmd cmds [_ [Hn Hsm]] _]; [done|]. rewrite encode_all_cons in Hi.
  destruct Hi as [Hi|[e He]]; [|by rewrite parse_one_encode_rest in He].
  pose proof (encode_array_nonempty cmd). apply (f_equal length) in Hi. rewrite length_app in Hi. simpl in Hi. lia.
Qed.

Lemma executed_app c1 c2 : executed (c1 ++ c2) = executed c1 ++ executed c2.
Proof. apply filter_app. Qed.

Lemma follow_master_spec : forall sizes cmds s r,
  reads s = sizes -> Forall (fun k => 1 <= k <= 4096)%nat sizes -> sum_list sizes = length (incoming s) ->
  pending_buffer_ r ++ incoming s = encode_all cmds -> incomplete (pending_buffer_ r) ->
  Forall streamable cmds -> 0 <= rc_fd_ r -> 0 <= offset_ r -> offset_ r + zlen (encode_all cmds) <= INT64_MAX ->
  (forall i, (1 <= i <= length sizes)%nat ->
     clean_cut cmds (length (pending_buffer_ r) + sum_list (take i sizes)) = true) ->
  exists s', follow_master (length sizes) s r
    = Ret (mkProcessedBuffer (acks (offset_ r) cmds) (encode_array <$> executed cmds), s',
           mkReplicaConnector (host_ r) (port_ r) (rc_fd_ r) [] (offset_ r + zlen (encode_all cmds))).
Proof.
  induction sizes as [|k sizes IH];
    intros cmds s [h p fd pend o] Hs Hk Hsum Happ Hinc Hcmds Hfd Ho Hmax Hcut; simpl in *.
  - destruct (incoming s); [|done]. rewrite app_nil_r in Happ. subst pend.
    apply incomplete_encode_all in Hinc as ->; [|done]. exists s. change (encode_all []) with ([] : bytes).
    change (zlen []) with 0. by rewrite Z.add_0_r.
  - apply Forall_cons in Hk as [Hk Hks].
    destruct (read_exactly 4096 s k sizes) as (buf & s1 & Hr & Hbuf & Hs1 & _ & Hlen); [done|done|lia|].
    pose proof (Hcut 1%nat ltac:(lia)) as Hc1. cbn [take sum_list foldr] in Hc1. rewrite Nat.add_0_r in Hc1.
    assert (take (length pend + k) (encode_all cmds) = pend ++ buf) as Htake.
    { rewrite <- Happ, Hbuf, app_assoc, <- Hlen, <- length_app. apply take_app_length. }
    destruct (clean_cut_split cmds (length pend + k)) as (c1 & c2 & tail & -> & Ht & Hi & Hl); [done| |done|].
    { rewrite <- Happ, Hbuf, !length_app. lia. }
    rewrite Htake in Ht. apply Forall_app in Hcmds as [Hc1s Hc2s].
    rewrite encode_all_app, zlen_app in *. pose proof (zlen_nonneg (encode_all c1)) as Hz1.
    pose proof (zlen_nonneg (encode_all c2)) as Hz2.
    unfold process_propagated_commands at 1. cbn [rc_fd_]. rewrite (proj2 (Z.ltb_ge _ _)) by done.
    rewrite Hr, (proj2 (Nat.eqb_neq _ _)) by lia.
    unfold process_buffer_impl, set_pending_buffer. cbn [host_ port_ rc_fd_ pending_buffer_ offset_]. rewrite Ht.
    rewrite process_buffer_stream; [|by eapply Forall_impl; [exact Hc1s|intros ? []]|done|rewrite length_app; lia|lia..].
    cbn [mbind outcome_bind].
    destruct (IH c2 s1 (mkReplicaConnector h p fd tail (o + zlen (encode_all c1)))) as [s' IHs];
      cbn [pending_buffer_ rc_fd_ offset_ host_ port_] in *; try done; try lia.
    + rewrite Hbuf, length_app in Hsum. lia.
    + rewrite Hbuf, app_assoc, Ht, <- app_assoc in Happ. by apply app_inv_head in Happ.
    + intros i Hi'. rewrite <- (clean_cut_app c1). specialize (Hcut (S i) ltac:(lia)).
      change (sum_list (take (S i) (k :: sizes))) with (k + sum_list (take i sizes))%nat in Hcut.
      rewrite <- Hcut. f_equal.
      apply (f_equal length) in Ht. rewrite !length_app in Ht. lia.
    + exists s'. rewrite IHs. cbn [mbind outcome_bind ack_responses commands app].
      by rewrite acks_app, executed_app, fmap_app, Z.add_assoc.
Qed.

Lemma process_buffer_nil fuel offset result : process_buffer_loop fuel [] offset result = Ret ([], offset, result).
Proof. by destruct fuel. Qed.

Lemma bad_start_stalls c rest r :
  c <> "*"%char -> pending_buffer_ r = c :: rest ->
  process_buffer_impl r = Ret (mkProcessedBuffer [] [], r).
Proof.
  intros Hc Hp. unfold process_buffer_impl. rewrite Hp. cbn [process_buffer_loop length].
  unfold parse_one. rewrite bool_decide_false by (simpl; congruence). cbn.
  rewrite <- Hp. by destruct r.
Qed.

(** * Properties *)

(** C29: the snapshot is received whole, and exactly it, however the kernel splits the
    bytes of its header, of its body and of the commands that follow: whatever has been
    read beyond it stays in the pending buffer, in front of what is still to come. *)
Theorem snapshot_received_in_pieces (rdb extra : bytes) (s : socket) (r : ReplicaConnector) :
  rdb <> [] -> zlen rdb <= INT32_MAX -> 0 <= rc_fd_ r ->
  Forall (fun k => 1 <= k)%nat (reads s) ->
  (length (rdb_line rdb ++ CRLF ++ rdb) <= length (pending_buffer_ r) + length (reads s))%nat ->
  pending_buffer_ r ++ incoming s = rdb_line rdb ++ CRLF ++ rdb ++ extra ->
  exists s' p, receive_rdb s r = (Some rdb, s', set_pending_buffer p r) /\ p ++ incoming s' = extra.
Proof.
  intros Hne Hmax Hfd Hk Hn Happ. unfold receive_rdb. rewrite (proj2 (Z.ltb_ge _ _)) by done.
  destruct (header_loop_spec rdb extra r Hne Hmax (reads s) (pending_buffer_ r) s) as (s' & p & H & Hp & _);
    [done..|]. eauto.
Qed.

Definition demo_connector (pending : bytes) : ReplicaConnector := mkReplicaConnector (bs "host") 6379 5 pending 0.
Definition demo_socket (sizes : list nat) (b : bytes) : socket := mkSocket (ConnectedOn 5) [] sizes b [].

Lemma snapshot_received_in_pieces_witness :
  let s := demo_socket (replicate 12 2%nat) (bs "3" ++ CRLF ++ bs "RDB" ++ bs "*1") in
  exists s' p, receive_rdb s (demo_connector (bs "$")) = (Some (bs "RDB"), s', demo_connector p)
    /\ p ++ incoming s' = bs "*1".
Proof.
  intros s. apply (snapshot_received_in_pieces (bs "RDB") (bs "*1") s (demo_connector (bs "$"))); try done.
  - by repeat constructor.
  - vm_compute. lia.
Defined.

(** A stream of commands is followed the same way however it is cut into reads, as
    long as no read ends inside the line end that closes a command: all commands but
    the requests for an acknowledgement are handed on, byte for byte and in order, each
    request is answered with the offset of the bytes before it, nothing is left over,
    and the offset has grown by the length of the stream. *)
Theorem stream_followed_in_pieces (cmds : list (list bytes)) (s : socket) (r : ReplicaConnector) :
  Forall (fun k => 1 <= k <= 4096)%nat (reads s) -> sum_list (reads s) = length (incoming s) ->
  pending_buffer_ r ++ incoming s = encode_all cmds -> incomplete (pending_buffer_ r) ->
  Forall streamable cmds -> 0 <= rc_fd_ r -> 0 <= offset_ r -> offset_ r + zlen (encode_all cmds) <= INT64_MAX ->
  (forall i, (1 <= i <= length (reads s))%nat ->
     clean_cut cmds (length (pending_buffer_ r) + sum_list (take i (reads s))) = true) ->
  exists s', follow_master (length (reads s)) s r
    = Ret (mkProcessedBuffer (acks (offset_ r) cmds) (encode_array <$> executed cmds), s',
           mkReplicaConnector (host_ r) (port_ r) (rc_fd_ r) [] (offset_ r + zlen (encode_all cmds))).
Proof. intros. by apply follow_master_spec. Qed.

Definition demo_stream : list (list bytes) :=
  [[bs "SET"; bs "k"; bs "1"]; [bs "REPLCONF"; bs "GETACK"; bs "*"]; [bs "DEL"; bs "k"];
   [bs "replconf"; bs "getack"; bs "*"]].

Lemma stream_followed_in_pieces_witness :
  let s := demo_socket [9; 20; 30; 62]%nat (encode_all demo_stream) in
  exists s', follow_master 4 s (demo_connector [])
    = Ret (mkProcessedBuffer (ack 27 ++ ack 84)
             [encode_array [bs "SET"; bs "k"; bs "1"]; encode_array [bs "DEL"; bs "k"]], s',
           mkReplicaConnector (bs "host") 6379 5 [] 121).
Proof.
  intros s.
  apply (stream_followed_in_pieces demo_stream s (demo_connector [])); try done.
  - repeat (apply Forall_cons; split; [simpl; lia|]). by apply Forall_nil.
  - by left.
  - by repeat constructor.
  - intros i Hi. do 5 (destruct i as [|i]; [lia || reflexivity|]). simpl in Hi. lia.
Defined.

(** When a read ends one byte before the end of a command, the replica takes the
    command as complete and drops the buffer; the missing line feed then arrives in
    front of the next command, and from there on no further command is ever executed or
    acknowledged, whatever follows. *)
Theorem split_line_end_stalls (cmd : list bytes) (r : ReplicaConnector) :
  streamable cmd -> is_getack cmd = false ->
  0 <= offset_ r -> offset_ r + zlen (encode_array cmd) <= INT64_MAX ->
  pending_buffer_ r = take (length (encode_array cmd) - 1) (encode_array cmd) ->
  exists r', process_buffer_impl r
      = Ret (mkProcessedBuffer [] [take (length (encode_array cmd) - 1) (encode_array cmd) ++ [chr 0]], r')
    /\ pending_buffer_ r' = []
    /\ forall rest, process_buffer_impl (set_pending_buffer (LF :: rest) r')
                    = Ret (mkProcessedBuffer [] [], set_pending_buffer (LF :: rest) r').
Proof.
  intros (Hne & Hn & Hsm) Hg Ho Hmax Hp. pose proof (encode_array_nonempty cmd) as Hl.
  destruct (parse_one_take cmd [] (length (encode_array cmd) - 1) Hne Hn Hsm) as [Hok _].
  rewrite app_nil_r in Hok. specialize (Hok ltac:(lia)). unfold process_buffer_impl at 1.
  set (E := encode_array cmd) in *. set (b := take (length E - 1) E) in *.
  assert (length b = (length E - 1)%nat) as Hb by (unfold b; rewrite length_take; lia).
  rewrite Hp. cbn [process_buffer_loop].
  rewrite Hok. cbn [mbind outcome_bind pc_args pc_consumed]. rewrite Hg.
  unfold copy_command. rewrite Hb, (proj2 (Nat.leb_gt _ _)), (proj2 (Nat.eqb_eq _ _)) by lia.
  cbn [mbind outcome_bind]. rewrite int64_of_ret by (unfold in_int64, INT64_MIN, zlen in *; lia).
  cbn [mbind outcome_bind]. rewrite drop_ge, process_buffer_nil by lia. cbn [mbind outcome_bind]. eexists. split; [done|]. split; [done|].
  intros rest. by apply (bad_start_stalls LF rest).
Qed.

Lemma split_line_end_stalls_witness :
  let E := encode_array [bs "SET"; bs "k"; bs "1"] in
  exists r', process_buffer_impl (demo_connector (take (length E - 1) E))
      = Ret (mkProcessedBuffer [] [take (length E - 1) E ++ [chr 0]], r')
    /\ pending_buffer_ r' = []
    /\ process_buffer_impl (set_pending_buffer (LF :: E) r')
       = Ret (mkProcessedBuffer [] [], set_pending_buffer (LF :: E) r').
Proof.
  intros E.
  destruct (split_line_end_stalls [bs "SET"; bs "k"; bs "1"] (demo_connector (take (length E - 1) E)))
    as (r' & H & Hp & Hr); try done; [by repeat constructor|].
  exists r'. split; [exact H|]. split; [exact Hp|]. apply Hr.
Defined.
