(* ===== verification/EventLoop.v ===== *)
(** * The listener and the event loop (server/server.cpp, event_loop/event_loop.cpp)

    The results of the system calls are arguments.  What [epoll] watches is a set of
    descriptors; the loop itself is a recursion on what the calls of [epoll_wait]
    return, with the three callbacks of [run] as parameters. *)

From S2P Require Import Prelude Text.

(** ** The listener *)
Inductive listener_error := NoSocket | NoReuse | NoBind (port : Z) | NoListen.

(** What the calls return; [bind] is given the port. *)
Record listen_calls := mkListenCalls { socket_fd : Z; setsockopt_ret : Z; bind_ret : Z -> Z; listen_ret : Z }.

(** [htons(static_cast<uint16_t>(port))]: the port that is bound. *)
Definition bound_port (port : Z) : Z := port mod 2 ^ 16.

(** The listening descriptor or the error, and the descriptors that were closed. *)
Definition create (port : Z) (k : listen_calls) : (listener_error + Z) * list Z :=
  if socket_fd k <? 0 then (inl NoSocket, [])
  else if setsockopt_ret k <? 0 then (inl NoReuse, [socket_fd k])
  else if negb (bind_ret k (bound_port port) =? 0) then (inl (NoBind port), [socket_fd k])
  else if negb (listen_ret k =? 0) then (inl NoListen, [socket_fd k])
  else (inr (socket_fd k), []).

Definition accept_connection (fd : Z) : option Z := if fd <? 0 then None else Some fd.

(** ** The event loop *)

(** [epoll_ctl] refuses a descriptor it already has, and one it does not. *)
Definition add_fd (fd : Z) (watched : gset Z) : gset Z := {[ fd ]} ∪ watched.
Definition remove_fd (fd : Z) (watched : gset Z) : gset Z := watched ∖ {[ fd ]}.

(** [static_cast<int>]. *)
Definition s32 (z : Z) : Z := (z + 2 ^ 31) mod 2 ^ 32 - 2 ^ 31.
Definition wait_argument (timeout_ms : Z) : Z := if timeout_ms <? 0 then -1 else s32 timeout_ms.

Inductive epoll_result {I} :=
| Interrupted
| WaitFailed
| Ready (fds : list (Z * I)).
Arguments epoll_result : clear implicits.

(** One turn: whether [running_] still holds at its start, what the calls of
    [get_timeout] and [on_flush] see of the outside, and what [epoll_wait] returns. *)
Record turn (T I F : Type) := mkTurn { running : bool; timeout_in : T; polled : epoll_result I; flush_in : F }.
Arguments mkTurn {T I F}.
Arguments running {T I F}.
Arguments timeout_in {T I F}.
Arguments polled {T I F}.
Arguments flush_in {T I F}.

Section run.
  Context {S T I F : Type}.
  Context (on_event : Z -> I -> S -> outcome S) (get_timeout : T -> S -> outcome (Z * S)) (on_flush : F -> S -> S).

Fixpoint on_events (events : list (Z * I)) (s : S) : outcome S :=
  match events with
  | [] => Ret s
  | (fd, i) :: events => s ← on_event fd i s; on_events events s
  end.

(** The state when the loop ends or the turns do, and the arguments of [epoll_wait]. *)
Fixpoint run (turns : list (turn T I F)) (s : S) : outcome (S * list Z) :=
  match turns with
  | [] => Ret (s, [])
  | t :: turns =>
      if running t then
        '(timeout_ms, s) ← get_timeout (timeout_in t) s;
        let timeout := wait_argument timeout_ms in
        match polled t with
        | Interrupted => '(s, ts) ← run turns s; Ret (s, timeout :: ts)
        | WaitFailed => Ret (s, [timeout])
        | Ready events =>
            s ← on_events events s;
            '(s, ts) ← run turns (on_flush (flush_in t) s); Ret (s, timeout :: ts)
        end
      else Ret (s, [])
  end.

(** ** What holds along a run

    The outside is asked for something ([fine]) at each event, in the state the server
    has reached by then. *)
Context (fine : S -> Z -> I -> Prop).

Fixpoint fine_events (events : list (Z * I)) (s : S) : Prop :=
  match events with
  | [] => True
  | (fd, i) :: events =>
      fine s fd i /\ match on_event fd i s with Ret s => fine_events events s | _ => True end
  end.

Fixpoint fine_run (turns : list (turn T I F)) (s : S) : Prop :=
  match turns with
  | [] => True
  | t :: turns =>
      if running t then
        match get_timeout (timeout_in t) s with
        | Ret (_, s) =>
            match polled t with
            | Interrupted => fine_run turns s
            | WaitFailed => True
            | Ready events =>
                fine_events events s
                /\ match on_events events s with
                   | Ret s => fine_run turns (on_flush (flush_in t) s)
                   | _ => True
                   end
            end
        | _ => True
        end
      else True
  end.

#[export] Instance fine_events_dec `{forall s fd i, Decision (fine s fd i)} events s :
  Decision (fine_events events s).
Proof.
  revert s. induction events as [|[fd i] events IH]; intros s; cbn [fine_events]; [apply _|].
  apply and_dec; [apply _|]. destruct (on_event fd i s); apply _.
Defined.

#[export] Instance fine_run_dec `{forall s fd i, Decision (fine s fd i)} turns s : Decision (fine_run turns s).
Proof.
  revert s. induction turns as [|t turns IH]; intros s; cbn [fine_run]; [apply _|].
  destruct (running t); [|apply _]. destruct (get_timeout (timeout_in t) s) as [[ms s1]| |]; [|apply _..].
  destruct (polled t) as [| |events]; [apply _..|]. apply and_dec; [apply _|].
  destruct (on_events events s1); apply _.
Defined.

Context (J : S -> Prop).
Hypothesis event_keeps : forall fd i s s', J s -> fine s fd i -> on_event fd i s = Ret s' -> J s'.
Hypothesis timeout_keeps : forall t s ms s', J s -> get_timeout t s = Ret (ms, s') -> J s'.
Hypothesis flush_keeps : forall f s, J s -> J (on_flush f s).

Lemma on_events_keep events : forall s s', J s -> fine_events events s -> on_events events s = Ret s' -> J s'.
Proof.
  induction events as [|[fd i] events IH]; intros s s' HJ Hf H; cbn [on_events fine_events] in *; [by simplify_eq|].
  destruct Hf as [Hf Hfs]. destruct (on_event fd i s) as [s1| |] eqn:E; [|done..]. eauto.
Qed.

Lemma run_keeps turns : forall s s' ts, J s -> fine_run turns s -> run turns s = Ret (s', ts) -> J s'.
Proof.
  induction turns as [|t turns IH]; intros s s' ts HJ Hf H; cbn [run fine_run] in *; [by simplify_eq|].
  destruct (running t); [|by simplify_eq].
  destruct (get_timeout (timeout_in t) s) as [[ms s1]| |] eqn:Et; [|done..]. cbn [mbind outcome_bind] in H.
  apply timeout_keeps in Et; [|done].
  destruct (polled t) as [| |events]; [|by simplify_eq/=|].
  - destruct (run turns s1) as [[s2 ts2]| |] eqn:Er; [|done..]. simplify_eq/=. eauto.
  - destruct Hf as [Hfe Hf]. destruct (on_events events s1) as [s2| |] eqn:Ee; [|done..]. cbn [mbind outcome_bind] in H.
    apply on_events_keep in Ee; [|done..].
    destruct (run turns _) as [[s3 ts3]| |] eqn:Er; [|done..]. simplify_eq/=. eauto.
Qed.

End run.

(** A condition that does not depend on the state may be checked beforehand. *)
Lemma fine_run_and {S T I F} on_event get_timeout on_flush (A : S -> Z -> I -> Prop) (B : Z -> I -> Prop)
    (turns : list (turn T I F)) : forall s,
  fine_run on_event get_timeout on_flush A turns s ->
  Forall (fun t => match polled t with Ready events => Forall (fun x => B x.1 x.2) events | _ => True end) turns ->
  fine_run on_event get_timeout on_flush (fun s fd i => B fd i /\ A s fd i) turns s.
Proof.
  assert (He : forall events s, fine_events on_event A events s -> Forall (fun x => B x.1 x.2) events ->
    fine_events on_event (fun s fd i => B fd i /\ A s fd i) events s).
  { induction events as [|[fd i] events IH]; intros s Hf Hb; cbn [fine_events] in *; [done|].
    apply Forall_cons in Hb as [Hb Hbs]. destruct Hf as [Hf Hfs]. split; [done|].
    destruct (on_event fd i s); [by apply IH|done..]. }
  induction turns as [|t turns IH]; intros s Hf Hb; cbn [fine_run] in *; [done|].
  apply Forall_cons in Hb as [Hb Hbs]. destruct (running t); [|done].
  destruct (get_timeout (timeout_in t) s) as [[ms s1]| |]; [|done..].
  destruct (polled t) as [| |events]; [by apply IH|done|]. destruct Hf as [Hfe Hf]. split; [by apply He|].
  destruct (on_events on_event events s1); [by apply IH|done..].
Qed.

(** ** Signals

    SIGINT and SIGTERM run [handle_signal], which clears the flag [running_] of the
    process; [stop] clears it too.  Nothing sets it again. *)
Definition handle_signal (sig : Z) (running_ : bool) : bool := false.
Definition stop (running_ : bool) : bool := false.

(** The turns of a run during which signals arrive: those of each pair are delivered
    before its turn reads the flag. *)
Fixpoint with_signals {T I F} (running_ : bool) (turns : list (list Z * turn T I F)) : list (turn T I F) :=
  match turns with
  | [] => []
  | (sigs, t) :: turns =>
      let running_ := fold_left (fun r sig => handle_signal sig r) sigs running_ in
      mkTurn running_ (timeout_in t) (polled t) (flush_in t) :: with_signals running_ turns
  end.

(** The run with only the two callbacks. *)
Definition run_without_flush {S T I} on_event get_timeout (turns : list (turn T I ())) (s : S) : outcome (S * list Z) :=
  run on_event get_timeout (fun _ s => s) turns s.

(** The first signal is the end: the loop runs exactly the turns before it. *)
Lemma signal_ends_run {S T I F} on_event get_timeout on_flush (before after : list (list Z * turn T I F))
    (sigs : list Z) (t : turn T I F) (running_ : bool) :
  sigs <> [] -> forall s : S,
  run on_event get_timeout on_flush (with_signals running_ (before ++ (sigs, t) :: after)) s
  = run on_event get_timeout on_flush (with_signals running_ before) s.
Proof.
  intros Hs. assert (Hf : forall r, fold_left (fun r sig => handle_signal sig r) sigs r = false).
  { destruct sigs as [|x l]; [done|]. intros r. cbn. clear. induction l; done. }
  revert running_. induction before as [|[sigs0 t0] before IH]; intros r s; cbn [app with_signals].
  - cbn [run running]. by rewrite Hf.
  - cbn [run running polled timeout_in flush_in].
    destruct (fold_left _ sigs0 r); [|done]. destruct (get_timeout _ s) as [[ms s1]| |]; [|done..]. cbn [mbind outcome_bind].
    destruct (polled t0) as [| |events]; [by rewrite IH|done|].
    destruct (on_events _ events s1) as [s2| |]; [|done..]. cbn [mbind outcome_bind]. by rewrite IH.
Qed.
