(* ===== verification/Descriptors.v ===== *)
(** * Descriptor ownership (the special members of the classes that hold a descriptor)

    [TcpListener], [EventLoop], [Connection] and [ReplicaConnector] each own a
    descriptor: the destructor closes it, a move hands it over and leaves -1 behind, a
    move assignment closes what it replaces.  [Owner] is that discipline as an
    interface; the four classes are its instances.  The world is the process: its
    objects by place, the descriptors the kernel has open, and the calls of [close] on
    a descriptor that was not open.  A step constructs, connects, moves, assigns or
    destroys one object. *)

From S2P Require Import Prelude Text StreamIds RespCodec Scores SortedSets Store BlockingManager PubSub.
From S2P Require Import Connection Sha256 Acl Doubles Aof Context ServerCommands ReplicaConnector EventLoop.

(** ** The special members

    A move returns the new object and what is left of the old one; a destructor and an
    assignment return the descriptors they close. *)
Definition closed_if_open (fd : Z) : list Z := if 0 <=? fd then [fd] else [].

Record TcpListener := mkTcpListener { server_fd_ : Z }.

Definition destroy_listener (l : TcpListener) : list Z := closed_if_open (server_fd_ l).
Definition move_listener (other : TcpListener) : TcpListener * TcpListener :=
  (mkTcpListener (server_fd_ other), mkTcpListener (-1)).
Definition assign_listener (this other : TcpListener) : TcpListener * TcpListener * list Z :=
  (mkTcpListener (server_fd_ other), mkTcpListener (-1), closed_if_open (server_fd_ this)).

Record EventLoop := mkEventLoop { epoll_fd_ : Z; max_events_ : Z }.

Definition kDefaultMaxEvents : Z := 1024.

(** [epoll_fd] is what [epoll_create1] returns; a failure is only reported. *)
Definition new_event_loop (epoll_fd max_events : Z) : EventLoop := mkEventLoop epoll_fd max_events.
Definition destroy_loop (l : EventLoop) : list Z := closed_if_open (epoll_fd_ l).
Definition move_loop (other : EventLoop) : EventLoop * EventLoop :=
  (mkEventLoop (epoll_fd_ other) (max_events_ other), mkEventLoop (-1) (max_events_ other)).
Definition assign_loop (this other : EventLoop) : EventLoop * EventLoop * list Z :=
  (mkEventLoop (epoll_fd_ other) (max_events_ this), mkEventLoop (-1) (max_events_ other),
   closed_if_open (epoll_fd_ this)).

Definition close_connection (c : Connection) : Connection * list Z :=
  if 0 <=? fd_ c
  then (mkConnection (-1) (buffer_ c) (read_pos_ c) (data_len_ c) (pending_write_ c) (authenticated_ c)
          (dirty_ c) (tx_ c), [fd_ c])
  else (c, []).

(** A vector that was moved from is empty. *)
Definition left_connection (c : Connection) : Connection :=
  mkConnection (-1) [] (read_pos_ c) (data_len_ c) (pending_write_ c) (authenticated_ c) (dirty_ c) (tx_ c).

Definition destroy_connection (c : Connection) : list Z := (close_connection c).2.
Definition move_connection (other : Connection) : Connection * Connection :=
  (mkConnection (fd_ other) (buffer_ other) (read_pos_ other) (data_len_ other) [] false false None,
   left_connection other).
Definition assign_connection (this other : Connection) : Connection * Connection * list Z :=
  let (this, closed) := close_connection this in
  (mkConnection (fd_ other) (buffer_ other) (read_pos_ other) (data_len_ other) (pending_write_ this)
     (authenticated_ this) (dirty_ this) (tx_ this),
   left_connection other, closed).

(** A string that was moved from holds something the language leaves open: [left]. *)
Section connector.
  Variable left : bytes -> bytes.

Definition left_connector (r : ReplicaConnector) : ReplicaConnector :=
  mkReplicaConnector (left (host_ r)) (port_ r) (-1) (left (pending_buffer_ r)) (offset_ r).
Definition destroy_connector (r : ReplicaConnector) : list Z := closed_if_open (rc_fd_ r).
Definition move_connector (other : ReplicaConnector) : ReplicaConnector * ReplicaConnector :=
  (mkReplicaConnector (host_ other) (port_ other) (rc_fd_ other) (pending_buffer_ other) (offset_ other),
   left_connector other).
Definition assign_connector (this other : ReplicaConnector) : ReplicaConnector * ReplicaConnector * list Z :=
  (mkReplicaConnector (host_ other) (port_ other) (rc_fd_ other) (pending_buffer_ other) (offset_ other),
   left_connector other, closed_if_open (rc_fd_ this)).
End connector.

(** ** The discipline *)
Class Owner (T : Type) := {
  owned_fd : T -> Z;
  destroy : T -> list Z;
  move : T -> T * T;
  move_assign : T -> T -> T * T * list Z;
  owner_destroy x : destroy x = closed_if_open (owned_fd x);
  owner_move x : owned_fd (move x).1 = owned_fd x /\ owned_fd (move x).2 = -1;
  owner_assign x y :
    owned_fd (move_assign x y).1.1 = owned_fd y /\ owned_fd (move_assign x y).1.2 = -1
    /\ (move_assign x y).2 = closed_if_open (owned_fd x)
}.

Ltac owner :=
  intros; cbn;
  unfold destroy_listener, destroy_loop, destroy_connection, destroy_connector, assign_connection,
    close_connection, closed_if_open;
  repeat case_match; simplify_eq/=; split_and?; done.

#[export] Instance listener_owner : Owner TcpListener.
Proof.
  refine {| owned_fd := server_fd_; destroy := destroy_listener; move := move_listener;
            move_assign := assign_listener |}; owner.
Defined.

#[export] Instance loop_owner : Owner EventLoop.
Proof.
  refine {| owned_fd := epoll_fd_; destroy := destroy_loop; move := move_loop; move_assign := assign_loop |}; owner.
Defined.

#[export] Instance connection_owner : Owner Connection.
Proof.
  refine {| owned_fd := fd_; destroy := destroy_connection; move := move_connection;
            move_assign := assign_connection |}; owner.
Defined.

#[export] Instance connector_owner (left : bytes -> bytes) : Owner ReplicaConnector.
Proof.
  refine {| owned_fd := rc_fd_; destroy := destroy_connector; move := move_connector left;
            move_assign := assign_connector left |}; owner.
Defined.

(** ** The objects of the process *)
Inductive object :=
| AListener (l : TcpListener)
| ALoop (l : EventLoop)
| AConnection (c : Connection)
| AConnector (r : ReplicaConnector).

Definition object_fd (o : object) : Z :=
  match o with
  | AListener l => owned_fd l
  | ALoop l => owned_fd l
  | AConnection c => owned_fd c
  | AConnector r => rc_fd_ r
  end.

Section process.
  Variable left : bytes -> bytes.

Definition destroy_object (o : object) : list Z :=
  match o with
  | AListener l => destroy l
  | ALoop l => destroy l
  | AConnection c => destroy c
  | AConnector r => destroy (Owner := connector_owner left) r
  end.

Definition move_object (o : object) : object * object :=
  match o with
  | AListener l => prod_map AListener AListener (move l)
  | ALoop l => prod_map ALoop ALoop (move l)
  | AConnection c => prod_map AConnection AConnection (move c)
  | AConnector r => prod_map AConnector AConnector (move (Owner := connector_owner left) r)
  end.

(** Assignment is typed: both sides are of one class. *)
Definition assign_object (this other : object) : option (object * object * list Z) :=
  match this, other with
  | AListener x, AListener y => Some (prod_map (prod_map AListener AListener) id (move_assign x y))
  | ALoop x, ALoop y => Some (prod_map (prod_map ALoop ALoop) id (move_assign x y))
  | AConnection x, AConnection y => Some (prod_map (prod_map AConnection AConnection) id (move_assign x y))
  | AConnector x, AConnector y =>
      Some (prod_map (prod_map AConnector AConnector) id (move_assign (Owner := connector_owner left) x y))
  | _, _ => None
  end.

Lemma destroy_object_closes o : destroy_object o = closed_if_open (object_fd o).
Proof.
  destruct o as [l|l|c|r]; [apply (owner_destroy l)|apply (owner_destroy l)|apply (owner_destroy c)|].
  apply (owner_destroy (Owner := connector_owner left) r).
Qed.

Lemma move_object_hands_over o :
  object_fd (move_object o).1 = object_fd o /\ object_fd (move_object o).2 = -1.
Proof.
  destruct o as [l|l|c|r]; [apply (owner_move l)|apply (owner_move l)|apply (owner_move c)|].
  apply (owner_move (Owner := connector_owner left) r).
Qed.

Lemma assign_object_hands_over x y x' y' closed :
  assign_object x y = Some (x', y', closed) ->
  object_fd x' = object_fd y /\ object_fd y' = -1 /\ closed = closed_if_open (object_fd x).
Proof.
  destruct x as [a|a|a|a], y as [b|b|b|b]; cbn [assign_object]; intros [= <- <- <-];
    [exact (owner_assign a b)|exact (owner_assign a b)|exact (owner_assign a b)|].
  exact (owner_assign (Owner := connector_owner left) a b).
Qed.

(** ** The world

    An object lives in a variable of the program or in the connection pool, where it
    is found by the descriptor it was added with. *)
Inductive place := Var (n : nat) | Pooled (fd : Z).

#[global] Instance place_eq_dec : EqDecision place.
Proof. solve_decision. Defined.
#[global] Instance place_countable : Countable place.
Proof.
  refine (inj_countable' (fun p => match p with Var n => inl n | Pooled fd => inr fd end)
            (fun s => match s with inl n => Var n | inr fd => Pooled fd end) _).
  by intros [].
Defined.

Record world := mkWorld { objects : gmap place object; open_fds : gset Z; bad_closes : list Z }.

Definition start : world := mkWorld ∅ ∅ [].

(** [::close]. *)
Definition sys_close (fd : Z) (w : world) : world :=
  if decide (fd ∈ open_fds w) then mkWorld (objects w) (open_fds w ∖ {[ fd ]}) (bad_closes w)
  else mkWorld (objects w) (open_fds w) (bad_closes w ++ [fd]).

Definition close_all (fds : list Z) (w : world) : world := fold_left (flip sys_close) fds w.

(** A call of [socket], [accept] or [epoll_create1] that succeeded. *)
Definition sys_open (fd : Z) (w : world) : world := mkWorld (objects w) ({[ fd ]} ∪ open_fds w) (bad_closes w).
Definition sys_opened (fd : Z) (w : world) : world := if 0 <=? fd then sys_open fd w else w.

Definition put (p : place) (o : object) (w : world) : world :=
  mkWorld (<[p := o]> (objects w)) (open_fds w) (bad_closes w).
Definition forget (p : place) (w : world) : world := mkWorld (delete p (objects w)) (open_fds w) (bad_closes w).

(** [TcpListener::create] on what the calls return. *)
Definition create_listener (n : nat) (port : Z) (k : listen_calls) (w : world) : world :=
  let (result, closed) := create port k in
  let w := close_all closed (sys_opened (socket_fd k) w) in
  match result with
  | inl _ => w
  | inr fd => put (Var n) (AListener (mkTcpListener fd)) w
  end.

(** [send_and_check] and the others connect when there is no descriptor; [attempt] is
    the descriptor [::socket] gave to a connect that failed.  [connect_to_master] itself
    does not look whether there is one, but nothing else in the program calls it. *)
Definition opened_by (s : socket) (attempt : Z) : Z :=
  match connects s with
  | AddressUnknown => -1
  | SocketFailed fd => fd
  | ConnectFailed => attempt
  | ConnectedOn fd => fd
  end.
Definition connect_object (n : nat) (r : ReplicaConnector) (s : socket) (attempt : Z) (w : world) : world :=
  let w :=
    if rc_fd_ r <? 0 then
      let w := sys_opened (opened_by s attempt) w in
      match connects s with ConnectFailed => sys_close attempt w | _ => w end
    else w in
  put (Var n) (AConnector (ensure_connected s r).2) w.

(** [connections_[fd] = std::make_unique<Connection>(fd)]: the connection that was there
    is destroyed once the new one is in place. *)
Definition pool_put (fd : Z) (w : world) : world :=
  let old := objects w !! Pooled fd in
  let w := put (Pooled fd) (AConnection (new_connection fd)) w in
  match old with Some o => close_all (destroy_object o) w | None => w end.

Definition destroy_at (p : place) (w : world) : world :=
  match objects w !! p with
  | Some o => close_all (destroy_object o) (forget p w)
  | None => w
  end.

(** A move assignment; every one of them does nothing when [this == &other]. *)
Definition assign_at (n m : nat) (w : world) : option world :=
  this ← objects w !! Var n;
  other ← objects w !! Var m;
  if bool_decide (n = m) then Some w
  else '(this', other', closed) ← assign_object this other;
       Some (put (Var n) this' (put (Var m) other' (close_all closed w))).

(** The kernel hands out a descriptor that is not open, or a negative number. *)
Definition unused (fd : Z) (w : world) : Prop := fd < 0 \/ fd ∉ open_fds w.

(** What the calls of a connect return: a number that fits what they report. *)
Definition answer_of (s : socket) (attempt : Z) : Prop :=
  match connects s with
  | AddressUnknown => True
  | SocketFailed fd => fd < 0
  | ConnectFailed => 0 <= attempt
  | ConnectedOn fd => 0 <= fd
  end.

Inductive step : world -> world -> Prop :=
| step_listen n port k w :
    objects w !! Var n = None -> unused (socket_fd k) w -> step w (create_listener n port k w)
| step_loop n fd max_events w :
    objects w !! Var n = None -> unused fd w ->
    step w (put (Var n) (ALoop (new_event_loop fd max_events)) (sys_opened fd w))
| step_connector n host port w :
    objects w !! Var n = None -> step w (put (Var n) (AConnector (new_connector host port)) w)
| step_connect n r s attempt w :
    objects w !! Var n = Some (AConnector r) -> unused (opened_by s attempt) w -> answer_of s attempt ->
    step w (connect_object n r s attempt w)
| step_accept fd w :
    0 <= fd -> unused fd w -> step w (pool_put fd (sys_open fd w))
| step_connection n fd w :
    objects w !! Var n = None -> 0 <= fd -> unused fd w ->
    step w (put (Var n) (AConnection (new_connection fd)) (sys_open fd w))
| step_pool_remove fd w : step w (destroy_at (Pooled fd) w)
| step_move n m o w :
    objects w !! Var n = Some o -> objects w !! Var m = None ->
    step w (put (Var m) (move_object o).1 (put (Var n) (move_object o).2 w))
| step_assign n m w w' : assign_at n m w = Some w' -> step w w'
| step_destroy n w : step w (destroy_at (Var n) w).

(** ** Every open descriptor has one owner *)
Definition holds (w : world) (fd : Z) (p : place) : Prop :=
  0 <= fd /\ object_fd <$> objects w !! p = Some fd.

Record owned (w : world) : Prop := {
  ow_clean : bad_closes w = [];
  ow_open fd : fd ∈ open_fds w <-> exists p, holds w fd p;
  ow_unique fd p q : holds w fd p -> holds w fd q -> p = q;
  ow_pooled fd o : objects w !! Pooled fd = Some o -> object_fd o = fd
}.

(** A place with no descriptor to lose. *)
Definition idle (p : place) (w : world) : Prop := forall fd, ~ holds w fd p.

Lemma idle_none p w : objects w !! p = None -> idle p w.
Proof. intros E fd [_ H]. by rewrite E in H. Qed.

Lemma idle_negative p o w : objects w !! p = Some o -> object_fd o < 0 -> idle p w.
Proof. intros E Ho fd [H1 H2]. rewrite E in H2. simplify_eq/=. lia. Qed.

Lemma holds_put p o w fd q :
  holds (put p o w) fd q <-> (q = p /\ 0 <= fd /\ object_fd o = fd) \/ (q <> p /\ holds w fd q).
Proof.
  unfold holds, put; cbn. destruct (decide (q = p)) as [->|Hne].
  - rewrite lookup_insert_eq; cbn. naive_solver.
  - rewrite lookup_insert_ne by done. naive_solver.
Qed.

Lemma holds_forget p w fd q : holds (forget p w) fd q <-> q <> p /\ holds w fd q.
Proof.
  unfold holds, forget; cbn. destruct (decide (q = p)) as [->|Hne].
  - rewrite lookup_delete_eq; cbn. naive_solver.
  - rewrite lookup_delete_ne by done. naive_solver.
Qed.

Lemma holds_open fd' w fd q : holds (sys_opened fd' w) fd q <-> holds w fd q.
Proof. unfold sys_opened. by destruct (0 <=? fd'). Qed.

(** Only a connection under its own number is put in the pool. *)
Definition placed (p : place) (o : object) : Prop :=
  match p with Var _ => True | Pooled fd => object_fd o = fd end.

Lemma pooled_put p o w :
  (forall fd o, objects w !! Pooled fd = Some o -> object_fd o = fd) -> placed p o ->
  forall fd o', objects (put p o w) !! Pooled fd = Some o' -> object_fd o' = fd.
Proof.
  intros Hw Hp fd o'. cbn. destruct (decide (p = Pooled fd)) as [->|Hne].
  - rewrite lookup_insert_eq. intros [= <-]. done.
  - rewrite lookup_insert_ne by done. apply Hw.
Qed.

(** An object that takes the descriptor just opened, or none. *)
Lemma owned_put p o fd w :
  owned w -> idle p w -> unused fd w -> (object_fd o = fd \/ (object_fd o < 0 /\ fd < 0)) -> placed p o ->
  owned (put p o (sys_opened fd w)).
Proof.
  intros [Hc Ho Hu Hp] Hi Hf Hfd Hpl.
  assert (Hnot : 0 <= fd -> forall q, ~ holds w fd q).
  { intros H0 q Hq. destruct Hf as [?|Hf]; [lia|]. apply Hf, Ho. by exists q. }
  assert (Hopen : open_fds (put p o (sys_opened fd w)) = if 0 <=? fd then {[ fd ]} ∪ open_fds w else open_fds w).
  { unfold sys_opened, sys_open. by destruct (0 <=? fd). }
  split.
  - unfold sys_opened, sys_open. by destruct (0 <=? fd).
  - intros fd'. rewrite Hopen. setoid_rewrite holds_put. setoid_rewrite holds_open.
    transitivity ((0 <= fd /\ fd' = fd) \/ fd' ∈ open_fds w).
    { destruct (0 <=? fd) eqn:E; b2p; set_solver by lia. }
    rewrite Ho. split.
    + intros [[H0 ->]|[q Hq]].
      * exists p. left. naive_solver lia.
      * exists q. right. split; [|done]. intros ->. by apply (Hi fd').
    + intros [q [(-> & H0 & <-)|[_ Hq]]]; [left; naive_solver lia|right; by exists q].
  - intros fd' q q'. rewrite !holds_put, !holds_open.
    intros [(-> & H0 & <-)|[_ Hq]] [(-> & H0' & ?)|[_ Hq']]; try done.
    + destruct Hfd as [Hfd|]; [|lia]. rewrite Hfd in *. by destruct (Hnot H0 q').
    + subst fd'. destruct Hfd as [Hfd|]; [|lia]. rewrite Hfd in *. by destruct (Hnot H0' q).
    + by apply (Hu fd').
  - apply pooled_put; [|done]. unfold sys_opened. by destruct (0 <=? fd).
Qed.

Lemma owned_put_closed p o w :
  owned w -> idle p w -> object_fd o < 0 -> placed p o -> owned (put p o w).
Proof. intros Hw Hi Ho Hp. apply (owned_put p o (-1)); try done; unfold unused; lia. Qed.

(** Closing the descriptor of an object that goes away. *)
Lemma owned_release p o w :
  owned w -> objects w !! p = Some o -> owned (close_all (closed_if_open (object_fd o)) (forget p w)).
Proof.
  intros [Hc Ho Hu Hp] E. unfold closed_if_open.
  assert (Hpool : forall fd o', delete p (objects w) !! Pooled fd = Some o' -> object_fd o' = fd).
  { intros fd o' [_ ?]%lookup_delete_Some. by apply Hp. }
  assert (Hfst : forall q fd, holds w fd q -> q <> p -> fd <> object_fd o).
  { intros q fd Hq Hne ->. apply Hne. apply (Hu (object_fd o)); [done|]. destruct Hq. unfold holds. by rewrite E. }
  destruct (0 <=? object_fd o) eqn:E0; b2p.
  - assert (Hin : object_fd o ∈ open_fds w). { apply Ho. exists p. unfold holds. by rewrite E. }
    cbn. unfold sys_close. rewrite decide_True by done. split; cbn; [done| |intros fd q q'|done].
    + intros fd. rewrite elem_of_difference, elem_of_singleton, Ho.
      change (holds (mkWorld _ _ _)) with (holds (forget p w)). setoid_rewrite holds_forget. split.
      * intros [[q Hq] Hne]. exists q. split; [|done]. intros ->. destruct Hq as [_ Hq].
        rewrite E in Hq. by simplify_eq/=.
      * intros [q [Hne Hq]]. eauto.
    + change (holds (mkWorld _ _ _)) with (holds (forget p w)). rewrite !holds_forget. naive_solver.
  - cbn. split; cbn; [done| |intros fd q q'|done].
    + intros fd. rewrite Ho. setoid_rewrite holds_forget. split.
      * intros [q Hq]. exists q. split; [|done]. intros ->. by apply (idle_negative p o w E ltac:(lia) fd).
      * naive_solver.
    + rewrite !holds_forget. naive_solver.
Qed.

(** An object that takes over the descriptor of another. *)
Lemma owned_transfer n m o o1 o2 w :
  owned w -> n <> m -> objects w !! Var n = Some o -> idle (Var m) w -> object_fd o1 = object_fd o ->
  object_fd o2 = -1 -> owned (put (Var m) o1 (put (Var n) o2 w)).
Proof.
  intros [Hc Ho Hu Hp] Hne E Hi H1 H2.
  assert (Hiff : forall fd q, holds (put (Var m) o1 (put (Var n) o2 w)) fd q
    <-> (q = Var m /\ holds w fd (Var n)) \/ (q <> Var m /\ q <> Var n /\ holds w fd q)).
  { intros fd q. rewrite !holds_put. unfold holds. rewrite E. cbn. rewrite H1, H2. naive_solver lia. }
  split.
  - done.
  - intros fd. cbn [open_fds put]. rewrite Ho. setoid_rewrite Hiff. split.
    + intros [q Hq]. destruct (decide (q = Var n)) as [->|]; [exists (Var m); by left|].
      exists q. right. split; [|done]. intros ->. by apply (Hi fd).
    + naive_solver.
  - intros fd q q'. rewrite !Hiff. intros [[-> H]|(? & ? & H)] [[-> H']|(? & ? & H')]; try done;
      pose proof (Hu fd _ _ H H'); naive_solver.
  - by do 2 (apply pooled_put; [|done]).
Qed.

Lemma close_opened fd w : 0 <= fd -> unused fd w -> sys_close fd (sys_opened fd w) = w.
Proof.
  intros H0 [?|Hf]; [lia|]. unfold sys_opened. replace (0 <=? fd) with true by (symmetry; b2p; lia).
  unfold sys_close, sys_open; cbn. rewrite decide_True by set_solver. destruct w as [os fds bad]; cbn in *.
  f_equal. set_solver.
Qed.

Lemma close_all_put fds p o w : close_all fds (put p o w) = put p o (close_all fds w).
Proof.
  revert w. induction fds as [|fd fds IH]; intros w; [done|]. cbn.
  rewrite <- IH. f_equal. unfold flip, sys_close; cbn. by case_decide.
Qed.

Lemma put_forget p o w : put p o (forget p w) = put p o w.
Proof. unfold put, forget; cbn. by rewrite insert_delete_eq. Qed.

Lemma sys_opened_open fd w : 0 <= fd -> sys_opened fd w = sys_open fd w.
Proof. intros H. unfold sys_opened. by replace (0 <=? fd) with true by (symmetry; b2p; lia). Qed.

(** ** Each step keeps it *)
Lemma owned_listen n port k w :
  owned w -> objects w !! Var n = None -> unused (socket_fd k) w -> owned (create_listener n port k w).
Proof.
  intros Hw E Hf. unfold create_listener, create.
  destruct (socket_fd k <? 0) eqn:E0; b2p.
  { cbn. unfold sys_opened. by replace (0 <=? socket_fd k) with false by (symmetry; b2p; lia). }
  repeat case_match; simplify_eq; cbn [close_all fold_left];
    try (unfold flip; rewrite close_opened by done; done).
  apply owned_put; [done|by apply idle_none|done|by left|done].
Qed.

Lemma owned_connect n r s attempt w :
  owned w -> objects w !! Var n = Some (AConnector r) -> unused (opened_by s attempt) w -> answer_of s attempt ->
  owned (connect_object n r s attempt w).
Proof.
  intros Hw E Hf Ha. unfold connect_object, ensure_connected.
  destruct (rc_fd_ r <? 0) eqn:E0; b2p; cbn [snd].
  2: { replace (put _ _ w) with w; [done|]. destruct w as [os fds bad]; unfold put; cbn in *.
       by rewrite insert_id. }
  assert (Hi : idle (Var n) w) by (by eapply idle_negative).
  unfold connect_to_master, opened_by, answer_of in *. destruct (connects s) as [|fd| |fd]; cbn [snd].
  - by apply owned_put_closed.
  - apply (owned_put (Var n) _ fd); [done..|by left|done].
  - rewrite close_opened by done. by apply owned_put_closed.
  - apply (owned_put (Var n) _ fd); [done..|by left|done].
Qed.

Lemma owned_accept fd w : owned w -> 0 <= fd -> unused fd w -> owned (pool_put fd (sys_open fd w)).
Proof.
  intros Hw H0 Hf. rewrite <- sys_opened_open by done.
  assert (E : objects w !! Pooled fd = None).
  { destruct (objects w !! Pooled fd) as [o|] eqn:E; [|done]. destruct Hf as [?|[]]; [lia|].
    apply (ow_open w Hw). exists (Pooled fd). split; [done|]. rewrite E. cbn. f_equal. by apply (ow_pooled w Hw). }
  unfold pool_put. replace (objects (sys_opened fd w)) with (objects w) by (unfold sys_opened; by destruct (0 <=? fd)).
  rewrite E. apply owned_put; [done|by apply idle_none|done|by left|done].
Qed.

Lemma owned_destroy p w : owned w -> owned (destroy_at p w).
Proof.
  intros Hw. unfold destroy_at. destruct (objects w !! p) as [o|] eqn:E; [|done].
  rewrite destroy_object_closes. by apply owned_release.
Qed.

Lemma owned_assign n m this other this' other' closed w :
  owned w -> n <> m -> objects w !! Var n = Some this -> objects w !! Var m = Some other ->
  assign_object this other = Some (this', other', closed) ->
  owned (put (Var n) this' (put (Var m) other' (close_all closed w))).
Proof.
  intros Hw Hne E1 E2 (H1 & H2 & ->)%assign_object_hands_over.
  pose proof (owned_release _ _ _ Hw E1) as Hrel.
  set (w' := close_all _ (forget (Var n) w)) in *.
  assert (Hobj : forall fds w, objects (close_all fds w) = objects w).
  { intros fds. induction fds as [|fd fds IH]; intros v; [done|]. cbn. rewrite IH. unfold flip, sys_close.
    by case_decide. }
  assert (Hsame : put (Var n) this' (put (Var m) other' (close_all (closed_if_open (object_fd this)) w))
    = put (Var n) this' (put (Var m) other' w')).
  { unfold w'. rewrite <- !close_all_put. f_equal. unfold put, forget; cbn. f_equal.
    rewrite !(insert_insert_ne _ (Var n) (Var m)) by congruence. by rewrite insert_delete_eq. }
  rewrite Hsame. apply (owned_transfer m n other); try done.
  - unfold w'. rewrite Hobj. cbn. by rewrite lookup_delete_ne by congruence.
  - apply idle_none. unfold w'. rewrite Hobj. cbn. apply lookup_delete_eq.
Qed.

Lemma owned_assign_at n m w w' : owned w -> assign_at n m w = Some w' -> owned w'.
Proof.
  intros Hw. unfold assign_at. destruct (objects w !! Var n) as [this|] eqn:E1; [|done].
  destruct (objects w !! Var m) as [other|] eqn:E2; [|done]. cbn [mbind option_bind].
  case_bool_decide; [by intros [= <-]|].
  destruct (assign_object this other) as [[[this' other'] closed]|] eqn:Ea; [|done]. intros [= <-].
  by eapply owned_assign.
Qed.

Lemma owned_step w w' : step w w' -> owned w -> owned w'.
Proof.
  intros Hs Hw. destruct Hs.
  - by apply owned_listen.
  - apply owned_put; [done|by apply idle_none|done|by left|done].
  - apply owned_put_closed; [done|by apply idle_none|done|done].
  - by apply owned_connect.
  - by apply owned_accept.
  - rewrite <- sys_opened_open by done. apply owned_put; [done|by apply idle_none|done|by left|done].
  - by apply owned_destroy.
  - destruct (move_object_hands_over o). apply (owned_transfer n m o); [done|congruence|done|by apply idle_none|done..].
  - by eapply owned_assign_at.
  - by apply owned_destroy.
Qed.

Lemma owned_start : owned start.
Proof.
  split; cbn; [done| |intros fd p q [_ H]; by cbn in H|intros fd o; by rewrite lookup_empty].
  intros fd. split; [set_solver|]. intros [p [_ H]]. by cbn in H.
Qed.

Definition reachable : world -> Prop := rtc step start.

Lemma owned_reachable w : reachable w -> owned w.
Proof.
  intros H. unfold reachable in H. revert w H. apply (rtc_ind_r _ start owned_start).
  intros w w' _ Hs Hw. by eapply owned_step.
Qed.

(** C12: In every run of the process, whatever the system calls answer and in whatever
    order listeners, event loops, connectors and connections are constructed, connected,
    moved, assigned and destroyed: no descriptor is closed that is not open, so none is
    closed twice; a descriptor is open exactly while one object holds it, and no two
    objects hold it; and when all objects are gone nothing is left open. *)
Theorem descriptors_closed_once (w : world) :
  reachable w ->
  bad_closes w = []
  /\ (forall fd, fd ∈ open_fds w <-> exists p, holds w fd p)
  /\ (forall fd p q, holds w fd p -> holds w fd q -> p = q)
  /\ (objects w = ∅ -> open_fds w = ∅).
Proof.
  intros [Hc Ho Hu _]%owned_reachable. split_and!; [done..|].
  intros He. apply set_eq. intros fd. rewrite Ho. split; [|set_solver].
  intros [p [_ Hp]]. by rewrite He, lookup_empty in Hp.
Qed.
End process.

(** A listener on descriptor 3, an event loop on 4, a client accepted on 5; the listener
    is moved, the loop assigned over a second one on 6, the client disconnects and its
    number is reused. *)
Definition demo_left (b : bytes) : bytes := b.
Definition demo_calls : listen_calls := mkListenCalls 3 0 (fun _ => 0) 0.
Definition demo_w1 : world := create_listener 0 6379 demo_calls start.
Definition demo_w2 : world := put (Var 1) (ALoop (new_event_loop 4 kDefaultMaxEvents)) (sys_opened 4 demo_w1).
Definition demo_w3 : world := pool_put demo_left 5 (sys_open 5 demo_w2).
Definition demo_listener : object := AListener (mkTcpListener 3).
Definition demo_w4 : world :=
  put (Var 2) (move_object demo_left demo_listener).1 (put (Var 0) (move_object demo_left demo_listener).2 demo_w3).
Definition demo_w5 : world := put (Var 3) (ALoop (new_event_loop 6 16)) (sys_opened 6 demo_w4).
Definition demo_w6 : world :=
  put (Var 3) (ALoop (mkEventLoop 4 16)) (put (Var 1) (ALoop (mkEventLoop (-1) 1024)) (close_all [6] demo_w5)).
Definition demo_w7 : world := destroy_at demo_left (Pooled 5) demo_w6.
Definition demo_w8 : world := pool_put demo_left 5 (sys_open 5 demo_w7).

Lemma demo_reachable : reachable demo_left demo_w8.
Proof.
  unfold reachable.
  apply (rtc_l _ _ demo_w1); [apply (step_listen demo_left 0 6379 demo_calls); [done|by right]|].
  apply (rtc_l _ _ demo_w2); [apply (step_loop demo_left 1 4 kDefaultMaxEvents); [by vm_compute|right; by apply (bool_decide_unpack _)]|].
  apply (rtc_l _ _ demo_w3); [apply (step_accept demo_left 5); [done|right; by apply (bool_decide_unpack _)]|].
  apply (rtc_l _ _ demo_w4); [apply (step_move demo_left 0 2 demo_listener); by vm_compute|].
  apply (rtc_l _ _ demo_w5); [apply (step_loop demo_left 3 6 16); [by vm_compute|right; by apply (bool_decide_unpack _)]|].
  apply (rtc_l _ _ demo_w6); [apply (step_assign demo_left 3 1); by vm_compute|].
  apply (rtc_l _ _ demo_w7); [apply (step_pool_remove demo_left 5)|].
  apply (rtc_l _ _ demo_w8); [apply (step_accept demo_left 5); [done|right; by apply (bool_decide_unpack _)]|].
  apply rtc_refl.
Qed.

Lemma descriptors_closed_once_witness :
  bad_closes demo_w8 = [] /\ open_fds demo_w8 = {[ 3; 4; 5 ]}.
Proof.
  split; [|by vm_compute]. exact (proj1 (descriptors_closed_once demo_left demo_w8 demo_reachable)).
Defined.
