(* ===== verification/EventDispatch.v ===== *)
(** * One event of the server (server/event_dispatch.cpp)

    [dispatch_event] decides what a ready descriptor is: the master of a replica, a
    replica, the listener or a client.  [compute_timeout] answers the clients whose time
    is up and says how long the server may sleep. *)

From S2P Require Import Prelude Text StreamIds RespCodec Scores SortedSets Store BlockingManager.
From S2P Require Import PubSub Connection Sha256 Acl ReplicaManager Doubles Aof Context.
From S2P Require Import ServerCommands CommandHandler ReplicaConnector EventLoop.

(** The connection pool and the managers of blocked clients, of subscriptions and of the
    log are the objects the handler's context refers to; they are kept there.  The
    socket is that of [replica_conn]. *)
Record EventContext := mkEventContext {
  listener : Z;
  loop : gset Z;
  ec_handler : CommandContext;
  replica_mgr : ReplicaManager;
  replica_conn : option ReplicaConnector;
  master_socket : socket
}.

(** What one event sees of the outside: the bytes the kernel has for the descriptor, what
    [accept] returns, the clocks of the [j]-th command of the [i]-th call of the handler,
    and the clock when a WAIT starts. *)
Record event_input := mkEventInput {
  available : bytes;
  accepted : Z;
  clock : nat -> nat -> env;
  wait_now : Z
}.

(** ** Field updates *)
Definition with_handler c ev :=
  mkEventContext (listener ev) (loop ev) c (replica_mgr ev) (replica_conn ev) (master_socket ev).
Definition with_replica_mgr rm ev :=
  mkEventContext (listener ev) (loop ev) (ec_handler ev) rm (replica_conn ev) (master_socket ev).
Definition with_replica_conn r s ev :=
  mkEventContext (listener ev) (loop ev) (ec_handler ev) (replica_mgr ev) r s.
Definition with_loop l ev :=
  mkEventContext (listener ev) l (ec_handler ev) (replica_mgr ev) (replica_conn ev) (master_socket ev).

Definition pool (ev : EventContext) : ConnectionPool := default empty_pool (conn_pool (ec_handler ev)).
Definition on_pool (f : ConnectionPool -> ConnectionPool) (ev : EventContext) : EventContext :=
  with_handler (with_pool (Some (f (pool ev))) (ec_handler ev)) ev.

(** [replica_count_fn] and [offset_fn], which read the replica manager. *)
Definition with_fns (rm : ReplicaManager) (c : CommandContext) : CommandContext :=
  mkCtx (ctx_store c) (config c) (aof_manager c) (files c) (conn_pool c) (blocking_manager c)
    (pubsub_manager c) (acl_manager c) (Some (count rm)) (Some (master_offset_ rm)) (transactions c)
    (authenticated_fds c) (out c).

(** [CommandHandler::remove_connection] has an empty body. *)
Definition remove_connection (fd : Z) (c : CommandContext) : CommandContext := c.

Definition getack : bytes := encode_array [bs "REPLCONF"; bs "GETACK"; bs "*"].

(** A message to every replica, in their order. *)
Definition send_to_replicas (msg : bytes) (ev : EventContext) : EventContext :=
  on_pool (fun p => fold_left (fun p r => send_to (r_fd r) msg p) (replicas_ (replica_mgr ev)) p) ev.

(** The loop over [propagate_cmds]. *)
Fixpoint propagate_all (cmds : list bytes) (ev : EventContext) : outcome EventContext :=
  match cmds with
  | [] => Ret ev
  | raw :: cmds =>
      rm ← propagate raw (replica_mgr ev);
      propagate_all cmds (send_to_replicas raw (with_replica_mgr rm ev))
  end.

Definition answer_wait (fd now numreplicas timeout_ms : Z) (ev : EventContext) : outcome EventContext :=
  let rm := replica_mgr ev in
  if (master_offset_ rm =? 0) || (numreplicas <=? count_acked_for (master_offset_ rm) rm)
  then Ret (on_pool (send_to fd (encode_integer (count rm))) ev)
  else rm ← start_wait now fd numreplicas timeout_ms rm;
       Ret (send_to_replicas getack (with_replica_mgr rm ev)).

(** What is left of a client that is gone. *)
Definition disconnect (fd : Z) (ev : EventContext) : outcome EventContext :=
  let ev := with_replica_mgr (remove_replica fd (replica_mgr ev)) ev in
  let c := ec_handler ev in
  bm ← match blocking_manager c with
       | Some bm => bm ← unblock_client fd bm; Ret (Some bm)
       | None => Ret None
       end;
  let c := with_pubsub (unsubscribe_all fd <$> pubsub_manager c) (with_blocking bm c) in
  let ev := on_pool (pool_remove fd) (with_handler (remove_connection fd c) ev) in
  Ret (with_loop (remove_fd fd (loop ev)) ev).

Section dispatch.
  Context (sin cos asin : double -> double).
  Notation process := (process sin cos asin).
  Notation process_with_fd := (process_with_fd sin cos asin).

(** ** The master's commands *)
Fixpoint process_each (i : nat) (clk : nat -> nat -> env) (cmds : list bytes) (c : CommandContext)
  : outcome CommandContext :=
  match cmds with
  | [] => Ret c
  | cmd :: cmds => '(_, c) ← process (clk i) cmd c; process_each (S i) clk cmds c
  end.

(** The destructor of a connector closes its descriptor, which [epoll] then drops. *)
Definition on_master (i : event_input) (r : ReplicaConnector) (ev : EventContext) : outcome EventContext :=
  '(result, s, r) ← process_propagated_commands (master_socket ev) r;
  match result with
  | None => Ret (with_loop (remove_fd (rc_fd_ r) (loop ev)) (with_replica_conn None s ev))
  | Some b =>
      c ← process_each 0 (clock i) (commands b) (with_fns (replica_mgr ev) (ec_handler ev));
      let s := if bool_decide (ack_responses b = []) then s else send_response (ack_responses b) s in
      Ret (with_replica_conn (Some r) s (with_handler c ev))
  end.

(** ** A replica's acknowledgements *)
Definition on_replica (fd : Z) (i : event_input) (ev : EventContext) : outcome EventContext :=
  '(p, data, _) ← read_from fd (available i) (pool ev);
  let ev := on_pool (fun _ => p) ev in
  match data with
  | None =>
      let ev := on_pool (pool_remove fd) (with_replica_mgr (remove_replica fd (replica_mgr ev)) ev) in
      Ret (with_loop (remove_fd fd (loop ev)) ev)
  | Some data =>
      '(rm, ack_result) ← process_ack fd data (replica_mgr ev);
      let ev := on_pool (pool_consume fd (ack_consumed ack_result)) (with_replica_mgr rm ev) in
      Ret (match ack_wait ack_result with
           | Some w => on_pool (send_to (wr_client_fd w) (encode_integer (wr_count w))) ev
           | None => ev
           end)
  end.

Definition on_listener (i : event_input) (ev : EventContext) : EventContext :=
  match accept_connection (accepted i) with
  | Some client => with_loop (add_fd client (loop ev)) (on_pool (pool_add client) ev)
  | None => ev
  end.

(** ** A client's commands *)
Definition on_client (fd : Z) (i : event_input) (ev : EventContext) : outcome EventContext :=
  '(p, data, _) ← read_from fd (available i) (pool ev);
  let ev := on_pool (fun _ => p) ev in
  match data with
  | None => disconnect fd ev
  | Some data =>
      '(result, c) ← process_with_fd (clock i 0) true fd data (with_fns (replica_mgr ev) (ec_handler ev));
      let ev := on_pool (pool_consume fd (consumed result)) (with_handler c ev) in
      ev ← match state result with
           | Wait numreplicas timeout_ms => answer_wait fd (wait_now i) numreplicas timeout_ms ev
           | ReplicaHandshake => Ret (with_replica_mgr (add_replica fd (replica_mgr ev)) ev)
           | Normal | Block => Ret ev
           end;
      propagate_all (propagate_cmds result) ev
  end.

Definition dispatch_event (fd : Z) (i : event_input) (ev : EventContext) : outcome EventContext :=
  match replica_conn ev with
  | Some r =>
      if fd =? rc_fd_ r then on_master i r ev
      else if contains fd (replica_mgr ev) then on_replica fd i ev
      else if fd =? listener ev then Ret (on_listener i ev)
      else on_client fd i ev
  | None =>
      if contains fd (replica_mgr ev) then on_replica fd i ev
      else if fd =? listener ev then Ret (on_listener i ev)
      else on_client fd i ev
  end.

End dispatch.

(** ** The timeout *)

(** What [compute_timeout] sees of the outside: the results of the sends of its two
    flushes, the clock at its three readings, and the child that rewrites the log. *)
Record timeout_input := mkTimeoutInput {
  sends_before : Z -> list Z;
  expired_now : Z;
  check_now : Z;
  rewrite_child : child_status;
  sends_after : Z -> list Z;
  deadline_now : Z
}.

Definition earliest_deadline (blocking_deadline wait_deadline : option Z) : option Z :=
  match wait_deadline with
  | Some w =>
      match blocking_deadline with
      | Some b => if w <? b then Some w else Some b
      | None => Some w
      end
  | None => blocking_deadline
  end.

(** The time left, in whole milliseconds. *)
Definition time_left (now : Z) (earliest : option Z) : outcome Z :=
  match earliest with
  | None => Ret (-1)
  | Some d => if d <=? now then Ret 0 else ns ← int64_of (d - now); Ret (ns ÷ 1000000)
  end.

Definition expire_blocked (now : Z) (ev : EventContext) : EventContext :=
  match blocking_manager (ec_handler ev) with
  | None => ev
  | Some bm =>
      let (bm, expired) := get_expired_clients now bm in
      on_pool (fun p => fold_left (fun p fd => send_to fd encode_null_array p) expired p)
        (with_handler (with_blocking (Some bm) (ec_handler ev)) ev)
  end.

Definition expire_wait (now : Z) (ev : EventContext) : EventContext :=
  let (rm, result) := check_wait_timeout now (replica_mgr ev) in
  let ev := with_replica_mgr rm ev in
  match result with
  | Some w => on_pool (send_to (wr_client_fd w) (encode_integer (wr_count w))) ev
  | None => ev
  end.

Definition finish_rewrite (status : child_status) (ev : EventContext) : EventContext :=
  let c := ec_handler ev in
  match aof_manager c with
  | None => ev
  | Some m => let '(m, f, _) := check_rewrite_complete status m (files c) in with_handler (with_aof (Some m) f c) ev
  end.

Definition flush_pool (sends : Z -> list Z) (ev : EventContext) : EventContext * list (Z * bytes) :=
  let (p, written) := flush_all sends (pool ev) in (on_pool (fun _ => p) ev, written).

(** The timeout, the state, and what the two flushes wrote. *)
Definition compute_timeout (t : timeout_input) (ev : EventContext)
  : outcome (Z * EventContext * (list (Z * bytes) * list (Z * bytes))) :=
  let (ev, written1) := flush_pool (sends_before t) ev in
  let ev := finish_rewrite (rewrite_child t) (expire_wait (check_now t) (expire_blocked (expired_now t) ev)) in
  let (ev, written2) := flush_pool (sends_after t) ev in
  let blocking_deadline := match blocking_manager (ec_handler ev) with
                           | Some bm => get_next_deadline bm
                           | None => None
                           end in
  ms ← time_left (deadline_now t) (earliest_deadline blocking_deadline (next_deadline (replica_mgr ev)));
  Ret (ms, ev, (written1, written2)).
