(* ===== verification/Main.v ===== *)
(** * The program (main.cpp)

    The start-up in its order: command line, log directory, listener, replay of the log,
    snapshot, handshake with a master, wiring; then the event loop. *)

From S2P Require Import Prelude Text StreamIds RespCodec Scores SortedSets Store BlockingManager.
From S2P Require Import PubSub Connection Sha256 Acl ReplicaManager Doubles Aof Context Cli Rdb.
From S2P Require Import ServerCommands CommandHandler ReplicaConnector EventLoop EventDispatch.

(** What the start-up sees of the outside. *)
Record start_input := mkStartInput {
  arguments : list bytes;
  current_path : bytes;
  urandom : nat -> option bytes;     (** what the [i]-th use of the random device gives *)
  disk : fs;
  listen_calls_of : listen_calls;
  replay_clock : nat -> env;
  rdb_clock : env;
  socket_of : socket;                (** the connection to a master *)
  buffered_clock : nat -> nat -> env
}.

Definition generate_replid (random : option bytes) (config : ServerConfig) : ServerConfig :=
  mkServerConfig (replica config) (random_hex 20 random) (dir config) (dbfilename config).

Definition server_config (i : start_input) : ServerConfig :=
  let args := arguments i in
  generate_replid (urandom i 0)
    (mkServerConfig (parse_replicaof args) []
       (if bool_decide (parse_dir args = []) then current_path i else parse_dir args) (parse_dbfilename args)).

(** The constructor of [CommandHandler] makes up a missing identifier. *)
Definition new_handler (st : Store) (config : ServerConfig) (random : option bytes) (f : fs) : CommandContext :=
  let config := if bool_decide (master_replid config = []) then generate_replid random config else config in
  with_aof None f (new_ctx st config).

Definition aof_of (i : start_input) : AofManager := apply_aof_overrides (arguments i) new_aof.

(** The disk once the log's files are there. *)
Definition prepared_disk (i : start_input) : fs :=
  let base := dir (server_config i) in
  let aof := aof_of i in
  ensure_manifest base aof (ensure_file base aof (disk i)).

(** Step 6: the handler gets the managers, the log, the replica manager and the pool. *)
Definition wire_up (base : bytes) (aof : AofManager) (c : CommandContext) : CommandContext :=
  let (aof, f) := open base aof (files c) in
  with_pool (Some empty_pool)
    (with_fns new_replicas
       (with_aof (Some aof) f (with_pubsub (Some empty_pubsub) (with_blocking (Some empty_blocking) c)))).

Section main.
  Context (sin cos asin : double -> double).
  Notation process := (process sin cos asin).
  Notation dispatch_event := (dispatch_event sin cos asin).
  Notation process_each := (process_each sin cos asin).

(** Steps 3 and 4: the keyspace from the log, then from the snapshot. *)
Definition restore (i : start_input) (config : ServerConfig) : outcome CommandContext :=
  let f := prepared_disk i in
  let c := new_handler empty_store config (urandom i 1) f in
  let content := read_aof_content (dir config) (aof_of i) f in
  c ← (if bool_decide (content = []) then Ret c else '(_, c) ← process (replay_clock i) content c; Ret c);
  st ← load_into_store (steady_now (rdb_clock i)) (sys_ms (rdb_clock i)) (dir config) (dbfilename config) f (ctx_store c);
  Ret (with_store st c).

(** Step 7: what the master sent behind the snapshot. *)
Definition catch_up (i : start_input) (r : ReplicaConnector) (s : socket) (c : CommandContext)
  : outcome (CommandContext * ReplicaConnector * socket) :=
  '(buffered, r) ← process_pending_buffer r;
  c ← process_each 0 (buffered_clock i) (commands buffered) c;
  Ret (c, r, if bool_decide (ack_responses buffered = []) then s else send_response (ack_responses buffered) s).

(** The exit code of a failed start, or the server that is ready to run. *)
Definition start_up (i : start_input) : outcome (Z + EventContext) :=
  let config := server_config i in
  let port := parse_port (arguments i) in
  match (create port (listen_calls_of i)).1 with
  | inl _ => Ret (inl 1)
  | inr lfd =>
      c ← restore i config;
      let (replica_conn, s) := connect_if_replica config port (socket_of i) in
      match replica_conn with
      | None =>
          if is_replica config then Ret (inl 1)
          else Ret (inr (mkEventContext lfd (add_fd lfd ∅) (wire_up (dir config) (aof_of i) c) new_replicas None s))
      | Some r =>
          let c := wire_up (dir config) (aof_of i) c in
          '(c, r, s) ← catch_up i r s c;
          Ret (inr (mkEventContext lfd (add_fd (rc_fd_ r) (add_fd lfd ∅)) c new_replicas (Some r) s))
      end
  end.

(** The three callbacks of the loop. *)
Definition get_timeout (t : timeout_input) (ev : EventContext) : outcome (Z * EventContext) :=
  '(ms, ev, _) ← compute_timeout t ev; Ret (ms, ev).
Definition on_flush (sends : Z -> list Z) (ev : EventContext) : EventContext := (flush_pool sends ev).1.

Definition serve_turns (turns : list (turn timeout_input event_input (Z -> list Z))) (ev : EventContext)
  : outcome (EventContext * list Z) :=
  run dispatch_event get_timeout on_flush turns ev.

(** [main]: the exit code, and the server as it was when the loop ended. *)
Definition main (i : start_input) (turns : list (turn timeout_input event_input (Z -> list Z)))
  : outcome (Z * option EventContext) :=
  started ← start_up i;
  match started with
  | inl code => Ret (code, None)
  | inr ev => '(ev, _) ← serve_turns turns ev; Ret (0, Some ev)
  end.

End main.
