(* ===== verification/AofReplay.v ===== *)
(** * The append-only file is replayed (main.cpp with aof, handler and store)

    The commands that a rewrite of the log leaves for a keyspace, run by a handler that
    starts empty, rebuild the keyspace: first one command of each kind, then the commands
    of one key, then all keys. *)

From S2P Require Import Prelude Text StreamIds RespCodec Scores SortedSets Store StoreSteps StoreSpec.
From S2P Require Import BlockingManager PubSub Connection Sha256 Acl ReplicaManager Doubles DoublesSpec Aof Context Rdb.
From S2P Require Import StringCommands ListCommands StreamCommands ZsetCommands ServerCommands CommandHandler HandlerSpec.
From S2P Require Import ReplicaConnector EventLoop Main.

(** ** Sorted sets are determined by their scores *)
Lemma zset_wf_ext z z' : zset_wf z -> zset_wf z' -> zscores z = zscores z' -> z = z'.
Proof.
  intros Hz Hz' He.
  assert (Hone : forall z z', zset_wf z -> zset_wf z' -> zscores z = zscores z' ->
    forall x, x ∈ entries z -> x ∈ entries z').
  { clear. intros z z' Hz Hz' He x Hx.
    assert (zscores z !! x.2 = Some x.1) as E.
    { unfold zscores. rewrite lookup_fmap, (proj2 (zwf_map z Hz x.2 x) (conj Hx eq_refl)). done. }
    rewrite He in E. unfold zscores in E. rewrite lookup_fmap in E.
    destruct (member_scores z' !! x.2) as [y|] eqn:Ey; [|done]. simpl in E.
    apply (zwf_map z' Hz') in Ey as [Hy Hm]. replace x with y; [done|]. destruct x, y; simpl in *; congruence. }
  assert (entries z = entries z') as Hes.
  { apply (StronglySorted_unique_strong elt_lt); [|apply Hz|apply Hz'|].
    - intros x y _ _ Hxy Hyx. exfalso. apply (elt_lt_irrefl x). by transitivity y.
    - apply NoDup_Permutation; [by apply zset_wf_NoDup..|]. intros x. split; by apply Hone. }
  assert (member_scores z = member_scores z') as Hms.
  { apply map_eq. intros m. apply option_eq. intros e. by rewrite (zwf_map z Hz), (zwf_map z' Hz'), Hes. }
  destruct z, z'; simpl in *. by subst.
Qed.

Definition zset_add_all (es : list zelem) (z : SortedSet) : SortedSet :=
  fold_left (fun z (x : zelem) => (zset_add x.1 x.2 z).1) es z.

Lemma zset_add_all_spec es : forall z, zset_wf z -> Forall (fun x => is_nan x.1 = false) es ->
  zset_wf (zset_add_all es z)
  /\ zscores (zset_add_all es z) = fold_left (fun m (x : zelem) => <[x.2 := x.1]> m) es (zscores z).
Proof.
  induction es as [|x es IH]; intros z Hz Hn; [done|]. apply Forall_cons in Hn as [Hx Hn]. simpl.
  destruct (zset_add_spec x.1 x.2 z Hx Hz) as (z' & -> & Hz' & Hs). simpl.
  destruct (IH z' Hz' Hn) as [H1 H2]. split; [done|]. by rewrite H2, Hs.
Qed.

Lemma fold_insert_lookup (es : list zelem) : forall (m : gmap bytes double) k,
  NoDup (snd <$> es) ->
  fold_left (fun m (x : zelem) => <[x.2 := x.1]> m) es m !! k
  = match list_find (fun x : zelem => x.2 = k) es with Some (_, x) => Some x.1 | None => m !! k end.
Proof.
  induction es as [|x es IH]; intros m k Hnd; [done|]. simpl in *. apply NoDup_cons in Hnd as [Hx Hnd].
  rewrite IH by done. destruct (decide (x.2 = k)) as [<-|Hne]; simpl.
  - rewrite (proj2 (list_find_None (fun y : zelem => y.2 = x.2) es)); [apply lookup_insert_eq|].
    apply Forall_forall. intros y Hy E. apply Hx. rewrite <- E. by apply list_elem_of_fmap_2.
  - destruct (list_find _ es) as [[j y]|]; simpl; [done|]. by rewrite lookup_insert_ne.
Qed.

(** Adding the elements of a sorted set to an empty one gives the set back. *)
Lemma zset_rebuild z : zset_wf z -> zset_add_all (entries z) empty_zset = z.
Proof.
  intros Hz. destruct (zset_add_all_spec (entries z) empty_zset empty_zset_wf (zwf_nonan z Hz)) as [H1 H2].
  apply zset_wf_ext; [done..|]. rewrite H2.
  assert (NoDup (snd <$> entries z)) as Hnd.
  { apply NoDup_fmap_2_strong; [|by apply zset_wf_NoDup]. intros x y Hx Hy. by apply (zset_wf_unique z). }
  apply map_eq. intros k. rewrite fold_insert_lookup by done. unfold zscores. rewrite !lookup_fmap.
  destruct (list_find _ _) as [[j x]|] eqn:E.
  - apply list_find_Some in E as (Hj & Hk & _). apply list_elem_of_lookup_2 in Hj.
    by rewrite (proj2 (zwf_map z Hz k x) (conj Hj Hk)).
  - apply list_find_None in E. destruct (member_scores z !! k) as [x|] eqn:Ex; [|done].
    apply (zwf_map z Hz) in Ex as [Hx Hk]. rewrite Forall_forall in E. by destruct (E x Hx).
Qed.

(** ** One command *)

(** A context as the log is replayed in: no client, nobody blocked. *)
Definition quiet (c : CommandContext) : Prop := plain_client (-1) c /\ blocking_manager c = None.

Lemma quiet_same c o st : quiet c -> quiet (with_out o (with_store st c)).
Proof. intros [H Hb]. split; [by eapply plain_client_same, H|done]. Qed.

(** What a command finds of a key without an expiry time, and of one that is not there. *)
Lemma typed_present (T : Type) `{Alternative T} now k st (x : T) :
  data_ st !! k = Some (mkEntry (alt_inj x) None) -> get_or_create_typed T now k st = (st, (x, None)).
Proof.
  intros Hk. unfold get_or_create_typed, find_valid_entry. rewrite Hk. cbn [is_expired expiry value]. by rewrite alt_get_inj.
Qed.

Lemma typed_absent (T : Type) `{Alternative T} now k st :
  data_ st !! k = None ->
  get_or_create_typed T now k st = (set_data <[k := mkEntry (alt_inj (alt_default (T := T))) None]> st, (alt_default, None)).
Proof. intros Hk. unfold get_or_create_typed, find_valid_entry. by rewrite Hk. Qed.

Section commands.
  Context (sin cos asin : double -> double).
  Notation execute_command := (execute_command sin cos asin).
  Notation run_commands := (run_commands sin cos asin).

(** In any quiet context with the keyspace [d], [args] only makes [k] hold [x]. *)
Definition writes (e : env) (args : list bytes) (d : gmap bytes Entry) (k : bytes) (x : Entry) : Prop :=
  forall c, quiet c -> data_ (ctx_store c) = d ->
  exists o st', execute_command false (-1) (to_upper (default [] (head args))) args e c
                = Ret (Normal, with_out o (with_store st' c))
    /\ data_ st' = <[k := x]> d.

Definition write_names : list bytes := [bs "SET"; bs "RPUSH"; bs "XADD"; bs "ZADD"].

Lemma run_commands_write env_at i args cmds total props c k x :
  quiet c -> default [] (head args) ∈ write_names -> writes (env_at i) args (data_ (ctx_store c)) k x ->
  exists total' props' c', quiet c' /\ data_ (ctx_store c') = <[k := x]> (data_ (ctx_store c))
    /\ run_commands env_at i false (-1) (args :: cmds) total props c
       = run_commands env_at (S i) false (-1) cmds total' props' c'.
Proof.
  intros Hq Hname Hw. destruct args as [|a0 args]; [exfalso; revert Hname; by apply (bool_decide_unpack _)|].
  cbn [HandlerSpec.run_commands]. unfold writes in Hw. cbn [head default from_option] in *.
  destruct (let_in_same (-1) c (proj1 Hq)) as (Hl & Hs & _).
  assert (Hb : blocking_manager (let_in (-1) c) = None) by (unfold let_in; case_decide; apply Hq).
  assert (Hup : to_upper (id a0) ∉ tx_commands /\ to_upper (id a0) <> bs "AUTH").
  { unfold write_names in Hname. rewrite !elem_of_cons, elem_of_nil in Hname.
    destruct Hname as [->|[->|[->|[->|[]]]]]; (split; [by apply (bool_decide_unpack _)|done]). }
  destruct (single_plain sin cos asin false (-1) a0 args (to_upper (id a0)) (env_at i) c (proj1 Hq) (proj1 Hup))
    as [->|?]; [|by destruct Hup].
  destruct (Hw (let_in (-1) c) (conj Hl Hb) ltac:(by rewrite Hs)) as (o & st' & -> & Hd). cbn [mbind outcome_bind].
  pose proof (log_write_keeps (to_upper (id a0)) (encode_array (a0 :: args)) (with_out o (with_store st' (let_in (-1) c))))
    as (H1 & _ & H3). cbv zeta in *.
  assert (Hlb : blocking_manager (if is_write_command (to_upper (id a0))
     then log_write (encode_array (a0 :: args)) (with_out o (with_store st' (let_in (-1) c)))
     else ([], with_out o (with_store st' (let_in (-1) c)))).2 = None).
  { destruct (is_write_command _); [|done]. unfold log_write. by destruct (aof_manager _). }
  destruct (if is_write_command _ then _ else _) as [np c2]. cbn [snd] in *.
  do 3 eexists. split; [|split; [rewrite H1; exact Hd|done]]. split; [|done]. apply H3.
  by apply (quiet_same _ o st').
Qed.

(** *** SET *)
Definition px (ttl : option Z) : list bytes := match ttl with Some ms => [bs "PX"; to_string ms] | None => [] end.

Lemma set_writes e k v ttl texp d :
  d !! k = None -> expiry_opt (steady_now e) ttl = Ret texp -> set_options (px ttl) None = inr ttl ->
  writes e ([bs "SET"; k; v] ++ px ttl) d k (mkEntry (VString v) texp).
Proof.
  intros Hk Ht Ho c Hq Hd. do 2 eexists. split.
  - unfold CommandHandler.execute_command.
    change (find_command sin cos asin (to_upper _)) with (Some (mkCommandEntry (plain handle_set) 3)).
    cbn [min_args CommandHandler.handler length Nat.ltb Nat.leb app]. unfold plain, handle_set. mstep.
    rewrite !skipn_cons, skipn_O, Ho. mstep. unfold on_store_o, set_if_valid_type. rewrite Hd, Hk, Ht.
    cbn [mbind outcome_bind]. reflexivity.
  - unfold map_emplace. simpl. by rewrite Hd, Hk.
Qed.

(** *** RPUSH *)
Lemma rpush_at now k v l st :
  data_ st !! k = Some (mkEntry (VList l) None) ->
  exists st' n, rpush now k v st = (st', n) /\ data_ st' = <[k := mkEntry (VList (l ++ [v])) None]> (data_ st).
Proof.
  intros Hk. unfold rpush, push. rewrite (typed_present (list bytes) now k (touch_key k st) l) by done. by do 2 eexists.
Qed.

Lemma push_loop_at k vs : forall l count e c,
  data_ (ctx_store c) !! k = Some (mkEntry (VList l) None) ->
  exists st' count', push_loop rpush_ops k vs count e c = Ret (count', with_store st' c)
    /\ data_ st' = <[k := mkEntry (VList (l ++ vs)) None]> (data_ (ctx_store c)).
Proof.
  induction vs as [|v vs IH]; intros l count e c Hk.
  - exists (ctx_store c), count. split; [by destruct c|]. rewrite app_nil_r. symmetry. by apply insert_id.
  - cbn [push_loop]. rewrite bind_eq. cbn [next_push rpush_ops].
    unfold on_store. destruct (rpush_at (steady_now e) k v l _ Hk) as (st1 & n & -> & Hd1). cbv beta iota.
    destruct (IH (l ++ [v]) n e (with_store st1 c)) as (st' & count' & -> & Hd).
    + simpl. rewrite Hd1. apply lookup_insert_eq.
    + exists st', count'. split; [done|]. rewrite Hd. simpl. by rewrite Hd1, insert_insert_eq, <- app_assoc.
Qed.

Lemma rpush_first now k v st :
  data_ st !! k = None ->
  exists st1, rpush_if_valid_type now k v st = (st1, Some 1)
    /\ data_ st1 = <[k := mkEntry (VList [v]) None]> (data_ st).
Proof.
  intros Hk. unfold rpush_if_valid_type, push_if_valid_type. rewrite Hk. eexists. split; [done|].
  unfold map_emplace. simpl. by rewrite Hk.
Qed.

Lemma rpush_writes e k v vs d :
  d !! k = None -> writes e (bs "RPUSH" :: k :: v :: vs) d k (mkEntry (VList (v :: vs)) None).
Proof.
  intros Hk c Hq <-. destruct (rpush_first (steady_now e) k v _ Hk) as (st1 & Hr & Hd1).
  destruct (push_loop_at k vs [v] 1 e (with_store st1 c)) as (st' & n & Hloop & Hd').
  { simpl. rewrite Hd1. apply lookup_insert_eq. }
  do 2 eexists. split.
  - unfold CommandHandler.execute_command.
    change (find_command sin cos asin (to_upper _))
      with (Some (mkCommandEntry (push_entry handle_rpush_with_blocking handle_rpush) 3)).
    cbn [min_args CommandHandler.handler length Nat.ltb Nat.leb]. unfold push_entry, handle_rpush, handle_push.
    mstep. cbn [first_push rpush_ops]. unfold on_store at 1. rewrite Hr. cbv beta iota. mstep.
    rewrite !skipn_cons, skipn_O, Hloop. mstep. reflexivity.
  - rewrite Hd'. simpl. by rewrite Hd1, insert_insert_eq.
Qed.

(** *** XADD *)
Definition id_char (c : ascii) : bool := is_digit c || bool_decide (c = "-"%char).

Lemma span_digits_split s : s = (span_digits s).1 ++ (span_digits s).2.
Proof.
  induction s as [|c s IH]; [done|]. simpl. destruct (is_digit c); [|done].
  destruct (span_digits s) as [ds r]. simpl in *. by rewrite <- IH.
Qed.

Lemma parse_int_chars lo hi s v : parse_int true lo hi s = Some v -> Forall (fun c => id_char c = true) s.
Proof.
  assert (Hd : forall s, (span_digits s).2 = [] -> Forall (fun c => id_char c = true) s).
  { intros s0 E. rewrite (span_digits_split s0), E, app_nil_r.
    eapply Forall_impl; [apply span_digits_Forall|]. unfold id_char. by intros c ->. }
  intros H. unfold parse_int, from_chars in H. destruct s as [|c s]; [constructor|].
  simpl andb in H. case_bool_decide as Hc.
  - subst. constructor; [done|]. specialize (Hd s). destruct (span_digits s) as [ds r]. apply Hd.
    repeat case_hyp H; by simplify_eq.
  - specialize (Hd (c :: s)). destruct (span_digits (c :: s)) as [ds r]. apply Hd.
    repeat case_hyp H; by simplify_eq.
Qed.

Lemma sid_parse_chars id sid : sid_parse id = Some sid -> Forall (fun c => id_char c = true) id.
Proof.
  unfold sid_parse. intros H. destruct (find_char "-"%char id) as [d|] eqn:Ed; [|done].
  destruct (parse_int64 (take d id)) eqn:E1; [|done]. destruct (parse_int64 (drop (S d) id)) eqn:E2; [|done].
  apply find_char_Some in Ed as [Hd _]. rewrite Hd.
  apply Forall_app. split; [by eapply parse_int_chars|]. constructor; [done|]. by eapply parse_int_chars.
Qed.

Lemma choose_explicit_id sys id sid s :
  sid_parse id = Some sid -> xadd_choose_id sys id s = Ret (inr (timestamp sid, sequence sid, id)).
Proof.
  intros H. pose proof (sid_parse_chars id sid H) as Hc. unfold xadd_choose_id.
  rewrite bool_decide_eq_false_2 by (intros ->; done). cbn [negb].
  rewrite (bool_decide_eq_false_2 (id !! (length id - 1)%nat = _)).
  - rewrite andb_false_r. by rewrite H.
  - intros E. apply list_elem_of_lookup_2 in E. rewrite Forall_forall in Hc. by specialize (Hc _ E).
Qed.

Lemma explicit_id_not_error id sid : sid_parse id = Some sid -> starts_with (bs "ERR") id = false.
Proof.
  intros H%sid_parse_chars. apply bool_decide_eq_false_2. intros E. destruct id as [|c id]; [done|].
  simpl in E. injection E as -> _. apply Forall_cons in H as [H _]. done.
Qed.

(** The list of a stream, when the key holds one or nothing. *)
Definition stream_of (d : gmap bytes Entry) (k : bytes) (s : list StreamEntry) : Prop :=
  d !! k = Some (mkEntry (VStream s) None) \/ (d !! k = None /\ s = []).

Lemma xadd_at now sys k se s st :
  stream_of (data_ st) k s -> sid_parse (se_id se) = Some (parsed_id se) -> parsed_id se <> mkStreamId 0 0 ->
  Forall (fun x => sid_lt (parsed_id x) (parsed_id se)) s ->
  exists st', xadd_if_valid_type now sys k (se_id se) (fields se) st = Ret (st', Some (se_id se))
    /\ data_ st' = <[k := mkEntry (VStream (s ++ [se])) None]> (data_ st).
Proof.
  intros Hk Hid Hz Hlt. unfold xadd_if_valid_type.
  assert (exists st1, get_or_create_typed (list StreamEntry) now k (touch_key k st) = (st1, (s, None))
    /\ forall v, data_ (put_value k v None st1) = <[k := mkEntry v None]> (data_ st)) as (st1 & Hg & Hd).
  { destruct Hk as [Hk|[Hk ->]].
    - eexists. split; [by apply (typed_present (list StreamEntry))|done].
    - rewrite (typed_absent (list StreamEntry)) by done. eexists. split; [done|]. intros v. simpl. by rewrite insert_insert_eq. }
  assert (Hx : xadd now sys k (se_id se) (fields se) st
    = Ret (put_value k (VStream (s ++ [se])) None st1, se_id se)).
  { unfold xadd. rewrite Hg, (choose_explicit_id _ _ (parsed_id se)) by done. cbn [mbind outcome_bind].
    destruct se as [id [ts seq] fs]. simpl in *.
    replace ((ts =? 0) && (seq =? 0)) with false
      by (symmetry; apply not_true_iff_false; intros E; b2p; by subst).
    destruct (last s) as [l|] eqn:El; [|done]. apply last_Some_elem_of in El. rewrite Forall_forall in Hlt.
    by rewrite (proj2 (sid_ltb_lt _ _) (Hlt l El)). }
  rewrite Hx. cbn [mbind outcome_bind].
  destruct Hk as [Hk|[Hk _]]; rewrite Hk; eexists; (split; [done|apply Hd]).
Qed.

Definition field_args (fs : list (bytes * bytes)) : list bytes :=
  mjoin ((fun fv : bytes * bytes => [fv.1; fv.2]) <$> fs).

Lemma pairs_of_args fs : pairs_of (field_args fs) = fs.
Proof. induction fs as [|[f v] fs IH]; [done|]. cbn. f_equal. exact IH. Qed.

Lemma length_field_args fs : length (field_args fs) = (2 * length fs)%nat.
Proof. induction fs as [|[f v] fs IH]; [done|]. change (length (field_args _)) with (S (S (length (field_args fs)))).
  rewrite IH. simpl. lia. Qed.

Lemma xadd_writes e k se s d :
  stream_of d k s -> sid_parse (se_id se) = Some (parsed_id se) -> parsed_id se <> mkStreamId 0 0 ->
  fields se <> [] -> Forall (fun x => sid_lt (parsed_id x) (parsed_id se)) s ->
  writes e (bs "XADD" :: k :: se_id se :: field_args (fields se)) d k (mkEntry (VStream (s ++ [se])) None).
Proof.
  intros Hk Hid Hz Hf Hlt c Hq Hd. rewrite <- Hd in Hk.
  destruct (xadd_at (steady_now e) (sys_ms e) k se s _ Hk Hid Hz Hlt) as (st' & Hx & Hd').
  do 2 eexists. split; [|rewrite Hd', Hd; reflexivity]. unfold CommandHandler.execute_command.
  change (find_command sin cos asin (to_upper _))
    with (Some (mkCommandEntry (fun has_send (_ : Z) => handle_xadd_with_blocking has_send) 4)).
  cbn [min_args CommandHandler.handler]. rewrite (proj2 (Nat.ltb_ge _ 4)).
  - unfold handle_xadd_with_blocking. mstep.
    replace (Nat.odd _) with false.
    + mstep. unfold on_store_o. rewrite !skipn_cons, skipn_O, pairs_of_args, Hx. mstep.
      rewrite (explicit_id_not_error _ (parsed_id se)) by done. mstep. unfold queue_length.
      cbn [blocking_manager with_store]. rewrite (proj2 Hq). cbn [wake_readers]. mstep.
      cbn [blocking_manager with_store]. rewrite (proj2 Hq). mstep. reflexivity.
    + symmetry. cbn [length]. rewrite length_field_args.
      replace (S (S (S (2 * length (fields se)))) - 3)%nat with (2 * length (fields se))%nat by lia.
      rewrite <- Nat.negb_even. by rewrite Nat.even_mul.
  - cbn [length]. rewrite length_field_args. destruct (fields se); simpl; [done|lia].
Qed.

(** *** ZADD *)

(** A value of the machine's type [double]. *)
Definition is_double (s : double) : Prop := valid_binary prec emax s = true.

Definition score_args (es : list zelem) : list bytes :=
  mjoin ((fun sm : zelem => [format_g17 sm.1; sm.2]) <$> es).

Lemma zadd_at now k s m z st :
  data_ st !! k = Some (mkEntry (VZset z) None) ->
  exists st' n, zadd now k s m st = (st', n)
    /\ data_ st' = <[k := mkEntry (VZset (zset_add s m z).1) None]> (data_ st).
Proof.
  intros Hk. unfold zadd. rewrite (typed_present SortedSet now k (touch_key k st) z) by done.
  destruct (zset_add s m z) as [z' r]. by do 2 eexists.
Qed.

Lemma zadd_first now k s m st :
  data_ st !! k = None ->
  exists st' n, zadd_if_valid_type now k s m st = (st', Some n)
    /\ data_ st' = <[k := mkEntry (VZset (zset_add s m empty_zset).1) None]> (data_ st).
Proof.
  intros Hk. unfold zadd_if_valid_type. rewrite Hk. destruct (zset_add s m empty_zset) as [z' r].
  do 2 eexists. split; [done|]. unfold map_emplace. simpl. by rewrite Hk.
Qed.

Lemma zadd_loop_at k es : forall z n e c,
  Forall (fun x => is_double x.1) es -> data_ (ctx_store c) !! k = Some (mkEntry (VZset z) None) ->
  exists st' n', zadd_loop k (score_args es) n e c = Ret (Some n', with_store st' c)
    /\ data_ st' = <[k := mkEntry (VZset (zset_add_all es z)) None]> (data_ (ctx_store c)).
Proof.
  induction es as [|x es IH]; intros z n e c He Hk.
  - exists (ctx_store c), n. split; [by destruct c|]. symmetry. by apply insert_id.
  - apply Forall_cons in He as [Hx He].
    change (score_args (x :: es)) with (format_g17 x.1 :: x.2 :: score_args es).
    cbn [zadd_loop]. rewrite (text_roundtrip _ Hx), bind_eq. unfold on_store.
    destruct (zadd_at (steady_now e) k x.1 x.2 z _ Hk) as (st1 & r & -> & Hd1). cbv beta iota.
    destruct (IH (zset_add x.1 x.2 z).1 (n + r) e (with_store st1 c) He) as (st' & n' & -> & Hd).
    + simpl. rewrite Hd1. apply lookup_insert_eq.
    + exists st', n'. split; [done|]. rewrite Hd. simpl. by rewrite Hd1, insert_insert_eq.
Qed.

Lemma zadd_writes e k es d :
  d !! k = None -> es <> [] -> Forall (fun x => is_double x.1) es ->
  writes e (bs "ZADD" :: k :: score_args es) d k (mkEntry (VZset (zset_add_all es empty_zset)) None).
Proof.
  intros Hk Hne He c Hq <-. destruct es as [|x es]; [done|]. apply Forall_cons in He as [Hx He].
  change (score_args (x :: es)) with (format_g17 x.1 :: x.2 :: score_args es).
  destruct (zadd_first (steady_now e) k x.1 x.2 _ Hk) as (st1 & n & Hr & Hd1).
  destruct (zadd_loop_at k es (zset_add x.1 x.2 empty_zset).1 n e (with_store st1 c) He) as (st' & n' & Hloop & Hd').
  { simpl. rewrite Hd1. apply lookup_insert_eq. }
  do 2 eexists. split.
  - unfold CommandHandler.execute_command.
    change (find_command sin cos asin (to_upper _)) with (Some (mkCommandEntry (plain handle_zadd) 4)).
    cbn [min_args CommandHandler.handler length Nat.ltb Nat.leb]. unfold plain, handle_zadd. mstep.
    rewrite (text_roundtrip _ Hx). mstep. unfold on_store at 1. rewrite Hr. cbv beta iota. mstep.
    rewrite !skipn_cons, skipn_O, Hloop. mstep. reflexivity.
  - rewrite Hd'. simpl. by rewrite Hd1, insert_insert_eq.
Qed.

(** ** One key *)

(** An entry whose commands the server can run again: at no moment of the replay does
    its expiry time overflow, its stream and its sorted set are well formed, and what the
    commands ask for is there (identifiers other than 0-0, fields). *)
Definition replayable (now : Z) (clk : nat -> env) (e : Entry) : Prop :=
  match value e with
  | VString _ => forall t i, expiry e = Some t -> now < t ->
      0 <= steady_now (clk i) /\ steady_now (clk i) + (t - now) <= INT64_MAX
  | VList _ => True
  | VStream s => stream_wf s /\ Forall (fun se => parsed_id se <> mkStreamId 0 0 /\ fields se <> []) s
  | VZset z => zset_wf z /\ Forall (fun x => is_double x.1) (entries z)
  end.

(** The same value; a string keeps the whole milliseconds that were left to it when the
    child read the clock at [now], from the moment it was replayed.  A string whose time
    ran out after the child had found it valid is written without one. *)
Definition restored (now : Z) (clk : nat -> env) (e e' : Entry) : Prop :=
  value e' = value e
  /\ match expiry e, value e with
     | Some t, VString _ =>
         if now <? t then exists i, expiry e' = Some (steady_now (clk i) + (t - now) / 1000000 * 1000000)
         else expiry e' = None
     | _, _ => expiry e' = None
     end.

(** An empty list, stream or sorted set leaves no command. *)
Definition leaves_commands (e : Entry) : bool :=
  match value e with
  | VString _ => true
  | VList l => negb (bool_decide (length l = 0%nat))
  | VStream s => negb (bool_decide (length s = 0%nat))
  | VZset z => negb (bool_decide (length (entries z) = 0%nat))
  end.

Section replay.
  Context (now : child_clock) (clk : nat -> env).
  Notation run i cmds total props c := (run_commands clk i false (-1) cmds total props c).

(** The commands [cmds] can be run first: they take the keyspace to one that [Q] holds of. *)
Definition runs (cmds : list (list bytes)) (d : gmap bytes Entry) (Q : gmap bytes Entry -> Prop) : Prop :=
  forall i rest total props c, quiet c -> data_ (ctx_store c) = d ->
  exists i' total' props' c', quiet c' /\ Q (data_ (ctx_store c'))
    /\ run i (cmds ++ rest) total props c = run i' rest total' props' c'.

Lemma runs_nil (d : gmap bytes Entry) (Q : gmap bytes Entry -> Prop) : Q d -> runs [] d Q.
Proof. intros HQ i rest total props c Hq Hd. exists i, total, props, c. split; [done|]. split; [congruence|done]. Qed.

Lemma runs_app (cmds cmds' : list (list bytes)) (d : gmap bytes Entry) (Q Q' : gmap bytes Entry -> Prop) :
  runs cmds d Q -> (forall d', Q d' -> runs cmds' d' Q') -> runs (cmds ++ cmds') d Q'.
Proof.
  intros H1 H2 i rest total props c Hq Hd. rewrite <- app_assoc.
  destruct (H1 i (cmds' ++ rest) total props c Hq Hd) as (i1 & t1 & p1 & c1 & Hq1 & HQ & ->).
  by apply (H2 _ HQ i1 rest t1 p1 c1 Hq1).
Qed.

Lemma runs_one args d k (P : Entry -> Prop) :
  default [] (head args) ∈ write_names -> (forall i, exists x, P x /\ writes (clk i) args d k x) ->
  runs [args] d (fun d' => exists x, P x /\ d' = <[k := x]> d).
Proof.
  intros Hn Hw i rest total props c Hq Hd. destruct (Hw i) as (x & Hx & Hwx). subst d.
  destruct (run_commands_write clk i args rest total props c k x Hq Hn Hwx) as (t1 & p1 & c1 & Hq1 & Hd1 & E).
  exists (S i), t1, p1, c1. split; [done|]. split; [by exists x|exact E].
Qed.

Lemma set_runs at_ k v exp d :
  d !! k = None -> replayable at_ clk (mkEntry (VString v) exp) ->
  runs [[bs "SET"; k; v] ++ px_args at_ exp] d
    (fun d' => exists x, restored at_ clk (mkEntry (VString v) exp) x /\ d' = <[k := x]> d).
Proof.
  intros Hk Hr. apply runs_one; [by apply (bool_decide_unpack _)|]. intros i. unfold restored. cbn [value expiry].
  destruct exp as [t|]; [|exists (mkEntry (VString v) None); split; [done|by apply (set_writes (clk i) k v None None d)]].
  cbn [px_args]. destruct (at_ <? t) eqn:Hlt;
    [|exists (mkEntry (VString v) None); split; [done|by apply (set_writes (clk i) k v None None d)]].
  b2p. destruct (Hr t i eq_refl Hlt) as [Hc Hmax].
  set (ms := (t - at_) / 1000000). assert (Hms : 0 <= ms * 1000000 <= t - at_).
  { unfold ms. pose proof (Z.div_pos (t - at_) 1000000). pose proof (Z.mul_div_le (t - at_) 1000000). lia. }
  exists (mkEntry (VString v) (Some (steady_now (clk i) + ms * 1000000))). split; [split; [done|by exists i]|].
  apply (set_writes (clk i) k v (Some ms)); [done| |].
  - unfold expiry_opt, expiry_after. rewrite s64_small by (unfold in_int64, INT64_MAX, INT64_MIN in *; lia).
    rewrite int64_of_ret by (unfold in_int64, INT64_MAX, INT64_MIN in *; lia). cbn [mbind outcome_bind].
    by rewrite int64_of_ret by (unfold in_int64, INT64_MAX, INT64_MIN in *; lia).
  - cbn [px set_options]. change (to_upper (bs "PX")) with (bs "PX").
    unfold parse_uint64. rewrite parse_uint_to_string by (unfold INT64_MAX, UINT64_MAX in *; lia). done.
Qed.

Definition xadd_command (k : bytes) (se : StreamEntry) : list bytes :=
  bs "XADD" :: k :: se_id se :: field_args (fields se).

Lemma stream_runs (k : bytes) (s2 : list StreamEntry) : forall (s1 : list StreamEntry) (d : gmap bytes Entry),
  stream_of d k s1 -> stream_wf (s1 ++ s2) ->
  Forall (fun se => parsed_id se <> mkStreamId 0 0 /\ fields se <> []) (s1 ++ s2) ->
  runs (xadd_command k <$> s2) d
    (fun d' => d' = if bool_decide (length s2 = 0%nat) then d else <[k := mkEntry (VStream (s1 ++ s2)) None]> d).
Proof.
  induction s2 as [|se s2 IH]; intros s1 d Hk Hwf Hs; [by apply runs_nil|].
  pose proof (proj1 (Forall_app _ _ _) Hs) as [_ [[Hz Hf] _]%Forall_cons].
  pose proof (proj1 (Forall_app _ _ _) (swf_ids _ Hwf)) as [_ [Hid _]%Forall_cons].
  assert (Hlt : Forall (fun x => sid_lt (parsed_id x) (parsed_id se)) s1).
  { apply Forall_forall. intros x [j Hj]%list_elem_of_lookup_1.
    apply (ids_sorted_lookup (s1 ++ se :: s2) j (length s1) x se); [apply Hwf|..].
    - by apply lookup_app_l_Some.
    - by rewrite list_lookup_middle.
    - by apply lookup_lt_Some in Hj. }
  cbn [fmap list_fmap]. change (xadd_command k se :: _) with ([xadd_command k se] ++ (xadd_command k <$> s2)).
  eapply runs_app.
  - apply (runs_one _ _ k (fun x => x = mkEntry (VStream (s1 ++ [se])) None)); [by apply (bool_decide_unpack _)|].
    intros i. eexists. split; [done|]. by apply xadd_writes.
  - intros d' (x & -> & ->). replace (s1 ++ se :: s2) with ((s1 ++ [se]) ++ s2) in * by (by rewrite <- app_assoc).
    intros i rest total props c Hq Hd.
    destruct (IH (s1 ++ [se]) _ (or_introl (lookup_insert_eq _ _ _)) Hwf Hs i rest total props c Hq Hd)
      as (i' & t' & p' & c' & Hq' & Hd' & E).
    exists i', t', p', c'. split; [done|]. split; [|exact E]. rewrite Hd'.
    rewrite (bool_decide_eq_false_2 (length (se :: s2) = 0%nat)) by done.
    case_bool_decide as El; [|apply insert_insert_eq]. apply length_zero_iff_nil in El as ->. by rewrite app_nil_r.
Qed.

(** What the replay of one key's commands leaves of the keyspace. *)
Definition rebuilt (k : bytes) (e : Entry) (d d' : gmap bytes Entry) : Prop :=
  if leaves_commands e then exists x, restored (left_at now k) clk e x /\ d' = <[k := x]> d else d' = d.

Lemma entry_runs (k : bytes) (e : Entry) (d : gmap bytes Entry) :
  d !! k = None -> replayable (left_at now k) clk e ->
  runs (entry_commands (left_at now k) k e) d (rebuilt k e d).
Proof.
  intros Hk Hr. destruct e as [v exp]. unfold entry_commands, rebuilt, leaves_commands. cbn [value].
  assert (Hnone : forall v, match v with VString _ => False | _ => True end ->
    restored (left_at now k) clk (mkEntry v exp) (mkEntry v None)).
  { intros w Hw. split; [done|]. simpl. destruct exp; [by destruct w|done]. }
  destruct v as [v|l|s|z].
  - by apply set_runs.
  - destruct l as [|x l]; [by apply runs_nil|]. rewrite bool_decide_eq_false_2 by done.
    apply runs_one; [by apply (bool_decide_unpack _)|]. intros i.
    exists (mkEntry (VList (x :: l)) None). split; [by apply Hnone|]. by apply rpush_writes.
  - destruct Hr as [Hwf Hs]. intros i rest total props c Hq Hd.
    destruct (stream_runs k s [] d (or_intror (conj Hk eq_refl)) Hwf Hs i rest total props c Hq Hd)
      as (i' & t' & p' & c' & Hq' & Hd' & E).
    exists i', t', p', c'. split; [done|]. split; [|exact E]. rewrite Hd'. case_bool_decide; [done|].
    exists (mkEntry (VStream s) None). split; [by apply Hnone|done].
  - destruct Hr as [Hwf Hs]. pose proof (zset_rebuild z Hwf) as Hz.
    destruct (entries z) as [|x es] eqn:Ee; [by apply runs_nil|]. rewrite bool_decide_eq_false_2 by done.
    apply runs_one; [by apply (bool_decide_unpack _)|]. intros i.
    exists (mkEntry (VZset z) None). split; [by apply Hnone|]. rewrite <- Hz. by apply zadd_writes.
Qed.

(** ** All keys *)
Lemma entries_run (l : list (bytes * Entry)) : forall (d : gmap bytes Entry),
  NoDup l.*1 -> Forall (fun ke => d !! ke.1 = None) l ->
  Forall (fun ke => replayable (left_at now ke.1) clk ke.2) l ->
  runs (mjoin ((fun ke : bytes * Entry => entry_commands (left_at now ke.1) ke.1 ke.2) <$> l)) d
    (fun d' => (forall k, k ∉ l.*1 -> d' !! k = d !! k)
       /\ Forall (fun ke => if leaves_commands ke.2 then exists x, restored (left_at now ke.1) clk ke.2 x /\ d' !! ke.1 = Some x
                            else d' !! ke.1 = None) l).
Proof.
  induction l as [|[k e] l IH]; intros d Hnd Hd Hr.
  { apply runs_nil. split; [done|constructor]. }
  cbn [fmap list_fmap fst] in Hnd. apply NoDup_cons in Hnd as [Hk Hnd]. apply Forall_cons in Hd as [Hdk Hd].
  apply Forall_cons in Hr as [Hrk Hr]. simpl in Hdk, Hrk. cbn [fmap list_fmap mjoin list_join fst snd].
  eapply runs_app; [by apply entry_runs|]. intros d1 Hd1.
  assert (Hother : forall k', k' <> k -> d1 !! k' = d !! k').
  { intros k' Hne. unfold rebuilt in Hd1. destruct (leaves_commands e); [|by subst].
    destruct Hd1 as (x & _ & ->). by rewrite lookup_insert_ne. }
  assert (Hk1 : if leaves_commands e then exists x, restored (left_at now k) clk e x /\ d1 !! k = Some x else d1 !! k = None).
  { unfold rebuilt in Hd1. destruct (leaves_commands e); [|by subst].
    destruct Hd1 as (x & Hx & ->). exists x. split; [done|apply lookup_insert_eq]. }
  intros i rest total props c Hq Hc. destruct (IH d1) with (i := i) (rest := rest) (total := total) (props := props) (c := c)
    as (i' & t' & p' & c' & Hq' & [Hout Hin] & E); [done| |done|done|done|].
  { apply Forall_forall. intros [k' e'] Hke. rewrite Forall_forall in Hd. specialize (Hd _ Hke). simpl in *.
    rewrite Hother; [done|]. intros ->. apply Hk. by apply (list_elem_of_fmap_2 fst l (k, e')). }
  exists i', t', p', c'. split; [done|]. split; [|exact E]. split.
  - intros k' Hk'. cbn [fmap list_fmap fst] in Hk'. apply not_elem_of_cons in Hk' as [Hne Hk']. rewrite Hout by done. by apply Hother.
  - constructor; [|done]. simpl. by rewrite Hout.
Qed.

Lemma valid_entries_live (st : Store) (k : bytes) (e : Entry) :
  (k, e) ∈ for_each_valid_entry (valid_at now) st <-> live (valid_at now k) k st = Some e.
Proof.
  unfold for_each_valid_entry, live, is_expired. rewrite list_elem_of_filter, elem_of_map_to_list. simpl.
  destruct (data_ st !! k) as [e'|]; [|split; [by intros [_ ?]|done]]. split.
  - intros [Hv [= ->]]. destruct (expiry e) as [t|]; [|done]. b2p. by rewrite (proj2 (Z.leb_gt _ _)) by lia.
  - destruct (expiry e') as [t|] eqn:Et; [destruct (t <=? valid_at now k) eqn:E; [done|]|];
      intros [= <-]; (split; [|done]); rewrite Et; [|done]. b2p. apply Z.ltb_lt. lia.
Qed.

(** Every key that was alive is there again, with its value; nothing else is. *)
Definition keyspace_restored (st : Store) (d : gmap bytes Entry) : Prop :=
  forall k, match live (valid_at now k) k st with
            | Some e => if leaves_commands e then exists x, restored (left_at now k) clk e x /\ d !! k = Some x else d !! k = None
            | None => d !! k = None
            end.

Lemma rewrite_runs (st : Store) :
  map_Forall (fun k e => replayable (left_at now k) clk e) (data_ st) ->
  runs (rewrite_commands now st) ∅ (keyspace_restored st).
Proof.
  intros Hr i rest total props c Hq Hc.
  assert (Hnd : NoDup (for_each_valid_entry (valid_at now) st).*1).
  { apply (sublist_NoDup _ (map_to_list (data_ st)).*1); [apply NoDup_fst_map_to_list|].
    apply fmap_sublist, sublist_filter. }
  destruct (entries_run (for_each_valid_entry (valid_at now) st) ∅ Hnd) with (i := i) (rest := rest) (total := total)
    (props := props) (c := c) as (i' & t' & p' & c' & Hq' & [Hout Hin] & E).
  - apply Forall_forall. intros x _. apply lookup_empty.
  - apply Forall_forall. intros [k e] Hke. apply valid_entries_live in Hke. simpl.
    unfold live in Hke. destruct (data_ st !! k) as [e'|] eqn:Ek; [|done].
    destruct (is_expired _ e'); simplify_eq. by apply (Hr k).
  - done.
  - done.
  - exists i', t', p', c'. split; [done|]. split; [|exact E]. intros k.
    destruct (live (valid_at now k) k st) as [e|] eqn:El.
    + apply valid_entries_live in El. rewrite Forall_forall in Hin. exact (Hin _ El).
    + rewrite Hout; [apply lookup_empty|]. intros ([k' e] & -> & Hke)%list_elem_of_fmap.
      apply valid_entries_live in Hke. simpl in El. congruence.
Qed.
End replay.
End commands.

(** ** The whole log *)

Lemma restored_at now clk st d k e :
  keyspace_restored now clk st d -> live (valid_at now k) k st = Some e -> leaves_commands e = true ->
  exists x, restored (left_at now k) clk e x /\ d !! k = Some x.
Proof. intros Hk Hl He. specialize (Hk k). rewrite Hl, He in Hk. exact Hk. Qed.

Lemma rewrite_commands_nonempty now st : Forall (fun args => args <> []) (rewrite_commands now st).
Proof.
  unfold rewrite_commands. apply Forall_join, Forall_fmap, Forall_forall. intros [k e] _. simpl.
  unfold entry_commands. destruct (value e) as [v|l|s|z].
  - by repeat constructor.
  - destruct l; by repeat constructor.
  - apply Forall_fmap, Forall_forall. intros se _. done.
  - destruct (entries z); by repeat constructor.
Qed.

Lemma process_log sin cos asin clk now st cmds c :
  quiet c -> data_ (ctx_store c) = ∅ -> map_Forall (fun k e => replayable (left_at now k) clk e) (data_ st) ->
  Forall sendable (rewrite_commands now st ++ cmds) -> Forall (fun args => args <> []) cmds ->
  exists j total props c1, quiet c1 /\ keyspace_restored now clk st (data_ (ctx_store c1))
    /\ process sin cos asin clk (encode_all (rewrite_commands now st ++ cmds)) c
       = ('(_, c') ← run_commands sin cos asin clk j false (-1) cmds total props c1;
          Ret (emitted (out c'), with_out (out c) c')).
Proof.
  intros Hq Hd Hr Hs Hne. unfold process, process_with_fd. set (input := encode_all _).
  destruct (rewrite_runs sin cos asin now clk st Hr 0%nat cmds 0 [] (with_out [] (with_out [] c)))
    as (j & total & props & c1 & Hq1 & Hk & E).
  { split; [by eapply plain_client_same, Hq|apply Hq]. }
  { exact Hd. }
  exists j, total, props, c1. split; [done|]. split; [done|].
  assert (Hloop : process_loop sin cos asin (length input) clk 0 false (-1) input 0 [] (with_out [] (with_out [] c))
    = run_commands sin cos asin clk 0 false (-1) (rewrite_commands now st ++ cmds) 0 [] (with_out [] (with_out [] c))).
  { rewrite <- (app_nil_r input) at 2. apply (process_loop_stream sin cos asin clk false (-1) _ [] Hs) with (pre := []).
    - apply Forall_app. split; [apply rewrite_commands_nonempty|done].
    - by left.
    - simpl. unfold input. lia. }
  cbn [mbind outcome_bind]. rewrite Hloop, E.
  by destruct (run_commands _ _ _ _ _ _ _ cmds _ _ _) as [[r c2]| |].
Qed.

Lemma create_if_missing_keeps path contents f p x : f !! p = Some x -> create_if_missing path contents f !! p = Some x.
Proof.
  intros H. unfold create_if_missing. destruct (f !! path) eqn:E; [done|]. by rewrite lookup_insert_ne by congruence.
Qed.

Lemma prepared_log base m seq contents f :
  log_is base m seq contents f -> log_is base m seq contents (ensure_manifest base m (ensure_file base m f)).
Proof.
  intros [H1 H2]. unfold ensure_manifest, ensure_file. destruct (enabled m); [|done].
  split; by do 2 apply create_if_missing_keeps.
Qed.

Lemma new_handler_quiet config random f :
  quiet (new_handler empty_store config random f) /\ out (new_handler empty_store config random f) = []
  /\ data_ (ctx_store (new_handler empty_store config random f)) = ∅.
Proof. split; [|done]. split; [by split|done]. Qed.

Lemma restore_log sin cos asin i seq now st cmds :
  enabled (aof_of i) = true -> 0 <= seq -> spaceless (appendfilename_ (aof_of i)) ->
  log_is (dir (server_config i)) (aof_of i) seq (encode_all (rewrite_commands now st ++ cmds)) (disk i) ->
  prepared_disk i !! path_join (dir (server_config i)) (dbfilename (server_config i)) = None ->
  map_Forall (fun k e => replayable (left_at now k) (replay_clock i) e) (data_ st) ->
  Forall sendable (rewrite_commands now st ++ cmds) -> Forall (fun args => args <> []) cmds ->
  exists j total props c1, quiet c1 /\ keyspace_restored now (replay_clock i) st (data_ (ctx_store c1))
    /\ restore sin cos asin i (server_config i)
       = ('(_, c) ← run_commands sin cos asin (replay_clock i) j false (-1) cmds total props c1; Ret (with_out [] c)).
Proof.
  intros He Hseq Hsp Hlog Hrdb Hr Hs Hne. unfold restore. set (config := server_config i) in *.
  set (f := prepared_disk i) in *. set (c0 := new_handler empty_store config (urandom i 1) f).
  destruct (new_handler_quiet config (urandom i 1) f) as (Hq & Ho & Hd). fold c0 in Hq, Ho, Hd.
  assert (Hread : read_aof_content (dir config) (aof_of i) f = encode_all (rewrite_commands now st ++ cmds)).
  { apply (read_log _ _ seq); [done..|]. by apply prepared_log. }
  rewrite Hread.
  destruct (process_log sin cos asin (replay_clock i) now st cmds c0 Hq Hd Hr Hs Hne)
    as (j & total & props & c1 & Hq1 & Hk & E).
  assert (Hload : forall c, load_into_store (steady_now (rdb_clock i)) (sys_ms (rdb_clock i)) (dir config) (dbfilename config)
    f (ctx_store c) = Ret (ctx_store c)).
  { intros c. unfold load_into_store, load_rdb_file. rewrite Hrdb. cbn [mbind outcome_bind].
    destruct (_ || _); [done|]. by rewrite map_to_list_empty. }
  assert (Hif : forall content, (if bool_decide (content = []) then Ret c0
      else '(_, c) ← process sin cos asin (replay_clock i) content c0; Ret c)
    = ('(_, c) ← process sin cos asin (replay_clock i) content c0; Ret c)).
  { intros content. case_bool_decide; [subst content|done]. reflexivity. }
  exists j, total, props, c1. split; [done|]. split; [done|]. rewrite Hif, E, Ho.
  destruct (run_commands _ _ _ _ _ _ _ cmds _ _ _) as [[r c2]| |]; cbn [mbind outcome_bind]; [|done..].
  rewrite Hload. cbn [mbind outcome_bind]. by destruct c2.
Qed.

(** * Properties *)

(** C17: a rewrite of the log followed by a restart gives the keyspace back.  Let the
    server rewrite its log at any moment and log any commands while the child works;
    then a server that starts on the files of the first one, with the same settings and
    no snapshot file, first rebuilds the keyspace as it was at the fork, every live
    string and every live list, stream and sorted set that is not empty with its value, a
    string with the whole milliseconds it had left when the child wrote it (with no expiry
    if they had run out since the child found it valid), and no other key: an empty list,
    stream or sorted set is gone.  Then it runs the logged commands, in their order.  The
    streams and sorted sets of the keyspace are well formed, with no NaN among the scores;
    no expiry time may overflow, and every command fits the parser's limits. *)
Theorem restart_rebuilds_keyspace (sin cos asin : double -> double) (i : start_input) (now : child_clock) (st : Store)
    (m : AofManager) (f : fs) (cmds : list (list bytes)) :
  let base := dir (server_config i) in
  enabled m = true -> rewrite_in_progress_ m = false -> 0 <= current_seq_ m ->
  spaceless (appendfilename_ m) -> "/"%char ∉ appendfilename_ m ->
  aof_fd_ m <> Some (base ++ slash ++ appenddirname_ m ++ slash ++ incr_name (current_seq_ m + 1) m) ->
  same_paths m (aof_of i) ->
  (let '(m1, f1, _) := start_rewrite true now st base m f in
   let '(m2, f2) := fold_left log_command (encode_array <$> cmds) (m1, f1) in
   let '(_, f3, _) := check_rewrite_complete ChildExited m2 f2 in disk i = f3) ->
  prepared_disk i !! path_join base (dbfilename (server_config i)) = None ->
  map_Forall (fun k e => replayable (left_at now k) (replay_clock i) e) (data_ st) ->
  Forall sendable (rewrite_commands now st ++ cmds) -> Forall (fun args => args <> []) cmds ->
  exists j total props c1, keyspace_restored now (replay_clock i) st (data_ (ctx_store c1))
    /\ restore sin cos asin i (server_config i)
       = ('(_, c) ← run_commands sin cos asin (replay_clock i) j false (-1) cmds total props c1; Ret (with_out [] c)).
Proof.
  intros base He Hp Hseq Hsp Hsl Hfd Hsame Hdisk Hrdb Hr Hs Hne.
  pose proof (rewrite_complete now st base m f (encode_array <$> cmds) He Hp Hseq Hsp Hsl Hfd) as H.
  destruct (start_rewrite _ _ _ _ _ _) as [[m1 f1] started]. destruct (fold_left _ _ _) as [m2 f2].
  destruct (check_rewrite_complete _ _ _) as [[m3 f3] fin]. destruct H as (_ & _ & _ & Hl & _). subst f3.
  pose proof Hsame as (P1 & P2 & P3).
  assert (Hrestore := restore_log sin cos asin i (current_seq_ m + 1) now st cmds).
  destruct Hrestore as (j & total & props & c1 & _ & H); try done; [..|by exists j, total, props, c1].
  - unfold enabled in *. by rewrite P1.
  - lia.
  - by rewrite P3.
  - apply (log_is_same _ m); [done|]. fold base.
    replace (encode_all (rewrite_commands now st ++ cmds)) with (encode_all (rewrite_commands now st) ++ mjoin (encode_array <$> cmds));
      [done|]. unfold encode_all. by rewrite fmap_app, join_app.
Qed.

(** A keyspace with a string that expires, a list, a stream and a sorted set. *)
Definition saved_entry : StreamEntry := mkStreamEntry (bs "5-1") (mkStreamId 5 1) [(bs "f", bs "v")].
Definition saved_zset : SortedSet := zset_add_all [(S754_finite false 7205759403792794 (-56), bs "m")] empty_zset.
Definition saved_store : Store :=
  mkStore (list_to_map [(bs "k", mkEntry (VString (bs "v")) (Some 9500000)); (bs "l", mkEntry (VList [bs "a"; bs "b"]) None);
                        (bs "x", mkEntry (VStream [saved_entry]) None); (bs "z", mkEntry (VZset saved_zset) None);
                        (bs "old", mkEntry (VString (bs "w")) (Some 1))]) 0 ∅.
Definition saved_disk : fs :=
  let '(m1, f1, _) := start_rewrite true (child_at 2000000) saved_store (bs "/d") aof_example ∅ in
  let '(_, f3, _) := check_rewrite_complete ChildExited m1 f1 in f3.
Definition restart_clock (_ : nat) : env := mkEnv 50000000 5 true (child_at 50000000).
Definition restart_input : start_input :=
  mkStartInput (bs <$> ["--dir"; "/d"; "--appendonly"; "yes"]%string) (bs "/") (fun _ => None) saved_disk
    (mkListenCalls 3 0 (fun _ => 0) 0) restart_clock (restart_clock 0) (mkSocket AddressUnknown [] [] [] [])
    (fun _ => restart_clock).

Lemma saved_zset_wf : zset_wf saved_zset.
Proof. apply zset_add_all_spec; [apply empty_zset_wf|by repeat constructor]. Qed.

Lemma saved_replayable : map_Forall (fun _ e => replayable 2000000 restart_clock e) (data_ saved_store).
Proof.
  unfold saved_store. cbn [data_ list_to_map]. repeat apply map_Forall_insert_2; [..|apply map_Forall_empty].
  - intros t i [= <-]. by vm_compute.
  - done.
  - split; [|by repeat constructor]. split; by repeat constructor.
  - split; [apply saved_zset_wf|]. by repeat constructor.
  - intros t i [= <-]. by vm_compute.
Qed.

Lemma restart_rebuilds_keyspace_witness :
  exists c, restore id id id restart_input (server_config restart_input) = Ret c
    /\ data_ (ctx_store c) !! bs "k" = Some (mkEntry (VString (bs "v")) (Some 57000000))
    /\ data_ (ctx_store c) !! bs "l" = Some (mkEntry (VList [bs "a"; bs "b"]) None)
    /\ data_ (ctx_store c) !! bs "x" = Some (mkEntry (VStream [saved_entry]) None)
    /\ data_ (ctx_store c) !! bs "z" = Some (mkEntry (VZset saved_zset) None)
    /\ data_ (ctx_store c) !! bs "old" = None.
Proof.
  destruct (restart_rebuilds_keyspace id id id restart_input (child_at 2000000) saved_store aof_example ∅ [])
    as (j & total & props & c & Hk & E).
  - reflexivity.
  - reflexivity.
  - done.
  - by repeat constructor.
  - apply (bool_decide_unpack _). vm_compute. exact I.
  - done.
  - by split_and!.
  - change (dir (server_config restart_input)) with (bs "/d"). cbn [disk restart_input]. unfold saved_disk.
    destruct (start_rewrite _ _ _ _ _ _) as [[m1 f1] started]. cbn [fmap list_fmap fold_left].
    by destruct (check_rewrite_complete _ _ _) as [[m3 f3] fin].
  - vm_compute. reflexivity.
  - apply saved_replayable.
  - apply (bool_decide_unpack _). vm_compute. exact I.
  - constructor.
  - exists (with_out [] c). split; [rewrite E; reflexivity|].
    cbn [ctx_store with_out].
    destruct (restored_at _ _ _ _ (bs "k") _ Hk eq_refl eq_refl) as ([vk ek] & [Hvk [i Hek]] & ->).
    destruct (restored_at _ _ _ _ (bs "l") _ Hk eq_refl eq_refl) as ([vl el] & [Hvl Hel] & ->).
    destruct (restored_at _ _ _ _ (bs "x") _ Hk eq_refl eq_refl) as ([vx ex] & [Hvx Hex] & ->).
    destruct (restored_at _ _ _ _ (bs "z") _ Hk eq_refl eq_refl) as ([vz ez] & [Hvz Hez] & ->).
    cbn [value expiry fst snd] in *. subst. split_and!; [reflexivity..|]. exact (Hk (bs "old")).
Defined.
