(* ===== verification/KeyspaceSpec.v ===== *)
(** * What the write commands do to the keyspace

    An abstract server: a map from keys to values, and for each command of
    [kWriteCommands] the reply and the new map.  It knows nothing of clocks, versions,
    connections and logs.  The handlers of handler/ over the store of store/ implement it
    on keyspaces where no key has an expiry time, while nobody is blocked; this is what
    makes a replayed log rebuild a keyspace (LogReplay). *)

From S2P Require Import Prelude Text StreamIds RespCodec Scores SortedSets Store StoreSteps StoreSpec.
From S2P Require Import BlockingManager PubSub Connection Sha256 Acl Doubles Aof Geo Context.
From S2P Require Import StringCommands ListCommands StreamCommands ZsetCommands GeoCommands.
From S2P Require Import PubsubCommands ServerCommands CommandHandler AofReplay.

(** ** The abstract server *)
Abbreviation keyspace := (gmap bytes Val).

(** The reply and the keyspace afterwards; or what the code runs into. *)
Definition answer : Type := outcome (bytes * keyspace).
Definition refused (msg : bytes) (d : keyspace) : answer := Ret (encode_error msg, d).

(** The value of type [T] under a key, an empty one when the key is absent; nothing when
    the key holds another type. *)
Definition at_key (T : Type) `{Alternative T} (k : bytes) (d : keyspace) : option T :=
  match d !! k with
  | Some v => alt_get_if v
  | None => Some alt_default
  end.

Definition set_spec (k v : bytes) (opts : list bytes) (d : keyspace) : answer :=
  match set_options opts None, at_key bytes k d with
  | inl err, _ => refused err d
  | inr _, Some _ => Ret (kRespOk, <[k := VString v]> d)
  | inr _, None => refused wrongtype d
  end.

Definition incr_spec (k : bytes) (d : keyspace) : answer :=
  match d !! k with
  | None => Ret (encode_integer 1, <[k := VString (bs "1")]> d)
  | Some (VString s) =>
      match parse_int64 s with
      | Some n => if n =? INT64_MAX then refused not_an_integer d
                  else Ret (encode_integer (n + 1), <[k := VString (to_string (n + 1))]> d)
      | None => refused not_an_integer d
      end
  | Some _ => refused not_an_integer d
  end.

Definition mset_spec (l : list bytes) (d : keyspace) : answer :=
  if Nat.odd (length l) then refused (bs "ERR wrong number of arguments for MSET") d
  else if forallb (fun kv : bytes * bytes => bool_decide (is_Some (at_key bytes kv.1 d))) (pairs_of l)
  then Ret (kRespOk, fold_left (fun d (kv : bytes * bytes) => <[kv.1 := VString kv.2]> d) (pairs_of l) d)
  else refused wrongtype d.

Definition push_spec (p : bytes -> list bytes -> list bytes) (k : bytes) (vs : list bytes) (d : keyspace) : answer :=
  match at_key (list bytes) k d with
  | Some l => let l' := fold_left (fun l v => p v l) vs l in Ret (encode_integer (zlen l'), <[k := VList l']> d)
  | None => refused wrongtype d
  end.

(** Taking [n] elements off one end: what is taken, in the order it is taken, and the rest. *)
Definition front (n : nat) (l : list bytes) : list bytes * list bytes := (take n l, drop n l).
Definition back (n : nat) (l : list bytes) : list bytes * list bytes :=
  (rev (drop (length l - n) l), take (length l - n) l).

Definition pop_spec (split : nat -> list bytes -> list bytes * list bytes) (k : bytes) (d : keyspace) : answer :=
  match d !! k with
  | Some (VList l) =>
      match split 1%nat l with
      | (x :: _, rest) => Ret (encode_bulk_string x, <[k := VList rest]> d)
      | ([], _) => Ret (encode_null_bulk_string, d)
      end
  | _ => Ret (encode_null_bulk_string, d)
  end.

Definition pop_count_spec (split : nat -> list bytes -> list bytes * list bytes) (k count : bytes) (d : keyspace)
  : answer :=
  match parse_int64 count with
  | None => refused not_an_integer d
  | Some n =>
      if n <=? 0 then Ret (encode_array [], d)
      else match d !! k with
           | Some (VList l) =>
               let (taken, rest) := split (Z.to_nat (Z.min n (zlen l))) l in
               Ret (encode_array taken, <[k := VList rest]> d)
           | _ => Ret (encode_array [], d)
           end
  end.

(** Also a refused identifier leaves a stream, if an empty one, under the key. *)
Definition xadd_spec (k id : bytes) (l : list bytes) (d : keyspace) : answer :=
  if Nat.odd (length l) then refused xadd_args d
  else match at_key (list StreamEntry) k d with
       | None => refused wrongtype d
       | Some s =>
           choice ← xadd_choose_id 0 id s;
           match choice with
           | inl err => refused err (<[k := VStream s]> d)
           | inr (ts, seq, final_id) =>
               if (ts =? 0) && (seq =? 0) then refused err_zero_id (<[k := VStream s]> d)
               else if match last s with
                       | Some l => negb (sid_ltb (parsed_id l) (mkStreamId ts seq))
                       | None => false
                       end
               then refused err_small_id (<[k := VStream s]> d)
               else Ret (encode_bulk_string final_id,
                         <[k := VStream (s ++ [mkStreamEntry final_id (mkStreamId ts seq) (pairs_of l)])]> d)
           end
       end.

(** The pairs before a score that is not a number stay; a score without a member is read
    past the arguments. *)
Fixpoint add_scores (l : list bytes) (z : SortedSet) (added : Z) : outcome (SortedSet * option Z) :=
  match l with
  | [] => Ret (z, Some added)
  | s :: l =>
      match parse_double s, l with
      | None, _ => Ret (z, None)
      | Some _, [] => Ub IndexOutOfRange
      | Some score, m :: l => let (z', n) := zset_add score m z in add_scores l z' (added + n)
      end
  end.

Definition zadd_spec (k : bytes) (l : list bytes) (d : keyspace) : answer :=
  match parse_double (default [] (head l)), at_key SortedSet k d with
  | None, _ => refused not_a_float d
  | Some _, None => refused wrongtype d
  | Some _, Some z =>
      '(z', r) ← add_scores l z 0;
      Ret (match r with Some n => encode_integer n | None => encode_error not_a_float end, <[k := VZset z']> d)
  end.

Definition zrem_spec (k m : bytes) (d : keyspace) : answer :=
  match d !! k with
  | Some (VZset z) => let (z', r) := zset_remove m z in Ret (encode_integer r, <[k := VZset z']> d)
  | _ => Ret (encode_integer 0, d)
  end.

Definition geoadd_spec (k lon lat m : bytes) (d : keyspace) : answer :=
  match at_key SortedSet k d, parse_double lon, parse_double lat with
  | None, _, _ => refused wrongtype d
  | Some z, Some x, Some y =>
      if out_of_bounds x kLonMin kLonMax || out_of_bounds y kLatMin kLatMax
      then refused (snprintf 128 (bs "ERR invalid longitude,latitude pair "
                                    ++ format_fixed 6 x ++ bs "," ++ format_fixed 6 y)) d
      else
        cell ← Geo.encode y x;
        let (z', n) := zset_add (double_of_Z cell) m z in
        Ret (encode_integer n, <[k := VZset z']> d)
  | Some _, _, _ => refused not_a_float d
  end.

(** The commands with the fewest arguments they take, the name included. *)
Definition spec_table : list (bytes * (nat * (list bytes -> keyspace -> answer))) :=
  [ (bs "SET", (3%nat, fun args => set_spec (nth 1 args []) (nth 2 args []) (drop 3 args)));
    (bs "INCR", (2%nat, fun args => incr_spec (nth 1 args [])));
    (bs "MSET", (3%nat, fun args => mset_spec (drop 1 args)));
    (bs "RPUSH", (3%nat, fun args => push_spec push_back (nth 1 args []) (drop 2 args)));
    (bs "LPUSH", (3%nat, fun args => push_spec push_front (nth 1 args []) (drop 2 args)));
    (bs "LPOP", (2%nat, fun args => if (length args =? 2)%nat then pop_spec front (nth 1 args [])
                                    else pop_count_spec front (nth 1 args []) (nth 2 args [])));
    (bs "RPOP", (2%nat, fun args => if (length args =? 2)%nat then pop_spec back (nth 1 args [])
                                    else pop_count_spec back (nth 1 args []) (nth 2 args [])));
    (bs "XADD", (4%nat, fun args => xadd_spec (nth 1 args []) (nth 2 args []) (drop 3 args)));
    (bs "ZADD", (4%nat, fun args => zadd_spec (nth 1 args []) (drop 2 args)));
    (bs "ZREM", (3%nat, fun args => zrem_spec (nth 1 args []) (nth 2 args [])));
    (bs "GEOADD", (5%nat, fun args => geoadd_spec (nth 1 args []) (nth 2 args []) (nth 3 args []) (nth 4 args []))) ].

Definition write_spec (cmd : bytes) (args : list bytes) (d : keyspace) : answer :=
  match snd ∘ snd <$> list_find (fun p : bytes * _ => p.1 = cmd) spec_table with
  | None => refused (bs "ERR unknown command '" ++ cmd ++ bs "'") d
  | Some (arity, f) =>
      if (length args <? arity)%nat
      then refused (bs "ERR wrong number of arguments for '" ++ cmd ++ bs "' command") d
      else f args d
  end.

(** The command does not ask for the time: no EX or PX, no identifier made from the clock. *)
Definition clockless (cmd : bytes) (args : list bytes) : Prop :=
  (cmd = bs "SET" -> match set_options (drop 3 args) None with inr (Some _) => False | _ => True end)
  /\ (cmd = bs "XADD" -> nth 2 args [] <> bs "*").

#[export] Instance clockless_dec cmd args : Decision (clockless cmd args).
Proof.
  unfold clockless. apply and_dec; [|apply _].
  destruct (set_options (drop 3 args) None) as [|[]]; apply _.
Defined.

(** ** Keyspaces without expiry times *)
Definition timeless (d : keyspace) : gmap bytes Entry := (fun v => mkEntry v None) <$> d.

Lemma timeless_insert k v d : timeless (<[k := v]> d) = <[k := mkEntry v None]> (timeless d).
Proof. unfold timeless. by rewrite fmap_insert. Qed.

Lemma timeless_lookup k d : timeless d !! k = (fun v => mkEntry v None) <$> d !! k.
Proof. apply lookup_fmap. Qed.

#[global] Instance timeless_inj : Inj (=) (=) timeless.
Proof. apply map_fmap_inj. by intros v v' [= ->]. Qed.

(** Looking a key up finds its value at any time. *)
Lemma find_timeless now k st d :
  data_ st = timeless d -> find_valid_entry now k st = (st, (fun v => mkEntry v None) <$> d !! k).
Proof. intros Hd. unfold find_valid_entry. rewrite Hd, timeless_lookup. by destruct (d !! k). Qed.

Lemma typed_timeless (T : Type) `{Alternative T} now k st d (x : T) :
  data_ st = timeless d -> at_key T k d = Some x ->
  exists st', get_or_create_typed T now k st = (st', (x, None))
    /\ data_ st' = timeless (<[k := alt_inj x]> d)
    /\ forall v, data_ (put_value k v None st') = timeless (<[k := v]> d).
Proof.
  intros Hd Hx. unfold get_or_create_typed. rewrite (find_timeless now k st d Hd). unfold at_key in Hx.
  destruct (d !! k) as [v|] eqn:Hk; cbn [fmap option_fmap option_map value expiry].
  - rewrite Hx. exists st. split; [done|]. split.
    + rewrite insert_id; [done|]. by rewrite <- (alt_inj_get v x Hx).
    + intros w. cbn. by rewrite timeless_insert, Hd.
  - injection Hx as <-. eexists. split; [done|]. split; [cbn; by rewrite timeless_insert, Hd|].
    intros w. cbn. by rewrite timeless_insert, insert_insert_eq, Hd.
Qed.

(** ** The store's operations on them *)
Section store.
  Context (now : Z) (k : bytes) (st : Store) (d : keyspace).
  Hypothesis Hd : data_ st = timeless d.

Lemma data_at : data_ st !! k = (fun v => mkEntry v None) <$> d !! k.
Proof. by rewrite Hd, timeless_lookup. Qed.

(** What an operation leaves when it stores a value, through an existing entry or a new one. *)
Lemma put_timeless v : data_ (put_value k v None (touch_key k st)) = timeless (<[k := v]> d).
Proof. cbn. by rewrite timeless_insert, Hd. Qed.

Lemma emplace_timeless v :
  d !! k = None -> data_ (set_data (map_emplace k (mkEntry v None)) (touch_key k st)) = timeless (<[k := v]> d).
Proof. intros Hk. cbn. unfold map_emplace. by rewrite data_at, Hk, timeless_insert, <- Hd. Qed.

Lemma set_timeless v :
  exists st', set_if_valid_type now k v None st
              = Ret (st', match at_key bytes k d with Some _ => true | None => false end)
    /\ data_ st' = match at_key bytes k d with Some _ => timeless (<[k := VString v]> d) | None => timeless d end.
Proof.
  unfold set_if_valid_type, at_key. rewrite data_at. destruct (d !! k) as [w|] eqn:E; cbn [fmap option_fmap option_map].
  - cbn [is_expired expiry value negb]. unfold holds_alternative.
    destruct (alt_get_if w); cbn [negb expiry_opt mbind outcome_bind]; eexists; (split; [done|]); [apply put_timeless|done].
  - cbn. eexists. split; [done|]. by apply emplace_timeless.
Qed.

Lemma incr_timeless :
  exists st' r, incr_if_valid_type now k st = (st', r)
    /\ match incr_spec k d with
       | Ret (reply, d') =>
           reply = match r with Some n => encode_integer n | None => encode_error not_an_integer end
           /\ data_ st' = timeless d'
       | _ => False
       end.
Proof.
  unfold incr_if_valid_type, incr_spec. rewrite data_at.
  destruct (d !! k) as [w|] eqn:E; cbn [fmap option_fmap option_map is_expired expiry value negb].
  2: { do 2 eexists. split; [done|]. split; [done|by apply emplace_timeless]. }
  destruct w as [s| | |]; cbv beta iota delta [alt_get_if alt_string]; [|do 2 eexists; (split; [done|by split])..].
  destruct (parse_int64 s) as [n|]; [|do 2 eexists; (split; [done|by split])].
  destruct (n =? INT64_MAX); do 2 eexists; (split; [done|split; [done|]]); [exact Hd|apply put_timeless].
Qed.

Lemma push_first_timeless p v :
  exists st', push_if_valid_type p now k v st = (st', (fun l => zlen (p v l)) <$> at_key (list bytes) k d)
    /\ data_ st' = match at_key (list bytes) k d with
                   | Some l => timeless (<[k := VList (p v l)]> d)
                   | None => timeless d
                   end.
Proof.
  unfold push_if_valid_type, at_key. rewrite data_at.
  destruct (d !! k) as [w|] eqn:E; cbn [fmap option_fmap option_map is_expired expiry value negb].
  - destruct (alt_get_if w) as [l|]; eexists; (split; [done|]); [apply put_timeless|done].
  - eexists. split; [done|]. by apply emplace_timeless.
Qed.

Lemma push_timeless p v l :
  at_key (list bytes) k d = Some l ->
  exists st', push p now k v st = (st', zlen (p v l)) /\ data_ st' = timeless (<[k := VList (p v l)]> d).
Proof.
  intros Hl. destruct (typed_timeless (list bytes) now k (touch_key k st) d l Hd Hl) as (st1 & Hg & _ & Hp).
  unfold push. rewrite Hg. eexists. split; [done|]. apply Hp.
Qed.

Lemma list_entry_timeless st1 :
  data_ st1 = timeless d ->
  list_entry now k st1 = (st1, match d !! k with Some (VList l) => Some (l, None) | _ => None end).
Proof.
  intros H1. unfold list_entry. rewrite (find_timeless now k st1 d H1).
  destruct (d !! k) as [[]|]; done.
Qed.

Lemma pop_timeless take1 :
  exists st', pop take1 now k st
    = (st', match d !! k with Some (VList l) => fst <$> take1 l | _ => None end)
    /\ data_ st' = timeless (match d !! k with
                             | Some (VList l) => match take1 l with Some (_, l') => <[k := VList l']> d | None => d end
                             | _ => d
                             end).
Proof.
  unfold pop. rewrite list_entry_timeless by done.
  destruct (d !! k) as [[|l| |]|]; [by eexists| |by eexists..].
  destruct (take1 l) as [[x l']|]; eexists; (split; [done|]); [apply put_timeless|done].
Qed.

Lemma pop_n_timeless take1 split count :
  0 < count ->
  (forall n l, (n <= length l)%nat -> pop_loop take1 n l [] = ((split n l).2, (split n l).1)) ->
  exists st', pop_n take1 now k count st
    = (st', match d !! k with Some (VList l) => (split (Z.to_nat (Z.min count (zlen l))) l).1 | _ => [] end)
    /\ data_ st' = timeless (match d !! k with
         | Some (VList l) => <[k := VList (split (Z.to_nat (Z.min count (zlen l))) l).2]> d
         | _ => d
         end).
Proof.
  intros Hc Hs. unfold pop_n. rewrite list_entry_timeless by done.
  destruct (d !! k) as [[|l| |]|] eqn:E; [by eexists| |by eexists..].
  destruct l as [|x l].
  - specialize (Hs 0%nat [] ltac:(simpl; lia)). cbn [pop_loop] in Hs.
    replace (Z.to_nat (Z.min count (zlen (@nil bytes)))) with 0%nat by (unfold zlen; simpl; lia).
    injection Hs as <- <-. eexists. split; [done|]. rewrite insert_id; done.
  - replace (count <=? 0) with false by (symmetry; b2p; lia).
    rewrite Hs by (unfold zlen; lia). eexists. split; [done|]. apply put_timeless.
Qed.

Lemma zadd_first_timeless s m :
  exists st', zadd_if_valid_type now k s m st = (st', (fun z => (zset_add s m z).2) <$> at_key SortedSet k d)
    /\ data_ st' = match at_key SortedSet k d with
                   | Some z => timeless (<[k := VZset (zset_add s m z).1]> d)
                   | None => timeless d
                   end.
Proof.
  unfold zadd_if_valid_type, at_key. rewrite data_at.
  destruct (d !! k) as [w|] eqn:E; cbn [fmap option_fmap option_map is_expired expiry value negb].
  - destruct (alt_get_if w) as [z|]; [|by eexists]. cbn [fmap option_fmap option_map].
    destruct (zset_add s m z) as [z' r].
    eexists. split; [done|apply put_timeless].
  - change alt_default with empty_zset. destruct (zset_add s m empty_zset) as [z' r].
    eexists. split; [done|]. by apply emplace_timeless.
Qed.

Lemma zadd_timeless s m z :
  at_key SortedSet k d = Some z ->
  exists st', zadd now k s m st = (st', (zset_add s m z).2)
    /\ data_ st' = timeless (<[k := VZset (zset_add s m z).1]> d).
Proof.
  intros Hz. destruct (typed_timeless SortedSet now k (touch_key k st) d z Hd Hz) as (st1 & Hg & _ & Hp).
  unfold zadd. rewrite Hg. destruct (zset_add s m z) as [z' r]. eexists. split; [done|]. apply Hp.
Qed.

Lemma zrem_timeless m :
  exists st', zrem now k m st
    = (st', match d !! k with Some (VZset z) => (zset_remove m z).2 | _ => 0 end)
    /\ data_ st' = timeless (match d !! k with
                             | Some (VZset z) => <[k := VZset (zset_remove m z).1]> d
                             | _ => d
                             end).
Proof.
  unfold zrem. rewrite (find_timeless now k (touch_key k st) d) by done.
  destruct (d !! k) as [[| | |z]|]; cbn [fmap option_fmap option_map value]; [by eexists..| |by eexists].
  cbv beta iota delta [alt_get_if alt_zset]. destruct (zset_remove m z) as [z' r]. eexists. split; [done|apply put_timeless].
Qed.

Lemma absent_or_holds_timeless (T : Type) `{Alternative T} :
  key_is_absent_or_holds T now k st = bool_decide (is_Some (at_key T k d)).
Proof.
  unfold key_is_absent_or_holds, at_key. rewrite data_at.
  destruct (d !! k) as [w|]; cbn [fmap option_fmap option_map expiry value]; [|done].
  unfold holds_alternative. by destruct (alt_get_if w).
Qed.
End store.

(** ** Nobody is blocked *)
Definition nobody_waits (c : CommandContext) : Prop :=
  match blocking_manager c with Some bm => blocked_clients_ bm = ∅ | None => True end.

Lemma with_blocking_id c bm : blocking_manager c = Some bm -> with_blocking (Some bm) c = c.
Proof. destruct c. cbn. by intros ->. Qed.

Lemma try_wake_nobody has_send key e c : nobody_waits c -> try_wake has_send key e c = Ret (false, c).
Proof.
  intros Hn. unfold nobody_waits in Hn. unfold try_wake. mstep. destruct (blocking_manager c) as [bm|] eqn:E; [|done].
  unfold wake_client. rewrite Hn, lookup_empty. mstep. by rewrite with_blocking_id.
Qed.

Lemma wake_readers_nobody fuel has_send key id e c :
  nobody_waits c -> wake_readers fuel has_send key id e c = Ret ((), c).
Proof.
  intros Hn. unfold nobody_waits in Hn. destruct fuel; [done|]. cbn [wake_readers]. mstep.
  destruct (blocking_manager c) as [bm|] eqn:E; [|done].
  unfold wake_client_for_stream. rewrite Hn, lookup_empty. mstep. by rewrite with_blocking_id.
Qed.

Lemma push_wake_loop_nobody ops has_send key vs e : forall count c,
  nobody_waits c -> push_wake_loop ops has_send key vs count e c = push_loop ops key vs count e c.
Proof.
  induction vs as [|v vs IH]; intros count c Hn; [done|]. cbn [push_wake_loop push_loop].
  rewrite bind_eq, try_wake_nobody by done. cbv iota. rewrite !bind_eq. unfold on_store.
  destruct (next_push ops _ _ _ _) as [st n]. by apply IH.
Qed.

(** ** Refinement *)

(** The context differs in the store and in one reply. *)
Definition replied (st : Store) (reply : bytes) (c : CommandContext) : CommandContext :=
  with_out (out c ++ [Emit reply]) (with_store st c).

Definition refines {A} (x : A) (r : outcome (A * CommandContext)) (c : CommandContext) (a : answer) : Prop :=
  match a with
  | Ret (reply, d) => exists st, r = Ret (x, replied st reply c) /\ data_ st = timeless d
  | Throw x => r = Throw x
  | Ub u => r = Ub u
  end.

Lemma refines_normal h e c c' a : refines () (h e c') c a -> refines Normal ((_ ← h; normal) e c') c a.
Proof.
  rewrite bind_eq. unfold refines. destruct a as [[reply d]| |]; [|by intros ->..].
  intros (st & -> & Hst). by exists st.
Qed.

(** The replies are the appending encoders on an empty buffer. *)
Definition with_reply (reply : bytes) (c : CommandContext) : CommandContext := with_out (out c ++ [Emit reply]) c.

Lemma emit_eq b e c : emit b e c = Ret ((), with_reply b c).
Proof. done. Qed.
Lemma emit_error_eq msg e c : emit_error msg e c = Ret ((), with_reply (encode_error msg) c).
Proof. done. Qed.
Lemma emit_null_eq e c : emit_null_bulk e c = Ret ((), with_reply encode_null_bulk_string c).
Proof. done. Qed.
Lemma emit_integer_eq n e c : emit_integer n e c = Ret ((), with_reply (encode_integer n) c).
Proof. unfold emit_integer, emit_into. by rewrite encode_integer_into_eq. Qed.
Lemma emit_bulk_eq s e c : emit_bulk s e c = Ret ((), with_reply (encode_bulk_string s) c).
Proof. unfold emit_bulk, emit_into. by rewrite encode_bulk_string_into_eq, encode_bulk_string_eq. Qed.
Lemma emit_array_eq l e c : emit_array l e c = Ret ((), with_reply (encode_array l) c).
Proof. unfold emit_array, emit_into. by rewrite encode_array_into_eq, encode_array_eq. Qed.

Create HintDb replies discriminated.
#[export] Hint Rewrite emit_eq emit_error_eq emit_null_eq emit_integer_eq emit_bulk_eq emit_array_eq : replies.

(** Ends a handler that has stored and answers. *)
Ltac answered st := exists st; split; [autorewrite with replies; reflexivity|try done].

Section handlers.
  Context (e : env) (c : CommandContext) (d : keyspace) (a0 : bytes).
  Hypothesis Hd : data_ (ctx_store c) = timeless d.
  Notation now := (steady_now e).

Lemma unchanged reply : refines () (emit reply e c) c (Ret (reply, d)).
Proof. exists (ctx_store c). split; [by destruct c|done]. Qed.

Lemma set_refines (k v : bytes) (opts : list bytes) :
  match set_options opts None with inr (Some _) => False | _ => True end ->
  refines () (handle_set (a0 :: k :: v :: opts) e c) c (set_spec k v opts d).
Proof.
  intros Ho. unfold handle_set, set_spec. mstep. change (drop 3 _) with opts.
  destruct (set_options opts None) as [err|[|]]; [apply unchanged|done|].
  destruct (set_timeless now k _ d Hd v) as (st' & Hs & Hd'). rewrite bind_eq. unfold on_store_o. rewrite Hs.
  destruct (at_key bytes k d); answered st'.
Qed.

Lemma incr_refines k : refines () (handle_incr k e c) c (incr_spec k d).
Proof.
  destruct (incr_timeless now k _ d Hd) as (st' & r & Hi & H).
  unfold handle_incr. rewrite bind_eq. unfold on_store. rewrite Hi. cbv beta iota.
  destruct (incr_spec k d) as [[reply d']| |]; [|done..]. destruct H as [-> H].
  destruct r; answered st'.
Qed.

Lemma mset_check_timeless st : data_ st = timeless d -> forall n l, (length l <= n)%nat ->
  mset_check now l st = forallb (fun kv : bytes * bytes => bool_decide (is_Some (at_key bytes kv.1 d))) (pairs_of l).
Proof.
  intros Hst. induction n as [|n IH]; intros [|k [|v l]] Hl; try done; cbn [length] in Hl; [lia|].
  cbn [mset_check pairs_of forallb]. rewrite (absent_or_holds_timeless now k st d Hst bytes), IH by lia. done.
Qed.
End handlers.

Lemma mset_loop_timeless now : forall n l st d, data_ st = timeless d -> (length l <= n)%nat ->
  exists st', mset_loop now l st = Ret st'
    /\ data_ st' = timeless (fold_left (fun d (kv : bytes * bytes) => <[kv.1 := VString kv.2]> d) (pairs_of l) d).
Proof.
  induction n as [|n IH]; intros [|k [|v l]] st d Hd Hl; try (by exists st); cbn [length] in Hl; [lia|].
  cbn [mset_loop pairs_of fold_left]. unfold set. cbn [expiry_opt mbind outcome_bind].
  apply IH; [|lia]. cbn. by rewrite timeless_insert, Hd.
Qed.

Section more_handlers.
  Context (e : env) (c : CommandContext) (d : keyspace) (a0 : bytes).
  Hypothesis Hd : data_ (ctx_store c) = timeless d.
  Notation now := (steady_now e).

Lemma mset_refines l : refines () (handle_mset (a0 :: l) e c) c (mset_spec l d).
Proof.
  unfold handle_mset, mset_spec. change (length (a0 :: l) - 1)%nat with (length l - 0)%nat. rewrite Nat.sub_0_r.
  change (drop 1 (a0 :: l)) with l.
  destruct (Nat.odd (length l)); [by apply unchanged|]. mstep.
  rewrite (mset_check_timeless e d _ Hd (length l)) by done. destruct (forallb _ _); [|by apply unchanged].
  destruct (mset_loop_timeless now (length l) l (ctx_store c) d Hd (le_n _)) as (st' & Hm & Hd').
  rewrite bind_eq. unfold on_store_o. rewrite Hm. answered st'.
Qed.

Lemma push_loop_timeless ops p k vs :
  next_push ops = push p -> forall l c d, data_ (ctx_store c) = timeless d -> d !! k = Some (VList l) ->
  let l' := fold_left (fun l v => p v l) vs l in
  exists st', push_loop ops k vs (zlen l) e c = Ret (zlen l', with_store st' c)
    /\ data_ st' = timeless (<[k := VList l']> d).
Proof.
  intros Hops. induction vs as [|v vs IH]; intros l c1 d1 Hd1 Hk.
  - exists (ctx_store c1). split; [by destruct c1|]. cbn. by rewrite insert_id.
  - cbn [push_loop fold_left]. rewrite bind_eq. unfold on_store. rewrite Hops.
    assert (Hl : at_key (list bytes) k d1 = Some l) by (unfold at_key; by rewrite Hk).
    destruct (push_timeless now k _ d1 Hd1 p v l Hl) as (st1 & -> & Hst1). cbv beta iota.
    destruct (IH (p v l) (with_store st1 c1) _ Hst1 (lookup_insert_eq _ _ _)) as (st' & -> & Hst').
    exists st'. split; [done|]. by rewrite Hst', insert_insert_eq.
Qed.

Lemma push_refines ops p k v vs :
  first_push ops = push_if_valid_type p -> next_push ops = push p ->
  refines () (handle_push ops (a0 :: k :: v :: vs) e c) c (push_spec p k (v :: vs) d).
Proof.
  intros H1 H2. unfold handle_push, push_spec. mstep. change (drop 3 _) with vs. unfold on_store.
  rewrite H1. destruct (push_first_timeless now k _ d Hd p v) as (st1 & -> & Hst1). cbv beta iota.
  destruct (at_key (list bytes) k d) as [l|]; [|by answered st1]. cbn [fmap option_fmap option_map].
  rewrite bind_eq.
  destruct (push_loop_timeless ops p k vs H2 (p v l) (with_store st1 c) _ Hst1 (lookup_insert_eq _ _ _))
    as (st' & -> & Hst').
  answered st'. by rewrite Hst', insert_insert_eq.
Qed.

Lemma push_blocking_refines ops p has_send k v vs :
  first_push ops = push_if_valid_type p -> next_push ops = push p -> nobody_waits c ->
  refines Normal (handle_push_with_blocking ops has_send (a0 :: k :: v :: vs) e c) c (push_spec p k (v :: vs) d).
Proof.
  intros H1 H2 Hn.
  replace (handle_push_with_blocking ops has_send _ e c)
    with ((_ ← handle_push ops (a0 :: k :: v :: vs); normal) e c); [by apply refines_normal, push_refines|].
  unfold handle_push_with_blocking, handle_push. mstep. change (drop 3 _) with vs.
  unfold on_store. destruct (first_push ops _ _ _ _) as [st1 [n|]]; [|done].
  rewrite !bind_eq, try_wake_nobody by done. rewrite !bind_eq, push_wake_loop_nobody by done.
  by destruct (push_loop _ _ _ _ _ _) as [[]| |].
Qed.

(** One element is what a count of one takes. *)
Definition takes (take1 : list bytes -> option (bytes * list bytes)) (split : nat -> list bytes -> list bytes * list bytes)
  : Prop :=
  (forall l, take1 l = match split 1%nat l with (x :: _, rest) => Some (x, rest) | ([], _) => None end)
  /\ (forall n l, (n <= length l)%nat -> pop_loop take1 n l [] = ((split n l).2, (split n l).1)).

Lemma takes_front : takes pop_front front.
Proof. split; [by intros []|]. intros n l Hn. by rewrite pop_loop_front. Qed.

Lemma takes_back : takes pop_back back.
Proof.
  split; [|intros n l Hn; by rewrite pop_loop_back]. intros l. destruct l as [|x l _] using rev_ind; [done|].
  rewrite pop_back_snoc. unfold back. rewrite length_app. cbn [length].
  rewrite Nat.add_sub, drop_app_length, take_app_length. done.
Qed.

Lemma pop_refines take1 split k :
  takes take1 split -> refines () (handle_pop (pop take1) (pop_n take1) [a0; k] e c) c (pop_spec split k d).
Proof.
  intros [Ht _]. unfold handle_pop, pop_spec. mstep. cbn [length Nat.eqb]. rewrite bind_eq. unfold on_store.
  destruct (pop_timeless now k _ d Hd take1) as (st' & -> & Hst'). cbv beta iota.
  destruct (d !! k) as [[|l| |]|]; try answered st'. rewrite Ht in *.
  destruct (split 1%nat l) as [[|x taken] rest]; cbn [fmap option_fmap option_map emit_popped fst]; answered st'.
Qed.

Lemma pop_count_refines take1 split k count rest :
  takes take1 split ->
  refines () (handle_pop (pop take1) (pop_n take1) (a0 :: k :: count :: rest) e c) c (pop_count_spec split k count d).
Proof.
  intros [_ Hs]. unfold handle_pop, pop_count_spec. mstep. cbn [length Nat.eqb]. mstep.
  destruct (parse_int64 count) as [n|]; [|by apply unchanged]. destruct (n <=? 0) eqn:En; b2p; [by apply unchanged|].
  rewrite bind_eq. unfold on_store. destruct (pop_n_timeless now k _ d Hd take1 split n En Hs) as (st' & -> & Hst').
  cbv beta iota. destruct (d !! k) as [[|l| |]|]; try answered st'.
  destruct (split _ l) as [taken r]. answered st'.
Qed.

Lemma zrem_refines k m rest : refines () (handle_zrem (a0 :: k :: m :: rest) e c) c (zrem_spec k m d).
Proof.
  unfold handle_zrem, zrem_spec. mstep. unfold on_store.
  destruct (zrem_timeless now k _ d Hd m) as (st' & -> & Hst'). cbv beta iota.
  destruct (d !! k) as [[| | |z]|]; try answered st'. destruct (zset_remove m z) as [z' r]. answered st'.
Qed.

Lemma zadd_loop_timeless k : forall n l added z c d, (length l <= n)%nat ->
  data_ (ctx_store c) = timeless d -> d !! k = Some (VZset z) ->
  match add_scores l z added with
  | Ret (z', r) => exists st', zadd_loop k l added e c = Ret (r, with_store st' c)
      /\ data_ st' = timeless (<[k := VZset z']> d)
  | Throw x => zadd_loop k l added e c = Throw x
  | Ub u => zadd_loop k l added e c = Ub u
  end.
Proof.
  assert (Hsame : forall c (d : keyspace) z, data_ (ctx_store c) = timeless d -> d !! k = Some (VZset z) ->
    c = with_store (ctx_store c) c /\ data_ (ctx_store c) = timeless (<[k := VZset z]> d)).
  { intros c1 d1 z H1 Hk. split; [by destruct c1|]. by rewrite insert_id. }
  induction n as [|n IH]; intros [|s l] added z c1 d1 Hl H1 Hk; cbn [length] in Hl; try lia;
    cbn [zadd_loop add_scores]; destruct (Hsame c1 d1 z H1 Hk) as [Hc Hst];
    [exists (ctx_store c1); split; [by rewrite <- Hc|done]..|].
  destruct (parse_double s) as [score|]; [|exists (ctx_store c1); split; [by rewrite <- Hc|done]].
  destruct l as [|m l]; [done|]. cbn [length] in Hl.
  rewrite bind_eq. unfold on_store.
  assert (Hz : at_key SortedSet k d1 = Some z) by (unfold at_key; by rewrite Hk).
  destruct (zadd_timeless now k _ d1 H1 score m z Hz) as (st1 & -> & Hst1).
  destruct (zset_add score m z) as [z1 r]. cbn [fst snd] in *.
  specialize (IH l (added + r) z1 (with_store st1 c1) _ ltac:(lia) Hst1 (lookup_insert_eq _ _ _)).
  destruct (add_scores l z1 (added + r)) as [[z' x]| |]; [|done..].
  destruct IH as (st' & -> & Hst'). exists st'. split; [done|]. by rewrite Hst', insert_insert_eq.
Qed.

Lemma zadd_refines k s m l : refines () (handle_zadd (a0 :: k :: s :: m :: l) e c) c (zadd_spec k (s :: m :: l) d).
Proof.
  unfold handle_zadd, zadd_spec. mstep. change (drop 4 _) with l. cbn [head default from_option id add_scores].
  destruct (parse_double s) as [score|]; [|by apply unchanged]. mstep. rewrite ?bind_eq. unfold on_store.
  destruct (zadd_first_timeless now k _ d Hd score m) as (st1 & -> & Hst1). cbv beta iota.
  destruct (at_key SortedSet k d) as [z|]; [|by answered st1]. cbn [fmap option_fmap option_map].
  destruct (zset_add score m z) as [z1 r]. cbn [fst snd] in *. rewrite bind_eq.
  pose proof (zadd_loop_timeless k (length l) l r z1 (with_store st1 c) _ (le_n _) Hst1 (lookup_insert_eq _ _ _)) as H.
  change (0 + r) with r.
  destruct (add_scores l z1 r) as [[z' x]| |]; cbn [mbind outcome_bind]; [|by rewrite H..].
  destruct H as (st' & -> & Hst'). rewrite insert_insert_eq in Hst'. destruct x; answered st'.
Qed.

Lemma geoadd_refines k lon lat m rest :
  refines () (handle_geoadd (a0 :: k :: lon :: lat :: m :: rest) e c) c (geoadd_spec k lon lat m d).
Proof.
  unfold handle_geoadd, geoadd_spec. mstep. rewrite (absent_or_holds_timeless now k _ d Hd SortedSet).
  destruct (at_key SortedSet k d) as [z|] eqn:Hz; [|by apply unchanged].
  rewrite bool_decide_eq_true_2 by done. cbn [negb]. mstep.
  destruct (parse_double lon) as [x|], (parse_double lat) as [y|]; try by apply unchanged.
  destruct (_ || _); [by apply unchanged|]. mstep. destruct (Geo.encode y x) as [cell| |]; [|done..]. mstep.
  rewrite ?bind_eq. unfold on_store.
  destruct (zadd_timeless now k _ d Hd (double_of_Z cell) m z Hz) as (st' & -> & Hst'). cbv beta iota.
  cbn [mbind outcome_bind]. destruct (zset_add (double_of_Z cell) m z) as [z' n]. answered st'.
Qed.
End more_handlers.

(** *** XADD *)
Lemma number_not_error z r : starts_with (bs "ERR") (to_string z ++ r) = false.
Proof.
  apply bool_decide_eq_false_2. intros E.
  assert (Hd : forall n, 0 <= n -> exists ch l, dec_digits n = ch :: l /\ is_digit ch = true).
  { intros n Hn. pose proof (dec_digits_digits n Hn) as H. pose proof (dec_digits_ne n Hn).
    destruct (dec_digits n) as [|ch l]; [done|]. apply Forall_cons in H as [H _]. eauto. }
  unfold to_string in E. destruct (z <? 0) eqn:Ez; b2p; [done|].
  destruct (Hd z Ez) as (ch & l & Eq & Hch). rewrite Eq in E. cbn in E. injection E as -> _. done.
Qed.

Lemma chosen_id_not_error sys id s ts seq final :
  xadd_choose_id sys id s = Ret (inr (ts, seq, final)) -> starts_with (bs "ERR") final = false.
Proof.
  unfold xadd_choose_id, int64_of. intros H.
  assert (Hsid : forall sid, starts_with (bs "ERR") (sid_to_string sid) = false).
  { intros sid. unfold sid_to_string. apply number_not_error. }
  repeat (case_match; cbn [mbind outcome_bind] in *; try done); simplify_eq; try apply Hsid;
    try (by eapply explicit_id_not_error).
Qed.

Lemma choose_clockless sys sys' id s : id <> bs "*" -> xadd_choose_id sys id s = xadd_choose_id sys' id s.
Proof. intros Hid. unfold xadd_choose_id. by rewrite bool_decide_eq_false_2. Qed.

Lemma chosen_error_text sys id s err :
  xadd_choose_id sys id s = Ret (inl err) -> starts_with (bs "ERR") err = true.
Proof.
  unfold xadd_choose_id, int64_of. intros H.
  repeat (case_match; cbn [mbind outcome_bind] in *; try done); by simplify_eq.
Qed.

Lemma xadd_if_valid_timeless now sys k id flds st d :
  data_ st = timeless d ->
  xadd_if_valid_type now sys k id flds st
  = match at_key (list StreamEntry) k d with
    | Some _ => '(st', r) ← xadd now sys k id flds st; Ret (st', Some r)
    | None => Ret (st, None)
    end.
Proof.
  intros Hd. unfold xadd_if_valid_type, at_key. rewrite (data_at k st d Hd).
  destruct (d !! k) as [v|]; cbn [fmap option_fmap option_map is_expired expiry value negb andb]; [|done].
  unfold holds_alternative. by destruct (alt_get_if v).
Qed.

Lemma xadd_refines e c d a0 has_send k id l :
  data_ (ctx_store c) = timeless d -> nobody_waits c -> id <> bs "*" ->
  refines Normal (handle_xadd_with_blocking has_send (a0 :: k :: id :: l) e c) c (xadd_spec k id l d).
Proof.
  intros Hd Hn Hid. unfold handle_xadd_with_blocking, xadd_spec. mstep. change (drop 3 _) with l.
  replace (length (a0 :: k :: id :: l) - 3)%nat with (length l) by (cbn [length]; lia).
  destruct (Nat.odd (length l)); [by apply refines_normal, unchanged|]. rewrite bind_eq. unfold on_store_o.
  rewrite (xadd_if_valid_timeless _ _ _ _ _ _ d Hd).
  destruct (at_key (list StreamEntry) k d) as [s|] eqn:Hs; [|by apply refines_normal; answered (ctx_store c)].
  unfold xadd.
  destruct (typed_timeless (list StreamEntry) (steady_now e) k (touch_key k (ctx_store c)) d s Hd Hs)
    as (st1 & -> & Hst1 & Hp).
  rewrite (choose_clockless (sys_ms e) 0) by done.
  destruct (xadd_choose_id 0 id s) as [[err|[[ts seq] final]]| |] eqn:Hc; cbn [mbind outcome_bind]; [| |done..].
  - rewrite (chosen_error_text _ _ _ _ Hc). apply refines_normal. answered st1.
  - destruct (_ && _); cbn [mbind outcome_bind]; [apply refines_normal; answered st1|].
    destruct (match last s with Some _ => _ | None => _ end); cbn [mbind outcome_bind];
      [apply refines_normal; answered st1|].
    rewrite (chosen_id_not_error _ _ _ _ _ _ Hc). mstep. rewrite wake_readers_nobody by done.
    apply refines_normal. eexists. split; [autorewrite with replies; reflexivity|apply Hp].
Qed.

(** ** The table *)
Section table.
  Context (sin cos asin : double -> double) (has_send : bool) (fd : Z) (e : env) (c : CommandContext) (d : keyspace).
  Hypothesis Hd : data_ (ctx_store c) = timeless d.
  Hypothesis Hn : nobody_waits c.
  Notation execute_command := (execute_command sin cos asin).

Lemma entry_refines cmd args en f :
  find_command sin cos asin cmd = Some en ->
  snd ∘ snd <$> list_find (fun p : bytes * _ => p.1 = cmd) spec_table = Some (min_args en, f) ->
  ((min_args en <= length args)%nat -> refines Normal (handler en has_send fd args e c) c (f args d)) ->
  refines Normal (execute_command has_send fd cmd args e c) c (write_spec cmd args d).
Proof.
  intros H1 H2 Hf. unfold CommandHandler.execute_command, write_spec. rewrite H1, H2.
  destruct (length args <? min_args en)%nat eqn:El; b2p; [by apply refines_normal, unchanged|by apply Hf].
Qed.

Lemma unknown_refines args :
  refines Normal (execute_command has_send fd (bs "DEL") args e c) c (write_spec (bs "DEL") args d).
Proof. by apply (refines_normal _ e c), unchanged. Qed.

(** The handler [h] of one entry, on as many arguments as it has at least. *)
Ltac entry h :=
  match h with
  | (?h, ?n) => eapply (entry_refines _ _ (mkCommandEntry h n)); [reflexivity..|]
  end; cbn [min_args handler];
  let Hl := fresh in intros Hl;
  repeat match type of Hl with
  | (S _ <= length ?l)%nat => destruct l as [|? l]; cbn [length] in Hl; [lia|apply le_S_n in Hl]
  end; cbn [nth drop skipn].

Lemma write_refines cmd args :
  cmd ∈ kWriteCommands -> clockless cmd args ->
  refines Normal (execute_command has_send fd cmd args e c) c (write_spec cmd args d).
Proof.
  intros Hcmd [Hset Hxadd]. unfold kWriteCommands in Hcmd. cbn [fmap list_fmap] in Hcmd.
  rewrite !elem_of_cons, elem_of_nil in Hcmd.
  destruct Hcmd as [->|[->|[->|[->|[->|[->|[->|[->|[->|[->|[->|[->|[]]]]]]]]]]]]].
  - entry (plain handle_set, 3%nat). apply refines_normal, set_refines; [done|]. by apply Hset.
  - apply unknown_refines.
  - entry (on_first handle_incr, 2%nat). by apply refines_normal, incr_refines.
  - entry (plain handle_mset, 3%nat). by apply refines_normal, mset_refines.
  - entry (push_entry handle_rpush_with_blocking handle_rpush, 3%nat). destruct has_send.
    + by apply push_blocking_refines.
    + by apply refines_normal, push_refines.
  - entry (push_entry handle_lpush_with_blocking handle_lpush, 3%nat). destruct has_send.
    + by apply push_blocking_refines.
    + by apply refines_normal, push_refines.
  - entry (plain handle_lpop, 2%nat). destruct args as [|count args]; cbn [length Nat.eqb nth].
    + apply refines_normal, pop_refines; [done|apply takes_front].
    + apply refines_normal, pop_count_refines; [done|apply takes_front].
  - entry (plain handle_rpop, 2%nat). destruct args as [|count args]; cbn [length Nat.eqb nth].
    + apply refines_normal, pop_refines; [done|apply takes_back].
    + apply refines_normal, pop_count_refines; [done|apply takes_back].
  - entry (fun has_send (_ : Z) => handle_xadd_with_blocking has_send, 4%nat). apply xadd_refines; [done..|].
    by apply Hxadd.
  - entry (plain handle_zadd, 4%nat). by apply refines_normal, zadd_refines.
  - entry (plain handle_zrem, 3%nat). by apply refines_normal, zrem_refines.
  - entry (plain handle_geoadd, 5%nat). by apply refines_normal, geoadd_refines.
Qed.
End table.

(** * Properties *)

(** C2: the write commands implement the abstract server.  On a keyspace where no key has
    an expiry time, and while nobody is blocked, SET, MSET, INCR, RPUSH, LPUSH, LPOP, RPOP,
    XADD, ZADD, ZREM and GEOADD, with any arguments, whether well formed or not, that do
    not ask for the time, send exactly the reply of [write_spec] and leave exactly its
    keyspace, and change nothing else of the server but the versions of keys; where the specification runs into
    undefined behaviour (a score without a member, a sequence number that overflows), so
    do they.  DEL, although it is listed as a write command, is answered as unknown. *)
Theorem writes_refine_keyspace (sin cos asin : double -> double) (has_send : bool) (fd : Z) (cmd : bytes)
    (args : list bytes) (e : env) (c : CommandContext) (d : keyspace) :
  cmd ∈ kWriteCommands -> clockless cmd args -> data_ (ctx_store c) = timeless d -> nobody_waits c ->
  match write_spec cmd args d with
  | Ret (reply, d') =>
      exists st, execute_command sin cos asin has_send fd cmd args e c
                 = Ret (Normal, with_out (out c ++ [Emit reply]) (with_store st c))
        /\ data_ st = timeless d'
  | Throw x => execute_command sin cos asin has_send fd cmd args e c = Throw x
  | Ub u => execute_command sin cos asin has_send fd cmd args e c = Ub u
  end.
Proof. intros Hcmd Hcl Hd Hn. exact (write_refines sin cos asin has_send fd e c d Hd Hn cmd args Hcmd Hcl). Qed.

Definition demo_keyspace : keyspace :=
  list_to_map [(bs "l", VList (bs <$> ["a"; "b"; "c"]%string)); (bs "z", VZset empty_zset)].
Definition demo_ctx : CommandContext :=
  new_ctx (mkStore (timeless demo_keyspace) 0 ∅) (mkServerConfig None [] [] []).
Definition demo_env : env := mkEnv 10 0 true (child_at 10).

Lemma writes_refine_keyspace_witness :
  (exists st, execute_command id id id true 7 (bs "RPOP") (bs <$> ["RPOP"; "l"; "2"]%string) demo_env demo_ctx
     = Ret (Normal, with_out [Emit (encode_array (bs <$> ["c"; "b"]%string))] (with_store st demo_ctx))
     /\ data_ st = timeless (<[bs "l" := VList [bs "a"]]> demo_keyspace))
  /\ execute_command id id id true 7 (bs "ZADD") (bs <$> ["ZADD"; "z"; "1"; "m"; "2"]%string) demo_env demo_ctx
     = Ub IndexOutOfRange.
Proof.
  split.
  - exact (writes_refine_keyspace id id id true 7 (bs "RPOP") (bs <$> ["RPOP"; "l"; "2"]%string) demo_env demo_ctx
      demo_keyspace ltac:(by apply (bool_decide_unpack _)) ltac:(by apply (bool_decide_unpack _)) eq_refl I).
  - exact (writes_refine_keyspace id id id true 7 (bs "ZADD") (bs <$> ["ZADD"; "z"; "1"; "m"; "2"]%string) demo_env demo_ctx
      demo_keyspace ltac:(by apply (bool_decide_unpack _)) ltac:(by apply (bool_decide_unpack _)) eq_refl I).
Defined.
