(* ===== verification/LogReplay.v ===== *)
(** * The log replays the live server (handler with aof, main.cpp)

    A server that handles the buffers of its clients appends its write commands to the
    log.  Run again by a server that starts empty, the log gives the same keyspace: both
    follow the abstract server of KeyspaceSpec. *)

From S2P Require Import Prelude Text StreamIds RespCodec Scores SortedSets Store StoreSteps StoreSpec.
From S2P Require Import BlockingManager PubSub Connection Sha256 Acl ReplicaManager Doubles DoublesSpec Aof Geo Context Rdb.
From S2P Require Import StringCommands ListCommands StreamCommands ZsetCommands GeoCommands PubsubCommands ServerCommands.
From S2P Require Import CommandHandler HandlerTypes HandlerSpec ReplicaConnector EventLoop Main AofReplay KeyspaceSpec.

(** ** A client whose commands are run at once *)

(** Not subscribed, let in, and not inside MULTI. *)
Definition served (fd : Z) (c : CommandContext) : Prop :=
  in_subscribed_mode fd c = false
  /\ match conn_pool c with
     | None => (fd ∈ authenticated_fds c \/ default_nopass c = true) /\ queueing (transactions c !! fd) = false
     | Some p =>
         match connections_ p !! fd with
         | Some conn => (authenticated_ conn = true \/ default_nopass c = true) /\ queueing (tx_ conn) = false
         | None => False
         end
     end.

#[export] Instance served_dec fd c : Decision (served fd c).
Proof.
  unfold served. apply and_dec; [apply _|]. destruct (conn_pool c) as [p|]; [|apply _].
  destruct (connections_ p !! fd); apply _.
Defined.

(** What the check of a client's rights leaves as it is. *)
Definition same_server (c c' : CommandContext) : Prop :=
  ctx_store c' = ctx_store c /\ aof_manager c' = aof_manager c /\ files c' = files c
  /\ blocking_manager c' = blocking_manager c /\ replica_count_fn c' = replica_count_fn c.

Lemma served_same fd c st o : served fd c -> served fd (with_out o (with_store st c)).
Proof. done. Qed.

Section handler.
  Context (sin cos asin : double -> double).
  Notation process_single_command := (process_single_command sin cos asin).
  Notation execute_command := (execute_command sin cos asin).
  Notation run_commands := (run_commands sin cos asin).

Lemma single_served has_send fd a0 args cmd e c :
  served fd c -> cmd ∉ tx_commands -> cmd <> bs "AUTH" ->
  exists c1, process_single_command has_send fd (a0 :: args) cmd e c
             = execute_command has_send fd cmd (a0 :: args) e c1
    /\ same_server c c1 /\ served fd c1.
Proof.
  intros [Hsub Hs] Htx Hauth. unfold CommandHandler.process_single_command. mstep. rewrite Hsub. cbn [andb].
  unfold check_auth. mstep. rewrite (bool_decide_eq_false_2 (cmd = bs "AUTH")) by done.
  assert (Hx : forall s, s ∈ tx_commands -> bool_decide (cmd = s) = false).
  { intros s Hin. apply bool_decide_eq_false_2. intros ->. done. }
  destruct (conn_pool c) as [p|] eqn:Hp.
  - destruct (connections_ p !! fd) as [conn|] eqn:Hc; [|done]. destruct Hs as [Ha Hq]. mstep.
    unfold get_connection at 1. rewrite Hc. mstep. destruct (authenticated_ conn) eqn:Hau.
    + mstep. rewrite (run_checked_other sin cos asin has_send fd _ cmd e c p conn) by done. rewrite Hq.
      exists c. split; [done|]. split; [done|]. split; [done|]. rewrite Hp, Hc. by rewrite Hau.
    + destruct Ha as [?|Ha]; [done|]. rewrite Ha. mstep.
      rewrite (update_conn_pool fd (set_authenticated true) e c p conn) by done. mstep.
      erewrite run_checked_other; [|done|done|apply lookup_insert_eq]. change (tx_ (set_authenticated true conn)) with (tx_ conn).
      rewrite Hq. eexists. split; [done|]. split; [done|]. split; [done|].
      cbn [conn_pool with_pool connections_ put_conn]. rewrite lookup_insert_eq. split; [by left|done].
  - destruct Hs as [Ha Hq].
    assert (Hrun : forall c', conn_pool c' = None -> transactions c' = transactions c ->
      run_checked sin cos asin has_send fd (a0 :: args) cmd e c' = execute_command has_send fd cmd (a0 :: args) e c').
    { intros c' Hp' Ht'. unfold run_checked. mstep. rewrite Hp'. mstep.
      rewrite !Hx by (unfold tx_commands; set_solver). mstep. unfold tx_in_multi, tx_find. mstep. rewrite Hp'. mstep.
      rewrite Ht'. unfold queueing in Hq. by rewrite Hq. }
    case_bool_decide as Hin.
    + mstep. rewrite Hrun by done. exists c. split; [done|]. split; [done|]. split; [done|]. rewrite Hp. split; [by left|done].
    + destruct Ha as [?|Ha]; [done|]. rewrite Ha. mstep. rewrite Hrun by done. eexists. split; [done|].
      split; [done|]. split; [done|]. cbn [conn_pool with_authenticated]. rewrite Hp. split; [left; set_solver|done].
Qed.

(** ** One command *)
(** A command whose effect on the keyspace the abstract server knows, or that has none. *)
Definition replayable_command (args : list bytes) : Prop :=
  args <> [] /\ (command_name args ∈ kWriteCommands /\ clockless (command_name args) args
                  \/ command_name args ∈ kReadCommands).

#[export] Instance replayable_command_dec args : Decision (replayable_command args).
Proof. unfold replayable_command. destruct args as [|a args]; apply _. Defined.

(** What the abstract server makes of a list of write commands. *)
Fixpoint replays (ws : list (list bytes)) (d : keyspace) : outcome keyspace :=
  match ws with
  | [] => Ret d
  | args :: ws => '(_, d') ← write_spec (command_name args) args d; replays ws d'
  end.

(** A server in use: the client is served, nobody is blocked, the keyspace is [d]. *)
Definition in_use (fd : Z) (d : keyspace) (c : CommandContext) : Prop :=
  served fd c /\ nobody_waits c /\ data_ (ctx_store c) = timeless d.

Lemma reads_not_writes cmd : cmd ∈ kReadCommands -> is_write_command cmd = false /\ cmd ∉ tx_commands /\ cmd <> bs "AUTH".
Proof.
  assert (Forall (fun cmd => is_write_command cmd = false /\ cmd ∉ tx_commands /\ cmd <> bs "AUTH") kReadCommands) as H
    by (apply (bool_decide_unpack _); by vm_compute).
  rewrite Forall_forall in H. apply H.
Qed.

Lemma writes_not_tx cmd : cmd ∈ kWriteCommands -> cmd ∉ tx_commands /\ cmd <> bs "AUTH".
Proof.
  assert (Forall (fun cmd => cmd ∉ tx_commands /\ cmd <> bs "AUTH") kWriteCommands) as H
    by (apply (bool_decide_unpack _); by vm_compute).
  rewrite Forall_forall in H. apply H.
Qed.

Lemma reads_normal has_send fd cmd args e c r c' :
  cmd ∈ kReadCommands -> execute_command has_send fd cmd args e c = Ret (r, c') -> r = Normal.
Proof.
  assert (Hend : forall {A} (m : M A), (_ ← m; normal) e c = Ret (r, c') -> r = Normal).
  { intros A m. rewrite bind_eq. destruct (m e c) as [[a c1]| |]; [|done..]. by intros [= <- _]. }
  intros Hcmd. unfold CommandHandler.execute_command.
  unfold kReadCommands in Hcmd. cbn [fmap list_fmap] in Hcmd. rewrite !elem_of_cons, elem_of_nil in Hcmd.
  repeat destruct Hcmd as [->|Hcmd]; [..|done];
    match goal with |- (match ?f with _ => _ end) e c = _ -> _ => let f' := eval hnf in f in change f with f' end;
    cbv beta iota; (destruct (_ <? _)%nat; [apply Hend|]); cbn [handler];
    unfold plain, plain_fd, on_first; first [apply Hend|intros [a H]%arg_bind; by apply Hend in H].
Qed.

(** The same as before to the log and to the replicas. *)
Definition same_log (c c' : CommandContext) : Prop :=
  aof_manager c' = aof_manager c /\ files c' = files c.

Lemma single_write has_send fd args e c d :
  in_use fd d c -> args <> [] -> command_name args ∈ kWriteCommands -> clockless (command_name args) args ->
  match write_spec (command_name args) args d with
  | Ret (_, d') => exists c', process_single_command has_send fd args (command_name args) e c = Ret (Normal, c')
      /\ in_use fd d' c' /\ same_log c c'
  | Throw x => process_single_command has_send fd args (command_name args) e c = Throw x
  | Ub u => process_single_command has_send fd args (command_name args) e c = Ub u
  end.
Proof.
  intros (Hs & Hn & Hd) Hne Hcmd Hcl. destruct args as [|a0 args]; [done|].
  destruct (writes_not_tx _ Hcmd) as [Htx Hauth].
  destruct (single_served has_send fd a0 args (command_name (a0 :: args)) e c Hs Htx Hauth)
    as (c1 & -> & (Hst & Hm & Hf & Hb & _) & Hs1).
  rewrite <- Hst in Hd. assert (Hn1 : nobody_waits c1) by (unfold nobody_waits in *; by rewrite Hb).
  pose proof (write_refines sin cos asin has_send fd e c1 d Hd Hn1 _ (a0 :: args) Hcmd Hcl) as H. unfold refines in H.
  destruct (write_spec _ _ d) as [[reply d']| |]; [|done..].
  destruct H as (st & -> & Hd'). exists (replied st reply c1). by split_and!.
Qed.

Lemma purges_timeless now st st' d : purges now st st' -> data_ st = timeless d -> data_ st' = timeless d.
Proof.
  intros [_ Hp] Hd. apply map_eq. intros k. destruct (Hp k) as [->|[Hl ->]]; [by rewrite Hd|].
  unfold live in Hl. rewrite Hd, timeless_lookup in Hl. rewrite timeless_lookup. by destruct (d !! k).
Qed.

Lemma single_read has_send fd args e c d r c' :
  in_use fd d c -> args <> [] -> command_name args ∈ kReadCommands ->
  process_single_command has_send fd args (command_name args) e c = Ret (r, c') ->
  r = Normal /\ in_use fd d c' /\ same_log c c'.
Proof.
  intros (Hs & Hn & Hd) Hne Hcmd H. destruct args as [|a0 args]; [done|].
  destruct (reads_not_writes _ Hcmd) as (_ & Htx & Hauth).
  destruct (single_served has_send fd a0 args (command_name (a0 :: args)) e c Hs Htx Hauth)
    as (c1 & E & (Hst & Hm & Hf & Hb & _) & Hs1). rewrite E in H.
  split; [by eapply reads_normal|].
  apply (reads_execute sin cos asin has_send fd _ _ Hcmd) in H as (st & o & -> & Hp).
  rewrite <- Hst in Hd. apply (purges_timeless _ _ _ d) in Hp; [|done].
  assert (Hn1 : nobody_waits c1) by (unfold nobody_waits in *; by rewrite Hb). by split_and!.
Qed.

(** ** The log *)

(** The log of the settings [m0] is open, is the file with the number [seq], and holds
    these commands. *)
Definition log_holds (base : bytes) (m0 : AofManager) (seq : Z) (ws : list (list bytes)) (c : CommandContext) : Prop :=
  exists m, aof_manager c = Some m /\ aof_fd_ m = Some (aof_dir base m0 ++ incr_name seq m0)
    /\ log_is base m0 seq (encode_all ws) (files c).

Lemma encode_all_snoc ws args : encode_all (ws ++ [args]) = encode_all ws ++ encode_array args.
Proof. unfold encode_all. rewrite fmap_app, join_app. cbn. by rewrite app_nil_r. Qed.

Lemma log_holds_write base m0 seq ws args c :
  0 <= seq -> log_holds base m0 seq ws c ->
  log_holds base m0 seq (ws ++ [args]) (log_write (encode_array args) c).2.
Proof.
  intros Hseq (m & Hm & Hfd & Hman & Hlog). unfold log_write. rewrite Hm. cbn [snd].
  exists (append_to_rewrite_buffer (encode_array args) m). split; [done|]. split.
  { unfold append_to_rewrite_buffer. by destruct (rewrite_in_progress_ m). }
  cbn [files with_aof]. unfold append. rewrite Hfd, Hlog. cbn [default from_option]. split.
  - rewrite lookup_insert_ne; [done|]. unfold manifest_path. intros E. symmetry in E. revert E.
    by apply incr_path_not_manifest.
  - rewrite lookup_insert_eq. by rewrite encode_all_snoc.
Qed.

Lemma in_use_write fd d raw c : in_use fd d c -> in_use fd d (log_write raw c).2.
Proof. intros H. unfold log_write. by destruct (aof_manager c). Qed.

Lemma log_holds_same base m0 seq ws c c' : same_log c c' -> log_holds base m0 seq ws c -> log_holds base m0 seq ws c'.
Proof. intros [H1 H2] (m & Hm & H). exists m. by rewrite H1, H2. Qed.

Lemma run_live base m0 seq has_send fd env_at : 0 <= seq -> forall cmds i total props ws c d r c',
  Forall replayable_command cmds -> in_use fd d c -> log_holds base m0 seq ws c ->
  run_commands env_at i has_send fd cmds total props c = Ret (r, c') ->
  exists d', replays (writes_of cmds) d = Ret d' /\ in_use fd d' c'
    /\ log_holds base m0 seq (ws ++ writes_of cmds) c'.
Proof.
  intros Hseq. induction cmds as [|args cmds IH]; intros i total props ws c d r c' Hok Hu Hl H.
  { injection H as <- <-. exists d. split; [done|]. split; [done|]. by rewrite app_nil_r. }
  apply Forall_cons in Hok as [[Hne [[Hw Hcl]|Hr]] Hok]; cbn [HandlerSpec.run_commands] in H;
    change (to_upper (default [] (head args))) with (command_name args) in H.
  - pose proof (single_write has_send fd args (env_at i) c d Hu Hne Hw Hcl) as Hstep.
    assert (Hwt : is_write_command (command_name args) = true) by (by apply bool_decide_eq_true_2).
    unfold writes_of. rewrite filter_cons_True by done. fold (writes_of cmds). cbn [replays].
    destruct (write_spec _ args d) as [[reply d1]| |]; [|by rewrite Hstep in H..].
    destruct Hstep as (c1 & E & Hu1 & Hsl). rewrite E in H. cbn [mbind outcome_bind] in H. rewrite Hwt in H.
    pose proof (log_holds_write base m0 seq ws args c1 Hseq (log_holds_same _ _ _ _ _ _ Hsl Hl)) as Hl1.
    pose proof (in_use_write fd d1 (encode_array args) c1 Hu1) as Hu2.
    destruct (log_write (encode_array args) c1) as [np c2]. cbn [snd mbind outcome_bind] in *.
    destruct (IH _ _ _ (ws ++ [args]) c2 d1 r c' Hok Hu2 Hl1 H) as (d' & Hd' & Hu' & Hl').
    exists d'. split; [done|]. split; [done|]. by rewrite <- app_assoc in Hl'.
  - destruct (reads_not_writes _ Hr) as (Hwf & _). rewrite Hwf in H.
    unfold writes_of. rewrite filter_cons_False by (by rewrite Hwf). fold (writes_of cmds).
    destruct (process_single_command has_send fd args (command_name args) (env_at i) c) as [[st c1]| |] eqn:E; [|done..].
    destruct (single_read has_send fd args (env_at i) c d st c1 Hu Hne Hr E) as (-> & Hu1 & Hsl).
    cbn [mbind outcome_bind] in H.
    by apply (IH _ _ _ ws c1 d r c' Hok Hu1 (log_holds_same _ _ _ _ _ _ Hsl Hl) H).
Qed.

Lemma run_replay fd env_at : forall ws i total props c d d',
  Forall (fun args => args <> [] /\ command_name args ∈ kWriteCommands /\ clockless (command_name args) args) ws ->
  in_use fd d c -> replays ws d = Ret d' ->
  exists r c', run_commands env_at i false fd ws total props c = Ret (r, c') /\ data_ (ctx_store c') = timeless d'.
Proof.
  induction ws as [|args ws IH]; intros i total props c d d' Hok Hu Hr.
  { injection Hr as <-. do 2 eexists. split; [done|apply Hu]. }
  apply Forall_cons in Hok as [(Hne & Hw & Hcl) Hok]. cbn [replays] in Hr. cbn [HandlerSpec.run_commands].
  change (to_upper (default [] (head args))) with (command_name args).
  pose proof (single_write false fd args (env_at i) c d Hu Hne Hw Hcl) as Hstep.
  destruct (write_spec _ args d) as [[reply d1]| |]; [|done..].
  destruct Hstep as (c1 & -> & Hu1 & _). cbn [mbind outcome_bind].
  rewrite (bool_decide_eq_true_2 _ Hw : is_write_command (command_name args) = true).
  pose proof (in_use_write fd d1 (encode_array args) c1 Hu1) as Hu2.
  destruct (log_write (encode_array args) c1) as [np c2]. cbn [snd mbind outcome_bind] in *. by apply (IH _ _ _ c2 d1).
Qed.

(** ** Buffers *)

(** What may happen outside of the commands: connections come and go, subscriptions and
    rights change, but not the keyspace, the log and the files, and nobody blocks. *)
Definition elsewhere (c c' : CommandContext) : Prop :=
  ctx_store c' = ctx_store c /\ aof_manager c' = aof_manager c /\ files c' = files c /\ nobody_waits c'.

(** A history of the server and the commands it has logged. *)
Inductive serves : CommandContext -> list (list bytes) -> CommandContext -> Prop :=
| serves_nothing c : serves c [] c
| serves_buffer env_at has_send fd cmds c r c1 ws c2 :
    Forall replayable_command cmds -> Forall sendable cmds -> served fd c ->
    process_with_fd sin cos asin env_at has_send fd (encode_all cmds) c = Ret (r, c1) ->
    serves c1 ws c2 -> serves c (writes_of cmds ++ ws) c2
| serves_elsewhere c c1 ws c2 : elsewhere c c1 -> serves c1 ws c2 -> serves c ws c2.

Lemma served_pending fd c p p' :
  conn_pool c = Some p -> get_pending_write fd p = Ret p' -> served fd c -> served fd (with_out [] (with_pool (Some p') c)).
Proof.
  intros Hp Hg [H1 H2]. split; [done|]. rewrite Hp in H2. cbn [conn_pool with_pool with_out].
  unfold get_pending_write, get_connection in Hg. destruct (connections_ p !! fd) as [conn|] eqn:Ec; [|done].
  cbn [mbind outcome_bind] in Hg. injection Hg as <-. unfold mark_dirty. destruct (dirty_ conn); cbn [put_conn connections_];
    by rewrite lookup_insert_eq.
Qed.

Lemma buffer_live base m0 seq env_at has_send fd cmds ws c d r c' :
  0 <= seq -> Forall replayable_command cmds -> Forall sendable cmds -> in_use fd d c -> log_holds base m0 seq ws c ->
  process_with_fd sin cos asin env_at has_send fd (encode_all cmds) c = Ret (r, c') ->
  exists d', replays (writes_of cmds) d = Ret d' /\ data_ (ctx_store c') = timeless d' /\ nobody_waits c'
    /\ log_holds base m0 seq (ws ++ writes_of cmds) c'.
Proof.
  intros Hseq Hok Hsend (Hs & Hn & Hd) Hl. unfold process_with_fd.
  set (start := match has_send with true => _ | false => _ end).
  assert (Hstart : forall c0, start = Ret c0 -> in_use fd d (with_out [] c0) /\ log_holds base m0 seq ws (with_out [] c0)).
  { intros c0. unfold start. destruct has_send; [|by intros [= <-]]. destruct (conn_pool c) as [p|] eqn:Hp; [|by intros [= <-]].
    destruct (get_pending_write fd p) as [p'| |] eqn:Hg; [|done..]. cbn [mbind outcome_bind]. intros [= <-].
    split; [|done]. split; [by eapply served_pending|done]. }
  destruct start as [c0| |]; [|done..]. destruct (Hstart c0 eq_refl) as [Hu Hl0]. cbn [mbind outcome_bind]. clear Hstart.
  assert (Hne : Forall (fun args : list bytes => args <> []) cmds) by (eapply Forall_impl; [exact Hok|]; by intros args [? _]).
  pose proof (process_loop_stream sin cos asin env_at has_send fd cmds [] Hsend Hne (or_introl eq_refl)
    (length (encode_all cmds)) [] 0%nat [] (with_out [] c0) ltac:(simpl; lia)) as Hloop.
  rewrite app_nil_r in Hloop. cbn [app length] in Hloop. change (zlen []) with 0 in Hloop. rewrite Hloop.
  destruct (run_commands env_at 0 has_send fd cmds 0 [] (with_out [] c0)) as [[r1 c1]| |] eqn:E; [|done..].
  cbn [mbind outcome_bind]. intros [= <- <-].
  destruct (run_live base m0 seq has_send fd env_at Hseq _ _ _ _ _ _ _ _ _ Hok Hu Hl0 E) as (d' & Hd' & (_ & Hn' & Hst) & Hl').
  exists d'. split; [done|]. by destruct has_send, (conn_pool c1).
Qed.

Lemma serves_live base m0 seq c log c' : 0 <= seq -> serves c log c' -> forall ws d,
  nobody_waits c -> data_ (ctx_store c) = timeless d -> log_holds base m0 seq ws c ->
  exists d', replays log d = Ret d' /\ data_ (ctx_store c') = timeless d' /\ log_holds base m0 seq (ws ++ log) c'.
Proof.
  intros Hseq H. induction H as [c|env_at has_send fd cmds c r c1 log c2 Hok Hsend Hs E _ IH|c c1 log c2 (H1 & H2 & H3 & H4) _ IH];
    intros ws d Hn Hd Hl.
  - exists d. by rewrite app_nil_r.
  - destruct (buffer_live base m0 seq env_at has_send fd cmds ws c d r c1) as (d1 & Hr & Hd1 & Hn1 & Hl1); try done.
    destruct (IH _ d1 Hn1 Hd1 Hl1) as (d' & Hr' & Hd' & Hl'). exists d'. rewrite <- app_assoc in Hl'. split; [|done].
    clear - Hr Hr'. revert d Hr. induction (writes_of cmds) as [|args l IHl]; intros d Hr; [by injection Hr as ->|].
    cbn [replays app] in *. destruct (write_spec _ _ _) as [[reply d2]| |]; [|done..]. by apply IHl.
  - apply IH; [done|by rewrite H1|]. by apply (log_holds_same _ _ _ _ c).
Qed.

Lemma serves_writes c log c' : serves c log c' ->
  Forall (fun args => args <> [] /\ command_name args ∈ kWriteCommands /\ clockless (command_name args) args) log
  /\ Forall sendable log.
Proof.
  intros H. induction H as [|env_at has_send fd cmds c r c1 log c2 Hok Hsend _ _ _ [IH1 IH2]|c c1 log c2 _ _ IH]; [done| |done].
  split; apply Forall_app; (split; [|done]); unfold writes_of; apply Forall_forall; intros args [Hw Hin]%list_elem_of_filter.
  - rewrite Forall_forall in Hok. destruct (Hok args Hin) as [Hne [[H1 H2]|Hr]]; [done|].
    apply reads_not_writes in Hr as [Hf _]. congruence.
  - rewrite Forall_forall in Hsend. by apply Hsend.
Qed.
End handler.

(** ** A log that accounts for the keyspace *)
Definition faithful_log (base : bytes) (m0 : AofManager) (seq : Z) (ws : list (list bytes)) (c : CommandContext) : Prop :=
  log_holds base m0 seq ws c
  /\ Forall (fun args => args <> [] /\ command_name args ∈ kWriteCommands /\ clockless (command_name args) args) ws
  /\ Forall sendable ws
  /\ exists d, replays ws ∅ = Ret d /\ data_ (ctx_store c) = timeless d.

Lemma replays_app ws ws' : forall d, replays (ws ++ ws') d = d' ← replays ws d; replays ws' d'.
Proof.
  induction ws as [|args ws IH]; intros d; [done|]. cbn [replays app].
  destruct (write_spec _ _ d) as [[reply d1]| |]; [|done..]. apply IH.
Qed.

Lemma serves_faithful sin cos asin base m0 seq c ws0 ws c' :
  0 <= seq -> nobody_waits c -> faithful_log base m0 seq ws0 c -> serves sin cos asin c ws c' ->
  faithful_log base m0 seq (ws0 ++ ws) c'.
Proof.
  intros Hseq Hn (Hl & Hw & Hs & d & Hr & Hd) H. destruct (serves_writes _ _ _ _ _ _ H) as [Hw' Hs'].
  destruct (serves_live sin cos asin base m0 seq c ws c' Hseq H ws0 d Hn Hd Hl) as (d' & Hr' & Hd' & Hl').
  split; [done|]. split; [by apply Forall_app|]. split; [by apply Forall_app|].
  exists d'. split; [|done]. rewrite replays_app, Hr. exact Hr'.
Qed.

Lemma quiet_in_use c : quiet c -> data_ (ctx_store c) = ∅ -> in_use (-1) ∅ c.
Proof.
  intros [[Hp Hm Ha Ht] Hb] Hd. split; [|split].
  - split; [done|]. rewrite Hp. split; [by right|done].
  - unfold nobody_waits. by rewrite Hb.
  - rewrite Hd. unfold timeless. by rewrite fmap_empty.
Qed.

(** A server that starts on a faithful log. *)
Lemma restore_faithful sin cos asin i seq ws d :
  0 <= seq -> enabled (aof_of i) = true -> spaceless (appendfilename_ (aof_of i)) ->
  log_is (dir (server_config i)) (aof_of i) seq (encode_all ws) (disk i) ->
  prepared_disk i !! path_join (dir (server_config i)) (dbfilename (server_config i)) = None ->
  Forall (fun args => args <> [] /\ command_name args ∈ kWriteCommands /\ clockless (command_name args) args) ws ->
  Forall sendable ws -> replays ws ∅ = Ret d ->
  exists c, restore sin cos asin i (server_config i) = Ret c /\ data_ (ctx_store c) = timeless d.
Proof.
  intros Hseq He Hsp Hlog Hrdb Hw Hs Hr.
  destruct (restore_log sin cos asin i seq (child_at 0) empty_store ws He Hseq Hsp) as (j & total & props & c1 & Hq & Hk & E).
  - exact Hlog.
  - exact Hrdb.
  - apply map_Forall_empty.
  - exact Hs.
  - eapply Forall_impl; [exact Hw|]. by intros args [? _].
  - assert (Hempty : data_ (ctx_store c1) = ∅) by (apply map_eq; intros k; exact (Hk k)).
    destruct (run_replay sin cos asin (-1) (replay_clock i) ws j total props c1 ∅ d Hw (quiet_in_use c1 Hq Hempty) Hr)
      as (r & c' & Hrun & Hd).
    exists (with_out [] c'). split; [by rewrite E, Hrun|done].
Qed.

(** ** Commands that are refused *)
Definition noauth : bytes := encode_error (bs "NOAUTH Authentication required.").

Lemma refused_run sin cos asin base m0 seq env_at i has_send fd args total props ws c conn :
  0 <= seq -> conn_of fd c = Some conn -> authenticated_ conn = false -> default_nopass c = false ->
  in_subscribed_mode fd c = false -> args <> [] -> command_name args ∈ kWriteCommands -> log_holds base m0 seq ws c ->
  exists r c', run_commands sin cos asin env_at i has_send fd [args] total props c = Ret (r, c')
    /\ out c' = out c ++ [Emit noauth] /\ ctx_store c' = ctx_store c /\ log_holds base m0 seq (ws ++ [args]) c'.
Proof.
  intros Hseq Hco Ha Hn Hsub Hne Hw Hl. destruct args as [|a0 args]; [done|].
  destruct (conn_of_pool _ _ _ Hco) as (p & Hp & Hc). destruct (writes_not_tx _ Hw) as [_ Hauth].
  cbn [HandlerSpec.run_commands]. change (to_upper (default [] (head (a0 :: args)))) with (command_name (a0 :: args)).
  unfold process_single_command. mstep. rewrite Hsub. cbn [andb]. rewrite bind_eq.
  rewrite (check_auth_pool fd _ (env_at i) c p conn Hp Hc Ha Hn), (bool_decide_eq_false_2 _ Hauth). mstep.
  cbn [mbind outcome_bind]. unfold normal, mret, M_ret. cbv beta iota.
  rewrite (bool_decide_eq_true_2 _ Hw : is_write_command (command_name (a0 :: args)) = true).
  set (c1 := with_out (out c ++ _) c).
  pose proof (log_holds_write base m0 seq ws (a0 :: args) c1 Hseq Hl) as Hl1.
  assert (Hk : ctx_store (log_write (encode_array (a0 :: args)) c1).2 = ctx_store c
    /\ out (log_write (encode_array (a0 :: args)) c1).2 = out c ++ [Emit noauth])
    by (unfold log_write; by destruct (aof_manager c1)).
  cbn [mbind outcome_bind]. destruct (log_write _ c1) as [np c2]. cbn [snd] in *. destruct Hk as [Hk1 Hk2]. do 2 eexists. split; [reflexivity|]. by split_and!.
Qed.

(** * Properties *)

(** C3: the log is a faithful account of the keyspace.  Let a server with an open log that
    accounts for its keyspace, for instance an empty log and an empty keyspace, handle any
    buffers of clients that are let in (they have authenticated or no password is set),
    are not inside MULTI and not in subscribed mode, in any order and interleaved with
    whatever happens to the connections; the buffers hold write commands that do not ask
    for the time and reading commands, well formed or not, and nobody blocks.  Then the
    log has grown by exactly the write commands, in the order they ran, and still accounts
    for the keyspace; and a server that starts on these files with the same settings, at
    whatever times, with no snapshot file, has exactly the same keyspace. *)
Theorem log_replays_server (sin cos asin : double -> double) (i : start_input) (seq : Z) (ws0 ws : list (list bytes))
    (c c' : CommandContext) :
  let base := dir (server_config i) in
  0 <= seq -> nobody_waits c -> faithful_log base (aof_of i) seq ws0 c -> serves sin cos asin c ws c' ->
  enabled (aof_of i) = true -> spaceless (appendfilename_ (aof_of i)) -> disk i = files c' ->
  prepared_disk i !! path_join base (dbfilename (server_config i)) = None ->
  faithful_log base (aof_of i) seq (ws0 ++ ws) c'
  /\ exists c2, restore sin cos asin i (server_config i) = Ret c2
       /\ data_ (ctx_store c2) = data_ (ctx_store c').
Proof.
  intros base Hseq Hn Hf H He Hsp Hdisk Hrdb.
  pose proof (serves_faithful sin cos asin base (aof_of i) seq c ws0 ws c' Hseq Hn Hf H) as Hf'.
  split; [done|]. destruct Hf' as ((m & _ & _ & Hlog) & Hw & Hs & d & Hr & ->).
  apply (restore_faithful sin cos asin i seq (ws0 ++ ws)); try done. by rewrite Hdisk.
Qed.

(** C21: a command that was refused is still logged.  A client that has not authenticated,
    where the default user has a password, sends a write command: it is answered with
    NOAUTH and the keyspace stays as it is.  But the command is appended to the log, so
    that the log no longer accounts for the keyspace: a server that starts on these files
    executes the command. *)
Theorem refused_write_is_replayed (sin cos asin : double -> double) (env_at : nat -> env) (has_send : bool) (fd : Z)
    (args : list bytes) (c : CommandContext) (conn : Connection) (i : start_input) (seq : Z) (ws : list (list bytes))
    (d d' : keyspace) (reply : bytes) :
  let base := dir (server_config i) in
  0 <= seq -> conn_of fd c = Some conn -> authenticated_ conn = false -> default_nopass c = false ->
  in_subscribed_mode fd c = false -> args <> [] -> command_name args ∈ kWriteCommands ->
  clockless (command_name args) args -> sendable args -> faithful_log base (aof_of i) seq ws c ->
  data_ (ctx_store c) = timeless d -> write_spec (command_name args) args d = Ret (reply, d') ->
  exists r c', run_commands sin cos asin env_at 0 has_send fd [args] 0 [] c = Ret (r, c')
    /\ out c' = out c ++ [Emit noauth] /\ data_ (ctx_store c') = timeless d
    /\ (enabled (aof_of i) = true -> spaceless (appendfilename_ (aof_of i)) -> disk i = files c' ->
        prepared_disk i !! path_join base (dbfilename (server_config i)) = None ->
        exists c2, restore sin cos asin i (server_config i) = Ret c2 /\ data_ (ctx_store c2) = timeless d').
Proof.
  intros base Hseq Hco Ha Hn Hsub Hne Hw Hcl Hs (Hl & Hws & Hss & d0 & Hr & Hd0) Hd Hspec.
  assert (d0 = d) as -> by (apply timeless_inj; congruence).
  destruct (refused_run sin cos asin base (aof_of i) seq env_at 0 has_send fd args 0 [] ws c conn)
    as (r & c' & Hrun & Ho & Hst & m & _ & _ & Hl'); try done.
  exists r, c'. split_and!; [done|done|by rewrite Hst|]. intros He Hsp Hdisk Hrdb.
  apply (restore_faithful sin cos asin i seq (ws ++ [args])); try done.
  - by rewrite Hdisk.
  - apply Forall_app. split; [done|]. by apply Forall_singleton.
  - apply Forall_app. split; [done|]. by apply Forall_singleton.
  - rewrite replays_app, Hr. cbn [mbind outcome_bind replays]. by rewrite Hspec.
Qed.

(** A server with an empty log; a client connects and sends two buffers. *)
Definition live_input (f : fs) : start_input :=
  mkStartInput (bs <$> ["--dir"; "/d"; "--appendonly"; "yes"]%string) (bs "/") (fun _ => None) f
    (mkListenCalls 3 0 (fun _ => 0) 0) restart_clock (restart_clock 0) (mkSocket AddressUnknown [] [] [] [])
    (fun _ => restart_clock).
Definition live_start : CommandContext :=
  wire_up (bs "/d") (aof_of (live_input ∅)) (new_handler empty_store (server_config (live_input ∅)) None (prepared_disk (live_input ∅))).
Definition live_connected : CommandContext := with_pool (Some (pool_add 7 empty_pool)) live_start.
Definition live_first : list (list bytes) := [bs <$> ["set"; "k"; "41"]; bs <$> ["INCR"; "k"]; bs <$> ["GET"; "k"]]%string.
Definition live_second : list (list bytes) :=
  [bs <$> ["RPUSH"; "l"; "a"; "b"]; bs <$> ["INCR"; "l"]; bs <$> ["XADD"; "x"; "5-*"; "f"; "v"]; bs <$> ["ZADD"; "z"; "1.5"; "m"; "bad"; "n"]]%string.
Definition after_buffer (fd : Z) (cmds : list (list bytes)) (c : CommandContext) : CommandContext :=
  match process_with_fd id id id restart_clock true fd (encode_all cmds) c with Ret (_, c') => c' | _ => c end.
Definition live_end : CommandContext := after_buffer 7 live_second (after_buffer 7 live_first live_connected).

(** The default user has a password; the client has not given it. *)
Definition locked_ctx : CommandContext := with_acl (set_password (bs "default") (bs "pw") (acl_manager live_connected)) live_connected.
Definition locked_args : list bytes := bs <$> ["SET"; "k"; "v"]%string.
Definition locked_end : CommandContext :=
  match run_commands id id id restart_clock 0 true 7 [locked_args] 0 [] locked_ctx with Ret (_, c) => c | _ => locked_ctx end.
Definition locked_keyspace : keyspace := {[ bs "k" := VString (bs "v") ]}.

Lemma refused_write_is_replayed_witness :
  exists c2, data_ (ctx_store locked_end) = ∅
    /\ restore id id id (live_input (files locked_end)) (server_config (live_input (files locked_end))) = Ret c2
    /\ data_ (ctx_store c2) = timeless locked_keyspace.
Proof.
  destruct (refused_write_is_replayed id id id restart_clock true 7 locked_args locked_ctx (new_connection 7)
    (live_input (files locked_end)) 1 [] ∅ locked_keyspace kRespOk) as (r & c' & Hrun & _ & Hd & Hre).
  - done.
  - by vm_compute.
  - done.
  - by vm_compute.
  - by vm_compute.
  - done.
  - apply (bool_decide_unpack _). by vm_compute.
  - apply (bool_decide_unpack _). by vm_compute.
  - apply (bool_decide_unpack _). by vm_compute.
  - split; [eexists; split; [by vm_compute|split; by vm_compute]|]. split; [constructor|]. split; [constructor|].
    exists ∅. by split.
  - by vm_compute.
  - by vm_compute.
  - assert (c' = locked_end) as -> by (unfold locked_end; by rewrite Hrun).
    destruct Hre as (c2 & H1 & H2); [by vm_compute|apply (bool_decide_unpack _); by vm_compute|done|by vm_compute|].
    exists c2. split; [rewrite Hd; by vm_compute|]. split; [exact H1|exact H2].
Defined.

Lemma elsewhere_pool p c : nobody_waits c -> elsewhere c (with_pool p c).
Proof. done. Qed.

Lemma live_nobody : nobody_waits live_start.
Proof. by vm_compute. Qed.

Lemma serve_buffer cmds c ws c' :
  Forall replayable_command cmds -> Forall sendable cmds -> served 7 c ->
  match process_with_fd id id id restart_clock true 7 (encode_all cmds) c with Ret _ => true | _ => false end = true ->
  serves id id id (after_buffer 7 cmds c) ws c' -> serves id id id c (writes_of cmds ++ ws) c'.
Proof.
  intros H1 H2 H3 H4. unfold after_buffer.
  destruct (process_with_fd _ _ _ _ _ _ _ _) as [[r c1]| |] eqn:E; [|done..]. by eapply serves_buffer.
Qed.

Lemma live_serves : serves id id id live_start (writes_of live_first ++ writes_of live_second ++ []) live_end.
Proof.
  apply (serves_elsewhere _ _ _ _ live_connected); [apply elsewhere_pool, live_nobody|].
  apply serve_buffer; [apply (bool_decide_unpack _); by vm_compute..|by vm_compute|].
  apply serve_buffer; [apply (bool_decide_unpack _); by vm_compute..|by vm_compute|].
  apply serves_nothing.
Qed.

Lemma log_replays_server_witness :
  exists c2, restore id id id (live_input (files live_end)) (server_config (live_input (files live_end))) = Ret c2
    /\ data_ (ctx_store c2) = data_ (ctx_store live_end)
    /\ data_ (ctx_store live_end) !! bs "k" = Some (mkEntry (VString (bs "42")) None)
    /\ data_ (ctx_store live_end) !! bs "l" = Some (mkEntry (VList (bs <$> ["a"; "b"]%string)) None).
Proof.
  destruct (log_replays_server id id id (live_input (files live_end)) 1 [] (writes_of live_first ++ writes_of live_second ++ [])
    live_start live_end) as (_ & c2 & H1 & H2).
  - done.
  - exact live_nobody.
  - split; [eexists; split; [by vm_compute|split; by vm_compute]|]. split; [constructor|]. split; [constructor|].
    exists ∅. by split.
  - exact live_serves.
  - by vm_compute.
  - apply (bool_decide_unpack _). by vm_compute.
  - done.
  - by vm_compute.
  - exists c2. split_and!; [done|done|by vm_compute..].
Defined.
