(* ===== verification/ServerInvariants.v ===== *)
(** * The server as a whole

    What holds of the server from its start on, whatever its clients, its replicas, its
    master and the kernel do: the keyspace, the managers, the connections and what
    [epoll] watches. *)

From S2P Require Import Prelude Text StreamIds RespCodec Scores SortedSets Store StoreSteps.
From S2P Require Import BlockingManager PubSub Connection Sha256 Acl ReplicaManager Doubles Aof Geo.
From S2P Require Import Context Cli Rdb StringCommands ListCommands StreamCommands ZsetCommands.
From S2P Require Import GeoCommands PubsubCommands ServerCommands CommandHandler ReplicaConnector.
From S2P Require Import EventLoop EventDispatch HandlerTrace HandlerInvariants Main.

(** No NaN scores are queued, [fds] are the open connections, and the managers keep
    their invariants. *)
Definition server_policy (fds : gset Z) (seen : option Z) : policy :=
  mkPolicy (fun args => True -> numeric args) fds True seen.
Definition ctx_fine (fds : gset Z) (c : CommandContext) : Prop :=
  ctx_ok (server_policy fds (replica_count_fn c)) c.

(** The descriptor of the connection to a master. *)
Definition master_fds (ev : EventContext) : gset Z :=
  match replica_conn ev with Some r => {[ rc_fd_ r ]} | None => ∅ end.

Record server_ok (ev : EventContext) : Prop := {
  so_data : data_wf (data_ (ctx_store (ec_handler ev)));
  so_ctx : ctx_fine (dom (connections_ (pool ev))) (ec_handler ev);
  so_loop : loop ev = {[ listener ev ]} ∪ dom (connections_ (pool ev)) ∪ master_fds ev;
  so_listener : listener ev ∉ dom (connections_ (pool ev)) ∪ master_fds ev;
  so_master : dom (connections_ (pool ev)) ## master_fds ev;
  so_replicas : NoDup (r_fd <$> replicas_ (replica_mgr ev));
  so_connected : Forall (fun r => r_fd r ∈ dom (connections_ (pool ev))) (replicas_ (replica_mgr ev))
}.

(** What is asked of the outside at an event: [epoll] reports what it watches, [accept]
    returns a descriptor that is not in use, the system clock fits its type, and no ZADD
    that arrives has a NaN for a score. *)
Definition numeric_input (data : bytes) : Prop := Forall numeric (commands_of (length data) data).

Definition clock_fine (i : event_input) : Prop := forall j k, 0 <= sys_ms (clock i j k) <= INT64_MAX.

Definition event_checked (ev : EventContext) (fd : Z) (i : event_input) : Prop :=
  fd ∈ loop ev
  /\ (0 <= accepted i -> accepted i ∉ loop ev)
  /\ match read_from fd (available i) (pool ev) with
     | Ret (_, Some data, _) => numeric_input data
     | _ => True
     end
  /\ match replica_conn ev with
     | Some r => match process_propagated_commands (master_socket ev) r with
                 | Ret (Some b, _, _) => Forall numeric_input (commands b)
                 | _ => True
                 end
     | None => True
     end.

Definition event_fine (ev : EventContext) (fd : Z) (i : event_input) : Prop :=
  clock_fine i /\ event_checked ev fd i.

#[export] Instance numeric_input_dec data : Decision (numeric_input data).
Proof. unfold numeric_input. apply _. Defined.

#[export] Instance event_checked_dec ev fd i : Decision (event_checked ev fd i).
Proof.
  unfold event_checked. repeat apply and_dec; [apply _..| |].
  - destruct (read_from _ _ _) as [[[? [?|]] ?]| |]; apply _.
  - destruct (replica_conn ev); [|apply _].
    destruct (process_propagated_commands _ _) as [[[[?|] ?] ?]| |]; apply _.
Defined.

(** ** The handler *)
Section server.
  Context (sin cos asin : double -> double).
  Notation process := (process sin cos asin).
  Notation process_with_fd := (process_with_fd sin cos asin).
  Notation dispatch_event := (dispatch_event sin cos asin).

Lemma handler_keeps fds env_at has_send fd input c r c' :
  (forall i, 0 <= sys_ms (env_at i) <= INT64_MAX) -> numeric_input input ->
  data_wf (data_ (ctx_store c)) -> ctx_fine fds c ->
  process_with_fd env_at has_send fd input c = Ret (r, c') ->
  data_wf (data_ (ctx_store c')) /\ ctx_fine fds c'.
Proof.
  intros He Hn Hd Hc H.
  destruct (trace_process_with_fd sin cos asin True fds True (replica_count_fn c) env_at has_send fd input c r c')
    as (Hc' & tr & Ht & Hr); [|done..|].
  { eapply Forall_impl; [exact Hn|]. by intros args Ha _. }
  split; [|unfold ctx_fine; by rewrite (co_replicas _ _ Hc')]. eapply run_ops_wf; [|done..].
  eapply Forall_impl; [exact Ht|]. intros x [[j ->] Hx]. split; [apply He|by apply Hx].
Qed.

Lemma process_keeps fds env_at input c r c' :
  (forall i, 0 <= sys_ms (env_at i) <= INT64_MAX) -> numeric_input input ->
  data_wf (data_ (ctx_store c)) -> ctx_fine fds c ->
  process env_at input c = Ret (r, c') ->
  data_wf (data_ (ctx_store c')) /\ ctx_fine fds c'.
Proof.
  intros He Hn Hd Hc. unfold CommandHandler.process.
  destruct (CommandHandler.process_with_fd _ _ _ _ _ _ _ _) as [[r1 c1]| |] eqn:E; [|done..].
  intros [= <- <-]. eapply handler_keeps in E as [Hd1 Hc1]; [|done..|by apply ctx_ok_out].
  split; [done|by apply ctx_ok_out].
Qed.

Lemma process_each_keeps fds clk cmds : forall i c c',
  (forall j k, 0 <= sys_ms (clk j k) <= INT64_MAX) -> Forall numeric_input cmds ->
  data_wf (data_ (ctx_store c)) -> ctx_fine fds c ->
  process_each sin cos asin i clk cmds c = Ret c' ->
  data_wf (data_ (ctx_store c')) /\ ctx_fine fds c'.
Proof.
  induction cmds as [|cmd cmds IH]; intros i c c' He Hn Hd Hc H; cbn [process_each] in H; [by simplify_eq|].
  apply Forall_cons in Hn as [Hcmd Hn].
  destruct (CommandHandler.process _ _ _ _ _ _) as [[r1 c1]| |] eqn:E; [|done..].
  eapply process_keeps in E as [Hd1 Hc1]; [|done..]. eapply IH; [done..|exact H].
Qed.

End server.

(** ** The pool *)
Lemma handle_read_tx incoming conn conn' view rest :
  handle_read incoming conn = Ret (conn', view, rest) -> tx_ conn' = tx_ conn.
Proof.
  unfold handle_read. intros H.
  assert (Hc : forall c1, compact conn = Ret c1 -> tx_ c1 = tx_ conn).
  { unfold compact. intros c1. destruct (0 <? read_pos_ conn); [|by intros [= <-]].
    destruct (if 0 <? _ then _ else _); [|done..]. by intros [= <-]. }
  destruct (compact conn) as [c1| |]; [|done..]. cbn [mbind outcome_bind] in H.
  assert (Hg : tx_ (grow c1) = tx_ conn) by (unfold grow; destruct (_ && _); apply (Hc c1 eq_refl)).
  destruct (_ <=? 0); [by simplify_eq|]. destruct (_ <=? zlen _); [by simplify_eq|done].
Qed.

Section pool.
  Context (fds : gset Z).
  Notation fine := (pool_fine True fds).

Lemma fine_read fd incoming p p' view rest :
  fine p -> read_from fd incoming p = Ret (p', view, rest) -> fine p'.
Proof.
  intros Hp. unfold read_from. destruct (connections_ p !! fd) as [conn|] eqn:E; [|by intros [= <- <- <-]].
  destruct (handle_read incoming conn) as [[[conn' v] r]| |] eqn:Eh; [|done..]. intros [= <- <- <-].
  eapply pool_fine_put; [done..|]. rewrite (handle_read_tx _ _ _ _ _ Eh). exact (proj1 Hp fd conn E).
Qed.

Lemma fine_consume fd n p : fine p -> fine (pool_consume fd n p).
Proof.
  intros Hp. unfold pool_consume. destruct (connections_ p !! fd) as [conn|] eqn:E; [|done].
  eapply pool_fine_put; [done..|]. exact (proj1 Hp fd conn E).
Qed.

Lemma fine_flush sends p : fine p -> fine (flush_all sends p).1.
Proof.
  intros Hp. unfold flush_all.
  assert (H : forall l cs w, fine (mkConnectionPool cs []) ->
    fine (mkConnectionPool (fold_left (flush_step sends) l (cs, w)).1 [])).
  { induction l as [|fd l IH]; intros cs w Hcs; [done|]. cbn [fold_left]. unfold flush_step at 2. cbn [fst].
    destruct (cs !! fd) as [conn|] eqn:E; [|by apply IH].
    destruct (flush (sends fd) conn) as [conn' out] eqn:Ef. apply IH.
    apply (pool_fine_put True fds fd conn (set_dirty false conn') (mkConnectionPool cs []) Hcs E).
    assert (tx_ conn' = tx_ conn) as Ht.
    { unfold flush in Ef. destruct (_ || _); by simplify_eq. }
    simpl. rewrite Ht. exact (proj1 Hcs fd conn E). }
  specialize (H (dirty_fds_ p) (connections_ p) []). destruct (fold_left _ _ _) as [cs w]. by apply H.
Qed.

Lemma fine_send_each {A} (f : A -> Z) (msg : A -> bytes) l p :
  fine p -> fine (fold_left (fun p x => send_to (f x) (msg x) p) l p).
Proof. revert p. induction l as [|x l IH]; intros p Hp; [done|]. simpl. by apply IH, pool_fine_send. Qed.
End pool.

(** ** Sets of descriptors *)
Lemma drop_master (l m : Z) (D : gset Z) :
  l ∉ D ∪ {[ m ]} -> D ## {[ m ]} -> remove_fd m ({[ l ]} ∪ D ∪ {[ m ]}) = {[ l ]} ∪ D ∪ ∅.
Proof. unfold remove_fd. set_solver. Qed.

Lemma drop_client (l fd : Z) (D M : gset Z) :
  fd <> l -> fd ∉ M -> remove_fd fd ({[ l ]} ∪ D ∪ M) = {[ l ]} ∪ (D ∖ {[ fd ]}) ∪ M.
Proof. unfold remove_fd. set_solver. Qed.

Lemma add_client (l fd : Z) (D M : gset Z) : add_fd fd ({[ l ]} ∪ D ∪ M) = {[ l ]} ∪ ({[ fd ]} ∪ D) ∪ M.
Proof. unfold add_fd. set_solver. Qed.

(** ** Changes that keep the invariant *)
Lemma ctx_ok_fns fds rm c : ctx_fine fds c -> ctx_fine fds (with_fns rm c).
Proof. by intros []. Qed.

Lemma ctx_fine_pool fds ev : ctx_fine fds (ec_handler ev) -> pool_fine True fds (pool ev).
Proof.
  intros [[_ Hq] Hf _]. unfold pool. destruct (conn_pool (ec_handler ev)) as [p|]; [by split|].
  simpl in *. subst fds. split; [apply map_Forall_empty|apply dom_empty_L].
Qed.

(** Nothing changes but the inside of the handler and of the connections, and the
    offsets of the replicas. *)
Lemma server_ok_same ev ev' :
  server_ok ev -> data_wf (data_ (ctx_store (ec_handler ev'))) ->
  ctx_fine (dom (connections_ (pool ev))) (ec_handler ev') ->
  listener ev' = listener ev -> loop ev' = loop ev -> master_fds ev' = master_fds ev ->
  r_fd <$> replicas_ (replica_mgr ev') = r_fd <$> replicas_ (replica_mgr ev) ->
  server_ok ev'.
Proof.
  intros [Hd Hc Hl Hli Hm Hr Hcn] Hd' Hc' El Elo Em Er.
  pose proof (ctx_fine_pool _ _ Hc') as [_ Hdom]. simpl in Hdom.
  split; rewrite ?Hdom, ?El, ?Elo, ?Em, ?Er; try done.
  set (D := dom (connections_ (pool ev))) in *.
  assert (Forall (fun fd => fd ∈ D) (r_fd <$> replicas_ (replica_mgr ev'))) as H by (rewrite Er; by apply Forall_fmap).
  by apply Forall_fmap in H.
Qed.

Lemma server_ok_pool ev f :
  server_ok ev -> (forall fds p, pool_fine True fds p -> pool_fine True fds (f p)) -> server_ok (on_pool f ev).
Proof.
  intros Hok Hf. apply (server_ok_same ev); try done; [apply Hok|].
  apply ctx_ok_pool; [apply Hok|]. apply Hf, ctx_fine_pool, Hok.
Qed.

Lemma server_ok_handler ev c :
  server_ok ev -> data_wf (data_ (ctx_store c)) -> ctx_fine (dom (connections_ (pool ev))) c ->
  server_ok (with_handler c ev).
Proof. intros. by apply (server_ok_same ev). Qed.

Lemma server_ok_replica_mgr ev rm :
  server_ok ev -> r_fd <$> replicas_ rm = r_fd <$> replicas_ (replica_mgr ev) -> server_ok (with_replica_mgr rm ev).
Proof. intros Hok Hr. apply (server_ok_same ev); try done; apply Hok. Qed.

#[local] Hint Resolve pool_fine_send fine_consume fine_send_each : credis.

(** ** Messages to replicas and clients *)
Lemma send_to_replicas_keeps msg ev : server_ok ev -> server_ok (send_to_replicas msg ev).
Proof.
  intros Hok. apply server_ok_pool; [done|]. intros fds p.
  exact (fine_send_each fds r_fd (fun _ => msg) (replicas_ (replica_mgr ev)) p).
Qed.

Lemma propagate_all_keeps cmds : forall ev ev',
  server_ok ev -> propagate_all cmds ev = Ret ev' -> server_ok ev'.
Proof.
  induction cmds as [|raw cmds IH]; intros ev ev' Hok H; cbn [propagate_all] in H; [by simplify_eq|].
  unfold propagate in H. destruct (int64_of _) as [o| |]; [|done..]. cbn [mbind outcome_bind] in H.
  eapply IH; [|exact H]. apply send_to_replicas_keeps. by apply server_ok_replica_mgr.
Qed.

Lemma answer_wait_keeps fd now n t ev ev' : server_ok ev -> answer_wait fd now n t ev = Ret ev' -> server_ok ev'.
Proof.
  intros Hok. unfold answer_wait. destruct (_ || _).
  - intros [= <-]. apply server_ok_pool; auto with credis.
  - unfold start_wait. destruct (if t =? 0 then _ else _) as [d| |]; [|done..]. intros [= <-].
    apply send_to_replicas_keeps. by apply server_ok_replica_mgr.
Qed.

(** ** The master *)
Lemma propagated_fd s r b s' r' :
  process_propagated_commands s r = Ret (b, s', r') -> rc_fd_ r' = rc_fd_ r.
Proof.
  unfold process_propagated_commands, process_buffer_impl. destruct (rc_fd_ r <? 0); [by intros [= <- <- <-]|].
  destruct (read_from_master 4096 s) as [buf s1]. destruct (_ =? 0)%nat; [by intros [= <- <- <-]|].
  destruct (process_buffer_loop _ _ _ _) as [[[bu o] re]| |]; [|done..]. by intros [= <- <- <-].
Qed.

Lemma on_master_keeps sin cos asin fd i r ev ev' :
  server_ok ev -> event_fine ev fd i -> replica_conn ev = Some r ->
  on_master sin cos asin i r ev = Ret ev' -> server_ok ev'.
Proof.
  intros Hok (Hclk & _ & _ & _ & Hcmds) Hr. rewrite Hr in Hcmds. unfold on_master.
  destruct (process_propagated_commands _ r) as [[[b s] r']| |] eqn:E; [|done..]. cbn [mbind outcome_bind].
  apply propagated_fd in E. destruct b as [b|].
  - destruct (process_each _ _ _ _ _ _ _) as [c| |] eqn:Ep; [|done..]. intros [= <-].
    eapply process_each_keeps in Ep as [Hd Hc]; [|done..|apply Hok|apply ctx_ok_fns, Hok].
    apply (server_ok_same ev); try done. unfold master_fds. simpl. by rewrite Hr, E.
  - intros [= <-]. destruct Hok as [Hd Hc Hl Hli Hm Hrs Hcn]. unfold master_fds in *. rewrite Hr in *.
    split; try done; cbn [loop listener replica_conn with_loop with_replica_conn].
    + rewrite Hl, E. by apply drop_master.
    + clear -Hli. set_solver.
Qed.

(** ** Removals *)
Lemma remove_replica_perm fd rm :
  contains fd rm = true -> exists r, r_fd r = fd /\ replicas_ rm ≡ₚ r :: replicas_ (remove_replica fd rm).
Proof.
  unfold contains, remove_replica. destruct (find_index fd (replicas_ rm)) as [i|] eqn:E; [|done]. intros _.
  destruct (find_index_Some _ _ _ E) as (r & Hr & <-). exists r. split; [done|]. by apply swap_pop_perm.
Qed.

Lemma contains_fds fd rm : contains fd rm = true <-> fd ∈ r_fd <$> replicas_ rm.
Proof.
  unfold contains. induction (replicas_ rm) as [|r rs IH]; simpl; [by split; [|inversion 1]|].
  rewrite elem_of_cons. destruct (r_fd r =? fd) eqn:E; b2p; [split; auto|].
  destruct (find_index fd rs); simpl; rewrite <- ?IH; naive_solver.
Qed.

(** The replicas that stay are on other descriptors. *)
Lemma remove_replica_rest fd rm :
  NoDup (r_fd <$> replicas_ rm) ->
  NoDup (r_fd <$> replicas_ (remove_replica fd rm))
  /\ forall r, r ∈ replicas_ (remove_replica fd rm) -> r ∈ replicas_ rm /\ r_fd r <> fd.
Proof.
  intros Hn. destruct (contains fd rm) eqn:Ec.
  - destruct (remove_replica_perm fd rm Ec) as (r & <- & Hp). rewrite Hp, fmap_cons in Hn.
    apply NoDup_cons in Hn as [Hnot Hn]. split; [done|]. intros r' Hr'. split; [rewrite Hp; by right|].
    intros He. apply Hnot. by apply (list_elem_of_fmap_2' r_fd _ r').
  - assert (remove_replica fd rm = rm) as -> by (unfold remove_replica, contains in *; by destruct (find_index _ _)).
    split; [done|]. intros r Hr. split; [done|]. intros <-.
    assert (contains (r_fd r) rm = true) by (apply contains_fds; by apply list_elem_of_fmap_2). congruence.
Qed.

(** A connection is closed: it leaves the pool, the replicas and what is watched. *)
Lemma close_keeps fd ev c :
  server_ok ev -> fd <> listener ev -> fd ∉ master_fds ev ->
  data_wf (data_ (ctx_store c)) -> ctx_fine (dom (connections_ (pool ev))) c ->
  conn_pool c = conn_pool (ec_handler ev) ->
  server_ok (with_loop (remove_fd fd (loop ev)) (on_pool (pool_remove fd)
    (with_handler c (with_replica_mgr (remove_replica fd (replica_mgr ev)) ev)))).
Proof.
  intros [Hd Hc Hl Hli Hm Hr Hcn] Hfl Hfm Hd' [Hq Hf Hw] Hp.
  set (D := dom (connections_ (pool ev))) in *.
  assert (pool (with_handler c (with_replica_mgr (remove_replica fd (replica_mgr ev)) ev)) = pool ev) as Hpool
    by (unfold pool; simpl; by rewrite Hp).
  assert (dom (connections_ (pool_remove fd (pool ev))) = D ∖ {[ fd ]}) as HD
    by (simpl; apply dom_delete_L).
  destruct (remove_replica_rest fd (replica_mgr ev) Hr) as [Hn Hrest].
  split; unfold on_pool; rewrite Hpool; cbn -[dom pool_remove]; rewrite ?HD; try done.
  - split; [|simpl; apply dom_delete_L|done..]. split; [apply Hq|]. simpl. apply map_Forall_delete.
    pose proof (ctx_fine_pool _ ev Hc) as [Hfine _]. apply Hfine.
  - rewrite Hl. by apply drop_client.
  - change (master_fds _) with (master_fds ev). clear -Hli. set_solver.
  - change (master_fds _) with (master_fds ev). clear -Hm. set_solver.
  - apply Forall_forall. intros r [Hin Hne]%Hrest. rewrite Forall_forall in Hcn. apply Hcn in Hin. set_solver.
Qed.

(** ** The branches of [dispatch_event] *)
Lemma server_ok_read fd incoming ev p data rest :
  server_ok ev -> read_from fd incoming (pool ev) = Ret (p, data, rest) -> server_ok (on_pool (fun _ => p) ev).
Proof.
  intros Hok Hr. apply (server_ok_same ev); try done; [apply Hok|].
  apply ctx_ok_pool; [apply Hok|]. eapply fine_read; [|exact Hr]. apply ctx_fine_pool, Hok.
Qed.

Lemma process_ack_fds fd data rm rm' a :
  process_ack fd data rm = Ret (rm', a) -> r_fd <$> replicas_ rm' = r_fd <$> replicas_ rm.
Proof.
  unfold process_ack. destruct (find_index fd (replicas_ rm)) as [j|] eqn:E; [|by intros [= <- <-]].
  destruct (find_index_Some _ _ _ E) as (r & Hr & _). rewrite Hr. cbn [default].
  destruct (ack_loop _ _ _ _) as [[n o]| |]; [|done..]. cbn [mbind outcome_bind].
  set (rm1 := set_replicas _ rm).
  assert (r_fd <$> replicas_ rm1 = r_fd <$> replicas_ rm) as Hfd.
  { unfold rm1. cbn. rewrite list_fmap_insert. apply list_insert_id. by rewrite list_lookup_fmap, Hr. }
  unfold finish_wait. destruct (wait_state_ rm1) as [w|]; [destruct (_ <=? _)|]; intros [= <- <-]; exact Hfd.
Qed.

Lemma on_replica_keeps fd i ev ev' :
  server_ok ev -> fd ∉ master_fds ev -> contains fd (replica_mgr ev) = true ->
  on_replica fd i ev = Ret ev' -> server_ok ev'.
Proof.
  intros Hok Hm Hc. unfold on_replica.
  destruct (read_from fd (available i) (pool ev)) as [[[p data] rest]| |] eqn:Er; [|done..]. cbn [mbind outcome_bind].
  pose proof (server_ok_read _ _ _ _ _ _ Hok Er) as Hok1. set (ev1 := on_pool (fun _ => p) ev) in *.
  destruct data as [data|].
  - destruct (process_ack fd data (replica_mgr ev1)) as [[rm a]| |] eqn:Ea; [|done..]. intros [= <-].
    assert (server_ok (on_pool (pool_consume fd (ack_consumed a)) (with_replica_mgr rm ev1))) as Hok2.
    { apply server_ok_pool; [|auto with credis].
      apply server_ok_replica_mgr; [done|by eapply process_ack_fds]. }
    destruct (ack_wait a); [|done]. apply server_ok_pool; auto with credis.
  - intros [= <-].
    assert (fd <> listener ev1).
    { intros ->. apply contains_fds, list_elem_of_fmap_1 in Hc as (r & He & Hin).
      destruct Hok as [_ _ _ Hli _ _ Hcn]. rewrite Forall_forall in Hcn. apply Hcn in Hin.
      rewrite <- He in Hin. apply Hli. by apply elem_of_union_l. }
    apply (close_keeps fd ev1 (ec_handler ev1)); try done; apply Hok1.
Qed.

Lemma on_listener_keeps fd i ev : server_ok ev -> event_fine ev fd i -> server_ok (on_listener i ev).
Proof.
  intros Hok (_ & _ & Hfresh & _). pose proof Hok as [Hd [[Ht Hp] Hf Hw] Hl Hli Hm Hr Hcn].
  unfold on_listener, accept_connection. destruct (accepted i <? 0) eqn:E; b2p; [done|]. specialize (Hfresh E). set (a := accepted i) in *.
  assert (dom (connections_ (pool_add a (pool ev))) = {[ a ]} ∪ dom (connections_ (pool ev))) as HD
    by (apply dom_insert_L).
  rewrite Hl in Hfresh. set (D := dom (connections_ (pool ev))) in *.
  split; unfold on_pool; cbn -[dom pool_add]; rewrite ?HD; try done.
  - split; [|exact HD|done..]. split; [done|]. simpl. apply map_Forall_insert_2; [done|].
    destruct (ctx_fine_pool D ev (so_ctx ev Hok)) as [Hfine _]. apply Hfine.
  - rewrite Hl. apply add_client.
  - change (master_fds _) with (master_fds ev). clear -Hli Hfresh. set_solver.
  - change (master_fds _) with (master_fds ev). clear -Hm Hfresh. set_solver.
  - eapply Forall_impl; [exact Hcn|]. intros r Hin. cbv beta in *. clear -Hin. set_solver.
Qed.

Lemma disconnect_keeps fd ev ev' :
  server_ok ev -> fd <> listener ev -> fd ∉ master_fds ev -> disconnect fd ev = Ret ev' -> server_ok ev'.
Proof.
  intros Hok Hl Hm. unfold disconnect. pose proof (so_ctx _ Hok) as [Hq Hf Hw]. specialize (Hw I).
  assert (forall bm, match blocking_manager (ec_handler ev) with
                     | Some bm => bm ← unblock_client fd bm; Ret (Some bm)
                     | None => Ret None
                     end = Ret bm -> match bm with Some bm => blocking_wf bm | None => True end) as Hbm.
  { intros bm. destruct Hw as [Hb _]. destruct (blocking_manager (ec_handler ev)) as [bm0|]; [|by intros [= <-]].
    destruct (unblock_client fd bm0) as [bm1| |] eqn:E; [|done..]. intros [= <-].
    by eapply bm_step_wf; [eapply step_unblock|]. }
  cbn -[unblock_client].
  destruct (match blocking_manager (ec_handler ev) with Some _ => _ | None => _ end) as [bm| |]; [|done..].
  specialize (Hbm bm eq_refl). cbn [mbind outcome_bind]. intros [= <-].
  apply (close_keeps fd ev (with_pubsub _ (with_blocking bm (ec_handler ev)))); try done; [apply Hok|].
  split; [done..| |done]. intros _. split; [done|]. simpl. destruct Hw as [_ Hps].
  destruct (pubsub_manager (ec_handler ev)); [|done]. by apply unsubscribe_all_wf.
Qed.

Lemma read_some_open fd incoming p p' data rest :
  read_from fd incoming p = Ret (p', Some data, rest) -> fd ∈ dom (connections_ p).
Proof.
  unfold read_from. destruct (connections_ p !! fd) as [conn|] eqn:E; [|done]. intros _. by apply elem_of_dom_2 in E.
Qed.

Lemma add_replica_keeps fd ev :
  server_ok ev -> fd ∈ dom (connections_ (pool ev)) -> contains fd (replica_mgr ev) = false ->
  server_ok (with_replica_mgr (add_replica fd (replica_mgr ev)) ev).
Proof.
  intros [Hd Hc Hl Hli Hm Hr Hcn] Hin Hno. split; try done; cbn.
  - rewrite fmap_app. apply NoDup_app. split; [done|]. split; [|cbn; apply NoDup_singleton].
    intros x Hx [->|Hx2]%elem_of_cons; [|by inversion Hx2]. change (r_fd (mkReplicaState fd 0)) with fd in Hx.
    apply contains_fds in Hx. congruence.
  - apply Forall_app. by split; [|constructor].
Qed.

Lemma on_client_keeps sin cos asin fd i ev ev' :
  server_ok ev -> event_fine ev fd i -> fd <> listener ev -> fd ∉ master_fds ev ->
  contains fd (replica_mgr ev) = false ->
  on_client sin cos asin fd i ev = Ret ev' -> server_ok ev'.
Proof.
  intros Hok (Hclk & _ & _ & Hnum & _) Hl Hm Hno. unfold on_client.
  destruct (read_from fd (available i) (pool ev)) as [[[p data] rest]| |] eqn:Er; [|done..]. cbn [mbind outcome_bind].
  pose proof (server_ok_read _ _ _ _ _ _ Hok Er) as Hok1.
  pose proof (fine_read (dom (connections_ (pool ev))) _ _ _ _ _ _ (ctx_fine_pool _ ev (so_ctx ev Hok)) Er) as [_ Hdom].
  destruct data as [data|]; [|by apply disconnect_keeps].
  apply read_some_open in Er as Hopen. set (ev1 := on_pool (fun _ => p) ev) in *.
  destruct (process_with_fd _ _ _ _ _ _ _ _) as [[result c]| |] eqn:Ep; [|done..]. cbn [mbind outcome_bind].
  eapply handler_keeps in Ep as [Hd Hc]; [|done..|apply Hok1|apply ctx_ok_fns, Hok1].
  set (ev2 := on_pool (pool_consume fd (consumed result)) (with_handler c ev1)).
  assert (server_ok ev2) as Hok2.
  { apply server_ok_pool; [by apply server_ok_handler|auto with credis]. }
  assert (fd ∈ dom (connections_ (pool ev2))) as Hopen2.
  { pose proof (fine_consume _ fd (consumed result) _
      (ctx_fine_pool _ (with_handler c ev1) Hc)) as [_ Hd2]. simpl in Hd2. cbn -[dom pool_consume].
    rewrite Hd2. cbn -[dom]. simpl in Hdom. by rewrite Hdom. }
  destruct (match state result with Wait _ _ => _ | _ => _ end) as [ev3| |] eqn:Es; [|done..].
  cbn [mbind outcome_bind]. apply propagate_all_keeps.
  destruct (state result); simplify_eq; try done;
    [exact (add_replica_keeps fd ev2 Hok2 Hopen2 Hno)|by eapply answer_wait_keeps].
Qed.

Lemma dispatch_keeps sin cos asin fd i ev ev' :
  server_ok ev -> event_fine ev fd i -> dispatch_event sin cos asin fd i ev = Ret ev' -> server_ok ev'.
Proof.
  intros Hok Hf. unfold dispatch_event.
  assert (fd ∉ master_fds ev ->
    (if contains fd (replica_mgr ev) then on_replica fd i ev
     else if fd =? listener ev then Ret (on_listener i ev) else on_client sin cos asin fd i ev) = Ret ev' ->
    server_ok ev') as Hrest.
  { intros Hm. destruct (contains fd (replica_mgr ev)) eqn:Ec; [by eapply on_replica_keeps|].
    destruct (fd =? listener ev) eqn:El; b2p; [intros [= <-]; by eapply on_listener_keeps|].
    by eapply on_client_keeps. }
  unfold master_fds in Hrest. destruct (replica_conn ev) as [r|] eqn:Er; [|apply Hrest; set_solver].
  destruct (fd =? rc_fd_ r) eqn:Ef; b2p; [by eapply on_master_keeps|apply Hrest; set_solver].
Qed.

(** ** The turn of the loop *)
Lemma flush_pool_keeps sends ev ev' w : server_ok ev -> flush_pool sends ev = (ev', w) -> server_ok ev'.
Proof.
  intros Hok. unfold flush_pool. pose proof (fun fds => fine_flush fds sends (pool ev)) as Hf.
  destruct (flush_all sends (pool ev)) as [p w0]. intros [= <- <-].
  apply (server_ok_same ev); try done; [apply Hok|]. apply ctx_ok_pool; [apply Hok|].
  apply Hf, ctx_fine_pool, Hok.
Qed.

Lemma expire_blocked_keeps now ev : server_ok ev -> server_ok (expire_blocked now ev).
Proof.
  intros Hok. unfold expire_blocked. destruct (blocking_manager (ec_handler ev)) as [bm|] eqn:Eb; [|done].
  destruct (get_expired_clients now bm) as [bm' expired] eqn:Ee. apply server_ok_pool.
  - apply server_ok_handler; [done|apply Hok|]. pose proof (so_ctx _ Hok) as [Hq Hf Hw].
    split; [done..| |done]. intros _. destruct (Hw I) as [Hb Hp]. split; [|done]. rewrite Eb in Hb.
    replace bm' with (get_expired_clients now bm).1 by (by rewrite Ee). by eapply bm_step_wf; [apply step_expired|].
  - intros fds p. exact (fine_send_each fds id (fun _ => encode_null_array) expired p).
Qed.

Lemma expire_wait_keeps now ev : server_ok ev -> server_ok (expire_wait now ev).
Proof.
  intros Hok. unfold expire_wait, check_wait_timeout.
  destruct (wait_state_ (replica_mgr ev)) as [w|]; [|by apply server_ok_replica_mgr].
  destruct (now <? w_deadline w); [by apply server_ok_replica_mgr|].
  apply server_ok_pool; [by apply server_ok_replica_mgr|auto with credis].
Qed.

Lemma finish_rewrite_keeps status ev : server_ok ev -> server_ok (finish_rewrite status ev).
Proof.
  intros Hok. unfold finish_rewrite. destruct (aof_manager (ec_handler ev)) as [m|]; [|done].
  destruct (check_rewrite_complete _ _ _) as [[m' f] b]. apply server_ok_handler; [done|apply Hok|].
  destruct (so_ctx _ Hok) as [Hq Hf Hw]. by split.
Qed.

Lemma compute_timeout_keeps t ev ms ev' w :
  server_ok ev -> compute_timeout t ev = Ret (ms, ev', w) -> server_ok ev'.
Proof.
  intros Hok. unfold compute_timeout. destruct (flush_pool (sends_before t) ev) as [ev1 w1] eqn:E1.
  destruct (flush_pool (sends_after t) _) as [ev2 w2] eqn:E2.
  apply flush_pool_keeps in E1; [|done].
  apply flush_pool_keeps in E2; [|by apply finish_rewrite_keeps, expire_wait_keeps, expire_blocked_keeps].
  destruct (time_left _ _); [|done..]. by intros [= <- <- <-].
Qed.

(** ** The start *)
Lemma load_entries_wf now ms entries : forall st st',
  data_wf (data_ st) -> load_entries now ms entries st = Ret st' -> data_wf (data_ st').
Proof.
  assert (Hset : forall k v ttl st st', data_wf (data_ st) -> set now k v ttl st = Ret st' -> data_wf (data_ st')).
  { intros k v ttl st st' Hw H. apply (run_op_wf now 0 (OpSet k v ttl) st st'); done. }
  induction entries as [|[key entry] entries IH]; intros st st' Hw H; cbn [load_entries] in H; [by simplify_eq|].
  destruct (alt_get_if _) as [v|]; [|by eapply IH]. destruct (expire_ms entry) as [x|].
  - destruct (int64_of _) as [rem| |]; [|done..]. cbn [mbind outcome_bind] in H.
    destruct (rem <=? 0); [by eapply IH|].
    destruct (set now key v (Some rem) st) as [st1| |] eqn:E; [|done..]. eapply IH; [|exact H]. by eapply Hset.
  - destruct (set now key v None st) as [st1| |] eqn:E; [|done..]. eapply IH; [|exact H]. by eapply Hset.
Qed.

(** What is asked of the outside at the start: the clocks fit their type, no ZADD in the
    log or behind the snapshot has a NaN for a score, and the connection to the master
    is not on the listener's descriptor. *)
Definition start_fine (i : start_input) : Prop :=
  let config := server_config i in
  (forall k, 0 <= sys_ms (replay_clock i k) <= INT64_MAX)
  /\ (forall j k, 0 <= sys_ms (buffered_clock i j k) <= INT64_MAX)
  /\ numeric_input (read_aof_content (dir config) (aof_of i) (prepared_disk i))
  /\ match connect_if_replica config (parse_port (arguments i)) (socket_of i) with
     | (Some r, _) =>
         rc_fd_ r <> socket_fd (listen_calls_of i)
         /\ match process_pending_buffer r with
            | Ret (b, _) => Forall numeric_input (commands b)
            | _ => True
            end
     | (None, _) => True
     end.

Lemma create_fd port k fd : (create port k).1 = inr fd -> fd = socket_fd k.
Proof. unfold create. repeat (case_match; [done|]). by intros [= <-]. Qed.

Lemma restore_keeps sin cos asin i c :
  start_fine i -> restore sin cos asin i (server_config i) = Ret c ->
  data_wf (data_ (ctx_store c)) /\ ctx_fine ∅ c.
Proof.
  intros (Hclk & _ & Hn & _). unfold restore.
  set (f := prepared_disk i) in *. set (config := server_config i) in *.
  set (c0 := new_handler empty_store config (urandom i 1) f).
  assert (data_wf (data_ (ctx_store c0)) /\ ctx_fine ∅ c0) as [Hd0 Hc0].
  { split; [apply map_Forall_empty|]. split; [|done..]. split; [apply map_Forall_empty|done]. }
  set (content := read_aof_content _ _ _) in *.
  destruct (if bool_decide (content = []) then _ else _) as [c1| |] eqn:E; [|done..]. cbn [mbind outcome_bind].
  assert (data_wf (data_ (ctx_store c1)) /\ ctx_fine ∅ c1) as [Hd1 Hc1].
  { case_bool_decide; [by simplify_eq|].
    destruct (process _ _ _ _ _ _) as [[r c2]| |] eqn:Ep; [|done..].
    injection E as <-. eapply process_keeps; [exact Hclk|exact Hn|exact Hd0|exact Hc0|exact Ep]. }
  unfold load_into_store. destruct (_ || _).
  { intros [= <-]. split; [done|]. destruct Hc1. by split. }
  destruct (load_rdb_file _ _) as [entries| |]; [|done..]. cbn [mbind outcome_bind].
  destruct (load_entries _ _ _ _) as [st| |] eqn:El; [|done..]. intros [= <-].
  split; [by eapply load_entries_wf|]. destruct Hc1. by split.
Qed.

Lemma wire_up_ok base aof c : ctx_fine ∅ c -> ctx_fine ∅ (wire_up base aof c).
Proof.
  intros [[Ht _] _ _]. unfold wire_up. destruct (open base aof (files c)) as [aof' f].
  split; [split; [done|apply map_Forall_empty]|apply dom_empty_L| |done].
  intros _. split; [apply empty_blocking_ok|]. by apply ps_reach_wf.
Qed.

Lemma wire_up_data base aof c : ctx_store (wire_up base aof c) = ctx_store c.
Proof. unfold wire_up. by destruct (open base aof (files c)). Qed.

Lemma started_ok lfd c r s :
  data_wf (data_ (ctx_store c)) -> ctx_fine ∅ c ->
  match r with Some r => rc_fd_ r <> lfd | None => True end ->
  server_ok (mkEventContext lfd (match r with Some r => add_fd (rc_fd_ r) (add_fd lfd ∅) | None => add_fd lfd ∅ end)
               c new_replicas r s).
Proof.
  intros Hd Hc Hr. set (ev := mkEventContext _ _ _ _ _ _).
  destruct (ctx_fine_pool ∅ ev Hc) as [_ HD]. simpl in HD.
  split; rewrite ?HD; try done; unfold master_fds; cbn [ev loop listener replica_conn].
  - unfold add_fd. destruct r; clear; set_solver.
  - destruct r; clear -Hr; set_solver.
  - constructor.
Qed.

Lemma start_up_ok sin cos asin i ev :
  start_fine i -> start_up sin cos asin i = Ret (inr ev) -> server_ok ev.
Proof.
  intros Hf. unfold start_up. destruct (create _ _).1 as [err|lfd] eqn:El; [done|].
  apply create_fd in El as ->.
  destruct (restore sin cos asin i _) as [c| |] eqn:Er; [|done..]. cbn [mbind outcome_bind].
  destruct (restore_keeps _ _ _ _ _ Hf Er) as [Hd Hc]. destruct Hf as (_ & Hclk & _ & Hm).
  destruct (connect_if_replica _ _ _) as [[r|] s].
  - destruct Hm as [Hne Hn]. unfold catch_up, process_pending_buffer in *.
    destruct (process_buffer_impl r) as [[b r']| |] eqn:Eb; [|done..]. cbn [mbind outcome_bind].
    destruct (process_each _ _ _ _ _ _ _) as [c'| |] eqn:Ep; [|done..]. intros [= <-].
    eapply process_each_keeps in Ep as [Hd' Hc']; [|done..|by rewrite wire_up_data|by apply wire_up_ok].
    assert (rc_fd_ r' = rc_fd_ r) as Hfd.
    { unfold process_buffer_impl in Eb. destruct (process_buffer_loop _ _ _ _) as [[[? ?] ?]| |]; [|done..].
      by simplify_eq/=. }
    apply (started_ok _ c' (Some r')); [done..|]. by rewrite Hfd.
  - destruct (is_replica _); [done|]. intros [= <-].
    apply (started_ok _ _ None); [by rewrite wire_up_data|by apply wire_up_ok|done].
Qed.

(** * Properties *)

(** C1: the invariant of the whole server.  Start the program with any arguments, disk
    and master, and let its event loop turn with any clients, replicas and kernel, as
    long as [epoll] reports watched descriptors, [accept] returns unused ones, the
    system clock fits its type, no ZADD has a NaN for a score, and no call fails.  Then
    every stream of the keyspace is ordered and every sorted set is ordered with its two
    structures in agreement; the blocking manager's index has no dangling entry and the
    maps of the subscriptions mirror each other; the descriptors that are watched are
    exactly the listener, the open connections and the connection to the master, all
    different; and every replica is on an open connection of its own. *)
Theorem server_invariant (sin cos asin : double -> double) (i : start_input)
    (turns : list (turn timeout_input event_input (Z -> list Z))) (code : Z) (ev : EventContext) :
  start_fine i ->
  (forall ev0, start_up sin cos asin i = Ret (inr ev0) ->
     fine_run (dispatch_event sin cos asin) get_timeout on_flush event_fine turns ev0) ->
  main sin cos asin i turns = Ret (code, Some ev) ->
  data_wf (data_ (ctx_store (ec_handler ev)))
  /\ managers_ok (ec_handler ev)
  /\ loop ev = {[ listener ev ]} ∪ dom (connections_ (pool ev)) ∪ master_fds ev
  /\ listener ev ∉ dom (connections_ (pool ev)) ∪ master_fds ev
  /\ dom (connections_ (pool ev)) ## master_fds ev
  /\ NoDup (r_fd <$> replicas_ (replica_mgr ev))
  /\ Forall (fun r => r_fd r ∈ dom (connections_ (pool ev))) (replicas_ (replica_mgr ev)).
Proof.
  intros Hs Hf. unfold main. destruct (start_up sin cos asin i) as [[err|ev0]| |] eqn:E; cbn [mbind outcome_bind];
    [done| |done..].
  apply start_up_ok in E; [|done]. specialize (Hf _ eq_refl). unfold serve_turns.
  destruct (run _ _ _ _ _) as [[ev1 ts]| |] eqn:Er; [|done..]. intros [= <- <-].
  assert (server_ok ev1) as [Hd Hc Hl Hli Hm Hr Hcn].
  { eapply (run_keeps _ _ _ event_fine server_ok); [| | |exact E|exact Hf|exact Er].
    - intros fd j s s' Hok Hfine. by eapply dispatch_keeps.
    - intros t s ms s' Hok. unfold get_timeout. destruct (compute_timeout t s) as [[[ms0 s0] w]| |] eqn:Ec; [|done..].
      intros [= <- <-]. by eapply compute_timeout_keeps.
    - intros sends s Hok. unfold on_flush. destruct (flush_pool sends s) as [s0 w] eqn:Ef. by eapply flush_pool_keeps. }
  repeat split; try done; by apply Hc.
Qed.

(** A run: a client connects, fills a sorted set and leaves, while a replica joins. *)
Definition demo_clock (_ _ : nat) : env := mkEnv 5000000 5 true (child_at 5000000).
Definition demo_start : start_input :=
  mkStartInput (bs <$> ["--port"; "7000"]%string) (bs "/data") (fun _ => None) ∅ (mkListenCalls 3 0 (fun _ => 0) 0)
    (demo_clock 0) (demo_clock 0 0) (mkSocket AddressUnknown [] [] [] []) demo_clock.
Definition demo_turn (fd : Z) (data : bytes) (client : Z) : turn timeout_input event_input (Z -> list Z) :=
  mkTurn true (mkTimeoutInput (fun _ => [1000]) 6000000 6000000 ChildRunning (fun _ => [1000]) 6000000)
    (Ready [(fd, mkEventInput data client demo_clock 6000000)]) (fun _ => [1000]).
Definition demo_turns : list (turn timeout_input event_input (Z -> list Z)) :=
  [ demo_turn 3 [] 7; demo_turn 3 [] 8;
    demo_turn 8 (encode_array (bs <$> ["PSYNC"; "?"; "-1"]%string)) (-1);
    demo_turn 7 (encode_array (bs <$> ["ZADD"; "z"; "2"; "b"; "1"; "a"]%string)) (-1);
    demo_turn 7 [] (-1) ].

Lemma demo_start_fine : start_fine demo_start.
Proof.
  split; [by intros k; vm_compute|]. split; [by intros j k; vm_compute|]. split.
  - apply (bool_decide_unpack _). vm_compute. exact I.
  - vm_compute. exact I.
Qed.

Lemma server_invariant_witness :
  exists ev, main id id id demo_start demo_turns = Ret (0, Some ev)
    /\ data_wf (data_ (ctx_store (ec_handler ev)))
    /\ loop ev = {[ listener ev ]} ∪ dom (connections_ (pool ev)) ∪ master_fds ev
    /\ elements (loop ev) = [3; 8] /\ r_fd <$> replicas_ (replica_mgr ev) = [8].
Proof.
  assert (Hrun : exists ev, main id id id demo_start demo_turns = Ret (0, Some ev)
    /\ elements (loop ev) = [3; 8] /\ r_fd <$> replicas_ (replica_mgr ev) = [8])
    by (eexists; split_and!; vm_compute; reflexivity).
  destruct Hrun as (ev & Hrun & He & Hr). exists ev. split; [exact Hrun|].
  destruct (server_invariant id id id demo_start demo_turns 0 ev) as (Hd & _ & Hl & _).
  - exact demo_start_fine.
  - intros ev0 H0.
    assert (Hs : exists ev1, start_up id id id demo_start = Ret (inr ev1)
      /\ fine_run (dispatch_event id id id) get_timeout on_flush event_checked demo_turns ev1).
    { eexists. split; [vm_compute; reflexivity|]. apply (bool_decide_unpack _). vm_compute. exact I. }
    destruct Hs as (ev1 & H1 & Hf). rewrite H1 in H0. injection H0 as <-.
    apply (fine_run_and _ _ _ event_checked (fun _ i => clock_fine i)); [exact Hf|]. by repeat constructor.
  - exact Hrun.
  - split_and!; [exact Hd|exact Hl|exact He|exact Hr].
Defined.
