(* ===== verification/ServerSpec.v ===== *)
(** * What the server does at its events

    Theorems on server/event_dispatch.cpp together with the components it calls:
    the master and the replica of a replication, WAIT, disconnects and timeouts. *)

From S2P Require Import Prelude Text StreamIds RespCodec Scores SortedSets Store StoreSteps.
From S2P Require Import BlockingManager PubSub Connection Sha256 Acl ReplicaManager Doubles Aof Geo.
From S2P Require Import Context Cli Rdb ServerCommands CommandHandler ReplicaConnector.
From S2P Require Import EventLoop EventDispatch HandlerTrace HandlerInvariants HandlerSpec ClientSpec.

(** ** A replica that is wired like the server *)
Section replica.
  Context (sin cos asin : double -> double).

(** Without a client the handler looks for the connection of descriptor -1. *)
Lemma command_without_client env_at cmd c p :
  streamable cmd -> conn_pool c = Some p -> connections_ p !! (-1) = None ->
  in_subscribed_mode (-1) c = false ->
  process sin cos asin env_at (encode_array cmd) c = Throw StdOutOfRange.
Proof.
  intros (Hne & Hn & Hs) Hp Hno Hsub. unfold process, process_with_fd. cbn [mbind outcome_bind].
  pose proof (encode_array_nonempty cmd) as Hl.
  destruct (length (encode_array cmd)) as [|fuel] eqn:El; [lia|]. cbn [process_loop].
  rewrite El. cbn [Nat.leb].
  pose proof (parse_into_stream [] cmd [] (conj Hn Hs)) as Hpar. rewrite app_nil_r in Hpar.
  cbn [app length] in Hpar. rewrite Hpar. cbn [mbind outcome_bind].
  destruct cmd as [|name args]; [done|]. cbn [vec_at lookup list_lookup mbind outcome_bind].
  unfold process_single_command. mstep.
  change (in_subscribed_mode (-1) (with_out [] (with_out [] c))) with (in_subscribed_mode (-1) c). rewrite Hsub.
  cbn [andb]. unfold check_auth. mstep. cbn [conn_pool with_out].
  case_bool_decide; mstep.
  - unfold run_checked. mstep. cbn [conn_pool with_out]. rewrite Hp. mstep. unfold get_connection. by rewrite Hno.
  - rewrite Hp. mstep. unfold get_connection. by rewrite Hno.
Qed.
End replica.

(** ** Output that is put in front of connections *)

(** The bytes that wait to be written to [fd]. *)
Definition pending_to (fd : Z) (p : ConnectionPool) : bytes :=
  match connections_ p !! fd with Some conn => pending_write_ conn | None => [] end.

Lemma send_to_pending fd b p fd' :
  pending_to fd' (send_to fd b p)
  = pending_to fd' p ++ (if decide (fd' = fd) then match connections_ p !! fd with Some _ => b | None => [] end else []).
Proof.
  unfold pending_to, send_to. destruct (connections_ p !! fd) as [conn|] eqn:E.
  - unfold mark_dirty. destruct (dirty_ (send_data b conn)); simpl; case_decide; subst;
      rewrite ?lookup_insert_eq, ?lookup_insert_ne, ?E, ?app_nil_r by done; done.
  - case_decide; by rewrite app_nil_r.
Qed.

Lemma send_to_open fd b p fd' :
  is_Some (connections_ (send_to fd b p) !! fd') <-> is_Some (connections_ p !! fd').
Proof.
  unfold send_to. destruct (connections_ p !! fd) as [conn|] eqn:E; [|done].
  unfold mark_dirty. destruct (dirty_ _); simpl; destruct (decide (fd' = fd)) as [->|];
    rewrite ?lookup_insert_eq, ?lookup_insert_ne, ?E by done; naive_solver.
Qed.

Lemma send_each_open {A} (f : A -> Z) msg l fd : forall p,
  is_Some (connections_ (fold_left (fun p x => send_to (f x) msg p) l p) !! fd) <-> is_Some (connections_ p !! fd).
Proof. induction l as [|x l IH]; intros p; [done|]. simpl. by rewrite IH, send_to_open. Qed.

(** Each descriptor of a list without repetitions gets the message once, nobody else
    gets anything. *)
Lemma send_each_pending {A} (f : A -> Z) msg l fd : forall p,
  NoDup (f <$> l) -> (fd ∈ f <$> l -> is_Some (connections_ p !! fd)) ->
  pending_to fd (fold_left (fun p x => send_to (f x) msg p) l p)
  = pending_to fd p ++ (if bool_decide (fd ∈ f <$> l) then msg else []).
Proof.
  induction l as [|x l IH]; intros p Hn Ho; [by rewrite app_nil_r|]. cbn [fold_left].
  rewrite fmap_cons in *. apply NoDup_cons in Hn as [Hx Hn]. rewrite IH; [|done|].
  - rewrite send_to_pending, <- app_assoc. f_equal. destruct (decide (fd = f x)) as [->|Hne].
    + rewrite bool_decide_false, (bool_decide_true (f x ∈ _)) by (done || apply elem_of_cons; by left).
      destruct (Ho ltac:(apply elem_of_cons; by left)) as [conn ->]. apply app_nil_r.
    + simpl. apply (f_equal (fun b : bool => if b then msg else [])), bool_decide_ext.
      rewrite elem_of_cons. naive_solver.
  - intros Hin. apply send_to_open, Ho, elem_of_cons. by right.
Qed.

(** ** Propagation *)
Definition replica_fds (ev : EventContext) : list Z := r_fd <$> replicas_ (replica_mgr ev).

Lemma propagate_all_spec cmds : forall ev,
  NoDup (replica_fds ev) -> Forall (fun fd => is_Some (connections_ (pool ev) !! fd)) (replica_fds ev) ->
  0 <= master_offset_ (replica_mgr ev) -> master_offset_ (replica_mgr ev) + zlen (mjoin cmds) <= INT64_MAX ->
  exists ev', propagate_all cmds ev = Ret ev'
    /\ master_offset_ (replica_mgr ev') = master_offset_ (replica_mgr ev) + zlen (mjoin cmds)
    /\ replicas_ (replica_mgr ev') = replicas_ (replica_mgr ev)
    /\ forall fd, pending_to fd (pool ev')
         = pending_to fd (pool ev) ++ (if bool_decide (fd ∈ replica_fds ev) then mjoin cmds else []).
Proof.
  induction cmds as [|raw cmds IH]; intros ev Hn Ho H0 Hmax; cbn [propagate_all].
  { change (mjoin []) with ([] : bytes). change (zlen []) with 0. exists ev. split_and!; [done| |done|]; [by rewrite Z.add_0_r|]. intros fd. destruct (bool_decide _); by rewrite app_nil_r. }
  change (mjoin (raw :: cmds)) with (raw ++ mjoin cmds) in *.
  rewrite zlen_app in *. pose proof (zlen_nonneg raw). pose proof (zlen_nonneg (mjoin cmds)).
  unfold propagate. rewrite int64_of_ret by (unfold in_int64, INT64_MIN; lia). cbn [mbind outcome_bind].
  set (ev1 := send_to_replicas raw _).
  assert (forall fd, is_Some (connections_ (pool ev1) !! fd) <-> is_Some (connections_ (pool ev) !! fd)) as Hopen
    by (intros fd; apply send_each_open).
  destruct (IH ev1) as (ev' & -> & Hoff & Hrep & Hpend); [exact Hn| |cbn; lia..|].
  { eapply Forall_impl; [exact Ho|]. intros fd. apply Hopen. }
  exists ev'. split_and!; [done| |done|].
  - rewrite Hoff. cbn [ev1 send_to_replicas on_pool with_handler replica_mgr with_replica_mgr master_offset_]. lia.
  - intros fd. rewrite Hpend. change (replica_fds ev1) with (replica_fds ev).
    assert (pending_to fd (pool ev1)
            = pending_to fd (pool ev) ++ (if bool_decide (fd ∈ replica_fds ev) then raw else [])) as ->.
    { apply (send_each_pending r_fd raw (replicas_ (replica_mgr ev)) fd (pool ev)); [done|].
      rewrite Forall_forall in Ho. apply Ho. }
    destruct (bool_decide _); by rewrite <- app_assoc, ?app_nil_r.
Qed.

Section writes.
  Context (sin cos asin : double -> double).

Lemma single_keeps_count has_send fd args e c st c' :
  process_single_command sin cos asin has_send fd args (to_upper (default [] (head args))) e c = Ret (st, c') ->
  replica_count_fn c' = replica_count_fn c.
Proof.
  intros H. destruct (trace_single sin cos asin False _ False _ has_send fd args ltac:(by intros []) _ _ _ _ (any_ctx c) H)
    as [[_ _ _ Hr] _]. exact Hr.
Qed.

(** The write commands of a buffer, and only they, are handed to the replicas. *)
Lemma run_commands_props env_at has_send fd n cmds : 0 < n -> forall i total props c res c',
  replica_count_fn c = Some n ->
  run_commands sin cos asin env_at i has_send fd cmds total props c = Ret (res, c') -> state res = Normal ->
  propagate_cmds res = props ++ (encode_array <$> writes_of cmds).
Proof.
  intros Hn. induction cmds as [|args cmds IH]; intros i total props c res c' Hc H Hst; cbn [run_commands] in H.
  { simplify_eq/=. by rewrite app_nil_r. }
  destruct (process_single_command _ _ _ _ _ _ _ _ _) as [[st c1]| |] eqn:E; cbn [mbind outcome_bind] in H; [|done..].
  apply single_keeps_count in E. rewrite Hc in E. unfold writes_of. rewrite filter_cons. fold (writes_of cmds).
  assert (forall np c2, (if is_write_command (to_upper (default [] (head args))) then log_write (encode_array args) c1
     else ([], c1)) = (np, c2) -> replica_count_fn c2 = Some n
     /\ np = if is_write_command (to_upper (default [] (head args))) then [encode_array args] else []) as Hlw.
  { intros np c2. destruct (is_write_command _); [|by intros [= <- <-]]. unfold log_write. rewrite E.
    rewrite (proj2 (Z.ltb_lt _ _)) by done. by destruct (aof_manager c1); intros [= <- <-]. }
  destruct (if is_write_command _ then _ else _) as [np c2]. destruct (Hlw np c2 eq_refl) as [Hc2 ->].
  destruct st; [|by simplify_eq/=..].
  rewrite (IH _ _ _ _ _ _ Hc2 H Hst), <- app_assoc. f_equal.
  by destruct (is_write_command _).
Qed.

Lemma process_props env_at fd cmds n c result c' :
  Forall streamable cmds -> replica_count_fn c = Some n -> 0 < n ->
  process_with_fd sin cos asin env_at true fd (encode_all cmds) c = Ret (result, c') -> state result = Normal ->
  propagate_cmds result = encode_array <$> writes_of cmds.
Proof.
  intros Hs Hc Hn. unfold process_with_fd.
  destruct (match conn_pool c with Some _ => _ | None => _ end) as [c0| |] eqn:E0; cbn [mbind outcome_bind]; [|done..].
  assert (replica_count_fn c0 = Some n) as Hc0.
  { destruct (conn_pool c) as [p|]; [|by simplify_eq]. unfold get_pending_write in E0.
    destruct (get_connection fd p); [|done..]. by simplify_eq/=. }
  pose proof (process_loop_stream sin cos asin env_at true fd cmds []) as Hl. rewrite app_nil_r in Hl.
  specialize (Hl ltac:(eapply Forall_impl; [exact Hs|by intros ? []])
    ltac:(eapply Forall_impl; [exact Hs|by intros ? []]) (or_introl eq_refl) (length (encode_all cmds)) [] 0%nat []
    (with_out [] c0) ltac:(simpl; lia)). cbn [app length] in Hl. rewrite Hl.
  destruct (run_commands _ _ _ _ _ _ _ _ _ _ _) as [[r1 c1]| |] eqn:Er; [|done..]. intros [= <- <-] Hst.
  eapply run_commands_props in Er; [exact Er|exact Hn|exact Hc0|exact Hst].
Qed.
End writes.

(** A write command is never a request for an acknowledgement. *)
Lemma write_not_getack cmd : is_write_command (to_upper (default [] (head cmd))) = true -> is_getack cmd = false.
Proof.
  intros H. unfold is_getack. destruct cmd as [|a0 [|a1 rest]]; [done..|].
  change (default [] (head (a0 :: a1 :: rest))) with a0 in H.
  destruct (bool_decide (to_upper a0 = bs "REPLCONF")) eqn:E; [|done]. apply bool_decide_eq_true in E.
  by rewrite E in H.
Qed.

Lemma writes_executed cmds o : executed (writes_of cmds) = writes_of cmds /\ acks o (writes_of cmds) = [].
Proof.
  unfold executed, acks. revert o. induction cmds as [|cmd cmds IH]; intros o; [done|].
  unfold writes_of in *. rewrite filter_cons. case_decide as Hw; [|apply IH].
  apply write_not_getack in Hw. cbn [offsets]. rewrite !filter_cons. cbn [fst]. rewrite Hw.
  destruct (IH (o + zlen (encode_array cmd))) as [H1 H2]. split; [cbn; by rewrite H1|exact H2].
Qed.

Lemma consume_pending fd n fd' p : pending_to fd' (pool_consume fd n p) = pending_to fd' p.
Proof.
  unfold pending_to, pool_consume. destruct (connections_ p !! fd) as [conn|] eqn:E; [|done]. simpl.
  destruct (decide (fd = fd')) as [->|]; rewrite ?lookup_insert_eq, ?lookup_insert_ne, ?E by done; done.
Qed.

Lemma consume_open fd n fd' p :
  is_Some (connections_ p !! fd') -> is_Some (connections_ (pool_consume fd n p) !! fd').
Proof.
  unfold pool_consume. destruct (connections_ p !! fd) as [conn|] eqn:E; [|done]. simpl.
  destruct (decide (fd = fd')) as [->|]; rewrite ?lookup_insert_eq, ?lookup_insert_ne by done; [by eexists|done].
Qed.

(** An event on a descriptor that is neither the master, a replica nor the listener. *)
Lemma dispatch_client sin cos asin fd i ev :
  match replica_conn ev with Some r => fd <> rc_fd_ r | None => True end ->
  contains fd (replica_mgr ev) = false -> fd <> listener ev ->
  dispatch_event sin cos asin fd i ev = on_client sin cos asin fd i ev.
Proof.
  intros Hm Hc Hl. unfold dispatch_event. rewrite Hc, (proj2 (Z.eqb_neq fd (listener ev)) Hl).
  destruct (replica_conn ev) as [r|]; [|done]. by rewrite (proj2 (Z.eqb_neq _ _) Hm).
Qed.

(** ** Deadlines *)
Definition pending_deadline (ev : EventContext) (d : Z) : Prop :=
  (exists bm k b, blocking_manager (ec_handler ev) = Some bm /\ b ∈ waiting k bm
     /\ is_indefinite b = false /\ deadline b = d)
  \/ next_deadline (replica_mgr ev) = Some d.

Definition first_deadline (ev : EventContext) : option Z :=
  earliest_deadline (match blocking_manager (ec_handler ev) with
                     | Some bm => get_next_deadline bm
                     | None => None
                     end) (next_deadline (replica_mgr ev)).

Lemma first_deadline_spec ev :
  match first_deadline ev with
  | Some d => pending_deadline ev d /\ forall d', pending_deadline ev d' -> d <= d'
  | None => forall d, ~ pending_deadline ev d
  end.
Proof.
  unfold first_deadline, pending_deadline.
  set (b := match blocking_manager (ec_handler ev) with Some _ => _ | None => _ end).
  assert (match b with
          | Some d => (exists bm k c, blocking_manager (ec_handler ev) = Some bm /\ c ∈ waiting k bm
                         /\ is_indefinite c = false /\ deadline c = d)
             /\ forall bm k c, blocking_manager (ec_handler ev) = Some bm -> c ∈ waiting k bm ->
                  is_indefinite c = false -> d <= deadline c
          | None => forall bm k c, blocking_manager (ec_handler ev) = Some bm -> c ∈ waiting k bm ->
                      is_indefinite c = true
          end) as Hb.
  { unfold b. destruct (blocking_manager (ec_handler ev)) as [bm|]; [|done].
    destruct (get_next_deadline bm) as [d|] eqn:E.
    - apply fold_earlier in E as ([Hd|(c & [k Hc]%in_all_waiting & ? & ?)] & _ & Hall); [done|].
      split; [eauto 10|]. intros bm' k' c' [= <-] Hc'. apply Hall, in_all_waiting. eauto.
    - apply fold_earlier_None in E as [_ Hall]. intros bm' k c [= <-] Hc. apply Hall, in_all_waiting. eauto. }
  clearbody b. destruct (next_deadline (replica_mgr ev)) as [w|], b as [d|]; cbn [earliest_deadline].
  - destruct Hb as [Hex Hall]. destruct (w <? d) eqn:E; b2p; (split; [auto|]);
      intros d' [(bm & k & c & H1 & H2 & H3 & <-)|[= <-]]; try lia; specialize (Hall _ _ _ H1 H2 H3); lia.
  - split; [by right|]. intros d' [(bm & k & c & H1 & H2 & H3 & <-)|[= <-]]; [|lia].
    by rewrite (Hb _ _ _ H1 H2) in H3.
  - destruct Hb as [Hex Hall]. split; [by left|]. intros d' [(bm & k & c & H1 & H2 & H3 & <-)|?]; [eauto|done].
  - intros d [(bm & k & c & H1 & H2 & H3 & <-)|?]; [|done]. by rewrite (Hb _ _ _ H1 H2) in H3.
Qed.

Lemma time_left_spec now d ms :
  time_left now (Some d) = Ret ms -> 0 <= ms /\ now + ms * 1000000 <= Z.max now d < now + (ms + 1) * 1000000.
Proof.
  unfold time_left. destruct (d <=? now) eqn:E; b2p; [intros [= <-]; lia|].
  destruct (int64_of (d - now)) as [ns| |] eqn:En; [|done..]. apply int64_of_Ret in En as [-> _]. intros [= <-].
  rewrite Z.quot_div_nonneg by lia. pose proof (Z.div_mod (d - now) 1000000). pose proof (Z.mod_pos_bound (d - now) 1000000).
  assert (0 <= (d - now) / 1000000) by (apply Z.div_pos; lia). lia.
Qed.

(** ** Answers to the clients whose time is up *)
Lemma send_each_some msg fd l : forall p,
  fd ∈ l -> is_Some (connections_ p !! fd) ->
  exists b, pending_to fd (fold_left (fun p fd => send_to fd msg p) l p) = b ++ msg.
Proof.
  induction l as [|x l IH] using rev_ind; intros p Hin Ho; [by inversion Hin|].
  rewrite fold_left_app. cbn [fold_left]. rewrite send_to_pending.
  destruct (decide (fd = x)) as [->|Hne].
  - destruct (proj2 (send_each_open id msg l x p) Ho) as [conn Hc]. unfold id in Hc. rewrite Hc. eauto.
  - rewrite app_nil_r. apply IH; [|done]. apply elem_of_app in Hin as [?|?%list_elem_of_singleton]; done.
Qed.

Lemma send_each_wf {A} (f : A -> Z) msg l : forall p,
  pool_wf p -> pool_wf (fold_left (fun p x => send_to (f x) msg p) l p).
Proof.
  induction l as [|x l IH]; intros p Hp; [done|]. simpl. apply IH. by eapply pool_step_wf; [apply step_send|].
Qed.

(** One flush hands over the whole output of a connection. *)
Lemma flush_pool_written sends ev ev' w fd :
  pool_wf (pool ev) -> flush_pool sends ev = (ev', w) -> pending_to fd (pool ev) <> [] ->
  (fd, send_loop (sends fd) (pending_to fd (pool ev)) 0) ∈ w.
Proof.
  unfold flush_pool, flush_all, pending_to. intros Hwf H Hne.
  destruct (connections_ (pool ev) !! fd) as [conn|] eqn:Ec; [|done].
  destruct (Hwf _ _ Ec) as (Hfd & Hnn & Hp & Hd).
  pose proof (flush_loop_written sends (dirty_fds_ (pool ev)) (connections_ (pool ev)) [] fd
    (fd, send_loop (sends fd) (pending_write_ conn) 0)) as Hw.
  destruct (fold_left _ _ _) as [cs wr]. injection H as _ <-. apply Hw. right. exists conn. rewrite Hfd. auto.
Qed.

Lemma flush_pool_open sends ev ev' w :
  pool_wf (pool ev) -> flush_pool sends ev = (ev', w) ->
  pool_wf (pool ev') /\ blocking_manager (ec_handler ev') = blocking_manager (ec_handler ev)
  /\ replica_mgr ev' = replica_mgr ev
  /\ forall fd, is_Some (connections_ (pool ev) !! fd) -> is_Some (connections_ (pool ev') !! fd).
Proof.
  unfold flush_pool. intros Hwf H. pose proof (pool_step_wf _ _ (step_flush (pool ev) sends) Hwf) as Hwf'.
  assert (forall fd, is_Some (connections_ (pool ev) !! fd) -> is_Some (connections_ (flush_all sends (pool ev)).1 !! fd)) as Ho.
  { intros fd [conn Hc]. rewrite (flush_all_lookup _ _ _ _ Hwf Hc). by eexists. }
  destruct (flush_all sends (pool ev)) as [p wr]. simplify_eq/=. done.
Qed.

Lemma expire_wait_pool now ev :
  blocking_manager (ec_handler (expire_wait now ev)) = blocking_manager (ec_handler ev)
  /\ exists fd b, pool (expire_wait now ev) = pool ev \/ pool (expire_wait now ev) = send_to fd b (pool ev).
Proof.
  unfold expire_wait. destruct (check_wait_timeout now (replica_mgr ev)) as [rm [w|]]; (split; [done|]).
  - exists (wr_client_fd w), (encode_integer (wr_count w)). by right.
  - exists 0, []. by left.
Qed.

Lemma finish_rewrite_pool status ev :
  blocking_manager (ec_handler (finish_rewrite status ev)) = blocking_manager (ec_handler ev)
  /\ pool (finish_rewrite status ev) = pool ev.
Proof.
  unfold finish_rewrite. destruct (aof_manager (ec_handler ev)); [|done].
  by destruct (check_rewrite_complete _ _ _) as [[? ?] ?].
Qed.

(** Between the two flushes. *)
Lemma expiry_spec now1 now2 status ev bm :
  pool_wf (pool ev) -> blocking_manager (ec_handler ev) = Some bm ->
  let ev2 := finish_rewrite status (expire_wait now2 (expire_blocked now1 ev)) in
  pool_wf (pool ev2) /\ blocking_manager (ec_handler ev2) = Some (get_expired_clients now1 bm).1
  /\ forall fd, fd ∈ (get_expired_clients now1 bm).2 -> is_Some (connections_ (pool ev) !! fd) ->
       exists before after, pending_to fd (pool ev2) = before ++ encode_null_array ++ after.
Proof.
  intros Hwf Hbm ev2. destruct (finish_rewrite_pool status (expire_wait now2 (expire_blocked now1 ev))) as [Hb2 Hp2].
  destruct (expire_wait_pool now2 (expire_blocked now1 ev)) as [Hb1 (wfd & wb & Hp1)].
  fold ev2 in Hb2, Hp2. rewrite Hb1 in Hb2. unfold expire_blocked in *. rewrite Hbm in *.
  destruct (get_expired_clients now1 bm) as [bm' expired]. cbn [fst snd].
  set (p1 := fold_left (fun p fd => send_to fd encode_null_array p) expired (pool ev)) in *.
  assert (pool_wf p1) as Hwf1 by (by apply (send_each_wf id)).
  change (pool (on_pool _ _)) with p1 in Hp1. rewrite Hp2. split_and!.
  - destruct Hp1 as [->| ->]; [done|]. by eapply pool_step_wf; [apply step_send|].
  - done.
  - intros fd Hin Ho. destruct (send_each_some encode_null_array fd expired (pool ev) Hin Ho) as [b Hb].
    fold p1 in Hb. destruct Hp1 as [->| ->]; [exists b, []; by rewrite app_nil_r|].
    rewrite send_to_pending, Hb, <- app_assoc. eauto.
Qed.

(** ** Acknowledgements *)
Lemma small_offset n : 0 <= n <= INT64_MAX -> small (to_string n).
Proof.
  intros [H0 Hn]. unfold small. rewrite to_string_dec by done. unfold dec_digits, zlen.
  assert (forall fuel n acc, length (dec_go fuel n acc) <= fuel + length acc)%nat as H.
  { induction fuel as [|f IH]; intros m acc; cbn [dec_go]; [lia|]. destruct (m <? 10); [simpl; lia|].
    specialize (IH (m / 10) (digit_char (m mod 10) :: acc)). simpl in IH. lia. }
  specialize (H (S (Z.to_nat (Z.log2 n))) n []). change (length (@nil ascii)) with 0%nat in H.
  pose proof (Z.log2_le_mono n INT64_MAX Hn) as Hlog. change (Z.log2 INT64_MAX) with 62 in Hlog.
  pose proof (Z.log2_nonneg n). unfold INT32_MAX. lia.
Qed.

Definition ack_command (n : Z) : list bytes := [bs "REPLCONF"; bs "ACK"; to_string n].
Definition getack_command : list bytes := [bs "REPLCONF"; bs "GETACK"; bs "*"].

Lemma ack_command_offset n : 0 <= n <= INT64_MAX -> sendable (ack_command n) /\ ack_offset (ack_command n) = Some n.
Proof.
  intros Hn. split.
  - split; [done|]. repeat (constructor; [done|]). constructor; [by apply small_offset|constructor].
  - unfold ack_offset, ack_command. rewrite !bool_decide_true by done. cbn [andb].
    apply parse_int64_to_string. unfold in_int64, INT64_MIN. lia.
Qed.

(** A stream of writes between two requests is acknowledged at the requests. *)
Lemma acks_plain o cmds : Forall (fun cmd => is_getack cmd = false) cmds -> acks o cmds = [].
Proof.
  intros H. unfold acks. revert o. induction H as [|cmd cmds Hc _ IH]; intros o; [done|].
  cbn [offsets]. rewrite filter_cons. cbn [fst]. rewrite Hc. apply IH.
Qed.

Lemma executed_plain cmds : Forall (fun cmd => is_getack cmd = false) cmds -> executed cmds = cmds.
Proof.
  unfold executed. induction 1 as [|cmd cmds Hc _ IH]; [done|]. by rewrite filter_cons_True, IH by done.
Qed.

Lemma acks_getack o cmds : acks o (getack_command :: cmds) = ack o ++ acks (o + zlen getack) cmds.
Proof. done. Qed.

(** ** WAIT *)

(** One round: the master propagates writes, handles a WAIT for one replica, and takes the
    acknowledgement of the replica on [rfd]. *)
Definition wait_round (rfd fd now timeout : Z) (ws : list (list bytes)) (acked : Z) (ev : EventContext)
  : outcome EventContext :=
  ev ← propagate_all (encode_array <$> ws) ev;
  ev ← answer_wait fd now 1 timeout ev;
  '(rm, result) ← process_ack rfd (ack acked) (replica_mgr ev);
  let ev := with_replica_mgr rm ev in
  Ret (match ack_wait result with
       | Some w => on_pool (send_to (wr_client_fd w) (encode_integer (wr_count w))) ev
       | None => ev
       end).

Lemma encode_all_positive cmds : cmds <> [] -> 0 < zlen (encode_all cmds).
Proof.
  destruct cmds as [|cmd cmds]; [done|]. intros _. rewrite encode_all_cons, zlen_app.
  pose proof (encode_array_nonempty cmd). pose proof (zlen_nonneg (encode_all cmds)). unfold zlen at 1. lia.
Qed.

(** The writes reach the one replica and raise the offset of the master. *)
Lemma propagate_one ws ev rfd a m :
  replica_mgr ev = mkReplicaManager [mkReplicaState rfd a] m None -> is_Some (connections_ (pool ev) !! rfd) ->
  0 <= m -> m + zlen (encode_all ws) <= INT64_MAX ->
  exists ev', propagate_all (encode_array <$> ws) ev = Ret ev'
    /\ replica_mgr ev' = mkReplicaManager [mkReplicaState rfd a] (m + zlen (encode_all ws)) None
    /\ pending_to rfd (pool ev') = pending_to rfd (pool ev) ++ encode_all ws
    /\ is_Some (connections_ (pool ev') !! rfd).
Proof.
  revert ev m. induction ws as [|w ws IH]; intros ev m Hrm Ho H0 Hmax.
  { exists ev. change (zlen (encode_all [])) with 0 in *. rewrite Z.add_0_r, app_nil_r. done. }
  rewrite encode_all_cons, zlen_app in *. pose proof (zlen_nonneg (encode_array w)). pose proof (zlen_nonneg (encode_all ws)).
  cbn [fmap list_fmap propagate_all]. unfold propagate. rewrite Hrm. cbn [master_offset_ replicas_ wait_state_].
  rewrite int64_of_ret by (unfold in_int64, INT64_MIN; lia). cbn [mbind outcome_bind].
  set (ev1 := send_to_replicas _ _).
  assert (Hp1 : pool ev1 = send_to rfd (encode_array w) (pool ev)) by done.
  destruct (IH ev1 (m + zlen (encode_array w))) as (ev' & -> & Hrm' & Hp' & Ho'); [done|rewrite Hp1; by apply send_to_open|lia..|].
  exists ev'. split_and!; [done|rewrite Hrm'; f_equal; lia| |done].
  rewrite Hp', Hp1, send_to_pending, decide_True, <- app_assoc by done. by destruct Ho as [conn ->].
Qed.

Lemma process_ack_one rfd acked a m w :
  0 <= acked <= INT64_MAX ->
  process_ack rfd (ack acked) (mkReplicaManager [mkReplicaState rfd a] m w)
  = let (rm, result) := finish_wait (mkReplicaManager [mkReplicaState rfd acked] m w) in
    Ret (rm, mkAckResult result (zlen (ack acked))).
Proof.
  intros Ha. destruct (ack_command_offset acked Ha) as [Hs Ho].
  assert (ack acked = encode_all [ack_command acked]) as Hack by (by rewrite encode_all_cons, app_nil_r).
  unfold process_ack. cbn [replicas_ find_index r_fd]. rewrite Z.eqb_refl. cbv zeta.
  change (default _ ([mkReplicaState rfd a] !! 0%nat)) with (mkReplicaState rfd a). cbn [r_offset r_fd]. rewrite Hack.
  pose proof (ack_loop_stream (length (encode_all [ack_command acked])) [] [ack_command acked] [] a) as Hl.
  rewrite app_nil_r in Hl. cbn [app length Nat.add] in Hl.
  rewrite Hl; [|by apply Forall_singleton|by left|lia]. cbn [mbind outcome_bind fold_left]. rewrite Ho. done.
Qed.

(** A round whose WAIT has to ask, with an acknowledgement that covers the writes. *)
Lemma wait_round_spec rfd fd now timeout ws acked a m ev :
  0 <= now -> 0 <= timeout -> now + timeout * 1000000 <= INT64_MAX -> fd <> rfd ->
  replica_mgr ev = mkReplicaManager [mkReplicaState rfd a] m None -> is_Some (connections_ (pool ev) !! rfd) ->
  0 <= m -> a < m + zlen (encode_all ws) <= acked -> 0 < m + zlen (encode_all ws) -> acked <= INT64_MAX ->
  exists ev', wait_round rfd fd now timeout ws acked ev = Ret ev'
    /\ replica_mgr ev' = mkReplicaManager [mkReplicaState rfd acked] (m + zlen (encode_all ws)) None
    /\ pending_to rfd (pool ev') = pending_to rfd (pool ev) ++ encode_all ws ++ getack
    /\ is_Some (connections_ (pool ev') !! rfd).
Proof.
  intros Hnow Ht Htmax Hfd Hrm Ho H0 Ha Hpos Hmax. unfold wait_round.
  destruct (propagate_one ws ev rfd a m Hrm Ho H0 ltac:(lia)) as (ev1 & -> & Hrm1 & Hp1 & Ho1). cbn [mbind outcome_bind].
  set (o := m + zlen (encode_all ws)) in *. unfold answer_wait. rewrite Hrm1. cbn [master_offset_].
  unfold count_acked_for at 1. cbn [replicas_ fold_left r_offset].
  rewrite (proj2 (Z.eqb_neq o 0)), (proj2 (Z.leb_gt o a)) by lia. cbn [orb Z.leb Z.compare].
  unfold start_wait. cbn [replicas_ master_offset_].
  assert (exists d, (if timeout =? 0 then Ret now else ns ← int64_of (timeout * 1000000); int64_of (now + ns)) = Ret d) as [d ->].
  { destruct (timeout =? 0); [eauto|]. rewrite int64_of_ret by (unfold in_int64, INT64_MIN; lia). cbn [mbind outcome_bind].
    rewrite int64_of_ret by (unfold in_int64, INT64_MIN; lia). eauto. }
  cbn [mbind outcome_bind]. set (ev2 := send_to_replicas getack _).
  change (replica_mgr ev2) with (mkReplicaManager [mkReplicaState rfd a] o (Some (mkWaitState fd 1 o d))).
  rewrite process_ack_one by lia. unfold finish_wait. cbn [wait_state_ w_target_offset w_numreplicas w_client_fd replicas_ master_offset_].
  unfold count_acked_for. cbn [replicas_ fold_left r_offset]. rewrite (proj2 (Z.leb_le o acked)) by lia.
  cbn [Z.leb Z.compare Z.add mbind outcome_bind ack_wait wr_client_fd wr_count].
  eexists. split; [reflexivity|]. split; [done|].
  match goal with |- context [pool ?e] => change (pool e) with (send_to fd (encode_integer 1) (send_to rfd getack (pool ev1))) end.
  split.
  - rewrite !send_to_pending, (decide_False _ _ (not_eq_sym Hfd)), (decide_True _ _ (eq_refl rfd)), app_nil_r, Hp1, <- app_assoc.
    by destruct Ho1 as [conn ->].
  - by rewrite !send_to_open.
Qed.

(** The replica's answers to a stream of writes with two requests. *)
Lemma replica_answers w1 w2 r :
  Forall (fun cmd => is_getack cmd = false) (w1 ++ w2) -> Forall sendable (w1 ++ w2) ->
  zlen (encode_all w1) + zlen (encode_all w2) + 2 * zlen getack <= INT64_MAX ->
  pending_buffer_ r = encode_all (w1 ++ getack_command :: w2 ++ [getack_command]) -> offset_ r = 0 ->
  exists r', process_buffer_impl r
    = Ret (mkProcessedBuffer (ack (zlen (encode_all w1)) ++ ack (zlen (encode_all w1) + zlen getack + zlen (encode_all w2)))
             (encode_array <$> w1 ++ w2), r').
Proof.
  intros [Hg1 Hg2]%Forall_app [Hs1 Hs2]%Forall_app Hmax Hp Ho. unfold process_buffer_impl. rewrite Hp, Ho.
  set (cmds := w1 ++ _). assert (Hlen : zlen (encode_all cmds) = zlen (encode_all w1) + zlen (encode_all w2) + 2 * zlen getack).
  { unfold cmds, encode_all. rewrite !fmap_app, !join_app, fmap_cons, fmap_app.
    change (mjoin (?x :: ?y)) with (x ++ mjoin y). rewrite join_app, !zlen_app. cbn [fmap list_fmap].
    change (mjoin [encode_array getack_command]) with (getack ++ []). rewrite app_nil_r.
    change (encode_array getack_command) with getack. lia. }
  assert (Hget : sendable getack_command) by (apply (bool_decide_unpack _); by vm_compute).
  assert (Hs : Forall sendable cmds).
  { apply Forall_app. split; [done|]. apply Forall_cons. split; [done|]. apply Forall_app. split; [done|].
    by apply Forall_singleton. }
  pose proof (process_buffer_stream cmds []) as H. rewrite app_nil_r in H.
  rewrite (H Hs (or_introl eq_refl) _ 0) by (cbn [length]; lia).
  cbn [mbind outcome_bind ack_responses commands app]. eexists. do 3 f_equal.
  - unfold cmds. rewrite acks_app, acks_plain, app_nil_l, acks_getack, acks_app, acks_plain, acks_getack, app_nil_l by done.
    rewrite app_nil_r, Z.add_0_l. done.
  - unfold cmds. rewrite executed_app. change (executed (getack_command :: ?l)) with (executed l).
    by rewrite executed_app, !executed_plain, app_nil_r by done.
Qed.

(** ** The handshake *)

(** A whole message goes out when every call takes at least a byte and there are calls
    enough. *)
Lemma send_message_all msg : forall results sent,
  Forall (fun n => 0 < n) results -> 0 <= sent -> zlen msg <= sent + zlen results ->
  exists rest, send_message results msg sent = (true, rest, msg) /\ Forall (fun n => 0 < n) rest
    /\ zlen results <= zlen rest + Z.max 0 (zlen msg - sent).
Proof.
  induction results as [|n results IH]; intros sent Hr Hs Hl; cbn [send_message];
    (destruct (zlen msg <=? sent) eqn:E; b2p; [eexists; split; [done|]; split; [done|]; lia|]).
  - change (zlen []) with 0 in Hl. lia.
  - apply Forall_cons in Hr as [Hn Hr]. rewrite (proj2 (Z.leb_gt _ _)) by done.
    assert (zlen (n :: results) = 1 + zlen results) as Hz by (unfold zlen; simpl; lia). rewrite Hz in *.
    destruct (IH (sent + n)) as (rest & -> & Hrest & Hle); [done|lia..|]. exists rest. split; [done|]. split; [done|]. lia.
Qed.

Lemma send_on_all msg s :
  Forall (fun n => 0 < n) (send_results s) -> zlen msg <= zlen (send_results s) ->
  exists rs, send_on msg s = (true, mkSocket (connects s) rs (reads s) (incoming s) (wire s ++ msg))
    /\ Forall (fun n => 0 < n) rs /\ zlen (send_results s) <= zlen rs + zlen msg.
Proof.
  intros Hr Hl. unfold send_on. destruct (send_message_all msg (send_results s) 0 Hr) as (rs & -> & Hrs & Hle); [lia..|].
  exists rs. split; [done|]. split; [done|]. pose proof (zlen_nonneg msg). lia.
Qed.

Lemma expect_reply args expected s r r1 ks rest :
  ensure_connected s r = (true, r1) -> Forall (fun n => 0 < n) (send_results s) ->
  zlen (encode_array args) <= zlen (send_results s) ->
  (0 < length expected <= 256)%nat -> reads s = length expected :: ks -> incoming s = expected ++ rest ->
  exists rs, send_and_expect args expected s r
      = (true, mkSocket (connects s) rs ks rest (wire s ++ encode_array args), r1)
    /\ Forall (fun n => 0 < n) rs /\ zlen (send_results s) <= zlen rs + zlen (encode_array args).
Proof.
  intros He Hp Hl Hlen Hk Hin. unfold send_and_expect, send_and_check. rewrite He. cbn [negb].
  destruct (send_on_all (encode_array args) s Hp Hl) as (rs & -> & Hrs & Hle). cbn [negb]. exists rs.
  split; [|done]. unfold read_from_master. cbn [reads incoming connects send_results wire]. rewrite Hk, Hin.
  rewrite Nat.min_l, take_app_length, drop_app_length by lia.
  rewrite (proj2 (Nat.eqb_neq _ _)) by lia. by rewrite bool_decide_true.
Qed.

Lemma connected_already s r : 0 <= rc_fd_ r -> ensure_connected s r = (true, r).
Proof. intros H. unfold ensure_connected. by rewrite (proj2 (Z.ltb_ge _ _)). Qed.

(** The line that answers PSYNC, without its line end. *)
Definition resync_line (replid : bytes) (offset : Z) : bytes :=
  bs "+FULLRESYNC " ++ replid ++ bs " " ++ to_string offset.

Lemma digits_no_cr n : CR ∉ to_string n.
Proof.
  assert (forall m, 0 <= m -> CR ∉ dec_digits m) as Hd.
  { intros m Hm Hin. pose proof (dec_digits_digits m Hm) as H. rewrite Forall_forall in H. by apply H in Hin. }
  unfold to_string. destruct (n <? 0) eqn:E; b2p; [|by apply Hd]. apply not_elem_of_cons. split; [done|apply Hd; lia].
Qed.

Lemma psync_reply replid offset s r k ks rest :
  0 <= rc_fd_ r -> pending_buffer_ r = [] -> CR ∉ replid ->
  Forall (fun n => 0 < n) (send_results s) -> zlen (encode_array [bs "PSYNC"; bs "?"; bs "-1"]) <= zlen (send_results s) ->
  let line := resync_line replid offset in
  (length line + 2 <= Nat.min k 512)%nat -> reads s = k :: ks -> incoming s = line ++ CRLF ++ rest ->
  exists rs p rest', send_psync s r
      = (true, mkSocket (connects s) rs ks rest' (wire s ++ encode_array [bs "PSYNC"; bs "?"; bs "-1"]),
         set_pending_buffer p r)
    /\ p ++ rest' = rest.
Proof.
  intros Hfd Hpb Hcr Hp Hl line Hk Hr Hin. unfold send_psync. rewrite connected_already by done. cbn [negb].
  destruct (send_on_all _ s Hp Hl) as (rs & -> & _ & _). cbn [negb].
  unfold read_from_master. cbn [reads incoming connects send_results wire]. rewrite Hr, Hin.
  set (m := Nat.min k 512) in *. assert (length CRLF = 2%nat) as HC by done.
  assert (take m (line ++ CRLF ++ rest) = line ++ CRLF ++ take (m - length line - 2) rest) as Htake.
  { rewrite take_app_ge by lia. f_equal. rewrite take_app_ge by lia. by rewrite HC. }
  assert (drop m (line ++ CRLF ++ rest) = drop (m - length line - 2) rest) as Hdrop.
  { rewrite drop_app_ge by lia. rewrite drop_app_ge by lia. by rewrite HC. }
  rewrite Htake, Hdrop. set (q := (m - length line - 2)%nat).
  rewrite (proj2 (Nat.eqb_neq _ _)) by (rewrite !length_app; lia).
  change (starts_with (bs "+FULLRESYNC") (line ++ CRLF ++ take q rest)) with true. cbn [negb].
  assert (CR ∉ line) as Hno.
  { unfold line, resync_line. rewrite !elem_of_app. pose proof (digits_no_cr offset) as Hdig.
    intros [H|[H|[H|H]]]; [|done| |done]; revert H; apply (bool_decide_unpack _); vm_compute; exact I. }
  rewrite find_crlf_line by done.
  assert (drop (length line + 2) (line ++ CRLF ++ take q rest) = take q rest) as ->.
  { rewrite app_assoc. change 2%nat with (length CRLF). by rewrite <- length_app, drop_app_length. }
  exists rs, (take q rest), (drop q rest). split; [|apply take_drop].
  case_bool_decide as Hq; [|done]. rewrite Hq. destruct r; simpl in Hpb. by subst.
Qed.

(** What a handler of the master replies. *)
Definition reply_of {A} (m : M A) (e : env) (c : CommandContext) : bytes :=
  match m e (with_out [] c) with
  | Ret (_, c') => emitted (out c')
  | _ => []
  end.

Definition handshake_commands (port : Z) : list (list bytes) :=
  [[bs "PING"]; [bs "REPLCONF"; bs "listening-port"; to_string port]; [bs "REPLCONF"; bs "capa"; bs "psync2"];
   [bs "PSYNC"; bs "?"; bs "-1"]].

Lemma ping_reply fd e c : in_subscribed_mode fd c = false -> reply_of (handle_ping fd) e c = bs "+PONG" ++ CRLF.
Proof.
  intros H. unfold reply_of, handle_ping. mstep. cbn [pubsub_manager with_out]. unfold in_subscribed_mode in H.
  destruct (pubsub_manager c) as [ps|]; [rewrite H, andb_false_r|]; mstep; done.
Qed.

Lemma psync_reply_of e c :
  reply_of handle_psync e c
  = resync_line (master_replid (config c)) (default 0 (offset_fn c)) ++ CRLF ++ rdb_line kEmptyRdb ++ CRLF ++ kEmptyRdb.
Proof.
  unfold reply_of, handle_psync. mstep. cbn [out with_out config offset_fn app]. unfold emitted.
  cbn [fmap list_fmap mjoin list_join]. rewrite app_nil_r. unfold resync_line.
  change (rdb_line kEmptyRdb) with (bs "$88"). by rewrite <- !app_assoc.
Qed.

(** * Properties *)

(** C8: replication from end to end.  When a client's commands have all run, none of them
    blocks, waits or starts a replication, and the replicas are connected, the commands
    among them that write, and only they, are put in front of every replica's connection,
    byte for byte and in their order, and the master's offset grows by their length.  A
    replica that receives these bytes, cut into reads in any way that does not split the
    line end of a command, takes exactly these commands from them, and its offset grows
    by the same length. *)
Theorem writes_reach_every_replica (sin cos asin : double -> double) (fd : Z) (i : event_input) (ev : EventContext)
    (cmds : list (list bytes)) (p : ConnectionPool) (rest : bytes) (result : ProcessResult) (c : CommandContext) :
  replica_conn ev = None -> contains fd (replica_mgr ev) = false -> fd <> listener ev ->
  Forall streamable cmds -> read_from fd (available i) (pool ev) = Ret (p, Some (encode_all cmds), rest) ->
  process_with_fd sin cos asin (clock i 0) true fd (encode_all cmds)
    (with_fns (replica_mgr ev) (with_pool (Some p) (ec_handler ev))) = Ret (result, c) ->
  state result = Normal ->
  replica_fds ev <> [] -> NoDup (replica_fds ev) ->
  Forall (fun fd => is_Some (connections_ (default empty_pool (conn_pool c)) !! fd)) (replica_fds ev) ->
  0 <= master_offset_ (replica_mgr ev) ->
  master_offset_ (replica_mgr ev) + zlen (encode_all (writes_of cmds)) <= INT64_MAX ->
  exists ev', dispatch_event sin cos asin fd i ev = Ret ev'
    /\ master_offset_ (replica_mgr ev') = master_offset_ (replica_mgr ev) + zlen (encode_all (writes_of cmds))
    /\ (forall fd', pending_to fd' (pool ev') = pending_to fd' (default empty_pool (conn_pool c))
          ++ (if bool_decide (fd' ∈ replica_fds ev) then encode_all (writes_of cmds) else []))
    /\ forall s r, incoming s = encode_all (writes_of cmds) -> pending_buffer_ r = [] ->
         Forall (fun k => 1 <= k <= 4096)%nat (reads s) -> sum_list (reads s) = length (incoming s) ->
         (forall j, (1 <= j <= length (reads s))%nat -> clean_cut (writes_of cmds) (sum_list (take j (reads s))) = true) ->
         0 <= rc_fd_ r -> 0 <= offset_ r -> offset_ r + zlen (incoming s) <= INT64_MAX ->
         exists s', follow_master (length (reads s)) s r
           = Ret (mkProcessedBuffer [] (encode_array <$> writes_of cmds), s',
                  mkReplicaConnector (host_ r) (port_ r) (rc_fd_ r) [] (offset_ r + zlen (encode_all (writes_of cmds)))).
Proof.
  intros Hrc Hno Hl Hs Hread Hp Hst Hne Hnd Hopen H0 Hmax.
  rewrite dispatch_client by (done || by rewrite Hrc). unfold on_client. rewrite Hread. cbn [mbind outcome_bind].
  change (with_fns (replica_mgr (on_pool (fun _ => p) ev)) (ec_handler (on_pool (fun _ => p) ev)))
    with (with_fns (replica_mgr ev) (with_pool (Some p) (ec_handler ev))).
  rewrite Hp. cbn [mbind outcome_bind]. rewrite Hst. cbn [mbind outcome_bind].
  eapply process_props in Hp as Hprops; [|done|reflexivity| |done].
  2: { unfold count, replica_fds in *. destruct (replicas_ (replica_mgr ev)); [done|]. unfold zlen. simpl. lia. }
  rewrite Hprops. set (ev1 := on_pool _ (with_handler c _)).
  assert (forall fd', pending_to fd' (pool ev1) = pending_to fd' (default empty_pool (conn_pool c))) as Hpend
    by (intros fd'; apply consume_pending).
  destruct (propagate_all_spec (encode_array <$> writes_of cmds) ev1) as (ev' & -> & Hoff & _ & Hall); [exact Hnd| |done..|].
  { eapply Forall_impl; [exact Hopen|]. intros fd'. apply consume_open. }
  exists ev'. split_and!; [done|exact Hoff|intros fd'; by rewrite Hall, Hpend|].
  intros s r Hin Hpb Hk Hsum Hcut Hfd Hor Hm.
  destruct (writes_executed cmds (offset_ r)) as [Hex Hack].
  destruct (follow_master_spec (reads s) (writes_of cmds) s r) as [s' Hf]; try done.
  - by rewrite Hpb, Hin.
  - rewrite Hpb. by left.
  - apply Forall_forall. intros cmd [_ Hcmd]%list_elem_of_filter. rewrite Forall_forall in Hs. by apply Hs.
  - by rewrite <- Hin.
  - intros j Hj. rewrite Hpb. by apply Hcut.
  - exists s'. by rewrite Hf, Hex, Hack.
Qed.

(** A master with a replica on descriptor 8 and a client on descriptor 7. *)
Definition demo_master (offset : Z) : EventContext :=
  mkEventContext 3 {[ 3; 7; 8 ]}
    (with_pool (Some (pool_add 8 (pool_add 7 empty_pool)))
       (new_ctx empty_store (mkServerConfig None (bs "id") (bs "dir") (bs "dump"))))
    (mkReplicaManager [mkReplicaState 8 0] offset None) None (demo_socket [] []).
Definition texts (cmds : list (list string)) : list (list bytes) := map (map bs) cmds.
Definition demo_input (cmds : list (list string)) : event_input :=
  mkEventInput (encode_all (texts cmds)) (-1) (fun _ _ => mkEnv 5 5 true (child_at 5)) 5.
Definition demo_cmds : list (list string) := [["SET"; "k"; "1"]; ["GET"; "k"]; ["incr"; "k"]]%string.

Lemma writes_reach_every_replica_witness :
  exists ev', dispatch_event id id id 7 (demo_input demo_cmds) (demo_master 5) = Ret ev'
    /\ master_offset_ (replica_mgr ev') = 5 + 27 + 21
    /\ pending_to 8 (pool ev') = encode_all [[bs "SET"; bs "k"; bs "1"]; [bs "incr"; bs "k"]].
Proof.
  set (cmds := texts demo_cmds).
  assert (Hr : exists p rest, read_from 7 (available (demo_input demo_cmds)) (pool (demo_master 5))
    = Ret (p, Some (encode_all cmds), rest) /\ exists result c, process_with_fd id id id
      (clock (demo_input demo_cmds) 0) true 7 (encode_all cmds)
      (with_fns (replica_mgr (demo_master 5)) (with_pool (Some p) (ec_handler (demo_master 5)))) = Ret (result, c)
      /\ state result = Normal /\ Forall (fun fd => is_Some (connections_ (default empty_pool (conn_pool c)) !! fd)) [8]
      /\ pending_to 8 (default empty_pool (conn_pool c)) = []).
  { do 2 eexists. split; [vm_compute; reflexivity|]. do 2 eexists. split; [vm_compute; reflexivity|].
    split; [reflexivity|]. split; [|vm_compute; reflexivity]. constructor; [vm_compute; by eexists|constructor]. }
  destruct Hr as (p & rest & Hr & result & c & Hp & Hst & Hopen & Hpend).
  destruct (writes_reach_every_replica id id id 7 (demo_input demo_cmds) (demo_master 5) cmds p rest result c)
    as (ev' & Hd & Hoff & Hall & _);
    [reflexivity|reflexivity|done|by repeat constructor|exact Hr|exact Hp|exact Hst|done|apply NoDup_singleton
    |exact Hopen|done|by vm_compute|].
  - exists ev'. split; [exact Hd|]. split; [exact Hoff|]. rewrite Hall, Hpend. reflexivity.
Defined.

(** C27: a replica cannot execute what its master sends.  Once the handler has its
    connection pool, which the start-up gives it before the first command of a master is
    handled, every command from the master other than a request for an acknowledgement
    makes it look for the connection of the
    descriptor -1, and the exception this throws ends the program. *)
Theorem replica_throws_on_command (sin cos asin : double -> double) (i : event_input) (ev : EventContext)
    (r : ReplicaConnector) (p : ConnectionPool) (cmds : list (list bytes)) (tail : bytes) (k : nat) (ks : list nat) :
  replica_conn ev = Some r -> 0 <= rc_fd_ r -> reads (master_socket ev) = k :: ks ->
  let got := take (Nat.min k 4096) (incoming (master_socket ev)) in
  got <> [] -> pending_buffer_ r ++ got = encode_all cmds ++ tail -> incomplete tail ->
  Forall streamable cmds -> executed cmds <> [] ->
  0 <= offset_ r -> offset_ r + zlen (encode_all cmds) <= INT64_MAX ->
  conn_pool (ec_handler ev) = Some p -> connections_ p !! (-1) = None ->
  in_subscribed_mode (-1) (ec_handler ev) = false ->
  dispatch_event sin cos asin (rc_fd_ r) i ev = Throw StdOutOfRange.
Proof.
  intros Hr Hfd Hk got Hgot Hst Ht Hs Hex Ho Hmax Hp Hno Hsub. unfold dispatch_event. rewrite Hr, Z.eqb_refl.
  unfold on_master, process_propagated_commands, process_buffer_impl. rewrite (proj2 (Z.ltb_ge _ _)) by done.
  unfold read_from_master. rewrite Hk. fold got. rewrite (proj2 (Nat.eqb_neq _ _)) by (by destruct got).
  cbn [set_pending_buffer pending_buffer_ offset_]. rewrite Hst.
  rewrite process_buffer_stream; [|by eapply Forall_impl; [exact Hs|intros ? []]|done|rewrite length_app; lia|done..].
  cbn [mbind outcome_bind commands ack_responses app].
  assert (Forall streamable (executed cmds)) as Hse.
  { apply Forall_forall. intros cmd [_ Hcmd]%list_elem_of_filter. rewrite Forall_forall in Hs. by apply Hs. }
  destruct (executed cmds) as [|cmd rest]; [done|]. apply Forall_cons in Hse as [Hcmd _].
  cbn [fmap list_fmap process_each].
  by rewrite (command_without_client sin cos asin (clock i 0) cmd _ p Hcmd).
Qed.

Lemma replica_throws_on_command_witness :
  let r := demo_connector [] in
  let ev := with_replica_conn (Some r) (demo_socket [64%nat] (encode_all [[bs "SET"; bs "k"; bs "1"]])) (demo_master 0) in
  dispatch_event id id id 5 (demo_input []) ev = Throw StdOutOfRange.
Proof.
  intros r ev.
  apply (replica_throws_on_command id id id (demo_input []) ev r (pool (demo_master 0))
    [[bs "SET"; bs "k"; bs "1"]] [] 64 []); try done; [by left|by repeat constructor].
Defined.

(** C14: the server never sleeps past a deadline.  [compute_timeout] takes every overdue
    client out of its queue and keeps the others in order; the null reply of each overdue
    client that is still connected is the last thing put in front of its connection (but
    for the answer to a WAIT of the same client) and is handed to its socket before the
    server sleeps.  The time it then may sleep ends within the millisecond before the
    earliest deadline that is left, at once when that has passed, and is unlimited only
    when nobody waits with a deadline. *)
Theorem timeout_meets_deadlines (t : timeout_input) (ev ev' : EventContext) (bm : BlockingManager) (ms : Z)
    (written1 written2 : list (Z * bytes)) :
  pool_wf (pool ev) -> blocking_manager (ec_handler ev) = Some bm ->
  compute_timeout t ev = Ret (ms, ev', (written1, written2)) ->
  (exists bm', blocking_manager (ec_handler ev') = Some bm'
     /\ forall k, waiting k bm' = filter (fun b => is_overdue (expired_now t) b = false) (waiting k bm))
  /\ (forall k b, b ∈ waiting k bm -> is_overdue (expired_now t) b = true ->
        is_Some (connections_ (pool ev) !! bc_fd b) ->
        exists before after, (bc_fd b, send_loop (sends_after t (bc_fd b)) (before ++ encode_null_array ++ after) 0)
                             ∈ written2)
  /\ (ms = -1 /\ (forall d, ~ pending_deadline ev' d)
      \/ exists d, pending_deadline ev' d /\ (forall d', pending_deadline ev' d' -> d <= d') /\ 0 <= ms
           /\ deadline_now t + ms * 1000000 <= Z.max (deadline_now t) d < deadline_now t + (ms + 1) * 1000000).
Proof.
  intros Hwf Hbm. unfold compute_timeout.
  destruct (flush_pool (sends_before t) ev) as [ev1 w1] eqn:E1.
  destruct (flush_pool_open _ _ _ _ Hwf E1) as (Hwf1 & Hb1 & _ & Ho1). rewrite Hbm in Hb1.
  destruct (expiry_spec (expired_now t) (check_now t) (rewrite_child t) ev1 bm Hwf1 Hb1) as (Hwf2 & Hb2 & Hans).
  set (ev2 := finish_rewrite _ _) in *. destruct (flush_pool (sends_after t) ev2) as [ev3 w3] eqn:E2.
  destruct (flush_pool_open _ _ _ _ Hwf2 E2) as (_ & Hb3 & _). fold (first_deadline ev3).
  destruct (time_left (deadline_now t) (first_deadline ev3)) as [ms'| |] eqn:Et; [|done..]. intros [= <- <- <- <-].
  pose proof (expired_waiting (expired_now t) bm) as Hw. pose proof (expired_removal (expired_now t) bm) as Hrm.
  split_and!.
  - rewrite Hb3, Hb2. eauto.
  - intros k b Hin Hover Hopen. destruct (Hans (bc_fd b)) as (before & after & Hp); [|by apply Ho1|].
    + apply (rm_fds _ _ _ _ Hrm). apply in_waiting in Hin as [n Hn]. exists k, n, b.
      split_and!; [done|by apply negb_false_iff|done].
    + exists before, after. rewrite <- Hp. eapply flush_pool_written; [done..|]. rewrite Hp. by destruct before.
  - pose proof (first_deadline_spec ev3) as Hd. destruct (first_deadline ev3) as [d|].
    + right. exists d. destruct Hd as [H1 H2]. split; [exact H1|]. split; [exact H2|]. by apply time_left_spec.
    + left. by simplify_eq/=.
Qed.

(** A blocked client whose time is up and one whose time is not. *)
Definition demo_waiting : BlockingManager :=
  default empty_blocking
    (match block_client 0 7 (bs "l") 1 empty_blocking ≫= block_client 0 8 (bs "l") 9 with
     | Ret bm => Some bm
     | _ => None
     end).
Lemma demo_waiting_ok : blocking_wf demo_waiting /\ indexed demo_waiting.
Proof.
  destruct empty_blocking_ok as [Hw Hi].
  assert (E : exists bm, block_client 0 7 (bs "l") 1 empty_blocking = Ret bm
    /\ block_client 0 8 (bs "l") 9 bm = Ret demo_waiting /\ is_blocked 8 bm = false)
    by (eexists; split_and!; vm_compute; reflexivity).
  destruct E as (bm & E1 & E2 & Hb).
  assert (W1 : blocking_wf bm) by (by eapply block_wf).
  assert (I1 : indexed bm) by (eapply block_indexed; [exact Hw|exact Hi|reflexivity|exact E1]).
  split; [by eapply block_wf|by eapply block_indexed].
Qed.

Definition demo_times : timeout_input :=
  mkTimeoutInput (fun _ => [100]) 2000000 2000000 ChildRunning (fun _ => [100]) 2500000.

Lemma timeout_meets_deadlines_witness :
  let ev := with_handler (with_blocking (Some demo_waiting) (ec_handler (demo_master 0))) (demo_master 0) in
  exists ev' w1 w2, compute_timeout demo_times ev = Ret (6, ev', (w1, w2)) /\ w2 = [(7, bs "*-1" ++ CRLF)]
    /\ exists d, pending_deadline ev' d /\ 2500000 + 6 * 1000000 <= Z.max 2500000 d.
Proof.
  intros ev. assert (Hrun : exists ev' w1 w2, compute_timeout demo_times ev = Ret (6, ev', (w1, w2))
    /\ w2 = [(7, bs "*-1" ++ CRLF)]) by (do 3 eexists; split; [vm_compute; reflexivity|reflexivity]).
  destruct Hrun as (ev' & w1 & w2 & Hrun & Hw). exists ev', w1, w2. split; [exact Hrun|]. split; [exact Hw|].
  destruct (timeout_meets_deadlines demo_times ev ev' demo_waiting 6 w1 w2) as (_ & _ & [[Hm _]|(d & Hd & _ & _ & Ht & _)]).
  - apply pool_reach_wf. eapply rtc_l; [by apply (step_add _ 7)|]. eapply rtc_l; [by apply (step_add _ 8)|]. apply rtc_refl.
  - reflexivity.
  - exact Hrun.
  - discriminate Hm.
  - exists d. split; [exact Hd|exact Ht].
Defined.

(** C20: a client that disconnects is forgotten.  Let a client whose connection is at its
    end, and let no client be blocked twice.  Then its connection, its subscriptions, its
    places in the queues of blocked clients and its descriptor in the event loop are
    gone, and everything else of the server is as before: the other connections, the
    other subscriptions, the order of the other blocked clients, the keyspace, the log,
    the users, the replicas with their offsets, and a WAIT the client was in, which is
    answered later on whatever connection then has the descriptor. *)
Theorem disconnect_forgets_client (sin cos asin : double -> double) (fd : Z) (i : event_input) (ev : EventContext)
    (conn : Connection) (bm : BlockingManager) (ps : PubSubManager) :
  match replica_conn ev with Some r => fd <> rc_fd_ r | None => True end ->
  contains fd (replica_mgr ev) = false -> fd <> listener ev -> available i = [] ->
  connections_ (pool ev) !! fd = Some conn -> conn_wf conn ->
  blocking_manager (ec_handler ev) = Some bm -> blocking_wf bm -> indexed bm ->
  pubsub_manager (ec_handler ev) = Some ps ->
  exists bm' ps', dispatch_event sin cos asin fd i ev
      = Ret (mkEventContext (listener ev) (loop ev ∖ {[ fd ]})
               (with_pool (Some (mkConnectionPool (delete fd (connections_ (pool ev))) (dirty_fds_ (pool ev))))
                  (with_pubsub (Some ps') (with_blocking (Some bm') (ec_handler ev))))
               (replica_mgr ev) (replica_conn ev) (master_socket ev))
    /\ (forall ch, ~ subscribed fd ch ps')
    /\ (forall fd' ch, fd' <> fd -> subscribed fd' ch ps' <-> subscribed fd' ch ps)
    /\ (forall k, waiting k bm' = filter (fun b => bc_fd b <> fd) (waiting k bm)).
Proof.
  intros Hm Hno Hl Hav Hconn Hcw Hbm Hbw Hix Hps.
  rewrite dispatch_client by done. unfold on_client, read_from. rewrite Hconn, Hav.
  destruct (handle_read_spec [] conn Hcw) as (conn' & got & rest & -> & Hgot & _).
  destruct got; [|done]. rewrite decide_True by done. cbn [mbind outcome_bind].
  unfold disconnect. cbn [ec_handler on_pool with_handler with_replica_mgr blocking_manager with_pool pubsub_manager replica_mgr].
  rewrite Hbm. destruct (unblock_waiting fd bm Hbw Hix) as (bm' & -> & Hw). cbn [mbind outcome_bind].
  assert (remove_replica fd (replica_mgr ev) = replica_mgr ev) as ->
    by (unfold remove_replica, contains in *; by destruct (find_index fd (replicas_ (replica_mgr ev)))).
  exists bm', (unsubscribe_all fd ps). rewrite Hps. split_and!; [|..|exact Hw].
  - unfold on_pool, pool, pool_remove, put_conn, with_loop, with_handler, remove_connection, remove_fd. cbn.
    by rewrite delete_insert_eq.
  - intros ch [_ Hc]%unsubscribe_all_subscribed. done.
  - intros fd' ch Hne. rewrite unsubscribe_all_subscribed. tauto.
Qed.

Lemma disconnect_forgets_client_witness :
  let ps := (subscribe 8 (bs "news") (subscribe 7 (bs "news") empty_pubsub).1).1 in
  let ev := with_handler (with_pubsub (Some ps) (with_blocking (Some demo_waiting) (ec_handler (demo_master 0))))
              (demo_master 0) in
  exists ev', dispatch_event id id id 7 (demo_input []) ev = Ret ev'
    /\ loop ev' = {[ 3; 7; 8 ]} ∖ {[ 7 ]} /\ replica_mgr ev' = mkReplicaManager [mkReplicaState 8 0] 0 None
    /\ exists bm' ps', blocking_manager (ec_handler ev') = Some bm' /\ pubsub_manager (ec_handler ev') = Some ps'
         /\ ~ subscribed 7 (bs "news") ps' /\ subscribed 8 (bs "news") ps'
         /\ waiting (bs "l") bm' = filter (fun b => bc_fd b <> 7) (waiting (bs "l") demo_waiting).
Proof.
  intros ps ev.
  destruct (disconnect_forgets_client id id id 7 (demo_input []) ev (new_connection 7)
    demo_waiting ps) as (bm' & ps' & Hd & Hno & Hother & Hw);
    [exact I|reflexivity|done|reflexivity|reflexivity|apply new_connection_wf|reflexivity| | |reflexivity|].
  - apply demo_waiting_ok.
  - apply demo_waiting_ok.
  - eexists. split; [exact Hd|]. split; [done|]. split; [done|]. exists bm', ps'.
    split; [done|]. split; [done|]. split; [apply Hno|]. split; [|apply Hw].
    apply Hother; [done|]. vm_compute. done.
Defined.

(** C28: WAIT trusts offsets that are too large.  A replica counts the bytes of every
    request for an acknowledgement, the master does not.  Let a master with one replica,
    both at offset 0, propagate some writes and handle a WAIT for one replica, take the
    acknowledgement the replica sends for the stream so far, and do the same once more
    with further writes.  If it then propagates writes of at most the length of such a
    request, a WAIT is answered at once with one replica, although the replica sent its
    last acknowledgement before these writes went out. *)
Theorem wait_answered_before_write (w1 w2 w3 : list (list bytes)) (rfd fd now timeout : Z) (ev : EventContext) :
  Forall (fun cmd => is_getack cmd = false) (w1 ++ w2) -> Forall sendable (w1 ++ w2) -> w1 <> [] -> w2 <> [] ->
  zlen (encode_all w3) <= zlen getack ->
  zlen (encode_all w1) + zlen (encode_all w2) + 2 * zlen getack <= INT64_MAX ->
  0 <= now -> 0 <= timeout -> now + timeout * 1000000 <= INT64_MAX ->
  replica_mgr ev = mkReplicaManager [mkReplicaState rfd 0] 0 None -> is_Some (connections_ (pool ev) !! rfd) -> fd <> rfd ->
  let stream := w1 ++ getack_command :: w2 ++ [getack_command] in
  let ack1 := zlen (encode_all w1) in
  let ack2 := ack1 + zlen getack + zlen (encode_all w2) in
  (** what the replica answers to the stream *)
  (forall r, pending_buffer_ r = encode_all stream -> offset_ r = 0 ->
     exists r', process_buffer_impl r = Ret (mkProcessedBuffer (ack ack1 ++ ack ack2) (encode_array <$> w1 ++ w2), r'))
  (** what the master does *)
  /\ exists ev1 ev2 ev3,
       wait_round rfd fd now timeout w1 ack1 ev = Ret ev1
       /\ wait_round rfd fd now timeout w2 ack2 ev1 = Ret ev2
       /\ pending_to rfd (pool ev2) = pending_to rfd (pool ev) ++ encode_all stream
       /\ propagate_all (encode_array <$> w3) ev2 = Ret ev3
       /\ pending_to rfd (pool ev3) = pending_to rfd (pool ev2) ++ encode_all w3
       /\ answer_wait fd now 1 timeout ev3 = Ret (on_pool (send_to fd (encode_integer 1)) ev3).
Proof.
  intros Hg Hs H1 H2 H3 Hmax Hnow Ht Htmax Hrm Hopen Hfd stream ack1 ack2. split.
  - intros r Hp Ho. apply (replica_answers w1 w2 r Hg Hs); [lia|done..].
  - pose proof (zlen_nonneg getack). pose proof (zlen_nonneg (encode_all w3)).
    pose proof (encode_all_positive w1 H1) as P1. pose proof (encode_all_positive w2 H2) as P2.
    destruct (wait_round_spec rfd fd now timeout w1 ack1 0 0 ev) as (ev1 & -> & Hrm1 & Hp1 & Ho1);
      [done..|unfold ack1; lia|lia|unfold ack1; lia|].
    destruct (wait_round_spec rfd fd now timeout w2 ack2 ack1 (0 + ack1) ev1) as (ev2 & E2 & Hrm2 & Hp2 & Ho2);
      [exact Hnow|exact Ht|exact Htmax|exact Hfd|exact Hrm1|exact Ho1|unfold ack1, ack2 in *; lia..|].
    fold ack1 in Hrm2. destruct (propagate_one w3 ev2 rfd ack2 (0 + ack1 + zlen (encode_all w2))) as (ev3 & E3 & Hrm3 & Hp3 & _);
      [exact Hrm2|exact Ho2|unfold ack1 in *; lia..|].
    exists ev1, ev2, ev3. split_and!; [done..| |done|done|].
    + rewrite Hp2, Hp1. unfold stream. unfold encode_all. rewrite !fmap_app, !join_app, fmap_cons.
      change (mjoin (?x :: ?y)) with (x ++ mjoin y). cbn [fmap list_fmap]. rewrite fmap_app, join_app, <- !app_assoc. done.
    + unfold answer_wait. rewrite Hrm3. cbn [master_offset_]. unfold count_acked_for, count. cbn [replicas_ fold_left r_offset].
      rewrite (proj2 (Z.leb_le _ ack2)) by (unfold ack1, ack2 in *; lia). by rewrite orb_true_r.
Qed.

Lemma wait_answered_before_write_witness :
  let w := [[bs "SET"; bs "k"; bs "1"]] in
  exists ev1 ev2 ev3, wait_round 8 7 5 1000 w 27 (demo_master 0) = Ret ev1
    /\ wait_round 8 7 5 1000 w 91 ev1 = Ret ev2 /\ propagate_all (encode_array <$> w) ev2 = Ret ev3
    /\ answer_wait 7 5 1 1000 ev3 = Ret (on_pool (send_to 7 (encode_integer 1)) ev3).
Proof.
  intros w. destruct (wait_answered_before_write w w w 8 7 5 1000 (demo_master 0)) as [_ (ev1 & ev2 & ev3 & H1 & H2 & _ & H3 & _ & H4)];
    try done; try by repeat constructor.
  exists ev1, ev2, ev3. split; [exact H1|]. split; [exact H2|]. split; [exact H3|exact H4].
Defined.

(** C18: the handshake of a replica fits the server it connects to.  Against the replies
    of this server's own handlers for PING, REPLCONF and PSYNC, each of the first three
    arriving in a read of its own and the line that answers PSYNC in one read, with the
    snapshot and the commands behind it cut in any way, [connect_if_replica] succeeds; it
    has then sent exactly its four commands, taken exactly the snapshot from the stream,
    and kept every byte behind it, in its pending buffer or unread. *)
Theorem handshake_fits_master (config : ServerConfig) (rc : ReplicaConfig) (port fd mfd : Z) (e : env)
    (c : CommandContext) (s : socket) (k : nat) (ks : list nat) (extra : bytes) :
  replica config = Some rc -> connects s = ConnectedOn fd -> 0 <= fd ->
  in_subscribed_mode mfd c = false -> CR ∉ master_replid (Context.config c) ->
  Forall (fun n => 0 < n) (send_results s) -> zlen (encode_all (handshake_commands port)) <= zlen (send_results s) ->
  let pong := reply_of (handle_ping mfd) e c in
  let ok1 := reply_of (handle_replconf [bs "REPLCONF"; bs "listening-port"; to_string port]) e c in
  let ok2 := reply_of (handle_replconf [bs "REPLCONF"; bs "capa"; bs "psync2"]) e c in
  incoming s = pong ++ ok1 ++ ok2 ++ reply_of handle_psync e c ++ extra ->
  reads s = length pong :: length ok1 :: length ok2 :: k :: ks ->
  (length (resync_line (master_replid (Context.config c)) (default 0%Z (offset_fn c))) + 2 <= Nat.min k 512)%nat ->
  Forall (fun k => 1 <= k)%nat ks -> (length (rdb_line kEmptyRdb ++ CRLF ++ kEmptyRdb) <= length ks)%nat ->
  exists s' p, connect_if_replica config port s
      = (Some (mkReplicaConnector (rc_host rc) (rc_port rc) fd p 0), s')
    /\ wire s' = wire s ++ encode_all (handshake_commands port)
    /\ p ++ incoming s' = extra.
Proof.
  intros Hrc Hcon Hfd Hsub Hcr Hp Hl pong ok1 ok2 Hin Hk Hline Hks Hn.
  assert (pong = bs "+PONG" ++ CRLF) as Hpong by (by apply ping_reply).
  assert (ok1 = bs "+OK" ++ CRLF) as Hok1 by done. assert (ok2 = bs "+OK" ++ CRLF) as Hok2 by done.
  rewrite Hpong, Hok1, Hok2, psync_reply_of in *. clear pong ok1 ok2 Hpong Hok1 Hok2.
  unfold handshake_commands in *. rewrite !encode_all_cons in *. change (encode_all []) with ([] : bytes) in *.
  rewrite !zlen_app in Hl. change (zlen (@nil ascii)) with 0 in Hl.
  set (m1 := encode_array [bs "PING"]) in *. set (m2 := encode_array [bs "REPLCONF"; bs "listening-port"; _]) in *.
  set (m3 := encode_array [bs "REPLCONF"; bs "capa"; _]) in *. set (m4 := encode_array [bs "PSYNC"; _; _]) in *.
  pose proof (zlen_nonneg m1). pose proof (zlen_nonneg m2). pose proof (zlen_nonneg m3). pose proof (zlen_nonneg m4).
  unfold connect_if_replica. rewrite Hrc. unfold send_ping.
  edestruct (expect_reply [bs "PING"] (bs "+PONG" ++ CRLF) s (new_connector (rc_host rc) (rc_port rc)))
    as (rs1 & -> & Hp1 & Hl1);
    [unfold ensure_connected, connect_to_master; cbn [new_connector rc_fd_ Z.ltb Z.compare]; by rewrite Hcon
    |done|fold m1; lia|simpl; lia|done|done|].
  fold m1 in Hl1. cbn [negb]. unfold send_replconf.
  edestruct (expect_reply [bs "REPLCONF"; bs "listening-port"; to_string port] (bs "+OK" ++ CRLF))
    as (rs2 & -> & Hp2 & Hl2); [by apply connected_already|done|cbn [send_results]; fold m2; lia|simpl; lia|done|done|].
  fold m2 in Hl2. cbn [negb send_results] in *.
  edestruct (expect_reply [bs "REPLCONF"; bs "capa"; bs "psync2"] (bs "+OK" ++ CRLF))
    as (rs3 & -> & Hp3 & Hl3); [by apply connected_already|done|cbn [send_results]; fold m3; lia|simpl; lia|done|done|].
  fold m3 in Hl3. cbn [negb send_results] in *.
  edestruct (psync_reply (master_replid (Context.config c)) (default 0 (offset_fn c)))
    as (rs4 & p & rest & -> & Hrest); [|reflexivity|done|exact Hp3|cbn [send_results]; fold m4; lia|exact Hline|reflexivity
      |cbn [incoming]; rewrite <- !app_assoc; reflexivity|]; [done|].
  cbn [negb]. unfold receive_rdb. cbn [rc_fd_ set_pending_buffer set_fd new_connector].
  rewrite (proj2 (Z.ltb_ge _ _)) by done. cbn [reads pending_buffer_].
  set (s4 := mkSocket _ rs4 ks rest _).
  destruct (header_loop_spec kEmptyRdb extra (mkReplicaConnector (rc_host rc) (rc_port rc) fd p 0)
    ltac:(done) ltac:(by vm_compute) ks p s4 eq_refl Hks ltac:(lia) Hrest) as (s' & q & Hh & Hq & Hw).
  change (header_loop ks _ s4 _) with
    (header_loop ks p s4 (set_pending_buffer [] (mkReplicaConnector (rc_host rc) (rc_port rc) fd p 0))). rewrite Hh.
  exists s', q. split; [done|]. split; [|done]. rewrite Hw. unfold s4. cbn [wire]. by rewrite <- !app_assoc, app_nil_r.
Qed.

Definition demo_replica_socket (extra : bytes) : socket :=
  mkSocket (ConnectedOn 5) (replicate 200 1) (7 :: 5 :: 5 :: 60 :: replicate 120 3)%nat
    (bs "+PONG" ++ CRLF ++ bs "+OK" ++ CRLF ++ bs "+OK" ++ CRLF ++ resync_line (bs "id") 0 ++ CRLF
       ++ rdb_line kEmptyRdb ++ CRLF ++ kEmptyRdb ++ extra) [].

Lemma handshake_fits_master_witness :
  exists s' p, connect_if_replica (mkServerConfig (Some (mkReplicaConfig (bs "host") 6379)) [] [] []) 7000
        (demo_replica_socket (bs "*1"))
      = (Some (mkReplicaConnector (bs "host") 6379 5 p 0), s')
    /\ wire s' = encode_all (handshake_commands 7000) /\ p ++ incoming s' = bs "*1".
Proof.
  apply (handshake_fits_master (mkServerConfig (Some (mkReplicaConfig (bs "host") 6379)) [] [] [])
    (mkReplicaConfig (bs "host") 6379) 7000 5 9 (mkEnv 0 0 true (child_at 0)) (ec_handler (demo_master 0))
    (demo_replica_socket (bs "*1")) 60 (replicate 120 3%nat) (bs "*1")); try reflexivity; try done.
  - apply (bool_decide_unpack _). vm_compute. exact I.
  - apply Forall_replicate. lia.
  - vm_compute. lia.
  - apply Forall_replicate. lia.
  - vm_compute. lia.
Defined.
